(* ===== verification/_CoqProject ===== *)
-Q . S2P
Prelude.v
Prog.v
Rely.v
GoText.v
GoNum.v
GoRegexp.v
GoBase64.v
GoPath.v
PluginID.v
Auth.v
Runtime.v
Bundle.v
Loader.v
LoaderFacts.v
EventLog.v
EventLogFacts.v
Provider.v
ProviderFacts.v
LogRead.v
LogReadFacts.v
PluginApi.v
Manager.v
ManagerWorld.v
ManagerFacts.v
ManagerProps.v
Lifecycle.v
ManagerDemo.v
Fence.v
FenceDemo.v
CallFence.v
Conns.v
Host.v
HostFacts.v
HostProps.v
HostDemo.v
HostFence.v
GoFlag.v
Admin.v
AdminFacts.v
Daemon.v
DaemonFacts.v
DaemonPool.v
DaemonDemo.v
Ctl.v
CtlFacts.v
EndToEnd.v
LogsCommand.v
Sdk.v
SdkFacts.v
Handshake.v
SdkDemo.v
SdkEnv.v
Examples.v
TestRoot.v
PluginProc.v
Supervised.v
ExamplesFacts.v
Recovery.v
