(* ===== verification/Prelude.v ===== *)
(** * rpc_plugin_system: a verification library

    The program supervises plugins: separate processes it spawns, authenticates
    over a Unix socket with a single-use token, talks to by net/rpc, restarts,
    and reports on.  Paths below are under src/ of the repository's Go module.

    ** The parts and how they interact

    - internal/kernel/manager.go supervises one plugin process: Start, Kill,
      Restart, Close, the routed calls Echo, Sleep and Crash, Heartbeat, and
      the projections of its state.  Every start is a generation with its own
      token; replies of an older client, epoch or generation are rejected.
    - internal/kernel/monitor.go restarts a plugin whose heartbeat fails.
    - internal/kernel/host.go owns one manager per plugin id and routes to them.
    - internal/adminrpc serves the host on an admin socket; cmd/rpcplugind is
      the daemon around both; cmd/rpcpluginctl (with internal/cli) is the
      client, and the reader of the event logs.
    - pkg/plugin is the plugin's side: its configuration from the environment,
      the server that lets nothing through before authentication, its logger.
    - internal/eventlog writes, rotates, validates and reads the JSONL logs.
    - internal/providerbundle holds, validates, redacts and loads the declared
      metadata of provider bundles, which the manager projects.
    - internal/runtime and internal/auth are the checks on directories,
      sockets, executables and peers, and the tokens.

    ** How the code is modelled

    Pure Go functions are Gallina functions of the same name ([Host_Close] for
    the method Close of Host, where names clash).  A function that calls outside is a
    [prog E A] (file Prog): the tree of its calls, in order, branching over the
    replies.  Its mutex-protected sections are single atomic calls.  What the
    calls may do is a step relation, in which the operating system, the
    plugin, the network and the clock answer as they like, within the bounds
    the relation states: [mgr_step] (ManagerWorld) for a manager, [host_step]
    (HostFacts), [log_step] (EventLog), [read_step] (LogReadFacts), [sdk_step]
    (SdkFacts), [proc_step] (Handshake), [env_step] (SdkEnv), [load_step]
    (LoaderFacts), [serve_step] (AdminFacts), [daemon_step] (DaemonPool),
    [ctl_step] (CtlFacts), [e2e_step] (EndToEnd), [terminal_step] (LogsCommand),
    [disk_step] (ExamplesFacts) and [root_step] (TestRoot).  Liveness is stated on
    [system_step] (Supervised), a manager and a plugin process on a machine
    where nothing fails by itself.  A theorem [wp step p Q s] speaks of every execution
    of [p] from [s].  Goroutines sharing a state are interleaved call by call
    and verified by rely and guarantee: Rely for the SDK, Fence for a manager,
    HostFence and DaemonPool for a host and the daemon.  Errors are values of
    [result] or [option error] with their message and unwrap chain; a uint64
    is a Z with its wrap-around written out; strings are byte strings, decoded
    to runes where Go does; a map is a gmap.

    ** Files

    Prelude: errors, results, machine integers, notations.  Prog, Rely: the
    calculus of programs.  GoText, GoNum, GoRegexp, GoBase64, GoPath, GoFlag:
    what the code uses of packages strings, utf8, unicode, strconv, sort, regexp,
    encoding/base64, path/filepath and flag, with the lemmas about them.

    - PluginID, Auth, Runtime: plugin_id.go, auth.go, runtime.go and
      peercred_linux.go.  A startup token survives its text form.
    - Bundle, Loader: metadata.go and loader.go.  LoaderFacts: the verdict of
      the loader is that of Validate, it opens nothing outside the bundle, and
      its digests are those of the bytes it read.
    - EventLog, Provider, LogRead: eventlog.go, provider.go and read.go.
      EventLogFacts: a successful Write appends its line and rotation loses
      nothing but the oldest backup.  ProviderFacts: what validation accepts, and
      that a secret marker is found in every spelling.  LogReadFacts: ReadAll
      is filter, order and limit over the events written, what was written is
      read back, display hides secrets, and summaries count.
    - PluginApi: the RPC messages.  Manager: manager.go and monitor.go.
      ManagerWorld, ManagerFacts, ManagerProps: what each operation of one
      manager leaves, the invariant of its life, its projections, the bound of
      its dial loop.  Lifecycle: a manager refines an abstract machine of four
      states, whose runs never leave Shut and whose generation counts the
      starts.  Fence: many goroutines on one manager, the invariant and
      the finality of closing under every interleaving.  CallFence: a reply is
      believed only while the client, process and generation it was asked of
      are the manager's.  Conns: every connection a goroutine dials or detaches
      it closes or makes the manager's client.
    - Host: host.go.  HostFacts, HostProps: construction, all-or-nothing
      start, isolation of the plugins' files, the exact view, closing, routing.
      HostFence: the operations of a host among other goroutines, each manager's
      contract that of Fence; while the daemon is alone, what they do by themselves.
    - Admin: adminrpc.go.  AdminFacts: a request acts on the plugin it names and
      nothing else; the server cleans up.  Daemon: cmd/rpcplugind.
      DaemonFacts: what a configuration resolves to, from flags, file and
      defaults.  DaemonPool: the whole daemon, a goroutine for run, for every
      monitor it starts and for every request a client makes, interleaved over
      the shared managers; nothing is left running at exit.  DaemonDemo: run is
      never deadlocked.  Ctl: cmd/rpcpluginctl and internal/cli.
      CtlFacts: the grammar of the command, the meaning of the exit code.
      EndToEnd: the command, the admin surface, the host and the manager
      composed, for a restart.  LogsCommand: what the logs command prints is
      exactly the query over the files, which is what the kernel wrote.
    - Sdk: pkg/plugin.  SdkFacts: the authentication gate under every
      interleaving of requests.  Handshake: the environment and token file the
      manager writes are read back by the SDK, which then passes the manager's
      checks.  SdkEnv: exactly which environments the SDK accepts.
    - Examples: src/examples, the minimal example and test/testpluginapi.
      PluginProc: a plugin process and the interface ([PluginLaws]) its methods
      keep.  Supervised: a manager and a plugin process together; what the
      plugin's profile says decides a start.  ExamplesFacts: the echo plugin
      starts and serves, and the kernel detects exactly the startup faults of
      the failing plugin.  Recovery: the monitor restarts a lost plugin.
      TestRoot: the tests' search for the source directory.
    - ManagerDemo, FenceDemo, HostDemo, DaemonDemo, SdkDemo: concrete plugins,
      systems and schedules on which the theorems are run.

    ** Fuel and bounds

    [dial_loop] gets [dial_fuel], the number of 50ms rounds in the dial timeout
    and two more; [dial_terminates] proves that it never runs out.  [read_loop]
    gets one more than the length of the file, and each round consumes a byte
    (LogReadFacts proves it enough).  [source_loop] gets one more than the length
    of the path, which every round shortens ([source_root_nearest]).  The accept loops run for [n]
    connections and answer [None] when they are still serving, MonitorLoop for
    a number of ticks; the theorems hold for every such number.  All other
    recursion is structural.

    ** Parameters

    The tables of package unicode above ASCII ([UnicodeTables], with the facts
    used in [UnicodeLaws]); encoding/json (encoders and decoders of events and
    manifests), the indented encoder of the command line tool and of the
    tests' configurations, time.Format;
    crypto/sha256 (its results have 32 bytes); strconv with base 0 and
    time.ParseDuration ([FlagReaders]); the TOML decoder, a third-party
    package; filepath.EvalSymlinks, whose answer for an absolute path is a
    cleaned absolute path.  Random bytes, process ids, connections and times
    are answers of the environment.

    ** Not modelled

    The wire format and the dispatch of net/rpc (a call is its method and
    argument, its reply is what the peer answers, and replies are matched to
    calls); the contents of log lines as JSON text; floating point (a detail
    value of that type is opaque, the template's uptime is the whole number of
    elapsed seconds, the sleep scale of the failing plugin is a binary64 as the
    Standard Library specifies it); data races outside the mutexes; crashes of
    the kernel process itself.  The main functions only call what is modelled
    here and exit; type aliases have no content. *)

From stdpp Require Export base tactics strings gmap list pretty sorting.
From Stdlib Require Export ZArith Lia Ascii.

#[global] Open Scope Z_scope.
#[global] Open Scope stdpp_scope.

(** ** Go errors

    An [error] value is its rendered message together with the sentinel values
    and error classes found on its unwrap chain ([errors.Is]/[errors.As]).
    [fmt.Errorf] with [%w] keeps the chain, without it the chain is cut. *)

Inductive sentinel : Type :=
| ErrShutdown            (* net/rpc.ErrShutdown *)
| EOF                    (* io.EOF *)
| ErrUnexpectedEOF       (* io.ErrUnexpectedEOF *)
| NetErrClosed           (* net.ErrClosed *)
| NetError               (* a value that implements net.Error *)
| NetOpError             (* a *net.OpError *)
| ErrProcessDone         (* os.ErrProcessDone *)
| ErrPermission          (* os.ErrPermission *)
| ErrNotExist.           (* os.ErrNotExist *)

#[global] Instance sentinel_eq_dec : EqDecision sentinel.
Proof. solve_decision. Defined.

Record error : Type := mkError { err_msg : string; err_chain : list sentinel }.

#[global] Instance error_eq_dec : EqDecision error.
Proof. solve_decision. Defined.

(** [errors.New] and [fmt.Errorf] without a [%w] verb. *)
Definition errors_New (msg : string) : error := mkError msg [].

(** [fmt.Errorf("<prefix>: %w", err)]. *)
Definition errors_Wrap (prefix : string) (err : error) : error :=
  mkError (prefix +:+ ": " +:+ err_msg err) (err_chain err).

(** [errors.Is] / [errors.As] on the chain. *)
Definition errors_Is (err : error) (t : sentinel) : bool := bool_decide (t ∈ err_chain err).

(** ** The result type of Go functions returning [(T, error)] *)

Inductive result (A : Type) : Type :=
| Ok (a : A)
| Err (e : error).
Arguments Ok {A} a.
Arguments Err {A} e.

#[global] Instance result_ret : MRet result := @Ok.
#[global] Instance result_bind : MBind result := λ _ _ f r,
  match r with Ok a => f a | Err e => Err e end.

Definition result_is_ok {A} (r : result A) : bool :=
  match r with Ok _ => true | Err _ => false end.

(** Functions returning only [error]: [None] is Go's nil error. *)
Definition ok_or {A} (r : option error) (k : result A) : result A :=
  match r with Some e => Err e | None => k end.

(** Early return: the first failing check wins. *)
Definition first_error (a b : option error) : option error :=
  match a with Some e => Some e | None => b end.

Declare Scope go_scope.
Delimit Scope go_scope with go.
#[global] Open Scope go_scope.

(** [check ?> rest] runs [check]; a non-nil error is returned at once. *)
Notation "a ?> b" := (first_error a b) (at level 62, right associativity) : go_scope.
(** [guard c !> e] is [if c { return e }]. *)
Notation "'fail_if' c 'with_error' e" := (if c then Some e else None)
  (at level 61, c at level 60, e at level 60) : go_scope.

(** ** Machine integers *)

Definition two64 : Z := 2 ^ 64.
(** A value of type uint64. *)
Definition uint64 (z : Z) : Z := z mod two64.
(** The conversion int64(x) of a uint64, and of any wrapped sum. *)
Definition int64 (z : Z) : Z :=
  let w := z mod two64 in if w <? 2 ^ 63 then w else w - two64.

Lemma uint64_range z : 0 <= uint64 z < two64.
Proof. apply Z.mod_pos_bound. reflexivity. Qed.

Lemma uint64_small z : 0 <= z < two64 → uint64 z = z.
Proof. apply Z.mod_small. Qed.

Lemma int64_small z : 0 <= z < 2 ^ 63 → int64 z = z.
Proof.
  intros Hz. unfold int64.
  rewrite Z.mod_small by (unfold two64; lia).
  destruct (Z.ltb_spec z (2 ^ 63)); lia.
Qed.

(** On uint64 values the conversion to int64 is injective: generations that
    differ as uint64 differ as int64 keys. *)
Lemma int64_inj a b :
  0 <= a < two64 → 0 <= b < two64 → int64 a = int64 b → a = b.
Proof.
  intros Ha Hb. unfold int64. rewrite !Z.mod_small by done.
  unfold two64 in *.
  destruct (Z.ltb_spec a (2 ^ 63)), (Z.ltb_spec b (2 ^ 63)); lia.
Qed.

(** Let [simpl] compute appends and prefixes of string literals. *)
#[global] Arguments String.append : simpl nomatch.

Lemma Z_lor_ge a b : 0 <= a → 0 <= b → a <= Z.lor a b ∧ b <= Z.lor a b.
Proof.
  assert (∀ x y, 0 <= x → 0 <= y → x <= Z.lor x y) as Hge.
  { intros x y Hx Hy.
    assert (Z.lor x y = x + Z.ldiff y x) as ->.
    { rewrite Z.add_nocarry_lxor.
      - apply Z.bits_inj'. intros n Hn.
        rewrite Z.lor_spec, Z.lxor_spec, Z.ldiff_spec.
        by destruct (Z.testbit x n), (Z.testbit y n).
      - apply Z.bits_inj'. intros n Hn.
        rewrite Z.land_spec, Z.ldiff_spec, Z.bits_0.
        by destruct (Z.testbit x n), (Z.testbit y n). }
    assert (0 <= Z.ldiff y x) by (apply Z.ldiff_nonneg; auto). lia. }
  intros Ha Hb. split; [auto|]. rewrite Z.lor_comm. auto.
Qed.

(** Low bits and shifts as arithmetic, so that [lia] sees them. *)
Lemma Z_land_mask a n m : 0 <= n → m = 2 ^ n - 1 → Z.land a m = a mod 2 ^ n.
Proof. intros Hn ->. rewrite <- Z.land_ones by done. f_equal. rewrite Z.ones_equiv. lia. Qed.

(** [lia] with division and modulo by constants. *)
Ltac zlia := zify; Z.to_euclidean_division_equations; lia.

Lemma first_error_None a b : (a ?> b) = None ↔ a = None ∧ b = None.
Proof. destruct a; simpl; split; [done|by intros []|auto|by intros []]. Qed.

Lemma fail_if_None (c : bool) (e : error) : (fail_if c with_error e) = None ↔ c = false.
Proof. by destruct c. Qed.
