(* ===== verification/Prog.v ===== *)
(** * Effectful Go code

    A Go function that talks to the outside (its mutex-protected struct, the
    file system, a plugin process, the clock) is a [prog E A]: a finite tree
    whose nodes are the calls it makes, in order, and whose branches are the
    replies.  The same tree is run sequentially ([run], with a concrete
    environment), reasoned about for every environment ([wp], [exec]), and
    interleaved with other goroutines (file Fence). *)

From S2P Require Import Prelude.

Inductive prog (E : Type → Type) (A : Type) : Type :=
| Ret (a : A)
| Vis {X : Type} (e : E X) (k : X → prog E A).
Arguments Ret {E A} a.
Arguments Vis {E A X} e k.

Fixpoint prog_bind {E A B} (f : A → prog E B) (p : prog E A) : prog E B :=
  match p with
  | Ret a => f a
  | Vis e k => Vis e (λ x, prog_bind f (k x))
  end.

#[global] Instance prog_ret {E} : MRet (prog E) := @Ret E.
#[global] Instance prog_mbind {E} : MBind (prog E) := λ A B, @prog_bind E A B.

(** One external call. *)
Definition trigger {E X} (e : E X) : prog E X := Vis e Ret.

(** [for _, x := range xs { body(x) }] without early exit. *)
Fixpoint for_range {E A} (xs : list A) (body : A → prog E unit) : prog E unit :=
  match xs with
  | [] => Ret tt
  | x :: rest => body x ;; for_range rest body
  end.

(** A loop that threads local variables, without early exit. *)
Fixpoint fold_range {E A B} (xs : list A) (acc : B) (body : B → A → prog E B) : prog E B :=
  match xs with
  | [] => Ret acc
  | x :: rest => acc' ← body acc x; fold_range rest acc' body
  end.

(** ** Embedding the calls of one component into those of another *)
Fixpoint translate {E F A} (f : ∀ X, E X → F X) (p : prog E A) : prog F A :=
  match p with
  | Ret a => Ret a
  | Vis e k => Vis (f _ e) (λ x, translate f (k x))
  end.

(** ** The calls of one component answered by the code of another *)
Fixpoint interp {E F A} (f : ∀ X, E X → prog F X) (p : prog E A) : prog F A :=
  match p with
  | Ret a => Ret a
  | Vis e k => x ← f _ e; interp f (k x)
  end.

Section Semantics.
Context {E : Type → Type} {S : Type}.

(** [H e s x s']: in state [s] the call [e] may answer [x], leaving [s']. *)
Variable H : ∀ X, E X → S → X → S → Prop.

(** Every execution ends in a state satisfying [Q]. *)
Fixpoint wp {A} (p : prog E A) (Q : A → S → Prop) (s : S) : Prop :=
  match p with
  | Ret a => Q a s
  | Vis e k => ∀ x s', H _ e s x s' → wp (k x) Q s'
  end.

(** Some execution from [s] returns [a] in [s']. *)
Fixpoint exec {A} (p : prog E A) (s : S) (a : A) (s' : S) : Prop :=
  match p with
  | Ret a0 => a0 = a ∧ s = s'
  | Vis e k => ∃ x s1, H _ e s x s1 ∧ exec (k x) s1 a s'
  end.

Lemma wp_bind {A B} (p : prog E A) (f : A → prog E B) Q s :
  wp p (λ a s', wp (f a) Q s') s → wp (p ≫= f) Q s.
Proof.
  revert s. induction p as [a|X e k IH]; intros s Hp; simpl in *; [done|].
  intros x s' Hx. apply IH. by apply Hp.
Qed.

Lemma wp_bind_inv {A B} (p : prog E A) (f : A → prog E B) Q s :
  wp (p ≫= f) Q s → wp p (λ a s', wp (f a) Q s') s.
Proof.
  revert s. induction p as [a|X e k IH]; intros s Hp; simpl in *; [done|].
  intros x s' Hx. apply IH. by apply Hp.
Qed.

Lemma wp_mono {A} (p : prog E A) (Q Q' : A → S → Prop) s :
  wp p Q s → (∀ a s', Q a s' → Q' a s') → wp p Q' s.
Proof.
  revert s. induction p as [a|X e k IH]; intros s Hp HQ; simpl in *; [auto|].
  intros x s' Hx. eapply IH; eauto.
Qed.

(** A postcondition that always holds. *)
Lemma wp_any {A} (p : prog E A) (Q : A → S → Prop) s : (∀ a s', Q a s') → wp p Q s.
Proof. intros HQ. revert s. induction p as [a|X e k IH]; simpl; auto. Qed.

Lemma wp_trigger {X} (e : E X) Q s :
  (∀ x s', H _ e s x s' → Q x s') → wp (trigger e) Q s.
Proof. done. Qed.

Lemma wp_trigger_seq {X B} (e : E X) (k : X → prog E B) Q s :
  (∀ x s', H _ e s x s' → wp (k x) Q s') → wp (trigger e ≫= k) Q s.
Proof. done. Qed.

Lemma wp_sound {A} (p : prog E A) Q s a s' : wp p Q s → exec p s a s' → Q a s'.
Proof.
  revert s. induction p as [a0|X e k IH]; intros s Hp Hx; simpl in *.
  - by destruct Hx as [-> ->].
  - destruct Hx as (x & s1 & He & Hx). eauto.
Qed.

Lemma wp_complete {A} (p : prog E A) Q s :
  (∀ a s', exec p s a s' → Q a s') → wp p Q s.
Proof.
  revert s. induction p as [a0|X e k IH]; intros s Hp; simpl in *; [auto|].
  intros x s' Hx. apply IH. intros a s'' He. apply Hp. eauto.
Qed.

Lemma wp_conj {A} (p : prog E A) (Q Q' : A → S → Prop) s :
  wp p Q s → wp p Q' s → wp p (λ a s', Q a s' ∧ Q' a s') s.
Proof.
  intros H1 H2. apply wp_complete. intros a s' He.
  split; eapply wp_sound; eauto.
Qed.

(** A loop invariant for [for_range]. *)
Lemma wp_for_range {A} (xs : list A) body (I : list A → S → Prop) s :
  I xs s →
  (∀ x rest s1, I (x :: rest) s1 → wp (body x) (λ _ s2, I rest s2) s1) →
  wp (for_range xs body) (λ _ s', I [] s') s.
Proof.
  revert s. induction xs as [|x xs IH]; intros s Hs Hb; simpl; [done|].
  apply wp_bind. eapply wp_mono; [by apply Hb|]. intros u s' Hs'. by apply IH.
Qed.

(** A loop invariant for [fold_range]. *)
Lemma wp_fold_range {A B} (xs : list A) (acc : B) body (I : list A → B → S → Prop) s :
  I xs acc s →
  (∀ x rest acc1 s1, I (x :: rest) acc1 s1 → wp (body acc1 x) (I rest) s1) →
  wp (fold_range xs acc body) (I []) s.
Proof.
  revert acc s. induction xs as [|x xs IH]; intros acc s Hs Hb; simpl; [done|].
  apply wp_bind. eapply wp_mono; [by apply Hb|]. intros acc' s' Hs'. by apply IH.
Qed.

(** *** Running against one concrete environment *)
Section Run.
Variable h : ∀ X, E X → S → S * X.

Fixpoint run {A} (p : prog E A) (s : S) : S * A :=
  match p with
  | Ret a => (s, a)
  | Vis e k => let '(s', x) := h _ e s in run (k x) s'
  end.

Lemma run_Vis {A X} (e : E X) (k : X → prog E A) s :
  run (Vis e k) s = run (k (h _ e s).2) (h _ e s).1.
Proof. simpl. by destruct (h X e s). Qed.

Lemma run_bind {A B} (p : prog E A) (f : A → prog E B) s :
  run (p ≫= f) s = run (f (run p s).2) (run p s).1.
Proof.
  revert s. induction p as [a|X e k IH]; intros s; simpl; [done|].
  destruct (h X e s) as [s1 x]. apply IH.
Qed.

Hypothesis h_ok : ∀ X (e : E X) s, H X e s (h X e s).2 (h X e s).1.

Lemma run_exec {A} (p : prog E A) s : exec p s (run p s).2 (run p s).1.
Proof.
  revert s. induction p as [a|X e k IH]; intros s; simpl; [done|].
  pose proof (h_ok X e s) as He. destruct (h X e s) as [s1 x]; simpl in *.
  exists x, s1. eauto.
Qed.

Lemma wp_run {A} (p : prog E A) Q s : wp p Q s → Q (run p s).2 (run p s).1.
Proof. intros Hp. eapply wp_sound; [done|apply run_exec]. Qed.
End Run.

(** *** Totality: an environment that always answers lets every program finish *)
Section Total.
Variable ok : S → Prop.
Hypothesis H_total : ∀ X (e : E X) s, ok s → ∃ x s', H X e s x s' ∧ ok s'.

Lemma exec_total {A} (p : prog E A) s : ok s → ∃ a s', exec p s a s' ∧ ok s'.
Proof.
  revert s. induction p as [a|X e k IH]; intros s Hs; simpl; [eauto|].
  destruct (H_total X e s Hs) as (x & s1 & He & Hs1).
  destruct (IH x s1 Hs1) as (a & s2 & Hx & Hs2). eauto 10.
Qed.
End Total.
End Semantics.

Lemma wp_translate {E F : Type → Type} {S A} (H : ∀ X, F X → S → X → S → Prop)
    (f : ∀ X, E X → F X) (p : prog E A) Q s :
  wp (λ X e, H X (f X e)) p Q s → wp H (translate f p) Q s.
Proof. revert s. induction p as [a|X e k IH]; intros s; simpl; [done|]. intros Hp x s' Hx. auto. Qed.

Lemma wp_interp {E F : Type → Type} {S A} (H : ∀ X, F X → S → X → S → Prop)
    (f : ∀ X, E X → prog F X) (p : prog E A) Q s :
  wp (λ X e s x s', exec H (f X e) s x s') p Q s → wp H (interp f p) Q s.
Proof.
  revert s. induction p as [a|X e k IH]; intros s; simpl; [done|]. intros Hp.
  apply wp_bind, wp_complete. intros x s' Hx. by apply IH, Hp.
Qed.

(** Fewer executions, seen through [f]. *)
Lemma wp_refine {E : Type → Type} {S S' A} (f : S' → S) (H : ∀ X, E X → S → X → S → Prop)
    (H' : ∀ X, E X → S' → X → S' → Prop) (p : prog E A) Q s :
  (∀ X e s x s', H' X e s x s' → H X e (f s) x (f s')) →
  wp H p Q (f s) → wp H' p (λ a s', Q a (f s')) s.
Proof.
  intros Hr. revert s. induction p as [a|X e k IH]; intros s; simpl; [done|]. intros Hp x s' Hx.
  apply IH, Hp. by apply Hr.
Qed.

Arguments wp {E S} H {A} p Q s : simpl nomatch.
Arguments exec {E S} H {A} p s a s' : simpl nomatch.
Arguments run {E S} h {A} p s : simpl nomatch.

(** [wp_step] consumes the leading call and introduces its reply. *)
Ltac wp_step := simpl; intros ? ? ?.
