(* ===== verification/Rely.v ===== *)
(** * Goroutines sharing a state

    Programs interleaved call by call, goroutine [i] acting by [H i].  The
    proof method is rely and guarantee: each goroutine is verified alone
    against the interference [R i] of the others and the common invariant
    [I], and has to respect the interference the others rely on. *)

From stdpp Require Import relations.
From S2P Require Import Prelude Prog.

Section Rely.
Context {E : Type → Type} {S : Type}.
Variable H : nat → ∀ X, E X → S → X → S → Prop.
Variable R : nat → S → S → Prop.
Variable I : S → Prop.
Context `{!∀ i, PreOrder (R i)}.

(** Goroutine [i] running [p] from [s], with [s] known up to interference. *)
Fixpoint rg {A} (i : nat) (p : prog E A) (Q : A → S → Prop) (s : S) : Prop :=
  match p with
  | Ret a => ∀ s', R i s s' → I s' → Q a s'
  | Vis e k => ∀ s1, R i s s1 → I s1 → ∀ x s2, H i _ e s1 x s2 →
      I s2 ∧ (∀ j, j ≠ i → R j s1 s2) ∧ rg i (k x) Q s2
  end.

Lemma rg_stable {A} i (p : prog E A) Q s s' : R i s s' → rg i p Q s → rg i p Q s'.
Proof. intros Hr. destruct p; simpl; intros Hp s1 Hs1; apply Hp; by etrans. Qed.

Lemma rg_bind {A B} i (p : prog E A) (k : A → prog E B) P Q s :
  rg i p P s → (∀ a s', P a s' → I s' → rg i (k a) Q s') → rg i (p ≫= k) Q s.
Proof.
  intros Hp Hk. revert s Hp. induction p as [a|X e kk IH]; intros s Hp; simpl in *.
  - assert (∀ s1, R i s s1 → I s1 → rg i (k a) Q s1) as Hall by auto. clear Hp.
    change (rg i (k a) Q s). destruct (k a); simpl in *.
    + intros s1 H1 H2. by apply (Hall s1 H1 H2 s1).
    + intros s1 H1 H2. by apply (Hall s1 H1 H2 s1).
  - intros s1 H1 H2 x s2 Hs. destruct (Hp s1 H1 H2 x s2 Hs) as (? & ? & ?).
    split_and!; [done..|by apply IH].
Qed.

Lemma rg_seq {A B} i (p : prog E A) (k : A → prog E B) Q s :
  rg i p (λ a s', rg i (k a) Q s') s → rg i (p ≫= k) Q s.
Proof. intros Hp. by eapply rg_bind; [exact Hp|]. Qed.

Lemma rg_Ret {A} i (a : A) (Q : A → S → Prop) s : (∀ s', R i s s' → I s' → Q a s') → rg i (Ret a) Q s.
Proof. done. Qed.

Lemma rg_mono {A} i (p : prog E A) (Q Q' : A → S → Prop) s :
  rg i p Q s → (∀ a s', Q a s' → Q' a s') → rg i p Q' s.
Proof.
  intros Hp HQ. revert s Hp. induction p as [a|X e kk IH]; intros s Hp; simpl in *; [auto|].
  intros s1 H1 H2 x s2 Hs. destruct (Hp s1 H1 H2 x s2 Hs) as (? & ? & ?).
    split_and!; [done..|by apply IH].
Qed.

Lemma rg_trigger_seq {X B} i (e : E X) (k : X → prog E B) Q s :
  (∀ s1, R i s s1 → I s1 → ∀ x s2, H i _ e s1 x s2 →
     I s2 ∧ (∀ j, j ≠ i → R j s1 s2) ∧ rg i (k x) Q s2) →
  rg i (trigger e ≫= k) Q s.
Proof. done. Qed.

(** ** Interleaving *)
Section Pool.
Context {A : Type}.

Inductive par : list (prog E A) * S → list (prog E A) * S → Prop :=
| par_step ts s i X (e : E X) k x s' :
    ts !! i = Some (Vis e k) → H i X e s x s' → par (ts, s) (<[i := k x]> ts, s').

Lemma par_sound (Q : nat → A → S → Prop) ts s ts' s' :
  I s → (∀ i p, ts !! i = Some p → rg i p (Q i) s) → rtc par (ts, s) (ts', s') →
  I s' ∧ ∀ i p, ts' !! i = Some p → rg i p (Q i) s'.
Proof.
  intros HI Hts Hr. remember (ts, s) as c eqn:Ec. remember (ts', s') as c' eqn:Ec'.
  revert ts s Ec HI Hts. induction Hr as [c|c c1 c2 Hstep _ IH]; intros ts s -> HI Hts.
  { by simplify_eq. }
  inversion Hstep as [ts0 s0 i X e k x s1 Hi Hs E1 E2]. subst.
  pose proof (Hts i _ Hi) as Hp. simpl in Hp.
  destruct (Hp s) with (x := x) (s2 := s1) as (HI1 & Hg & Hk); [reflexivity|done|done|].
  apply (IH eq_refl _ _ eq_refl HI1). intros j q Hq.
  destruct (decide (j = i)) as [->|Hne].
  - rewrite list_lookup_insert_eq in Hq by (by eapply lookup_lt_Some). by simplify_eq.
  - rewrite list_lookup_insert_ne in Hq by done. eapply rg_stable; [by apply Hg|]. by apply Hts.
Qed.

(** A goroutine that has returned. *)
Corollary par_returned (Q : nat → A → S → Prop) ts s ts' s' i a :
  I s → (∀ i p, ts !! i = Some p → rg i p (Q i) s) → rtc par (ts, s) (ts', s') →
  ts' !! i = Some (Ret a) → Q i a s'.
Proof.
  intros HI Hts Hr Hi. destruct (par_sound Q ts s ts' s' HI Hts Hr) as [HI' Hall].
  apply (Hall i _ Hi); [reflexivity|done].
Qed.

(** *** Running a schedule; a call that cannot proceed is skipped *)
Variable h : nat → ∀ X, E X → S → option (S * X).

Fixpoint schedule (turns : list nat) (c : list (prog E A) * S) : list (prog E A) * S :=
  match turns with
  | [] => c
  | i :: rest =>
      schedule rest match c.1 !! i with
        | Some (Vis e k) =>
            match h i _ e c.2 with Some (s', x) => (<[i := k x]> c.1, s') | None => c end
        | _ => c
        end
  end.

Hypothesis h_ok : ∀ i X (e : E X) s s' x, h i X e s = Some (s', x) → H i X e s x s'.

Lemma schedule_par turns c : rtc par c (schedule turns c).
Proof.
  revert c. induction turns as [|i turns IH]; intros [ts s]; [done|]. simpl.
  destruct (ts !! i) as [[a|X e k]|] eqn:Hi; [apply IH| |apply IH].
  destruct (h i X e s) as [[s' x]|] eqn:Hh; [|apply IH].
  eapply rtc_l; [|apply IH]. econstructor; [exact Hi|by apply h_ok].
Qed.
End Pool.
End Rely.
