(* ===== verification/GoText.v ===== *)
(** * Go strings

    A Go string is a byte sequence; its runes are obtained by the UTF-8 decoder
    of package unicode/utf8 (an invalid byte decodes to U+FFFD with width 1).
    This file models what the code base uses of packages strings, unicode,
    utf8, strconv and sort.  The tables of package unicode for runes at or
    above U+0080 that the code reaches (ToLower, ToUpper, IsPrint) are data of the Go
    distribution: they are a parameter, the class [UnicodeTables], with the
    facts about ToLower the proofs rely on in [UnicodeLaws]. *)

From S2P Require Import Prelude.

(** ** Bytes *)
Definition byte_val (c : ascii) : Z := Z.of_N (N_of_ascii c).
Definition byte_of (z : Z) : ascii := ascii_of_N (Z.to_N z).
Definition byte1 (z : Z) : string := String (byte_of z) "".

Definition in_range (lo hi z : Z) : bool := (lo <=? z) && (z <=? hi).

(** ** Basic string operations *)
Definition HasPrefix (s p : string) : bool := String.prefix p s.

Fixpoint string_rev_app (s acc : string) : string :=
  match s with "" => acc | String c t => string_rev_app t (String c acc) end.
Definition string_rev (s : string) : string := string_rev_app s "".

Definition HasSuffix (s p : string) : bool := String.prefix (string_rev p) (string_rev s).

Fixpoint Contains (s sub : string) : bool :=
  String.prefix sub s || match s with "" => false | String _ t => Contains t sub end.

Fixpoint string_map (f : ascii → ascii) (s : string) : string :=
  match s with "" => "" | String c t => String (f c) (string_map f t) end.

Fixpoint string_forallb (f : ascii → bool) (s : string) : bool :=
  match s with "" => true | String c t => f c && string_forallb f t end.

(** strings.Join *)
Definition Join (parts : list string) (sep : string) : string := String.concat sep parts.

Fixpoint string_concat (parts : list string) : string :=
  match parts with [] => "" | p :: ps => p +:+ string_concat ps end.

(** strings.Split with a one-byte separator: always at least one field. *)
Fixpoint Split (s : string) (sep : ascii) : list string :=
  match s with
  | "" => [""]
  | String c t =>
      let fields := Split t sep in
      if decide (c = sep) then "" :: fields
      else match fields with
           | [] => [String c ""]
           | f :: fs => String c f :: fs
           end
  end.

(** strings.SplitN(s, sep, 2): the text before and after the first separator. *)
Fixpoint SplitN2 (s : string) (sep : ascii) : list string :=
  match s with
  | "" => [""]
  | String c t =>
      if decide (c = sep) then [""; t]
      else match SplitN2 t sep with
           | [] => [String c ""]
           | f :: fs => String c f :: fs
           end
  end.

(** sort.Strings: byte-wise lexicographic order. *)
Definition sort_Strings (l : list string) : list string := merge_sort String.le l.

(** ** UTF-8 *)
Definition rune_error : Z := 0xFFFD.

Definition cont (b : ascii) : bool := in_range 0x80 0xBF (byte_val b).
Definition cont_bits (b : ascii) : Z := Z.land (byte_val b) 0x3F.

(** Bounds of the second byte of a 3-byte and of a 4-byte sequence. *)
Definition second3 (c0 : Z) (b : ascii) : bool :=
  in_range (if c0 =? 0xE0 then 0xA0 else 0x80) (if c0 =? 0xED then 0x9F else 0xBF) (byte_val b).
Definition second4 (c0 : Z) (b : ascii) : bool :=
  in_range (if c0 =? 0xF0 then 0x90 else 0x80) (if c0 =? 0xF4 then 0x8F else 0xBF) (byte_val b).

(** The runes of a string, each with the bytes it was decoded from. *)
Fixpoint rune_chunks (s : string) : list (Z * string) :=
  match s with
  | "" => []
  | String b0 t0 =>
      let c0 := byte_val b0 in
      if c0 <? 0x80 then (c0, String b0 "") :: rune_chunks t0
      else if in_range 0xC2 0xDF c0 then
        match t0 with
        | String b1 t1 =>
            if cont b1
            then (Z.lor (Z.shiftl (Z.land c0 0x1F) 6) (cont_bits b1), String b0 (String b1 ""))
                   :: rune_chunks t1
            else (rune_error, String b0 "") :: rune_chunks t0
        | "" => (rune_error, String b0 "") :: rune_chunks t0
        end
      else if in_range 0xE0 0xEF c0 then
        match t0 with
        | String b1 (String b2 t2) =>
            if second3 c0 b1 && cont b2
            then (Z.lor (Z.shiftl (Z.land c0 0x0F) 12)
                    (Z.lor (Z.shiftl (cont_bits b1) 6) (cont_bits b2)),
                  String b0 (String b1 (String b2 ""))) :: rune_chunks t2
            else (rune_error, String b0 "") :: rune_chunks t0
        | _ => (rune_error, String b0 "") :: rune_chunks t0
        end
      else if in_range 0xF0 0xF4 c0 then
        match t0 with
        | String b1 (String b2 (String b3 t3)) =>
            if second4 c0 b1 && cont b2 && cont b3
            then (Z.lor (Z.shiftl (Z.land c0 0x07) 18)
                    (Z.lor (Z.shiftl (cont_bits b1) 12)
                       (Z.lor (Z.shiftl (cont_bits b2) 6) (cont_bits b3))),
                  String b0 (String b1 (String b2 (String b3 "")))) :: rune_chunks t3
            else (rune_error, String b0 "") :: rune_chunks t0
        | _ => (rune_error, String b0 "") :: rune_chunks t0
        end
      else (rune_error, String b0 "") :: rune_chunks t0
  end.

Definition runes (s : string) : list Z := (rune_chunks s).*1.

(** utf8.AppendRune *)
Definition encode_rune (r : Z) : string :=
  if in_range 0 0x7F r then byte1 r
  else if in_range 0x80 0x7FF r then
    byte1 (Z.lor 0xC0 (Z.shiftr r 6)) +:+ byte1 (Z.lor 0x80 (Z.land r 0x3F))
  else if in_range 0x800 0xFFFF r && negb (in_range 0xD800 0xDFFF r) then
    byte1 (Z.lor 0xE0 (Z.shiftr r 12)) +:+ byte1 (Z.lor 0x80 (Z.land (Z.shiftr r 6) 0x3F))
      +:+ byte1 (Z.lor 0x80 (Z.land r 0x3F))
  else if in_range 0x10000 0x10FFFF r then
    byte1 (Z.lor 0xF0 (Z.shiftr r 18)) +:+ byte1 (Z.lor 0x80 (Z.land (Z.shiftr r 12) 0x3F))
      +:+ byte1 (Z.lor 0x80 (Z.land (Z.shiftr r 6) 0x3F)) +:+ byte1 (Z.lor 0x80 (Z.land r 0x3F))
  else byte1 0xEF +:+ byte1 0xBF +:+ byte1 0xBD.

(** ** Package unicode *)
Class UnicodeTables := {
  (** unicode.ToLower on runes at or above U+0080 *)
  high_to_lower : Z → Z;
  (** unicode.ToUpper on runes at or above U+0080 *)
  high_to_upper : Z → Z;
  (** strconv.IsPrint on runes at or above U+0080 *)
  high_is_print : Z → bool;
}.

(** The only runes outside ASCII whose lower case is ASCII are U+0130 (to i)
    and the Kelvin sign U+212A (to k). *)
Class UnicodeLaws `{UnicodeTables} : Prop := {
  high_lower_high r :
    0x80 <= r → r ≠ 0x130 → r ≠ 0x212A → 0x80 <= high_to_lower r;
  high_lower_dotted_i : high_to_lower 0x130 = 0x69;
  high_lower_kelvin : high_to_lower 0x212A = 0x6B;
}.

(** Tables that know ASCII and the two exceptions only, to run examples. *)
Definition ascii_tables : UnicodeTables := {|
  high_to_lower r := if r =? 0x130 then 0x69 else if r =? 0x212A then 0x6B else r;
  high_to_upper r := r;
  high_is_print _ := true;
|}.

(** unicode.IsSpace (the White_Space property) *)
Definition IsSpace (r : Z) : bool :=
  in_range 9 13 r || (r =? 32) || (r =? 0x85) || (r =? 0xA0) || (r =? 0x1680)
  || in_range 0x2000 0x200A r || (r =? 0x2028) || (r =? 0x2029) || (r =? 0x202F)
  || (r =? 0x205F) || (r =? 0x3000).

(** unicode.IsControl (category Cc) *)
Definition IsControl (r : Z) : bool := in_range 0 0x1F r || in_range 0x7F 0x9F r.

(** unicode.IsLetter on runes below U+0100 *)
Definition IsLetterLatin1 (r : Z) : bool :=
  in_range 0x41 0x5A r || in_range 0x61 0x7A r || (r =? 0xAA) || (r =? 0xB5) || (r =? 0xBA)
  || in_range 0xC0 0xD6 r || in_range 0xD8 0xF6 r || in_range 0xF8 0xFF r.

(** strings.TrimSpace *)
Fixpoint drop_space (l : list (Z * string)) : list (Z * string) :=
  match l with
  | [] => []
  | (r, c) :: rest => if IsSpace r then drop_space rest else l
  end.

Definition TrimSpace (s : string) : string :=
  string_concat (reverse (drop_space (reverse (drop_space (rune_chunks s))))).*2.

(** strings.IndexFunc(s, f) >= 0 *)
Definition ContainsFunc (s : string) (f : Z → bool) : bool := existsb f (runes s).

(** unicode.ToLower and strings.ToLower *)
Definition rune_to_lower `{UnicodeTables} (r : Z) : Z :=
  if r <? 0x80 then (if in_range 0x41 0x5A r then r + 0x20 else r) else high_to_lower r.
Definition ToLower `{UnicodeTables} (s : string) : string :=
  string_concat ((λ r, encode_rune (rune_to_lower r)) <$> runes s).

(** unicode.ToUpper and strings.ToUpper *)
Definition rune_to_upper `{UnicodeTables} (r : Z) : Z :=
  if r <? 0x80 then (if in_range 0x61 0x7A r then r - 0x20 else r) else high_to_upper r.
Definition ToUpper `{UnicodeTables} (s : string) : string :=
  string_concat ((λ r, encode_rune (rune_to_upper r)) <$> runes s).

(** ** Package strconv: Quote, used by the [%q] verb *)
Definition hex_digit (z : Z) : string :=
  byte1 (if z <? 10 then 0x30 + z else 0x57 + z).
Definition backslash : string := byte1 0x5C.

Fixpoint hex_digits (n : nat) (z : Z) : string :=
  match n with
  | O => ""
  | S n' => hex_digit (Z.land (Z.shiftr z (4 * Z.of_nat n')) 0xF) +:+ hex_digits n' z
  end.

Definition quote_chunk `{UnicodeTables} (rc : Z * string) : string :=
  let '(r, c) := rc in
  if (r =? rune_error) && Nat.eqb (String.length c) 1 then
    match c with
    | String b _ => backslash +:+ "x" +:+ hex_digits 2 (byte_val b)
    | "" => ""
    end
  else if (r =? 0x22) || (r =? 0x5C) then backslash +:+ c
  else if r <? 0x80 then
    if in_range 0x20 0x7E r then c
    else if r =? 7 then backslash +:+ "a" else if r =? 8 then backslash +:+ "b"
    else if r =? 12 then backslash +:+ "f" else if r =? 10 then backslash +:+ "n"
    else if r =? 13 then backslash +:+ "r" else if r =? 9 then backslash +:+ "t"
    else if r =? 11 then backslash +:+ "v"
    else backslash +:+ "x" +:+ hex_digits 2 r
  else if high_is_print r then c
  else if r <? 0x10000 then backslash +:+ "u" +:+ hex_digits 4 r
  else backslash +:+ "U" +:+ hex_digits 8 r.

Definition Quote `{UnicodeTables} (s : string) : string :=
  byte1 0x22 +:+ string_concat (quote_chunk <$> rune_chunks s) +:+ byte1 0x22.

(** [%d] *)
Definition Itoa (z : Z) : string := pretty z.

(** [%v] of a []string *)
Definition show_strings (l : list string) : string := "[" +:+ Join l " " +:+ "]".

(** ** Lemmas on append, prefixes and substrings *)

Lemma sapp_nil_r (s : string) : s +:+ "" = s.
Proof. induction s as [|c s IH]; simpl; congruence. Qed.

Lemma sapp_assoc (a b c : string) : (a +:+ b) +:+ c = a +:+ (b +:+ c).
Proof. induction a as [|x a IH]; simpl; congruence. Qed.

Lemma sapp_cons (x : ascii) (a b : string) : String x a +:+ b = String x (a +:+ b).
Proof. done. Qed.

Lemma slength_app (a b : string) :
  String.length (a +:+ b) = (String.length a + String.length b)%nat.
Proof. induction a as [|x a IH]; simpl; congruence. Qed.

Lemma sapp_inj_r (a b c : string) : a +:+ c = b +:+ c → a = b.
Proof.
  revert b. induction a as [|x a IH]; intros [|y b] E; simpl in *; try done.
  - apply (f_equal String.length) in E. simpl in E. rewrite slength_app in E. lia.
  - apply (f_equal String.length) in E. simpl in E. rewrite slength_app in E. lia.
  - injection E as -> E. by rewrite (IH b E).
Qed.

Lemma prefix_cons x p y s :
  String.prefix (String x p) (String y s) = if ascii_dec x y then String.prefix p s else false.
Proof. done. Qed.

Lemma prefix_spec (p s : string) : String.prefix p s = true ↔ ∃ t, s = p +:+ t.
Proof.
  revert s. induction p as [|x p IH]; intros s; simpl.
  - split; [by exists s|]. by destruct s.
  - destruct s as [|y s]; [split; [done|by intros [t ?]]|].
    rewrite prefix_cons. destruct (ascii_dec x y) as [->|Hne].
    + rewrite IH. split; intros [t Ht]; exists t; congruence.
    + split; [done|intros [t Ht]; congruence].
Qed.

Lemma HasPrefix_app (p t : string) : HasPrefix (p +:+ t) p = true.
Proof. apply prefix_spec. eauto. Qed.

Lemma Contains_spec (s sub : string) :
  Contains s sub = true ↔ ∃ a b, s = a +:+ sub +:+ b.
Proof.
  induction s as [|c s IH]; cbn [Contains]; rewrite orb_true_iff, prefix_spec.
  - split.
    + intros [[t Ht]|]; [|done]. by exists "", t.
    + intros (a & b & E). left. destruct a; simpl in *; [by exists b|done].
  - rewrite IH. split.
    + intros [[t Ht]|(a & b & ->)]; [by exists "", t|by exists (String c a), b].
    + intros ([|x a] & b & E); simpl in *; [left; by exists b|].
      right. injection E as -> ->. eauto.
Qed.

Lemma string_forallb_app f (a b : string) :
  string_forallb f (a +:+ b) = string_forallb f a && string_forallb f b.
Proof. induction a as [|x a IH]; simpl; [done|]. by rewrite IH, andb_assoc. Qed.

Lemma string_forallb_impl (f g : ascii → bool) s :
  (∀ c, f c = true → g c = true) → string_forallb f s = true → string_forallb g s = true.
Proof.
  intros Hfg. induction s as [|c s IH]; simpl; [done|].
  rewrite !andb_true_iff. intros [Hc Hs]. auto.
Qed.

(** A text all of whose bytes avoid [d] contains no substring with [d] in it. *)
Lemma Contains_avoid (f : ascii → bool) (s a b : string) (d : ascii) :
  string_forallb f s = true → f d = false → Contains s (a +:+ String d b) = false.
Proof.
  intros Hs Hd. apply not_true_iff_false. rewrite Contains_spec.
  intros (x & y & ->). rewrite sapp_assoc, sapp_cons, !string_forallb_app in Hs.
  cbn [string_forallb] in Hs. rewrite Hd in Hs.
  rewrite !andb_true_iff in Hs. by destruct_and!.
Qed.

(** *** Splitting *)
Lemma Split_nonempty s sep : Split s sep ≠ [].
Proof. destruct s; simpl; [done|]. case_decide; [done|]. by destruct (Split s sep). Qed.

Lemma Split_Join (s : string) (sep : ascii) : Join (Split s sep) (String sep "") = s.
Proof.
  unfold Join. induction s as [|c s IH]; simpl; [done|].
  pose proof (Split_nonempty s sep) as Hne. case_decide as Hc.
  - destruct (Split s sep) as [|f fs]; [done|]. subst c. simpl in *. by rewrite IH.
  - destruct (Split s sep) as [|f fs]; [done|]. simpl in *.
    destruct fs; simpl in *; [congruence|]. by rewrite IH.
Qed.

Lemma Split_no_sep (s : string) (sep : ascii) :
  Forall (λ f, string_forallb (λ c, bool_decide (c ≠ sep)) f = true) (Split s sep).
Proof.
  induction s as [|c s IH]; simpl; [by constructor|].
  case_decide as Hc; [by constructor|].
  destruct (Split s sep) as [|f fs]; inversion IH; subst; constructor; simpl; auto.
  - rewrite bool_decide_eq_true_2 by done. done.
  - rewrite bool_decide_eq_true_2 by done. done.
Qed.

(** *** Sorting *)
Lemma sort_Strings_perm l : sort_Strings l ≡ₚ l.
Proof. apply merge_sort_Permutation. Qed.

Lemma sort_Strings_sorted l : StronglySorted String.le (sort_Strings l).
Proof. apply StronglySorted_merge_sort; apply _. Qed.

Lemma sort_Strings_id l : StronglySorted String.le l → sort_Strings l = l.
Proof.
  intros Hl. eapply (StronglySorted_unique String.le); [apply sort_Strings_sorted|done|].
  apply sort_Strings_perm.
Qed.

(** *** Decoding *)
Lemma byte_val_range c : 0 <= byte_val c < 256.
Proof.
  unfold byte_val. pose proof (N_ascii_bounded c). lia.
Qed.

Lemma byte_val_inj c d : byte_val c = byte_val d → c = d.
Proof.
  unfold byte_val. intros E. apply N2Z.inj in E.
  rewrite <- (ascii_N_embedding c), <- (ascii_N_embedding d). by rewrite E.
Qed.

Lemma byte_of_val c : byte_of (byte_val c) = c.
Proof. unfold byte_of, byte_val. rewrite N2Z.id. apply ascii_N_embedding. Qed.

Lemma byte_val_of z : 0 <= z < 256 → byte_val (byte_of z) = z.
Proof.
  intros Hz. unfold byte_of, byte_val. rewrite N_ascii_embedding by lia. lia.
Qed.

Definition ascii_byte (c : ascii) : bool := byte_val c <? 0x80.

Lemma rune_chunks_ascii_cons c s :
  ascii_byte c = true → rune_chunks (String c s) = (byte_val c, String c "") :: rune_chunks s.
Proof. unfold ascii_byte. intros Hc. simpl. by rewrite Hc. Qed.

Lemma runes_ascii_cons c s : ascii_byte c = true → runes (String c s) = byte_val c :: runes s.
Proof. intros Hc. unfold runes. by rewrite rune_chunks_ascii_cons. Qed.

Fixpoint string_bytes (s : string) : list Z :=
  match s with "" => [] | String c t => byte_val c :: string_bytes t end.

Lemma runes_ascii s : string_forallb ascii_byte s = true → runes s = string_bytes s.
Proof.
  induction s as [|c s IH]; intros Hs; [done|].
  cbn [string_forallb] in Hs. apply andb_true_iff in Hs as [Hc Hs].
  rewrite runes_ascii_cons by done. simpl. by rewrite IH.
Qed.

(** Induction that follows the decoder: a chunk is an ASCII byte, or only
    bytes at or above 0x80 decoding to a rune at or above 0x80. *)
Definition high_byte (c : ascii) : bool := negb (ascii_byte c).

Inductive chunked : string → list (Z * string) → Prop :=
| chunked_nil : chunked "" []
| chunked_ascii c s l :
    ascii_byte c = true → chunked s l →
    chunked (String c s) ((byte_val c, String c "") :: l)
| chunked_high r c s l :
    0x80 <= r → c ≠ "" → string_forallb high_byte c = true → chunked s l →
    chunked (c +:+ s) ((r, c) :: l).

Lemma in_range_true lo hi z : in_range lo hi z = true ↔ lo <= z <= hi.
Proof. unfold in_range. rewrite andb_true_iff, !Z.leb_le. done. Qed.

Lemma cont_high b : cont b = true → high_byte b = true.
Proof.
  unfold cont, high_byte, ascii_byte. rewrite in_range_true. intros ?.
  apply negb_true_iff, Z.ltb_ge. lia.
Qed.

Lemma second3_high c b : second3 c b = true → high_byte b = true.
Proof.
  unfold second3, high_byte, ascii_byte. rewrite in_range_true. intros ?.
  apply negb_true_iff, Z.ltb_ge. destruct (c =? 0xE0), (c =? 0xED); lia.
Qed.

Lemma second4_high c b : second4 c b = true → high_byte b = true.
Proof.
  unfold second4, high_byte, ascii_byte. rewrite in_range_true. intros ?.
  apply negb_true_iff, Z.ltb_ge. destruct (c =? 0xF0), (c =? 0xF4); lia.
Qed.

Lemma shl_bits_bound c (n k m p q : Z) :
  0 <= n → 0 <= k → m = 2 ^ n - 1 → p = 2 ^ n → q = 2 ^ k →
  0 <= Z.shiftl (Z.land c m) k ∧ Z.shiftl (Z.land c m) k = (c mod p) * q.
Proof.
  intros Hn Hk Hm -> ->. rewrite Z.shiftl_mul_pow2, (Z_land_mask c n) by done.
  split; [|done]. apply Z.mul_nonneg_nonneg; [apply Z.mod_pos_bound|]; lia.
Qed.

Lemma decoded2_high c0 b1 :
  0xC2 <= c0 <= 0xDF →
  0x80 <= Z.lor (Z.shiftl (Z.land c0 0x1F) 6) (cont_bits b1).
Proof.
  intros Hc.
  destruct (shl_bits_bound c0 5 6 0x1F 32 64) as [H1 H2]; [done..|].
  assert (0 <= cont_bits b1) as H3 by (apply Z.land_nonneg; lia).
  destruct (Z_lor_ge _ _ H1 H3) as [H4 _]. rewrite H2 in H4 at 1. zlia.
Qed.

Lemma decoded3_high c0 b1 b2 :
  0xE0 <= c0 <= 0xEF → second3 c0 b1 = true →
  0x80 <= Z.lor (Z.shiftl (Z.land c0 0x0F) 12)
            (Z.lor (Z.shiftl (cont_bits b1) 6) (cont_bits b2)).
Proof.
  intros Hc Hs. unfold second3 in Hs. apply in_range_true in Hs. unfold cont_bits.
  destruct (shl_bits_bound c0 4 12 0x0F 16 4096) as [H1 E1]; [done..|].
  destruct (shl_bits_bound (byte_val b1) 6 6 0x3F 64 64) as [H2 E2]; [done..|].
  assert (0 <= Z.land (byte_val b2) 0x3F) as H3 by (apply Z.land_nonneg; lia).
  destruct (Z_lor_ge _ _ H2 H3) as [H4 _].
  destruct (Z_lor_ge _ _ H1 (Z.le_trans _ _ _ H2 H4)) as [H5 H6].
  rewrite E1 in H5 at 1. rewrite E2 in H4 at 1.
  destruct (Z.eqb_spec c0 0xE0), (Z.eqb_spec c0 0xED); zlia.
Qed.

Lemma decoded4_high c0 b1 b2 b3 :
  0xF0 <= c0 <= 0xF4 → second4 c0 b1 = true →
  0x80 <= Z.lor (Z.shiftl (Z.land c0 0x07) 18)
            (Z.lor (Z.shiftl (cont_bits b1) 12)
               (Z.lor (Z.shiftl (cont_bits b2) 6) (cont_bits b3))).
Proof.
  intros Hc Hs. unfold second4 in Hs. apply in_range_true in Hs. unfold cont_bits.
  destruct (shl_bits_bound c0 3 18 0x07 8 262144) as [H1 E1]; [done..|].
  destruct (shl_bits_bound (byte_val b1) 6 12 0x3F 64 4096) as [H2 E2]; [done..|].
  destruct (shl_bits_bound (byte_val b2) 6 6 0x3F 64 64) as [H3 E3]; [done..|].
  assert (0 <= Z.land (byte_val b3) 0x3F) as H4 by (apply Z.land_nonneg; lia).
  destruct (Z_lor_ge _ _ H3 H4) as [H5 _].
  destruct (Z_lor_ge _ _ H2 (Z.le_trans _ _ _ H3 H5)) as [H6 H7].
  destruct (Z_lor_ge _ _ H1 (Z.le_trans _ _ _ H2 H6)) as [H8 H9].
  rewrite E1 in H8 at 1. rewrite E2 in H6 at 1.
  destruct (Z.eqb_spec c0 0xF0), (Z.eqb_spec c0 0xF4); zlia.
Qed.

Lemma rune_chunks_chunked s : chunked s (rune_chunks s).
Proof.
  remember (String.length s) as n eqn:Hn. revert s Hn.
  induction (lt_wf n) as [n _ IH]. intros s ->.
  assert (∀ t, (String.length t < String.length s)%nat → chunked t (rune_chunks t)) as IH'.
  { intros t Ht. by eapply IH. }
  clear IH. destruct s as [|b0 t0]; [constructor|].
  assert (byte_val b0 >= 0x80 →
          chunked (String b0 t0) ((rune_error, String b0 "") :: rune_chunks t0)) as Hbad.
  { intros Hb. apply (chunked_high rune_error (String b0 "")); [done..| |].
    - simpl. unfold high_byte, ascii_byte. rewrite andb_true_r. apply negb_true_iff, Z.ltb_ge. lia.
    - apply IH'. simpl. lia. }
  cbn [rune_chunks]. destruct (Z.ltb_spec (byte_val b0) 0x80) as [Hlt|Hge].
  { apply chunked_ascii; [by apply Z.ltb_lt|]. apply IH'. simpl. lia. }
  assert (high_byte b0 = true) as Hh0 by (by apply negb_true_iff, Z.ltb_ge).
  destruct (in_range 0xC2 0xDF (byte_val b0)) eqn:H2.
  { apply in_range_true in H2. destruct t0 as [|b1 t1]; [apply Hbad; lia|].
    destruct (cont b1) eqn:Hb1; [|apply Hbad; lia].
    apply (chunked_high _ (String b0 (String b1 ""))); [by apply decoded2_high|done| |].
    - simpl. by rewrite Hh0, cont_high.
    - apply IH'. simpl. lia. }
  destruct (in_range 0xE0 0xEF (byte_val b0)) eqn:H3.
  { apply in_range_true in H3. destruct t0 as [|b1 [|b2 t2]]; [apply Hbad; lia..|].
    destruct (second3 (byte_val b0) b1 && cont b2) eqn:Hb; [|apply Hbad; lia].
    apply andb_true_iff in Hb as [Hb1 Hb2].
    apply (chunked_high _ (String b0 (String b1 (String b2 "")))); [by apply decoded3_high|done| |].
    - simpl. by rewrite Hh0, (second3_high _ _ Hb1), cont_high.
    - apply IH'. simpl. lia. }
  destruct (in_range 0xF0 0xF4 (byte_val b0)) eqn:H4; [|apply Hbad; lia].
  apply in_range_true in H4. destruct t0 as [|b1 [|b2 [|b3 t3]]]; [apply Hbad; lia..|].
  destruct (second4 (byte_val b0) b1 && cont b2 && cont b3) eqn:Hb; [|apply Hbad; lia].
  rewrite !andb_true_iff in Hb. destruct Hb as [[Hb1 Hb2] Hb3].
  apply (chunked_high _ (String b0 (String b1 (String b2 (String b3 ""))))); [by apply decoded4_high|done| |].
  - simpl. by rewrite Hh0, (second4_high _ _ Hb1), !cont_high.
  - apply IH'. simpl. lia.
Qed.

Lemma chunked_concat s l : chunked s l → string_concat l.*2 = s.
Proof. induction 1 as [|c s l _ _ IH|r c s l _ _ _ _ IH]; csimpl; by rewrite ?IH. Qed.

(** The decoder loses no byte. *)
Lemma rune_chunks_concat s : string_concat (rune_chunks s).*2 = s.
Proof. apply chunked_concat, rune_chunks_chunked. Qed.

(** If every rune of a string is ASCII the string is ASCII. *)
Lemma runes_all_ascii (f : Z → bool) s :
  (∀ r, f r = true → r < 0x80) → forallb f (runes s) = true → string_forallb ascii_byte s = true.
Proof.
  intros Hf. unfold runes. generalize (rune_chunks_chunked s).
  induction 1 as [|c s l Hc Hl IH|r c s l Hr Hc Hh Hl IH]; simpl; [done| |];
    rewrite andb_true_iff; intros [Hfr Hrest].
  - by rewrite Hc, IH.
  - apply Hf in Hfr. lia.
Qed.

Lemma forallb_runes_ascii (f : Z → bool) s :
  string_forallb ascii_byte s = true →
  forallb f (runes s) = string_forallb (λ c, f (byte_val c)) s.
Proof.
  intros Hs. rewrite runes_ascii by done. clear Hs.
  induction s as [|c s IH]; simpl; [done|]. by rewrite IH.
Qed.

Lemma runes_app_ascii a b :
  string_forallb ascii_byte a = true → runes (a +:+ b) = string_bytes a ++ runes b.
Proof.
  induction a as [|c a IH]; [done|]. cbn [string_forallb]. rewrite andb_true_iff.
  intros [Hc Ha]. rewrite sapp_cons, runes_ascii_cons by done. simpl. by rewrite IH.
Qed.
