(* ===== verification/GoNum.v ===== *)
(** * Package strconv: integers

    ParseUint and ParseInt for base 10 and 64 bits, and that they read back
    what Itoa writes. *)

From S2P Require Import Prelude GoText.

Inductive num_error : Type := ErrSyntax | ErrRange.

Definition num_error_text (e : num_error) : string :=
  match e with ErrSyntax => "invalid syntax" | ErrRange => "value out of range" end.

(** The Error method of a *NumError. *)
Definition NumError `{UnicodeTables} (fn num : string) (e : num_error) : error :=
  errors_New ("strconv." +:+ fn +:+ ": parsing " +:+ Quote num +:+ ": " +:+ num_error_text e).

Definition uint_cutoff : Z := two64 / 10 + 1.

(** The digit loop of ParseUint from the accumulator [n]. *)
Fixpoint scan_digits (n : Z) (s : string) : Z + num_error :=
  match s with
  | "" => inl n
  | String c rest =>
      if negb (in_range 0x30 0x39 (byte_val c)) then inr ErrSyntax
      else if uint_cutoff <=? n then inr ErrRange
      else
        let n := uint64 (n * 10) in
        let n1 := uint64 (n + (byte_val c - 0x30)) in
        if n1 <? n then inr ErrRange else scan_digits n1 rest
  end.

Definition parse_uint (s : string) : Z + num_error :=
  match s with "" => inr ErrSyntax | _ => scan_digits 0 s end.

(** The sign of ParseInt. *)
Definition split_sign (s : string) : bool * string :=
  match s with
  | String c rest =>
      if byte_val c =? 0x2B then (false, rest)
      else if byte_val c =? 0x2D then (true, rest) else (false, s)
  | "" => (false, s)
  end.

Definition parse_int (s : string) : Z + num_error :=
  match s with
  | "" => inr ErrSyntax
  | _ =>
      let '(neg, digits) := split_sign s in
      let checked (un : Z) :=
        if negb neg && (2 ^ 63 <=? un) then inr ErrRange
        else if neg && (2 ^ 63 <? un) then inr ErrRange
        else inl (if neg then - un else un) in
      match parse_uint digits with
      | inl un => checked un
      | inr ErrRange => checked (two64 - 1)
      | inr ErrSyntax => inr ErrSyntax
      end
  end.

Section Parse.
Context `{UnicodeTables}.

Definition ParseUint (s : string) : result Z :=
  match parse_uint s with inl n => Ok n | inr e => Err (NumError "ParseUint" s e) end.
Definition ParseInt (s : string) : result Z :=
  match parse_int s with inl n => Ok n | inr e => Err (NumError "ParseInt" s e) end.
End Parse.

(** ** Round trip with Itoa *)

Lemma digit_val (d : N) : (d < 10)%N → byte_val (pretty_N_char d) = 0x30 + Z.of_N d.
Proof.
  intros Hd.
  assert (d = 0 ∨ d = 1 ∨ d = 2 ∨ d = 3 ∨ d = 4 ∨ d = 5 ∨ d = 6 ∨ d = 7 ∨ d = 8 ∨ d = 9)%N as Hc by lia.
  destruct_or! Hc; by subst.
Qed.

Lemma scan_digit (n : Z) (d : N) (s : string) :
  0 <= n → (d < 10)%N → n * 10 + Z.of_N d < two64 →
  scan_digits n (String (pretty_N_char d) s) = scan_digits (n * 10 + Z.of_N d) s.
Proof.
  intros Hn Hd Hb. cbn [scan_digits]. rewrite digit_val by done.
  assert (in_range 0x30 0x39 (0x30 + Z.of_N d) = true) as -> by (apply in_range_true; lia).
  assert (uint_cutoff <=? n = false) as -> by
    (apply Z.leb_gt; change uint_cutoff with 1844674407370955162; unfold two64 in *; lia).
  cbn [negb]. rewrite (uint64_small (n * 10)) by lia.
  replace (n * 10 + (0x30 + Z.of_N d - 0x30)) with (n * 10 + Z.of_N d) by lia.
  rewrite uint64_small by lia. assert (_ <? n * 10 = false) as -> by (apply Z.ltb_ge; lia). done.
Qed.

Lemma scan_pretty (x : N) (s : string) :
  Z.of_N x < two64 → scan_digits 0 (pretty_N_go x s) = scan_digits (Z.of_N x) s.
Proof.
  revert s. induction (N.lt_wf_0 x) as [x _ IH]; intros s Hx.
  destruct (decide (x = 0)%N) as [->|Hne]; [by rewrite pretty_N_go_0|].
  rewrite pretty_N_go_step by lia.
  pose proof (N.div_mod x 10 ltac:(done)) as Hdm. pose proof (N.mod_lt x 10 ltac:(done)) as Hm.
  set (q := (x `div` 10)%N) in *. set (d := (x `mod` 10)%N) in *. clearbody q d.
  rewrite IH by lia. rewrite scan_digit by lia. f_equal. lia.
Qed.

Lemma parse_uint_Itoa (n : Z) : 0 <= n < two64 → parse_uint (Itoa n) = inl n.
Proof.
  intros Hn. unfold Itoa.
  assert (∃ x, n = Z.of_N x) as [x ->] by (exists (Z.to_N n); lia).
  assert (pretty (Z.of_N x) = pretty x) as -> by (by destruct x).
  unfold pretty, pretty_N. case_decide as E; [by subst|].
  unfold parse_uint. pose proof (scan_pretty x "" ltac:(lia)) as Hs. simpl in Hs.
  destruct (pretty_N_go x "") eqn:Ep; [|done]. simpl in Hs. injection Hs as Hs. lia.
Qed.

Lemma ParseUint_Itoa `{UnicodeTables} (n : Z) : 0 <= n < two64 → ParseUint (Itoa n) = Ok n.
Proof. intros Hn. unfold ParseUint. by rewrite parse_uint_Itoa. Qed.

(** What ParseUint accepts is a uint64. *)
Lemma scan_digits_range n s m : 0 <= n < two64 → scan_digits n s = inl m → 0 <= m < two64.
Proof.
  revert n. induction s as [|c s IH]; intros n Hn; simpl; [by intros [= ->]|].
  destruct (negb _); [done|]. destruct (_ <=? _); [done|]. destruct (_ <? _); [done|].
  apply IH, uint64_range.
Qed.

Lemma ParseUint_range `{UnicodeTables} s n : ParseUint s = Ok n → 0 <= n < two64.
Proof.
  unfold ParseUint. destruct (parse_uint s) as [m|] eqn:E; [|done]. intros [= <-].
  unfold parse_uint in E. destruct s; [done|]. by apply scan_digits_range in E.
Qed.

(** ** What ParseUint accepts *)

Definition digit (c : ascii) : bool := in_range 0x30 0x39 (byte_val c).

(** The number a text of digits continues [n] to. *)
Fixpoint decimal_from (n : Z) (s : string) : Z :=
  match s with "" => n | String c rest => decimal_from (n * 10 + (byte_val c - 0x30)) rest end.
Definition decimal (s : string) : Z := decimal_from 0 s.

Lemma decimal_from_ge n s : 0 <= n → string_forallb digit s = true → n <= decimal_from n s.
Proof.
  revert n. induction s as [|c s IH]; intros n Hn; simpl; [lia|].
  rewrite andb_true_iff. intros [Hc Hs]. apply in_range_true in Hc.
  etrans; [|apply IH; [lia|done]]. lia.
Qed.

Lemma scan_digits_spec n s m :
  0 <= n < two64 →
  scan_digits n s = inl m ↔ string_forallb digit s = true ∧ decimal_from n s = m ∧ m < two64.
Proof.
  revert n. induction s as [|c s IH]; intros n Hn; simpl.
  { split; [intros [= <-]; lia|by intros (_ & -> & _)]. }
  fold (digit c). destruct (digit c) eqn:Hc; simpl; [|split; [done|by intros [? _]]].
  apply in_range_true in Hc. set (d := byte_val c - 0x30).
  assert (uint_cutoff = 1844674407370955162) as -> by done.
  assert (two64 <= n * 10 + d → ¬ (string_forallb digit s = true
    ∧ decimal_from (n * 10 + d) s = m ∧ m < two64)) as Hover.
  { intros Hge (Hs & <- & Hm). pose proof (decimal_from_ge (n * 10 + d) s ltac:(lia) Hs). lia. }
  destruct (Z.leb_spec 1844674407370955162 n).
  { split; [done|]. intros Hr. destruct Hover; [unfold two64 in *; lia|done]. }
  rewrite (uint64_small (n * 10)) by (unfold two64 in *; lia). unfold uint64.
  destruct (decide (n * 10 + d < two64)) as [Hlt|Hge].
  - rewrite Z.mod_small by lia. destruct (Z.ltb_spec (n * 10 + d) (n * 10)); [lia|].
    by apply IH; lia.
  - assert ((n * 10 + d) mod two64 = n * 10 + d - two64) as ->.
    { symmetry. apply (Z.mod_unique _ _ 1); unfold two64 in *; lia. }
    destruct (Z.ltb_spec (n * 10 + d - two64) (n * 10)); [|unfold two64 in *; lia].
    split; [done|]. intros Hr. destruct Hover; [lia|done].
Qed.

Lemma ParseUint_spec `{UnicodeTables} s n :
  ParseUint s = Ok n ↔ s ≠ "" ∧ string_forallb digit s = true ∧ decimal s = n ∧ n < two64.
Proof.
  unfold ParseUint, parse_uint. destruct s as [|c s]; [split; [done|by intros [? _]]|].
  unfold decimal. rewrite <- scan_digits_spec by (unfold two64; lia).
  destruct (scan_digits 0 (String c s)) as [m|e]; split; try done.
  - by intros [= ->].
  - by intros [_ [= ->]].
  - by intros [_ ?].
Qed.
