(* ===== verification/GoRegexp.v ===== *)
(** * Go regular expressions

    The regular expressions of the code base (package regexp, RE2 syntax) are
    built from rune classes, concatenation, alternation, [?] and [*].  They are
    run by Brzozowski derivatives over the runes of the text; [matches] is the
    denotational reading the matcher is proved against. *)

From S2P Require Import Prelude GoText.

Inductive re : Type :=
| RNone
| REps
| RSet (f : Z → bool)
| RSeq (a b : re)
| RAlt (a b : re)
| RStar (a : re).

(** [r?] *)
Definition ROpt (r : re) : re := RAlt REps r.
(** [r{n}] *)
Fixpoint RRep (n : nat) (r : re) : re :=
  match n with O => REps | S n' => RSeq r (RRep n' r) end.
(** [(a|b|...)] *)
Definition RAlts (l : list re) : re := foldr RAlt RNone l.
Definition RSeqs (l : list re) : re := foldr RSeq REps l.

(** A one-rune literal under the flag (?i): the rune's simple case-folding
    orbit.  Among ASCII letters only k and s have a member outside ASCII, the
    Kelvin sign U+212A and the long s U+017F. *)
Definition fold_class (c : Z) : Z → bool := λ r,
  (r =? c) || (in_range 0x61 0x7A c && (r =? c - 0x20))
  || ((c =? 0x6B) && (r =? 0x212A)) || ((c =? 0x73) && (r =? 0x17F)).

(** A literal written in lower case, under (?i). *)
Definition RLitFold (s : string) : re := RSeqs ((λ c, RSet (fold_class c)) <$> runes s).

(** A bracket class listing its runes. *)
Definition rune_class (s : string) : Z → bool := λ r, existsb (Z.eqb r) (runes s).

Fixpoint nullable (r : re) : bool :=
  match r with
  | RNone | RSet _ => false
  | REps | RStar _ => true
  | RSeq a b => nullable a && nullable b
  | RAlt a b => nullable a || nullable b
  end.

Fixpoint deriv (c : Z) (r : re) : re :=
  match r with
  | RNone | REps => RNone
  | RSet f => if f c then REps else RNone
  | RSeq a b => if nullable a then RAlt (RSeq (deriv c a) b) (deriv c b) else RSeq (deriv c a) b
  | RAlt a b => RAlt (deriv c a) (deriv c b)
  | RStar a => RSeq (deriv c a) (RStar a)
  end.

(** The whole text matches: a pattern written ^r$. *)
Fixpoint match_full (r : re) (w : list Z) : bool :=
  match w with [] => nullable r | c :: t => match_full (deriv c r) t end.

(** Some prefix of the text matches. *)
Fixpoint match_prefix (r : re) (w : list Z) : bool :=
  nullable r || match w with [] => false | c :: t => match_prefix (deriv c r) t end.

(** Some substring of the text matches: an unanchored pattern. *)
Fixpoint match_search (r : re) (w : list Z) : bool :=
  match_prefix r w || match w with [] => false | _ :: t => match_search r t end.

Definition MatchString_full (r : re) (s : string) : bool := match_full r (runes s).
Definition MatchString_search (r : re) (s : string) : bool := match_search r (runes s).

(** ** The language of a pattern *)
Inductive matches : re → list Z → Prop :=
| m_eps : matches REps []
| m_set f c : f c = true → matches (RSet f) [c]
| m_seq a b u v : matches a u → matches b v → matches (RSeq a b) (u ++ v)
| m_alt_l a b u : matches a u → matches (RAlt a b) u
| m_alt_r a b u : matches b u → matches (RAlt a b) u
| m_star_nil a : matches (RStar a) []
| m_star_cons a c u v : matches a (c :: u) → matches (RStar a) v → matches (RStar a) (c :: u ++ v).

Create HintDb regexp.
#[export] Hint Constructors matches : regexp.

Lemma nullable_matches r : nullable r = true ↔ matches r [].
Proof.
  split.
  - induction r; simpl; try done; eauto with regexp.
    + rewrite andb_true_iff. intros [H1 H2]. change (@nil Z) with (@nil Z ++ @nil Z).
      eauto with regexp.
    + rewrite orb_true_iff. intros [H1|H1]; eauto with regexp.
  - remember [] as w eqn:Hw. intros Hm. revert Hw.
    induction Hm as [|f d Hf|a b u v _ IHu _ IHv|a b u _ IHu|a b u _ IHu|a|a d u v _ _ _ _];
      intros Hw; simpl; try done.
    + destruct u, v; try done. by rewrite IHu, IHv.
    + by rewrite IHu.
    + rewrite IHu by done. apply orb_true_r.
Qed.

Lemma deriv_matches c r w : matches (deriv c r) w ↔ matches r (c :: w).
Proof.
  split.
  - revert w. induction r as [| |f|a IHa b IHb|a IHa b IHb|a IHa]; intros w; simpl; intros Hm.
    + inversion Hm.
    + inversion Hm.
    + destruct (f c) eqn:Hf; inversion Hm; subst; eauto with regexp.
    + destruct (nullable a) eqn:Hn.
      * inversion Hm as [| | |? ? ? Hl|? ? ? Hr| |]; subst.
        -- inversion Hl; subst. rewrite app_comm_cons. eauto with regexp.
        -- change (c :: w) with ([] ++ c :: w). apply nullable_matches in Hn. eauto with regexp.
      * inversion Hm; subst. rewrite app_comm_cons. eauto with regexp.
    + inversion Hm; subst; eauto with regexp.
    + inversion Hm; subst. eauto with regexp.
  - remember (c :: w) as cw eqn:Hcw. intros Hm. revert w Hcw.
    induction Hm as [|f d Hf|a b u v Hu IHu Hv IHv|a b u Hu IHu|a b u Hu IHu|a|a d u v Hu IHu Hv IHv];
      intros w Hcw; simpl; try done.
    + simplify_eq. rewrite Hf. constructor.
    + destruct u as [|d u]; simpl in Hcw.
      * assert (nullable a = true) as -> by (by apply nullable_matches).
        apply m_alt_r. auto.
      * simplify_eq.
        destruct (nullable a); [apply m_alt_l|]; apply m_seq; auto.
    + apply m_alt_l. auto.
    + apply m_alt_r. auto.
    + simplify_eq. apply m_seq; auto.
Qed.

(** The matcher decides the language of the pattern. *)
Lemma match_full_spec r w : match_full r w = true ↔ matches r w.
Proof.
  revert r. induction w as [|c w IH]; intros r; simpl.
  - apply nullable_matches.
  - rewrite IH. apply deriv_matches.
Qed.

Lemma match_prefix_spec r w :
  match_prefix r w = true ↔ ∃ u v, w = u ++ v ∧ matches r u.
Proof.
  revert r. induction w as [|c w IH]; intros r; simpl; rewrite orb_true_iff, nullable_matches.
  - split.
    + intros [Hm|]; [|done]. by exists [], [].
    + intros (u & v & E & Hm). symmetry in E. apply app_eq_nil in E as [-> ->]. auto.
  - rewrite IH. split.
    + intros [Hm|(u & v & -> & Hm)]; [by exists [], (c :: w)|].
      exists (c :: u), v. split; [done|]. by apply deriv_matches.
    + intros ([|d u] & v & E & Hm); [auto|]. injection E as -> ->.
      right. exists u, v. split; [done|]. by apply deriv_matches.
Qed.

(** Unanchored search finds exactly the texts with a matching substring. *)
Lemma match_search_spec r w :
  match_search r w = true ↔ ∃ a u b, w = a ++ u ++ b ∧ matches r u.
Proof.
  induction w as [|c w IH]; cbn [match_search]; rewrite orb_true_iff, match_prefix_spec.
  - split.
    + intros [(u & v & E & Hm)|]; [|done]. by exists [], u, v.
    + intros (a & u & b & E & Hm). symmetry in E. apply app_eq_nil in E as [-> E].
      left. by exists u, b.
  - rewrite IH. split.
    + intros [(u & v & -> & Hm)|(a & u & b & -> & Hm)]; [by exists [], u, v|].
      by exists (c :: a), u, b.
    + intros ([|d a] & u & b & E & Hm); [left; by exists u, b|].
      injection E as -> ->. right. by exists a, u, b.
Qed.

(** ** Inversion of [matches] for the composite patterns *)
Lemma matches_seq a b w : matches (RSeq a b) w ↔ ∃ u v, w = u ++ v ∧ matches a u ∧ matches b v.
Proof.
  split; [inversion 1; subst; eauto 6|]. intros (u & v & -> & Hu & Hv). eauto with regexp.
Qed.

Lemma matches_alt a b w : matches (RAlt a b) w ↔ matches a w ∨ matches b w.
Proof. split; [inversion 1; subst; auto|]. intros [|]; eauto with regexp. Qed.

Lemma matches_set f w : matches (RSet f) w ↔ ∃ c, w = [c] ∧ f c = true.
Proof. split; [inversion 1; subst; eauto|]. intros (c & -> & Hc). eauto with regexp. Qed.

Lemma matches_star_set f w : matches (RStar (RSet f)) w ↔ forallb f w = true.
Proof.
  split.
  - remember (RStar (RSet f)) as r eqn:Hr. intros Hm. revert Hr.
    induction Hm as [| | | | |a|a d u v Hu _ Hv IHv]; intros Hr; simplify_eq; [done|].
    apply matches_set in Hu as (e & ? & He). simplify_eq. simpl. rewrite He. auto.
  - induction w as [|c w IH]; simpl; [constructor|]. rewrite andb_true_iff.
    intros [Hc Hw]. apply (m_star_cons _ c [] w); eauto with regexp.
Qed.

Lemma matches_rep_set f n w :
  matches (RRep n (RSet f)) w ↔ length w = n ∧ forallb f w = true.
Proof.
  revert w. induction n as [|n IH]; intros w; simpl.
  - split; [inversion 1; by subst|]. intros [Hl _]. destruct w; [constructor|done].
  - rewrite matches_seq. setoid_rewrite IH. setoid_rewrite matches_set. split.
    + intros (u & v & -> & (c & -> & Hc) & Hl & Hv). simpl. by rewrite Hl, Hc.
    + intros [Hl Hw]. destruct w as [|c w]; [done|]. simpl in *.
      apply andb_true_iff in Hw as [Hc Hw].
      exists [c], w. split_and!; [done|eauto|lia|done].
Qed.

(** ** Patterns that avoid a rune

    A pattern none of whose classes contains [d] never matches across a [d],
    so searching a text splits at every [d]. *)
Fixpoint avoids (d : Z) (r : re) : bool :=
  match r with
  | RNone | REps => true
  | RSet f => negb (f d)
  | RSeq a b | RAlt a b => avoids d a && avoids d b
  | RStar a => avoids d a
  end.

Lemma matches_avoids d r u : avoids d r = true → matches r u → d ∉ u.
Proof.
  intros Ha Hm. induction Hm as [|f c Hc|a b u v Hu IHu Hv IHv|a b u Hu IHu|a b u Hu IHu|a
    |a c u v Hu IHu Hv IHv]; simpl in Ha; rewrite ?andb_true_iff in Ha; try set_solver.
  apply negb_true_iff in Ha. rewrite list_elem_of_singleton. congruence.
Qed.

Lemma match_search_split d r a b :
  avoids d r = true →
  match_search r (a ++ d :: b) = match_search r a || match_search r b.
Proof.
  intros Hd. apply eq_true_iff_eq. rewrite orb_true_iff, !match_search_spec. split.
  - intros (x & u & y & E & Hm). pose proof (matches_avoids _ _ _ Hd Hm) as Hu.
    apply app_eq_inv in E as [(k & -> & E)|(k & -> & E)].
    + apply app_eq_inv in E as [(k' & -> & E)|(k' & -> & E)].
      * destruct k' as [|e k']; simpl in E.
        -- left. exists x, k, []. by rewrite !app_nil_r in *.
        -- injection E as -> _. set_solver.
      * left. exists x, u, k'. done.
    + destruct k as [|e k]; simpl in E.
      * destruct u as [|e u]; simpl in E.
        -- left. exists a, [], []. by rewrite !app_nil_r.
        -- injection E as -> _. set_solver.
      * injection E as -> ->. right. by exists k, u, y.
  - intros [(x & u & y & -> & Hm)|(x & u & y & -> & Hm)].
    + exists x, u, (y ++ d :: b). by rewrite <- !app_assoc.
    + exists (a ++ d :: x), u, y. by rewrite <- app_assoc.
Qed.
