(* ===== verification/GoBase64.v ===== *)
(** * Package encoding/base64: StdEncoding

    The standard alphabet with padding, not strict, as EncodeToString and
    DecodeString of the Go standard library have it: three bytes become four
    digits; the decoder reads quanta of four digits, skips line feeds and
    carriage returns anywhere, ignores the unused bits of a padded quantum, and
    answers the offset of the byte it cannot take. *)

From S2P Require Import Prelude GoText.

(** ** The alphabet *)
Definition b64_digit (x : Z) : ascii :=
  byte_of (if x <? 26 then x + 65 else if x <? 52 then x + 71 else if x <? 62 then x - 4
           else if x =? 62 then 43 else 47).

Definition b64_value (c : ascii) : option Z :=
  let v := byte_val c in
  if in_range 65 90 v then Some (v - 65)
  else if in_range 97 122 v then Some (v - 71)
  else if in_range 48 57 v then Some (v + 4)
  else if v =? 43 then Some 62
  else if v =? 47 then Some 63
  else None.

Definition b64_pad : ascii := "=".

(** ** Encoding *)
Definition b64_group (a b c : Z) : Z := Z.lor (Z.lor (Z.shiftl a 16) (Z.shiftl b 8)) c.
Definition b64_sextet (val k : Z) : ascii := b64_digit (Z.land (Z.shiftr val k) 0x3F).

Fixpoint StdEncodeToString (s : string) : string :=
  match s with
  | String a (String b (String c rest)) =>
      let val := b64_group (byte_val a) (byte_val b) (byte_val c) in
      String (b64_sextet val 18) (String (b64_sextet val 12) (String (b64_sextet val 6)
        (String (b64_sextet val 0) (StdEncodeToString rest))))
  | String a (String b "") =>
      let val := b64_group (byte_val a) (byte_val b) 0 in
      String (b64_sextet val 18) (String (b64_sextet val 12) (String (b64_sextet val 6)
        (String b64_pad "")))
  | String a "" =>
      let val := b64_group (byte_val a) 0 0 in
      String (b64_sextet val 18) (String (b64_sextet val 12) (String b64_pad (String b64_pad "")))
  | "" => ""
  end.

(** ** Decoding *)
Definition CorruptInputError (offset : Z) : error :=
  errors_New ("illegal base64 data at input byte " +:+ pretty offset).

Definition is_newline (c : ascii) : bool := (byte_val c =? 10) || (byte_val c =? 13).

(** What is left after the newlines at the offset [si]. *)
Fixpoint skip_newlines (s : string) (si : Z) : string * Z :=
  match s with
  | String c t => if is_newline c then skip_newlines t (si + 1) else (s, si)
  | "" => (s, si)
  end.

(** The bytes of a quantum, of which [dlen] digits were read. *)
Definition quantum_bytes (dbuf : list Z) (dlen : nat) : string :=
  let d i := nth i dbuf 0 in
  let val := Z.lor (Z.lor (Z.lor (Z.shiftl (d 0%nat) 18) (Z.shiftl (d 1%nat) 12)) (Z.shiftl (d 2%nat) 6)) (d 3%nat) in
  let byte k := byte_of (Z.land (Z.shiftr val k) 0xFF) in
  match dlen with
  | 4%nat => String (byte 16) (String (byte 8) (String (byte 0) ""))
  | 3%nat => String (byte 16) (String (byte 8) "")
  | 2%nat => String (byte 16) ""
  | _ => ""
  end.

(** The padding of a quantum with [dbuf] read, its first pad at [si] - 1: the
    text must end with it. *)
Definition decode_padding (dbuf : list Z) (s : string) (si : Z) : result string :=
  let finish s si :=
    match skip_newlines s si with
    | ("", _) => Ok (quantum_bytes dbuf (length dbuf))
    | (_, si) => Err (CorruptInputError si)
    end in
  match length dbuf with
  | 3%nat => finish s si
  | 2%nat =>
      match skip_newlines s si with
      | ("", si) => Err (CorruptInputError si)
      | (String c t, si) =>
          if decide (c = b64_pad) then finish t (si + 1) else Err (CorruptInputError (si - 1))
      end
  | _ => Err (CorruptInputError (si - 1))
  end.

(** The quanta of [s] from the offset [si], the first of them having [dbuf]
    already. *)
Fixpoint decode_quanta (s : string) (si : Z) (dbuf : list Z) : result string :=
  match s with
  | "" => match dbuf with [] => Ok "" | _ => Err (CorruptInputError (si - Z.of_nat (length dbuf))) end
  | String c t =>
      match b64_value c with
      | Some x =>
          if Nat.eqb (length dbuf) 3 then
            rest ← decode_quanta t (si + 1) [];
            Ok (quantum_bytes (dbuf ++ [x]) 4 +:+ rest)
          else decode_quanta t (si + 1) (dbuf ++ [x])
      | None =>
          if is_newline c then decode_quanta t (si + 1) dbuf
          else if decide (c = b64_pad) then decode_padding dbuf t (si + 1)
          else Err (CorruptInputError si)
      end
  end.

Definition StdDecodeString (s : string) : result string := decode_quanta s 0 [].

Example encode_man : StdEncodeToString "Man" = "TWFu". Proof. reflexivity. Qed.
Example encode_ma : StdEncodeToString "Ma" = "TWE=". Proof. reflexivity. Qed.
Example decode_m : StdDecodeString ("T" +:+ byte1 10 +:+ "Q==" +:+ byte1 10) = Ok "M". Proof. reflexivity. Qed.
Example decode_short : StdDecodeString "TWF" = Err (CorruptInputError 0). Proof. reflexivity. Qed.
Example decode_garbage : StdDecodeString "TQ==x" = Err (CorruptInputError 4). Proof. reflexivity. Qed.
Example decode_bad : StdDecodeString "TW!u" = Err (CorruptInputError 2). Proof. reflexivity. Qed.

(** ** Digits *)
Lemma b64_value_digit x : 0 <= x < 64 → b64_value (b64_digit x) = Some x.
Proof.
  intros Hx.
  assert (forallb (λ n, bool_decide (b64_value (b64_digit (Z.of_nat n)) = Some (Z.of_nat n))) (seq 0 64) = true)
    as Hall by (vm_compute; reflexivity).
  rewrite forallb_forall in Hall. specialize (Hall (Z.to_nat x)).
  rewrite bool_decide_eq_true, Z2Nat.id in Hall by lia. apply Hall, in_seq. lia.
Qed.

Lemma b64_digit_value c x : b64_value c = Some x → 0 <= x < 64 ∧ b64_digit x = c.
Proof.
  assert (∀ z, 0 <= z → byte_val c = z → byte_of z = c) as Hof.
  { intros z _ <-. apply byte_of_val. }
  unfold b64_value, b64_digit, in_range. pose proof (byte_val_range c).
  repeat (match goal with |- context [(?a <=? ?b) && (?b <=? ?d)] =>
            destruct (Z.leb_spec a b), (Z.leb_spec b d); cbn [andb] end
          || match goal with |- context [byte_val c =? ?z] => destruct (Z.eqb_spec (byte_val c) z) end);
    intros [= <-] || intros [=]; (split; [lia|]);
    repeat match goal with |- context [?a <? ?b] => destruct (Z.ltb_spec a b); [try lia|try lia] end;
    try (apply Hof; lia).
  all: match goal with |- context [?a =? ?b] => destruct (Z.eqb_spec a b) end; apply Hof; lia.
Qed.

Lemma b64_digit_plain x : 0 <= x < 64 → is_newline (b64_digit x) = false.
Proof.
  intros Hx. pose proof (b64_value_digit x Hx) as E. unfold is_newline.
  destruct (Z.eqb_spec (byte_val (b64_digit x)) 10) as [H10|_].
  - unfold b64_value in E. by rewrite H10 in E.
  - destruct (Z.eqb_spec (byte_val (b64_digit x)) 13) as [H13|_]; [|done].
    unfold b64_value in E. by rewrite H13 in E.
Qed.

(** ** Bits of a group as arithmetic *)
Lemma lor_shiftl a b k : 0 <= k → 0 <= b < 2 ^ k → Z.lor (Z.shiftl a k) b = a * 2 ^ k + b.
Proof.
  intros Hk Hb. rewrite <- Z.shiftl_mul_pow2, <- Z.add_lor_land by done.
  assert (Z.land (Z.shiftl a k) b = 0) as ->; [|lia].
  apply Z.bits_inj'. intros n Hn. rewrite Z.land_spec, Z.bits_0, Z.shiftl_spec by done.
  destruct (Z.ltb_spec n k) as [Hlt|Hge]; [by rewrite Z.testbit_neg_r by lia|].
  rewrite <- (Z.mod_small b (2 ^ k)) by done.
  rewrite Z.mod_pow2_bits_high by lia. apply andb_false_r.
Qed.

Lemma b64_group_sum a b c :
  0 <= b < 256 → 0 <= c < 256 → b64_group a b c = a * 65536 + b * 256 + c.
Proof.
  intros Hb Hc. unfold b64_group. rewrite <- Z.lor_assoc.
  rewrite (lor_shiftl b c 8) by lia. rewrite (lor_shiftl a _ 16) by lia. lia.
Qed.

Lemma quantum_sum x y z w :
  0 <= y < 64 → 0 <= z < 64 → 0 <= w < 64 →
  Z.lor (Z.lor (Z.lor (Z.shiftl x 18) (Z.shiftl y 12)) (Z.shiftl z 6)) w
  = x * 262144 + y * 4096 + z * 64 + w.
Proof.
  intros Hy Hz Hw. rewrite <- !Z.lor_assoc.
  rewrite (lor_shiftl z w 6), (lor_shiftl y _ 12), (lor_shiftl x _ 18) by lia. lia.
Qed.

Lemma bits_at v k n m : 0 <= k → 0 <= n → m = 2 ^ n - 1 → Z.land (Z.shiftr v k) m = v / 2 ^ k mod 2 ^ n.
Proof. intros Hk Hn Hm. rewrite (Z_land_mask _ n) by done. by rewrite Z.shiftr_div_pow2. Qed.

(** The digit of a group at the bit [k]. *)
Definition sextet_at (v k : Z) : Z := v / 2 ^ k mod 64.

Lemma sextet_range v k : 0 <= sextet_at v k < 64.
Proof. apply Z.mod_pos_bound. lia. Qed.

Lemma b64_sextet_at v k : 0 <= k → b64_sextet v k = b64_digit (sextet_at v k).
Proof. intros Hk. unfold b64_sextet. by rewrite (bits_at _ _ 6). Qed.

(** Four digits of a group are the group. *)
Lemma quantum_group v :
  0 <= v < 2 ^ 24 →
  sextet_at v 18 * 262144 + sextet_at v 12 * 4096 + sextet_at v 6 * 64 + sextet_at v 0 = v.
Proof. intros Hv. unfold sextet_at. zlia. Qed.

Lemma group_bytes a b c :
  let v := b64_group (byte_val a) (byte_val b) (byte_val c) in
  0 <= v < 2 ^ 24 ∧ byte_of (Z.land (Z.shiftr v 16) 0xFF) = a
  ∧ byte_of (Z.land (Z.shiftr v 8) 0xFF) = b ∧ byte_of (Z.land (Z.shiftr v 0) 0xFF) = c.
Proof.
  pose proof (byte_val_range a). pose proof (byte_val_range b). pose proof (byte_val_range c).
  intros v. subst v. rewrite b64_group_sum by done. rewrite !(bits_at _ _ 8) by done.
  assert (∀ d z, z = byte_val d → byte_of z = d) as Hof by (intros d z ->; apply byte_of_val).
  split; [lia|]. split_and!; apply Hof; zlia.
Qed.

(** The unused digits of a padded quantum are zero. *)
Lemma quantum_bytes_group a b c :
  let v := b64_group (byte_val a) (byte_val b) (byte_val c) in
  let digits := [sextet_at v 18; sextet_at v 12; sextet_at v 6; sextet_at v 0] in
  quantum_bytes digits 4 = String a (String b (String c ""))
  ∧ (c = byte_of 0 → quantum_bytes (take 3 digits) 3 = String a (String b ""))
  ∧ (b = byte_of 0 → c = byte_of 0 → quantum_bytes (take 2 digits) 2 = String a "").
Proof.
  intros v digits. destruct (group_bytes a b c) as (Hv & Ha & Hb & Hc). fold v in Hv, Ha, Hb, Hc.
  pose proof (sextet_range v). pose proof (quantum_group v Hv) as Hsum.
  assert (byte_val (byte_of 0) = 0) as Hzero by done.
  assert (v = byte_val a * 65536 + byte_val b * 256 + byte_val c) as Ev.
  { subst v. apply b64_group_sum; apply byte_val_range. }
  unfold quantum_bytes. subst digits. clearbody v. cbn [take nth].
  rewrite !quantum_sum by (done || lia).
  split_and!; [|intros ->|intros -> ->].
  - by rewrite Hsum, Ha, Hb, Hc.
  - assert (sextet_at v 0 = 0) as E0 by (unfold sextet_at; rewrite Ev, Hzero; zlia).
    rewrite E0 in Hsum. by rewrite Hsum, Ha, Hb.
  - assert (sextet_at v 0 = 0) as E0 by (unfold sextet_at; rewrite Ev, Hzero; zlia).
    assert (sextet_at v 6 = 0) as E6 by (unfold sextet_at; rewrite Ev, Hzero; zlia).
    rewrite E0, E6 in Hsum. by rewrite Hsum, Ha.
Qed.

(** ** The round trip *)
Lemma decode_digit x t si dbuf :
  0 <= x < 64 → (length dbuf < 3)%nat →
  decode_quanta (String (b64_digit x) t) si dbuf = decode_quanta t (si + 1) (dbuf ++ [x]).
Proof.
  intros Hx Hl. cbn [decode_quanta]. rewrite b64_value_digit by done.
  by destruct (Nat.eqb_spec (length dbuf) 3); [lia|].
Qed.

Lemma decode_quantum x y z w t si :
  0 <= x < 64 → 0 <= y < 64 → 0 <= z < 64 → 0 <= w < 64 →
  decode_quanta (String (b64_digit x) (String (b64_digit y) (String (b64_digit z)
    (String (b64_digit w) t)))) si []
  = rest ← decode_quanta t (si + 1 + 1 + 1 + 1) []; Ok (quantum_bytes [x; y; z; w] 4 +:+ rest).
Proof.
  intros Hx Hy Hz Hw. rewrite !decode_digit by (done || simpl; lia).
  cbn [decode_quanta app length Nat.eqb]. by rewrite b64_value_digit.
Qed.

Lemma decode_padded_two x y si :
  decode_quanta (String b64_pad (String b64_pad "")) si [x; y] = Ok (quantum_bytes [x; y] 2).
Proof. reflexivity. Qed.

Lemma decode_padded_three x y z si :
  decode_quanta (String b64_pad "") si [x; y; z] = Ok (quantum_bytes [x; y; z] 3).
Proof. reflexivity. Qed.

(** Strings, three bytes at a time. *)
Lemma string_triples_ind (P : string → Prop) :
  P "" → (∀ a, P (String a "")) → (∀ a b, P (String a (String b ""))) →
  (∀ a b c s, P s → P (String a (String b (String c s)))) → ∀ s, P s.
Proof.
  intros H0 H1 H2 H3. fix IH 1. intros [|a [|b [|c s]]]; [done|apply H1|apply H2|apply H3, IH].
Qed.

Lemma decode_encode s si : decode_quanta (StdEncodeToString s) si [] = Ok s.
Proof.
  revert si. induction s as [|a|a b|a b c s IH] using string_triples_ind; intros si; [done|..];
    cbn [StdEncodeToString]; rewrite !b64_sextet_at by done.
  - rewrite !decode_digit by (apply sextet_range || simpl; lia).
    destruct (quantum_bytes_group a (byte_of 0) (byte_of 0)) as (_ & _ & E).
    cbn [app]. rewrite decode_padded_two. f_equal. exact (E eq_refl eq_refl).
  - rewrite !decode_digit by (apply sextet_range || simpl; lia).
    destruct (quantum_bytes_group a b (byte_of 0)) as (_ & E & _).
    cbn [app]. rewrite decode_padded_three. f_equal. exact (E eq_refl).
  - rewrite decode_quantum by apply sextet_range. rewrite IH. cbn [mbind result_bind].
    destruct (quantum_bytes_group a b c) as (-> & _). done.
Qed.

(** The length of an encoding, and the bytes it is made of. *)
Lemma StdEncode_length s :
  String.length (StdEncodeToString s) = (4 * ((String.length s + 2) / 3))%nat.
Proof.
  induction s as [|a|a b|a b c s IH] using string_triples_ind; [done..|].
  cbn [StdEncodeToString String.length]. rewrite IH.
  replace (S (S (S (String.length s))) + 2)%nat with (1 * 3 + (String.length s + 2))%nat by lia.
  rewrite Nat.div_add_l by lia. lia.
Qed.

Definition b64_byte (c : ascii) : bool := bool_decide (is_Some (b64_value c)) || bool_decide (c = b64_pad).

Lemma StdEncode_bytes s : string_forallb b64_byte (StdEncodeToString s) = true.
Proof.
  assert (∀ v k, 0 <= k → b64_byte (b64_sextet v k) = true) as Hd.
  { intros v k Hk. unfold b64_byte. rewrite b64_sextet_at, b64_value_digit by (done || apply sextet_range).
    done. }
  induction s as [|a|a b|a b c s IH] using string_triples_ind; [done|..];
    cbn [StdEncodeToString string_forallb]; rewrite !Hd by done; done.
Qed.

(** ** Line breaks do not matter *)
Fixpoint strip_newlines (s : string) : string :=
  match s with
  | "" => ""
  | String c t => if is_newline c then strip_newlines t else String c (strip_newlines t)
  end.

Definition decoded (r : result string) : option string :=
  match r with Ok d => Some d | Err _ => None end.

Lemma skip_newlines_strip s si :
  match skip_newlines s si with
  | ("", _) => strip_newlines s = ""
  | (String c t, _) => is_newline c = false ∧ strip_newlines s = String c (strip_newlines t)
  end.
Proof.
  revert si. induction s as [|c t IH]; intros si; [done|]. cbn [skip_newlines strip_newlines].
  destruct (is_newline c) eqn:E; [apply IH|done].
Qed.

(** There is nothing to skip in a stripped string. *)
Lemma skip_stripped s si : skip_newlines (strip_newlines s) si = (strip_newlines s, si).
Proof.
  revert si. induction s as [|c t IH]; intros si; [done|]. cbn [strip_newlines].
  destruct (is_newline c) eqn:E; [apply IH|]. cbn [skip_newlines]. by rewrite E.
Qed.

Lemma decode_padding_strip dbuf s si si' :
  decoded (decode_padding dbuf s si) = decoded (decode_padding dbuf (strip_newlines s) si').
Proof.
  assert (∀ s si si', decoded (match skip_newlines s si with
      ("", _) => Ok (quantum_bytes dbuf (length dbuf)) | (_, si) => Err (CorruptInputError si) end)
    = decoded (match skip_newlines (strip_newlines s) si' with
      ("", _) => Ok (quantum_bytes dbuf (length dbuf)) | (_, si) => Err (CorruptInputError si) end)) as Hfinish.
  { intros t k k'. rewrite skip_stripped. pose proof (skip_newlines_strip t k) as Ht.
    destruct (skip_newlines t k) as [[|c u] ?]; [by rewrite Ht|by destruct Ht as [_ ->]]. }
  unfold decode_padding. destruct (length dbuf) as [|[|[|[|n]]]]; [done|done| |apply Hfinish|done].
  rewrite skip_stripped. pose proof (skip_newlines_strip s si) as Hs.
  destruct (skip_newlines s si) as [[|c t] k]; [by rewrite Hs|]. destruct Hs as [_ ->].
  destruct (decide (c = b64_pad)); [apply Hfinish|done].
Qed.

Lemma decode_quanta_strip s si si' dbuf :
  decoded (decode_quanta s si dbuf) = decoded (decode_quanta (strip_newlines s) si' dbuf).
Proof.
  revert si si' dbuf. induction s as [|c t IH]; intros si si' dbuf; [by destruct dbuf|].
  cbn [decode_quanta strip_newlines]. destruct (is_newline c) eqn:En.
  - assert (b64_value c = None) as ->; [|apply IH].
    unfold is_newline in En. apply orb_true_iff in En as [E|E]; apply Z.eqb_eq in E;
      unfold b64_value; by rewrite E.
  - cbn [decode_quanta]. rewrite En. destruct (b64_value c) as [x|].
    + destruct (Nat.eqb _ 3); [|apply IH]. specialize (IH (si + 1) (si' + 1) []).
      destruct (decode_quanta t _ []), (decode_quanta (strip_newlines t) _ []); simpl in *; congruence.
    + destruct (decide (c = b64_pad)); [apply decode_padding_strip|done].
Qed.

Lemma DecodeString_strip s : decoded (StdDecodeString s) = decoded (StdDecodeString (strip_newlines s)).
Proof. apply decode_quanta_strip. Qed.
