(* ===== verification/GoPath.v ===== *)
(** * Package path/filepath on Unix

    Lexical path handling, on the slash-separated elements of a path. *)

From S2P Require Import Prelude GoText.

Definition slash : ascii := "/".
Definition dot : ascii := ".".

Definition IsAbs (s : string) : bool := HasPrefix s "/".

(** One element of filepath.Clean; the elements kept so far are in reverse. *)
Definition clean_step (rooted : bool) (kept : list string) (c : string) : list string :=
  if decide (c = "") then kept
  else if decide (c = ".") then kept
  else if decide (c = "..") then
    match kept with
    | top :: rest => if decide (top = "..") then c :: kept else rest
    | [] => if rooted then [] else [c]
    end
  else c :: kept.

(** The elements of the cleaned path. *)
Definition path_elems (s : string) : list string :=
  reverse (foldl (clean_step (IsAbs s)) [] (Split s slash)).

(** filepath.Clean *)
Definition Clean (s : string) : string :=
  if decide (s = "") then "."
  else
    let out := path_elems s in
    if IsAbs s then "/" +:+ Join out "/"
    else if decide (out = []) then "." else Join out "/".

(** filepath.Join: leading empty elements are ignored. *)
Fixpoint PathJoin (elems : list string) : string :=
  match elems with
  | [] => ""
  | e :: rest => if decide (e = "") then PathJoin rest else Clean (Join elems "/")
  end.

(** The last element of a non-empty list of fields. *)
Definition last_field (l : list string) : string := default "" (last l).

Fixpoint strip_leading (c : ascii) (s : string) : string :=
  match s with String d t => if decide (d = c) then strip_leading c t else s | "" => "" end.

(** filepath.Base *)
Definition Base (s : string) : string :=
  if decide (s = "") then "."
  else
    let stripped := string_rev (strip_leading slash (string_rev s)) in
    let b := last_field (Split stripped slash) in
    if decide (b = "") then "/" else b.

(** filepath.Ext: from the last dot of the last element. *)
Definition Ext (s : string) : string :=
  let fields := Split (last_field (Split s slash)) dot in
  if decide (length fields = 1%nat) then "" else String dot (last_field fields).

(** The text up to and including the last slash. *)
Definition before_last (s : string) : string :=
  String.substring 0 (String.length s - String.length (last_field (Split s slash))) s.

(** filepath.Dir *)
Definition Dir (s : string) : string := Clean (before_last s).

(** ** Plain elements

    A file name without a slash that is neither empty, dot nor dot-dot. *)
Definition plain (f : string) : Prop :=
  string_forallb (λ c, bool_decide (c ≠ slash)) f = true ∧ f ≠ "" ∧ f ≠ "." ∧ f ≠ "..".

#[global] Instance plain_dec f : Decision (plain f).
Proof. unfold plain. apply _. Defined.

(** The directory part that joining one plain element to [root] produces. *)
Definition join_dir (root : string) : string :=
  if decide (root = "") then ""
  else (if IsAbs root then "/" else "")
       +:+ string_concat ((λ e, e +:+ "/") <$> path_elems root).

Lemma Split_plain f :
  string_forallb (λ c, bool_decide (c ≠ slash)) f = true → Split f slash = [f].
Proof.
  induction f as [|c f IH]; [done|]. cbn [string_forallb Split].
  rewrite andb_true_iff, bool_decide_eq_true. intros [Hc Hf].
  by rewrite decide_False, IH.
Qed.

Lemma Split_app (a b : string) (sep : ascii) :
  Split (a +:+ String sep b) sep = Split a sep ++ Split b sep.
Proof.
  induction a as [|c a IH]; simpl.
  - by rewrite decide_True.
  - rewrite IH. case_decide; [done|].
    pose proof (Split_nonempty a sep). by destruct (Split a sep).
Qed.

Lemma clean_step_plain rooted kept f : plain f → clean_step rooted kept f = f :: kept.
Proof.
  intros (_ & H1 & H2 & H3). unfold clean_step. by rewrite !decide_False.
Qed.

Lemma prefix_nil s : String.prefix "" s = true.
Proof. by destruct s. Qed.

Lemma IsAbs_cons c s : IsAbs (String c s) = bool_decide (c = slash).
Proof.
  unfold IsAbs, HasPrefix. rewrite prefix_cons, prefix_nil.
  destruct (ascii_dec "/" c) as [<-|Hne]; [done|].
  symmetry. apply bool_decide_eq_false. intros ->. by apply Hne.
Qed.

Lemma IsAbs_app root t : root ≠ "" → IsAbs (root +:+ t) = IsAbs root.
Proof.
  destruct root as [|c root]; [done|]. intros _. simpl. by rewrite !IsAbs_cons.
Qed.

Lemma path_elems_app root f :
  root ≠ "" → plain f → path_elems (root +:+ "/" +:+ f) = path_elems root ++ [f].
Proof.
  intros Hr Hf. unfold path_elems. rewrite IsAbs_app by done.
  change ("/" +:+ f) with (String slash f). rewrite Split_app, foldl_app.
  rewrite (Split_plain f) by apply Hf. simpl. rewrite clean_step_plain by done.
  by rewrite reverse_cons.
Qed.

Lemma Join_snoc l f : Join (l ++ [f]) "/" = string_concat ((λ e, e +:+ "/") <$> l) +:+ f.
Proof.
  unfold Join. induction l as [|e l IH]; [done|]. simpl in *.
  destruct (l ++ [f]) as [|x y] eqn:E; [by destruct l|].
  rewrite <- E in *. rewrite IH. by rewrite !sapp_assoc.
Qed.

Lemma Clean_plain f : plain f → Clean f = f.
Proof.
  intros Hf. pose proof Hf as (Hs & H1 & H2 & H3). unfold Clean, path_elems.
  assert (IsAbs f = false) as Habs.
  { destruct f as [|c f]; [done|]. rewrite IsAbs_cons.
    cbn [string_forallb] in Hs. apply andb_true_iff in Hs as [Hc _].
    apply bool_decide_eq_true in Hc. by apply bool_decide_eq_false. }
  rewrite Habs, Split_plain by done. simpl. rewrite clean_step_plain by done.
  by rewrite !decide_False.
Qed.

(** Joining one plain element appends it to a directory part that depends on
    the root only. *)
Lemma PathJoin_plain root f : plain f → PathJoin [root; f] = join_dir root +:+ f.
Proof.
  intros Hf. pose proof Hf as (_ & H1 & _). unfold join_dir. cbn [PathJoin].
  case_decide as Hr.
  - rewrite decide_False by done. by apply Clean_plain.
  - change (Join [root; f] "/") with (root +:+ "/" +:+ f).
    unfold Clean. rewrite decide_False by (by destruct root).
    rewrite IsAbs_app, path_elems_app, Join_snoc by done.
    destruct (IsAbs root); [by rewrite <- sapp_assoc|].
    rewrite decide_False; [done|]. by destruct (path_elems root).
Qed.

Lemma PathJoin_inj root f g :
  plain f → plain g → PathJoin [root; f] = PathJoin [root; g] → f = g.
Proof.
  intros Hf Hg. rewrite !PathJoin_plain by done. apply (inj (String.append (join_dir root))).
Qed.

(** *** Cleaned paths are stable *)

Definition elem_ok (e : string) : Prop :=
  string_forallb (λ c, bool_decide (c ≠ slash)) e = true ∧ e ≠ "" ∧ e ≠ ".".

(** [kept] is what cleaning its own elements gives back. *)
Definition clean_kept (rooted : bool) (kept : list string) : Prop :=
  foldl (clean_step rooted) [] (reverse kept) = kept ∧ Forall elem_ok kept.

Lemma clean_step_cases rooted kept c :
  clean_step rooted kept c = kept
  ∨ (clean_step rooted kept c = c :: kept ∧ c ≠ "" ∧ c ≠ ".")
  ∨ (∃ top, kept = top :: clean_step rooted kept c ∧ top ≠ "..").
Proof.
  unfold clean_step. repeat case_decide; auto.
  destruct kept as [|top rest]; [destruct rooted; auto|].
  case_decide; [auto|]. eauto.
Qed.

Lemma clean_step_kept rooted kept c :
  clean_kept rooted kept → string_forallb (λ c, bool_decide (c ≠ slash)) c = true →
  clean_kept rooted (clean_step rooted kept c).
Proof.
  intros Hkept Hc. pose proof Hkept as [Hf Hk].
  destruct (clean_step_cases rooted kept c) as [->|[(E & H1 & H2)|(top & E & Ht)]]; [done| |].
  - rewrite E. split; [|by constructor].
    rewrite reverse_cons, foldl_app, Hf. simpl. done.
  - (* a pop: the shorter stack is stable as well *)
    set (rest := clean_step rooted kept c) in *. clearbody rest. subst kept.
    inversion Hk as [|? ? (Ht1 & Ht2 & Ht3) Hr]; subst. split; [|done].
    rewrite reverse_cons, foldl_app in Hf. simpl in Hf.
    rewrite clean_step_plain in Hf by (by repeat split). congruence.
Qed.

Lemma clean_kept_fold rooted l kept :
  clean_kept rooted kept →
  Forall (λ f, string_forallb (λ c, bool_decide (c ≠ slash)) f = true) l →
  clean_kept rooted (foldl (clean_step rooted) kept l).
Proof.
  revert kept. induction l as [|c l IH]; intros kept Hk Hl; simpl; [done|].
  inversion Hl; subst. apply IH; [|done]. by apply clean_step_kept.
Qed.

Lemma path_elems_stable s :
  foldl (clean_step (IsAbs s)) [] (path_elems s) = reverse (path_elems s)
  ∧ Forall elem_ok (path_elems s).
Proof.
  unfold path_elems. rewrite reverse_involutive.
  destruct (clean_kept_fold (IsAbs s) (Split s slash) []) as [H1 H2].
  - by split.
  - apply Split_no_sep.
  - split; [done|]. by apply Forall_reverse.
Qed.

Lemma Split_Join_elems l :
  l ≠ [] → Forall elem_ok l → Split (Join l "/") slash = l.
Proof.
  unfold Join. induction l as [|e l IH]; [done|]. intros _ Hl.
  inversion Hl as [|? ? He Hl']; subst. simpl. destruct l as [|e' l].
  - by apply Split_plain, He.
  - change (e +:+ "/" +:+ String.concat "/" (e' :: l))
      with (e +:+ String slash (String.concat "/" (e' :: l))).
    rewrite Split_app, IH by done. by rewrite Split_plain by apply He.
Qed.

Lemma Join_elems_not_abs l : l ≠ [] → Forall elem_ok l → IsAbs (Join l "/") = false.
Proof.
  intros Hl Hok. destruct l as [|e l]; [done|]. inversion Hok as [|? ? (H1 & H2 & _) _]; subst.
  destruct e as [|c e]; [done|].
  cbn [string_forallb] in H1. apply andb_true_iff in H1 as [Hc _].
  apply bool_decide_eq_true in Hc.
  unfold Join. destruct l; simpl; rewrite IsAbs_cons; by apply bool_decide_eq_false.
Qed.

Lemma Clean_abs s : s ≠ "" → IsAbs (Clean s) = IsAbs s.
Proof.
  intros Hs. unfold Clean. rewrite decide_False by done.
  destruct (IsAbs s) eqn:E; [by simpl; rewrite IsAbs_cons|]. case_decide; [done|].
  apply Join_elems_not_abs; [done|]. apply path_elems_stable.
Qed.

(** Cleaning keeps the elements, hence cleaning twice is cleaning once. *)
Lemma path_elems_Clean s : s ≠ "" → path_elems (Clean s) = path_elems s.
Proof.
  intros Hs. destruct (path_elems_stable s) as [Hst Hok].
  unfold path_elems at 1. rewrite Clean_abs by done.
  unfold Clean. rewrite decide_False by done.
  destruct (IsAbs s) eqn:E.
  - change ("/" +:+ Join (path_elems s) "/") with ("" +:+ String slash (Join (path_elems s) "/")).
    rewrite Split_app. cbn [Split app foldl]. destruct (path_elems s) as [|e l] eqn:El; [done|].
    rewrite Split_Join_elems by done. change (clean_step true [] "") with (@nil string).
    rewrite Hst. apply reverse_involutive.
  - case_decide as Hnil; [by rewrite Hnil|].
    rewrite Split_Join_elems by done. rewrite Hst. apply reverse_involutive.
Qed.

Lemma Clean_nonempty s : Clean s ≠ "".
Proof.
  unfold Clean. case_decide; [done|]. destruct (IsAbs s); [done|]. case_decide as Hn; [done|].
  destruct (path_elems_stable s) as [_ Hok].
  destruct (path_elems s) as [|e l]; [done|]. inversion Hok as [|? ? (_ & H2 & _) _]; subst.
  unfold Join. destruct e; [done|]. by destruct l.
Qed.

(** The directory part under an already joined path is that path and a slash. *)
Lemma PathJoin_nested root f g :
  plain f → plain g → PathJoin [PathJoin [root; f]; g] = PathJoin [root; f] +:+ "/" +:+ g.
Proof.
  intros Hf Hg. rewrite (PathJoin_plain (PathJoin _)) by done.
  rewrite <- sapp_assoc. f_equal.
  set (s := if decide (root = "") then f else root +:+ "/" +:+ f).
  assert (PathJoin [root; f] = Clean s) as E.
  { pose proof Hf as (_ & H1 & _). unfold s. cbn [PathJoin]. case_decide; [|done].
    by rewrite decide_False. }
  assert (s ≠ "") as Hs.
  { pose proof Hf as (_ & H1 & _). unfold s. case_decide; [done|]. by destruct root. }
  assert (∃ l, path_elems s = l ++ [f]) as [l El].
  { unfold s. case_decide as Hr.
    - exists []. pose proof (Clean_plain f Hf) as Hcl.
      unfold path_elems. rewrite Split_plain by apply Hf. simpl. by rewrite clean_step_plain.
    - exists (path_elems root). by apply path_elems_app. }
  rewrite E. unfold join_dir. rewrite decide_False by apply Clean_nonempty.
  rewrite Clean_abs, path_elems_Clean by done. unfold Clean. rewrite decide_False by done.
  rewrite El, Join_snoc, fmap_app.
  assert (∀ a b, string_concat (a ++ b) = string_concat a +:+ string_concat b) as Hcat.
  { clear. induction a as [|x a IH]; intros b; simpl; [done|]. by rewrite IH, sapp_assoc. }
  rewrite Hcat. simpl. rewrite sapp_nil_r.
  destruct (IsAbs s); [simpl; by rewrite !sapp_assoc|].
  rewrite decide_False by (by destruct l). by rewrite !sapp_assoc.
Qed.

Lemma plain_not_abs f : plain f → IsAbs f = false.
Proof.
  intros (Hs & _). destruct f as [|c f]; [done|]. rewrite IsAbs_cons.
  cbn [string_forallb] in Hs. apply andb_true_iff in Hs as [Hc _].
  apply bool_decide_eq_true in Hc. by apply bool_decide_eq_false.
Qed.

Lemma join_dir_plain f : plain f → join_dir f = f +:+ "/".
Proof.
  intros Hf. pose proof Hf as (_ & H1 & _). unfold join_dir.
  rewrite decide_False, plain_not_abs by done. unfold path_elems.
  rewrite plain_not_abs, Split_plain by (done || apply Hf). simpl.
  rewrite clean_step_plain by done. simpl. by rewrite sapp_nil_r.
Qed.

Lemma string_concat_app a b : string_concat (a ++ b) = string_concat a +:+ string_concat b.
Proof. induction a as [|x a IH]; simpl; [done|]. by rewrite IH, sapp_assoc. Qed.

Lemma join_dir_snoc root f :
  root ≠ "" → plain f → join_dir (root +:+ "/" +:+ f) = join_dir root +:+ f +:+ "/".
Proof.
  intros Hr Hf. unfold join_dir. rewrite !decide_False by (done || by destruct root).
  rewrite IsAbs_app, path_elems_app, fmap_app, string_concat_app by done. simpl.
  by rewrite sapp_nil_r, !sapp_assoc.
Qed.

(** Joining two plain elements. *)
Lemma PathJoin3_plain root f g :
  plain f → plain g → PathJoin [root; f; g] = join_dir root +:+ f +:+ "/" +:+ g.
Proof.
  intros Hf Hg. pose proof Hf as (_ & H1 & _). destruct (decide (root = "")) as [->|Hr].
  - change (PathJoin [""; f; g]) with (PathJoin [f; g]).
    rewrite PathJoin_plain, join_dir_plain by done. unfold join_dir. simpl. by rewrite sapp_assoc.
  - assert (PathJoin [root; f; g] = PathJoin [root +:+ "/" +:+ f; g]) as ->.
    { cbn [PathJoin]. rewrite (decide_False _ _ Hr), decide_False by (by destruct root).
      unfold Join. simpl. by rewrite !sapp_assoc. }
    rewrite PathJoin_plain, join_dir_snoc by done. by rewrite !sapp_assoc.
Qed.
