(* ===== verification/PluginID.v ===== *)
(** * Plugin identifiers (src/internal/kernel/plugin_id.go)

    The same pattern guards plugin ids in the kernel, in provider bundle
    metadata and in provider observations. *)

From S2P Require Import Prelude GoText GoRegexp GoPath.

(** [a-zA-Z0-9] *)
Definition id_first (r : Z) : bool :=
  in_range 0x61 0x7A r || in_range 0x41 0x5A r || in_range 0x30 0x39 r.
(** [a-zA-Z0-9._-] *)
Definition id_rest (r : Z) : bool :=
  id_first r || (r =? 0x2E) || (r =? 0x5F) || (r =? 0x2D).

(** ^[a-zA-Z0-9][a-zA-Z0-9._-]*$ *)
Definition pluginIDPattern : re := RSeq (RSet id_first) (RStar (RSet id_rest)).

Definition ValidatePluginID `{UnicodeTables} (pluginID : string) : option error :=
  if decide (pluginID = "") then Some (errors_New "plugin id is required")
  else if negb (MatchString_full pluginIDPattern pluginID) then
    Some (errors_New ("invalid plugin id " +:+ Quote pluginID +:+
      ": use only letters, digits, dot, underscore, and dash, and start with a letter or digit"))
  else None.

(** The contract: what a valid id looks like, byte by byte. *)
Definition valid_id (s : string) : bool :=
  match s with
  | "" => false
  | String c rest => id_first (byte_val c) && string_forallb (λ c, id_rest (byte_val c)) rest
  end.

Lemma id_first_ascii r : id_first r = true → r < 0x80.
Proof. unfold id_first. rewrite !orb_true_iff, !in_range_true. lia. Qed.

Lemma id_rest_ascii r : id_rest r = true → r < 0x80.
Proof.
  unfold id_rest. rewrite !orb_true_iff, !Z.eqb_eq.
  intros [[[H| ->]| ->]| ->]; [by apply id_first_ascii|lia..].
Qed.

Lemma id_first_rest r : id_first r = true → id_rest r = true.
Proof. unfold id_rest. by intros ->. Qed.

Lemma pluginIDPattern_runes w :
  match_full pluginIDPattern w = true
  ↔ ∃ c t, w = c :: t ∧ id_first c = true ∧ forallb id_rest t = true.
Proof.
  unfold pluginIDPattern. rewrite match_full_spec, matches_seq. split.
  - intros (u & v & -> & Hu & Hv). apply matches_set in Hu as (c & -> & Hc).
    apply matches_star_set in Hv. by exists c, v.
  - intros (c & t & -> & Hc & Ht). exists [c], t. rewrite matches_set, matches_star_set. eauto.
Qed.

(** The regular expression accepts exactly the texts of the byte-level contract. *)
Lemma pluginIDPattern_spec s : MatchString_full pluginIDPattern s = valid_id s.
Proof.
  unfold MatchString_full. apply eq_true_iff_eq. rewrite pluginIDPattern_runes. split.
  - intros (c & t & E & Hc & Ht).
    assert (string_forallb ascii_byte s = true) as Ha.
    { apply (runes_all_ascii id_rest); [apply id_rest_ascii|]. rewrite E. simpl.
      by rewrite (id_first_rest _ Hc). }
    destruct s as [|b s]; [done|]. cbn [string_forallb] in Ha.
    apply andb_true_iff in Ha as [Hb Ha].
    rewrite runes_ascii_cons in E by done. injection E as <- <-.
    rewrite forallb_runes_ascii in Ht by done. simpl. by rewrite Hc, Ht.
  - destruct s as [|b s]; [done|]. simpl. rewrite andb_true_iff. intros [Hb Hs].
    assert (ascii_byte b = true) as Hab by (apply Z.ltb_lt; by apply id_first_ascii).
    assert (string_forallb ascii_byte s = true) as Has.
    { eapply string_forallb_impl; [|done]. intros c Hc. apply Z.ltb_lt. by apply id_rest_ascii. }
    exists (byte_val b), (runes s). rewrite runes_ascii_cons by done. split_and!; [done..|].
    by rewrite forallb_runes_ascii.
Qed.

Section Validation.
Context `{UnicodeTables}.

Lemma ValidatePluginID_valid s : ValidatePluginID s = None ↔ valid_id s = true.
Proof.
  unfold ValidatePluginID. rewrite pluginIDPattern_spec. case_decide as Hs.
  - by subst.
  - destruct (valid_id s); simpl; split; congruence.
Qed.
End Validation.

Lemma id_rest_not_slash c : id_rest (byte_val c) = true → bool_decide (c ≠ slash) = true.
Proof.
  intros Hc. apply bool_decide_eq_true. intros ->. by vm_compute in Hc.
Qed.

Lemma valid_id_forallb s :
  valid_id s = true → string_forallb (λ c, id_rest (byte_val c)) s = true.
Proof.
  destruct s as [|c s]; [done|]. simpl. rewrite !andb_true_iff. intros [Hc Hs].
  split; [by apply id_first_rest|done].
Qed.

Lemma valid_id_not_dot s t : valid_id s = true → s +:+ t ≠ "." ∧ s +:+ t ≠ ".." ∧ s +:+ t ≠ "".
Proof.
  destruct s as [|c s]; [done|]. simpl. rewrite andb_true_iff. intros [Hc _].
  split_and!; [..|done]; intros [= -> _]; by vm_compute in Hc.
Qed.

(** A valid id, with any suffix that has no slash, is one plain path element:
    it can name neither a parent directory nor a nested path. *)
Lemma valid_id_plain s t :
  valid_id s = true → string_forallb (λ c, bool_decide (c ≠ slash)) t = true → plain (s +:+ t).
Proof.
  intros Hs Ht. destruct (valid_id_not_dot s t Hs) as (H1 & H2 & H3).
  repeat split; try done. rewrite string_forallb_app, Ht, andb_true_r.
  eapply string_forallb_impl; [apply id_rest_not_slash|]. by apply valid_id_forallb.
Qed.
