(* ===== verification/Auth.v ===== *)
(** * Startup tokens (src/internal/auth/auth.go) *)

From S2P Require Import Prelude GoText GoBase64.

(** [io.ReadFull(tokenRandomReader, buf)] with a 32-byte buffer answers the
    bytes read or an error; NewToken wraps the error. *)
Definition token_size : nat := 32.
Definition NewToken (read_full : result string) : result string :=
  match read_full with
  | Err e => Err (errors_Wrap "generate token" e)
  | Ok buf => Ok buf
  end.

(** crypto/subtle.ConstantTimeByteEq on bytes. *)
Definition ConstantTimeByteEq (x y : Z) : Z := Z.shiftr (((Z.lxor x y) - 1) mod 2 ^ 32) 31.

(** The accumulator of crypto/subtle.ConstantTimeCompare over equal lengths. *)
Fixpoint xor_fold (x y : string) (v : Z) : Z :=
  match x, y with
  | String a x', String b y' => xor_fold x' y' (Z.lor v (Z.lxor (byte_val a) (byte_val b)))
  | _, _ => v
  end.

Definition ConstantTimeCompare (x y : string) : Z :=
  if negb (Nat.eqb (String.length x) (String.length y)) then 0
  else ConstantTimeByteEq (xor_fold x y 0) 0.

Definition EqualToken (a b : string) : bool :=
  if negb (Nat.eqb (String.length a) (String.length b)) then false
  else ConstantTimeCompare a b =? 1.

Definition Encode (data : string) : string := StdEncodeToString data.

Definition Decode (data : string) : result string :=
  match StdDecodeString data with
  | Err e => Err (errors_Wrap "decode base64" e)
  | Ok out => Ok out
  end.

(** ** Correctness *)

Lemma byte_xor_range a b : 0 <= Z.lxor (byte_val a) (byte_val b) < 256.
Proof.
  pose proof (byte_val_range a). pose proof (byte_val_range b). split.
  - apply Z.lxor_nonneg. lia.
  - destruct (Z.eq_dec (Z.lxor (byte_val a) (byte_val b)) 0) as [->|Hne]; [lia|].
    apply (Z.log2_lt_pow2 _ 8).
    + assert (0 <= Z.lxor (byte_val a) (byte_val b)); [|lia]. apply Z.lxor_nonneg. lia.
    + eapply Z.le_lt_trans; [apply Z.log2_lxor; lia|].
      assert (∀ z, 0 <= z < 256 → Z.log2 z < 8) as Hl.
      { intros z Hz. destruct (Z.eq_dec z 0) as [->|]; [done|]. apply Z.log2_lt_pow2; lia. }
      apply Z.max_lub_lt; auto.
Qed.

Lemma Z_lor_range8 a b : 0 <= a < 256 → 0 <= b < 256 → 0 <= Z.lor a b < 256.
Proof.
  intros Ha Hb. split; [apply Z.lor_nonneg; lia|].
  destruct (Z.eq_dec (Z.lor a b) 0) as [->|Hne]; [lia|].
  apply (Z.log2_lt_pow2 _ 8).
  - assert (0 <= Z.lor a b); [apply Z.lor_nonneg; lia|lia].
  - rewrite Z.log2_lor by lia.
    assert (∀ z, 0 <= z < 256 → Z.log2 z < 8) as Hl.
    { intros z Hz. destruct (Z.eq_dec z 0) as [->|]; [done|]. apply Z.log2_lt_pow2; lia. }
    apply Z.max_lub_lt; auto.
Qed.

Lemma xor_fold_range x y v : 0 <= v < 256 → 0 <= xor_fold x y v < 256.
Proof.
  revert y v. induction x as [|a x IH]; intros [|b y] v Hv; simpl; auto.
  apply IH, Z_lor_range8; [done|apply byte_xor_range].
Qed.

Lemma xor_fold_zero x y v :
  String.length x = String.length y → (xor_fold x y v = 0 ↔ v = 0 ∧ x = y).
Proof.
  revert y v. induction x as [|a x IH]; intros [|b y] v Hl; simpl in *; try done.
  - split; [by intros ->|by intros [-> _]].
  - rewrite IH by lia. rewrite Z.lor_eq_0_iff, Z.lxor_eq_0_iff. split.
    + intros [[-> E] ->]. by rewrite (byte_val_inj _ _ E).
    + intros [-> [= -> ->]]. done.
Qed.

Lemma ConstantTimeByteEq_zero v : 0 <= v < 256 → ConstantTimeByteEq v 0 = if v =? 0 then 1 else 0.
Proof.
  intros Hv. unfold ConstantTimeByteEq. rewrite Z.lxor_0_r, Z.shiftr_div_pow2 by done.
  destruct (Z.eqb_spec v 0) as [->|Hne]; [done|].
  rewrite Z.mod_small by lia. apply Z.div_small. lia.
Qed.

(** The constant-time comparison is exactly equality of the byte strings. *)
Lemma EqualToken_eq a b : EqualToken a b = bool_decide (a = b).
Proof.
  unfold EqualToken, ConstantTimeCompare.
  destruct (Nat.eqb_spec (String.length a) (String.length b)) as [Hl|Hl]; cbn [negb].
  - rewrite ConstantTimeByteEq_zero by (by apply xor_fold_range).
    destruct (Z.eqb_spec (xor_fold a b 0) 0) as [E|E].
    + apply xor_fold_zero in E as [_ ->]; [|done]. by rewrite bool_decide_eq_true_2.
    + rewrite bool_decide_eq_false_2; [done|]. intros ->. apply E. by apply xor_fold_zero.
  - rewrite bool_decide_eq_false_2; [done|]. by intros ->.
Qed.

(** A token survives its encoding.  Decode returns the bytes that were
    encoded, from the encoding itself and from every text that differs from it
    in line breaks only; the encoding has four digits for every three bytes
    begun, of the base64 alphabet and its padding; and a text that is refused is
    refused with the wrapped error of the decoder. *)
Theorem token_encoding data :
  Decode (Encode data) = Ok data
  ∧ (∀ text, strip_newlines text = Encode data → Decode text = Ok data)
  ∧ String.length (Encode data) = (4 * ((String.length data + 2) / 3))%nat
  ∧ string_forallb b64_byte (Encode data) = true
  ∧ ∀ e, Decode data = Err e → ∃ e0, StdDecodeString data = Err e0 ∧ e = errors_Wrap "decode base64" e0.
Proof.
  assert (Decode (Encode data) = Ok data) as Hround.
  { unfold Decode, Encode, StdDecodeString. by rewrite decode_encode. }
  split_and!; [done|..].
  - intros text Ht. pose proof (DecodeString_strip text) as E. rewrite Ht in E.
    unfold Encode in E. unfold StdDecodeString in E at 2. rewrite decode_encode in E.
    unfold Decode. destruct (StdDecodeString text); [|done]. by injection E as ->.
  - apply StdEncode_length.
  - apply StdEncode_bytes.
  - intros e. unfold Decode. destruct (StdDecodeString data) as [|e0]; [done|]. intros [= <-]. eauto.
Qed.
