(* ===== verification/Runtime.v ===== *)
(** * Runtime directory, socket and executable checks (src/internal/runtime)

    The operating system is a set of calls, [sysE]; their answers are the
    environment's choice. *)

From S2P Require Import Prelude Prog GoText GoPath PluginID.

(** ** io/fs.FileMode *)
Definition ModeDir : Z := 2 ^ 31.
Definition ModeSymlink : Z := 2 ^ 27.
Definition ModeDevice : Z := 2 ^ 26.
Definition ModeNamedPipe : Z := 2 ^ 25.
Definition ModeSocket : Z := 2 ^ 24.
Definition ModeCharDevice : Z := 2 ^ 21.
Definition ModeIrregular : Z := 2 ^ 19.
Definition ModeType : Z :=
  Z.lor ModeDir (Z.lor ModeSymlink (Z.lor ModeNamedPipe (Z.lor ModeSocket
    (Z.lor ModeDevice (Z.lor ModeCharDevice ModeIrregular))))).
Definition ModePerm : Z := 0x1FF.

Definition IsDir (mode : Z) : bool := negb (Z.land mode ModeDir =? 0).
Definition IsRegular (mode : Z) : bool := Z.land mode ModeType =? 0.
Definition Perm (mode : Z) : Z := Z.land mode ModePerm.

Definition dirMode : Z := 0x1C0.     (* 0o700 *)
Definition socketMode : Z := 0x180.  (* 0o600 *)

Record PeerCred : Type := mkPeerCred { cred_PID : Z; cred_UID : Z; cred_GID : Z }.

(** A connection, by identity. *)
Definition conn : Type := nat.

Inductive sysE : Type → Type :=
| Lstat (path : string) : sysE (result Z)                 (* FileInfo.Mode() *)
| MkdirAll (path : string) (mode : Z) : sysE (option error)
| Chmod (path : string) (mode : Z) : sysE (option error)
| Remove (path : string) : sysE (option error)
| ListenSocket (path : string) : sysE (option error)      (* net.Listen("unix", path) *)
| CloseListener (path : string) : sysE unit
| ConnType (c : conn) : sysE string                       (* the dynamic type, as %T prints it *)
| SyscallConn (c : conn) : sysE (option error)
| RawControl (c : conn) : sysE (option error)
| GetsockoptUcred (c : conn) : sysE (result PeerCred).

(** ** Paths *)
Definition SocketPath (root pluginID : string) : string := PathJoin [root; pluginID +:+ ".sock"].
Definition AuthPath (root pluginID : string) : string := PathJoin [root; pluginID +:+ ".auth"].

(** ** Operations *)

Definition os_IsNotExist (e : error) : bool := errors_Is e ErrNotExist.

Definition EnsureDir (root : string) : prog sysE (option error) :=
  if decide (root = "") then Ret (Some (errors_New "runtime dir is required"))
  else
    info ← trigger (Lstat root);
    let create :=
      mk ← trigger (MkdirAll root dirMode);
      match mk with
      | Some e => Ret (Some (errors_Wrap "create runtime dir" e))
      | None =>
          ch ← trigger (Chmod root dirMode);
          match ch with
          | Some e => Ret (Some (errors_Wrap "chmod runtime dir" e))
          | None => Ret None
          end
      end in
    match info with
    | Ok mode =>
        if negb (Z.land mode ModeSymlink =? 0) then
          Ret (Some (errors_New ("runtime dir must not be a symlink: " +:+ root)))
        else if negb (IsDir mode) then
          Ret (Some (errors_New ("runtime dir is not a directory: " +:+ root)))
        else create
    | Err e =>
        if negb (os_IsNotExist e) then Ret (Some (errors_Wrap "stat runtime dir" e))
        else create
    end.

Definition ListenUnix (socketPath : string) : prog sysE (option error) :=
  _ ← trigger (Remove socketPath);
  l ← trigger (ListenSocket socketPath);
  match l with
  | Some e => Ret (Some (errors_Wrap "listen unix socket" e))
  | None =>
      ch ← trigger (Chmod socketPath socketMode);
      match ch with
      | Some e =>
          trigger (CloseListener socketPath) ;;
          _ ← trigger (Remove socketPath);
          Ret (Some (errors_Wrap "chmod unix socket" e))
      | None => Ret None
      end
  end.

(** The checks on an existing file's mode. *)
Definition executable_mode_error (path : string) (mode : Z) : option error :=
  if negb (Z.land mode ModeSymlink =? 0) then
    Some (errors_New ("plugin executable must not be a symlink: " +:+ path))
  else if negb (IsRegular mode) then
    Some (errors_New ("plugin executable must be a regular file: " +:+ path))
  else if Z.land mode 0x49 =? 0 then
    Some (errors_New ("executable path is not executable: " +:+ path))
  else if negb (Z.land (Perm mode) 0x12 =? 0) then
    Some (errors_New ("plugin executable must not be group/world writable: " +:+ path))
  else None.

Definition ValidateExecutable (path : string) : prog sysE (option error) :=
  if decide (path = "") then Ret (Some (errors_New "executable path is required"))
  else if negb (IsAbs path) then
    Ret (Some (errors_New ("plugin executable path must be absolute: " +:+ path)))
  else
    info ← trigger (Lstat path);
    match info with
    | Err e => Ret (Some (errors_Wrap "stat executable" e))
    | Ok mode => Ret (executable_mode_error path mode)
    end.

(** Linux peer credentials (peercred_linux.go). *)
Definition ReadPeerCred (c : conn) : prog sysE (result PeerCred) :=
  ty ← trigger (ConnType c);
  if negb (bool_decide (ty = "*net.UnixConn")) then
    Ret (Err (errors_New ("peercred requires unix conn, got " +:+ ty)))
  else
    raw ← trigger (SyscallConn c);
    match raw with
    | Some e => Ret (Err (errors_Wrap "peercred syscall conn" e))
    | None =>
        ctl ← trigger (RawControl c);
        match ctl with
        | Some e => Ret (Err (errors_Wrap "peercred control" e))
        | None =>
            cred ← trigger (GetsockoptUcred c);
            match cred with
            | Err e => Ret (Err (errors_Wrap "getsockopt SO_PEERCRED" e))
            | Ok out => Ret (Ok out)
            end
        end
    end.

(** ** Executable checks, bit by bit *)

Lemma land_bits_zero a b : Z.land a b = 0 ↔ ∀ n, 0 <= n → Z.testbit b n = true → Z.testbit a n = false.
Proof.
  split.
  - intros E n Hn Hb. assert (Z.testbit (Z.land a b) n = false) as Hz by (rewrite E; apply Z.bits_0).
    rewrite Z.land_spec, Hb, andb_true_r in Hz. done.
  - intros Hall. apply Z.bits_inj'. intros n Hn. rewrite Z.land_spec, Z.bits_0.
    destruct (Z.testbit b n) eqn:Hb; [by rewrite Hall|apply andb_false_r].
Qed.

(** Accepted modes: a regular file (no type bit at all), some execute bit set,
    neither the group nor the world write bit. *)
Lemma executable_mode_ok path mode :
  executable_mode_error path mode = None ↔
  IsRegular mode = true
  ∧ (Z.testbit mode 0 = true ∨ Z.testbit mode 3 = true ∨ Z.testbit mode 6 = true)
  ∧ Z.testbit mode 1 = false ∧ Z.testbit mode 4 = false.
Proof.
  unfold executable_mode_error, Perm.
  assert (Z.land mode ModeSymlink = 0 ∨ IsRegular mode = false) as Hsym.
  { destruct (Z.eqb_spec (Z.land mode ModeSymlink) 0) as [|Hne]; [auto|]. right.
    apply Z.eqb_neq. intros E. apply Hne. apply land_bits_zero. intros n Hn Hb.
    eapply land_bits_zero; [exact E|done|].
    unfold ModeType. rewrite !Z.lor_spec, Hb. by rewrite orb_true_r. }
  assert (Z.land mode 0x49 = 0 ↔
    Z.testbit mode 0 = false ∧ Z.testbit mode 3 = false ∧ Z.testbit mode 6 = false) as Hx.
  { rewrite land_bits_zero. split; [intros Hall; split_and!; by apply Hall|].
    intros (H0 & H3 & H6) n Hn Hb.
    assert (n = 0 ∨ n = 3 ∨ n = 6) as [->|[->| ->]]; [|done..].
    destruct (decide (n < 7)) as [Hlt|Hge].
    - assert (n = 0 ∨ n = 1 ∨ n = 2 ∨ n = 3 ∨ n = 4 ∨ n = 5 ∨ n = 6) as Hn' by lia.
      destruct_or!; subst; try done; auto.
    - rewrite Z.bits_above_log2 in Hb; [done|lia|simpl; lia]. }
  assert (Z.land (Z.land mode ModePerm) 0x12 = 0 ↔
    Z.testbit mode 1 = false ∧ Z.testbit mode 4 = false) as Hw.
  { rewrite <- Z.land_assoc. change (Z.land ModePerm 0x12) with 0x12.
    rewrite land_bits_zero. split; [intros Hall; split_and!; by apply Hall|].
    intros (H1 & H4) n Hn Hb.
    assert (n = 1 ∨ n = 4) as [->| ->]; [|done..].
    destruct (decide (n < 5)) as [Hlt|Hge].
    - assert (n = 0 ∨ n = 1 ∨ n = 2 ∨ n = 3 ∨ n = 4) as Hn' by lia.
      destruct_or!; subst; try done; auto.
    - rewrite Z.bits_above_log2 in Hb; [done|lia|simpl; lia]. }
  destruct (Z.eqb_spec (Z.land mode ModeSymlink) 0) as [E|E]; cbn [negb].
  2:{ split; [done|]. intros (Hreg & _). destruct Hsym; congruence. }
  destruct (IsRegular mode); cbn [negb]; [|split; [done|by intros [? _]]].
  destruct (Z.eqb_spec (Z.land mode 0x49) 0) as [E1|E1].
  { split; [done|]. apply Hx in E1 as (H0 & H3 & H6). intros (_ & Hex & _).
    rewrite H0, H3, H6 in Hex. by destruct_or!. }
  destruct (Z.eqb_spec (Z.land (Z.land mode ModePerm) 0x12) 0) as [E2|E2]; cbn [negb].
  - split; [|done]. intros _. apply Hw in E2 as [H1 H4]. split_and!; [done| |done..].
    destruct (Z.testbit mode 0) eqn:H0, (Z.testbit mode 3) eqn:H3, (Z.testbit mode 6) eqn:H6; auto.
    destruct E1. by apply Hx.
  - split; [done|]. intros (_ & _ & H1 & H4). destruct E2. by apply Hw.
Qed.

(** ** Artifact paths *)

Lemma sock_no_slash : string_forallb (λ c, bool_decide (c ≠ slash)) ".sock" = true.
Proof. done. Qed.
Lemma auth_no_slash : string_forallb (λ c, bool_decide (c ≠ slash)) ".auth" = true.
Proof. done. Qed.

Lemma SocketPath_valid root id :
  valid_id id = true → SocketPath root id = join_dir root +:+ id +:+ ".sock".
Proof. intros Hid. apply PathJoin_plain, valid_id_plain; [done|apply sock_no_slash]. Qed.

Lemma AuthPath_valid root id :
  valid_id id = true → AuthPath root id = join_dir root +:+ id +:+ ".auth".
Proof. intros Hid. apply PathJoin_plain, valid_id_plain; [done|apply auth_no_slash]. Qed.

(** The socket and the token file of a plugin are different files. *)
Lemma socket_auth_differ root id : valid_id id = true → SocketPath root id ≠ AuthPath root id.
Proof.
  intros Hid. rewrite SocketPath_valid, AuthPath_valid by done.
  intros E. apply (inj (String.append _)) in E. by apply (inj (String.append id)) in E.
Qed.
