(* ===== verification/Bundle.v ===== *)
(** * Provider bundle metadata (src/internal/providerbundle/metadata.go)

    Inert declared metadata of one plugin generation, its validation and its
    redacted projections.  Slices are values here, so the copies Clone and
    cloneAssets make are equal to their arguments. *)

From S2P Require Import Prelude GoText GoRegexp GoPath PluginID.

(** time.Time as nanoseconds since the zero time; [IsZero] is being 0. *)
Definition time : Type := Z.
Definition time_IsZero (t : time) : bool := t =? 0.

(** ** Data *)
Definition ProviderBundleStatus : Type := string.
Definition ProviderBundleStatusDeclaredValid : ProviderBundleStatus := "declared_valid".
Definition ProviderBundleStatusDeclaredUnavailable : ProviderBundleStatus := "declared_unavailable".
Definition ProviderBundleStatusDeclaredInvalid : ProviderBundleStatus := "declared_invalid".

Record ProviderBundleDigest : Type := mkDigest { d_Algorithm : string; d_Value : string }.

Record ProviderBundleAsset : Type :=
  mkAsset { a_Path : string; a_Digest : ProviderBundleDigest }.

Record ProviderBundleMetadata : Type := mkMetadata {
  md_PluginID : string;
  md_PluginGeneration : Z;
  md_BundleRootPath : string;
  md_ManifestPath : string;
  md_LuaAssets : list ProviderBundleAsset;
  md_ManifestDigest : ProviderBundleDigest;
  md_SchemaVersion : string;
  md_ValidationStatus : ProviderBundleStatus;
  md_RedactedErrorCode : string;
  md_RedactedErrorMessage : string;
  md_ObservedAt : time;
  md_SubstrateEventCorrelation : string;
}.

Record DeclaredProviderBundleCoreDTO : Type := mkCoreDTO {
  core_Kind : string;
  core_Name : string;
  core_PluginID : string;
  core_PluginGeneration : Z;
  core_LuaAssetDigests : list ProviderBundleDigest;
  core_ManifestDigest : ProviderBundleDigest;
  core_SchemaVersion : string;
  core_ValidationStatus : ProviderBundleStatus;
  core_ObservedAt : time;
  core_SubstrateEventCorrelation : string;
}.

Record ProviderBundleAdminDTO : Type := mkAdminDTO {
  adm_Kind : string;
  adm_Name : string;
  adm_PluginID : string;
  adm_PluginGeneration : Z;
  adm_BundleRootPath : string;
  adm_ManifestPath : string;
  adm_LuaAssets : list ProviderBundleAsset;
  adm_ManifestDigest : ProviderBundleDigest;
  adm_SchemaVersion : string;
  adm_ValidationStatus : ProviderBundleStatus;
  adm_ErrorCode : string;
  adm_ErrorMessage : string;
  adm_ObservedAt : time;
  adm_SubstrateEventCorrelation : string;
}.

(** ** Patterns *)

(** [a-fA-F0-9] *)
Definition hex_class (r : Z) : bool :=
  in_range 0x61 0x66 r || in_range 0x41 0x46 r || in_range 0x30 0x39 r.
Definition hexDigest64 : re := RRep 64 (RSet hex_class).

(** [ _-]? *)
Definition sep_opt : re := ROpt (RSet (rune_class " _-")).

Definition secretLike : re :=
  RAlts [ RLitFold "secret"; RLitFold "token"; RLitFold "password"; RLitFold "passwd";
          RSeqs [RLitFold "private"; sep_opt; RLitFold "key"];
          RSeqs [RLitFold "api"; sep_opt; RLitFold "key"];
          RLitFold "bearer"; RLitFold "credential";
          RSeqs [RLitFold "authority"; sep_opt; RLitFold "use"; sep_opt; RLitFold "ref"];
          RSeqs [RLitFold "authority"; sep_opt; RLitFold "ref"];
          RLitFold "socket"; RLitFold "handle"; RLitFold "signer"; RLitFold "session" ].

Definition containsSecretLike (s : string) : bool := MatchString_search secretLike s.

(** ** Copies *)
Definition cloneAssets (assets : list ProviderBundleAsset) : list ProviderBundleAsset := assets.
Definition Clone (m : ProviderBundleMetadata) : ProviderBundleMetadata :=
  {| m with md_LuaAssets := cloneAssets (md_LuaAssets m) |}.
Definition LuaAssetPaths (m : ProviderBundleMetadata) : list string := a_Path <$> md_LuaAssets m.

(** ** Validation *)
Section Validate.
Context `{UnicodeTables}.

Definition blank (s : string) : bool := bool_decide (TrimSpace s = "").

Definition Digest_Validate (d : ProviderBundleDigest) : option error :=
  (fail_if negb (bool_decide (ToLower (TrimSpace (d_Algorithm d)) = "sha256"))
     with_error errors_New "digest algorithm must be sha256")
  ?> (fail_if negb (MatchString_full hexDigest64 (TrimSpace (d_Value d)))
     with_error errors_New "digest value must be 64 hex characters").

Definition Status_Validate (s : ProviderBundleStatus) : option error :=
  fail_if negb (bool_decide (s = ProviderBundleStatusDeclaredValid)
                || bool_decide (s = ProviderBundleStatusDeclaredUnavailable)
                || bool_decide (s = ProviderBundleStatusDeclaredInvalid))
    with_error errors_New ("invalid provider bundle validation status " +:+ Quote s).

(** [fmt.Errorf("<prefix>: %w", err)] on a possibly nil error. *)
Definition wrap_opt (prefix : string) (e : option error) : option error :=
  errors_Wrap prefix <$> e.

Fixpoint validate_assets (i : Z) (assets : list ProviderBundleAsset) : option error :=
  match assets with
  | [] => None
  | asset :: rest =>
      (fail_if blank (a_Path asset)
         with_error errors_New ("lua asset " +:+ Itoa i +:+ " path is required"))
      ?> wrap_opt ("lua asset " +:+ Itoa i +:+ " digest") (Digest_Validate (a_Digest asset))
      ?> validate_assets (i + 1) rest
  end.

(** [expectedGeneration] is the variadic argument. *)
Definition Metadata_Validate (m : ProviderBundleMetadata) (expectedGeneration : list Z)
  : option error :=
  ValidatePluginID (md_PluginID m)
  ?> (fail_if md_PluginGeneration m <=? 0
        with_error errors_New "plugin generation must be positive")
  ?> (fail_if Nat.ltb 1 (length expectedGeneration)
        with_error errors_New "expected generation accepts at most one value")
  ?> match expectedGeneration with
     | [g] => fail_if negb (md_PluginGeneration m =? g)
                with_error errors_New ("stale provider bundle metadata generation "
                  +:+ Itoa (md_PluginGeneration m) +:+ " does not match expected generation "
                  +:+ Itoa g)
     | _ => None
     end
  ?> (fail_if blank (md_BundleRootPath m) with_error errors_New "bundle root path is required")
  ?> (fail_if blank (md_ManifestPath m) with_error errors_New "manifest path is required")
  ?> wrap_opt "manifest digest" (Digest_Validate (md_ManifestDigest m))
  ?> Status_Validate (md_ValidationStatus m)
  ?> (fail_if blank (md_SchemaVersion m) with_error errors_New "schema version is required")
  ?> (fail_if time_IsZero (md_ObservedAt m) with_error errors_New "observed time is required")
  ?> (fail_if blank (md_SubstrateEventCorrelation m)
        with_error errors_New "substrate event correlation id is required")
  ?> (fail_if containsSecretLike (md_RedactedErrorCode m)
              || containsSecretLike (md_RedactedErrorMessage m)
        with_error errors_New "redacted error fields must not contain secret-like material")
  ?> validate_assets 0 (md_LuaAssets m).
End Validate.

(** ** Redaction and projections *)
Definition redacted : string := "[redacted]".

Definition RedactSecretLike (s : string) : string :=
  if containsSecretLike s then redacted else s.

Definition RedactAdminString (s : string) (redactPaths : bool) : string :=
  if bool_decide (RedactSecretLike s = redacted) then redacted
  else if negb redactPaths || bool_decide (s = "") || negb (IsAbs s) then s
  else
    let base := Base s in
    if bool_decide (base = ".") || bool_decide (base = "/")
       || bool_decide (RedactSecretLike base = redacted)
    then "[redacted-path]"
    else "[redacted-path]/" +:+ base.

Definition CoreDTO (m : ProviderBundleMetadata) : DeclaredProviderBundleCoreDTO :=
  let assets := cloneAssets (md_LuaAssets m) in
  {| core_Kind := "declared_provider_bundle_metadata";
     core_Name := "declared_provider_bundle_metadata";
     core_PluginID := md_PluginID m;
     core_PluginGeneration := md_PluginGeneration m;
     core_LuaAssetDigests := a_Digest <$> assets;
     core_ManifestDigest := md_ManifestDigest m;
     core_SchemaVersion := md_SchemaVersion m;
     core_ValidationStatus := md_ValidationStatus m;
     core_ObservedAt := md_ObservedAt m;
     core_SubstrateEventCorrelation := RedactSecretLike (md_SubstrateEventCorrelation m) |}.

Definition AdminDTO (m : ProviderBundleMetadata) (redactPaths : bool) : ProviderBundleAdminDTO :=
  let assets := (λ a, {| a with a_Path := RedactAdminString (a_Path a) redactPaths |})
                  <$> cloneAssets (md_LuaAssets m) in
  {| adm_Kind := "declared_provider_bundle_metadata_admin";
     adm_Name := "declared_provider_bundle_metadata";
     adm_PluginID := RedactSecretLike (md_PluginID m);
     adm_PluginGeneration := md_PluginGeneration m;
     adm_BundleRootPath := RedactAdminString (md_BundleRootPath m) redactPaths;
     adm_ManifestPath := RedactAdminString (md_ManifestPath m) redactPaths;
     adm_LuaAssets := assets;
     adm_ManifestDigest := md_ManifestDigest m;
     adm_SchemaVersion := RedactSecretLike (md_SchemaVersion m);
     adm_ValidationStatus := md_ValidationStatus m;
     adm_ErrorCode := RedactSecretLike (md_RedactedErrorCode m);
     adm_ErrorMessage := RedactSecretLike (md_RedactedErrorMessage m);
     adm_ObservedAt := md_ObservedAt m;
     adm_SubstrateEventCorrelation := RedactSecretLike (md_SubstrateEventCorrelation m) |}.

(** ** Redaction *)

Lemma secretLike_avoids_slash : avoids 0x2F secretLike = true.
Proof. by vm_compute. Qed.

Lemma redacted_not_secret : containsSecretLike redacted = false.
Proof. by vm_compute. Qed.

(** No pattern of the secret detector reaches across a slash. *)
Lemma containsSecretLike_slash a b :
  string_forallb ascii_byte a = true →
  containsSecretLike (a +:+ "/" +:+ b) = containsSecretLike a || containsSecretLike b.
Proof.
  intros Ha. unfold containsSecretLike, MatchString_search.
  rewrite runes_app_ascii by done. rewrite (runes_app_ascii "/") by done.
  change (string_bytes "/" ++ runes b) with (0x2F :: runes b).
  rewrite match_search_split by apply secretLike_avoids_slash.
  by rewrite (runes_ascii a).
Qed.

Lemma RedactSecretLike_safe s : containsSecretLike (RedactSecretLike s) = false.
Proof.
  unfold RedactSecretLike. destruct (containsSecretLike s) eqn:E; [|done].
  apply redacted_not_secret.
Qed.

Lemma RedactSecretLike_redacted s :
  RedactSecretLike s ≠ redacted → containsSecretLike s = false.
Proof. unfold RedactSecretLike. by destruct (containsSecretLike s). Qed.

(** The four shapes of a redacted admin string. *)
Lemma RedactAdminString_cases s :
  RedactAdminString s true = redacted
  ∨ (RedactAdminString s true = s ∧ IsAbs s = false ∧ containsSecretLike s = false)
  ∨ RedactAdminString s true = "[redacted-path]"
  ∨ (RedactAdminString s true = "[redacted-path]/" +:+ Base s
     ∧ containsSecretLike (Base s) = false).
Proof.
  unfold RedactAdminString. case_bool_decide as H1; [auto|].
  apply RedactSecretLike_redacted in H1. simpl.
  case_bool_decide as H2; [subst; auto|].
  destruct (IsAbs s) eqn:Habs; simpl; [|auto].
  repeat case_bool_decide; simpl; auto.
  do 3 right. split; [done|]. by apply RedactSecretLike_redacted.
Qed.

Lemma redacted_path_safe b :
  containsSecretLike b = false → containsSecretLike ("[redacted-path]/" +:+ b) = false.
Proof.
  intros Hb. change ("[redacted-path]/" +:+ b) with ("[redacted-path]" +:+ "/" +:+ b).
  rewrite containsSecretLike_slash, Hb by done. by vm_compute.
Qed.

Lemma RedactAdminString_safe s :
  containsSecretLike (RedactAdminString s true) = false
  ∧ IsAbs (RedactAdminString s true) = false.
Proof.
  destruct (RedactAdminString_cases s) as [->|[(-> & ? & ?)|[->|[-> Hb]]]].
  - split; by vm_compute.
  - done.
  - split; by vm_compute.
  - split; [by apply redacted_path_safe|done].
Qed.

Lemma RedactAdminString_fixpoint t :
  containsSecretLike t = false → IsAbs t = false → RedactAdminString t true = t.
Proof.
  intros H1 H2. unfold RedactAdminString, RedactSecretLike. rewrite H1, H2.
  case_bool_decide; [done|]. by rewrite orb_true_r.
Qed.

(** ** Validation *)
Section Validate_facts.
Context `{UnicodeTables}.

Definition digest_ok (d : ProviderBundleDigest) : bool :=
  bool_decide (ToLower (TrimSpace (d_Algorithm d)) = "sha256")
  && MatchString_full hexDigest64 (TrimSpace (d_Value d)).

Lemma Digest_Validate_None d : Digest_Validate d = None ↔ digest_ok d = true.
Proof.
  unfold Digest_Validate, digest_ok.
  rewrite first_error_None, !fail_if_None, !negb_false_iff, andb_true_iff. done.
Qed.

Lemma wrap_opt_None p e : wrap_opt p e = None ↔ e = None.
Proof. by destruct e. Qed.

Lemma validate_assets_None i assets :
  validate_assets i assets = None
  ↔ Forall (λ a, blank (a_Path a) = false ∧ digest_ok (a_Digest a) = true) assets.
Proof.
  revert i. induction assets as [|a assets IH]; intros i; simpl.
  - split; [constructor|done].
  - rewrite !first_error_None, fail_if_None, wrap_opt_None, Digest_Validate_None, IH.
    rewrite Forall_cons. tauto.
Qed.
End Validate_facts.

(** ** What the projections may show *)

Lemma RedactAdminString_no_secret s b : containsSecretLike (RedactAdminString s b) = false.
Proof.
  destruct b; [apply RedactAdminString_safe|]. unfold RedactAdminString.
  case_bool_decide as E; [apply redacted_not_secret|]. simpl. by apply RedactSecretLike_redacted.
Qed.

(** How a text is shown: as it is, unless the detector finds a secret in it. *)
Definition text_shown (s t : string) : Prop :=
  t = (if containsSecretLike s then "[redacted]" else s) ∧ containsSecretLike t = false.

(** How a path is shown: likewise, and when paths are to be redacted an absolute
    one is replaced, except perhaps for its last element. *)
Definition path_shown (redactPaths : bool) (s t : string) : Prop :=
  containsSecretLike t = false
  ∧ (if containsSecretLike s then t = "[redacted]"
     else if redactPaths && IsAbs s
          then IsAbs t = false ∧ (t = "[redacted-path]" ∨ t = "[redacted-path]/" +:+ Base s)
          else t = s).

Lemma RedactSecretLike_shown s : text_shown s (RedactSecretLike s).
Proof. split; [done|apply RedactSecretLike_safe]. Qed.

Lemma RedactAdminString_shown b s : path_shown b s (RedactAdminString s b).
Proof.
  split; [apply RedactAdminString_no_secret|]. destruct (containsSecretLike s) eqn:Es.
  { unfold RedactAdminString, RedactSecretLike. by rewrite Es, bool_decide_eq_true_2. }
  unfold RedactAdminString. case_bool_decide as E1.
  { unfold RedactSecretLike in E1. rewrite Es in E1. by subst; rewrite andb_false_r. }
  destruct b; cbn [negb orb andb]; [|done]. destruct (IsAbs s) eqn:Ha; cbn [negb].
  - rewrite (bool_decide_eq_false_2 (s = "")) by (by intros ->). cbn [orb].
    destruct (_ || _); [split; [done|by left]|]. split; [done|by right].
  - by rewrite orb_true_r.
Qed.

(** C37. What the admin projection shows.  Every field of it is determined: the
    free texts (plugin id, schema version, error code and message, correlation)
    are the declared ones unless the secret detector matches, the paths (bundle
    root, manifest, assets) are so too and, with path redaction on, none of them
    is absolute and all that is left of an absolute one is its last element.
    No text and no path shown matches the detector.  Generation, manifest and
    asset digests, status and time are shown as they were declared.  Absolute
    paths are looked for in the path fields only: one in an error message is
    shown, as [text_shown] says. *)
Theorem AdminDTO_redacted m b :
  let d := AdminDTO m b in
  Forall2 text_shown
    [md_PluginID m; md_SchemaVersion m; md_RedactedErrorCode m; md_RedactedErrorMessage m;
     md_SubstrateEventCorrelation m]
    [adm_PluginID d; adm_SchemaVersion d; adm_ErrorCode d; adm_ErrorMessage d;
     adm_SubstrateEventCorrelation d]
  ∧ Forall2 (path_shown b)
      (md_BundleRootPath m :: md_ManifestPath m :: (a_Path <$> md_LuaAssets m))
      (adm_BundleRootPath d :: adm_ManifestPath d :: (a_Path <$> adm_LuaAssets d))
  ∧ a_Digest <$> adm_LuaAssets d = a_Digest <$> md_LuaAssets m
  ∧ adm_ManifestDigest d = md_ManifestDigest m
  ∧ adm_PluginGeneration d = md_PluginGeneration m
  ∧ adm_ValidationStatus d = md_ValidationStatus m ∧ adm_ObservedAt d = md_ObservedAt m.
Proof.
  simpl. split_and!; try done.
  - repeat constructor; apply RedactSecretLike_safe.
  - constructor; [apply RedactAdminString_shown|]. constructor; [apply RedactAdminString_shown|].
    rewrite <- list_fmap_compose. apply Forall2_fmap, Forall_Forall2_diag, Forall_true.
    intros a. apply RedactAdminString_shown.
  - rewrite <- list_fmap_compose. by apply list_fmap_ext.
Qed.

(** Redacting is idempotent: a string that went through RedactAdminString
    is shown as it is by a second pass with the same setting, so a projection
    of a projection reveals nothing more and hides nothing more. *)
Theorem RedactAdminString_idempotent s b :
  RedactAdminString (RedactAdminString s b) b = RedactAdminString s b.
Proof.
  destruct b.
  - destruct (RedactAdminString_safe s). by apply RedactAdminString_fixpoint.
  - unfold RedactAdminString at 2 3. case_bool_decide as E; [by vm_compute|].
    simpl. unfold RedactAdminString. by rewrite bool_decide_eq_false_2.
Qed.

Section Validate_spec.
Context `{UnicodeTables}.

(** What the contract asks of declared metadata. *)
Record metadata_valid (m : ProviderBundleMetadata) : Prop := {
  mv_id : valid_id (md_PluginID m) = true;
  mv_generation : 0 < md_PluginGeneration m;
  mv_root : blank (md_BundleRootPath m) = false;
  mv_manifest : blank (md_ManifestPath m) = false;
  mv_digest : digest_ok (md_ManifestDigest m) = true;
  mv_status : md_ValidationStatus m ∈ [ProviderBundleStatusDeclaredValid;
    ProviderBundleStatusDeclaredUnavailable; ProviderBundleStatusDeclaredInvalid];
  mv_schema : blank (md_SchemaVersion m) = false;
  mv_observed : md_ObservedAt m ≠ 0;
  mv_correlation : blank (md_SubstrateEventCorrelation m) = false;
  mv_errors : containsSecretLike (md_RedactedErrorCode m) = false
    ∧ containsSecretLike (md_RedactedErrorMessage m) = false;
  mv_assets : Forall (λ a, blank (a_Path a) = false ∧ digest_ok (a_Digest a) = true) (md_LuaAssets m);
}.

Lemma Status_Validate_None s :
  Status_Validate s = None ↔ s ∈ [ProviderBundleStatusDeclaredValid;
    ProviderBundleStatusDeclaredUnavailable; ProviderBundleStatusDeclaredInvalid].
Proof.
  unfold Status_Validate. rewrite fail_if_None, negb_false_iff, !orb_true_iff, !bool_decide_eq_true.
  rewrite !elem_of_cons, elem_of_nil. tauto.
Qed.

(** The fields Validate looks at. *)
Lemma Metadata_Validate_fields m : Metadata_Validate m [] = None ↔ metadata_valid m.
Proof.
  unfold Metadata_Validate.
  rewrite !first_error_None, !fail_if_None, !wrap_opt_None, Digest_Validate_None,
    Status_Validate_None, validate_assets_None, ValidatePluginID_valid.
  unfold time_IsZero. rewrite orb_false_iff. split.
  - intros (H1 & H2 & H3 & H4 & H5 & H6 & H7 & H8 & H9 & H10 & H11 & H12 & H13).
    constructor; try done; [by apply Z.leb_gt|by apply Z.eqb_neq].
  - intros []. split_and!; try done; try tauto; [by apply Z.leb_gt|by apply Z.eqb_neq].
Qed.

(** The expected generation is checked independently of the fields. *)
Lemma Metadata_Validate_expected m gens :
  Metadata_Validate m gens = None ↔
  Metadata_Validate m [] = None ∧ (gens = [] ∨ gens = [md_PluginGeneration m]).
Proof.
  unfold Metadata_Validate. rewrite !first_error_None.
  destruct gens as [|g [|g2 gens]]; simpl.
  - tauto.
  - assert ((fail_if negb (md_PluginGeneration m =? g)
                with_error errors_New ("stale provider bundle metadata generation "
                  +:+ Itoa (md_PluginGeneration m) +:+ " does not match expected generation "
                  +:+ Itoa g)) = None ↔ [g] = [] ∨ [g] = [md_PluginGeneration m]) as ->; [|tauto].
    rewrite fail_if_None, negb_false_iff, Z.eqb_eq.
    split; [intros ->; by right|by intros [|[= ->]]].
  - split; [by intros (_ & _ & ? & _)|by intros [_ [|]]].
Qed.

(** C38. Validate accepts exactly the metadata of the contract: at most one
    expected generation, equal to the declared one, and every field as
    [metadata_valid] says; anything else is an error. *)
Theorem Metadata_Validate_spec m gens :
  Metadata_Validate m gens = None ↔
  metadata_valid m ∧ (gens = [] ∨ gens = [md_PluginGeneration m]).
Proof. by rewrite Metadata_Validate_expected, Metadata_Validate_fields. Qed.
End Validate_spec.
