(* ===== verification/Loader.v ===== *)
(** * Loading provider bundles (src/internal/providerbundle/loader.go)

    One observation of a bundle on disk, as inert metadata.  The file system
    is the set of calls [loadE]; crypto/sha256 and the three uses of
    encoding/json (an object of raw messages, a string, an int64) are
    parameters. *)

From S2P Require Import Prelude Prog GoText GoPath PluginID Runtime Bundle.

(** ** Calls *)

(** An open file, by descriptor. *)
Definition file : Type := nat.

Inductive loadE : Type → Type :=
| LGetwd : loadE (result string)                          (* os.Getwd *)
| LEvalSymlinks (path : string) : loadE (result string)   (* filepath.EvalSymlinks *)
| LStat (path : string) : loadE (result bool)             (* os.Stat, then IsDir() *)
| LOpen (path : string) : loadE (result file)
| LReadAll (f : file) : loadE (result string)
| LClose (f : file) : loadE unit.

(** ** Options *)

Definition defaultManifestFilename : string := "manifest.json".

Record ProviderBundleLoadOptions : Type := mkLoadOptions {
  lo_PluginID : string;
  lo_PluginGeneration : Z;
  lo_ExpectedPluginGeneration : Z;
  lo_BundleRootPath : string;
  lo_ManifestPath : string;
  lo_ManifestFilename : string;
  lo_ExpectedLuaAssetPaths : list string;
  lo_ObservedAt : time;
  lo_SubstrateEventCorrelation : string;
}.

Record manifestIdentity : Type := mkIdentity {
  id_SchemaVersion : string;
  id_PluginID : string;
  id_PluginGeneration : option Z;
}.

Definition digest0 : ProviderBundleDigest := mkDigest "" "".

(** ** Paths *)

(** filepath.Abs *)
Definition filepath_Abs (path : string) : prog loadE (result string) :=
  if IsAbs path then Ret (Ok (Clean path))
  else
    wd ← trigger LGetwd;
    match wd with
    | Err e => Ret (Err e)
    | Ok wd => Ret (Ok (PathJoin [wd; path]))
    end.

Definition prepareBundleRoot (root : string) : prog loadE (result string) :=
  if blank root then Ret (Err (errors_New "bundle root is required"))
  else
    abs ← filepath_Abs root;
    match abs with
    | Err e => Ret (Err e)
    | Ok abs =>
        resolved ← trigger (LEvalSymlinks abs);
        match resolved with
        | Err e => Ret (Err e)
        | Ok resolved =>
            info ← trigger (LStat resolved);
            match info with
            | Err e => Ret (Err e)
            | Ok is_dir =>
                if negb is_dir then Ret (Err (errors_New "bundle root is not a directory"))
                else Ret (Ok resolved)
            end
        end
    end.

Definition pathWithinRoot (root path : string) : bool :=
  let rootWithSep := if negb (HasSuffix root "/") then root +:+ "/" else root in
  bool_decide (path = root) || HasPrefix path rootWithSep.

Definition resolveBundlePath (root p : string) : prog loadE (result string) :=
  if blank p then Ret (Err (errors_New "path is required"))
  else
    let candidate := if negb (IsAbs p) then PathJoin [root; p] else p in
    abs ← filepath_Abs candidate;
    match abs with
    | Err e => Ret (Err e)
    | Ok abs =>
        if negb (pathWithinRoot root abs) then
          Ret (Err (errors_New "path escapes bundle root"))
        else
          resolved ← trigger (LEvalSymlinks abs);
          match resolved with
          | Ok resolved =>
              if negb (pathWithinRoot root resolved) then
                Ret (Err (errors_New "path escapes bundle root"))
              else Ret (Ok abs)
          | Err _ => Ret (Ok abs)
          end
    end.

Definition resolveManifestPath (root manifestPath manifestFilename : string)
  : prog loadE (result string) :=
  if negb (blank manifestPath) then resolveBundlePath root manifestPath
  else
    let filename := TrimSpace manifestFilename in
    let filename := if decide (filename = "") then defaultManifestFilename else filename in
    resolveBundlePath root filename.

Definition inertManifestPath (opts : ProviderBundleLoadOptions) : string :=
  if negb (blank (lo_ManifestPath opts)) then lo_ManifestPath opts
  else if negb (blank (lo_ManifestFilename opts)) then
    PathJoin [lo_BundleRootPath opts; lo_ManifestFilename opts]
  else if negb (blank (lo_BundleRootPath opts)) then
    PathJoin [lo_BundleRootPath opts; defaultManifestFilename]
  else "".

(** ** Loading *)

Definition failMetadata (metadata : ProviderBundleMetadata) (status : ProviderBundleStatus)
    (code message : string) : ProviderBundleMetadata :=
  {| metadata with
       md_ValidationStatus := status;
       md_RedactedErrorCode := RedactSecretLike code;
       md_RedactedErrorMessage := RedactSecretLike message |}.

(** encoding/hex.EncodeToString *)
Fixpoint EncodeToString (s : string) : string :=
  match s with "" => "" | String c t => hex_digits 2 (byte_val c) +:+ EncodeToString t end.

Section Load.
Context `{UnicodeTables}.

(** crypto/sha256: the digest of a byte string. *)
Variable sha256 : string → string.
(** json.Unmarshal into a nil map[string]json.RawMessage. *)
Variable unmarshal_object : string → result (gmap string string).
(** json.Unmarshal into a *string and an *int64 holding a value. *)
Variable unmarshal_string : string → string → result string.
Variable unmarshal_int64 : string → Z → result Z.

Definition validateLoadIdentity (opts : ProviderBundleLoadOptions) : option error :=
  ValidatePluginID (lo_PluginID opts)
  ?> (fail_if lo_PluginGeneration opts <=? 0
        with_error errors_New "plugin generation must be positive")
  ?> (fail_if time_IsZero (lo_ObservedAt opts) with_error errors_New "observed time is required")
  ?> (fail_if blank (lo_SubstrateEventCorrelation opts)
        with_error errors_New "substrate event correlation id is required").

(** The first key present decides; the answer is the new value of [dst]. *)
Fixpoint firstString (raw : gmap string string) (dst : string) (keys : list string)
  : result string :=
  match keys with
  | [] => Ok dst
  | key :: rest =>
      match raw !! key with
      | None => firstString raw dst rest
      | Some value => unmarshal_string value dst
      end
  end.

(** The new value of [dst] and whether a key was present. *)
Fixpoint firstInt64 (raw : gmap string string) (dst : Z) (keys : list string)
  : result (Z * bool) :=
  match keys with
  | [] => Ok (dst, false)
  | key :: rest =>
      match raw !! key with
      | None => firstInt64 raw dst rest
      | Some value => dst ← unmarshal_int64 value dst; Ok (dst, true)
      end
  end.

Definition parseManifestIdentity (b : string) : result manifestIdentity :=
  raw ← unmarshal_object b;
  schema ← firstString raw "" ["schema_version"; "schemaVersion"];
  if blank schema then Err (errors_New "schema version is required")
  else
    plugin ← firstString raw "" ["plugin_id"; "pluginId"; "plugin"];
    generation ← firstInt64 raw 0 ["plugin_generation"; "pluginGeneration"; "generation"];
    Ok (mkIdentity schema plugin (if generation.2 : bool then Some generation.1 else None)).

Definition digestFile (path : string) : prog loadE (result (ProviderBundleDigest * string)) :=
  f ← trigger (LOpen path);
  match f with
  | Err e => Ret (Err e)
  | Ok f =>
      b ← trigger (LReadAll f);
      trigger (LClose f) ;;
      match b with
      | Err e => Ret (Err e)
      | Ok b => Ret (Ok (mkDigest "sha256" (EncodeToString (sha256 b)), b))
      end
  end.

(** The loop over the declared asset paths; [metadata] has its manifest facts. *)
Fixpoint load_assets (metadata : ProviderBundleMetadata) (root : string)
    (assets : list ProviderBundleAsset) (declared : list string)
  : prog loadE ProviderBundleMetadata :=
  match declared with
  | [] =>
      Ret {| metadata with
               md_LuaAssets := assets;
               md_ValidationStatus := ProviderBundleStatusDeclaredValid |}
  | declaredPath :: rest =>
      assetPath ← resolveBundlePath root declaredPath;
      match assetPath with
      | Err _ =>
          Ret (failMetadata {| metadata with md_LuaAssets := assets ++ [mkAsset declaredPath digest0] |}
                 ProviderBundleStatusDeclaredInvalid "invalid_lua_asset_path"
                 "lua asset path is outside bundle root")
      | Ok assetPath =>
          digest ← digestFile assetPath;
          match digest with
          | Err e =>
              Ret (failMetadata {| metadata with md_LuaAssets := assets ++ [mkAsset assetPath digest0] |}
                     ProviderBundleStatusDeclaredUnavailable
                     (if os_IsNotExist e then "missing_lua_asset" else "unreadable_lua_asset")
                     "lua asset is unavailable")
          | Ok (digest, _) => load_assets metadata root (assets ++ [mkAsset assetPath digest]) rest
          end
      end
  end.

Definition initial_metadata (opts : ProviderBundleLoadOptions) : ProviderBundleMetadata :=
  {| md_PluginID := lo_PluginID opts;
     md_PluginGeneration := lo_PluginGeneration opts;
     md_BundleRootPath := lo_BundleRootPath opts;
     md_ManifestPath := "";
     md_LuaAssets := [];
     md_ManifestDigest := digest0;
     md_SchemaVersion := "";
     md_ValidationStatus := "";
     md_RedactedErrorCode := "";
     md_RedactedErrorMessage := "";
     md_ObservedAt := lo_ObservedAt opts;
     md_SubstrateEventCorrelation := lo_SubstrateEventCorrelation opts |}.

(** From the manifest's bytes on. *)
Definition load_identified (opts : ProviderBundleLoadOptions) (metadata : ProviderBundleMetadata)
    (root manifestBytes : string) : prog loadE ProviderBundleMetadata :=
  let invalid message :=
    Ret (failMetadata metadata ProviderBundleStatusDeclaredInvalid
           "malformed_manifest_identity" message) in
  match parseManifestIdentity manifestBytes with
  | Err _ => invalid "manifest identity is invalid"
  | Ok identity =>
      if negb (bool_decide (id_PluginID identity = ""))
         && negb (bool_decide (id_PluginID identity = lo_PluginID opts))
      then invalid "manifest plugin id does not match"
      else if match id_PluginGeneration identity with
              | Some g => negb (g =? lo_PluginGeneration opts)
              | None => false
              end
      then invalid "manifest plugin generation does not match"
      else
        load_assets {| metadata with md_SchemaVersion := id_SchemaVersion identity |} root []
          (lo_ExpectedLuaAssetPaths opts)
  end.

(** From the prepared bundle root on. *)
Definition load_rooted (opts : ProviderBundleLoadOptions) (metadata : ProviderBundleMetadata)
    (root : string) : prog loadE ProviderBundleMetadata :=
  manifestPath ← resolveManifestPath root (lo_ManifestPath opts) (lo_ManifestFilename opts);
  match manifestPath with
  | Err _ =>
      Ret (failMetadata {| metadata with md_ManifestPath := inertManifestPath opts |}
             ProviderBundleStatusDeclaredInvalid "invalid_manifest_path"
             "manifest path is outside bundle root")
  | Ok manifestPath =>
      let metadata := {| metadata with md_ManifestPath := manifestPath |} in
      digest ← digestFile manifestPath;
      match digest with
      | Err e =>
          Ret (failMetadata metadata ProviderBundleStatusDeclaredUnavailable
                 (if os_IsNotExist e then "missing_manifest" else "unreadable_manifest")
                 "manifest is unavailable")
      | Ok (manifestDigest, manifestBytes) =>
          load_identified opts {| metadata with md_ManifestDigest := manifestDigest |}
            root manifestBytes
      end
  end.

Definition LoadProviderBundleMetadata (opts : ProviderBundleLoadOptions)
  : prog loadE ProviderBundleMetadata :=
  let metadata := initial_metadata opts in
  let inert := {| metadata with md_ManifestPath := inertManifestPath opts |} in
  match validateLoadIdentity opts with
  | Some _ =>
      Ret (failMetadata inert ProviderBundleStatusDeclaredInvalid "malformed_load_identity"
             "provider bundle load identity is invalid")
  | None =>
      if (0 <? lo_ExpectedPluginGeneration opts)
         && negb (lo_PluginGeneration opts =? lo_ExpectedPluginGeneration opts)
      then
        Ret (failMetadata inert ProviderBundleStatusDeclaredInvalid "stale_generation"
               "plugin generation does not match expected generation")
      else
        root ← prepareBundleRoot (lo_BundleRootPath opts);
        match root with
        | Err _ =>
            Ret (failMetadata inert ProviderBundleStatusDeclaredUnavailable "missing_bundle_root"
                   "bundle root is unavailable")
        | Ok root => load_rooted opts {| metadata with md_BundleRootPath := root |} root
        end
  end.
End Load.
