(* ===== verification/LoaderFacts.v ===== *)
(** * What loading a provider bundle guarantees

    The loader stays inside the bundle root, its verdict is the one Validate
    gives, and the digests it declares are those of the files it read. *)

From S2P Require Import Prelude Prog GoText GoRegexp GoPath PluginID Runtime Bundle Loader.

(** ** Blank texts *)

Lemma drop_space_snoc l r c :
  IsSpace r = false → ∃ l', drop_space (l ++ [(r, c)]) = l' ++ [(r, c)].
Proof.
  intros Hr. induction l as [|[r' c'] l IH]; simpl.
  - rewrite Hr. by exists [].
  - destruct (IsSpace r'); [done|]. by exists ((r', c') :: l).
Qed.

Lemma drop_space_id l : Forall (λ rc, IsSpace rc.1 = false) l → drop_space l = l.
Proof. intros [|[r c] l' Hr _]; simpl in *; [done|]. by rewrite Hr. Qed.

(** A text that starts with an ASCII byte other than white space is not blank. *)
Lemma blank_cons c s :
  ascii_byte c = true → IsSpace (byte_val c) = false → blank (String c s) = false.
Proof.
  intros Hc Hsp. unfold blank. apply bool_decide_eq_false. unfold TrimSpace.
  rewrite rune_chunks_ascii_cons by done. cbn [drop_space]. rewrite Hsp, reverse_cons.
  destruct (drop_space_snoc (reverse (rune_chunks s)) (byte_val c) (String c "") Hsp) as [l' ->].
  by rewrite reverse_snoc.
Qed.

Lemma blank_abs s : IsAbs s = true → blank s = false.
Proof.
  destruct s as [|c s]; [done|]. rewrite IsAbs_cons, bool_decide_eq_true. intros ->.
  by apply blank_cons.
Qed.

Lemma TrimSpace_id s :
  Forall (λ r, IsSpace r = false) (runes s) → TrimSpace s = s.
Proof.
  unfold runes. rewrite Forall_fmap. intros Hs. unfold TrimSpace.
  rewrite (drop_space_id (rune_chunks s)) by done.
  rewrite drop_space_id by (by apply Forall_reverse).
  by rewrite reverse_involutive, rune_chunks_concat.
Qed.

(** ** Hexadecimal digests *)

Definition lower_hex (c : ascii) : bool :=
  in_range 0x30 0x39 (byte_val c) || in_range 0x61 0x66 (byte_val c).

Lemma hex_digit_lower z : 0 <= z < 16 → string_forallb lower_hex (hex_digit z) = true.
Proof.
  intros Hz. unfold hex_digit, byte1, lower_hex. cbn [string_forallb]. rewrite andb_true_r.
  destruct (Z.ltb_spec z 10).
  - rewrite byte_val_of by lia. apply orb_true_iff. left. apply in_range_true. lia.
  - rewrite byte_val_of by lia. apply orb_true_iff. right. apply in_range_true. lia.
Qed.

Lemma EncodeToString_spec s :
  string_forallb lower_hex (EncodeToString s) = true
  ∧ String.length (EncodeToString s) = (2 * String.length s)%nat.
Proof.
  induction s as [|c s [IH1 IH2]]; [done|]. cbn [EncodeToString hex_digits].
  assert (∀ z, 0 <= Z.land z 0xF < 16) as Hr.
  { intros z. rewrite (Z_land_mask z 4) by done. by apply Z.mod_pos_bound. }
  rewrite !string_forallb_app, !slength_app, IH1, IH2, !hex_digit_lower by apply Hr.
  split; [done|]. cbn. lia.
Qed.

Lemma string_bytes_length s : length (string_bytes s) = String.length s.
Proof. induction s as [|c s IH]; simpl; congruence. Qed.

Lemma lower_hex_bytes (s : string) :
  string_forallb lower_hex s = true →
  Forall (λ r, IsSpace r = false ∧ hex_class r = true) (string_bytes s).
Proof.
  induction s as [|c s IH]; [constructor|]. cbn [string_forallb string_bytes].
  rewrite andb_true_iff. intros [Hc Hs]. constructor; [|by apply IH].
  unfold lower_hex in Hc. rewrite orb_true_iff, !in_range_true in Hc.
  split.
  - unfold IsSpace. rewrite !orb_false_iff, !Z.eqb_neq, <- !not_true_iff_false, !in_range_true. lia.
  - unfold hex_class. rewrite !orb_true_iff, !in_range_true. lia.
Qed.

Lemma lower_hex_ascii c : lower_hex c = true → ascii_byte c = true.
Proof. unfold lower_hex, ascii_byte. rewrite orb_true_iff, !in_range_true, Z.ltb_lt. lia. Qed.

(** The digest of 32 bytes, in hexadecimal, is a digest Validate accepts. *)
Lemma digest_hex_ok `{UnicodeTables} b :
  String.length b = 32%nat → digest_ok (mkDigest "sha256" (EncodeToString b)) = true.
Proof.
  intros Hb. destruct (EncodeToString_spec b) as [Hx Hl]. rewrite Hb in Hl.
  set (h := EncodeToString b) in *. clearbody h.
  pose proof (lower_hex_bytes h Hx) as Hbytes.
  assert (runes h = string_bytes h) as Hr.
  { apply runes_ascii. eapply string_forallb_impl; [|done]. apply lower_hex_ascii. }
  unfold digest_ok. apply andb_true_iff. split; [by vm_compute|]. simpl.
  rewrite TrimSpace_id.
  - unfold MatchString_full. rewrite Hr. apply match_full_spec, matches_rep_set.
    rewrite string_bytes_length, Hl. split; [done|].
    apply Is_true_true, forallb_True.
    eapply Forall_impl; [exact Hbytes|]. intros r [_ Hc]. by apply Is_true_true.
  - rewrite Hr. eapply Forall_impl; [exact Hbytes|]. by intros r [-> _].
Qed.

(** ** Containment of cleaned paths *)

Lemma clean_step_rooted kept c :
  ".." ∉ kept → ".." ∉ clean_step true kept c.
Proof.
  intros Hk. unfold clean_step. repeat case_decide; subst; try done.
  - destruct kept as [|top rest]; [done|]. case_decide; subst; set_solver.
  - set_solver.
Qed.

(** The elements of a cleaned absolute path are plain names. *)
Lemma abs_elems_plain s : IsAbs s = true → Forall plain (path_elems s).
Proof.
  intros Habs. destruct (path_elems_stable s) as [_ Hok].
  assert (".." ∉ path_elems s) as Hdots.
  { unfold path_elems. rewrite Habs, elem_of_reverse. generalize (Split s slash).
    assert (".." ∉ @nil string) as Hnil by set_solver. revert Hnil. generalize (@nil string).
    intros kept Hk l. revert kept Hk. induction l as [|c l IH]; intros kept Hk; simpl; [done|].
    apply IH. by apply clean_step_rooted. }
  apply Forall_forall. intros e He. pose proof He as Hin.
  rewrite Forall_forall in Hok. apply Hok in Hin as (H1 & H2 & H3).
  repeat split; try done. by intros ->.
Qed.

(** A path as cleaning leaves it, starting at the root of the file system. *)
Definition canonical (p : string) : Prop := IsAbs p = true ∧ Clean p = p.

Lemma Clean_canonical p : IsAbs p = true → canonical (Clean p).
Proof.
  intros Hp. assert (p ≠ "") as Hne by by intros ->. split; [by rewrite Clean_abs|].
  pose proof (Clean_nonempty p) as Hc.
  unfold Clean at 1 3. rewrite (decide_False _ _ Hc), (decide_False _ _ Hne).
  by rewrite Clean_abs, Hp, path_elems_Clean.
Qed.

Lemma canonical_elems p : canonical p → p = "/" +:+ Join (path_elems p) "/".
Proof.
  intros [Habs Hc]. rewrite <- Hc at 1. unfold Clean.
  rewrite decide_False by (by intros ->). by rewrite Habs.
Qed.

Lemma canonical_split p :
  canonical p → path_elems p ≠ [] → Split p slash = "" :: path_elems p.
Proof.
  intros Hp Hne. rewrite (canonical_elems p Hp) at 1.
  change ("/" +:+ ?x) with ("" +:+ String slash x). rewrite Split_app. simpl. f_equal.
  apply Split_Join_elems; [done|]. apply path_elems_stable.
Qed.

(** [p] is [root] itself or lies below it: no element leads back up. *)
Definition below (root p : string) : Prop :=
  canonical p ∧ ∃ rest, path_elems p = path_elems root ++ rest ∧ Forall plain rest.

Lemma string_rev_app_spec s acc : string_rev_app s acc = string_rev s +:+ acc.
Proof.
  unfold string_rev. revert acc. induction s as [|c s IH]; intros acc; simpl; [done|].
  rewrite (IH (String c acc)), (IH (String c "")). by rewrite sapp_assoc.
Qed.

Lemma string_rev_cons c s : string_rev (String c s) = string_rev s +:+ String c "".
Proof. unfold string_rev. simpl. by rewrite string_rev_app_spec. Qed.

Lemma string_rev_sapp a b : string_rev (a +:+ b) = string_rev b +:+ string_rev a.
Proof.
  induction a as [|c a IH]; simpl; [by rewrite sapp_nil_r|].
  by rewrite !string_rev_cons, IH, sapp_assoc.
Qed.

Lemma string_rev_rev s : string_rev (string_rev s) = s.
Proof.
  induction s as [|c s IH]; [done|]. by rewrite string_rev_cons, string_rev_sapp, IH.
Qed.

Lemma HasSuffix_spec s p : HasSuffix s p = true ↔ ∃ t, s = t +:+ p.
Proof.
  unfold HasSuffix. rewrite prefix_spec. split; intros [t E].
  - exists (string_rev t). rewrite <- (string_rev_rev s), E, string_rev_sapp.
    by rewrite string_rev_rev.
  - exists (string_rev t). by rewrite E, string_rev_sapp.
Qed.

Lemma canonical_no_suffix p : canonical p → path_elems p ≠ [] → HasSuffix p "/" = false.
Proof.
  intros Hp Hne. apply not_true_iff_false. rewrite HasSuffix_spec. intros [t E].
  pose proof (canonical_split p Hp Hne) as Hs. rewrite E in Hs at 1.
  change (t +:+ "/") with (t +:+ String slash "") in Hs. rewrite Split_app in Hs.
  pose proof (abs_elems_plain p (proj1 Hp)) as Hall. rewrite Forall_forall in Hall.
  assert ("" ∈ path_elems p) as Hin.
  { pose proof (Split_nonempty t slash) as Hne'. destruct (Split t slash) as [|f fs]; [done|].
    injection Hs as _ <-. apply elem_of_app. right. set_solver. }
  apply Hall in Hin as (_ & ? & _). done.
Qed.

(** The prefix test of the loader is containment. *)
Lemma pathWithinRoot_below root p :
  canonical root → canonical p → pathWithinRoot root p = true → below root p.
Proof.
  intros Hr Hp. unfold pathWithinRoot. rewrite orb_true_iff, bool_decide_eq_true.
  assert (∀ rest, path_elems p = path_elems root ++ rest → below root p) as Hdone.
  { intros rest E. split; [done|]. exists rest. split; [done|].
    pose proof (abs_elems_plain p (proj1 Hp)) as Hall. rewrite E in Hall.
    by apply Forall_app in Hall as [_ ?]. }
  intros [->|Hpre]; [apply (Hdone []); by rewrite app_nil_r|].
  destruct (decide (path_elems root = [])) as [E|Hne]; [apply (Hdone (path_elems p)); by rewrite E|].
  rewrite canonical_no_suffix in Hpre by done. cbn [negb] in Hpre.
  apply prefix_spec in Hpre as [t E]. rewrite sapp_assoc in E.
  change ("/" +:+ t) with (String slash t) in E.
  assert (Split p slash = ("" :: path_elems root) ++ Split t slash) as Hs.
  { rewrite E, Split_app. by rewrite canonical_split. }
  destruct (decide (path_elems p = [])) as [Hnil|Hpne].
  - rewrite (canonical_elems p Hp), Hnil in Hs. simpl in Hs.
    destruct (path_elems root) as [|e l] eqn:Er; [done|]. simpl in Hs. injection Hs as He _.
    pose proof (abs_elems_plain root (proj1 Hr)) as Hall. rewrite Er in Hall.
    inversion Hall as [|? ? (_ & He' & _)]; subst. done.
  - apply (Hdone (Split t slash)). rewrite canonical_split in Hs by done.
    by injection Hs.
Qed.

(** ** The environment

    Symbolic links are resolved by a fixed function; every other answer of the
    operating system (the working directory, whether a directory is there,
    opening and reading) may be anything and change between calls. *)

Inductive load_event : Type :=
| Opened (path : string)
| Delivered (contents : string).

Definition trace : Type := list load_event.

Section Load_facts.
Context `{UnicodeTables}.
Variable sha256 : string → string.
Variable unmarshal_object : string → result (gmap string string).
Variable unmarshal_string : string → string → result string.
Variable unmarshal_int64 : string → Z → result Z.
Variable links : string → result string.

Definition load_step (X : Type) (e : loadE X) : trace → X → trace → Prop :=
  match e with
  | LGetwd => λ t x t', t' = t ∧ ∀ wd, x = Ok wd → IsAbs wd = true
  | LEvalSymlinks p => λ t x t', t' = t ∧ x = links p
  | LStat _ => λ t _ t', t' = t
  | LOpen p => λ t x t', t' = if result_is_ok x then t ++ [Opened p] else t
  | LReadAll _ => λ t x t', t' = match x with Ok b => t ++ [Delivered b] | Err _ => t end
  | LClose _ => λ t _ t', t' = t
  end.

(** filepath.EvalSymlinks of an absolute path answers a cleaned absolute path. *)
Hypothesis links_canonical : ∀ p r, IsAbs p = true → links p = Ok r → canonical r.

Notation loads p Q t := (wp load_step p Q t).

(** Neither the path nor what it resolves to leaves the bundle. *)
Definition confined (root p : string) : Prop :=
  below root p ∧ ∀ r, links p = Ok r → below root r.

(** The path a declared path stands for. *)
Definition bundle_path (root p : string) : string :=
  Clean (if IsAbs p then p else PathJoin [root; p]).

Definition digest_of (b : string) : ProviderBundleDigest :=
  mkDigest "sha256" (EncodeToString (sha256 b)).

Lemma PathJoin_abs root p : IsAbs root = true → IsAbs (PathJoin [root; p]) = true.
Proof.
  intros Hr. assert (root ≠ "") as Hne by (by intros ->). cbn [PathJoin].
  rewrite decide_False by done. change (Join [root; p] "/") with (root +:+ "/" +:+ p).
  rewrite Clean_abs; [by rewrite IsAbs_app|]. by destruct root.
Qed.

Lemma filepath_Abs_spec p t :
  loads (filepath_Abs p) (λ r t', t' = t ∧ ∀ a, r = Ok a → IsAbs a = true ∧ (IsAbs p = true → a = Clean p)) t.
Proof.
  unfold filepath_Abs. destruct (IsAbs p) eqn:Hp.
  - split; [done|]. intros a [= <-]. split; [|done]. by apply Clean_canonical.
  - intros wd t' [-> Hwd]. destruct wd as [wd|e]; simpl; split; try done.
    intros a [= <-]. split; [|done]. by apply PathJoin_abs, Hwd.
Qed.

Lemma prepareBundleRoot_spec root t :
  loads (prepareBundleRoot root) (λ r t', t' = t ∧ ∀ a, r = Ok a → canonical a) t.
Proof.
  unfold prepareBundleRoot. destruct (blank root); [done|].
  apply wp_bind. eapply wp_mono; [apply filepath_Abs_spec|].
  intros [abs|e] t' [-> Habs]; [|done]. intros resolved t' [-> E].
  destruct resolved as [resolved|e]; [|done]. intros info t' ->.
  destruct info as [[]|e]; simpl; split; try done.
  intros a [= <-]. eapply links_canonical; [|done]. by apply Habs.
Qed.

Lemma resolveBundlePath_spec root p t :
  canonical root →
  loads (resolveBundlePath root p)
    (λ r t', t' = t ∧ ∀ a, r = Ok a → a = bundle_path root p ∧ confined root a) t.
Proof.
  intros Hr. unfold resolveBundlePath. destruct (blank p); [done|].
  set (candidate := if negb (IsAbs p) then PathJoin [root; p] else p).
  assert (IsAbs candidate = true ∧ Clean candidate = bundle_path root p) as [Hc Hb].
  { subst candidate. unfold bundle_path. destruct (IsAbs p) eqn:Hp; simpl; [done|].
    split; [by apply PathJoin_abs, Hr|done]. }
  apply wp_bind. eapply wp_mono; [apply filepath_Abs_spec|].
  intros [abs|e] t' [-> Habs]; [|done].
  destruct (Habs abs eq_refl) as [_ Ea]. specialize (Ea Hc). subst abs.
  pose proof (Clean_canonical _ Hc) as Hcan.
  destruct (pathWithinRoot root (Clean candidate)) eqn:Hw; cbn [negb]; [|done].
  apply pathWithinRoot_below in Hw; [|done..].
  intros resolved t' [-> E]. destruct resolved as [resolved|e]; [|].
  - simpl. destruct (pathWithinRoot root resolved) eqn:Hw'; simpl; [|done].
    split; [done|]. intros a [= <-]. split; [done|]. split; [done|].
    intros r Er. rewrite Er in E. injection E as ->.
    apply pathWithinRoot_below; [done| |done]. eapply links_canonical; [|done]. apply Hcan.
  - split; [done|]. intros a [= <-]. split; [done|]. split; [done|]. by rewrite <- E.
Qed.

Lemma resolveManifestPath_spec root mp mf t :
  canonical root →
  loads (resolveManifestPath root mp mf) (λ r t', t' = t ∧ ∀ a, r = Ok a → confined root a) t.
Proof.
  intros Hr. unfold resolveManifestPath.
  destruct (negb (blank mp)); (eapply wp_mono; [by apply resolveBundlePath_spec|]);
    intros r t' [-> Ha]; (split; [done|]); intros a Ea; apply (Ha a Ea).
Qed.

Lemma digestFile_spec p t :
  loads (digestFile sha256 p)
    (λ r t', match r with
             | Ok (d, b) => d = digest_of b ∧ t' = t ++ [Opened p; Delivered b]
             | Err _ => t' = t ∨ t' = t ++ [Opened p]
             end) t.
Proof.
  unfold digestFile. intros f t1 ->. destruct f as [f|e]; simpl; [|by left].
  intros b t2 -> u t3 ->. destruct b as [b|e]; simpl; [|by right].
  split; [done|]. by rewrite <- app_assoc.
Qed.

(** ** What a load leaves *)

(** Opening and reading these files, in this order. *)
Definition reads (files : list (string * string)) : trace :=
  concat ((λ f, [Opened f.1; Delivered f.2]) <$> files).

Definition opened_confined (root : string) (t : trace) : Prop :=
  ∀ p, Opened p ∈ t → confined root p.

(** The fields every load copies from its options. *)
Definition identified (opts : ProviderBundleLoadOptions) (md : ProviderBundleMetadata) : Prop :=
  md_PluginID md = lo_PluginID opts ∧ md_PluginGeneration md = lo_PluginGeneration opts
  ∧ md_ObservedAt md = lo_ObservedAt opts
  ∧ md_SubstrateEventCorrelation md = lo_SubstrateEventCorrelation opts.

(** A failed load: its status and message are safe to show, and some digest or
    the schema version is missing. *)
Record load_failed (md : ProviderBundleMetadata) : Prop := {
  lf_status : md_ValidationStatus md ∈ [ProviderBundleStatusDeclaredUnavailable;
    ProviderBundleStatusDeclaredInvalid];
  lf_code : md_RedactedErrorCode md ≠ "" ∧ containsSecretLike (md_RedactedErrorCode md) = false
    ∧ containsSecretLike (md_RedactedErrorMessage md) = false;
  lf_incomplete : digest_ok (md_ManifestDigest md) = false ∨ blank (md_SchemaVersion md) = true
    ∨ Exists (λ a, digest_ok (a_Digest a) = false) (md_LuaAssets md);
}.

(** A complete load: [files] are the asset files and their contents. *)
Record load_complete (opts : ProviderBundleLoadOptions) (md : ProviderBundleMetadata) (t : trace)
    (manifest : string) (files : list (string * string)) : Prop := {
  lc_status : md_ValidationStatus md = ProviderBundleStatusDeclaredValid;
  lc_code : md_RedactedErrorCode md = "" ∧ md_RedactedErrorMessage md = "";
  lc_root : canonical (md_BundleRootPath md);
  lc_manifest : confined (md_BundleRootPath md) (md_ManifestPath md)
    ∧ md_ManifestDigest md = digest_of manifest;
  lc_schema : blank (md_SchemaVersion md) = false;
  lc_paths : files.*1 = bundle_path (md_BundleRootPath md) <$> lo_ExpectedLuaAssetPaths opts;
  lc_assets : md_LuaAssets md = (λ f, mkAsset f.1 (digest_of f.2)) <$> files;
  lc_reads : t = reads ((md_ManifestPath md, manifest) :: files);
}.

Lemma fail_failed md status code message :
  status ∈ [ProviderBundleStatusDeclaredUnavailable; ProviderBundleStatusDeclaredInvalid] →
  code ≠ "" →
  digest_ok (md_ManifestDigest md) = false ∨ blank (md_SchemaVersion md) = true
    ∨ Exists (λ a, digest_ok (a_Digest a) = false) (md_LuaAssets md) →
  load_failed (failMetadata md status code message).
Proof.
  intros Hs Hc Hm. constructor; simpl; [done| |done].
  split_and!; try apply RedactSecretLike_safe.
  unfold RedactSecretLike. by destruct (containsSecretLike code).
Qed.

Lemma reads_snoc files f : reads (files ++ [f]) = reads files ++ [Opened f.1; Delivered f.2].
Proof. unfold reads. rewrite fmap_app, concat_app. simpl. by rewrite ?app_nil_r. Qed.

Lemma reads_elem p b files : (p, b) ∈ files → Opened p ∈ reads files.
Proof.
  induction files as [|f files IH]; intros Hin; [set_solver|].
  change (reads (f :: files)) with ([Opened f.1; Delivered f.2] ++ reads files).
  apply elem_of_app. apply elem_of_cons in Hin as [<-|Hin]; [left; by left|right; auto].
Qed.

Lemma reads_confined root files :
  Forall (confined root) files.*1 → opened_confined root (reads files).
Proof.
  induction files as [|[q b] files IH]; intros Hf p Hp; [set_solver|].
  inversion Hf as [|? ? Hq Hfs]; subst.
  change (reads ((q, b) :: files)) with ([Opened q; Delivered b] ++ reads files) in Hp.
  apply elem_of_app in Hp as [Hp|Hp]; [|by apply IH].
  assert (p = q) as -> by set_solver. done.
Qed.

Lemma opened_snoc root t p b :
  opened_confined root t → confined root p →
  opened_confined root (t ++ [Opened p]) ∧ opened_confined root (t ++ [Opened p; Delivered b]).
Proof.
  intros Ht Hp. split; intros q Hq.
  - apply elem_of_app in Hq as [Hq|Hq]; [by apply Ht|].
    assert (q = p) as -> by set_solver. done.
  - apply elem_of_app in Hq as [Hq|Hq]; [by apply Ht|].
    assert (q = p) as -> by set_solver. done.
Qed.

(** The loop over the assets, [files] being those already read. *)
Lemma load_assets_spec opts md manifest declared files t :
  md_RedactedErrorCode md = "" → md_RedactedErrorMessage md = "" →
  canonical (md_BundleRootPath md) →
  confined (md_BundleRootPath md) (md_ManifestPath md) →
  md_ManifestDigest md = digest_of manifest → blank (md_SchemaVersion md) = false →
  identified opts md →
  Forall (confined (md_BundleRootPath md)) files.*1 →
  files.*1 ++ (bundle_path (md_BundleRootPath md) <$> declared)
    = bundle_path (md_BundleRootPath md) <$> lo_ExpectedLuaAssetPaths opts →
  t = reads ((md_ManifestPath md, manifest) :: files) →
  loads (load_assets sha256 md (md_BundleRootPath md)
           ((λ f, mkAsset f.1 (digest_of f.2)) <$> files) declared)
    (λ md' t', identified opts md' ∧ opened_confined (md_BundleRootPath md') t'
       ∧ (load_failed md' ∨ ∃ files', load_complete opts md' t' manifest files')) t.
Proof.
  intros Hc1 Hc2 Hroot Hman Hdig Hsch Hid. revert files t.
  induction declared as [|d declared IH]; intros files t Hf Hpaths ->; cbn [load_assets].
  all: assert (opened_confined (md_BundleRootPath md)
    (reads ((md_ManifestPath md, manifest) :: files))) as Hconf
    by (apply reads_confined; by constructor).
  { split_and!; try done. right. exists files. rewrite app_nil_r in Hpaths. by constructor. }
  apply wp_bind. eapply wp_mono; [by apply resolveBundlePath_spec|].
  intros [a|e] t' [-> Ha].
  2:{ simpl. split_and!; try done. left. apply fail_failed; [set_solver|done|].
      do 2 right. simpl. apply Exists_app. right. by constructor. }
  destruct (Ha a eq_refl) as [-> Hca]. apply wp_bind.
  eapply wp_mono; [apply digestFile_spec|]. intros [[dg b]|e] t'; simpl.
  - intros [-> ->].
    set (p := bundle_path (md_BundleRootPath md) d) in *.
    assert (((λ f, mkAsset f.1 (digest_of f.2)) <$> files) ++ [mkAsset p (digest_of b)]
      = (λ f, mkAsset f.1 (digest_of f.2)) <$> (files ++ [(p, b)])) as ->
      by by rewrite fmap_app.
    apply IH.
    + rewrite fmap_app. apply Forall_app. split; [done|]. by constructor.
    + rewrite fmap_app, <- app_assoc. simpl. by rewrite <- Hpaths.
    + by rewrite (app_comm_cons files), (reads_snoc (_ :: files)).
  - intros Ht. split_and!; [done| |].
    + destruct (opened_snoc _ _ _ "" Hconf Hca). by destruct Ht as [-> | ->].
    + left. apply fail_failed; [set_solver|by destruct (os_IsNotExist e)|].
      do 2 right. simpl. apply Exists_app. right. by constructor.
Qed.

Notation load := (LoadProviderBundleMetadata sha256 unmarshal_object unmarshal_string unmarshal_int64).

Definition load_outcome (opts : ProviderBundleLoadOptions) (md : ProviderBundleMetadata) (t : trace)
  : Prop :=
  identified opts md ∧ opened_confined (md_BundleRootPath md) t
  ∧ (load_failed md
     ∨ validateLoadIdentity opts = None ∧ ∃ manifest files, load_complete opts md t manifest files).

Lemma parseManifestIdentity_schema b identity :
  parseManifestIdentity unmarshal_object unmarshal_string unmarshal_int64 b = Ok identity →
  blank (id_SchemaVersion identity) = false.
Proof.
  unfold parseManifestIdentity, mbind, result_bind.
  destruct (unmarshal_object b) as [raw|e]; [|done].
  destruct (firstString unmarshal_string raw "" _) as [s|e]; [|done].
  destruct (blank s) eqn:Hs; [done|].
  destruct (firstString unmarshal_string _ _ _) as [s'|e]; [|done].
  destruct (firstInt64 unmarshal_int64 _ _ _) as [g|e]; [|done]. by intros [= <-].
Qed.

Lemma load_outcome_fail opts md status code message t :
  identified opts md →
  status ∈ [ProviderBundleStatusDeclaredUnavailable; ProviderBundleStatusDeclaredInvalid] →
  code ≠ "" → digest_ok (md_ManifestDigest md) = false ∨ blank (md_SchemaVersion md) = true →
  opened_confined (md_BundleRootPath md) t →
  load_outcome opts (failMetadata md status code message) t.
Proof.
  intros Hid Hs Hc Hm Ht. split_and!; [done..|]. left. apply fail_failed; [done..|]. tauto.
Qed.

Lemma opened_nil root : opened_confined root [].
Proof. intros p Hp. set_solver. Qed.

Lemma digest0_not_ok : digest_ok digest0 = false.
Proof. by vm_compute. Qed.
Lemma blank_empty : blank "" = true.
Proof. done. Qed.
Lemma failed_statuses :
  Forall (λ s, s ∈ [ProviderBundleStatusDeclaredUnavailable; ProviderBundleStatusDeclaredInvalid])
    [ProviderBundleStatusDeclaredUnavailable; ProviderBundleStatusDeclaredInvalid].
Proof. by repeat constructor. Qed.

(** A failing branch of the loader. *)
Ltac load_fails :=
  apply load_outcome_fail;
  [ repeat split; reflexivity | by repeat constructor | first [discriminate | by case_match]
  | first [left; apply digest0_not_ok | right; apply blank_empty]
  | first [apply opened_nil | assumption | idtac] ].

Lemma load_identified_spec opts md root b t :
  md_RedactedErrorCode md = "" → md_RedactedErrorMessage md = "" → md_SchemaVersion md = "" →
  md_BundleRootPath md = root → canonical root → confined root (md_ManifestPath md) →
  md_ManifestDigest md = digest_of b → identified opts md → validateLoadIdentity opts = None →
  t = reads [(md_ManifestPath md, b)] →
  loads (load_identified sha256 unmarshal_object unmarshal_string unmarshal_int64 opts md root b)
    (load_outcome opts) t.
Proof.
  intros Hc1 Hc2 Hsch <- Hroot Hman Hdig Hid Hval ->.
  assert (opened_confined (md_BundleRootPath md) (reads [(md_ManifestPath md, b)])) as Hconf.
  { apply reads_confined. constructor; [done|]. by apply Forall_nil. }
  assert (∀ code message, code ≠ "" → load_outcome opts
    (failMetadata md ProviderBundleStatusDeclaredInvalid code message)
    (reads [(md_ManifestPath md, b)])) as Hfail.
  { intros code message Hcode. apply load_outcome_fail; try done; [by repeat constructor|].
    right. by rewrite Hsch. }
  unfold load_identified.
  destruct (parseManifestIdentity _ _ _ b) as [identity|e] eqn:Hp; [|by apply Hfail].
  apply parseManifestIdentity_schema in Hp.
  destruct (_ && _); [by apply Hfail|].
  match goal with |- wp _ (if ?c then _ else _) _ _ => destruct c end; [by apply Hfail|].
  eapply wp_mono.
  - by eapply (load_assets_spec opts {| md with md_SchemaVersion := id_SchemaVersion identity |} b _ []).
  - intros md' t' (H1 & H2 & [H3|(files & H3)]); split_and!; try done; [by left|].
    right. split; [done|]. by exists b, files.
Qed.

Lemma load_spec opts : loads (load opts) (load_outcome opts) [].
Proof.
  unfold LoadProviderBundleMetadata.
  destruct (validateLoadIdentity opts) eqn:Hval; [load_fails|].
  destruct (_ && _); [load_fails|].
  apply wp_bind. eapply wp_mono; [apply prepareBundleRoot_spec|].
  intros [root|e] t [-> Hroot]; [|load_fails].
  specialize (Hroot root eq_refl). unfold load_rooted. apply wp_bind.
  eapply wp_mono; [by apply resolveManifestPath_spec|].
  intros [mp|e] t [-> Hmp]; [|load_fails].
  specialize (Hmp mp eq_refl). apply wp_bind.
  eapply wp_mono; [apply digestFile_spec|]. intros [[dg b]|e] t; simpl.
  - intros [-> ->]. by apply load_identified_spec.
  - intros Ht. load_fails.
    destruct (opened_snoc root [] mp "" (opened_nil _) Hmp). destruct Ht as [-> | ->]; [apply opened_nil|done].
Qed.

Lemma digest_ok_missing md :
  load_failed md → ¬ metadata_valid md.
Proof.
  intros [_ _ [Hd|[Hs|Ha]]] Hm; destruct Hm; [congruence|congruence|].
  apply Exists_exists in Ha as (a & Hin & Ha). rewrite Forall_forall in mv_assets.
  destruct (mv_assets a Hin). congruence.
Qed.

Lemma confined_not_blank root p : confined root p → blank p = false.
Proof. intros [[[Habs _] _] _]. by apply blank_abs. Qed.

Hypothesis sha256_size : ∀ b, String.length (sha256 b) = 32%nat.

Lemma load_complete_valid opts md t manifest files :
  identified opts md → validateLoadIdentity opts = None → opened_confined (md_BundleRootPath md) t →
  load_complete opts md t manifest files → metadata_valid md.
Proof.
  intros (E1 & E2 & E3 & E4) Hval Hconf [Hs [Hc1 Hc2] Hroot [Hman Hd] Hsch _ Ha ->].
  unfold validateLoadIdentity in Hval.
  rewrite !first_error_None, !fail_if_None, ValidatePluginID_valid, Z.leb_gt in Hval.
  destruct Hval as (V1 & V2 & V3 & V4). constructor.
  - by rewrite E1.
  - by rewrite E2.
  - apply blank_abs, Hroot.
  - by eapply confined_not_blank.
  - rewrite Hd. by apply digest_hex_ok.
  - rewrite Hs. by left.
  - done.
  - rewrite E3. by apply Z.eqb_neq.
  - by rewrite E4.
  - rewrite Hc1, Hc2. by vm_compute.
  - rewrite Ha. apply Forall_fmap, Forall_forall. intros [p b] Hin. simpl.
    split; [|by apply digest_hex_ok]. eapply confined_not_blank, Hconf.
    apply reads_elem with b. by right.
Qed.

(** C34. Loading agrees with validation, in any environment: the metadata the
    loader answers passes Validate, with the plugin's generation as expected
    generation, exactly if its status is declared_valid; it carries the identity of the
    options, one of the three statuses, and an error code exactly if it
    failed; code and message never match the secret detector. *)
Theorem Load_verdict opts :
  loads (load opts)
    (λ md _,
       identified opts md
       ∧ (Metadata_Validate md [lo_PluginGeneration opts] = None
          ↔ md_ValidationStatus md = ProviderBundleStatusDeclaredValid)
       ∧ md_ValidationStatus md ∈ [ProviderBundleStatusDeclaredValid;
           ProviderBundleStatusDeclaredUnavailable; ProviderBundleStatusDeclaredInvalid]
       ∧ (md_RedactedErrorCode md = ""
          ↔ md_ValidationStatus md = ProviderBundleStatusDeclaredValid)
       ∧ containsSecretLike (md_RedactedErrorCode md) = false
       ∧ containsSecretLike (md_RedactedErrorMessage md) = false) [].
Proof.
  eapply wp_mono; [apply load_spec|].
  intros md t (Hid & Hconf & [Hf|(Hval & manifest & files & Hc)]).
  - pose proof Hf as [Hs (Hcode & Hs1 & Hs2) _].
    assert (md_ValidationStatus md ≠ ProviderBundleStatusDeclaredValid) as Hne.
    { rewrite !elem_of_cons, elem_of_nil in Hs. by destruct Hs as [-> |[-> |]]. }
    rewrite Metadata_Validate_expected, Metadata_Validate_fields.
    apply digest_ok_missing in Hf. split_and!; try done; try tauto. by right.
  - pose proof (load_complete_valid _ _ _ _ _ Hid Hval Hconf Hc) as Hm.
    destruct Hc as [Hs [Hc1 Hc2] _ _ _ _ _ _]. destruct Hid as (E1 & E2 & E3 & E4).
    rewrite Metadata_Validate_expected, Metadata_Validate_fields, <- E2, Hs, Hc1, Hc2.
    split_and!; try done; [tauto|by left].
Qed.

(** C35. The loader stays inside the bundle: whatever the options and the
    manifest say, every file it opens is the prepared bundle root or lies below it without
    any element leading back up, and so does the file its path resolves to
    when symbolic links are followed. *)
Theorem Load_confined opts :
  loads (load opts)
    (λ md t, ∀ p, Opened p ∈ t →
       below (md_BundleRootPath md) p
       ∧ ∀ r, links p = Ok r → below (md_BundleRootPath md) r) [].
Proof.
  eapply wp_mono; [apply load_spec|]. intros md t (_ & Hconf & _). apply Hconf.
Qed.

(** C36. What declared_valid metadata says is what was on disk: the manifest
    and then every declared asset was opened and read to its end, in the
    order of the declaration and nothing else; each digest is
    the SHA-256 of the bytes delivered, in hexadecimal, under the path the declared one stands
    for. *)
Theorem Load_reads opts :
  loads (load opts)
    (λ md t, md_ValidationStatus md = ProviderBundleStatusDeclaredValid →
       ∃ manifest files,
         t = reads ((md_ManifestPath md, manifest) :: files)
         ∧ files.*1 = bundle_path (md_BundleRootPath md) <$> lo_ExpectedLuaAssetPaths opts
         ∧ md_ManifestDigest md = mkDigest "sha256" (EncodeToString (sha256 manifest))
         ∧ md_LuaAssets md
             = (λ f, mkAsset f.1 (mkDigest "sha256" (EncodeToString (sha256 f.2)))) <$> files) [].
Proof.
  eapply wp_mono; [apply load_spec|].
  intros md t (_ & _ & [[Hs _ _]|(_ & manifest & files & [])]) Hv.
  - rewrite !elem_of_cons, elem_of_nil, Hv in Hs. by destruct Hs as [|[|]].
  - destruct lc_manifest0. by exists manifest, files.
Qed.
End Load_facts.

(** ** A bundle on disk *)

Section Demo.
#[local] Existing Instance ascii_tables.

Definition demo_links (p : string) : result string :=
  if IsAbs p then Ok (Clean p) else Err (errors_New "relative path").

(** The content of the demo files; a stand-in digest of the right length. *)
Fixpoint fit (n : nat) (b : string) : string :=
  match n, b with
  | O, _ => ""
  | S n', "" => String "." (fit n' "")
  | S n', String c b' => String c (fit n' b')
  end.
Definition demo_sha256 (b : string) : string := fit 32 b.
Definition demo_object (b : string) : result (gmap string string) :=
  if decide (b = "M1") then Ok {[ "schema_version" := "v1"; "plugin" := "echo" ]}
  else Err (errors_New "invalid character").
Definition demo_string (value dst : string) : result string := Ok value.
Definition demo_int64 (value : string) (dst : Z) : result Z := Ok dst.

(** The last opened file is the one being read. *)
Definition demo_handler (X : Type) (e : loadE X) : trace → trace * X :=
  match e with
  | LGetwd => λ t, (t, Ok "/work")
  | LEvalSymlinks p => λ t, (t, demo_links p)
  | LStat _ => λ t, (t, Ok true)
  | LOpen p => λ t, (t ++ [Opened p], Ok (length t))
  | LReadAll _ => λ t,
      let b := match last t with Some (Opened p) => if HasSuffix p ".json" then "M1" else p | _ => "" end in
      (t ++ [Delivered b], Ok b)
  | LClose _ => λ t, (t, tt)
  end.

Definition demo_options : ProviderBundleLoadOptions :=
  mkLoadOptions "echo" 7 7 "bundles/../bundles/echo" "" " " ["lua/init.lua"; "/work/bundles/echo/b.lua"]
    1000 "corr-1".

Lemma demo_links_canonical p r : IsAbs p = true → demo_links p = Ok r → canonical r.
Proof. unfold demo_links. intros Hp. rewrite Hp. intros [= <-]. by apply Clean_canonical. Qed.

Lemma demo_handler_ok X (e : loadE X) t :
  load_step demo_links X e t (demo_handler X e t).2 (demo_handler X e t).1.
Proof. destruct e; simpl; try done. split; [done|]. by intros wd [= <-]. Qed.

Definition demo_run : trace * ProviderBundleMetadata :=
  run demo_handler
    (LoadProviderBundleMetadata demo_sha256 demo_object demo_string demo_int64 demo_options) [].

Lemma demo_sha256_size b : String.length (demo_sha256 b) = 32%nat.
Proof.
  unfold demo_sha256. generalize 32%nat. intros n. revert b.
  induction n as [|n IH]; intros [|c b]; simpl; auto.
Qed.

Lemma Load_verdict_witness :
  md_ValidationStatus demo_run.2 = ProviderBundleStatusDeclaredValid
  ∧ Metadata_Validate demo_run.2 [7] = None.
Proof.
  assert (md_ValidationStatus demo_run.2 = ProviderBundleStatusDeclaredValid) as Hs by by vm_compute.
  split; [done|].
  destruct (wp_run _ _ demo_handler_ok _ _ _
    (Load_verdict demo_sha256 demo_object demo_string demo_int64 demo_links
       demo_links_canonical demo_sha256_size demo_options)) as (_ & Hv & _).
  by apply Hv.
Defined.

Lemma Load_confined_witness :
  Opened "/work/bundles/echo/lua/init.lua" ∈ demo_run.1
  ∧ below "/work/bundles/echo" "/work/bundles/echo/lua/init.lua".
Proof.
  assert (Opened "/work/bundles/echo/lua/init.lua" ∈ demo_run.1) as Ho
    by (vm_compute; do 2 right; left).
  split; [done|].
  apply (wp_run _ _ demo_handler_ok _ _ _
    (Load_confined demo_sha256 demo_object demo_string demo_int64 demo_links
       demo_links_canonical demo_options)) in Ho as [Hb _].
  exact Hb.
Defined.

Lemma Load_reads_witness :
  ∃ manifest files, demo_run.1 = reads ((md_ManifestPath demo_run.2, manifest) :: files).
Proof.
  destruct (wp_run _ _ demo_handler_ok _ _ _
    (Load_reads demo_sha256 demo_object demo_string demo_int64 demo_links
       demo_links_canonical demo_options)) as (manifest & files & Ht & _); [by vm_compute|].
  by exists manifest, files.
Defined.
End Demo.
