(* ===== verification/EventLog.v ===== *)
(** * The JSONL event log (src/internal/eventlog/eventlog.go)

    The event record, and the logger that appends to one file and rotates it
    into numbered backups.  The file operations are calls ([logE]) that may
    fail; [log_step] says what each may do to the file system.  The encoder is
    the source's replaceable [jsonMarshal], a parameter. *)

From S2P Require Import Prelude Prog GoText GoPath Bundle.

(** ** Vocabulary *)
Definition LevelDebug : string := "debug".
Definition LevelInfo : string := "info".
Definition LevelWarn : string := "warn".
Definition LevelError : string := "error".

Definition ComponentKernel : string := "kernel".
Definition ComponentRPC : string := "rpc".
Definition ComponentAuth : string := "auth".
Definition ComponentRuntime : string := "runtime".

Definition DefaultMaxBytes : Z := Z.shiftl 8 20.
Definition DefaultMaxBackups : Z := 5.

Definition EventManagerInitialized : string := "manager_initialized".
Definition EventPluginStartRequested : string := "plugin_start_requested".
Definition EventPluginStartFailed : string := "plugin_start_failed".
Definition EventPluginStarted : string := "plugin_started".
Definition EventPluginDialStarted : string := "plugin_dial_started".
Definition EventPluginDialSucceeded : string := "plugin_dial_succeeded".
Definition EventPluginDialFailed : string := "plugin_dial_failed".
Definition EventAuthStarted : string := "plugin_auth_started".
Definition EventAuthSucceeded : string := "plugin_auth_succeeded".
Definition EventAuthFailed : string := "plugin_auth_failed".
Definition EventPeerCredVerified : string := "plugin_peercred_verified".
Definition EventCapabilitiesStarted : string := "plugin_capabilities_started".
Definition EventCapabilitiesFailed : string := "plugin_capabilities_failed".
Definition EventCapabilitiesLoaded : string := "plugin_capabilities_loaded".
Definition EventHeartbeatHealthy : string := "heartbeat_healthy".
Definition EventHeartbeatUnhealthy : string := "heartbeat_unhealthy".
Definition EventHeartbeatFailed : string := "heartbeat_failed".
Definition EventRPCStarted : string := "rpc_call_started".
Definition EventRPCSucceeded : string := "rpc_call_succeeded".
Definition EventRPCFailed : string := "rpc_call_failed".
Definition EventRPCTimeout : string := "rpc_call_timeout".
Definition EventRPCPoisoned : string := "rpc_client_poisoned".
Definition EventRestartRequested : string := "plugin_restart_requested".
Definition EventRestartSucceeded : string := "plugin_restart_succeeded".
Definition EventRestartFailed : string := "plugin_restart_failed".
Definition EventShutdownRequested : string := "plugin_shutdown_requested".
Definition EventShutdownSucceeded : string := "plugin_shutdown_succeeded".
Definition EventShutdownFailed : string := "plugin_shutdown_failed".
Definition EventKillRequested : string := "plugin_kill_requested".
Definition EventPluginKilled : string := "plugin_killed".
Definition EventPluginStopped : string := "plugin_stopped".
Definition EventRuntimeCleanup : string := "runtime_cleanup_completed".
Definition EventRuntimeCleanupFailed : string := "runtime_cleanup_failed".
Definition EventLogRotated : string := "log_rotated".

(** ** Data *)

(** A Go value of type any, as it appears in event details.  Maps are listed in
    iteration order, which Go leaves unspecified. *)
Inductive Value : Type :=
| VNil
| VBool (b : bool)
| VInt (z : Z)                              (* every integer type *)
| VFloat (bits : Z)
| VString (s : string)
| VStrings (l : list string)                (* []string *)
| VList (l : list Value)                    (* []any *)
| VMap (m : list (string * Value))          (* map[string]any *)
| VOther (m : list (string * string)).      (* any other type, e.g. map[string]string *)

Record Event : Type := mkEvent {
  ev_Time : time;
  ev_Level : string;
  ev_Component : string;
  ev_Event : string;
  ev_PluginID : string;
  ev_GenerationID : Z;
  ev_PID : Z;
  ev_SocketPath : string;
  ev_Method : string;
  ev_CapabilityID : string;
  ev_OperationID : string;
  ev_CorrelationID : string;
  ev_Status : string;
  ev_DurationMS : Z;
  ev_ErrorClass : string;
  ev_DegradedReason : string;
  ev_Message : string;
  ev_Error : string;
  ev_Reason : string;
  ev_Details : list (string * Value);
}.

(** The zero Event of a composite literal. *)
Definition event0 : Event :=
  mkEvent 0 "" "" "" "" 0 0 "" "" "" "" "" "" 0 "" "" "" "" "" [].

Record Options : Type := mkOptions { opt_MaxBytes : Z; opt_MaxBackups : Z }.

Record Logger : Type := mkLogger {
  lg_path : string;
  lg_maxBytes : Z;
  lg_maxBackups : Z;
}.

(** ** File operations.  [FStat], [FWrite], [FSync], [FClose] act on the
    logger's open handle; [FOpen] replaces that handle when it succeeds. *)
Inductive logE : Type → Type :=
| FStat : logE (result Z)
| FClose : logE (option error)
| FRemove (path : string) : logE (option error)
| FExists (path : string) : logE (option error)              (* statFile *)
| FRename (old new : string) : logE (option error)
| FOpen (path : string) : logE (option error)                (* O_CREATE|O_APPEND|O_WRONLY, 0600 *)
| FWrite (data : string) : logE (option error)
| FSync : logE (option error)
| FNow : logE time.

Definition backupPath (path : string) (n : Z) : string :=
  let ext := Ext path in
  let base := String.substring 0 (String.length path - String.length ext) path in
  if decide (ext = "") then path +:+ "." +:+ Itoa n
  else base +:+ "." +:+ Itoa n +:+ ext.

Definition NewWithOptions (path : string) (opts : Options) : prog logE (result Logger) :=
  let maxBytes := if opt_MaxBytes opts <=? 0 then DefaultMaxBytes else opt_MaxBytes opts in
  let maxBackups := if opt_MaxBackups opts <=? 0 then DefaultMaxBackups else opt_MaxBackups opts in
  f ← trigger (FOpen path);
  match f with
  | Some e => Ret (Err (errors_Wrap "open event log" e))
  | None => Ret (Ok (mkLogger path maxBytes maxBackups))
  end.

Definition New (path : string) : prog logE (result Logger) := NewWithOptions path (mkOptions 0 0).

Definition Close (l : Logger) : prog logE (option error) := trigger FClose.

Definition Path (l : option Logger) : string := match l with None => "" | Some l => lg_path l end.

Definition newline : string := byte1 0x0A.

Definition reopenWithErr (l : Logger) (cause : error) : prog logE (option error) :=
  _ ← trigger (FOpen (lg_path l));
  Ret (Some cause).

(** The loop of rotateIfNeeded, [i] counting down from [maxBackups] to 1. *)
Fixpoint rotate_backups (l : Logger) (i : nat) : prog logE (option error) :=
  match i with
  | O => Ret None
  | S i' =>
      let oldPath := backupPath (lg_path l) (Z.of_nat i) in
      if Z.of_nat i =? lg_maxBackups l then
        _ ← trigger (FRemove oldPath);
        rotate_backups l i'
      else
        let newPath := backupPath (lg_path l) (Z.of_nat i + 1) in
        st ← trigger (FExists oldPath);
        match st with
        | None =>
            rn ← trigger (FRename oldPath newPath);
            match rn with
            | Some e => reopenWithErr l
                (errors_Wrap ("rotate backup " +:+ oldPath +:+ " -> " +:+ newPath) e)
            | None => rotate_backups l i'
            end
        | Some _ => rotate_backups l i'
        end
  end.

Definition rotationEvent (l : Logger) (now : time) : Event :=
  {| event0 with
     ev_Time := now; ev_Level := LevelInfo; ev_Component := ComponentRuntime;
     ev_Event := EventLogRotated; ev_Message := "event log rotated";
     ev_Details := [("path", VString (lg_path l)); ("max_bytes", VInt (lg_maxBytes l));
                    ("max_backups", VInt (lg_maxBackups l))] |}.

Section Writing.
(** json.Marshal on an event. *)
Variable jsonMarshal : Event → result string.

(** The tail of rotateIfNeeded once the old file is out of the way. *)
Definition start_new_file (l : Logger) : prog logE (option error) :=
  f ← trigger (FOpen (lg_path l));
  match f with
  | Some e => Ret (Some (errors_Wrap "open rotated event log" e))
  | None =>
      now ← trigger FNow;
      match jsonMarshal (rotationEvent l now) with
      | Err e => Ret (Some (errors_Wrap "marshal rotation event" e))
      | Ok payload =>
          w ← trigger (FWrite (payload +:+ newline));
          match w with
          | Some e => Ret (Some (errors_Wrap "write rotation event" e))
          | None =>
              s ← trigger FSync;
              match s with
              | Some e => Ret (Some (errors_Wrap "sync rotation event" e))
              | None => Ret None
              end
          end
      end
  end.

Definition rotateIfNeeded (l : Logger) (nextWriteBytes : Z) : prog logE (option error) :=
  if (lg_maxBytes l <=? 0) || bool_decide (lg_path l = "") then Ret None
  else
    info ← trigger FStat;
    match info with
    | Err e => Ret (Some (errors_Wrap "stat event log" e))
    | Ok size =>
        if size + nextWriteBytes <=? lg_maxBytes l then Ret None
        else
          c ← trigger FClose;
          match c with
          | Some e => Ret (Some (errors_Wrap "close event log before rotate" e))
          | None =>
              b ← rotate_backups l (Z.to_nat (lg_maxBackups l));
              match b with
              | Some e => Ret (Some e)
              | None =>
                  st ← trigger (FExists (lg_path l));
                  match st with
                  | None =>
                      rn ← trigger (FRename (lg_path l) (backupPath (lg_path l) 1));
                      match rn with
                      | Some e => reopenWithErr l (errors_Wrap "rotate current log" e)
                      | None => start_new_file l
                      end
                  | Some _ => start_new_file l
                  end
              end
          end
    end.

(** The defaults Write fills in. *)
Definition fill_defaults (event : Event) (now : time) : Event :=
  let event := if time_IsZero (ev_Time event) then {| event with ev_Time := now |} else event in
  let event := if decide (ev_Level event = "") then {| event with ev_Level := LevelInfo |}
               else event in
  if decide (ev_Component event = "") then {| event with ev_Component := ComponentKernel |}
  else event.

Definition Write (l : Logger) (event : Event) : prog logE (option error) :=
  now ← (if time_IsZero (ev_Time event) then trigger FNow else Ret 0);
  match jsonMarshal (fill_defaults event now) with
  | Err e => Ret (Some (errors_Wrap "marshal event" e))
  | Ok payload =>
      let data := payload +:+ newline in
      r ← rotateIfNeeded l (Z.of_nat (String.length data));
      match r with
      | Some e => Ret (Some e)
      | None =>
          w ← trigger (FWrite data);
          match w with
          | Some e => Ret (Some (errors_Wrap "append event" e))
          | None =>
              s ← trigger FSync;
              match s with
              | Some e => Ret (Some (errors_Wrap "sync event log" e))
              | None => Ret None
              end
          end
      end
  end.
End Writing.

(** ** The file system the logger acts on

    [fs_handle] is the path the open handle was opened at, [None] once closed.
    A failed call leaves the files alone, except that a failed write may have
    appended a prefix of its data; a stat fails only for a missing file. *)
Record logfs : Type := mkFs { fs_files : gmap string string; fs_handle : option string }.

Definition content (fs : logfs) (p : string) : option string := fs_files fs !! p.

Definition append_to (files : gmap string string) (p data : string) : gmap string string :=
  <[p := default "" (files !! p) +:+ data]> files.

Definition log_step (X : Type) (e : logE X) : logfs → X → logfs → Prop :=
  match e in logE X return logfs → X → logfs → Prop with
  | FStat => λ fs x fs', fs' = fs ∧
      match x with
      | Ok n => ∃ p, fs_handle fs = Some p
                  ∧ n = Z.of_nat (String.length (default "" (fs_files fs !! p)))
      | Err _ => True
      end
  | FClose => λ fs x fs', match x with
      | None => fs_handle fs ≠ None ∧ fs' = {| fs with fs_handle := None |}
      | Some _ => fs' = fs ∨ fs' = {| fs with fs_handle := None |}
      end
  | FRemove p => λ fs x fs', match x with
      | None => is_Some (fs_files fs !! p) ∧ fs' = {| fs with fs_files := delete p (fs_files fs) |}
      | Some _ => fs' = fs
      end
  | FExists p => λ fs x fs', fs' = fs ∧ (x = None → is_Some (fs_files fs !! p))
      ∧ (is_Some x → fs_files fs !! p = None)
  | FRename p q => λ fs x fs', match x with
      | None => ∃ c, fs_files fs !! p = Some c
                  ∧ fs' = {| fs with fs_files := <[q := c]> (delete p (fs_files fs)) |}
      | Some _ => fs' = fs
      end
  | FOpen p => λ fs x fs', match x with
      | None => fs' = mkFs (append_to (fs_files fs) p "") (Some p)
      | Some _ => fs' = fs
      end
  | FWrite data => λ fs x fs', match x with
      | None => ∃ p, fs_handle fs = Some p
                  ∧ fs' = {| fs with fs_files := append_to (fs_files fs) p data |}
      | Some _ => fs' = fs ∨ ∃ p a b, fs_handle fs = Some p ∧ data = a +:+ b
                  ∧ fs' = {| fs with fs_files := append_to (fs_files fs) p a |}
      end
  | FSync => λ fs x fs', fs' = fs
  | FNow => λ fs x fs', fs' = fs
  end.

(** ** A file system without failures, to run the logger on *)
Definition os_error (msg : string) : error := errors_New msg.
Definition not_exist : error := mkError "file does not exist" [ErrNotExist].

Definition log_run (now : time) (X : Type) (e : logE X) : logfs → logfs * X :=
  match e in logE X return logfs → logfs * X with
  | FStat => λ fs, (fs, match fs_handle fs with
      | Some p => Ok (Z.of_nat (String.length (default "" (fs_files fs !! p))))
      | None => Err (os_error "use of closed file")
      end)
  | FClose => λ fs, match fs_handle fs with
      | Some _ => ({| fs with fs_handle := None |}, None)
      | None => (fs, Some (os_error "file already closed"))
      end
  | FRemove p => λ fs, match fs_files fs !! p with
      | Some _ => ({| fs with fs_files := delete p (fs_files fs) |}, None)
      | None => (fs, Some not_exist)
      end
  | FExists p => λ fs, (fs, match fs_files fs !! p with Some _ => None | None => Some not_exist end)
  | FRename p q => λ fs, match fs_files fs !! p with
      | Some c => ({| fs with fs_files := <[q := c]> (delete p (fs_files fs)) |}, None)
      | None => (fs, Some not_exist)
      end
  | FOpen p => λ fs, (mkFs (append_to (fs_files fs) p "") (Some p), None)
  | FWrite data => λ fs, match fs_handle fs with
      | Some p => ({| fs with fs_files := append_to (fs_files fs) p data |}, None)
      | None => (fs, Some (os_error "file already closed"))
      end
  | FSync => λ fs, (fs, None)
  | FNow => λ fs, (fs, now)
  end.

Lemma log_run_ok now X (e : logE X) fs : log_step X e fs (log_run now X e fs).2 (log_run now X e fs).1.
Proof.
  destruct e; simpl; try done.
  - split; [done|]. destruct (fs_handle fs) eqn:E; eauto.
  - by destruct (fs_handle fs) eqn:E; simpl; rewrite ?E; auto.
  - destruct (fs_files fs !! path) eqn:E; simpl; rewrite ?E; eauto.
  - split; [done|]. destruct (fs_files fs !! path); split; [eauto|by intros []|done|done].
  - destruct (fs_files fs !! old) eqn:E; simpl; rewrite ?E; eauto.
  - destruct (fs_handle fs) eqn:E; simpl; rewrite ?E; eauto.
Qed.
