(* ===== verification/EventLogFacts.v ===== *)
(** * Rotation and durability of the event log

    Over every file system behaviour [log_step] allows: what a successful
    Write does to the log and its backups. *)

From S2P Require Import Prelude Prog GoText GoPath Bundle EventLog.

(** ** Backup names are distinct *)

Lemma substring0_length n s :
  String.length (String.substring 0 n s) = Nat.min n (String.length s).
Proof. revert n. induction s as [|c s IH]; intros [|n]; simpl; try done. by rewrite IH. Qed.

Lemma backupPath_ne path n : backupPath path n ≠ path.
Proof.
  intros E. apply (f_equal String.length) in E. revert E. unfold backupPath.
  case_decide; rewrite !slength_app, ?substring0_length; simpl; lia.
Qed.

Lemma backupPath_inj path i j : backupPath path i = backupPath path j → i = j.
Proof.
  unfold backupPath. case_decide as Hext; intros E.
  - apply (inj (String.append path)), (inj (String.append ".")) in E. by apply (inj pretty) in E.
  - do 2 apply (inj (String.append _)) in E. apply sapp_inj_r in E. by apply (inj pretty) in E.
Qed.

Section Rotation.
Variable jsonMarshal : Event → result string.
Variable l : Logger.
Hypothesis l_maxBackups : 1 <= lg_maxBackups l.

Let path := lg_path l.
Let N := Z.to_nat (lg_maxBackups l).

(** [slot 0] is the log itself, [slot i] its i-th backup. *)
Definition slot (i : nat) : string := if decide (i = 0%nat) then path else backupPath path (Z.of_nat i).

Lemma slot_inj i j : slot i = slot j → i = j.
Proof.
  unfold slot. case_decide as Hi; case_decide as Hj; intros E; subst; try done.
  - symmetry in E. by apply backupPath_ne in E.
  - by apply backupPath_ne in E.
  - apply backupPath_inj in E. lia.
Qed.

(** Oldest first: what a reader of all the files sees. *)
Fixpoint history (fs : logfs) (n : nat) : string :=
  default "" (content fs (slot n)) +:+ match n with O => "" | S n' => history fs n' end.

(** Progress of the rotation from [fs0], with [i] still to be moved. *)
Definition shifted (fs0 fs : logfs) (i : nat) : Prop :=
  (∀ j, (j <= i)%nat → content fs (slot j) = content fs0 (slot j))
  ∧ (∀ j, (i + 2 <= j <= N)%nat →
       content fs (slot j) = content fs0 (slot (j - 1))
       ∨ (j = N ∧ content fs0 (slot (j - 1)) = None ∧ content fs (slot j) = content fs0 (slot N)))
  ∧ ((i + 1 <= N)%nat → content fs (slot (i + 1)) = None
       ∨ (i + 1 = N ∧ content fs (slot (i + 1)) = content fs0 (slot N))%nat)
  ∧ fs_handle fs = None.

Lemma slot_S i : slot (S i) = backupPath (lg_path l) (Z.of_nat (S i)).
Proof. done. Qed.

Lemma slot_ne i j : i ≠ j → slot i ≠ slot j.
Proof. intros Hne E. by apply slot_inj in E. Qed.

Lemma content_delete fs p q :
  content {| fs with fs_files := delete p (fs_files fs) |} q
  = if decide (p = q) then None else content fs q.
Proof. unfold content. simpl. rewrite lookup_delete. done. Qed.

Lemma content_rename fs p q c r :
  content {| fs with fs_files := <[q := c]> (delete p (fs_files fs)) |} r
  = if decide (q = r) then Some c else if decide (p = r) then None else content fs r.
Proof. unfold content. simpl. by rewrite lookup_insert, lookup_delete. Qed.

(** Dropping the oldest backup. *)
Lemma shifted_remove fs0 fs i :
  S i = N → shifted fs0 fs (S i) →
  shifted fs0 {| fs with fs_files := delete (slot (S i)) (fs_files fs) |} i
  ∧ shifted fs0 fs i.
Proof.
  intros Hi (H1 & H2 & H3 & H4). split; split_and!; try done.
  - intros j Hj. rewrite content_delete, decide_False by (apply slot_ne; lia). apply H1. lia.
  - intros j Hj. lia.
  - intros _. left. rewrite content_delete, decide_True; [done|]. f_equal. lia.
  - intros j Hj. apply H1. lia.
  - intros j Hj. lia.
  - intros _. right. split; [lia|]. replace (i + 1)%nat with (S i) by lia.
    rewrite H1 by lia. by rewrite Hi.
Qed.

(** Moving one backup up. *)
Lemma shifted_move fs0 fs i c :
  (S i < N)%nat → shifted fs0 fs (S i) → content fs (slot (S i)) = Some c →
  shifted fs0 {| fs with fs_files :=
    <[slot (S i + 1) := c]> (delete (slot (S i)) (fs_files fs)) |} i.
Proof.
  intros Hi (H1 & H2 & H3 & H4) Hc. split_and!; try done.
  - intros j Hj. rewrite content_rename, !decide_False by (apply slot_ne; lia). apply H1. lia.
  - intros j Hj. rewrite content_rename. destruct (decide (j = S i + 1)%nat) as [->|Hne].
    + left. rewrite decide_True by done. replace (S i + 1 - 1)%nat with (S i) by lia.
      rewrite <- Hc. apply H1. lia.
    + rewrite !decide_False by (apply slot_ne; lia). apply H2. lia.
  - intros _. left. rewrite content_rename, decide_False by (apply slot_ne; lia).
    rewrite decide_True; [done|]. f_equal. lia.
Qed.

(** A missing backup leaves its successor's slot free. *)
Lemma shifted_skip fs0 fs i :
  (S i < N)%nat → shifted fs0 fs (S i) → content fs (slot (S i)) = None → shifted fs0 fs i.
Proof.
  intros Hi (H1 & H2 & H3 & H4) Hc. split_and!; try done.
  - intros j Hj. apply H1. lia.
  - intros j Hj. destruct (decide (j = S i + 1)%nat) as [->|Hne]; [|apply H2; lia].
    replace (S i + 1 - 1)%nat with (S i) by lia. rewrite <- H1, Hc by lia.
    destruct H3 as [H3|[H3 H3']]; [lia|by left|]. right. by split_and!.
  - intros _. left. replace (i + 1)%nat with (S i) by lia. done.
Qed.

Lemma rotate_backups_shifts fs0 i fs :
  (i <= N)%nat → shifted fs0 fs i →
  wp log_step (rotate_backups l i) (λ r fs', r = None → shifted fs0 fs' 0) fs.
Proof.
  revert fs. induction i as [|i IH]; intros fs Hi Hsh; [simpl; intros _; done|].
  cbn [rotate_backups]. rewrite <- slot_S.
  replace (Z.of_nat (S i) + 1) with (Z.of_nat (S (S i))) by lia. rewrite <- slot_S.
  destruct (Z.eqb_spec (Z.of_nat (S i)) (lg_maxBackups l)) as [Hmax|Hmax].
  - assert (S i = N) as HN by (unfold N; lia).
    destruct (shifted_remove fs0 fs i HN Hsh) as [Hdel Hkeep].
    intros x fs1. simpl. destruct x as [e|].
    + intros ->. apply IH; [lia|done].
    + intros [_ ->]. apply IH; [lia|done].
  - assert (S i < N)%nat as HN by (unfold N in *; lia).
    intros x fs1. simpl. intros (-> & Hex & Hnex). destruct x as [e|].
    + apply IH; [lia|]. eapply shifted_skip; eauto.
    + intros y fs2. simpl. destruct y as [e|].
      * intros -> z fs3. simpl. done.
      * intros (c & Hc & ->). apply IH; [lia|].
        replace (S (S i)) with (S i + 1)%nat by lia. by apply shifted_move.
Qed.

(** *** What a rotation leaves *)

(** The new log holds [head]; every backup moved up one place.  The oldest
    backup is gone, unless its removal failed and nothing took its place. *)
Definition rotated (fs0 fs : logfs) (head : string) : Prop :=
  content fs (slot 0) = Some head
  ∧ (content fs0 (slot 0) ≠ None → content fs (slot 1) = content fs0 (slot 0))
  ∧ (∀ j, (2 <= j <= N)%nat →
       content fs (slot j) = content fs0 (slot (j - 1))
       ∨ (j = N ∧ content fs0 (slot (j - 1)) = None ∧ content fs (slot j) = content fs0 (slot N)))
  ∧ fs_handle fs = Some path.

Lemma lookup_append files p d q :
  append_to files p d !! q
  = if decide (p = q) then Some (default "" (files !! p) +:+ d) else files !! q.
Proof. unfold append_to. by rewrite lookup_insert. Qed.

Lemma start_new_file_spec fs :
  content fs (slot 0) = None →
  wp log_step (start_new_file jsonMarshal l)
    (λ r fs', r = None → ∃ now payload,
       jsonMarshal (rotationEvent l now) = Ok payload
       ∧ content fs' (slot 0) = Some (payload +:+ newline)
       ∧ (∀ j, j ≠ 0%nat → content fs' (slot j) = content fs (slot j))
       ∧ fs_handle fs' = Some path) fs.
Proof.
  intros Hnone. unfold start_new_file. intros x fs1. simpl. destruct x as [e|]; [done|].
  intros -> now fs2. simpl. intros ->.
  destruct (jsonMarshal (rotationEvent l now)) as [payload|e] eqn:Hj; [|done].
  intros w fs3. simpl. destruct w as [e|]; [done|].
  intros (p & [= <-] & ->) s fs4. simpl. intros ->. destruct s as [e|]; [done|].
  intros _. exists now, payload. split; [done|].
  change (lg_path l) with (slot 0). split_and!; [| |done].
  - unfold content in *. cbn [fs_files]. rewrite lookup_append, decide_True by done.
    rewrite lookup_append, decide_True, Hnone by done. done.
  - intros j Hne. unfold content in *. cbn [fs_files].
    by rewrite !lookup_append, !decide_False by (apply slot_ne; congruence).
Qed.

Lemma rotateIfNeeded_spec fs n :
  lg_path l ≠ "" → fs_handle fs = Some path → 0 < lg_maxBytes l →
  wp log_step (rotateIfNeeded jsonMarshal l n)
    (λ r fs', r = None →
       let size := Z.of_nat (String.length (default "" (content fs (slot 0)))) in
       (fs' = fs ∧ size + n <= lg_maxBytes l)
       ∨ (lg_maxBytes l < size + n
          ∧ ∃ now payload, jsonMarshal (rotationEvent l now) = Ok payload
              ∧ rotated fs fs' (payload +:+ newline))) fs.
Proof.
  intros Hpath Hh Hmax. unfold rotateIfNeeded.
  destruct (Z.leb_spec (lg_maxBytes l) 0); [lia|]. rewrite bool_decide_eq_false_2 by done. simpl.
  intros x fs1 (-> & Hx). destruct x as [size|e]; [|done].
  destruct Hx as (p & Hp & ->). rewrite Hh in Hp. injection Hp as <-.
  destruct (Z.leb_spec (Z.of_nat (String.length (default "" (fs_files fs !! path))) + n)
              (lg_maxBytes l)) as [Hle|Hgt]; [by left|].
  intros c fs1. simpl. destruct c as [e|]; [done|]. intros [_ ->].
  set (fs1 := {| fs with fs_handle := None |}).
  apply wp_bind. eapply wp_mono; [apply (rotate_backups_shifts fs1 N); [done|]|].
  { split_and!; [done|intros; lia..|done]. }
  intros b fs2 Hb. destruct b as [e|]; [done|]. destruct (Hb eq_refl) as (H1 & H2 & H3 & H4).
  assert (∀ fs3, content fs3 (slot 0) = None →
    (content fs2 (slot 0) ≠ None → content fs3 (slot 1) = content fs2 (slot 0)) →
    (∀ j, (2 <= j)%nat → content fs3 (slot j) = content fs2 (slot j)) →
    wp log_step (start_new_file jsonMarshal l) (λ r fs', r = None →
      (fs' = fs ∧ Z.of_nat (String.length (default "" (content fs (slot 0)))) + n <= lg_maxBytes l)
      ∨ (lg_maxBytes l < Z.of_nat (String.length (default "" (content fs (slot 0)))) + n
         ∧ ∃ now payload, jsonMarshal (rotationEvent l now) = Ok payload
             ∧ rotated fs fs' (payload +:+ newline))) fs3) as Hnew.
  { intros fs3 Hn0 Hn1 Hn2. eapply wp_mono; [by apply start_new_file_spec|].
    intros r fs4 Hr Hr'. destruct (Hr Hr') as (now & payload & Hj & Hc & Hrest & Hh4).
    right. split; [done|]. exists now, payload. split; [done|]. split_and!; [done| | |done].
    - change (content fs (slot 0)) with (content fs1 (slot 0)). rewrite <- (H1 0%nat) by lia.
      intros Hne. rewrite Hrest by done. by apply Hn1.
    - intros j Hj'. rewrite Hrest by lia. rewrite Hn2 by lia. apply H2. lia. }
  intros st fs3. simpl. intros (-> & Hex & Hnex). destruct st as [e|].
  - apply Hnew; [by apply Hnex|intros []; by apply Hnex|done].
  - intros y fs3. simpl. destruct y as [e|].
    + intros -> z fs4. simpl. done.
    + intros (c & Hc & ->). apply Hnew.
      * change (backupPath (lg_path l) 1) with (slot 1). change (lg_path l) with (slot 0).
        rewrite content_rename, decide_False by (by apply slot_ne). by rewrite decide_True.
      * intros _. change (backupPath (lg_path l) 1) with (slot 1). rewrite content_rename.
        by rewrite decide_True.
      * intros j Hj. change (backupPath (lg_path l) 1) with (slot 1).
        change (lg_path l) with (slot 0).
        by rewrite content_rename, !decide_False by (apply slot_ne; lia).
Qed.

(** ** What a successful Write does to the whole log *)

Lemma history_shift fs0 fs k :
  (∀ j, (1 <= j <= S k)%nat →
     default "" (content fs (slot j)) = default "" (content fs0 (slot (j - 1)))) →
  history fs (S k) = history fs0 k +:+ default "" (content fs (slot 0)).
Proof.
  induction k as [|k IH]; intros Hj.
  - cbn [history]. rewrite (Hj 1%nat) by lia. simpl. by rewrite !sapp_nil_r.
  - change (history fs (S (S k))) with (default "" (content fs (slot (S (S k)))) +:+ history fs (S k)).
    rewrite IH by (intros; apply Hj; lia). rewrite Hj by lia.
    replace (S (S k) - 1)%nat with (S k) by lia. cbn [history]. by rewrite sapp_assoc.
Qed.

(** Rotation drops at most the oldest backup and keeps everything else in order. *)
Lemma rotated_history fs0 fs head :
  content fs0 (slot 0) ≠ None → rotated fs0 fs head →
  ∃ dropped kept, history fs0 N = dropped +:+ kept ∧ history fs N = kept +:+ head
    ∧ (dropped = "" ∨ dropped = default "" (content fs0 (slot N))).
Proof.
  intros Hne (H0 & H1 & Hj & _). specialize (H1 Hne).
  assert (∃ n, N = S n) as [n HN] by (exists (N - 1)%nat; unfold N; lia).
  rewrite HN in *.
  assert (∀ k, (S k < S n)%nat → history fs (S k) = history fs0 k +:+ head) as Hlow.
  { intros k Hk. rewrite (history_shift fs0); [by rewrite H0|].
    intros j Hjk. destruct (decide (j = 1)%nat) as [->|]; [by rewrite H1|].
    destruct (Hj j) as [->|(-> & _)]; [lia|done|lia]. }
  assert (∀ fs' m, history fs' (S m) = default "" (content fs' (slot (S m))) +:+ history fs' m)
    as Hstep by done.
  assert (default "" (content fs (slot (S n))) = default "" (content fs0 (slot n))
    ∨ (∃ m, n = S m ∧ content fs0 (slot n) = None
         ∧ content fs (slot (S n)) = content fs0 (slot (S n)))) as [Hn|(m & -> & Hn & Hkeep)].
  { destruct n as [|m]; [left; by rewrite H1|].
    destruct (Hj (S (S m))) as [E|(_ & E1 & E2)]; [lia|left|right; by exists m].
    rewrite E. do 3 f_equal. }
  - exists (default "" (content fs0 (slot (S n)))), (history fs0 n).
    split; [done|]. split; [|by right]. rewrite Hstep, Hn.
    destruct n as [|m]; [cbn [history]; rewrite H0; simpl; by rewrite !sapp_nil_r|].
    rewrite Hlow, Hstep by lia. by rewrite sapp_assoc.
  - exists "", (history fs0 (S (S m))). split; [done|]. split; [|by left].
    rewrite (Hstep fs (S m)), (Hstep fs0 (S m)), (Hstep fs0 m), Hlow, Hkeep, Hn by lia.
    simpl. by rewrite sapp_assoc.
Qed.

(** The bytes one Write appends to the history: the event's line, after a
    rotation event when the file was full. *)
Definition rotation_line (rot : string) : Prop :=
  ∃ now payload, jsonMarshal (rotationEvent l now) = Ok payload ∧ rot = payload +:+ newline.

Lemma history_append fs data h :
  content fs (slot 0) ≠ None →
  history (mkFs (append_to (fs_files fs) path data) h) N = history fs N +:+ data
  ∧ content (mkFs (append_to (fs_files fs) path data) h) (slot 0)
    = Some (default "" (content fs (slot 0)) +:+ data).
Proof.
  intros Hne. assert (content (mkFs (append_to (fs_files fs) path data) h) (slot 0)
    = Some (default "" (content fs (slot 0)) +:+ data)) as H0.
  { unfold content. cbn [fs_files]. by rewrite lookup_append, decide_True. }
  split; [|done]. generalize N. intros n. induction n as [|n IH].
  - cbn [history]. rewrite H0. cbn [default from_option]. by rewrite !sapp_nil_r.
  - cbn [history]. rewrite IH. unfold content. cbn [fs_files].
    rewrite lookup_append, decide_False by (by apply (slot_ne 0)). by rewrite sapp_assoc.
Qed.

Lemma Write_spec event fs :
  path ≠ "" → fs_handle fs = Some path → content fs (slot 0) ≠ None → 0 < lg_maxBytes l →
  wp log_step (Write jsonMarshal l event) (λ r fs', r = None →
    ∃ now payload, jsonMarshal (fill_defaults event now) = Ok payload
    ∧ let line := payload +:+ newline in
      fs_handle fs' = Some path
      ∧ (fs' = mkFs (append_to (fs_files fs) path line) (Some path)
           ∧ Z.of_nat (String.length (default "" (content fs' (slot 0)))) <= lg_maxBytes l
         ∨ ∃ rot fs1, rotation_line rot ∧ rotated fs fs1 rot
             ∧ fs' = mkFs (append_to (fs_files fs1) path line) (Some path))) fs.
Proof.
  intros Hp Hh Hne Hmax. unfold Write. apply wp_bind.
  eapply (wp_mono _ _ (λ now fs', fs' = fs)).
  { destruct (time_IsZero (ev_Time event)); [by intros now fs1|done]. }
  intros now fs0 ->.
  destruct (jsonMarshal (fill_defaults event now)) as [payload|e] eqn:Hj; [|simpl; congruence].
  apply wp_bind. eapply wp_mono; [by apply rotateIfNeeded_spec|].
  intros r fs1 Hr. destruct r as [e|]; [simpl; congruence|]. specialize (Hr eq_refl).
  intros w fs2. simpl. destruct w as [e|]; [congruence|].
  intros (p & Hp2 & ->) s fs3. simpl. intros ->. destruct s as [e|]; [congruence|].
  intros _. exists now, payload. split; [done|].
  destruct Hr as [[-> Hle]|(_ & now' & pl & Hj' & Hrot)].
  - rewrite Hh in Hp2. injection Hp2 as <-. split; [done|]. left.
    destruct fs as [files h]. cbn [fs_handle fs_files] in *. subst h. split; [done|].
    destruct (history_append (mkFs files (Some path)) (payload +:+ newline) (Some path)) as [_ E];
      [done|]. cbn [fs_files] in E. rewrite E. cbn [default from_option id].
    rewrite slength_app. lia.
  - pose proof Hrot as (_ & _ & _ & Hh1). rewrite Hh1 in Hp2. injection Hp2 as <-.
    split; [done|]. right. exists (pl +:+ newline), fs1.
    split; [by exists now', pl|]. split; [done|].
    destruct fs1 as [files h]. cbn [fs_handle] in Hh1. by subst h.
Qed.

(** What [Write] promises when it returns nil. *)
Definition write_effect (event : Event) (fs : logfs) (r : option error) (fs' : logfs) : Prop :=
  r = None →
    ∃ now payload dropped kept rot,
      jsonMarshal (fill_defaults event now) = Ok payload
      ∧ history fs N = dropped +:+ kept
      ∧ history fs' N = kept +:+ rot +:+ payload +:+ newline
      ∧ fs_handle fs' = Some path
      ∧ (dropped = "" ∧ rot = ""
           ∧ Z.of_nat (String.length (default "" (content fs' (slot 0)))) <= lg_maxBytes l
         ∨ rotation_line rot ∧ (dropped = "" ∨ dropped = default "" (content fs (slot N)))).

(** C28. The log loses nothing but its oldest backup.  Reading the backups
    oldest-first and then the log, a successful [Write] appends the event's
    line at the end, after a rotation event when the file was full; everything
    that was there before stays, in order, except that a rotation may drop the
    content of the last backup.  This holds for every behaviour of the file
    system, and a write that does not rotate keeps the file within MaxBytes. *)
Theorem Write_history event fs :
  path ≠ "" → fs_handle fs = Some path → content fs (slot 0) ≠ None → 0 < lg_maxBytes l →
  wp log_step (Write jsonMarshal l event) (write_effect event fs) fs.
Proof.
  intros Hp Hh Hne Hmax. eapply wp_mono; [by apply Write_spec|].
  intros r fs' Hr Hnone. destruct (Hr Hnone) as (now & payload & Hj & Hh' & Hcase).
  exists now, payload. destruct Hcase as [(-> & Hle)|(rot & fs1 & Hrot & Hfs1 & ->)].
  - exists "", (history fs N), "". split_and!; [done..| |done|by left].
    by destruct (history_append fs (payload +:+ newline) (Some path) Hne) as [-> _].
  - destruct (rotated_history _ _ _ Hne Hfs1) as (dropped & kept & E1 & E2 & Hd).
    exists dropped, kept, rot. split_and!; [done|done| |done|by right].
    destruct (history_append fs1 (payload +:+ newline) (Some path)) as [-> _].
    { destruct Hfs1 as (H0 & _). by rewrite H0. }
    by rewrite E2, !sapp_assoc.
Qed.

(** Once the handle is closed (after Close, or after a rotation that could
    not reopen the file) every later [Write] reports an error and touches no
    file: nothing is dropped silently. *)
Theorem Write_closed event fs :
  fs_handle fs = None → path ≠ "" → 0 < lg_maxBytes l →
  wp log_step (Write jsonMarshal l event) (λ r fs', r ≠ None ∧ fs' = fs) fs.
Proof.
  intros Hh Hp Hmax. unfold Write. apply wp_bind.
  eapply (wp_mono _ _ (λ now fs', fs' = fs)).
  { destruct (time_IsZero (ev_Time event)); [by intros now fs1|done]. }
  intros now fs0 ->. destruct (jsonMarshal _) as [payload|e]; [|done].
  apply wp_bind. unfold rotateIfNeeded. destruct (Z.leb_spec (lg_maxBytes l) 0); [lia|].
  rewrite bool_decide_eq_false_2 by done. intros x fs1. simpl.
  intros (-> & Hx). destruct x as [size|e]; [|done].
  destruct Hx as (p & Hp' & _). congruence.
Qed.

(** *** Progress *)

Hypothesis marshal_total : ∀ ev, result_is_ok (jsonMarshal ev) = true.

Lemma rotate_backups_run now i fs :
  (run (log_run now) (rotate_backups l i) fs).2 = None.
Proof.
  revert fs. induction i as [|i IH]; intros fs; [done|]. cbn [rotate_backups].
  destruct (Z.of_nat (S i) =? lg_maxBackups l); cbn [trigger mbind prog_mbind prog_bind]; rewrite run_Vis; [apply IH|].
  cbn [log_run fst snd].
  destruct (fs_files fs !! backupPath (lg_path l) (Z.of_nat (S i))) eqn:E; [|apply IH].
  rewrite run_Vis. cbn [log_run]. rewrite E. apply IH.
Qed.

Lemma start_new_file_run now fs :
  (run (log_run now) (start_new_file jsonMarshal l) fs).2 = None
  ∧ fs_handle (run (log_run now) (start_new_file jsonMarshal l) fs).1 = Some path.
Proof.
  unfold start_new_file. cbn [trigger mbind prog_mbind prog_bind].
  rewrite run_Vis. cbn [log_run fst snd]. rewrite run_Vis. cbn [log_run fst snd].
  pose proof (marshal_total (rotationEvent l now)) as Hm.
  by destruct (jsonMarshal _).
Qed.

(** On a file system without failures every [Write] of an encodable event
    succeeds, through however many backup renames the rotation needs. *)
Theorem Write_progress now event fs :
  fs_handle fs = Some path → (run (log_run now) (Write jsonMarshal l event) fs).2 = None.
Proof.
  intros Hh. unfold Write. rewrite run_bind.
  assert (∀ p : prog logE time, (p = trigger FNow ∨ p = Ret 0) →
    (run (log_run now) p fs).1 = fs) as Hnow by (by intros ? [->| ->]).
  rewrite Hnow by (destruct (time_IsZero (ev_Time event)); auto).
  generalize (run (log_run now) (if time_IsZero (ev_Time event) then trigger FNow else Ret 0) fs).2.
  intros now'. pose proof (marshal_total (fill_defaults event now')) as Hm.
  destruct (jsonMarshal (fill_defaults event now')) as [payload|]; [clear Hm|done].
  rewrite run_bind.
  assert (let r := run (log_run now) (rotateIfNeeded jsonMarshal l
      (Z.of_nat (String.length (payload +:+ newline)))) fs in
    r.2 = None ∧ fs_handle r.1 = Some path) as [-> Hh'].
  { unfold rotateIfNeeded. destruct (_ || _); [done|]. cbn [trigger mbind prog_mbind prog_bind].
    rewrite run_Vis. cbn [log_run fst snd]. rewrite Hh. destruct (_ <=? _); [done|].
    rewrite run_Vis. cbn [log_run fst snd]. rewrite Hh. cbn [fst snd].
    generalize {| fs with fs_handle := None |}. intros fs1.
    change (@prog_bind logE ?A ?B ?f ?p) with (@mbind (prog logE) _ A B f p).
    rewrite run_bind, rotate_backups_run.
    generalize (run (log_run now) (rotate_backups l (Z.to_nat (lg_maxBackups l))) fs1).1.
    intros fs2. cbn [trigger mbind prog_mbind prog_bind]. rewrite run_Vis. cbn [log_run fst snd].
    destruct (fs_files fs2 !! lg_path l) eqn:E; [|apply start_new_file_run].
    rewrite run_Vis. cbn [log_run]. rewrite E. apply start_new_file_run. }
  cbn [trigger mbind prog_mbind prog_bind]. rewrite run_Vis. cbn [log_run]. by rewrite Hh'.
Qed.
End Rotation.

(** ** A log of 12 bytes with two backups, rotated by the next event *)
Definition demo_log : Logger := mkLogger "/var/log/events.jsonl" 12 2.
Definition demo_marshal (ev : Event) : result string := Ok (ev_Event ev).
Definition demo_fs : logfs :=
  mkFs {[ "/var/log/events.jsonl" := "current12";
          "/var/log/events.1.jsonl" := "newer";
          "/var/log/events.2.jsonl" := "oldest" ]} (Some "/var/log/events.jsonl").
Definition demo_event : Event := {| event0 with ev_Event := "plugin_started" |}.

Lemma Write_history_witness :
  let r := run (log_run 7) (Write demo_marshal demo_log demo_event) demo_fs in
  r.2 = None
  ∧ history demo_log r.1 2
    = "newercurrent12log_rotated" +:+ newline +:+ "plugin_started" +:+ newline
  ∧ write_effect demo_marshal demo_log demo_event demo_fs r.2 r.1.
Proof.
  split; [vm_compute; reflexivity|]. split; [vm_compute; reflexivity|].
  apply (wp_run log_step (log_run 7) (log_run_ok 7)).
  apply Write_history; [vm_compute; congruence..|vm_compute; reflexivity].
Defined.

Lemma Write_closed_witness :
  fs_handle {| demo_fs with fs_handle := None |} = None
  ∧ wp log_step (Write demo_marshal demo_log demo_event)
      (λ r fs', r ≠ None ∧ fs' = {| demo_fs with fs_handle := None |})
      {| demo_fs with fs_handle := None |}.
Proof. split; [done|]. apply Write_closed; [done| |]; vm_compute; congruence. Defined.

Lemma Write_progress_witness :
  (run (log_run 7) (Write demo_marshal demo_log demo_event) demo_fs).2 = None.
Proof. apply Write_progress; reflexivity. Defined.
