(* ===== verification/Provider.v ===== *)
(** * Provider observability (src/internal/eventlog/provider.go and the
    ProviderDiagnostic method of src/pkg/plugin/logging.go)

    What a provider says about itself is validated, text by text and detail by
    detail, before it becomes a durable event. *)

From S2P Require Import Prelude Prog GoText GoRegexp GoPath PluginID EventLog.

(** ** Vocabulary *)
Definition ComponentProviderBoundary : string := "provider_boundary".
Definition ComponentProviderDiagnostic : string := "provider_diagnostic".

Definition EventProviderOperationStarted : string := "provider_operation_started".
Definition EventProviderOperationSucceeded : string := "provider_operation_succeeded".
Definition EventProviderOperationFailed : string := "provider_operation_failed".
Definition EventProviderOperationDegraded : string := "provider_operation_degraded".
Definition EventProviderOperationUnavailable : string := "provider_operation_unavailable".
Definition EventProviderDiagnosticReported : string := "provider_diagnostic_reported".
Definition EventProviderDiagnosticRejected : string := "provider_diagnostic_rejected".

Definition ProviderStatusStarted : string := "started".
Definition ProviderStatusSucceeded : string := "succeeded".
Definition ProviderStatusFailed : string := "failed".
Definition ProviderStatusDegraded : string := "degraded".
Definition ProviderStatusUnavailable : string := "unavailable".
Definition ProviderStatusRejected : string := "rejected".

Definition providerPluginIDPattern : re := RSeq (RSet id_first) (RStar (RSet id_rest)).

Definition ProviderRedactedValue : string := "[redacted]".

Definition providerEventStatus : list (string * string) :=
  [(EventProviderOperationStarted, ProviderStatusStarted);
   (EventProviderOperationSucceeded, ProviderStatusSucceeded);
   (EventProviderOperationFailed, ProviderStatusFailed);
   (EventProviderOperationDegraded, ProviderStatusDegraded);
   (EventProviderOperationUnavailable, ProviderStatusUnavailable);
   (EventProviderDiagnosticRejected, ProviderStatusRejected)].

(** A missing key reads as the empty string. *)
Definition event_status (event : string) : string :=
  from_option snd "" (list_find (λ p, p.1 = event) providerEventStatus ≫= λ p, Some p.2).

Definition providerStatuses : list string :=
  [ProviderStatusStarted; ProviderStatusSucceeded; ProviderStatusFailed; ProviderStatusDegraded;
   ProviderStatusUnavailable; ProviderStatusRejected].

Definition unsafeDetailMarkers : list string :=
  ["raw_prompt"; "prompt"; "payload"; "request_body"; "response_body"; "body"; "credential";
   "credentials"; "secret"; "client_secret"; "token"; "access_token"; "refresh_token"; "password";
   "passwd"; "api_key"; "apikey"; "private_key"; "privatekey"; "bearer"; "authorization"; "jwt";
   "oauth"; "authority"; "authority_ref"; "authority-use-ref"; "authority_use_ref"; "use_ref";
   "handle"; "socket"; "session"; "signer"; "path"; "filepath"; "file_path"; "absolute_path"].

Record ProviderObservation : Type := mkObservation {
  ob_Level : string;
  ob_Component : string;
  ob_Event : string;
  ob_PluginID : string;
  ob_GenerationID : Z;
  ob_CapabilityID : string;
  ob_OperationID : string;
  ob_CorrelationID : string;
  ob_Status : string;
  ob_DurationMS : Z;
  ob_ErrorClass : string;
  ob_DegradedReason : string;
  ob_Message : string;
  ob_Details : list (string * Value);
}.

Section Provider.
Context `{UnicodeTables}.

(** ** Texts *)

(** strings.NewReplacer("-", "_", " ", "_", ".", "_", ":", "_") *)
Definition replace_separator (c : ascii) : ascii :=
  if bool_decide (c ∈ ["-"; " "; "."; ":"]%char) then "_"%char else c.

Definition normalized (text : string) : string := ToLower (string_map replace_separator text).

Definition UnsafeProviderText (text : string) : bool :=
  existsb (λ marker, Contains (normalized text) (ToLower marker)) unsafeDetailMarkers.

Definition looksLikeProviderPrivatePath (text : string) : bool :=
  let trimmed := TrimSpace text in
  if bool_decide (trimmed = "") then false
  else if IsAbs trimmed then true
  else match trimmed with
       | String a (String b (String c _)) =>
           IsLetterLatin1 (byte_val a) && bool_decide (b = ":"%char)
           && (bool_decide (c = byte_of 0x5C) || bool_decide (c = "/"%char))
       | _ => false
       end.

Definition blank_text (value : string) : bool := bool_decide (TrimSpace value = "").

Definition validateSafeProviderText (name value : string) : option error :=
  if blank_text value then None
  else if ContainsFunc value IsControl then Some (errors_New (name +:+ " contains control characters"))
  else if UnsafeProviderText value || looksLikeProviderPrivatePath value then
    Some (errors_New ("unsafe provider " +:+ name))
  else None.

Definition requireProviderField (name value : string) : option error :=
  if blank_text value then Some (errors_New (name +:+ " is required"))
  else validateSafeProviderText name value.

(** The first error of a list of checks. *)
Fixpoint check_all {A} (f : A → option error) (l : list A) : option error :=
  match l with [] => None | x :: rest => f x ?> check_all f rest end.

(** ** Event and status *)

Definition boundary_events : list string :=
  [EventProviderOperationStarted; EventProviderOperationSucceeded; EventProviderOperationFailed;
   EventProviderOperationDegraded; EventProviderOperationUnavailable].

Definition validateProviderEventComponent (component event status : string) : option error :=
  if bool_decide (event ∈ boundary_events) then
    (fail_if negb (bool_decide (component = ComponentProviderBoundary)) with_error
      errors_New ("provider boundary event " +:+ Quote event +:+ " requires component "
                  +:+ Quote ComponentProviderBoundary))
    ?> (fail_if negb (bool_decide (status = event_status event)) with_error
      errors_New ("provider event " +:+ Quote event +:+ " requires status " +:+ Quote (event_status event)))
  else if bool_decide (event = EventProviderDiagnosticReported) then
    fail_if negb (bool_decide (component = ComponentProviderDiagnostic)) with_error
      errors_New ("provider diagnostic event " +:+ Quote event +:+ " requires component "
                  +:+ Quote ComponentProviderDiagnostic)
  else if bool_decide (event = EventProviderDiagnosticRejected) then
    (fail_if negb (bool_decide (component = ComponentProviderDiagnostic)) with_error
      errors_New ("provider diagnostic event " +:+ Quote event +:+ " requires component "
                  +:+ Quote ComponentProviderDiagnostic))
    ?> (fail_if negb (bool_decide (status = ProviderStatusRejected)) with_error
      errors_New ("provider event " +:+ Quote event +:+ " requires status " +:+ Quote ProviderStatusRejected))
  else Some (errors_New ("unknown provider event " +:+ Quote event)).

(** ** Details *)

Definition unsafe_value (text : string) : bool :=
  UnsafeProviderText text || looksLikeProviderPrivatePath text.

Definition unsafe_value_error (key : string) : error :=
  errors_New ("unsafe provider detail value for key " +:+ Quote key).

(** The loop of safeProviderDetails, in the order the map is iterated. *)
Definition check_entries (f : string → Value → option error) : list (string * Value) → option error :=
  fix go m := match m with
    | [] => None
    | (key, value) :: rest =>
        (fail_if UnsafeProviderText key with_error errors_New ("unsafe provider detail key " +:+ Quote key))
        ?> f key value ?> go rest
    end.

Fixpoint validateProviderDetailValue (key : string) (value : Value) : option error :=
  match value with
  | VNil | VBool _ | VInt _ | VFloat _ => None
  | VString v => fail_if unsafe_value v with_error unsafe_value_error key
  | VStrings v => check_all (λ item, fail_if unsafe_value item with_error unsafe_value_error key) v
  | VList v => check_all (validateProviderDetailValue key) v
  | VMap v => check_entries validateProviderDetailValue v
  | VOther _ => Some (errors_New ("unsupported provider detail value for key " +:+ Quote key))
  end.

Definition safeProviderDetails (details : list (string * Value)) : result (list (string * Value)) :=
  match check_entries validateProviderDetailValue details with
  | Some e => Err e
  | None => Ok details
  end.

(** ** Observations *)

(** The texts checked by the loop of validateProviderObservation. *)
Definition text_fields (obs : ProviderObservation) : list (string * string) :=
  [("capability id", ob_CapabilityID obs); ("operation id", ob_OperationID obs);
   ("correlation id", ob_CorrelationID obs); ("error class", ob_ErrorClass obs);
   ("degraded reason", ob_DegradedReason obs); ("message", ob_Message obs)].

Definition validateProviderObservation (obs : ProviderObservation) : option error :=
  (fail_if negb (MatchString_full providerPluginIDPattern (ob_PluginID obs)) with_error
     errors_New ("invalid plugin id " +:+ Quote (ob_PluginID obs)))
  ?> (fail_if ob_GenerationID obs =? 0 with_error errors_New "generation id is required")
  ?> requireProviderField "capability id" (ob_CapabilityID obs)
  ?> requireProviderField "operation id" (ob_OperationID obs)
  ?> requireProviderField "correlation id" (ob_CorrelationID obs)
  ?> check_all (λ '(name, value), validateSafeProviderText name value) (text_fields obs)
  ?> (fail_if ob_DurationMS obs <? 0 with_error errors_New "duration_ms must be non-negative")
  ?> (fail_if negb (bool_decide (ob_Status obs ∈ providerStatuses)) with_error
        errors_New ("unknown provider status " +:+ Quote (ob_Status obs)))
  ?> validateProviderEventComponent (ob_Component obs) (ob_Event obs) (ob_Status obs).

(** The event of an accepted observation. *)
Definition observation_event (obs : ProviderObservation) (details : list (string * Value)) : Event :=
  {| event0 with
     ev_Level := if decide (ob_Level obs = "") then LevelInfo else ob_Level obs;
     ev_Component := ob_Component obs; ev_Event := ob_Event obs; ev_PluginID := ob_PluginID obs;
     ev_GenerationID := ob_GenerationID obs; ev_CapabilityID := ob_CapabilityID obs;
     ev_OperationID := ob_OperationID obs; ev_CorrelationID := ob_CorrelationID obs;
     ev_Status := ob_Status obs; ev_DurationMS := ob_DurationMS obs;
     ev_ErrorClass := ob_ErrorClass obs; ev_DegradedReason := ob_DegradedReason obs;
     ev_Message := ob_Message obs; ev_Details := details |}.

Definition ProviderEvent (obs : ProviderObservation) : result Event :=
  match validateProviderObservation obs with
  | Some e => Err e
  | None =>
      match safeProviderDetails (ob_Details obs) with
      | Err e => Err e
      | Ok details => Ok (observation_event obs details)
      end
  end.
End Provider.
