(* ===== verification/ProviderFacts.v ===== *)
(** * What provider validation guarantees *)

From S2P Require Import Prelude Prog GoText GoRegexp GoPath PluginID EventLog Provider.

(** ** Decoding around an ASCII byte *)

Lemma cont_ascii c : ascii_byte c = true → cont c = false.
Proof.
  intros Hc. apply not_true_iff_false. intros Hd%cont_high. unfold high_byte in Hd. by rewrite Hc in Hd.
Qed.

Lemma second3_ascii b c : ascii_byte c = true → second3 b c = false.
Proof.
  intros Hc. apply not_true_iff_false. intros Hd%second3_high. unfold high_byte in Hd. by rewrite Hc in Hd.
Qed.

Lemma second4_ascii b c : ascii_byte c = true → second4 b c = false.
Proof.
  intros Hc. apply not_true_iff_false. intros Hd%second4_high. unfold high_byte in Hd. by rewrite Hc in Hd.
Qed.

Lemma rune_chunks_boundary a c b :
  ascii_byte c = true → rune_chunks (a +:+ String c b) = rune_chunks a ++ rune_chunks (String c b).
Proof.
  intros Hc. remember (String.length a) as n eqn:Hn. revert a Hn.
  induction (lt_wf n) as [n _ IH]. intros a ->.
  assert (∀ t, (String.length t < String.length a)%nat →
    rune_chunks (t +:+ String c b) = rune_chunks t ++ rune_chunks (String c b)) as IH'.
  { intros t Ht. by eapply IH. }
  clear IH. pose proof (cont_ascii c Hc) as Hc1. pose proof (λ d, second3_ascii d c Hc) as Hc2.
  pose proof (λ d, second4_ascii d c Hc) as Hc3.
  destruct a as [|b0 t0]; [done|]. remember (rune_chunks (String c b)) as R eqn:HR.
  rewrite sapp_cons. cbn [rune_chunks].
  assert ((rune_error, String b0 "") :: rune_chunks (t0 +:+ String c b)
          = ((rune_error, String b0 "") :: rune_chunks t0) ++ R) as Hinv.
  { simpl. f_equal. apply IH'. simpl. lia. }
  destruct (byte_val b0 <? 0x80). { simpl. f_equal. apply IH'. simpl. lia. }
  destruct (in_range 0xC2 0xDF _).
  { destruct t0 as [|b1 t1]; cbn [String.append] in *; [by rewrite Hc1|].
    destruct (cont b1); [|done]. simpl. f_equal. apply IH'. simpl. lia. }
  destruct (in_range 0xE0 0xEF _).
  { destruct t0 as [|b1 [|b2 t2]]; cbn [String.append] in *.
    - rewrite Hc2. by destruct b.
    - by rewrite Hc1, andb_false_r.
    - destruct (second3 _ _ && _); [|done]. simpl. f_equal. apply IH'. simpl. lia. }
  destruct (in_range 0xF0 0xF4 _); [|done].
  destruct t0 as [|b1 [|b2 [|b3 t3]]]; cbn [String.append] in *.
  - rewrite Hc3. by destruct b as [|? [|? ?]].
  - rewrite Hc1, andb_false_r. by destruct b.
  - by rewrite Hc1, andb_false_r.
  - destruct (second4 _ _ && _ && _); [|done]. simpl. f_equal. apply IH'. simpl. lia.
Qed.

Lemma runes_boundary a c b :
  ascii_byte c = true → runes (a +:+ String c b) = runes a ++ runes (String c b).
Proof. intros Hc. unfold runes. by rewrite rune_chunks_boundary, fmap_app. Qed.

(** An ASCII text in the middle decodes to itself. *)
Lemma runes_around a m b :
  string_forallb ascii_byte m = true → m ≠ "" → runes (a +:+ m +:+ b) = runes a ++ string_bytes m ++ runes b.
Proof.
  intros Hm Hne. destruct m as [|c m]; [done|]. pose proof Hm as Hm'.
  cbn [string_forallb] in Hm. apply andb_true_iff in Hm as [Hc _].
  rewrite sapp_cons, runes_boundary by done. f_equal.
  change (String c (m +:+ b)) with (String c m +:+ b). by apply runes_app_ascii.
Qed.

Section Facts.
Context `{UnicodeTables}.

(** ** Markers *)

(** The bytes a marker may be spelled with: either case, any separator. *)
Definition fold_byte (c : ascii) : ascii :=
  let d := replace_separator c in
  if in_range 0x41 0x5A (byte_val d) then byte_of (byte_val d + 0x20) else d.

Definition spells (s marker : string) : Prop :=
  string_forallb ascii_byte s = true ∧ string_map fold_byte s = marker.

Lemma encode_ascii r : 0 <= r < 0x80 → encode_rune r = byte1 r.
Proof.
  intros Hr. unfold encode_rune.
  by assert (in_range 0 0x7F r = true) as -> by (apply in_range_true; lia).
Qed.

Lemma string_map_app f a b : string_map f (a +:+ b) = string_map f a +:+ string_map f b.
Proof. induction a as [|c a IH]; [done|]. rewrite sapp_cons. simpl. by rewrite IH. Qed.

Lemma replace_separator_ascii c : ascii_byte c = true → ascii_byte (replace_separator c) = true.
Proof. unfold replace_separator. by case_bool_decide. Qed.

Lemma lower_bytes s :
  string_forallb ascii_byte s = true →
  string_concat ((λ r, encode_rune (rune_to_lower r)) <$> string_bytes (string_map replace_separator s))
  = string_map fold_byte s.
Proof.
  induction s as [|c s IH]; [done|]. cbn [string_forallb string_map string_bytes]. rewrite andb_true_iff.
  intros [Hc Hs]. rewrite fmap_cons. cbn [string_concat]. rewrite (IH Hs).
  apply replace_separator_ascii, Z.ltb_lt in Hc. unfold fold_byte.
  pose proof (byte_val_range (replace_separator c)).
  unfold rune_to_lower. assert (byte_val (replace_separator c) <? 0x80 = true) as -> by (by apply Z.ltb_lt).
  destruct (in_range 0x41 0x5A _) eqn:E.
  - apply in_range_true in E. rewrite encode_ascii by lia. done.
  - rewrite encode_ascii by lia. unfold byte1. rewrite byte_of_val. done.
Qed.

(** Normalizing a text that has an ASCII part in the middle. *)
Lemma normalized_around a m b :
  string_forallb ascii_byte m = true → m ≠ "" →
  ∃ a' b', normalized (a +:+ m +:+ b) = a' +:+ string_map fold_byte m +:+ b'.
Proof.
  intros Hm Hne. unfold normalized, ToLower. rewrite !string_map_app, runes_around.
  - rewrite !fmap_app, !string_concat_app, lower_bytes by done. eauto.
  - clear Hne. induction m as [|c m IH]; [done|]. cbn [string_forallb string_map] in *.
    rewrite andb_true_iff in *. destruct Hm as [Hc Hm]. split; [by apply replace_separator_ascii|by apply IH].
  - by destruct m.
Qed.

(** The markers are lower-case ASCII words. *)
Lemma marker_lower marker : marker ∈ unsafeDetailMarkers → ToLower marker = marker ∧ marker ≠ "".
Proof.
  intros Hm. assert (Forall (λ m, ToLower m = m ∧ m ≠ "") unsafeDetailMarkers) as Hall.
  { unfold unsafeDetailMarkers. repeat constructor. all: discriminate. }
  by rewrite Forall_forall in Hall; apply Hall.
Qed.

Lemma UnsafeProviderText_true text :
  UnsafeProviderText text = true ↔
  ∃ marker a b, marker ∈ unsafeDetailMarkers ∧ normalized text = a +:+ marker +:+ b.
Proof.
  unfold UnsafeProviderText. rewrite existsb_exists. split.
  - intros (m & Hm%list_elem_of_In & (a & b & E)%Contains_spec). rewrite (proj1 (marker_lower m Hm)) in E.
    by exists m, a, b.
  - intros (m & a & b & Hm & E). exists m. split; [by apply list_elem_of_In|].
    apply Contains_spec. rewrite (proj1 (marker_lower m Hm)). by exists a, b.
Qed.

(** No spelling of a secret marker gets through.  Whatever surrounds it, a
    marker written in any mix of upper and lower case, with "-", ".", ":", " "
    and "_" used interchangeably as separators, makes a provider text unsafe. *)
Theorem UnsafeProviderText_spellings marker s a b :
  marker ∈ unsafeDetailMarkers → spells s marker → UnsafeProviderText (a +:+ s +:+ b) = true.
Proof.
  intros Hm [Ha Hs]. destruct (marker_lower marker Hm) as [_ Hne].
  assert (s ≠ "") as Hs' by (intros ->; by subst).
  destruct (normalized_around a s b Ha Hs') as (a' & b' & E). rewrite Hs in E.
  apply UnsafeProviderText_true. by exists marker, a', b'.
Qed.

(** ** What is accepted *)

(** No marker, in any spelling. *)
Definition harmless (text : string) : Prop :=
  ∀ marker a b, marker ∈ unsafeDetailMarkers → normalized text ≠ a +:+ marker +:+ b.

Lemma UnsafeProviderText_false text : UnsafeProviderText text = false ↔ harmless text.
Proof.
  rewrite <- not_true_iff_false, UnsafeProviderText_true. split.
  - intros Hn m a b Hm E. apply Hn. by exists m, a, b.
  - intros Hh (m & a & b & Hm & E). by eapply Hh.
Qed.

(** A detail text: harmless, and no absolute path. *)
Definition harmless_value (text : string) : Prop :=
  harmless text ∧ looksLikeProviderPrivatePath text = false.

Lemma unsafe_value_false text : unsafe_value text = false ↔ harmless_value text.
Proof. unfold unsafe_value. by rewrite orb_false_iff, UnsafeProviderText_false. Qed.

(** A text field: blank, or harmless, without control characters, no path. *)
Definition clean_text (text : string) : Prop :=
  TrimSpace text = "" ∨ ((∀ r, r ∈ runes text → IsControl r = false) ∧ harmless_value text).

Lemma ContainsFunc_false s f : ContainsFunc s f = false ↔ ∀ r, r ∈ runes s → f r = false.
Proof.
  unfold ContainsFunc. rewrite <- not_true_iff_false, existsb_exists. split.
  - intros Hn r Hr. apply not_true_iff_false. intros Hf. apply Hn. exists r.
    split; [by apply list_elem_of_In|done].
  - intros Hall (r & Hr%list_elem_of_In & Hf). by rewrite Hall in Hf.
Qed.

Lemma validateSafeProviderText_None name value :
  validateSafeProviderText name value = None ↔ clean_text value.
Proof.
  unfold validateSafeProviderText, clean_text, blank_text. case_bool_decide as E; [tauto|].
  destruct (ContainsFunc value IsControl) eqn:Hc.
  - split; [done|]. intros [?|[Hn _]]; [done|]. apply ContainsFunc_false in Hn. congruence.
  - pose proof (proj1 (ContainsFunc_false value IsControl) Hc) as Hn. rewrite fail_if_None. fold (unsafe_value value).
    rewrite unsafe_value_false. tauto.
Qed.

Lemma requireProviderField_None name value :
  requireProviderField name value = None ↔ TrimSpace value ≠ "" ∧ clean_text value.
Proof.
  unfold requireProviderField, blank_text. case_bool_decide as E; [by split; [|intros []]|].
  rewrite validateSafeProviderText_None. tauto.
Qed.

Lemma check_all_None {A} (f : A → option error) l :
  check_all f l = None ↔ ∀ x, x ∈ l → f x = None.
Proof.
  induction l as [|x l IH]; simpl; [split; [by intros _ ? ?%elem_of_nil|done]|].
  rewrite first_error_None, IH. setoid_rewrite elem_of_cons. naive_solver.
Qed.

(** The values inside a value, itself included. *)
Inductive inside : Value → Value → Prop :=
| inside_refl v : inside v v
| inside_list u v l : v ∈ l → inside u v → inside u (VList l)
| inside_map u k v m : (k, v) ∈ m → inside u v → inside u (VMap m).

(** A value whose own texts and keys may be logged. *)
Definition sound (v : Value) : Prop :=
  match v with
  | VString s => harmless_value s
  | VStrings l => ∀ s, s ∈ l → harmless_value s
  | VMap m => ∀ k x, (k, x) ∈ m → harmless k
  | VOther _ => False
  | _ => True
  end.

(** Induction into lists and maps. *)
Lemma Value_deep_ind (P : Value → Prop) :
  (∀ v, (∀ l x, v = VList l → x ∈ l → P x) → (∀ m k x, v = VMap m → (k, x) ∈ m → P x) → P v) →
  ∀ v, P v.
Proof.
  intros Hstep. fix IH 1. intros v. destruct v as [| | | |s|l|l|m|m]; try (apply Hstep; intros; discriminate).
  - assert (Forall P l) as Hl by (induction l as [|y l IHl]; constructor; [apply IH|exact IHl]).
    apply Hstep; [|intros; discriminate]. intros l' x [= <-]. rewrite Forall_forall in Hl. apply Hl.
  - assert (Forall P m.*2) as Hm by (induction m as [|[k' y] m IHm]; constructor; [apply IH|exact IHm]).
    apply Hstep; [intros; discriminate|]. intros m' k x [= <-] Hx. rewrite Forall_forall in Hm. apply Hm.
    apply list_elem_of_fmap. by exists (k, x).
Qed.

Lemma check_entries_None f m :
  check_entries f m = None ↔ ∀ k x, (k, x) ∈ m → harmless k ∧ f k x = None.
Proof.
  induction m as [|[k x] m IH]; simpl; [split; [by intros _ ? ? ?%elem_of_nil|done]|].
  rewrite !first_error_None, IH, fail_if_None, UnsafeProviderText_false.
  setoid_rewrite elem_of_cons. split.
  - intros (Hk & Hx & Hm) k' x' [[= -> ->]|Hin]; [done|by apply Hm].
  - intros Hall. destruct (Hall k x) as [Hk Hx]; [by left|]. split_and!; [done..|].
    intros k' x' Hin. apply Hall. by right.
Qed.

Lemma validateProviderDetailValue_None v : ∀ key,
  validateProviderDetailValue key v = None ↔ ∀ u, inside u v → sound u.
Proof.
  induction v as [v IHl IHm] using Value_deep_ind. intros key.
  assert ((∀ l, v ≠ VList l) → (∀ m, v ≠ VMap m) → (∀ u, inside u v → sound u) ↔ sound v) as Hleaf.
  { intros Hnl Hnm. split; [intros Hall; apply Hall; constructor|].
    intros Hs u Hu. inversion Hu; subst; [done|by destruct (Hnl l)|by destruct (Hnm m)]. }
  destruct v as [| | | |s|l|l|m|m]; simpl; try (rewrite Hleaf by done; simpl; done).
  - rewrite Hleaf, fail_if_None by done. apply unsafe_value_false.
  - rewrite Hleaf, check_all_None by done. simpl. by setoid_rewrite fail_if_None;
      setoid_rewrite unsafe_value_false.
  - rewrite check_all_None. split.
    + intros Hall u Hu. inversion Hu as [|? v l' Hv Hin|]; subst; [done|].
      apply (IHl l v eq_refl Hv key); auto.
    + intros Hall x Hx. apply (IHl l x eq_refl Hx). intros u Hu. apply Hall. by econstructor.
  - rewrite check_entries_None. split.
    + intros Hall u Hu. inversion Hu as [| |? k v m' Hv Hin]; subst.
      * intros k x Hx. by apply (Hall k x).
      * apply (IHm m k v eq_refl Hv k); [|done]. by apply (Hall k v).
    + intros Hall k x Hx. split; [apply (Hall (VMap m) (inside_refl _) k x Hx)|].
      apply (IHm m k x eq_refl Hx). intros u Hu. apply Hall. by econstructor.
Qed.

(** Which component may report which event with which status. *)
Inductive permitted : string → string → string → Prop :=
| permit_boundary event status :
    (event, status) ∈ [(EventProviderOperationStarted, ProviderStatusStarted);
                       (EventProviderOperationSucceeded, ProviderStatusSucceeded);
                       (EventProviderOperationFailed, ProviderStatusFailed);
                       (EventProviderOperationDegraded, ProviderStatusDegraded);
                       (EventProviderOperationUnavailable, ProviderStatusUnavailable)] →
    permitted ComponentProviderBoundary event status
| permit_reported status :
    status ∈ providerStatuses →
    permitted ComponentProviderDiagnostic EventProviderDiagnosticReported status
| permit_rejected :
    permitted ComponentProviderDiagnostic EventProviderDiagnosticRejected ProviderStatusRejected.

Lemma validateProviderEventComponent_None component event status :
  status ∈ providerStatuses ∧ validateProviderEventComponent component event status = None
  ↔ permitted component event status.
Proof.
  unfold validateProviderEventComponent. split.
  - intros [Hst Hv]. case_bool_decide as Hb.
    + apply first_error_None in Hv. rewrite !fail_if_None, !negb_false_iff, !bool_decide_eq_true in Hv.
      destruct Hv as [-> ->]. constructor. unfold boundary_events in Hb.
      repeat (apply elem_of_cons in Hb as [->|Hb]; [set_solver|]). by apply elem_of_nil in Hb.
    + case_bool_decide as Hr; [|case_bool_decide as Hj; [|done]]; subst event.
      * rewrite fail_if_None, negb_false_iff, bool_decide_eq_true in Hv. subst. by constructor.
      * apply first_error_None in Hv. rewrite !fail_if_None, !negb_false_iff, !bool_decide_eq_true in Hv.
        destruct Hv as [-> ->]. constructor.
  - intros Hp. destruct Hp as [event status Hin|status Hst|].
    + repeat (apply elem_of_cons in Hin as [[= -> ->]|Hin]; [split; [by apply (bool_decide_unpack _)|done]|]).
      by apply elem_of_nil in Hin.
    + done.
    + split; [by apply (bool_decide_unpack _)|done].
Qed.

(** What the code asks of an observation. *)
Record acceptable (obs : ProviderObservation) : Prop := {
  ac_plugin : valid_id (ob_PluginID obs) = true;
  ac_generation : ob_GenerationID obs ≠ 0;
  ac_named : TrimSpace (ob_CapabilityID obs) ≠ "" ∧ TrimSpace (ob_OperationID obs) ≠ ""
    ∧ TrimSpace (ob_CorrelationID obs) ≠ "";
  ac_texts : ∀ name text, (name, text) ∈ text_fields obs → clean_text text;
  ac_duration : 0 <= ob_DurationMS obs;
  ac_event : permitted (ob_Component obs) (ob_Event obs) (ob_Status obs);
  ac_details : ∀ u, inside u (VMap (ob_Details obs)) → sound u;
}.

Lemma validateProviderObservation_None obs :
  validateProviderObservation obs = None ↔
  valid_id (ob_PluginID obs) = true ∧ ob_GenerationID obs ≠ 0
  ∧ (TrimSpace (ob_CapabilityID obs) ≠ "" ∧ TrimSpace (ob_OperationID obs) ≠ ""
     ∧ TrimSpace (ob_CorrelationID obs) ≠ "")
  ∧ (∀ name text, (name, text) ∈ text_fields obs → clean_text text)
  ∧ 0 <= ob_DurationMS obs ∧ permitted (ob_Component obs) (ob_Event obs) (ob_Status obs).
Proof.
  unfold validateProviderObservation. change providerPluginIDPattern with pluginIDPattern.
  rewrite pluginIDPattern_spec, !first_error_None, !fail_if_None, !negb_false_iff,
    !requireProviderField_None, check_all_None, Z.eqb_neq, Z.ltb_ge, bool_decide_eq_true,
    <- validateProviderEventComponent_None.
  assert ((∀ x, x ∈ text_fields obs → (let '(name, value) := x in validateSafeProviderText name value) = None)
    ↔ ∀ name text, (name, text) ∈ text_fields obs → clean_text text) as ->.
  { split.
    - intros Hall name text Hin. by apply (validateSafeProviderText_None name), (Hall (name, text)).
    - intros Hall [name text] Hin. apply validateSafeProviderText_None. by eapply Hall. }
  split; [tauto|].
  intros (Hid & Hg & (H1 & H2 & H3) & Ht & Hd & Hp). 
  assert (clean_text (ob_CapabilityID obs) ∧ clean_text (ob_OperationID obs) ∧ clean_text (ob_CorrelationID obs))
    as (? & ? & ?); [|tauto].
  split_and!; [apply (Ht "capability id")|apply (Ht "operation id")|apply (Ht "correlation id")];
    unfold text_fields; set_solver.
Qed.

Lemma ProviderEvent_acceptable obs ev :
  ProviderEvent obs = Ok ev ↔ acceptable obs ∧ ev = observation_event obs (ob_Details obs).
Proof.
  unfold ProviderEvent, safeProviderDetails.
  assert (check_entries validateProviderDetailValue (ob_Details obs) = None
    ↔ ∀ u, inside u (VMap (ob_Details obs)) → sound u) as Hd
    by exact (validateProviderDetailValue_None (VMap (ob_Details obs)) "").
  destruct (validateProviderObservation obs) as [e|] eqn:Hv.
  - split; [done|]. intros [[] _]. assert (validateProviderObservation obs = None) as Hn.
    { apply validateProviderObservation_None. tauto. }
    congruence.
  - apply validateProviderObservation_None in Hv.
    destruct (check_entries _ _) as [e|] eqn:Hc.
    + split; [done|]. intros [[] _]. assert (Some e = None) by (by apply Hd). done.
    + apply proj1 in Hd. specialize (Hd eq_refl). split.
      * intros [= <-]. split; [|done]. destruct Hv as (? & ? & ? & ? & ? & ?). by constructor.
      * by intros [_ ->].
Qed.

Definition with_level (level : string) (obs : ProviderObservation) : ProviderObservation :=
  {| obs with ob_Level := level |}.
Definition with_detail (key : string) (v : Value) (obs : ProviderObservation) : ProviderObservation :=
  {| obs with ob_Details := (key, v) :: ob_Details obs |}.

(** The level is not looked at. *)
Lemma acceptable_level level obs : acceptable obs → acceptable (with_level level obs).
Proof. by intros []. Qed.

(** A detail key is only searched for markers: it may be an absolute path. *)
Lemma acceptable_key key obs : harmless key → acceptable obs → acceptable (with_detail key VNil obs).
Proof.
  intros Hk [A1 A2 A3 A4 A5 A6 A7]. constructor; [done..|].
  apply (validateProviderDetailValue_None (VMap (ob_Details obs)) "") in A7.
  apply (validateProviderDetailValue_None (VMap ((key, VNil) :: ob_Details obs)) "").
  pose proof (proj1 (check_entries_None _ _) A7) as Hall.
  refine (proj2 (check_entries_None _ _) _). intros k x Hx.
  apply elem_of_cons in Hx as [[= -> ->]|Hin]; [done|by apply Hall].
Qed.

(** C39. What ProviderEvent accepts, exactly.  The plugin id is valid, the
    generation and the three ids are given, the six free texts are blank or free
    of control characters, secret markers and private paths, the duration is not
    negative, component, event and status belong together, every text at any
    depth of the details is free of markers and private paths, and every key in
    them is free of markers; the event then carries exactly the observation,
    and anything else is an error.  That is less than docs/implementation-spec.md
    asks for: the level is not checked at all, and a key of the details may be
    a private path. *)
Theorem ProviderEvent_spec obs :
  (∀ ev, ProviderEvent obs = Ok ev ↔ acceptable obs ∧ ev = observation_event obs (ob_Details obs))
  ∧ (acceptable obs → ∀ level, ∃ ev, ProviderEvent (with_level level obs) = Ok ev)
  ∧ (acceptable obs → ∀ key, harmless key → ∃ ev, ProviderEvent (with_detail key VNil obs) = Ok ev).
Proof.
  split; [intros ev; apply ProviderEvent_acceptable|]. split.
  - intros Ho level. eexists. apply ProviderEvent_acceptable. split; [by apply acceptable_level|done].
  - intros Ho key Hk. eexists. apply ProviderEvent_acceptable. split; [by apply acceptable_key|done].
Qed.
End Facts.

#[local] Existing Instance ascii_tables.

Lemma UnsafeProviderText_spellings_witness :
  spells "Client SECRET" "client_secret" ∧ UnsafeProviderText "the Client SECRET is x" = true.
Proof.
  assert (spells "Client SECRET" "client_secret") as Hs by (split; vm_compute; reflexivity).
  assert ("client_secret" ∈ unsafeDetailMarkers) as Hm
    by (apply (bool_decide_unpack _); vm_compute; exact I).
  split; [exact Hs|].
  exact (UnsafeProviderText_spellings "client_secret" "Client SECRET" "the " " is x" Hm Hs).
Defined.

Definition demo_observation (details : list (string * Value)) : ProviderObservation :=
  mkObservation "" ComponentProviderBoundary EventProviderOperationSucceeded "echo" 3 "cap" "op" "c-1"
    ProviderStatusSucceeded 12 "" "" "done" details.

Example accepted : ∃ ev, ProviderEvent (demo_observation [("count", VInt 2)]) = Ok ev ∧ ev_Level ev = "info".
Proof. eexists. by split; [vm_compute; reflexivity|]. Qed.

(** The theorem at an observation whose level is a credential, and one of whose
    keys is a private path. *)
Lemma ProviderEvent_spec_witness :
  (∃ ev, ProviderEvent (with_level "Bearer abc123" (demo_observation [])) = Ok ev)
  ∧ ∃ ev, ProviderEvent (with_detail "/home/alice/key.pem" VNil (demo_observation [])) = Ok ev.
Proof.
  destruct (ProviderEvent_spec (demo_observation [])) as (Hspec & Hlevel & Hkey).
  assert (ProviderEvent (demo_observation []) = Ok (observation_event (demo_observation []) [])) as E
    by (vm_compute; reflexivity).
  apply Hspec in E as [Ho _]. split; [exact (Hlevel Ho "Bearer abc123")|].
  apply (Hkey Ho). apply UnsafeProviderText_false. vm_compute. reflexivity.
Defined.

Example deep_secret :
  ProviderEvent (demo_observation [("a", VList [VMap [("Api.Key", VInt 2)]])])
  = Err (errors_New ("unsafe provider detail key " +:+ Quote "Api.Key")).
Proof. vm_compute. reflexivity. Qed.
