(* ===== verification/LogRead.v ===== *)
(** * Reading the event log (src/internal/eventlog/read.go)

    Decoding a log and its rotated backups, filtering, counting, and rendering
    events for an operator.  An opened file is what its reader delivers: its
    bytes, then end of file or an error.  The decoder (encoding/json) and the
    rendering of a time (time.Format) are parameters. *)

From S2P Require Import Prelude Prog GoText GoPath Bundle EventLog Provider.

(** ** Data *)

Record Filters : Type := mkFilters {
  fl_Level : string;
  fl_Component : string;
  fl_Event : string;
  fl_PluginID : string;
  fl_GenerationID : Z;
  fl_Method : string;
  fl_CapabilityID : string;
  fl_OperationID : string;
  fl_CorrelationID : string;
  fl_Limit : Z;
  fl_Since : time;
  fl_Reverse : bool;
}.

Definition filters0 : Filters := mkFilters "" "" "" "" 0 "" "" "" "" 0 0 false.

Record Summary : Type := mkSummary {
  Total : Z;
  ByLevel : gmap string Z;
  ByEvent : gmap string Z;
  ByComponent : gmap string Z;
}.

(** A file behind a bufio.Reader: what is left, and how it ends. *)
Record reader : Type := mkReader { rd_rest : string; rd_failure : option error }.

Inductive readE : Type → Type :=
| RStat (path : string) : readE (option error)
| ROpen (path : string) : readE (result reader).

(** ** Selecting events *)

(** [filters.X != "" && event.X != filters.X] *)
Definition differs (want got : string) : bool :=
  negb (bool_decide (want = "")) && negb (bool_decide (got = want)).

Definition match_event (event : Event) (filters : Filters) : bool :=
  if differs (fl_Level filters) (ev_Level event) then false
  else if differs (fl_Component filters) (ev_Component event) then false
  else if differs (fl_Event filters) (ev_Event event) then false
  else if differs (fl_PluginID filters) (ev_PluginID event) then false
  else if negb (fl_GenerationID filters =? 0) && negb (ev_GenerationID event =? fl_GenerationID filters)
  then false
  else if differs (fl_Method filters) (ev_Method event) then false
  else if differs (fl_CapabilityID filters) (ev_CapabilityID event) then false
  else if differs (fl_OperationID filters) (ev_OperationID event) then false
  else if differs (fl_CorrelationID filters) (ev_CorrelationID event) then false
  else if negb (time_IsZero (fl_Since filters)) && (ev_Time event <? fl_Since filters) then false
  else true.

(** The two-index loop of reverse, swapping in place. *)
Fixpoint reverse_loop (fuel : nat) (i j : Z) (events : list Event) : list Event :=
  match fuel with
  | O => events
  | S fuel' =>
      if i <? j then
        match events !! Z.to_nat i, events !! Z.to_nat j with
        | Some a, Some b =>
            reverse_loop fuel' (i + 1) (j - 1) (<[Z.to_nat j := a]> (<[Z.to_nat i := b]> events))
        | _, _ => events
        end
      else events
  end.

Definition reverse_events (events : list Event) : list Event :=
  reverse_loop (length events) 0 (Z.of_nat (length events) - 1) events.

(** ** Reading *)

(** [reader.ReadBytes('\n')]: the line with its delimiter, or what is left
    with the end of file or the error. *)
Inductive read_end : Type := NoError | AtEOF | ReadFailed (e : error).

Fixpoint read_bytes (s : string) (failure : option error) : string * read_end * string :=
  match s with
  | "" => ("", match failure with None => AtEOF | Some e => ReadFailed e end, "")
  | String c rest =>
      if bool_decide (c = byte_of 0x0A) then (String c "", NoError, rest)
      else let '(line, err, unread) := read_bytes rest failure in (String c line, err, unread)
  end.

(** bytes.TrimRight(line, "\r\n") *)
Definition end_of_line (c : ascii) : bool := bool_decide (c = byte_of 0x0D ∨ c = byte_of 0x0A).
Fixpoint trim_right (s : string) : string :=
  match s with
  | "" => ""
  | String c rest =>
      let rest := trim_right rest in
      if bool_decide (rest = "") && end_of_line c then "" else String c rest
  end.

Section Reading.
Variable jsonUnmarshal : string → result Event.

Definition read_position (path : string) (lineNo : Z) : string := path +:+ ":" +:+ Itoa lineNo.

(** The loop of readOne; [None] when the fuel runs out. *)
Fixpoint read_loop (fuel : nat) (path : string) (filters : Filters) (r : reader) (lineNo : Z)
    (events : list Event) : option (result (list Event)) :=
  match fuel with
  | O => None
  | S fuel' =>
      let '(line, err, unread) := read_bytes (rd_rest r) (rd_failure r) in
      match err, line with
      | AtEOF, "" => Some (Ok events)
      | ReadFailed e, _ =>
          Some (Err (errors_Wrap ("read event log " +:+ read_position path (lineNo + 1)) e))
      | _, _ =>
          match jsonUnmarshal (trim_right line) with
          | Err e => Some (Err (errors_Wrap ("decode event log " +:+ read_position path (lineNo + 1)) e))
          | Ok event =>
              let next := mkReader unread (rd_failure r) in
              if negb (match_event event filters) then
                read_loop fuel' path filters next (lineNo + 1) events
              else
                let events := events ++ [event] in
                match err with
                | AtEOF => Some (Ok events)
                | _ => read_loop fuel' path filters next (lineNo + 1) events
                end
          end
      end
  end.

(** Every round but the last consumes a byte. *)
Definition read_fuel (r : reader) : nat := S (String.length (rd_rest r)).

Definition out_of_fuel : error := errors_New "out of fuel".

Definition readOne (path : string) (filters : Filters) : prog readE (result (list Event)) :=
  file ← trigger (ROpen path);
  match file with
  | Err e => Ret (Err (errors_Wrap "open event log" e))
  | Ok r => Ret (default (Err out_of_fuel) (read_loop (read_fuel r) path filters r 0 []))
  end.

(** The loop of existingLogPaths, [i] counting down from DefaultMaxBackups. *)
Fixpoint existing_backups (path : string) (i : nat) : prog readE (list string) :=
  match i with
  | O => Ret []
  | S i' =>
      let p := backupPath path (Z.of_nat i) in
      st ← trigger (RStat p);
      rest ← existing_backups path i';
      Ret (match st with None => p :: rest | Some _ => rest end)
  end.

Definition os_ErrNotExist : error := mkError "file does not exist" [ErrNotExist].

Definition existingLogPaths (path : string) : prog readE (result (list string)) :=
  backups ← existing_backups path (Z.to_nat DefaultMaxBackups);
  st ← trigger (RStat path);
  let paths := backups ++ match st with None => [path] | Some _ => [] end in
  match paths with
  | [] => Ret (Err (errors_Wrap "open event log" os_ErrNotExist))
  | _ => Ret (Ok paths)
  end.

(** The loop of ReadAll over the paths. *)
Fixpoint read_paths (paths : list string) (filters : Filters) (events : list Event)
  : prog readE (result (list Event)) :=
  match paths with
  | [] => Ret (Ok events)
  | p :: rest =>
      batch ← readOne p filters;
      match batch with
      | Err e => Ret (Err e)
      | Ok batch => read_paths rest filters (events ++ batch)
      end
  end.

(** Order and limit. *)
Definition arrange (filters : Filters) (events : list Event) : list Event :=
  let events := if fl_Reverse filters then reverse_events events else events in
  if (0 <? fl_Limit filters) && (fl_Limit filters <? Z.of_nat (length events))
  then take (Z.to_nat (fl_Limit filters)) events else events.

Definition ReadAll (path : string) (filters : Filters) : prog readE (result (list Event)) :=
  paths ← existingLogPaths path;
  match paths with
  | Err e => Ret (Err e)
  | Ok paths =>
      events ← read_paths paths filters [];
      match events with
      | Err e => Ret (Err e)
      | Ok events => Ret (Ok (arrange filters events))
      end
  end.
End Reading.

(** ** Counting *)

Definition increment (key : string) (m : gmap string Z) : gmap string Z :=
  <[key := default 0 (m !! key) + 1]> m.

Definition count_event (summary : Summary) (event : Event) : Summary :=
  mkSummary (Total summary) (increment (ev_Level event) (ByLevel summary))
    (increment (ev_Event event) (ByEvent summary)) (increment (ev_Component event) (ByComponent summary)).

Definition Summarize (events : list Event) : Summary :=
  foldl count_event (mkSummary (Z.of_nat (length events)) ∅ ∅ ∅) events.

(** ** Display *)
Section Display.
Context `{UnicodeTables}.

Definition provider_events : list string :=
  boundary_events ++ [EventProviderDiagnosticReported; EventProviderDiagnosticRejected].

Definition isProviderObservationEvent (event : Event) : bool :=
  if bool_decide (ev_Component event ∈ [ComponentProviderBoundary; ComponentProviderDiagnostic]) then true
  else bool_decide (ev_Event event ∈ provider_events).

Definition redact (value : string) : string :=
  if bool_decide (value = "") then ""
  else if UnsafeProviderText value || looksLikeProviderPrivatePath value then ProviderRedactedValue
  else value.

Definition redact_details (details : list (string * Value)) : list (string * Value) :=
  match details with
  | [] => details
  | _ => match safeProviderDetails details with
         | Ok details => details
         | Err _ => [("redacted", VBool true)]
         end
  end.

Definition RedactForDisplay (event : Event) : Event :=
  if negb (isProviderObservationEvent event) then event
  else {| event with
          ev_SocketPath := redact (ev_SocketPath event);
          ev_CapabilityID := redact (ev_CapabilityID event);
          ev_OperationID := redact (ev_OperationID event);
          ev_CorrelationID := redact (ev_CorrelationID event);
          ev_ErrorClass := redact (ev_ErrorClass event);
          ev_DegradedReason := redact (ev_DegradedReason event);
          ev_Message := redact (ev_Message event);
          ev_Error := redact (ev_Error event);
          ev_Reason := redact (ev_Reason event);
          ev_Details := redact_details (ev_Details event) |}.

(** The layout 2006-01-02 15:04:05Z07:00 *)
Variable format_time : time → string.

Definition part (prefix value : string) : list string :=
  if bool_decide (value = "") then [] else [prefix +:+ value].
Definition number_part (prefix : string) (value : Z) : list string :=
  if value =? 0 then [] else [prefix +:+ Itoa value].

Definition text_parts (event : Event) : list string :=
  [format_time (ev_Time event); "[" +:+ ToUpper (ev_Level event) +:+ "]"]
  ++ part "" (ev_Component event) ++ part "" (ev_Event event)
  ++ part "plugin=" (ev_PluginID event) ++ number_part "gen=" (ev_GenerationID event)
  ++ number_part "pid=" (ev_PID event) ++ part "method=" (ev_Method event)
  ++ part "capability=" (ev_CapabilityID event) ++ part "operation=" (ev_OperationID event)
  ++ part "correlation=" (ev_CorrelationID event) ++ part "status=" (ev_Status event)
  ++ number_part "duration_ms=" (ev_DurationMS event) ++ part "error_class=" (ev_ErrorClass event)
  ++ part "degraded_reason=" (ev_DegradedReason event) ++ part "" (ev_Message event)
  ++ part "reason=" (ev_Reason event) ++ part "error=" (ev_Error event).

Definition FormatText (event : Event) : string := Join (text_parts (RedactForDisplay event)) " | ".
End Display.
