(* ===== verification/LogReadFacts.v ===== *)
(** * What reading the log gives back

    The reader of the log is related to its writer: over a file system that
    answers truthfully, ReadAll returns the events of the history that
    EventLogFacts proves Write to extend. *)

From S2P Require Import Prelude Prog GoText GoPath Bundle EventLog EventLogFacts Provider ProviderFacts LogRead.

(** ** The in-place reversal *)

Lemma reverse_loop_spec fuel pre mid post :
  (length mid <= fuel)%nat →
  reverse_loop fuel (Z.of_nat (length pre)) (Z.of_nat (length pre + length mid) - 1) (pre ++ mid ++ post)
  = pre ++ reverse mid ++ post.
Proof.
  revert pre mid post. induction fuel as [|fuel IH]; intros pre mid post Hf.
  { by destruct mid; [|simpl in Hf; lia]. }
  cbn [reverse_loop]. destruct (Z.ltb_spec (Z.of_nat (length pre)) (Z.of_nat (length pre + length mid) - 1)) as [Hlt|Hge].
  - destruct mid as [|a mid]; [simpl in Hlt; lia|].
    destruct mid as [|b mid _] using rev_ind; [simpl in Hlt; lia|].
    rewrite Nat2Z.id.
    assert (Z.to_nat (Z.of_nat (length pre + length (a :: mid ++ [b])) - 1) = length pre + S (length mid))%nat as ->
      by (simpl; rewrite length_app; simpl; lia).
    assert (pre ++ (a :: mid ++ [b]) ++ post = (pre ++ a :: mid) ++ b :: post) as E
      by (simpl; rewrite <- !app_assoc; done).
    assert ((pre ++ (a :: mid ++ [b]) ++ post) !! length pre = Some a) as ->
      by exact (list_lookup_middle pre ((mid ++ [b]) ++ post) a _ eq_refl).
    assert ((pre ++ (a :: mid ++ [b]) ++ post) !! (length pre + S (length mid))%nat = Some b) as ->
      by (rewrite E; apply list_lookup_middle; rewrite length_app; simpl; lia).
    assert (<[(length pre + S (length mid))%nat := a]> (<[length pre := b]> (pre ++ (a :: mid ++ [b]) ++ post))
      = (pre ++ [b]) ++ mid ++ (a :: post)) as ->.
    { simpl. replace (length pre) with (length pre + 0)%nat at 2 by lia. rewrite insert_app_r. simpl.
      rewrite insert_app_r. simpl. rewrite <- app_assoc. simpl.
      replace (length mid) with (length mid + 0)%nat by lia.
      rewrite insert_app_r. simpl. by rewrite <- app_assoc. }
    replace (Z.of_nat (length pre) + 1) with (Z.of_nat (length (pre ++ [b])))
      by (rewrite length_app; simpl; lia).
    replace (Z.of_nat (length pre + length (a :: mid ++ [b])) - 1 - 1)
      with (Z.of_nat (length (pre ++ [b]) + length mid) - 1)
      by (rewrite length_app; simpl; rewrite length_app; simpl; lia).
    rewrite IH by (simpl in Hf; rewrite length_app in Hf; simpl in Hf; lia).
    rewrite <- app_assoc. f_equal. rewrite reverse_cons, reverse_app. simpl. by rewrite <- !app_assoc.
  - destruct mid as [|a [|b mid]]; [done|done|simpl in Hge; lia].
Qed.

Lemma reverse_events_spec events : reverse_events events = reverse events.
Proof.
  unfold reverse_events. pose proof (reverse_loop_spec (length events) [] events [] ltac:(lia)) as Hr.
  simpl in Hr. by rewrite !app_nil_r in Hr.
Qed.

(** ** Lines *)

Lemma byte_newline_neq c : bool_decide (c = byte_of 0x0A) = false ↔ c ≠ byte_of 0x0A.
Proof. apply bool_decide_eq_false. Qed.

Definition one_line (s : string) : bool := string_forallb (λ c, negb (end_of_line c)) s.

Lemma read_bytes_line p s f :
  one_line p = true → read_bytes (p +:+ newline +:+ s) f = (p +:+ newline, NoError, s).
Proof.
  unfold one_line. induction p as [|c p IH]; [done|]. cbn [string_forallb]. rewrite andb_true_iff, negb_true_iff.
  intros [Hc Hp]. unfold end_of_line in Hc. rewrite bool_decide_eq_false in Hc.
  rewrite !sapp_cons. cbn [read_bytes]. rewrite bool_decide_eq_false_2 by tauto. by rewrite IH.
Qed.

Lemma trim_right_line p : one_line p = true → trim_right (p +:+ newline) = p.
Proof.
  unfold one_line. induction p as [|c p IH]; [done|]. cbn [string_forallb]. rewrite andb_true_iff, negb_true_iff.
  intros [Hc Hp]. rewrite sapp_cons. cbn [trim_right]. by rewrite IH, Hc, andb_false_r.
Qed.

(** Every call consumes a byte until the end. *)
Lemma read_bytes_unread s f line err unread :
  read_bytes s f = (line, err, unread) →
  String.length unread = (String.length s - String.length line)%nat
  ∧ (String.length line <= String.length s)%nat
  ∧ (err = NoError → line ≠ "") ∧ (err ≠ NoError → unread = "").
Proof.
  revert line err unread. induction s as [|c s IH]; intros line err unread; simpl.
  - destruct f; intros [= <- <- <-]; by split_and!.
  - case_bool_decide; [intros [= <- <- <-]; simpl; split_and!; [lia..|done|done]|].
    destruct (read_bytes s f) as [[l1 e1] u1] eqn:E. intros [= <- <- <-].
    destruct (IH _ _ _ eq_refl) as (H1 & H2 & H3 & H4). simpl. split_and!; [lia|lia|done|done].
Qed.

Section Reading.
Variable jsonUnmarshal : string → result Event.

Notation read_loop := (read_loop jsonUnmarshal).

(** The fuel of readOne is enough for every file and every way it may end. *)
Lemma read_loop_fuel path filters fuel r lineNo events :
  (String.length (rd_rest r) < fuel)%nat → read_loop fuel path filters r lineNo events ≠ None.
Proof.
  revert r lineNo events. induction fuel as [|fuel IH]; intros r lineNo events Hf; [lia|].
  cbn [LogRead.read_loop]. destruct (read_bytes (rd_rest r) (rd_failure r)) as [[line err] unread] eqn:E.
  destruct (read_bytes_unread _ _ _ _ _ E) as (H1 & H2 & H3 & H4).
  assert (∀ n evs, (line ≠ "" → read_loop fuel path filters (mkReader unread (rd_failure r)) n evs ≠ None)) as Hnext.
  { intros n evs Hne. apply IH. simpl. destruct line; [done|]. simpl in *. lia. }
  assert (line ≠ "" → match jsonUnmarshal (trim_right line) with
    | Err e => Some (Err (errors_Wrap ("decode event log " +:+ read_position path (lineNo + 1)) e))
    | Ok event => if negb (match_event event filters)
        then read_loop fuel path filters (mkReader unread (rd_failure r)) (lineNo + 1) events
        else match err with
             | AtEOF => Some (Ok (events ++ [event]))
             | _ => read_loop fuel path filters (mkReader unread (rd_failure r)) (lineNo + 1) (events ++ [event])
             end
    end ≠ None) as Hline.
  { intros Hne. destruct (jsonUnmarshal _) as [ev|e]; [|done]. destruct (negb _); [by apply Hnext|].
    destruct err; [by apply Hnext|done|by apply Hnext]. }
  destruct err; [by apply Hline; apply H3|destruct line; [done|by apply Hline]|done].
Qed.

(** [decodes s evs]: [s] is complete lines, which decode to [evs]. *)
Inductive decodes : string → list Event → Prop :=
| decodes_nil : decodes "" []
| decodes_line p ev s evs :
    one_line p = true → jsonUnmarshal p = Ok ev → decodes s evs →
    decodes (p +:+ newline +:+ s) (ev :: evs).

Lemma decodes_single p ev : one_line p = true → jsonUnmarshal p = Ok ev → decodes (p +:+ newline) [ev].
Proof.
  intros H1 H2. replace (p +:+ newline) with (p +:+ newline +:+ "") by (by rewrite sapp_nil_r).
  constructor; [done..|constructor].
Qed.

Lemma decodes_app a b ea eb : decodes a ea → decodes b eb → decodes (a +:+ b) (ea ++ eb).
Proof.
  induction 1 as [|p ev s evs Hp Hev _ IH]; [done|]. intros Hb. rewrite !sapp_assoc. simpl.
  constructor; auto.
Qed.

Lemma line_inj p q s t :
  one_line p = true → one_line q = true → p +:+ newline +:+ s = q +:+ newline +:+ t → p = q ∧ s = t.
Proof.
  intros Hp Hq E. pose proof (read_bytes_line p s None Hp) as H1. rewrite E, read_bytes_line in H1 by done.
  injection H1 as E1 ->. split; [|done]. by apply sapp_inj_r in E1.
Qed.

Lemma decodes_split a b ea e :
  decodes a ea → decodes (a +:+ b) e → ∃ eb, e = ea ++ eb ∧ decodes b eb.
Proof.
  intros Ha. revert e. induction Ha as [|p ev s evs Hp Hev _ IH]; intros e He; [by exists e|].
  rewrite !sapp_assoc in He. inversion He as [Enil|q ev' s' evs' Hq Hev' Hs' E].
  - by destruct p.
  - subst. apply line_inj in E as [-> ->]; [|done..]. rewrite Hev in Hev'. injection Hev' as <-.
    destruct (IH _ Hs') as (eb & -> & Hb). by exists eb.
Qed.

Lemma decodes_inj s e1 e2 : decodes s e1 → decodes s e2 → e1 = e2.
Proof.
  intros H1 H2. rewrite <- (sapp_nil_r s) in H2. destruct (decodes_split _ _ _ _ H1 H2) as (eb & -> & Hb).
  inversion Hb as [|p]; [by rewrite app_nil_r|]. by destruct p.
Qed.

Lemma read_loop_decodes path filters s evs fuel lineNo events :
  decodes s evs → (length evs < fuel)%nat →
  read_loop fuel path filters (mkReader s None) lineNo events
  = Some (Ok (events ++ filter (λ ev, match_event ev filters = true) evs)).
Proof.
  intros Hd. revert fuel lineNo events. induction Hd as [|p ev s evs Hp Hev _ IH]; intros fuel lineNo events Hf.
  - destruct fuel; [lia|]. simpl. by rewrite app_nil_r.
  - destruct fuel as [|fuel]; [lia|]. simpl in Hf. cbn [LogRead.read_loop rd_rest rd_failure].
    rewrite read_bytes_line, trim_right_line, Hev by done.
    destruct (match_event ev filters) eqn:Hm; cbn [negb].
    + rewrite IH by lia. rewrite filter_cons_True by done. by rewrite <- app_assoc.
    + rewrite IH by lia. rewrite filter_cons_False by (by rewrite Hm). done.
Qed.

Lemma decodes_length s evs : decodes s evs → (length evs <= String.length s)%nat.
Proof.
  induction 1 as [|p ev s evs _ _ _ IH]; simpl; [lia|]. rewrite !slength_app. simpl. lia.
Qed.

(** ** A file system that answers truthfully *)
Definition read_step (X : Type) (e : readE X) : logfs → X → logfs → Prop :=
  match e in readE X return logfs → X → logfs → Prop with
  | RStat p => λ fs x fs', fs' = fs ∧ (x = None ↔ content fs p ≠ None)
  | ROpen p => λ fs x fs', fs' = fs ∧ ∀ c, content fs p = Some c → x = Ok (mkReader c None)
  end.

Notation wp := (wp read_step).

Section Log.
Variable l : Logger.
Let path := lg_path l.
Implicit Types fs : logfs.

(** Every file of the log holds complete, decodable lines: [evs i] are the
    events of the i-th backup, [evs 0] those of the log itself. *)
Definition log_ok fs (n : nat) (evs : nat → list Event) : Prop :=
  ∀ i, (i <= n)%nat → decodes (default "" (content fs (slot l i))) (evs i).

(** The events of the backups from [n] down, then of the log. *)
Fixpoint events_from (evs : nat → list Event) (n : nat) : list Event :=
  evs n ++ match n with O => [] | S n' => events_from evs n' end.

Lemma history_decodes fs n evs : log_ok fs n evs → decodes (history l fs n) (events_from evs n).
Proof.
  intros Hok. induction n as [|n IH].
  - cbn [history events_from]. apply decodes_app; [by apply Hok|constructor].
  - cbn [history events_from]. apply decodes_app; [by apply Hok|]. apply IH. intros i Hi. apply Hok. lia.
Qed.

(** The events selected from the slots listed. *)
Definition chosen (filters : Filters) (evs : nat → list Event) (slots : list nat) : list Event :=
  filter (λ ev, match_event ev filters = true) (slots ≫= evs).

Lemma readOne_spec filters fs n evs i Q :
  log_ok fs n evs → (i <= n)%nat → content fs (slot l i) ≠ None →
  Q (Ok (chosen filters evs [i])) fs →
  wp (readOne jsonUnmarshal (slot l i) filters) Q fs.
Proof.
  intros Hok Hi Hc HQ. unfold readOne. apply wp_trigger_seq. intros x fs' [-> Hx].
  specialize (Hok i Hi). destruct (content fs (slot l i)) as [c|] eqn:E; [|done]. rewrite (Hx c eq_refl).
  simpl in Hok. cbv beta iota. unfold read_fuel. cbn [rd_rest].
  rewrite (read_loop_decodes _ _ _ _ _ _ _ Hok) by (pose proof (decodes_length _ _ Hok); lia).
  simpl. unfold chosen in HQ. simpl in HQ. by rewrite app_nil_r in HQ.
Qed.

Lemma read_paths_spec filters fs n evs slots acc Q :
  log_ok fs n evs → (∀ i, i ∈ slots → (i <= n)%nat ∧ content fs (slot l i) ≠ None) →
  Q (Ok (acc ++ chosen filters evs slots)) fs →
  wp (read_paths jsonUnmarshal (slot l <$> slots) filters acc) Q fs.
Proof.
  intros Hok. revert acc. induction slots as [|i slots IH]; intros acc Hs HQ.
  { unfold chosen in HQ. simpl in *. by rewrite app_nil_r in HQ. }
  cbn [fmap list_fmap read_paths]. apply wp_bind.
  eapply readOne_spec; [done|apply Hs; by left|apply Hs; by left|].
  apply IH; [intros j Hj; apply Hs; by right|].
  unfold chosen in *. simpl in *. by rewrite app_nil_r, <- app_assoc, <- filter_app.
Qed.

(** The backups that exist, oldest first. *)
Fixpoint present fs (i : nat) : list nat :=
  match i with
  | O => []
  | S i' => (if content fs (slot l i) then [i] else []) ++ present fs i'
  end.

Lemma present_spec fs n i : i ∈ present fs n → (1 <= i <= n)%nat ∧ content fs (slot l i) ≠ None.
Proof.
  induction n as [|n IH]; cbn [present]; [by intros ?%elem_of_nil|].
  intros [Hi|Hi]%elem_of_app; [|destruct (IH Hi); split; [lia|done]].
  destruct (content fs (slot l (S n))) eqn:E; [|by apply elem_of_nil in Hi].
  apply list_elem_of_singleton in Hi. subst i. rewrite E. split; [lia|done].
Qed.

Lemma absent_slots fs n :
  present fs n ++ (if content fs (slot l 0) then [0%nat] else []) = [] →
  ∀ i, (i <= n)%nat → content fs (slot l i) = None.
Proof.
  intros [Hp H0]%app_nil. induction n as [|n IH]; intros i Hi.
  - assert (i = 0%nat) as -> by lia. by destruct (content fs (slot l 0)).
  - cbn [present] in Hp. apply app_nil in Hp as [H1 H2].
    destruct (decide (i = S n)) as [->|Hne]; [by destruct (content fs (slot l (S n)))|].
    apply IH; [done|lia].
Qed.

Lemma existing_backups_spec fs n Q :
  Q (slot l <$> present fs n) fs → wp (existing_backups path n) Q fs.
Proof.
  revert Q. induction n as [|n IH]; intros Q HQ; [done|]. cbn [existing_backups].
  apply wp_trigger_seq. intros x fs' [-> Hx]. apply wp_bind, IH.
  cbn [present] in HQ. rewrite fmap_app in HQ. change (backupPath path (Z.of_nat (S n))) with (slot l (S n)) in *.
  destruct (content fs (slot l (S n))) eqn:E.
  - assert (x = None) as -> by (apply Hx; congruence). exact HQ.
  - destruct x; [exact HQ|]. assert (None = None :> option error) as Hn%Hx by done. done.
Qed.

(** Absent files hold no events. *)
Lemma present_events fs n evs :
  log_ok fs n evs →
  (present fs n ++ (if content fs (slot l 0) then [0%nat] else [])) ≫= evs = events_from evs n.
Proof.
  intros Hok.
  assert (∀ i, (i <= n)%nat → content fs (slot l i) = None → evs i = []) as Habs.
  { intros i Hi E. specialize (Hok i Hi). rewrite E in Hok. simpl in Hok.
    symmetry. eapply decodes_inj; [|exact Hok]. constructor. }
  assert (∀ m, (m <= n)%nat →
    (present fs m ++ (if content fs (slot l 0) then [0%nat] else [])) ≫= evs = events_from evs m) as Hall.
  { induction m as [|m IH]; intros Hm.
    - cbn [present events_from app]. destruct (content fs (slot l 0)) eqn:E; [done|].
      by rewrite (Habs 0%nat) by (done || lia).
    - cbn [present events_from]. rewrite <- app_assoc, bind_app, IH by lia. f_equal.
      destruct (content fs (slot l (S m))) eqn:E; [simpl; by rewrite app_nil_r|].
      by rewrite (Habs (S m)) by (done || lia). }
  by apply Hall.
Qed.

(** ReadAll's selection, in one line each: filter, order, limit. *)
Definition select (filters : Filters) (events : list Event) : list Event :=
  let found := filter (λ ev, match_event ev filters = true) events in
  let ordered := if fl_Reverse filters then reverse found else found in
  if 0 <? fl_Limit filters then take (Z.to_nat (fl_Limit filters)) ordered else ordered.

Lemma arrange_select filters events :
  arrange filters (filter (λ ev, match_event ev filters = true) events) = select filters events.
Proof.
  unfold arrange, select. rewrite reverse_events_spec. set (ordered := if fl_Reverse filters then _ else _).
  destruct (Z.ltb_spec 0 (fl_Limit filters)) as [H0|H0]; [|done]. cbn [andb].
  destruct (Z.ltb_spec (fl_Limit filters) (Z.of_nat (length ordered))) as [H1|H1]; [done|].
  by rewrite take_ge by lia.
Qed.

Lemma ReadAll_spec filters fs evs :
  log_ok fs 5 evs →
  wp (ReadAll jsonUnmarshal path filters) (λ r fs', fs' = fs ∧
    ((∃ i, (i <= 5)%nat ∧ content fs (slot l i) ≠ None) ∧ r = Ok (select filters (events_from evs 5))
     ∨ (∀ i, (i <= 5)%nat → content fs (slot l i) = None)
       ∧ ∃ e, r = Err e ∧ errors_Is e ErrNotExist = true)) fs.
Proof.
  intros Hok. unfold ReadAll, existingLogPaths. apply wp_bind, wp_bind.
  change (Z.to_nat DefaultMaxBackups) with 5%nat. apply existing_backups_spec.
  apply wp_trigger_seq. intros x fs' [-> Hx]. change path with (slot l 0) in Hx |- *.
  set (slots := present fs 5 ++ if content fs (slot l 0) then [0%nat] else []).
  assert ((slot l <$> present fs 5) ++ match x with None => [slot l 0] | Some _ => [] end = slot l <$> slots) as ->.
  { unfold slots. rewrite fmap_app. f_equal. destruct (content fs (slot l 0)) eqn:E.
    - assert (x = None) as -> by (by apply Hx). done.
    - destruct x; [done|]. by destruct (proj1 Hx eq_refl). }
  assert (∀ i, i ∈ slots → (i <= 5)%nat ∧ content fs (slot l i) ≠ None) as Hs.
  { intros i [Hi|Hi]%elem_of_app; [apply present_spec in Hi as [? ?]; split; [lia|done]|].
    destruct (content fs (slot l 0)) eqn:E; [|by apply elem_of_nil in Hi].
    apply list_elem_of_singleton in Hi as ->. split; [lia|congruence]. }
  pose proof (present_events fs 5 evs Hok) as Hev. fold slots in Hev.
  assert (slots = [] → ∀ i, (i <= 5)%nat → content fs (slot l i) = None) as Hnil by apply absent_slots.
  clearbody slots. destruct slots as [|i slots].
  - split; [done|]. right. split; [by apply Hnil|]. eexists. split; [done|]. done.
  - destruct (Hs i) as [Hi Hc]; [by left|].
    apply wp_bind. apply (read_paths_spec filters fs 5 evs (i :: slots)); [done|done|]. split; [done|]. left.
    split; [by exists i|]. rewrite app_nil_l. unfold chosen. by rewrite Hev, arrange_select.
Qed.

(** ReadAll is the selection it is documented to be.  On a log whose files
    hold complete, decodable lines it returns the events of the backups from
    the oldest to the newest and then of the log, filtered, reversed on
    request and cut to the limit, whatever files are missing, and changes
    nothing; when there is no file at all it fails with os.ErrNotExist. *)
Theorem ReadAll_selects filters fs evs :
  log_ok fs 5 evs →
  wp (ReadAll jsonUnmarshal path filters) (λ r fs', fs' = fs ∧
    ((∃ i, (i <= 5)%nat ∧ content fs (slot l i) ≠ None) ∧ r = Ok (select filters (events_from evs 5))
     ∨ (∀ i, (i <= 5)%nat → content fs (slot l i) = None)
       ∧ ∃ e, r = Err e ∧ errors_Is e ErrNotExist = true)) fs.
Proof. exact (ReadAll_spec filters fs evs). Qed.

Lemma filter_unfiltered (events : list Event) : filter (λ ev, match_event ev filters0 = true) events = events.
Proof. induction events as [|ev events IH]; [done|]. by rewrite filter_cons_True, IH. Qed.

(** ** Writing, then reading *)

(** What a Write of [event] puts into the log: the event with its time and level
    filled in, and the events of rotations. *)
Definition written (event ev : Event) : Prop :=
  (∃ now, ev = fill_defaults event now) ∨ ∃ t, ev = rotationEvent l t.

(** The codec writes one line for each event that is written, which reads back
    as what it stores. *)
Variable jsonMarshal : Event → result string.
Variable stored : Event → Event.
Variable event : Event.
Hypothesis codec : ∀ ev p, written event ev → jsonMarshal ev = Ok p →
  one_line p = true ∧ jsonUnmarshal p = Ok (stored ev).
Hypothesis five : lg_maxBackups l = 5.

Lemma some_backups : 1 <= lg_maxBackups l.
Proof. rewrite five. lia. Qed.

Definition update (evs : nat → list Event) (new : list Event) (i : nat) : list Event :=
  if decide (i = 0%nat) then evs 0%nat ++ new else evs i.

Lemma events_from_update evs new n : events_from (update evs new) n = events_from evs n ++ new.
Proof.
  induction n as [|n IH]; cbn [events_from].
  - unfold update. simpl. by rewrite !app_nil_r.
  - unfold update at 1. rewrite decide_False by done. by rewrite IH, app_assoc.
Qed.

Lemma append_ok files h evs p ev :
  written event ev → log_ok (mkFs files h) 5 evs → jsonMarshal ev = Ok p →
  log_ok (mkFs (append_to files path (p +:+ newline)) h) 5 (update evs [stored ev]).
Proof.
  intros Hw Hok Hj i Hi. destruct (codec _ _ Hw Hj) as [H1 H2]. specialize (Hok i Hi). unfold content, update in *.
  cbn [fs_files] in *. rewrite lookup_append. case_decide as E; case_decide as E'.
  - subst i. cbn [default from_option id]. apply decodes_app; [done|]. by apply decodes_single.
  - by destruct (slot_ne l some_backups 0 i).
  - by subst.
  - done.
Qed.

(** The slots after a rotation. *)
Definition shift (stuck : bool) (evs : nat → list Event) (head : list Event) (i : nat) : list Event :=
  match i with
  | O => head
  | S i' => if stuck && Nat.eqb i 5 then evs 5%nat else evs i'
  end.

Lemma rotated_ok fs fs1 rot t evs :
  log_ok fs 5 evs → content fs (slot l 0) ≠ None → rotated l fs fs1 (rot +:+ newline) →
  jsonMarshal (rotationEvent l t) = Ok rot →
  ∃ evs1 dropped kept, log_ok fs1 5 evs1
    ∧ events_from evs 5 = dropped ++ kept
    ∧ events_from evs1 5 = kept ++ [stored (rotationEvent l t)]
    ∧ (dropped = [] ∨ dropped = evs 5%nat).
Proof.
  intros Hok Hne (H0 & H1 & H2 & _) Hj. destruct (codec _ _ (or_intror (ex_intro _ t eq_refl)) Hj) as [C1 C2].
  set (head := [stored (rotationEvent l t)]). specialize (H1 Hne). rewrite five in H2.
  assert (∀ j, (2 <= j <= 4)%nat → content fs1 (slot l j) = content fs (slot l (j - 1))) as Hmid.
  { intros j Hj'. destruct (H2 j) as [?|[E _]]; [change (Z.to_nat 5) with 5%nat; lia|done|].
    change (Z.to_nat 5) with 5%nat in E. lia. }
  assert (∀ stuck, content fs1 (slot l 5) = content fs (slot l (if stuck : bool then 5 else 4)) →
    log_ok fs1 5 (shift stuck evs head)) as Hok1.
  { intros stuck E5 i Hi. unfold shift. destruct i as [|i].
    - rewrite H0. by apply decodes_single.
    - destruct (decide (S i = 5)%nat) as [E|Hn].
      + injection E as ->. rewrite E5. destruct stuck; apply Hok; lia.
      + assert (Nat.eqb (S i) 5 = false) as -> by (by apply Nat.eqb_neq). rewrite andb_false_r.
        destruct i as [|i]; [rewrite H1; apply Hok; lia|].
        rewrite Hmid by lia. replace (S (S i) - 1)%nat with (S i) by lia. apply Hok. lia. }
  destruct (H2 5%nat) as [E5|(_ & E4 & E5)]; [change (Z.to_nat 5) with 5%nat; lia| |].
  - exists (shift false evs head), (evs 5%nat), (events_from evs 4). split; [by apply Hok1|].
    split; [done|]. split; [|by right]. simpl. by rewrite <- !app_assoc.
  - exists (shift true evs head), [], (events_from evs 5). split; [by apply Hok1|].
    split; [done|]. split; [|by left].
    assert (evs 4%nat = []) as E.
    { specialize (Hok 4%nat ltac:(lia)). simpl in E4. rewrite E4 in Hok. simpl in Hok.
      eapply decodes_inj; [exact Hok|constructor]. }
    simpl. by rewrite E, <- !app_assoc.
Qed.

(** What a Write that returns nil leaves: such a log again, which holds the
    events that were there but perhaps those of the oldest backup, then perhaps
    a rotation event, then the new event. *)
Lemma Write_keeps fs evs :
  path ≠ "" → fs_handle fs = Some path → content fs (slot l 0) ≠ None → 0 < lg_maxBytes l →
  log_ok fs 5 evs →
  Prog.wp log_step (Write jsonMarshal l event) (λ r fs', r = None →
    ∃ evs' dropped kept rotation now,
      log_ok fs' 5 evs' ∧ content fs' (slot l 0) ≠ None
      ∧ events_from evs 5 = dropped ++ kept
      ∧ (dropped = [] ∧ rotation = []
         ∨ (dropped = [] ∨ dropped = evs 5%nat) ∧ ∃ t, rotation = [stored (rotationEvent l t)])
      ∧ events_from evs' 5 = kept ++ rotation ++ [stored (fill_defaults event now)]) fs.
Proof.
  intros Hp Hh Hne Hmax Hok. eapply wp_mono; [apply Write_spec; rewrite ?five; done|].
  intros r fs' Hr Hnone. destruct (Hr Hnone) as (now & payload & Hj & _ & Hcase).
  assert (written event (fill_defaults event now)) as Hwr by (left; by exists now).
  assert (∀ files h, content (mkFs (append_to files path (payload +:+ newline)) h) (slot l 0) ≠ None) as Hsome.
  { intros files h. unfold content. cbn [fs_files]. rewrite lookup_append, decide_True by done. done. }
  destruct Hcase as [[-> _]|(rot & fs1 & (t & rp & Hrj & ->) & Hrot & ->)].
  - pose proof (append_ok (fs_files fs) (Some path) evs payload _ Hwr ltac:(by rewrite <- Hh; destruct fs) Hj) as Hok'.
    exists (update evs [stored (fill_defaults event now)]), [], (events_from evs 5), [], now.
    split_and!; [done|apply Hsome|done|by left|]. by rewrite events_from_update.
  - destruct (rotated_ok _ _ _ _ _ Hok Hne Hrot Hrj) as (evs1 & dropped & kept & Hok1 & E & E1 & Hd).
    assert (log_ok (mkFs (fs_files fs1) (Some path)) 5 evs1) as Hok2.
    { destruct Hrot as (_ & _ & _ & Hh1). destruct fs1. simpl in *. by subst. }
    pose proof (append_ok (fs_files fs1) (Some path) evs1 payload _ Hwr Hok2 Hj) as Hok'.
    exists (update evs1 [stored (fill_defaults event now)]), dropped, kept,
      [stored (rotationEvent l t)], now.
    split_and!; [done|apply Hsome|done|right; eauto|]. by rewrite events_from_update, E1, <- app_assoc.
Qed.

(** What is written is read.  On a log with the default five backups whose
    files hold complete lines, a Write that returns nil leaves such a log
    again, and reading it without a filter then gives the events that were
    there, in order, followed by the new event: nothing is lost but, when the
    file was full, the events of the oldest backup, and nothing is added but
    the rotation event. *)
Theorem Write_then_ReadAll fs evs :
  path ≠ "" → fs_handle fs = Some path → content fs (slot l 0) ≠ None → 0 < lg_maxBytes l →
  log_ok fs 5 evs →
  Prog.wp log_step (Write jsonMarshal l event) (λ r fs', r = None →
    ∃ evs' dropped kept rotation now,
      log_ok fs' 5 evs'
      ∧ events_from evs 5 = dropped ++ kept
      ∧ (dropped = [] ∧ rotation = []
         ∨ (dropped = [] ∨ dropped = evs 5%nat) ∧ ∃ t, rotation = [stored (rotationEvent l t)])
      ∧ wp (ReadAll jsonUnmarshal path filters0) (λ r' fs'', fs'' = fs'
          ∧ r' = Ok (kept ++ rotation ++ [stored (fill_defaults event now)])) fs') fs.
Proof.
  intros Hp Hh Hne Hmax Hok. eapply wp_mono; [by apply Write_keeps|].
  intros r fs' Hr Hnone. destruct (Hr Hnone) as (evs' & dropped & kept & rotation & now & Hok' & Hc & E & Hrot & E').
  exists evs', dropped, kept, rotation, now. split_and!; [done..|]. eapply wp_mono; [by apply ReadAll_spec|].
  intros r' fs'' [-> [[_ ->]|[Hno _]]]; [|by destruct Hc; apply Hno; lia].
  split; [done|]. unfold select. cbn [fl_Reverse fl_Limit filters0 Z.ltb Z.compare].
  by rewrite filter_unfiltered, E'.
Qed.
End Log.
End Reading.

(** ** Counting *)

(** How many events have [key] as their [f]. *)
Definition occurrences (f : Event → string) (key : string) (events : list Event) : nat :=
  length (filter (λ ev, f ev = key) events).

Lemma increment_fold f key events m :
  foldl (λ m ev, increment (f ev) m) m events !! key
  = if decide (occurrences f key events = 0%nat) then m !! key
    else Some (default 0 (m !! key) + Z.of_nat (occurrences f key events)).
Proof.
  revert m. induction events as [|ev events IH]; intros m; [done|]. cbn [foldl]. rewrite IH. clear IH.
  unfold occurrences, increment. destruct (decide (f ev = key)) as [<-|Hne].
  - rewrite filter_cons_True by done. rewrite lookup_insert_eq. simpl.
    case_decide as E; f_equal; lia.
  - rewrite filter_cons_False by done. by rewrite lookup_insert_ne.
Qed.

Lemma count_fold events s :
  foldl count_event s events
  = mkSummary (Total s) (foldl (λ m ev, increment (ev_Level ev) m) (ByLevel s) events)
      (foldl (λ m ev, increment (ev_Event ev) m) (ByEvent s) events)
      (foldl (λ m ev, increment (ev_Component ev) m) (ByComponent s) events).
Proof. revert s. induction events as [|ev events IH]; intros s; [by destruct s|]. apply IH. Qed.

(** A count, with no entry for what does not occur. *)
Definition counted (n : nat) : option Z := if decide (n = 0%nat) then None else Some (Z.of_nat n).

(** The summary counts exactly: the total is the number of events, and each
    table has an entry for exactly the levels, events and components that
    occur, holding how often they do. *)
Theorem Summarize_counts events key :
  Total (Summarize events) = Z.of_nat (length events)
  ∧ ByLevel (Summarize events) !! key = counted (occurrences ev_Level key events)
  ∧ ByEvent (Summarize events) !! key = counted (occurrences ev_Event key events)
  ∧ ByComponent (Summarize events) !! key = counted (occurrences ev_Component key events).
Proof.
  unfold Summarize. rewrite count_fold. cbn [Total ByLevel ByEvent ByComponent].
  rewrite !increment_fold, !lookup_empty. unfold counted. split_and!; [done|..]; by case_decide.
Qed.

(** ** Display *)
Section Display.
Context `{UnicodeTables}.

Lemma redact_cases value :
  redact value = value ∧ (value = "" ∨ harmless_value value)
  ∨ redact value = ProviderRedactedValue ∧ value ≠ "" ∧ ¬ harmless_value value.
Proof.
  unfold redact. fold (unsafe_value value). case_bool_decide as E; [left; subst; auto|].
  destruct (unsafe_value value) eqn:Hu; [right|left].
  - split_and!; [done..|]. intros Hh%unsafe_value_false. congruence.
  - split; [done|]. right. by apply unsafe_value_false.
Qed.

Lemma redacted_harmless : harmless_value ProviderRedactedValue.
Proof. apply unsafe_value_false. vm_compute. reflexivity. Qed.

Lemma redact_harmless value : redact value = "" ∨ harmless_value (redact value).
Proof. destruct (redact_cases value) as [[-> [?|?]]|[-> _]]; auto using redacted_harmless. Qed.

Lemma redact_fixpoint value : redact (redact value) = redact value.
Proof.
  destruct (redact_harmless value) as [->|Hh]; [done|].
  destruct (redact_cases (redact value)) as [[-> _]|(_ & _ & Hn)]; done.
Qed.

Lemma redact_details_sound details u : inside u (VMap (redact_details details)) → sound u.
Proof.
  revert u. unfold redact_details, safeProviderDetails. destruct details as [|d details].
  - intros u Hu. inversion Hu as [| |? k v m Hin]; subst; [|by apply elem_of_nil in Hin].
    by intros k x ?%elem_of_nil.
  - destruct (check_entries _ _) as [e|] eqn:E.
    + apply (validateProviderDetailValue_None (VMap [("redacted", VBool true)]) ""). vm_compute. reflexivity.
    + exact (proj1 (validateProviderDetailValue_None (VMap (d :: details)) "") E).
Qed.

Lemma redact_details_fixpoint details : redact_details (redact_details details) = redact_details details.
Proof.
  unfold redact_details at 2 3, safeProviderDetails. destruct details as [|d details]; [done|].
  destruct (check_entries _ _) as [e|] eqn:E; [vm_compute; reflexivity|].
  unfold redact_details, safeProviderDetails. by rewrite E.
Qed.

(** The fields an operator must not be shown raw. *)
Definition shown_texts (ev : Event) : list string :=
  [ev_SocketPath ev; ev_CapabilityID ev; ev_OperationID ev; ev_CorrelationID ev; ev_ErrorClass ev;
   ev_DegradedReason ev; ev_Message ev; ev_Error ev; ev_Reason ev].

(** C40. Displaying a provider event leaks nothing from the redacted fields,
    even if the log holds an event that was never validated: each of them is
    empty, unchanged and harmless, or "[redacted]", and every key and text of
    the details, at any depth, is harmless.  Events of other components are
    shown as they are, and redacting twice changes nothing. *)
Theorem RedactForDisplay_safe ev :
  (if isProviderObservationEvent ev
   then (∀ text, text ∈ shown_texts (RedactForDisplay ev) → text = "" ∨ harmless_value text)
     ∧ (∀ u, inside u (VMap (ev_Details (RedactForDisplay ev))) → sound u)
     ∧ ((∀ text, text ∈ shown_texts ev → text = "" ∨ harmless_value text) →
        (∀ u, inside u (VMap (ev_Details ev)) → sound u) → RedactForDisplay ev = ev)
   else RedactForDisplay ev = ev)
  ∧ RedactForDisplay (RedactForDisplay ev) = RedactForDisplay ev.
Proof.
  assert (∀ value, value = "" ∨ harmless_value value → redact value = value) as Hkeep.
  { intros value Hv. destruct (redact_cases value) as [[? _]|(_ & ? & ?)]; tauto. }
  unfold RedactForDisplay. destruct (isProviderObservationEvent ev) eqn:Hp; cbn [negb]; [|by rewrite Hp].
  split; [split_and!|].
  - intros text Hin. unfold shown_texts in Hin. cbn in Hin.
    repeat (apply elem_of_cons in Hin as [->|Hin]; [apply redact_harmless|]). by apply elem_of_nil in Hin.
  - apply redact_details_sound.
  - intros Ht Hd. destruct ev. unfold shown_texts in Ht. cbn in Ht, Hd |- *.
    rewrite !Hkeep by (apply Ht; set_solver). f_equal. unfold redact_details, safeProviderDetails.
    destruct ev_Details as [|d details]; [done|].
    assert (check_entries validateProviderDetailValue (d :: details) = None) as ->; [|done].
    by apply (proj2 (validateProviderDetailValue_None (VMap (d :: details)) "")).
  - match goal with |- context [isProviderObservationEvent ?e] =>
      assert (isProviderObservationEvent e = true) as -> by exact Hp end.
    cbn. by rewrite !redact_fixpoint, redact_details_fixpoint.
Qed.
End Display.

(** ** The theorems on a small log *)

Definition line_marshal (ev : Event) : result string :=
  if one_line (ev_Event ev) then Ok (ev_Event ev) else Err (errors_New "unsupported").
Definition line_stored (ev : Event) : Event := {| event0 with ev_Event := ev_Event ev |}.
Definition line_unmarshal (s : string) : result Event := Ok {| event0 with ev_Event := s |}.

Definition line_log : Logger := mkLogger "/var/log/events.jsonl" 12 5.
Definition line_fs : logfs :=
  mkFs {[ "/var/log/events.jsonl" := "current12" +:+ newline;
          "/var/log/events.2.jsonl" := "older" +:+ newline ]} (Some "/var/log/events.jsonl").
Definition line_evs (i : nat) : list Event :=
  match i with
  | O => [{| event0 with ev_Event := "current12" |}]
  | 2%nat => [{| event0 with ev_Event := "older" |}]
  | _ => []
  end.

Lemma line_codec ev p :
  written line_log demo_event ev →
  line_marshal ev = Ok p → one_line p = true ∧ line_unmarshal p = Ok (line_stored ev).
Proof. intros _. unfold line_marshal. destruct (one_line (ev_Event ev)) eqn:E; [|done]. by intros [= <-]. Qed.

Lemma line_fs_ok : log_ok line_unmarshal line_log line_fs 5 line_evs.
Proof.
  assert (∀ s s' evs, s = s' → decodes line_unmarshal s' evs → decodes line_unmarshal s evs) as Heq
    by (by intros s s' evs ->).
  intros i Hi. do 6 (destruct i as [|i]; [first
    [ eapply Heq; [|constructor]; vm_compute; reflexivity
    | eapply Heq; [|eapply (decodes_single _ "current12")]; vm_compute; reflexivity
    | eapply Heq; [|eapply (decodes_single _ "older")]; vm_compute; reflexivity ]|]). lia.
Qed.

Lemma ReadAll_selects_witness :
  wp read_step (ReadAll line_unmarshal (lg_path line_log) {| filters0 with fl_Limit := 1 |}) (λ r fs',
    fs' = line_fs ∧ r = Ok [{| event0 with ev_Event := "older" |}]) line_fs.
Proof.
  pose proof (ReadAll_selects line_unmarshal line_log {| filters0 with fl_Limit := 1 |} line_fs line_evs
    line_fs_ok) as Hr.
  eapply wp_mono; [exact Hr|]. intros r fs' [-> [[_ ->]|[Hno _]]]; [split; reflexivity|].
  specialize (Hno 0%nat (Nat.le_0_l 5)). discriminate Hno.
Defined.

Lemma Write_then_ReadAll_witness :
  let r := run (log_run 7) (Write line_marshal line_log demo_event) line_fs in
  r.2 = None
  ∧ wp read_step (ReadAll line_unmarshal (lg_path line_log) filters0) (λ r' _,
      ∃ events, r' = Ok events ∧ last events = Some {| event0 with ev_Event := "plugin_started" |}) r.1.
Proof.
  pose proof (Write_then_ReadAll line_unmarshal line_log line_marshal line_stored demo_event line_codec eq_refl
    line_fs line_evs) as Hw.
  assert ((run (log_run 7) (Write line_marshal line_log demo_event) line_fs).2 = None) as E
    by (vm_compute; reflexivity).
  split; [exact E|].
  destruct (wp_run log_step (log_run 7) (log_run_ok 7) _ _ _ (Hw ltac:(discriminate) eq_refl
    ltac:(vm_compute; discriminate) eq_refl line_fs_ok) E) as (evs' & d & kept & rot & now & _ & _ & _ & Hr).
  eapply wp_mono; [exact Hr|]. intros r' fs'' [_ ->]. eexists. split; [reflexivity|].
  rewrite app_assoc. apply last_snoc.
Defined.
