(* ===== verification/PluginApi.v ===== *)
(** * The plugin RPC surface (src/pkg/plugin/plugin.go, src/test/testpluginapi)

    The messages the kernel and a plugin exchange, and the typed request each
    RPC method takes: [request X] is a request whose reply has type [X]. *)

From S2P Require Import Prelude GoText.

Definition ServiceName : string := "TestPlugin".
Definition MethodAuth : string := ServiceName +:+ ".Auth".
Definition MethodCapabilities : string := ServiceName +:+ ".Capabilities".
Definition MethodHeartbeat : string := ServiceName +:+ ".Heartbeat".
Definition MethodShutdown : string := ServiceName +:+ ".Shutdown".
Definition MethodEcho : string := ServiceName +:+ ".Echo".
Definition MethodSleep : string := ServiceName +:+ ".Sleep".
Definition MethodCrash : string := ServiceName +:+ ".Crash".

Definition Status : Type := string.
Definition StatusStarting : Status := "starting".
Definition StatusHealthy : Status := "healthy".
Definition StatusDegraded : Status := "degraded".
Definition StatusOverloaded : Status := "overloaded".
Definition StatusUnhealthy : Status := "unhealthy".

Record AuthResponse : Type := mkAuthResponse {
  ar_PluginID : string; ar_Version : string; ar_GenerationID : Z }.

Record CapabilitiesResponse : Type := mkCapabilitiesResponse {
  cr_PluginID : string; cr_Version : string; cr_GenerationID : Z; cr_Capabilities : list string }.

Record HeartbeatResponse : Type := mkHeartbeatResponse {
  hr_PluginID : string;
  hr_Version : string;
  hr_GenerationID : Z;
  hr_UptimeSeconds : Z;
  hr_Status : Status;
  hr_CurrentWorkCount : Z;
  hr_LastSuccessfulUnixSec : Z;
  hr_RecentErrorCount : Z }.

Definition heartbeat0 : HeartbeatResponse := mkHeartbeatResponse "" "" 0 0 "" 0 0 0.

(** One constructor per RPC method; [unit] is the Go type Empty, an
    EchoResponse is its Message. *)
Inductive request : Type → Type :=
| RAuth (Token : string) : request AuthResponse
| RCapabilities : request CapabilitiesResponse
| RHeartbeat : request HeartbeatResponse
| REcho (Message : string) : request string
| RSleep (Duration : Z) : request unit
| RCrash (Code : Z) : request unit
| RShutdown : request unit.

Definition method_of {X} (r : request X) : string :=
  match r with
  | RAuth _ => MethodAuth
  | RCapabilities => MethodCapabilities
  | RHeartbeat => MethodHeartbeat
  | REcho _ => MethodEcho
  | RSleep _ => MethodSleep
  | RCrash _ => MethodCrash
  | RShutdown => MethodShutdown
  end.

(** The environment names of the startup contract and of the test controls. *)
Definition SocketEnv : string := "RPC_PLUGIN_SYSTEM_PLUGIN_SOCKET".
Definition PluginIDEnv : string := "RPC_PLUGIN_SYSTEM_PLUGIN_ID".
Definition GenerationEnv : string := "RPC_PLUGIN_SYSTEM_PLUGIN_GENERATION".
Definition TokenFileEnv : string := "RPC_PLUGIN_SYSTEM_AUTH_TOKEN_FILE".
Definition BehaviorConfigEnv : string := "RPC_PLUGIN_SYSTEM_TEST_BEHAVIOR_FILE".
Definition ShutdownMarkerEnv : string := "RPC_PLUGIN_SYSTEM_TEST_SHUTDOWN_MARKER_FILE".
