(* ===== verification/Manager.v ===== *)
(** * The plugin manager (src/internal/kernel/manager.go)

    One supervised plugin: its mutex-protected state and the operations on it,
    as programs over the calls [mgrE].  A critical section of [m.mu] is one
    [Atomic] call, so that the interleavings of goroutines are those of the
    code.  The immutable parts of the struct ([cfg]) are a section variable. *)

From S2P Require Import Prelude Prog GoText GoPath PluginID Auth Runtime Bundle EventLog PluginApi.

(** ** Configuration *)
Definition Millisecond : Z := 1000000.
Definition Second : Z := 1000 * Millisecond.

(** The map ByGeneration of a ProviderBundleMetadataRefreshConfig. *)
Definition ProviderBundleMetadataRefreshConfig : Type := gmap Z ProviderBundleMetadata.

Record Config : Type := mkConfig {
  RuntimeDir : string;
  PluginPath : string;
  PluginID : string;
  DialTimeout : Z;
  CallTimeout : Z;
  HeartbeatEvery : Z;
  EventLogPath : string;
  cfg_ProviderBundleMetadata : option ProviderBundleMetadata;
  cfg_ProviderBundleMetadataRefresh : option ProviderBundleMetadataRefreshConfig;
  DisableProviderBundleAdminPathRedaction : bool;
}.

(** ** State *)
Record State : Type := mkState {
  st_PluginID : string;
  st_GenerationID : Z;
  st_Healthy : bool;
  st_Capabilities : list string;
  st_SocketPath : string;
  st_PID : Z;
  st_Declared : option ProviderBundleAdminDTO;
}.
Definition state0 : State := mkState "" 0 false [] "" 0 None.

Record CoreState : Type := mkCoreState {
  cst_PluginID : string;
  cst_GenerationID : Z;
  cst_Healthy : bool;
  cst_Declared : option DeclaredProviderBundleCoreDTO;
}.

(** A *rpcClient wraps the connection it was made from; pointers to different
    clients hold different connections. *)
Definition rpcClient : Type := conn.

(** A started *exec.Cmd: its process, by identity, and the process id. *)
Record Process : Type := mkProcess { proc_id : nat; Pid : Z }.
#[global] Instance Process_eq_dec : EqDecision Process.
Proof. solve_decision. Defined.

(** The fields of Manager guarded by [mu], and those of [closeOnce]. *)
Record Manager : Type := mkManager {
  state : State;
  cmd : option Process;
  client : option rpcClient;
  rpcEpoch : Z;
  closed : bool;
  closedCh : bool;                       (* the channel is closed *)
  closeOnce : bool;                      (* the Once has run *)
  closeErr : option error;
}.
Definition manager0 : Manager := mkManager state0 None None 0 false false false None.

(** ** Calls *)

(** The result of [client.Call]: an error or nil, or the deadline fired first. *)
Inductive call_result : Type :=
| Done (err : option error)
| TimedOut.

Record Command : Type := mkCommand { cmd_Path : string; cmd_Env : list string }.

Inductive mgrE : Type → Type :=
| Atomic {B : Type} (f : Manager → B * Manager) : mgrE B   (* a critical section of m.mu *)
| LockLifecycle : mgrE unit
| UnlockLifecycle : mgrE unit
| Log (event : Event) : mgrE unit                          (* m.log.Write, its error dropped *)
| OpenLog (path : string) : mgrE (option error)
| CloseLog : mgrE (option error)
| Sys {X : Type} (e : sysE X) : mgrE X
| ReadRandom : mgrE (result string)                        (* io.ReadFull(tokenRandomReader, buf) *)
| WriteFile (path data : string) : mgrE (option error)     (* mode 0600 *)
| Getenv (name : string) : mgrE string
| StartProcess (c : Command) : mgrE (result Process)
| Now : mgrE Z
| SleepFor (d : Z) : mgrE unit
| DialUnix (path : string) : mgrE (result conn)            (* net.DialTimeout, 200ms *)
| CallRPC {X : Type} (c : rpcClient) (r : request X) : mgrE (X * call_result)
| CloseConn (c : conn) : mgrE (option error)
| CloseRPC (c : rpcClient) : mgrE (option error)
| WaitGrace (p : Process) : mgrE (option (option error))   (* None: 250ms went by *)
| SignalKill (p : Process) : mgrE (option error)
| WaitFinal (p : Process) : mgrE (option error)            (* Process.Wait *)
| KillProcess (p : Process) : mgrE (option error).

Definition sys {A} (p : prog sysE A) : prog mgrE A := translate (λ X, @Sys X) p.
Definition atomic {B} (f : Manager → B * Manager) : prog mgrE B := trigger (Atomic f).
(** A critical section that only reads. *)
Definition read {B} (f : Manager → B) : prog mgrE B := atomic (λ m, (f m, m)).

(** m.lifecycleMu.Lock() with the deferred Unlock. *)
Definition with_lifecycle {A} (p : prog mgrE A) : prog mgrE A :=
  trigger LockLifecycle ;; r ← p; trigger UnlockLifecycle ;; Ret r.

Definition logEvent (event : Event) : prog mgrE unit := trigger (Log event).

Definition errorString (err : option error) : string :=
  match err with None => "" | Some e => err_msg e end.

Definition isRPCPoisonError (err : option error) : bool :=
  match err with
  | None => false
  | Some e =>
      if errors_Is e ErrShutdown || errors_Is e EOF || errors_Is e ErrUnexpectedEOF
         || errors_Is e NetErrClosed then true
      else if errors_Is e NetError then true
      else errors_Is e NetOpError
  end.

Definition cloneProviderBundleMetadataRefresh (c : option ProviderBundleMetadataRefreshConfig)
  : option ProviderBundleMetadataRefreshConfig := (λ m : ProviderBundleMetadataRefreshConfig, Clone <$> m) <$> c.

Section Manager.
Context `{UnicodeTables}.
Variable cfg : Config.

Definition socketPath : string := SocketPath (RuntimeDir cfg) (PluginID cfg).
Definition authPath : string := AuthPath (RuntimeDir cfg) (PluginID cfg).

(** An event literal with the fields every call site gives. *)
Definition event (level component name : string) (generation pid : Z) (sock msg : string) : Event :=
  {| event0 with
     ev_Level := level; ev_Component := component; ev_Event := name;
     ev_PluginID := PluginID cfg; ev_GenerationID := generation; ev_PID := pid;
     ev_SocketPath := sock; ev_Message := msg |}.

Definition with_Method (method : string) (e : Event) : Event := {| e with ev_Method := method |}.
Definition with_Error (msg : string) (e : Event) : Event := {| e with ev_Error := msg |}.
Definition with_Reason (reason : string) (e : Event) : Event := {| e with ev_Reason := reason |}.
Definition with_PluginID (id : string) (e : Event) : Event := {| e with ev_PluginID := id |}.
Definition with_Details (d : list (string * Value)) (e : Event) : Event :=
  {| e with ev_Details := d |}.

(** ** Projections of the state *)

Definition generationBoundProviderBundleMetadataLocked (st : State) : option ProviderBundleMetadata :=
  let matches (md : ProviderBundleMetadata) :=
    bool_decide (md_PluginID md = st_PluginID st)
    && (md_PluginGeneration md =? int64 (st_GenerationID st)) in
  let refreshed :=
    refresh ← cfg_ProviderBundleMetadataRefresh cfg;
    metadata ← refresh !! int64 (st_GenerationID st);
    let metadata := Clone metadata in
    if matches metadata then Some metadata else None in
  match refreshed with
  | Some metadata => Some metadata
  | None =>
      match cfg_ProviderBundleMetadata cfg with
      | None => None
      | Some metadata =>
          let metadata := Clone metadata in
          if negb (matches metadata) then None else Some metadata
      end
  end.

Definition providerBundleAdminDTOLocked (st : State) : option ProviderBundleAdminDTO :=
  (λ md, AdminDTO md (negb (DisableProviderBundleAdminPathRedaction cfg)))
    <$> generationBoundProviderBundleMetadataLocked st.

Definition providerBundleCoreDTOLocked (st : State) : option DeclaredProviderBundleCoreDTO :=
  CoreDTO <$> generationBoundProviderBundleMetadataLocked st.

(** Under the read lock. *)
Definition snapshot (m : Manager) : State :=
  {| (state m) with st_Declared := providerBundleAdminDTOLocked (state m) |}.
Definition core_snapshot (m : Manager) : CoreState :=
  mkCoreState (st_PluginID (state m)) (st_GenerationID (state m)) (st_Healthy (state m))
    (providerBundleCoreDTOLocked (state m)).

Definition Manager_State : prog mgrE State := read snapshot.
Definition Manager_CoreState : prog mgrE CoreState := read core_snapshot.

(** ** RPC calls *)

Definition client_close (c : option rpcClient) : prog mgrE (option error) :=
  match c with
  | None => Ret None
  | Some c => _ ← trigger (CloseConn c); trigger (CloseRPC c)
  end.

(** The critical section of poisonClient. *)
Definition detach_client (c : rpcClient) (m : Manager) : unit * Manager :=
  (tt, if bool_decide (client m = Some c)
       then {| m with client := None; state := {| (state m) with st_Healthy := false |} |}
       else m).

Definition poisonClient (c : option rpcClient) (generation : Z) (method reason : string)
    (cause : option error) : prog mgrE unit :=
  match c with
  | None => Ret tt
  | Some c0 =>
      st ← Manager_State;
      atomic (detach_client c0) ;;
      logEvent (with_Error (errorString cause)
              (with_Reason reason
              (with_Method method
              (event LevelWarn ComponentRPC EventRPCPoisoned generation (st_PID st)
                    (st_SocketPath st) "rpc client poisoned and detached")))) ;;
      _ ← client_close c;
      Ret tt
  end.

(** The rejection test of a reply that arrived for [c] in [generation], [epoch]. *)
Definition stale_reply (c : rpcClient) (generation epoch : Z) (m : Manager) : bool :=
  negb (generation =? st_GenerationID (state m))
  || (negb (epoch =? 0)
      && (closed m || negb (bool_decide (client m = Some c)) || negb (rpcEpoch m =? epoch))).

Definition stale_error (generation current epoch current_epoch : Z) : error :=
  errors_New ("stale response rejected: generation=" +:+ Itoa generation +:+ " current="
    +:+ Itoa current +:+ " epoch=" +:+ Itoa epoch +:+ " current_epoch=" +:+ Itoa current_epoch).

(** [call] answers the content of [*reply] with its error. *)
Definition call {X} (c : rpcClient) (generation epoch : Z) (args : request X)
  : prog mgrE (X * option error) :=
  let method := method_of args in
  st ← Manager_State;
  let rpc_event level name msg :=
    (with_Method method
     (event level ComponentRPC name generation (st_PID st) (st_SocketPath st) msg)) in
  logEvent (rpc_event LevelDebug EventRPCStarted "rpc call started") ;;
  out ← trigger (CallRPC c args);
  let '(reply, res) := out in
  match res with
  | Done (Some err) =>
      (if isRPCPoisonError (Some err)
       then poisonClient (Some c) generation method "rpc transport failure" (Some err)
       else Ret tt) ;;
      logEvent (with_Error (err_msg err)
              (rpc_event LevelWarn EventRPCFailed "rpc call failed")) ;;
      Ret (reply, Some err)
  | Done None =>
      now ← read (λ m, (stale_reply c generation epoch m, st_GenerationID (state m), rpcEpoch m));
      let '(stale, currentGeneration, currentEpoch) := now in
      if stale : bool then
        let err := stale_error generation currentGeneration epoch currentEpoch in
        logEvent (with_Error (err_msg err)
              (rpc_event LevelWarn EventRPCFailed "stale rpc response rejected")) ;;
        Ret (reply, Some err)
      else
        logEvent (rpc_event LevelDebug EventRPCSucceeded "rpc call succeeded") ;;
        Ret (reply, None)
  | TimedOut =>
      let err := errors_New ("rpc timeout calling " +:+ method) in
      poisonClient (Some c) generation method "rpc timeout" (Some err) ;;
      logEvent (with_Error (err_msg err)
              (rpc_event LevelError EventRPCTimeout "rpc call timed out")) ;;
      Ret (reply, Some err)
  end.

(** ** Runtime artifacts and generations *)

Definition owns_artifacts (generation : Z) (m : Manager) : bool :=
  if st_GenerationID (state m) =? generation then true
  else (st_PID (state m) =? 0) && bool_decide (st_SocketPath (state m) = "").

Definition cleanupOwnsRuntimeArtifacts (generation : Z) : prog mgrE bool :=
  read (owns_artifacts generation).

(** The loop body: [(removed, failed)]. *)
Definition remove_artifact (acc : list string * list (string * string)) (path : string)
  : prog mgrE (list string * list (string * string)) :=
  r ← trigger (Sys (Remove path));
  Ret match r with
      | Some e => if negb (os_IsNotExist e) then (acc.1, acc.2 ++ [(path, err_msg e)]) else acc
      | None => (acc.1 ++ [path], acc.2)
      end.

Definition remove_artifacts (generation : Z) : prog mgrE unit :=
  rf ← fold_range [socketPath; authPath] ([], []) remove_artifact;
  let '(removed, failed) := rf in
  if Nat.ltb 0 (length failed) then
    logEvent (with_Details [("removed", VStrings removed); ("failed", VOther failed)]
              (event LevelWarn ComponentRuntime EventRuntimeCleanupFailed generation 0 socketPath
                  "runtime artifact cleanup had failures"))
  else
    logEvent (with_Details [("removed", VStrings removed)]
              (event LevelInfo ComponentRuntime EventRuntimeCleanup generation 0 socketPath
                  "runtime artifacts cleaned up")).

Definition cleanupRuntimeArtifacts (generation : Z) : prog mgrE unit :=
  skip ← (if generation =? 0 then Ret false
          else owns ← cleanupOwnsRuntimeArtifacts generation; Ret (negb owns));
  if skip : bool then
    st ← Manager_State;
    logEvent (with_Details [("current_generation", VInt (st_GenerationID st))]
              (event LevelDebug ComponentRuntime EventRuntimeCleanup generation 0 socketPath
                  "stale runtime artifact cleanup skipped"))
  else remove_artifacts generation.

Definition roll_back (generation : Z) (m : Manager) : unit * Manager :=
  (tt, if st_GenerationID (state m) =? generation
       then {| m with state := {| state0 with st_PluginID := PluginID cfg;
                                  st_GenerationID := uint64 (generation - 1) |} |}
       else m).
Definition rollbackGeneration (generation : Z) : prog mgrE unit := atomic (roll_back generation).

Definition cleanupFailedStart (p : Process) (c : option rpcClient) (generation : Z)
    (reason : string) (cause : error) : prog mgrE unit :=
  _ ← client_close c;
  _ ← trigger (KillProcess p);
  _ ← trigger (WaitFinal p);
  rollbackGeneration generation ;;
  logEvent (with_Error (err_msg cause)
            (with_Reason reason
             (event LevelError ComponentKernel EventPluginStartFailed generation (Pid p) socketPath
                "plugin start failed and was cleaned up"))) ;;
  cleanupRuntimeArtifacts generation.

(** ** Stopping *)

(** The critical section of stopCurrent. *)
Record stop_info : Type := mkStop {
  stop_client : option rpcClient; stop_cmd : option Process;
  stop_generation : Z; stop_socketPath : string; stop_pid : Z }.

Definition stop_begin (markClosed : bool) (m : Manager) : result stop_info * Manager :=
  if closed m then (Err (errors_New "manager closed"), m)
  else
    (Ok (mkStop (client m) (cmd m) (st_GenerationID (state m)) (st_SocketPath (state m))
           (st_PID (state m))),
     {| m with rpcEpoch := uint64 (rpcEpoch m + 1); client := None; cmd := None;
               state := {| (state m) with st_Healthy := false; st_PID := 0 |};
               closed := if markClosed then true else closed m |}).

Definition stop_event (i : stop_info) (level name msg : string) : Event :=
  event level ComponentKernel name (stop_generation i) (stop_pid i) (stop_socketPath i) msg.

Definition request_shutdown (i : stop_info) (c : rpcClient) : prog mgrE unit :=
  logEvent (with_Method MethodShutdown
            (stop_event i LevelInfo EventShutdownRequested "requesting graceful shutdown")) ;;
  out ← call c (stop_generation i) 0 RShutdown;
  (match out.2 with
   | Some err =>
       logEvent (with_Error (err_msg err)
              (with_Method MethodShutdown
              (stop_event i LevelWarn EventShutdownFailed "graceful shutdown failed")))
   | None =>
       logEvent (with_Method MethodShutdown
              (stop_event i LevelInfo EventShutdownSucceeded "graceful shutdown succeeded"))
   end) ;;
  _ ← client_close (Some c);
  Ret tt.

Definition stop_finished (i : stop_info) (reason : string) : prog mgrE (option error) :=
  logEvent (with_Reason reason
            (stop_event i LevelInfo EventPluginStopped "plugin process stopped")) ;;
  cleanupRuntimeArtifacts (stop_generation i) ;;
  Ret None.

(** An error other than os.ErrProcessDone. *)
Definition real_error (r : option error) : option error :=
  match r with Some e => if negb (errors_Is e ErrProcessDone) then Some e else None | None => None end.

Definition stop_process (i : stop_info) (reason : string) (p : Process) : prog mgrE (option error) :=
  w ← trigger (WaitGrace p);
  match w with
  | Some r =>
      match real_error r with
      | Some e => Ret (Some (errors_Wrap "wait plugin exit" e))
      | None => stop_finished i reason
      end
  | None =>
      k ← trigger (SignalKill p);
      match real_error k with
      | Some e => Ret (Some (errors_Wrap "kill plugin" e))
      | None =>
          w ← trigger (WaitFinal p);
          match real_error w with
          | Some e => Ret (Some (errors_Wrap "wait plugin exit after kill" e))
          | None =>
              logEvent (with_Reason reason
              (stop_event i LevelWarn EventPluginKilled
                            "plugin process killed after grace period")) ;;
              cleanupRuntimeArtifacts (stop_generation i) ;;
              Ret None
          end
      end
  end.

Definition stopCurrent (markClosed : bool) (reason : string) : prog mgrE (option error) :=
  b ← atomic (stop_begin markClosed);
  match b with
  | Err e => Ret (Some e)
  | Ok i =>
      logEvent (with_Reason reason
              (stop_event i LevelWarn EventKillRequested "stopping plugin process")) ;;
      (match stop_client i with Some c => request_shutdown i c | None => Ret tt end) ;;
      match stop_cmd i with
      | Some p => stop_process i reason p
      | None => stop_finished i reason
      end
  end.

(** ** Dialling *)

Inductive dialed : Type :=
| Dialed (c : conn)
| DeadlinePassed
| OutOfFuel.

Fixpoint dial_loop (fuel : nat) (deadline : Z) : prog mgrE dialed :=
  match fuel with
  | O => Ret OutOfFuel
  | S fuel' =>
      now ← trigger Now;
      if now <? deadline then
        r ← trigger (DialUnix socketPath);
        match r with
        | Ok c => Ret (Dialed c)
        | Err _ => trigger (SleepFor (50 * Millisecond)) ;; dial_loop fuel' deadline
        end
      else Ret DeadlinePassed
  end.

(** Every iteration sleeps 50ms, so this many reach the deadline
    ([ManagerFacts.dial_deadline]). *)
Definition dial_fuel : nat := Z.to_nat (DialTimeout cfg / (50 * Millisecond)) + 2.

Definition dial (generation : Z) : prog mgrE (result rpcClient) :=
  logEvent (event LevelInfo ComponentRPC EventPluginDialStarted generation 0 socketPath
              "dialing plugin socket") ;;
  now ← trigger Now;
  d ← dial_loop dial_fuel (now + DialTimeout cfg);
  match d with
  | Dialed c =>
      logEvent (event LevelInfo ComponentRPC EventPluginDialSucceeded generation 0 socketPath
                  "plugin socket dial succeeded") ;;
      Ret (Ok c)
  | DeadlinePassed | OutOfFuel =>
      let err := errors_New ("dial plugin socket timeout: " +:+ socketPath) in
      logEvent (with_Error (err_msg err)
              (event LevelError ComponentRPC EventPluginDialFailed generation 0 socketPath
                    "plugin socket dial timed out")) ;;
      Ret (Err err)
  end.

Definition verifyPeerCred (c : option rpcClient) (wantPID generation : Z)
  : prog mgrE (option error) :=
  match c with
  | None => Ret (Some (errors_New "peercred verification requires connected unix socket"))
  | Some c =>
      r ← sys (ReadPeerCred c);
      match r with
      | Err e => Ret (Some (errors_Wrap "read peer credentials" e))
      | Ok cred =>
          if negb (cred_PID cred =? wantPID) then
            Ret (Some (errors_New ("peer pid mismatch: got " +:+ Itoa (cred_PID cred)
              +:+ " want " +:+ Itoa wantPID)))
          else
            logEvent (with_Details [("peer_uid", VInt (cred_UID cred));
                                            ("peer_gid", VInt (cred_GID cred))]
      (event LevelInfo ComponentAuth EventPeerCredVerified generation wantPID
                          socketPath "plugin peer credentials verified")) ;;
            Ret None
      end
  end.

(** ** Starting *)

Definition start_begin (m : Manager) : result Z * Manager :=
  if closed m then (Err (errors_New "manager closed"), m)
  else if bool_decide (cmd m ≠ None) || bool_decide (client m ≠ None) then
    (Err (errors_New "plugin already started"), m)
  else
    let generation := uint64 (st_GenerationID (state m) + 1) in
    (Ok generation,
     {| m with state := {| state0 with st_PluginID := PluginID cfg;
                           st_GenerationID := generation; st_SocketPath := socketPath |} |}).

Definition start_commit (p : Process) (c : rpcClient) (caps : CapabilitiesResponse) (m : Manager)
  : unit * Manager :=
  (tt, {| m with cmd := Some p; client := Some c;
          state := mkState (cr_PluginID caps) (cr_GenerationID caps) true (cr_Capabilities caps)
                     socketPath (Pid p) None |}).

(** A start that fails after the process is running. *)
Definition start_failed (p : Process) (c : rpcClient) (generation : Z)
    (component name msg reason : string) (err : error) : prog mgrE (option error) :=
  logEvent (with_Error (err_msg err)
            (event LevelError component name generation (Pid p) socketPath msg)) ;;
  cleanupFailedStart p (Some c) generation reason err ;;
  Ret (Some err).

(** A start that fails before the process is running. *)
Definition start_aborted (component : string) (generation : Z) (msg : string) (err : error)
  : prog mgrE (option error) :=
  rollbackGeneration generation ;;
  logEvent (with_Error (err_msg err)
            (event LevelError component EventPluginStartFailed generation 0 socketPath msg)) ;;
  Ret (Some err).

Definition id_mismatch (got : string) : error :=
  errors_New ("plugin id mismatch: got " +:+ Quote got +:+ " want " +:+ Quote (PluginID cfg)).
Definition generation_mismatch (got want : Z) : error :=
  errors_New ("generation mismatch: got " +:+ Itoa got +:+ " want " +:+ Itoa want).

Definition start_loaded (p : Process) (c : rpcClient) (generation : Z)
    (caps : CapabilitiesResponse) : prog mgrE (option error) :=
  let failed := start_failed p c generation ComponentKernel EventCapabilitiesFailed in
  if negb (bool_decide (cr_PluginID caps = PluginID cfg)) then
    failed "capabilities returned wrong plugin id" "capabilities plugin id mismatch"
      (id_mismatch (cr_PluginID caps))
  else if negb (cr_GenerationID caps =? generation) then
    failed "capabilities returned wrong generation" "capabilities generation mismatch"
      (generation_mismatch (cr_GenerationID caps) generation)
  else if bool_decide ("__capabilities_error__" ∈ cr_Capabilities caps) then
    failed "plugin requested synthetic capabilities failure" "capabilities sentinel failure"
      (errors_New "capabilities rpc: capabilities failure requested")
  else
    atomic (start_commit p c caps) ;;
    let started name msg := (with_PluginID (cr_PluginID caps)
              (event LevelInfo ComponentKernel name (cr_GenerationID caps) (Pid p)
        socketPath msg)) in
    logEvent (with_Details [("capabilities", VStrings (cr_Capabilities caps))]
              (started EventCapabilitiesLoaded "plugin capabilities loaded")) ;;
    logEvent (started EventPluginStarted
      ("plugin started and healthy, capabilities=" +:+ show_strings (cr_Capabilities caps))) ;;
    Ret None.

Definition start_capabilities (p : Process) (c : rpcClient) (generation : Z)
  : prog mgrE (option error) :=
  logEvent (event LevelInfo ComponentKernel EventCapabilitiesStarted generation (Pid p) socketPath
              "loading plugin capabilities") ;;
  out ← call c generation 0 RCapabilities;
  match out.2 with
  | Some e =>
      start_failed p c generation ComponentKernel EventCapabilitiesFailed
        "loading plugin capabilities failed" "capabilities rpc failure"
        (errors_Wrap "capabilities rpc" e)
  | None => start_loaded p c generation out.1
  end.

Definition start_authenticate (p : Process) (c : rpcClient) (generation : Z) (token : string)
  : prog mgrE (option error) :=
  let failed := start_failed p c generation ComponentAuth EventAuthFailed in
  logEvent (event LevelInfo ComponentAuth EventAuthStarted generation (Pid p) socketPath
              "authenticating plugin bootstrap token") ;;
  out ← call c generation 0 (RAuth token);
  match out.2 with
  | Some e => failed "plugin authentication failed" "auth rpc failure" (errors_Wrap "auth rpc" e)
  | None =>
      if negb (bool_decide (ar_PluginID out.1 = PluginID cfg)) then
        failed "plugin authentication returned wrong plugin id" "auth plugin id mismatch"
          (id_mismatch (ar_PluginID out.1))
      else if negb (ar_GenerationID out.1 =? generation) then
        failed "plugin authentication returned wrong generation" "auth generation mismatch"
          (generation_mismatch (ar_GenerationID out.1) generation)
      else
        logEvent (event LevelInfo ComponentAuth EventAuthSucceeded generation (Pid p) socketPath
                    "plugin authentication succeeded") ;;
        _ ← trigger (Sys (Remove authPath));
        start_capabilities p c generation
  end.

Definition start_connect (p : Process) (generation : Z) (token : string)
  : prog mgrE (option error) :=
  d ← dial generation;
  match d with
  | Err e => cleanupFailedStart p None generation "dial failure" e ;; Ret (Some e)
  | Ok c =>
      v ← verifyPeerCred (Some c) (Pid p) generation;
      match v with
      | Some e =>
          start_failed p c generation ComponentAuth EventAuthFailed
            "plugin peer credentials verification failed" "peer credential mismatch" e
      | None => start_authenticate p c generation token
      end
  end.

(** The environment given to the plugin: nothing is inherited. *)
Definition plugin_env (generation : Z) : list string :=
  [SocketEnv +:+ "=" +:+ socketPath; PluginIDEnv +:+ "=" +:+ PluginID cfg;
   GenerationEnv +:+ "=" +:+ Itoa generation; TokenFileEnv +:+ "=" +:+ authPath].
Definition append_env (name value : string) (env : list string) : list string :=
  if bool_decide (value = "") then env else env ++ [name +:+ "=" +:+ value].

Definition start_spawn (generation : Z) (token : string) : prog mgrE (option error) :=
  behaviorPath ← trigger (Getenv BehaviorConfigEnv);
  shutdownMarker ← trigger (Getenv ShutdownMarkerEnv);
  let env := append_env ShutdownMarkerEnv shutdownMarker
               (append_env BehaviorConfigEnv behaviorPath (plugin_env generation)) in
  s ← trigger (StartProcess (mkCommand (PluginPath cfg) env));
  match s with
  | Err e => start_aborted ComponentKernel generation "plugin process failed to start"
               (errors_Wrap "start plugin" e)
  | Ok p => start_connect p generation token
  end.

Definition start_generation (generation : Z) : prog mgrE (option error) :=
  _ ← trigger (Sys (Remove socketPath));
  _ ← trigger (Sys (Remove authPath));
  logEvent (with_Details [("plugin_path", VString (PluginPath cfg))]
            (event LevelInfo ComponentKernel EventPluginStartRequested generation 0 socketPath
                "starting plugin process")) ;;
  r ← trigger ReadRandom;
  match NewToken r with
  | Err e => start_aborted ComponentAuth generation "failed to create bootstrap token" e
  | Ok token =>
      w ← trigger (WriteFile authPath token);
      match w with
      | Some e => start_aborted ComponentAuth generation "failed to write bootstrap token file"
                    (errors_Wrap "write auth token file" e)
      | None => start_spawn generation token
      end
  end.

Definition startLocked : prog mgrE (option error) :=
  b ← atomic start_begin;
  match b with
  | Err e => Ret (Some e)
  | Ok generation => start_generation generation
  end.

Definition Start : prog mgrE (option error) := with_lifecycle startLocked.

(** ** Closing *)

Definition close_finish (m : Manager) : unit * Manager :=
  let m := if negb (closed m)
           then {| m with closed := true; rpcEpoch := uint64 (rpcEpoch m + 1) |} else m in
  (tt, {| m with closedCh := true |}).

(** The function given to closeOnce.Do. *)
Definition close_body : prog mgrE unit :=
  e ← stopCurrent true "manager close";
  atomic (λ m, (tt, {| m with closeErr := e |})) ;;
  atomic close_finish ;;
  cleanupRuntimeArtifacts 0 ;;
  l ← trigger CloseLog;
  atomic (λ m, (tt, if bool_decide (closeErr m = None) then {| m with closeErr := l |} else m)) ;;
  atomic (λ m, (tt, {| m with closeOnce := true |})).

Definition Manager_Close : prog mgrE (option error) :=
  with_lifecycle (
    ran ← read closeOnce;
    (if ran : bool then Ret tt else close_body) ;;
    read closeErr).

(** ** Operations on a running plugin *)

Record rpc_view : Type := mkView {
  view_client : option rpcClient; view_generation : Z; view_epoch : Z; view_closed : bool;
  view_pid : Z; view_socketPath : string }.
Definition view (m : Manager) : rpc_view :=
  mkView (client m) (st_GenerationID (state m)) (rpcEpoch m) (closed m) (st_PID (state m))
    (st_SocketPath (state m)).

(** The second critical section of Heartbeat: commits the health it saw unless
    the client it asked is no longer current. *)
Definition heartbeat_commit (c : rpcClient) (v : rpc_view) (healthy : bool) (m : Manager)
  : option bool * Manager :=
  if closed m || negb (bool_decide (client m = Some c)) || negb (rpcEpoch m =? view_epoch v)
     || negb (st_GenerationID (state m) =? view_generation v)
  then (None, m)
  else (Some (st_Healthy (state m)),
        {| m with state := {| (state m) with st_Healthy := healthy |} |}).

Definition heartbeat_event (v : rpc_view) (level name msg : string) : Event :=
  with_Method MethodHeartbeat
    (event level ComponentKernel name (view_generation v) (view_pid v) (view_socketPath v) msg).

(** The events of an accepted heartbeat. *)
Definition heartbeat_report (v : rpc_view) (out : HeartbeatResponse) (healthy wasHealthy : bool)
  : prog mgrE unit :=
  if healthy then
    if negb wasHealthy then
      logEvent (heartbeat_event v LevelInfo EventHeartbeatHealthy
                  "heartbeat transitioned to healthy")
    else Ret tt
  else
    logEvent (with_Reason (hr_Status out)
      (heartbeat_event v LevelWarn EventHeartbeatUnhealthy "heartbeat returned unhealthy status")).

Definition Heartbeat : prog mgrE (HeartbeatResponse * option error) :=
  v ← read view;
  if view_closed v then Ret (heartbeat0, Some (errors_New "manager closed"))
  else match view_client v with
  | None => Ret (heartbeat0, Some (errors_New "plugin not started"))
  | Some c =>
      r ← call c (view_generation v) (view_epoch v) RHeartbeat;
      let '(out, err) := r in
      match err with
      | Some e =>
          logEvent (with_Error (err_msg e)
            (heartbeat_event v LevelWarn EventHeartbeatFailed "heartbeat failed")) ;;
          Ret (out, Some e)
      | None =>
          let healthy := bool_decide (hr_Status out = StatusHealthy) in
          was ← atomic (heartbeat_commit c v healthy);
          match was with
          | None => Ret (out, Some (errors_New ("stale heartbeat rejected: generation="
                      +:+ Itoa (view_generation v) +:+ " epoch=" +:+ Itoa (view_epoch v))))
          | Some wasHealthy =>
              heartbeat_report v out healthy wasHealthy ;;
              Ret (out, None)
          end
      end
  end.

(** The common shape of Echo, Sleep and Crash. *)
Definition routed {X} (args : request X) : prog mgrE (result X) :=
  v ← read view;
  if view_closed v then Ret (Err (errors_New "manager closed"))
  else match view_client v with
  | None => Ret (Err (errors_New "plugin not started"))
  | Some c =>
      out ← call c (view_generation v) (view_epoch v) args;
      Ret match out.2 with Some e => Err e | None => Ok out.1 end
  end.

Definition Manager_Echo (message : string) : prog mgrE (result string) := routed (REcho message).
Definition error_of {X} (r : result X) : option error :=
  match r with Err e => Some e | Ok _ => None end.
Definition Manager_Sleep (duration : Z) : prog mgrE (option error) :=
  r ← routed (RSleep duration); Ret (error_of r).
Definition Manager_Crash (code : Z) : prog mgrE (option error) :=
  r ← routed (RCrash code); Ret (error_of r).

Definition Kill : prog mgrE (option error) := with_lifecycle (stopCurrent false "kill requested").

Definition Restart : prog mgrE (option error) :=
  with_lifecycle (
    v ← read view;
    if view_closed v then Ret (Some (errors_New "manager closed"))
    else
      let ev level name msg :=
        event level ComponentKernel name (view_generation v) (view_pid v) (view_socketPath v) msg in
      logEvent (ev LevelWarn EventRestartRequested "restart requested") ;;
      stopped ← stopCurrent false "restart requested";
      match stopped with
      | Some e =>
          logEvent (with_Error (err_msg e)
              (ev LevelError EventRestartFailed "restart failed during stop phase")) ;;
          Ret (Some e)
      | None =>
          started ← startLocked;
          match started with
          | Some e =>
              logEvent (with_Error (err_msg e)
              (ev LevelError EventRestartFailed "restart failed during start phase")) ;;
              Ret (Some e)
          | None =>
              st ← Manager_State;
              logEvent (with_PluginID (st_PluginID st)
              (event LevelInfo ComponentKernel EventRestartSucceeded
                            (st_GenerationID st) (st_PID st) (st_SocketPath st) "restart succeeded")) ;;
              Ret None
          end
      end).

(** ** Monitoring (monitor.go): one tick, and any number of them; [false]
    means that the loop returns. *)
Definition monitor_tick : prog mgrE bool :=
  r ← Heartbeat;
  match r.2 with
  | None => Ret true
  | Some err =>
      is_closed ← read closedCh;
      if is_closed : bool then Ret false
      else
        logEvent (with_Reason "monitor loop heartbeat check"
              (with_Error (err_msg err)
              (event LevelWarn ComponentKernel EventHeartbeatFailed 0 0 ""
                      "monitor observed heartbeat failure and will restart plugin"))) ;;
        restarted ← Restart;
        (match restarted with
         | Some restartErr =>
             logEvent (with_Reason "monitor loop heartbeat recovery"
              (with_Error (err_msg restartErr)
              (event LevelError ComponentKernel EventRestartFailed 0 0 ""
                           "monitor restart attempt failed")))
         | None => Ret tt
         end) ;;
        Ret true
  end.

(** The loop over [ticks] firings of the ticker before the context is done. *)
Fixpoint MonitorLoop (ticks : nat) : prog mgrE unit :=
  match ticks with
  | O => Ret tt
  | S ticks' =>
      again ← monitor_tick;
      if again : bool then MonitorLoop ticks' else Ret tt
  end.
End Manager.

(** ** Construction *)
Definition fill_config (cfg : Config) : Config :=
  let cfg := if DialTimeout cfg =? 0 then {| cfg with DialTimeout := 3 * Second |} else cfg in
  let cfg := if CallTimeout cfg =? 0 then {| cfg with CallTimeout := 2 * Second |} else cfg in
  let cfg := if HeartbeatEvery cfg =? 0 then {| cfg with HeartbeatEvery := 2 * Second |} else cfg in
  {| cfg with
     cfg_ProviderBundleMetadata := Clone <$> cfg_ProviderBundleMetadata cfg;
     cfg_ProviderBundleMetadataRefresh :=
       cloneProviderBundleMetadataRefresh (cfg_ProviderBundleMetadataRefresh cfg) |}.

(** Answers the configuration of the new manager, whose state is [manager0]. *)
Definition Manager_New (cfg : Config) : prog mgrE (result Config) :=
  if bool_decide (RuntimeDir cfg = "") || bool_decide (PluginPath cfg = "")
     || bool_decide (PluginID cfg = "") || bool_decide (EventLogPath cfg = "") then
    Ret (Err (errors_New "runtime dir, plugin path, plugin id, and event log path are required"))
  else
    v ← sys (ValidateExecutable (PluginPath cfg));
    match v with
    | Some e => Ret (Err e)
    | None =>
        d ← sys (EnsureDir (RuntimeDir cfg));
        match d with
        | Some e => Ret (Err e)
        | None =>
            l ← trigger (OpenLog (EventLogPath cfg));
            match l with
            | Some e => Ret (Err (errors_Wrap "open event log" e))
            | None =>
                let cfg := fill_config cfg in
                logEvent (with_Details [("plugin_path", VString (PluginPath cfg));
                                                ("runtime_dir", VString (RuntimeDir cfg))]
      (event cfg LevelInfo ComponentKernel EventManagerInitialized 0 0
                              (SocketPath (RuntimeDir cfg) (PluginID cfg)) "manager initialized")) ;;
                Ret (Ok cfg)
            end
        end
    end.
