(* ===== verification/ManagerWorld.v ===== *)
(** * What the manager's calls do to the outside

    [world] is the manager together with the resources it owns: processes not
    yet waited
    for, open connections, token files and the clock.  [mgr_step] lists every answer a call may get and its effect; the
    plugin, the operating system and the other goroutines are otherwise free.
    Log lines do not change the world (the logger is verified in
    EventLogFacts), nor does the lifecycle lock, which one manager run alone
    always finds free (file Fence has the lock and its contention). *)

From S2P Require Import Prelude Prog GoText GoPath PluginID Auth Runtime Bundle EventLog PluginApi Manager.

(** What was observed of plugins, in order. *)
Inductive observation : Type :=
| OStart (p : Process) (c : Command)
| OPeer (c : conn) (cred : PeerCred)
| OCall {X : Type} (c : rpcClient) (r : request X) (reply : X) (res : call_result).

Record world : Type := mkWorld {
  w_m : Manager;
  w_now : Z;                       (* the clock has reached this *)
  w_running : gset nat;            (* processes started and not waited for *)
  w_conns : gset nat;              (* open connections *)
  w_lost : gset nat;               (* processes whose wait or kill failed *)
  w_secrets : gset string;         (* files that may hold a token *)
  w_stuck : gset string;           (* files whose removal failed *)
  w_obs : list observation;
  w_nextp : nat;                   (* the next process *)
  w_nextc : nat;                   (* the next connection *)
}.

Definition set_m (m : Manager) (w : world) : world := {| w with w_m := m |}.
Definition observe (o : observation) (w : world) : world := {| w with w_obs := w_obs w ++ [o] |}.
Definition reap (p : Process) (w : world) : world :=
  {| w with w_running := w_running w ∖ {[proc_id p]} |}.
Definition close_conn (c : conn) (w : world) : world :=
  {| w with w_conns := w_conns w ∖ {[c]} |}.
Definition forget (path : string) (w : world) : world :=
  {| w with w_secrets := w_secrets w ∖ {[path]} |}.

Definition stick (path : string) (w : world) : world :=
  {| w with w_stuck := {[path]} ∪ w_stuck w |}.
Definition set_now (t : Z) (w : world) : world := {| w with w_now := t |}.

(** os.Remove answered [r]. *)
Definition removed (path : string) (r : option error) (w : world) : world :=
  match r with
  | None => forget path w
  | Some e => if os_IsNotExist e then forget path w else stick path w
  end.

Definition lose (p : Process) (w : world) : world :=
  {| w with w_lost := {[proc_id p]} ∪ w_lost w |}.

(** A wait that answered: the process is gone unless it reports a real error. *)
Definition waited (p : Process) (r : option error) (w : world) : world :=
  match real_error r with
  | None => reap p w
  | Some _ => lose p w
  end.

Definition sys_step {X} (e : sysE X) : X → world → world :=
  match e in sysE X return X → world → world with
  | Remove path => λ r w, removed path r w
  | GetsockoptUcred c => λ r w, match r with Ok cred => observe (OPeer c cred) w | Err _ => w end
  | _ => λ _ w, w
  end.

Definition mgr_step (X : Type) (e : mgrE X) : world → X → world → Prop :=
  match e in mgrE X return world → X → world → Prop with
  | Atomic f => λ w x w', x = (f (w_m w)).1 ∧ w' = set_m (f (w_m w)).2 w
  | LockLifecycle => λ w _ w', w' = w
  | UnlockLifecycle => λ w _ w', w' = w
  | Log _ => λ w _ w', w' = w
  | OpenLog _ => λ w _ w', w' = w
  | CloseLog => λ w _ w', w' = w
  | Sys e => λ w x w', w' = sys_step e x w
  | ReadRandom => λ w _ w', w' = w
  | WriteFile path _ => λ w x w',
      w' = {| w with w_secrets := {[path]} ∪ w_secrets w |} ∨ (x ≠ None ∧ w' = w)
  | Getenv _ => λ w _ w', w' = w
  | StartProcess c => λ w x w', match x with
      | Ok p => proc_id p = w_nextp w
          ∧ w' = observe (OStart p c) {| w with w_nextp := S (w_nextp w);
                                               w_running := {[w_nextp w]} ∪ w_running w |}
      | Err _ => w' = w
      end
  | Now => λ w x w', w_now w <= x ∧ w' = set_now x w
  | SleepFor d => λ w _ w', ∃ t, w_now w + d <= t ∧ w' = set_now t w
  | DialUnix _ => λ w x w', match x with
      | Ok c => c = w_nextc w
          ∧ w' = {| w with w_nextc := S (w_nextc w); w_conns := {[w_nextc w]} ∪ w_conns w |}
      | Err _ => w' = w
      end
  | CallRPC c r => λ w x w', w' = observe (OCall c r x.1 x.2) w
  | CloseConn c => λ w _ w', w' = close_conn c w
  | CloseRPC _ => λ w _ w', w' = w
  | WaitGrace p => λ w x w', w' = match x with Some r => waited p r w | None => w end
  | SignalKill p => λ w x w', w' = match real_error x with None => w | Some _ => lose p w end
  | WaitFinal p => λ w x w', w' = waited p x w
  | KillProcess _ => λ w _ w', w' = w
  end.

(** ** Small steps *)

Lemma set_m_eta w : set_m (w_m w) w = w.
Proof. by destruct w. Qed.

Section Steps.
Implicit Types w : world.

Lemma wp_log e Q w : Q tt w → wp mgr_step (logEvent e) Q w.
Proof. intros HQ x w' ->. by destruct x. Qed.

Lemma wp_atomic {B} (f : Manager → B * Manager) Q w :
  Q (f (w_m w)).1 (set_m (f (w_m w)).2 w) → wp mgr_step (atomic f) Q w.
Proof. intros HQ x w' [-> ->]. done. Qed.

Lemma wp_read {B} (f : Manager → B) Q w : Q (f (w_m w)) w → wp mgr_step (read f) Q w.
Proof. intros HQ. apply wp_atomic. simpl. by rewrite set_m_eta. Qed.

(** [x ← p; k x] when [p] is specified by a lemma. *)
Lemma wp_seq {A B} (p : prog mgrE A) (k : A → prog mgrE B) (P : A → world → Prop) Q w :
  wp mgr_step p P w → (∀ a w', P a w' → wp mgr_step (k a) Q w') → wp mgr_step (p ≫= k) Q w.
Proof. intros Hp Hk. apply wp_bind. by eapply wp_mono. Qed.

Lemma wp_log_seq {B} e (k : unit → prog mgrE B) Q w :
  wp mgr_step (k tt) Q w → wp mgr_step (logEvent e ≫= k) Q w.
Proof. intros HQ. apply wp_bind, wp_log. done. Qed.

Lemma wp_read_seq {A B} (f : Manager → A) (k : A → prog mgrE B) Q w :
  wp mgr_step (k (f (w_m w))) Q w → wp mgr_step (read f ≫= k) Q w.
Proof. intros HQ. by apply wp_bind, wp_read. Qed.

Lemma wp_atomic_seq {A B} (f : Manager → A * Manager) (k : A → prog mgrE B) Q w :
  wp mgr_step (k (f (w_m w)).1) Q (set_m (f (w_m w)).2 w) → wp mgr_step (atomic f ≫= k) Q w.
Proof. intros HQ. by apply wp_bind, wp_atomic. Qed.

(** *** Closing and poisoning a client *)

Lemma client_close_spec c Q w :
  (∀ r, Q r (from_option (λ c, close_conn c w) w c)) → wp mgr_step (client_close c) Q w.
Proof.
  intros HQ. destruct c as [c|]; [|apply HQ]. simpl. intros r w1 -> r2 w2 ->. apply HQ.
Qed.

Section Cfg.
Context `{UnicodeTables}.
Variable cfg : Config.

(** The world after [poisonClient]. *)
Definition poisoned (c : rpcClient) (w : world) : world :=
  close_conn c (set_m (detach_client c (w_m w)).2 w).

Lemma poisonClient_spec c generation method reason cause Q w :
  Q tt (poisoned c w) → wp mgr_step (poisonClient cfg (Some c) generation method reason cause) Q w.
Proof.
  intros HQ. unfold poisonClient. apply wp_read_seq, wp_atomic_seq, wp_log_seq, wp_bind.
  apply client_close_spec. done.
Qed.

(** *** A call: the reply is recorded; only a failed call may poison *)
Lemma call_spec {X} c generation epoch (args : request X) Q w :
  (∀ reply res, let w1 := observe (OCall c args reply res) w in
     (res = Done None → stale_reply c generation epoch (w_m w) = false → Q (reply, None) w1)
     ∧ (∀ e, res ≠ Done None ∨ stale_reply c generation epoch (w_m w) = true →
          Q (reply, Some e) w1 ∧ (res ≠ Done None → Q (reply, Some e) (poisoned c w1)))) →
  wp mgr_step (call cfg c generation epoch args) Q w.
Proof.
  intros HQ. unfold call. apply wp_read_seq, wp_log_seq, wp_trigger_seq. intros [reply res] w1 Hw.
  specialize (HQ reply res) as [Hok Herr]. simpl in Hw. subst w1.
  destruct res as [[err|]|].
  - destruct (isRPCPoisonError (Some err)) eqn:Hp.
    + apply (wp_bind mgr_step), poisonClient_spec, wp_log_seq. apply Herr; [by left|done].
    + apply (wp_bind mgr_step), wp_log_seq. apply Herr. by left.
  - apply wp_read_seq. change (w_m (observe ?o w)) with (w_m w).
    destruct (stale_reply c generation epoch (w_m w)) eqn:Hs; apply wp_log_seq.
    + apply Herr. by right.
    + by apply Hok.
  - apply (wp_bind mgr_step), poisonClient_spec, wp_log_seq. apply Herr; [by left|done].
Qed.
End Cfg.
End Steps.
