(* ===== verification/ManagerFacts.v ===== *)
(** * One manager, run alone

    Specifications of the manager's operations over every behaviour of the
    plugin and of the operating system that [mgr_step] allows, with no other
    goroutine in between: what a start, a stop, a restart and a close leave. *)

From S2P Require Import Prelude Prog GoText GoPath PluginID Auth Runtime Bundle EventLog PluginApi Manager ManagerWorld.

(** One leading call of a program. *)
Ltac mstep :=
  first [ apply wp_log_seq | apply wp_read_seq | apply wp_atomic_seq | apply wp_trigger_seq ].
Ltac mlog := apply wp_log_seq.

Section Facts.
Context `{UnicodeTables}.
Variable cfg : Config.
Implicit Types w : world.

Notation wp := (wp mgr_step).
Let sock := socketPath cfg.
Let token_path := authPath cfg.

(** Worlds that differ at most in clock, observations, token files and
    removals that failed. *)
Record same_resources w w' : Prop := {
  same_m : w_m w' = w_m w;
  same_running : w_running w' = w_running w;
  same_lost : w_lost w' = w_lost w;
  same_conns : w_conns w' = w_conns w;
  same_nextp : w_nextp w' = w_nextp w;
  same_nextc : w_nextc w' = w_nextc w;
}.

#[local] Instance same_resources_pre : PreOrder same_resources.
Proof.
  split; [by intros w; constructor|]. intros w1 w2 w3 [] []. constructor; congruence.
Qed.

Lemma removed_same path r w : same_resources w (removed path r w).
Proof. unfold removed. destruct r as [e|]; [destruct (os_IsNotExist e)|]; by constructor. Qed.

(** The token file holds no token any more, unless removing it failed. *)
Definition token_gone w : Prop := token_path ∉ w_secrets w ∨ token_path ∈ w_stuck w.

Lemma removed_token r w : token_gone (removed token_path r w).
Proof.
  unfold removed, token_gone. destruct r as [e|]; [destruct (os_IsNotExist e)|]; simpl; set_solver.
Qed.

Lemma removed_keeps path r w : token_gone w → token_gone (removed path r w).
Proof.
  unfold removed, token_gone. destruct r as [e|]; [destruct (os_IsNotExist e)|]; simpl; set_solver.
Qed.

(** ** Cleanup *)

Definition cleaned_up w w' : Prop :=
  same_resources w w' ∧ w_obs w' = w_obs w ∧ (token_gone w → token_gone w').

Lemma remove_artifacts_spec g w :
  wp (remove_artifacts cfg g) (λ _ w', cleaned_up w w' ∧ token_gone w') w.
Proof.
  unfold remove_artifacts. apply (wp_seq _ _ (λ _ w', cleaned_up w w' ∧ token_gone w')).
  - intros r1 w1 ->. intros r2 w2 ->. simpl.
    change (authPath cfg) with token_path. split; [|apply removed_token]. split; [|split].
    + etrans; [apply removed_same|apply removed_same].
    + destruct r1 as [e1|]; [simpl; destruct (os_IsNotExist e1)|];
        (destruct r2 as [e2|]; [simpl; destruct (os_IsNotExist e2)|]); done.
    + intros _. apply removed_token.
  - intros [removed failed] w1 Hw1. destruct (Nat.ltb 0 (length failed)); by apply wp_log.
Qed.

Lemma cleanupRuntimeArtifacts_spec g w :
  wp (cleanupRuntimeArtifacts cfg g) (λ _ w', cleaned_up w w'
    ∧ (g = 0 ∨ owns_artifacts g (w_m w) = true → token_gone w')) w.
Proof.
  unfold cleanupRuntimeArtifacts, cleanupOwnsRuntimeArtifacts.
  assert (wp (remove_artifacts cfg g) (λ _ w', cleaned_up w w'
    ∧ (g = 0 ∨ owns_artifacts g (w_m w) = true → token_gone w')) w) as Hrem.
  { eapply wp_mono; [apply remove_artifacts_spec|]. intros _ w' [? ?]. by split. }
  destruct (Z.eqb_spec g 0) as [Hg|Hg]; [done|].
  apply (wp_bind mgr_step), wp_read_seq. cbn [negb].
  destruct (owns_artifacts g (w_m w)) eqn:Ho; [done|].
  apply wp_read_seq, wp_log. split; [split; [done|by split]|]. by intros [].
Qed.

(** ** A start that fails *)

Definition rolled_back (g : Z) w : Manager := (roll_back cfg g (w_m w)).2.

(** Everything the attempt made is gone: the generation, the connection, the
    process (unless waiting for it failed) and the token. *)
Record start_undone (p : Process) (c : option conn) (g : Z) w w' : Prop := {
  undone_m : w_m w' = rolled_back g w;
  undone_conns : w_conns w' = from_option (λ c, w_conns w ∖ {[c]}) (w_conns w) c;
  undone_running : w_running w' ∖ w_lost w' ⊆ w_running w ∖ {[proc_id p]};
  undone_sub : w_running w' ⊆ w_running w;
  undone_lost : w_lost w ⊆ w_lost w' ⊆ {[proc_id p]} ∪ w_lost w;
  undone_nextp : w_nextp w' = w_nextp w;
  undone_nextc : (w_nextc w <= w_nextc w')%nat;
  undone_token : token_gone w';
}.

Lemma owns_rolled_back g w :
  st_GenerationID (state (w_m w)) = g → 0 <= g < two64 →
  g = 0 ∨ owns_artifacts g (rolled_back g w) = true.
Proof.
  intros E Hg. destruct (decide (g = 0)) as [|Hne]; [by left|right].
  unfold rolled_back, roll_back, owns_artifacts. rewrite E, Z.eqb_refl. simpl. by destruct (_ =? _).
Qed.

Lemma cleanupFailedStart_spec p c g reason cause w :
  st_GenerationID (state (w_m w)) = g → 0 <= g < two64 →
  wp (cleanupFailedStart cfg p c g reason cause) (λ _ w', start_undone p c g w w') w.
Proof.
  intros E Hg. unfold cleanupFailedStart. apply (wp_bind mgr_step), client_close_spec. intros _.
  apply wp_trigger_seq. intros _ w1 ->. apply wp_trigger_seq. intros r w2 ->.
  set (w1 := from_option (λ c, close_conn c w) w c). set (w2 := waited p r w1).
  assert (w_m w2 = w_m w) as Hm.
  { unfold w2, waited. destruct (real_error r); by destruct c. }
  unfold rollbackGeneration. apply wp_atomic_seq, wp_log_seq.
  eapply wp_mono; [apply cleanupRuntimeArtifacts_spec|].
  intros _ w' [([] & _ & _) Htok]. cbn [set_m w_m] in *.
  replace (roll_back cfg g (w_m w2)).2 with (rolled_back g w) in *
    by (unfold rolled_back; by rewrite Hm).
  assert (w_conns w2 = from_option (λ c, w_conns w ∖ {[c]}) (w_conns w) c) as Hc.
  { unfold w2, waited. destruct (real_error r); by destruct c. }
  assert (w_running w2 ∖ w_lost w2 ⊆ w_running w ∖ {[proc_id p]}
    ∧ w_running w2 ⊆ w_running w ∧ w_lost w ⊆ w_lost w2 ⊆ {[proc_id p]} ∪ w_lost w
    ∧ w_nextp w2 = w_nextp w ∧ w_nextc w2 = w_nextc w)
    as (Hrun & Hsub & Hlost & Hnext & Hnextc).
  { unfold w2, waited, w1. destruct (real_error r); destruct c; simpl; split_and!; set_solver. }
  constructor; [done|..|by apply Htok, owns_rolled_back];
    cbn [set_m w_conns w_running w_lost w_nextp w_nextc] in *;
    rewrite ?same_conns0, ?same_running0, ?same_lost0, ?same_nextp0, ?same_nextc0;
    [done..|]. by rewrite Hnextc.
Qed.

(** ** Dialling *)

Definition connected (t : Z) w : world :=
  set_now t {| w with w_nextc := S (w_nextc w); w_conns := {[w_nextc w]} ∪ w_conns w |}.

Lemma dial_loop_spec fuel deadline w :
  wp (dial_loop cfg fuel deadline) (λ r w', ∃ t, match r with
    | Dialed c => c = w_nextc w ∧ w' = connected t w
    | DeadlinePassed | OutOfFuel => w' = set_now t w
    end) w.
Proof.
  revert w. induction fuel as [|fuel IH]; intros w; cbn [dial_loop].
  { exists (w_now w). by destruct w. }
  apply wp_trigger_seq. intros now w1 [_ ->]. destruct (now <? deadline); [|by exists now].
  apply wp_trigger_seq. intros [c|e] w2 Hd.
  - destruct Hd as [-> ->]. by exists now.
  - simpl in Hd. subst w2.
    apply wp_trigger_seq. intros _ w3 (t & _ & ->).
    eapply wp_mono; [apply IH|]. intros [] w4 [t' Hr]; exists t'; [|exact Hr..].
    by destruct Hr as [-> ->].
Qed.

(** The fuel of [dial] reaches the deadline whatever the network does. *)
Lemma dial_loop_fuel fuel deadline w :
  deadline <= w_now w + (Z.of_nat fuel - 1) * (50 * Millisecond) →
  (0 < fuel)%nat →
  wp (dial_loop cfg fuel deadline) (λ r _, r ≠ OutOfFuel) w.
Proof.
  revert w. induction fuel as [|fuel IH]; intros w Hd Hf; [lia|]. cbn [dial_loop].
  apply wp_trigger_seq. intros now w1 [Hnow ->].
  destruct (Z.ltb_spec now deadline) as [Hlt|]; [|done].
  apply wp_trigger_seq. intros [c|e] w2 Hdial; [done|].
  assert (w2 = set_now now w) as -> by (by simpl in Hdial).
  apply wp_trigger_seq. intros _ w3 (t & Ht & ->).
  change (w_now (set_now now w)) with now in Ht.
  assert (0 < fuel)%nat by (destruct fuel; [lia|lia]).
  apply IH; [|done]. change (w_now (set_now t ?w)) with t. lia.
Qed.

Lemma dial_spec g w :
  wp (dial cfg g) (λ r w', ∃ t, match r with
    | Ok c => c = w_nextc w ∧ w' = connected t w
    | Err _ => w' = set_now t w
    end) w.
Proof.
  unfold dial. mlog. apply wp_trigger_seq. intros now w1 [_ ->].
  eapply wp_seq; [apply dial_loop_spec|]. intros d w2 [t Hd].
  destruct d; mlog; exists t; [|by rewrite Hd..]. by destruct Hd as [-> ->].
Qed.

(** ** Peer credentials *)

Lemma verifyPeerCred_spec c pid g w :
  wp (verifyPeerCred cfg (Some c) pid g) (λ r w',
    (w' = w ∨ ∃ cred, w' = observe (OPeer c cred) w)
    ∧ (r = None → ∃ cred, cred_PID cred = pid ∧ w' = observe (OPeer c cred) w)) w.
Proof.
  unfold verifyPeerCred.
  apply (wp_seq _ _ (λ (r : result PeerCred) w', match r with
    | Ok cred => w' = observe (OPeer c cred) w | Err _ => w' = w end)).
  - apply wp_translate. unfold ReadPeerCred. apply wp_trigger_seq. intros ty w1 ->.
    destruct (bool_decide (ty = "*net.UnixConn")); cbn [negb]; [|reflexivity].
    apply wp_trigger_seq. intros [e|] w2 ->; [reflexivity|].
    apply wp_trigger_seq. intros [e|] w3 ->; [reflexivity|].
    apply wp_trigger_seq. intros [cred|e] w4 ->; reflexivity.
  - intros [cred|e] w1 ->; [|by split; [left|]].
    destruct (Z.eqb_spec (cred_PID cred) pid) as [E|E]; cbn [negb].
    + mlog. split; eauto.
    + split; [eauto|done].
Qed.

(** ** The authenticated part of a start *)

(** A start in progress: its generation is the manager's, nothing is trusted. *)
Definition starting (g : Z) w : Prop :=
  st_GenerationID (state (w_m w)) = g ∧ 0 <= g < two64 ∧ client (w_m w) = None.

Lemma starting_fresh c g epoch w :
  starting g w → epoch = 0 → stale_reply c g epoch (w_m w) = false.
Proof. intros (E & _ & _) ->. unfold stale_reply. by rewrite E, Z.eqb_refl. Qed.

Lemma poisoned_starting c g w : starting g w → poisoned c w = close_conn c w.
Proof.
  intros (_ & _ & Hc). unfold poisoned, detach_client. rewrite Hc. simpl. by rewrite set_m_eta.
Qed.

Lemma start_undone_close p c g w w1 w' :
  (∃ o, w1 = observe o w ∨ w1 = close_conn c (observe o w)) →
  start_undone p (Some c) g w1 w' → start_undone p (Some c) g w w'.
Proof.
  intros [o [-> | ->]] []; constructor; try done. simpl in *. set_solver.
Qed.

Lemma start_failed_spec p c g component name msg reason err w :
  starting g w →
  wp (start_failed cfg p c g component name msg reason err)
    (λ r w', r = Some err ∧ start_undone p (Some c) g w w') w.
Proof.
  intros (E & Hg & _). unfold start_failed. mlog.
  eapply wp_seq; [by apply cleanupFailedStart_spec|]. intros [] w' Hw'. done.
Qed.

(** A call of a starting manager either succeeds or leaves it starting. *)
Lemma call_starting {X} c g (args : request X) w :
  starting g w →
  wp (call cfg c g 0 args) (λ out w', starting g w' ∧
    match out.2 with
    | None => w' = observe (OCall c args out.1 (Done None)) w
    | Some _ => ∃ o, w' = observe o w ∨ w' = close_conn c (observe o w)
    end) w.
Proof.
  intros Hw. apply call_spec. intros reply res w1. split.
  - intros -> _. done.
  - intros e He. split; [by split; [|eexists; left]|]. intros _.
    rewrite (poisoned_starting c g) by done. by split; [|eexists; right].
Qed.

(** Both identity answers of a plugin match the manager's expectation. *)
Definition identity_ok (g : Z) (auth : AuthResponse) (caps : CapabilitiesResponse) : Prop :=
  ar_PluginID auth = PluginID cfg ∧ ar_GenerationID auth = g
  ∧ cr_PluginID caps = PluginID cfg ∧ cr_GenerationID caps = g
  ∧ "__capabilities_error__" ∉ cr_Capabilities caps.

(** The worlds a successful authentication leads to. *)
Record start_committed (p : Process) (c : conn) (caps : CapabilitiesResponse)
    (obs : list observation) w w' : Prop := {
  committed_m : w_m w' = (start_commit cfg p c caps (w_m w)).2;
  committed_obs : w_obs w' = w_obs w ++ obs;
  committed_running : w_running w' = w_running w;
  committed_lost : w_lost w' = w_lost w;
  committed_conns : w_conns w' = w_conns w;
  committed_nextp : w_nextp w' = w_nextp w;
  committed_nextc : w_nextc w' = w_nextc w;
  committed_token : token_gone w → token_gone w';
}.

Lemma start_loaded_spec p c g caps w :
  starting g w →
  wp (start_loaded cfg p c g caps) (λ r w', match r with
    | Some _ => start_undone p (Some c) g w w'
    | None => cr_PluginID caps = PluginID cfg ∧ cr_GenerationID caps = g
        ∧ "__capabilities_error__" ∉ cr_Capabilities caps
        ∧ start_committed p c caps [] w w'
    end) w.
Proof.
  intros Hw. unfold start_loaded.
  assert (∀ msg reason err, wp
    (start_failed cfg p c g ComponentKernel EventCapabilitiesFailed msg reason err)
    (λ r w', match r with
      | Some _ => start_undone p (Some c) g w w'
      | None => cr_PluginID caps = PluginID cfg ∧ cr_GenerationID caps = g
          ∧ "__capabilities_error__" ∉ cr_Capabilities caps ∧ start_committed p c caps [] w w'
      end) w) as Hfail.
  { intros. eapply wp_mono; [by apply start_failed_spec|]. by intros r w' [-> ?]. }
  destruct (decide (cr_PluginID caps = PluginID cfg)) as [E1|E1].
  2:{ rewrite bool_decide_eq_false_2 by done. apply Hfail. }
  rewrite bool_decide_eq_true_2 by done. cbn [negb].
  destruct (Z.eqb_spec (cr_GenerationID caps) g) as [E2|E2]; [|apply Hfail]. cbn [negb].
  destruct (decide ("__capabilities_error__" ∈ cr_Capabilities caps)) as [E3|E3].
  { rewrite bool_decide_eq_true_2 by done. apply Hfail. }
  rewrite bool_decide_eq_false_2 by done. apply wp_atomic_seq. do 2 mlog.
  split_and!; [done..|]. constructor; try done. simpl. by rewrite app_nil_r.
Qed.

Lemma start_capabilities_spec p c g w :
  starting g w →
  wp (start_capabilities cfg p c g) (λ r w', match r with
    | Some _ => start_undone p (Some c) g w w'
    | None => ∃ caps, cr_PluginID caps = PluginID cfg ∧ cr_GenerationID caps = g
        ∧ "__capabilities_error__" ∉ cr_Capabilities caps
        ∧ start_committed p c caps [OCall c RCapabilities caps (Done None)] w w'
    end) w.
Proof.
  intros Hw. unfold start_capabilities. mlog.
  eapply wp_seq; [by apply call_starting|]. intros [caps [e|]] w1 [Hw1 Hout]; cbn [fst snd] in *.
  - eapply wp_mono; [by apply start_failed_spec|]. intros r w' [-> Hu].
    by eapply start_undone_close.
  - subst w1. eapply wp_mono; [by apply start_loaded_spec|]. intros [e|] w'; cbn beta iota.
    + intros Hu. eapply start_undone_close; [|done]. eexists. by left.
    + intros (E1 & E2 & E3 & []). exists caps. split_and!; [done..|].
      constructor; try done. rewrite committed_obs0. simpl. by rewrite app_nil_r.
Qed.

Lemma start_undone_same p c g w w1 w' :
  same_resources w w1 → start_undone p c g w1 w' → start_undone p c g w w'.
Proof.
  intros [Em Er El Ec Enp Enc] [Um Uc Ur Us Ul Up Un Ut].
  constructor; rewrite <- ?Er, <- ?El, <- ?Enp, <- ?Enc; try done.
  - unfold rolled_back in *. by rewrite <- Em.
  - by rewrite <- Ec.
Qed.

Lemma start_authenticate_spec p c g token w :
  starting g w →
  wp (start_authenticate cfg p c g token) (λ r w', match r with
    | Some _ => start_undone p (Some c) g w w'
    | None => ∃ auth caps, identity_ok g auth caps
        ∧ start_committed p c caps [OCall c (RAuth token) auth (Done None);
                                    OCall c RCapabilities caps (Done None)] w w'
        ∧ token_gone w'
    end) w.
Proof.
  intros Hw. unfold start_authenticate. mlog.
  eapply wp_seq; [by apply call_starting|]. intros [auth [e|]] w1 [Hw1 Hout]; cbn [fst snd] in *.
  { eapply wp_mono; [by apply start_failed_spec|]. intros r w' [-> Hu].
    by eapply start_undone_close. }
  subst w1. set (w1 := observe _ w) in *.
  assert (∀ w', start_undone p (Some c) g w1 w' → start_undone p (Some c) g w w') as Hfail.
  { intros w' Hu. eapply start_undone_close; [|done]. eexists. by left. }
  destruct (decide (ar_PluginID auth = PluginID cfg)) as [E1|E1].
  2:{ rewrite bool_decide_eq_false_2 by done. eapply wp_mono; [by apply start_failed_spec|].
      intros r w' [-> Hu]. by apply Hfail. }
  rewrite bool_decide_eq_true_2 by done. cbn [negb].
  destruct (Z.eqb_spec (ar_GenerationID auth) g) as [E2|E2]; cbn [negb].
  2:{ eapply wp_mono; [by apply start_failed_spec|]. intros r w' [-> Hu]. by apply Hfail. }
  mlog. apply wp_trigger_seq. intros rm w2 Hrm. simpl in Hrm.
  pose proof (removed_same token_path rm w1) as Hsame. change (authPath cfg) with token_path in Hrm.
  rewrite <- Hrm in Hsame.
  assert (starting g w2) as Hw2 by (unfold starting; by rewrite (same_m _ _ Hsame)).
  assert (w_obs w2 = w_obs w1) as Hobs.
  { subst w2. unfold removed. destruct rm as [e|]; [destruct (os_IsNotExist e)|]; done. }
  assert (token_gone w2) as Htok by (subst w2; apply removed_token).
  eapply wp_mono; [by apply start_capabilities_spec|]. intros [e|] w'; cbn beta iota.
  - intros Hu. apply Hfail. by eapply start_undone_same.
  - intros (caps & C1 & C2 & C3 & []). destruct Hsame. exists auth, caps.
    assert (same_resources w w1) as [] by by constructor.
    split; [done|]. split; [|by apply committed_token0].
    constructor; rewrite ?committed_m0, ?committed_obs0, ?Hobs; try congruence.
    + unfold w1. simpl. by rewrite <- app_assoc.
    + intros _. by apply committed_token0.
Qed.

(** Identities not handed out yet are not in use. *)
Definition fresh w : Prop :=
  (∀ n, n ∈ w_running w → (n < w_nextp w)%nat) ∧ (∀ n, n ∈ w_conns w → (n < w_nextc w)%nat).

Lemma fresh_less w w' :
  fresh w → w_running w' ⊆ w_running w → w_conns w' ⊆ w_conns w →
  (w_nextp w <= w_nextp w')%nat → (w_nextc w <= w_nextc w')%nat → fresh w'.
Proof.
  intros [Hp Hc] Er Ec Enp Enc. split; intros n Hn.
  - specialize (Hp n (Er n Hn)). lia.
  - specialize (Hc n (Ec n Hn)). lia.
Qed.

Lemma connected_close t w : fresh w → w_conns (connected t w) ∖ {[w_nextc w]} = w_conns w.
Proof.
  intros [_ Hc]. simpl. apply set_eq. intros n. split; [set_solver|].
  intros Hn. specialize (Hc n Hn). assert (n ≠ w_nextc w) by lia. set_solver.
Qed.

Lemma start_undone_connected p g t w w1 w' :
  fresh w → (w1 = connected t w ∨ ∃ o, w1 = observe o (connected t w)) →
  start_undone p (Some (w_nextc w)) g w1 w' → start_undone p None g w w'.
Proof.
  intros Hf Hw1 [Um Uc Ur Us Ul Up Un Ut]. pose proof (connected_close t w Hf) as Hc.
  destruct Hw1 as [-> |[o ->]]; constructor; try done; simpl in *; try lia; by etrans.
Qed.

Lemma start_connect_spec p g token w :
  starting g w → fresh w →
  wp (start_connect cfg p g token) (λ r w', match r with
    | Some _ => start_undone p None g w w'
    | None => ∃ t cred auth caps, let c := w_nextc w in
        cred_PID cred = Pid p ∧ identity_ok g auth caps
        ∧ start_committed p c caps
            [OPeer c cred; OCall c (RAuth token) auth (Done None);
             OCall c RCapabilities caps (Done None)] (connected t w) w'
        ∧ token_gone w'
    end) w.
Proof.
  intros Hw Hf. unfold start_connect.
  eapply wp_seq; [apply dial_spec|]. intros [c|e] w1 [t Hd].
  2:{ subst w1. destruct Hw as (E & Hg & Hc). eapply wp_seq; [by apply cleanupFailedStart_spec|].
      intros [] w' [Um Uc Ur Us Ul Up Un Ut]. by constructor. }
  destruct Hd as [-> ->].
  assert (starting g (connected t w)) as Hw1 by done.
  eapply wp_seq; [apply verifyPeerCred_spec|]. intros [e|] w2 [Hany Hok].
  - assert (starting g w2) as Hw2 by (by destruct Hany as [-> |[cred ->]]).
    eapply wp_mono; [by apply start_failed_spec|]. intros r w' [-> Hu].
    eapply start_undone_connected; [done| |done]. destruct Hany as [-> |[cred ->]]; eauto.
  - destruct (Hok eq_refl) as (cred & Hpid & ->).
    eapply wp_mono; [by apply start_authenticate_spec|]. intros [e|] w'; cbn beta iota.
    + intros Hu. eapply start_undone_connected; [done| |done]. eauto.
    + intros (auth & caps & Hid & [] & Htok). exists t, cred, auth, caps.
      split_and!; [done..| |done]. constructor; try done.
      rewrite committed_obs0. simpl. by rewrite <- app_assoc.
Qed.

(** ** A whole start *)

(** The manager after the critical section of [startLocked]. *)
Definition begun w : Manager := (start_begin cfg (w_m w)).2.
Definition next_generation w : Z := uint64 (st_GenerationID (state (w_m w)) + 1).

(** The manager is open and has neither a process nor a client. *)
Definition idle w : Prop :=
  closed (w_m w) = false ∧ cmd (w_m w) = None ∧ client (w_m w) = None.

(** What a start that returned an error leaves: no process, no connection, an
    unhealthy manager whose generation is the one before the attempt.  The
    token is gone too, if a process was started at all. *)
Record start_reverted w w' : Prop := {
  reverted_idle : idle w;
  reverted_m : w_m w' = {| (w_m w) with state :=
    {| state0 with st_PluginID := PluginID cfg; st_GenerationID := st_GenerationID (state (w_m w)) |} |};
  reverted_conns : w_conns w' = w_conns w;
  reverted_running : w_running w' ∖ w_lost w' ⊆ w_running w;
  reverted_lost : w_lost w ⊆ w_lost w';
  reverted_fresh : fresh w';
  reverted_nextp : (w_nextp w <= w_nextp w')%nat;
  reverted_nextc : (w_nextc w <= w_nextc w')%nat;
  reverted_token : token_gone w' ∨ w_nextp w' = w_nextp w;
}.

(** What a start that returned nil did and leaves. *)
Record start_done (p : Process) (c : conn) (token : string) (env : Command) (cred : PeerCred)
    (auth : AuthResponse) (caps : CapabilitiesResponse) w w' : Prop := {
  done_idle : idle w;
  done_identity : identity_ok (next_generation w) auth caps;
  done_peer : cred_PID cred = Pid p;
  done_process : proc_id p = w_nextp w ∧ c = w_nextc w ∧ cmd_Path env = PluginPath cfg;
  done_m : w_m w' = (start_commit cfg p c caps (w_m w)).2;
  done_obs : w_obs w' = w_obs w ++ [OStart p env; OPeer c cred;
    OCall c (RAuth token) auth (Done None); OCall c RCapabilities caps (Done None)];
  done_running : w_running w' = {[proc_id p]} ∪ w_running w;
  done_lost : w_lost w' = w_lost w;
  done_conns : w_conns w' = {[c]} ∪ w_conns w;
  done_nextp : w_nextp w' = S (w_nextp w);
  done_nextc : w_nextc w' = S (w_nextc w);
  done_token : token_gone w';
}.

Lemma next_generation_range w : 0 <= next_generation w < two64.
Proof. apply uint64_range. Qed.

Lemma uint64_pred_succ z : 0 <= z < two64 → uint64 (uint64 (z + 1) - 1) = z.
Proof. intros Hz. unfold uint64, two64 in *. zlia. Qed.

(** The start critical section, when it lets the start go on. *)
Lemma begun_state w :
  closed (w_m w) = false → cmd (w_m w) = None → client (w_m w) = None →
  start_begin cfg (w_m w) = (Ok (next_generation w), begun w)
  ∧ ∀ w1, w_m w1 = begun w → starting (next_generation w) w1.
Proof.
  intros Hc Hp Hcl. unfold begun, start_begin. rewrite Hc, Hp, Hcl. simpl.
  split; [done|]. intros w1 E. unfold starting. rewrite E. split_and!; [done| | |done]; apply uint64_range.
Qed.

Lemma rolled_back_begun w w1 :
  0 <= st_GenerationID (state (w_m w)) < two64 →
  closed (w_m w) = false → cmd (w_m w) = None → client (w_m w) = None →
  w_m w1 = begun w →
  rolled_back (next_generation w) w1 = {| (w_m w) with state :=
    {| state0 with st_PluginID := PluginID cfg; st_GenerationID := st_GenerationID (state (w_m w)) |} |}.
Proof.
  intros Hg Hc Hp Hcl E. unfold rolled_back, roll_back. rewrite E. unfold begun, start_begin.
  rewrite Hc, Hp, Hcl. cbn [bool_decide decide]. simpl. fold (next_generation w).
  rewrite Z.eqb_refl. simpl. unfold next_generation. by rewrite uint64_pred_succ.
Qed.

Definition spawned (p : Process) (env : Command) w : world :=
  observe (OStart p env) {| w with w_nextp := S (w_nextp w);
                                   w_running := {[w_nextp w]} ∪ w_running w |}.

Lemma spawned_fresh p env w : fresh w → fresh (spawned p env w).
Proof.
  intros [Hp Hc]. split; [|done]. intros n. simpl. rewrite elem_of_union, elem_of_singleton.
  intros [-> |Hn]; [lia|]. specialize (Hp n Hn). lia.
Qed.

Lemma start_aborted_spec component g msg err w :
  wp (start_aborted cfg component g msg err)
    (λ r w', r = Some err ∧ w' = set_m (rolled_back g w) w) w.
Proof. unfold start_aborted. apply wp_atomic_seq. by mlog. Qed.

Lemma start_spawn_spec g token w :
  starting g w → fresh w →
  wp (start_spawn cfg g token) (λ r w', match r with
    | Some _ => w' = set_m (rolled_back g w) w
        ∨ ∃ p env, proc_id p = w_nextp w ∧ start_undone p None g (spawned p env w) w'
    | None => ∃ p env t cred auth caps, let c := w_nextc w in
        proc_id p = w_nextp w ∧ cmd_Path env = PluginPath cfg
        ∧ cred_PID cred = Pid p ∧ identity_ok g auth caps
        ∧ start_committed p c caps
            [OPeer c cred; OCall c (RAuth token) auth (Done None);
             OCall c RCapabilities caps (Done None)] (connected t (spawned p env w)) w'
        ∧ token_gone w'
    end) w.
Proof.
  intros Hw Hf. unfold start_spawn.
  apply wp_trigger_seq. intros bp w1 ->. apply wp_trigger_seq. intros sm w1 ->.
  apply wp_trigger_seq. intros [p|e] w1 Hp.
  2:{ simpl in Hp. subst w1. eapply wp_mono; [apply start_aborted_spec|]. intros r w' [-> ->]. by left. }
  destruct Hp as [Hid Hp].
  remember (mkCommand _ _) as env eqn:Henv in Hp. change (w1 = spawned p env w) in Hp.
  assert (cmd_Path env = PluginPath cfg) as Hpath by (by subst env).
  subst w1. clear Henv. eapply wp_mono; [apply start_connect_spec; [done|by apply spawned_fresh]|].
  intros [e|] w'; cbn beta iota.
  - intros Hu. right. eauto.
  - intros (t & cred & auth & caps & Hcred & Hok & Hcom & Htok).
    exists p, env, t, cred, auth, caps. by split_and!.
Qed.

(** A token write touches only the set of token files. *)
Lemma start_generation_spec g w :
  starting g w → fresh w →
  wp (start_generation cfg g) (λ r w', ∃ w1, same_resources w w1 ∧ w_obs w1 = w_obs w ∧
    match r with
    | Some _ => w' = set_m (rolled_back g w1) w1
        ∨ ∃ p env, proc_id p = w_nextp w ∧ start_undone p None g (spawned p env w1) w'
    | None => ∃ token p env t cred auth caps, let c := w_nextc w in
        proc_id p = w_nextp w ∧ cmd_Path env = PluginPath cfg
        ∧ cred_PID cred = Pid p ∧ identity_ok g auth caps
        ∧ start_committed p c caps
            [OPeer c cred; OCall c (RAuth token) auth (Done None);
             OCall c RCapabilities caps (Done None)] (connected t (spawned p env w1)) w'
        ∧ token_gone w'
    end) w.
Proof.
  intros Hw Hf. unfold start_generation.
  apply wp_trigger_seq. intros r1 w1 Hr1. apply wp_trigger_seq. intros r2 w2 Hr2.
  simpl in Hr1, Hr2.
  assert (same_resources w w2 ∧ w_obs w2 = w_obs w) as [Hsame Hobs].
  { subst w1 w2. split; [etrans; apply removed_same|]. unfold removed.
    destruct r1 as [e1|]; [destruct (os_IsNotExist e1)|];
      (destruct r2 as [e2|]; [destruct (os_IsNotExist e2)|]); done. }
  clear Hr1 Hr2 w1. mlog. apply wp_trigger_seq. intros rnd w3 ->.
  destruct rnd as [token|e]; cbn [NewToken].
  2:{ eapply wp_mono; [apply start_aborted_spec|]. intros r w' [-> ->]. exists w2. by auto. }
  apply wp_trigger_seq. intros wr w3 Hw3.
  assert (same_resources w w3 ∧ w_obs w3 = w_obs w) as [Hsame3 Hobs3].
  { destruct Hw3 as [-> |[_ ->]]; [|done]. split; [|done]. etrans; [done|]. by constructor. }
  destruct wr as [e|].
  { eapply wp_mono; [apply start_aborted_spec|]. intros r w' [-> ->]. exists w3. by auto. }
  assert (starting g w3) as Hst by (unfold starting; by rewrite (same_m _ _ Hsame3)).
  assert (fresh w3) as Hfr.
  { unfold fresh. by rewrite (same_running _ _ Hsame3), (same_conns _ _ Hsame3),
      (same_nextp _ _ Hsame3), (same_nextc _ _ Hsame3). }
  eapply wp_mono; [by apply start_spawn_spec|].
  intros r w' Hr. exists w3. split; [done|]. split; [done|].
  rewrite (same_nextp _ _ Hsame3), (same_nextc _ _ Hsame3) in Hr. destruct r; [done|].
  destruct Hr as (p & env & t & cred & auth & caps & Hr). by exists token, p, env, t, cred, auth, caps.
Qed.

Lemma start_begin_busy m :
  closed m = false → ¬ (cmd m = None ∧ client m = None) →
  start_begin cfg m = (Err (errors_New "plugin already started"), m).
Proof.
  intros Hc Hn. unfold start_begin. rewrite Hc.
  destruct (cmd m) as [p|] eqn:E1; [by rewrite (bool_decide_eq_true_2 (Some p ≠ None))|].
  destruct (client m) as [c|] eqn:E2; [|by destruct Hn].
  rewrite (bool_decide_eq_true_2 (Some c ≠ None)) by done. by rewrite orb_true_r.
Qed.

Lemma startLocked_spec w :
  fresh w → 0 <= st_GenerationID (state (w_m w)) < two64 →
  wp (startLocked cfg) (λ r w', match r with
    | Some _ => (closed (w_m w) = true ∨ cmd (w_m w) ≠ None ∨ client (w_m w) ≠ None) ∧ w' = w
        ∨ start_reverted w w'
    | None => ∃ p c token env cred auth caps, start_done p c token env cred auth caps w w'
    end) w.
Proof.
  intros Hf Hg. unfold startLocked.
  destruct (closed (w_m w)) eqn:Hc.
  { apply wp_atomic_seq. unfold start_begin. rewrite Hc. cbn [fst snd]. rewrite set_m_eta. left. by auto. }
  destruct (decide (cmd (w_m w) = None ∧ client (w_m w) = None)) as [[Hp Hcl]|Hn].
  2:{ apply wp_atomic_seq. rewrite start_begin_busy by done. cbn [fst snd]. rewrite set_m_eta.
      left. split; [|done]. destruct (cmd (w_m w)), (client (w_m w)); auto; by destruct Hn. }
  assert (idle w) as Hidle by done.
  destruct (begun_state w Hc Hp Hcl) as [E Hst].
  apply wp_atomic_seq. rewrite E. cbn [fst snd]. set (w0 := set_m (begun w) w).
  eapply wp_mono; [apply start_generation_spec; [by apply Hst|done]|].
  intros r w' (w1 & Hsame & Hobs & Hr).
  pose proof (rolled_back_begun w w1 Hg Hc Hp Hcl (same_m _ _ Hsame)) as Hrb.
  assert (fresh w1) as Hf1 by (unfold fresh; destruct Hsame as [_ -> _ -> -> ->]; exact Hf).
  destruct Hsame as [Em Er El Ec Enp Enc]. simpl in Er, El, Ec, Enp, Enc.
  destruct r as [e|].
  - right. destruct Hr as [-> |(p & env & Hid & [Um Uc Ur Us Ul Up Un Ut])].
    + rewrite Hrb. constructor; simpl; try done; try lia; [|by rewrite El].
      rewrite Er. set_solver.
    + constructor; simpl in *; try congruence; try lia.
      * by rewrite Um, <- Hrb.
      * rewrite Hid, Enp, Er in Ur. set_solver.
      * rewrite <- El. tauto.
      * apply (fresh_less (spawned p env w1)); [by apply spawned_fresh|done| | |done].
        { by rewrite Uc. }
        { by rewrite Up. }
      * by left.
  - destruct Hr as (token & p & env & t & cred & auth & caps & Hid & Henv & Hcred & Hok & [] & Htok).
    exists p, (w_nextc w), token, env, cred, auth, caps. constructor; simpl in *; try congruence; try done.
    + rewrite committed_m0, Em. unfold w0, start_commit. simpl.
      unfold begun, start_begin. by rewrite Hc, Hp, Hcl.
    + rewrite committed_obs0, Hobs. simpl. by rewrite <- app_assoc.
    + rewrite committed_conns0, Ec, Enc. done.
Qed.

(** ** Stopping *)

Definition stopped_manager (markClosed : bool) (m : Manager) : Manager := (stop_begin markClosed m).2.

(** What a stop leaves: the client and the process are no longer the
    manager's, the epoch has moved on and nothing is healthy.  When it returned
    nil the process has been waited for and the token is gone. *)
Record stop_done (markClosed : bool) (r : option error) w w' : Prop := {
  stopped_m : w_m w' = stopped_manager markClosed (w_m w);
  stopped_conns : w_conns w' = from_option (λ c, w_conns w ∖ {[c]}) (w_conns w) (client (w_m w));
  stopped_running : w_running w' ∖ w_lost w' ⊆
    from_option (λ p, (w_running w ∖ w_lost w) ∖ {[proc_id p]}) (w_running w ∖ w_lost w) (cmd (w_m w));
  stopped_sub : w_running w' ⊆ w_running w;
  stopped_lost : w_lost w ⊆ w_lost w';
  stopped_ok : r = None → w_lost w' = w_lost w ∧ token_gone w';
  stopped_nextp : w_nextp w' = w_nextp w;
  stopped_nextc : w_nextc w' = w_nextc w;
}.

Lemma stopped_state markClosed w :
  closed (w_m w) = false →
  let m' := stopped_manager markClosed (w_m w) in
  client m' = None ∧ cmd m' = None ∧ st_Healthy (state m') = false ∧ st_PID (state m') = 0
  ∧ rpcEpoch m' = uint64 (rpcEpoch (w_m w) + 1) ∧ closed m' = markClosed
  ∧ st_GenerationID (state m') = st_GenerationID (state (w_m w)).
Proof. intros Hc. unfold stopped_manager, stop_begin. rewrite Hc. by destruct markClosed. Qed.

(** Asking for a graceful shutdown only closes the connection. *)
Lemma request_shutdown_spec i c w :
  client (w_m w) = None →
  wp (request_shutdown cfg i c) (λ _ w', ∃ w1, same_resources w w1
    ∧ w_secrets w1 = w_secrets w ∧ w_stuck w1 = w_stuck w ∧ w' = close_conn c w1) w.
Proof.
  intros Hcl. unfold request_shutdown. mlog.
  assert (∀ w1 w2, same_resources w w1 → w_secrets w1 = w_secrets w → w_stuck w1 = w_stuck w →
    w2 = w1 ∨ w2 = close_conn c w1 →
    ∃ w3, same_resources w w3 ∧ w_secrets w3 = w_secrets w ∧ w_stuck w3 = w_stuck w
      ∧ close_conn c w2 = close_conn c w3) as Hclose.
  { intros w1 w2 Hs E1 E2 [-> | ->]; exists w1; split_and!; try done.
    unfold close_conn. simpl. f_equal. set_solver. }
  apply (wp_seq _ _ (λ _ w1, ∃ w2, same_resources w w2 ∧ w_secrets w2 = w_secrets w
    ∧ w_stuck w2 = w_stuck w ∧ (w1 = w2 ∨ w1 = close_conn c w2))).
  - apply call_spec. intros reply res w1.
    assert (same_resources w w1) as Hs by by constructor.
    split; [intros; exists w1; by auto|]. intros e _. split; [exists w1; by auto|].
    intros _. exists w1. split_and!; [done..|]. right. unfold poisoned, detach_client.
    change (w_m w1) with (w_m w). by rewrite Hcl.
  - intros out w1 (w2 & Hs & E1 & E2 & Hw). apply (wp_bind mgr_step).
    eapply (wp_mono _ _ (λ _ w', w' = w1)); [by destruct out.2; apply wp_log|].
    intros [] w' ->. apply (wp_bind mgr_step), client_close_spec. intros r. simpl.
    by eapply Hclose.
Qed.

Lemma stop_finished_spec i reason w :
  stop_generation i = st_GenerationID (state (w_m w)) →
  wp (stop_finished cfg i reason) (λ r w', r = None ∧ same_resources w w' ∧ token_gone w') w.
Proof.
  intros Hi. unfold stop_finished. mlog. eapply wp_seq; [apply cleanupRuntimeArtifacts_spec|].
  intros _ w' [(Hs & _ & _) Htok]. split_and!; [done..|]. apply Htok. right.
  unfold owns_artifacts. by rewrite Hi, Z.eqb_refl.
Qed.

(** Waiting for the process, with the kill after the grace period. *)
Lemma stop_process_spec i reason p w :
  stop_generation i = st_GenerationID (state (w_m w)) →
  wp (stop_process cfg i reason p) (λ r w', match r with
    | Some _ => w' = lose p w
    | None => same_resources (reap p w) w' ∧ token_gone w'
    end) w.
Proof.
  intros Hi. unfold stop_process. apply wp_trigger_seq. intros [r|] w1 Hw1; simpl in Hw1; subst w1.
  - unfold waited. destruct (real_error r) as [e|]; [done|].
    eapply wp_mono; [by apply stop_finished_spec|]. intros r' w' (-> & Hs & Htok). done.
  - apply wp_trigger_seq. intros k w1 Hw1. simpl in Hw1. subst w1.
    destruct (real_error k) as [e|]; [done|].
    apply wp_trigger_seq. intros r w1 Hw1. simpl in Hw1. subst w1. unfold waited.
    destruct (real_error r) as [e|]; [done|]. mlog.
    eapply wp_seq; [apply cleanupRuntimeArtifacts_spec|].
    intros _ w' [(Hs & _ & _) Htok]. split; [done|]. apply Htok. right.
    change (w_m (reap p w)) with (w_m w). unfold owns_artifacts. by rewrite Hi, Z.eqb_refl.
Qed.

Lemma stopCurrent_spec markClosed reason w :
  wp (stopCurrent cfg markClosed reason) (λ r w',
    if closed (w_m w) then r = Some (errors_New "manager closed") ∧ w' = w
    else stop_done markClosed r w w') w.
Proof.
  unfold stopCurrent. apply wp_atomic_seq.
  destruct (closed (w_m w)) eqn:Hc.
  { unfold stop_begin. rewrite Hc. cbn [fst snd]. by rewrite set_m_eta. }
  destruct (stopped_state markClosed w Hc) as (Scl & Scmd & _ & _ & _ & _ & Sgen).
  assert (stop_begin markClosed (w_m w) = (Ok (mkStop (client (w_m w)) (cmd (w_m w))
    (st_GenerationID (state (w_m w))) (st_SocketPath (state (w_m w))) (st_PID (state (w_m w)))),
    stopped_manager markClosed (w_m w))) as E.
  { unfold stopped_manager, stop_begin. by rewrite Hc. }
  rewrite E. cbn [fst snd]. set (m' := stopped_manager markClosed (w_m w)) in *.
  set (w0 := set_m m' w). mlog. cbn [stop_client stop_cmd].
  apply (wp_seq _ _ (λ _ w1, ∃ w2, same_resources w0 w2
    ∧ w1 = from_option (λ c, close_conn c w2) w2 (client (w_m w)))).
  { destruct (client (w_m w)) as [c|]; [|by exists w0].
    eapply wp_mono; [by apply request_shutdown_spec|]. intros _ w' (w1 & Hs & _ & _ & ->).
    by exists w1. }
  intros _ w1 (w2 & [Em Er El Ec Enp Enc] & ->). set (w1 := from_option (λ c, close_conn c w2) w2 (client (w_m w))).
  assert (w_m w1 = m' ∧ w_running w1 = w_running w
    ∧ w_lost w1 = w_lost w ∧ w_nextp w1 = w_nextp w ∧ w_nextc w1 = w_nextc w
    ∧ w_conns w1 = from_option (λ c, w_conns w ∖ {[c]}) (w_conns w) (client (w_m w)))
    as (Fm & Fr & Fl & Fnp & Fnc & Fc).
  { unfold w1. destruct (client (w_m w)); simpl; split_and!; try done. by rewrite Ec. }
  clearbody w1.
  destruct (cmd (w_m w)) as [p|] eqn:Hcmd.
  - eapply wp_mono; [apply stop_process_spec; by rewrite Fm, Sgen|].
    intros [e|] w'.
    + intros ->. constructor; cbn [lose w_m w_running w_lost w_conns w_nextp w_nextc];
        rewrite ?Fm, ?Fr, ?Fl, ?Fc, ?Fnp, ?Fnc, ?Hcmd; cbn [from_option]; first [done|set_solver].
    + intros [[Gm Gr Gl Gc Gnp Gnc] Htok]. simpl in *.
      constructor; rewrite ?Gm, ?Gr, ?Gl, ?Gc, ?Gnp, ?Gnc, ?Fm, ?Fr, ?Fl, ?Fc, ?Fnp, ?Fnc, ?Hcmd; first [done|set_solver].
  - eapply wp_mono; [apply stop_finished_spec; by rewrite Fm, Sgen|].
    intros r w' (-> & [Gm Gr Gl Gc Gnp Gnc] & Htok).
    constructor; rewrite ?Gm, ?Gr, ?Gl, ?Gc, ?Gnp, ?Gnc, ?Fm, ?Fr, ?Fl, ?Fc, ?Fnp, ?Fnc, ?Hcmd; done.
Qed.

(** ** The invariant of a manager and its resources *)

Definition id_of (p : option Process) : gset nat := from_option (λ p, {[proc_id p]}) ∅ p.
Definition conn_of (c : option rpcClient) : gset nat := from_option singleton ∅ c.

Record Inv w : Prop := {
  inv_fresh : fresh w;
  inv_generation : 0 <= st_GenerationID (state (w_m w)) < two64;
  inv_healthy : st_Healthy (state (w_m w)) = true → is_Some (client (w_m w));
  inv_client : is_Some (client (w_m w)) → is_Some (cmd (w_m w));
  inv_pid : st_PID (state (w_m w)) = from_option Pid 0 (cmd (w_m w));
  inv_id : is_Some (cmd (w_m w)) →
    st_PluginID (state (w_m w)) = PluginID cfg ∧ st_SocketPath (state (w_m w)) = sock;
  inv_closed : closed (w_m w) = true → cmd (w_m w) = None;
  inv_conns : w_conns w ⊆ conn_of (client (w_m w));
  inv_running : w_running w ∖ w_lost w ⊆ id_of (cmd (w_m w));
}.

Lemma Inv_observe o w : Inv w → Inv (observe o w).
Proof. intros []. by constructor. Qed.

Lemma Inv_poisoned c w : Inv w → Inv (poisoned c w).
Proof.
  intros Hi. pose proof Hi as [Hf Hg Hh Hc Hp Hid Hcl Hcn Hr].
  unfold poisoned, detach_client. case_bool_decide as E; cbn [snd].
  - constructor; simpl; try done.
    + eapply fresh_less; [exact Hf|..]; simpl; (done || set_solver).
    + rewrite E in Hcn. simpl in *. set_solver.
  - rewrite set_m_eta. constructor; simpl; try done.
    + eapply fresh_less; [exact Hf|..]; simpl; (done || set_solver).
    + set_solver.
Qed.

Lemma Inv_set_healthy w (b : bool) :
  Inv w → (b = true → is_Some (client (w_m w))) →
  Inv (set_m {| (w_m w) with state := {| (state (w_m w)) with st_Healthy := b |} |} w).
Proof. intros []. by constructor. Qed.

Lemma call_Inv {X} c g epoch (args : request X) w :
  Inv w → wp (call cfg c g epoch args) (λ _, Inv) w.
Proof.
  intros Hi. apply call_spec. intros reply res w1.
  assert (Inv w1) by by apply Inv_observe. split; [done|].
  intros e _. split; [done|]. intros _. by apply Inv_poisoned.
Qed.

Lemma stop_Inv markClosed r w w' :
  Inv w → closed (w_m w) = false → stop_done markClosed r w w' →
  Inv w' ∧ cmd (w_m w') = None ∧ client (w_m w') = None ∧ closed (w_m w') = markClosed
  ∧ st_GenerationID (state (w_m w')) = st_GenerationID (state (w_m w))
  ∧ st_Healthy (state (w_m w')) = false.
Proof.
  intros Hi Hcl [Sm Sc Sr Ss Sl So Snp Snc].
  destruct (stopped_state markClosed w Hcl) as (E1 & E2 & E3 & E4 & _ & E6 & E7).
  rewrite <- Sm in *. split; [|done]. destruct Hi as [Hf Hg Hh Hc Hp Hid Hx Hcn Hr].
  constructor; rewrite ?E1, ?E2, ?E3, ?E4, ?E7; try done; try (by intros []%is_Some_None).
  - eapply fresh_less; [exact Hf|done| |by rewrite Snp|by rewrite Snc].
    rewrite Sc. destruct (client (w_m w)); simpl; set_solver.
  - rewrite Sc. destruct (client (w_m w)); simpl in *; set_solver.
  - etrans; [exact Sr|]. destruct (cmd (w_m w)); simpl in *; set_solver.
Qed.

Lemma stopCurrent_Inv markClosed reason w :
  Inv w → wp (stopCurrent cfg markClosed reason) (λ _, Inv) w.
Proof.
  intros Hi. eapply wp_mono; [apply stopCurrent_spec|]. intros r w'. cbn beta.
  destruct (closed (w_m w)) eqn:Hc; [by intros [_ ->]|]. intros Hs. by eapply stop_Inv.
Qed.

Lemma reverted_Inv w w' : Inv w → start_reverted w w' → Inv w'.
Proof.
  intros [Hf Hg Hh Hc Hp Hid Hx Hcn Hr] [(_ & E1 & E2) Rm Rc Rr Rl Rf Rnp Rnc Rt].
  constructor; rewrite ?Rm; simpl; rewrite ?E1, ?E2 in *; try done; try (by intros []%is_Some_None).
  - by rewrite Rc.
  - set_solver.
Qed.

Lemma done_Inv p c token env cred auth caps w w' :
  Inv w → start_done p c token env cred auth caps w w' → Inv w'.
Proof.
  intros [Hf Hg Hh Hc Hp Hid Hx Hcn Hr]
    [(E0 & E1 & E2) (_ & _ & C1 & C2 & _) Dp (Dn & -> & _) Dm Do Dr Dl Dc Dnp Dnc Dt].
  rewrite E1, E2 in *.
  constructor; rewrite ?Dm; simpl; try done.
  - destruct Hf as [Hf1 Hf2]. split; intros n.
    + rewrite Dr, Dnp, Dn, elem_of_union, elem_of_singleton. intros [-> |Hn]; [lia|].
      specialize (Hf1 n Hn). lia.
    + rewrite Dc, Dnc, elem_of_union, elem_of_singleton. intros [-> |Hn]; [lia|].
      specialize (Hf2 n Hn). lia.
  - rewrite C2. apply next_generation_range.
  - rewrite E0. done.
  - rewrite Dc. set_solver.
  - rewrite Dr, Dl. set_solver.
Qed.

Lemma startLocked_Inv w : Inv w → wp (startLocked cfg) (λ _, Inv) w.
Proof.
  intros Hi. eapply wp_mono; [apply startLocked_spec; apply Hi|]. intros [e|] w'; cbn beta iota.
  - intros [[_ ->]|Hr]; [done|]. by eapply reverted_Inv.
  - intros (p & c & token & env & cred & auth & caps & Hd). by eapply done_Inv.
Qed.

(** ** The locked operations *)

Lemma with_lifecycle_spec {A} (p : prog mgrE A) Q w :
  wp p Q w → wp (with_lifecycle p) Q w.
Proof.
  intros Hp. unfold with_lifecycle. apply wp_trigger_seq. intros x w1 ->.
  eapply wp_seq; [exact Hp|]. intros r w2 Hw2. apply wp_trigger_seq. by intros y w3 ->.
Qed.

Lemma Restart_Inv w : Inv w → wp (Restart cfg) (λ _, Inv) w.
Proof.
  intros Hi. apply with_lifecycle_spec, wp_read_seq.
  destruct (view_closed _); [done|]. mlog.
  eapply wp_seq; [by apply stopCurrent_Inv|]. intros [e|] w1 Hw1; [by mlog|].
  eapply wp_seq; [by apply startLocked_Inv|]. intros [e|] w2 Hw2; [by mlog|].
  apply wp_read_seq. by mlog.
Qed.

Lemma cleanup_Inv g w : Inv w → wp (cleanupRuntimeArtifacts cfg g) (λ _, Inv) w.
Proof.
  intros Hi. eapply wp_mono; [apply cleanupRuntimeArtifacts_spec|].
  intros _ w' [([Em Er El Ec Enp Enc] & _ & _) _].
  destruct Hi as [[Hf1 Hf2] Hg Hh Hc Hp Hid Hx Hcn Hr].
  constructor; rewrite ?Em, ?Er, ?El, ?Ec; try done.
  split; [by rewrite Er, Enp|by rewrite Ec, Enc].
Qed.

Lemma routed_Inv {X} (args : request X) w : Inv w → wp (routed cfg args) (λ _, Inv) w.
Proof.
  intros Hi. unfold routed. apply wp_read_seq. destruct (view_closed _); [done|].
  destruct (view_client _) as [c|]; [|done].
  eapply wp_seq; [by apply call_Inv|]. by intros out w' Hw'.
Qed.

Lemma heartbeat_report_spec v out healthy was w :
  wp (heartbeat_report cfg v out healthy was) (λ _ w', w' = w) w.
Proof.
  unfold heartbeat_report. destruct healthy; [destruct (negb was)|]; first [by apply wp_log|done].
Qed.

Lemma Heartbeat_Inv w : Inv w → wp (Heartbeat cfg) (λ _, Inv) w.
Proof.
  intros Hi. unfold Heartbeat. apply wp_read_seq. destruct (view_closed _); [done|].
  destruct (view_client _) as [c|]; [|done].
  eapply wp_seq; [by apply call_Inv|]. intros [out [e|]] w1 Hw1; [by mlog|].
  apply wp_atomic_seq. unfold heartbeat_commit.
  destruct (_ || _) eqn:Hc; cbn [fst snd]; [by rewrite set_m_eta|].
  apply (wp_bind mgr_step).
  assert (Inv (set_m {| (w_m w1) with state := {| (state (w_m w1)) with
    st_Healthy := bool_decide (hr_Status out = StatusHealthy) |} |} w1)) as Hw2.
  { apply Inv_set_healthy; [done|]. intros _. apply orb_false_iff in Hc as [Hc _].
    apply orb_false_iff in Hc as [Hc _]. apply orb_false_iff in Hc as [_ Hc].
    apply negb_false_iff, bool_decide_eq_true_1 in Hc. by rewrite Hc. }
  eapply wp_mono; [by apply heartbeat_report_spec|]. by intros [] w' ->.
Qed.
End Facts.
