(* ===== verification/ManagerProps.v ===== *)
(** * The manager's contract

    The theorems about one manager run alone: starting, stopping, restarting
    and closing, the invariant over any sequence of operations, and the
    projections of its state.  The specifications of the parts are in
    ManagerFacts. *)

From S2P Require Import Prelude Prog GoText GoPath PluginID Auth Runtime Bundle EventLog PluginApi Manager ManagerWorld ManagerFacts.

Section Props.
Context `{UnicodeTables}.
Variable cfg : Config.
Implicit Types w : world.

Notation wp := (wp mgr_step).

(** ** Close *)

(** What Close leaves when it runs for the first time. *)
Record close_done (r : option error) w w' : Prop := {
  cd_closed : closed (w_m w') = true ∧ closedCh (w_m w') = true ∧ closeOnce (w_m w') = true;
  cd_result : closeErr (w_m w') = r;
  cd_untrusted : cmd (w_m w') = None ∧ client (w_m w') = None
    ∧ st_Healthy (state (w_m w')) = false;
  cd_resources : w_conns w' = ∅ ∧ w_running w' ∖ w_lost w' = ∅;
  cd_token : token_gone cfg w';
  cd_inv : Inv cfg w';
}.

Lemma Inv_bookkeeping m w :
  Inv cfg w →
  state m = state (w_m w) → cmd m = cmd (w_m w) → client m = client (w_m w) →
  closed m = closed (w_m w) → Inv cfg (set_m m w).
Proof.
  intros [] E1 E2 E3 E4. constructor; simpl; rewrite ?E1, ?E2, ?E3, ?E4; done.
Qed.

Lemma Inv_no_resources w :
  Inv cfg w → cmd (w_m w) = None → client (w_m w) = None →
  w_conns w = ∅ ∧ w_running w ∖ w_lost w = ∅.
Proof.
  intros [_ _ _ _ _ _ _ Hc Hr] E1 E2. rewrite E1 in Hr. rewrite E2 in Hc. simpl in *. set_solver.
Qed.

Lemma close_finish_Inv w :
  Inv cfg w → cmd (w_m w) = None → client (w_m w) = None →
  Inv cfg (set_m (close_finish (w_m w)).2 w).
Proof.
  intros [] E1 E2. unfold close_finish. destruct (closed (w_m w)) eqn:Hc; simpl.
  - by constructor; simpl; rewrite ?E1, ?E2 in *.
  - by constructor; simpl; rewrite ?E1, ?E2 in *.
Qed.

Lemma close_body_spec w :
  Inv cfg w →
  wp (close_body cfg) (λ _ w', close_done (closeErr (w_m w')) w w') w.
Proof.
  intros Hi. unfold close_body.
  apply (wp_seq _ _ (λ _ w1, Inv cfg w1 ∧ cmd (w_m w1) = None ∧ client (w_m w1) = None)).
  { eapply wp_mono; [apply stopCurrent_spec|]. intros r w1. cbn beta.
    destruct (closed (w_m w)) eqn:Hc.
    - intros [_ ->]. split_and!; [done|by apply Hi|]. destruct (client (w_m w)) eqn:E; [|done].
      destruct (inv_client _ _ Hi) as [p Hp]; [by rewrite E|]. by rewrite (inv_closed _ _ Hi) in Hp.
    - intros Hs. destruct (stop_Inv _ _ _ _ _ Hi Hc Hs) as (? & ? & ? & _). done. }
  intros e w1 (Hi1 & E1 & E2). apply wp_atomic_seq, wp_atomic_seq. cbn [fst snd].
  set (w2 := set_m (close_finish (w_m (set_m {| (w_m w1) with closeErr := e |} w1))).2
    (set_m {| (w_m w1) with closeErr := e |} w1)).
  assert (Inv cfg w2 ∧ cmd (w_m w2) = None ∧ client (w_m w2) = None ∧ closed (w_m w2) = true
    ∧ closedCh (w_m w2) = true) as (Hi2 & F1 & F2 & F3 & F4).
  { split; [apply close_finish_Inv; [by apply Inv_bookkeeping|done..]|].
    unfold w2, close_finish. simpl. by destruct (closed (w_m w1)) eqn:?. }
  clearbody w2. apply (wp_bind mgr_step).
  eapply wp_mono; [apply wp_conj; [by apply cleanup_Inv|apply cleanupRuntimeArtifacts_spec]|].
  intros [] w3 [Hi3 [([Em _ _ _ _ _] & _ & _) Htok]]. specialize (Htok (or_introl eq_refl)).
  apply wp_trigger_seq. intros l w4 ->. apply wp_atomic_seq. apply wp_atomic. cbn [fst snd].
  destruct (Inv_no_resources w3) as [Hc3 Hr3]; [done|by rewrite Em..|].
  assert (st_Healthy (state (w_m w3)) = false) as Hh.
  { destruct (st_Healthy _) eqn:E; [|done]. destruct (inv_healthy _ _ Hi3 E) as [c Hc].
    rewrite Em in Hc. congruence. }
  assert (∀ m, m = w_m w3 ∨ m = {| (w_m w3) with closeErr := l |} →
    state m = state (w_m w3) ∧ cmd m = None ∧ client m = None ∧ closed m = true ∧ closedCh m = true)
    as Hm.
  { rewrite <- Em in *. by intros m [-> | ->]; split_and!. }
  set (m := if bool_decide (closeErr (w_m w3) = None) then _ else _).
  destruct (Hm m) as (G1 & G2 & G3 & G4 & G5); [unfold m; case_bool_decide; auto|].
  clearbody m. constructor; simpl; rewrite ?G1, ?G2, ?G3, ?G4, ?G5; try done.
  apply (Inv_bookkeeping _ w3); simpl; rewrite ?G1, ?G2, ?G3, ?G4, ?Em, ?F1, ?F2, ?F3; done.
Qed.

Lemma Close_spec w :
  Inv cfg w →
  wp (Manager_Close cfg) (λ r w',
    if closeOnce (w_m w) then r = closeErr (w_m w) ∧ w' = w else close_done r w w') w.
Proof.
  intros Hi. apply with_lifecycle_spec, wp_read_seq.
  destruct (closeOnce (w_m w)).
  - intros r w1 [-> ->]. simpl. by rewrite set_m_eta.
  - eapply wp_seq; [by apply close_body_spec|]. intros [] w' Hw'. by apply wp_read.
Qed.

(** ** Any sequence of operations *)

Inductive operation : Type :=
| OpStart | OpKill | OpRestart | OpClose | OpHeartbeat
| OpEcho (message : string) | OpSleep (duration : Z) | OpCrash (code : Z)
| OpMonitor (ticks : nat).

Definition op_prog (o : operation) : prog mgrE (option error) :=
  match o with
  | OpStart => Start cfg
  | OpKill => Kill cfg
  | OpRestart => Restart cfg
  | OpClose => Manager_Close cfg
  | OpHeartbeat => r ← Heartbeat cfg; Ret r.2
  | OpEcho message => r ← Manager_Echo cfg message; Ret (error_of r)
  | OpSleep duration => Manager_Sleep cfg duration
  | OpCrash code => Manager_Crash cfg code
  | OpMonitor ticks => MonitorLoop cfg ticks ;; Ret None
  end.

Fixpoint ops_prog (os : list operation) : prog mgrE (list (option error)) :=
  match os with
  | [] => Ret []
  | o :: rest => r ← op_prog o; rs ← ops_prog rest; Ret (r :: rs)
  end.

Lemma monitor_tick_Inv w : Inv cfg w → wp (monitor_tick cfg) (λ _, Inv cfg) w.
Proof.
  intros Hi. unfold monitor_tick. eapply wp_seq; [by apply Heartbeat_Inv|].
  intros [out [e|]] w1 Hw1; [|done]. apply wp_read_seq. destruct (closedCh _); [done|]. mlog.
  eapply wp_seq; [by apply Restart_Inv|]. intros r w2 Hw2. apply (wp_bind mgr_step).
  eapply (wp_mono _ _ (λ _ w', w' = w2)); [by destruct r; [apply wp_log|]|]. by intros [] w3 ->.
Qed.

Lemma MonitorLoop_Inv ticks w : Inv cfg w → wp (MonitorLoop cfg ticks) (λ _, Inv cfg) w.
Proof.
  revert w. induction ticks as [|n IH]; intros w Hi; [done|]. cbn [MonitorLoop].
  eapply wp_seq; [by apply monitor_tick_Inv|]. intros [|] w1 Hw1; [by apply IH|done].
Qed.

Lemma op_Inv o w : Inv cfg w → wp (op_prog o) (λ _, Inv cfg) w.
Proof.
  intros Hi. destruct o; cbn [op_prog].
  - by apply with_lifecycle_spec, startLocked_Inv.
  - by apply with_lifecycle_spec, stopCurrent_Inv.
  - by apply Restart_Inv.
  - eapply wp_mono; [by apply Close_spec|]. intros r w'. cbn beta.
    destruct (closeOnce _); [by intros [_ ->]|]. by intros [].
  - eapply wp_seq; [by apply Heartbeat_Inv|]. done.
  - eapply wp_seq; [by apply routed_Inv|]. done.
  - eapply wp_seq; [by apply routed_Inv|]. done.
  - eapply wp_seq; [by apply routed_Inv|]. done.
  - eapply wp_seq; [by apply MonitorLoop_Inv|]. done.
Qed.

Definition world0 : world := mkWorld manager0 0 ∅ ∅ ∅ ∅ ∅ [] 0 0.

Lemma Inv_world0 : Inv cfg world0.
Proof. constructor; simpl; try done; try set_solver. Qed.

(** C2. Resource safety of a manager over its whole life.  After any sequence
    of operations on a new manager, whatever the plugin and the operating
    system answer: a healthy manager has a client, a client has a process, the
    reported PID is that process's, a closed manager has neither; the manager
    holds no connection but its client's and no process but its own, except
    those the operating system refused to wait for or to kill; and the
    generation stays a uint64. *)
Theorem manager_invariant os :
  wp (ops_prog os) (λ rs w', length rs = length os ∧ Inv cfg w') world0.
Proof.
  assert (∀ w, Inv cfg w → wp (ops_prog os) (λ rs w', length rs = length os ∧ Inv cfg w') w) as Hall.
  { induction os as [|o os IH]; intros w Hi; [done|]. cbn [ops_prog].
    eapply wp_seq; [by apply op_Inv|]. intros r w1 Hw1.
    eapply wp_seq; [by apply IH|]. intros rs w2 [Hl Hw2]. simpl. by split; [f_equal|]. }
  apply Hall, Inv_world0.
Qed.

(** ** Starting *)

(** C1. Start marks a generation healthy only when it has been authenticated:
    a nil result means that the kernel spawned a new process, dialled it,
    checked its peer credentials, and got the expected plugin id and the new
    generation in answer to Auth with this start's token and to Capabilities,
    in that order; the state then is that of the new process, and the token
    file is gone.  An error means that the manager was closed or running and
    nothing changed, or that the attempt is undone: no process, connection or
    health is left and the generation number is back where it was. *)
Theorem Start_contract w :
  fresh w → 0 <= st_GenerationID (state (w_m w)) < two64 →
  wp (Start cfg) (λ r w', match r with
    | Some _ => ¬ idle w ∧ w' = w ∨ start_reverted cfg w w'
    | None => ∃ p c token env cred auth caps, start_done cfg p c token env cred auth caps w w'
    end) w.
Proof.
  intros Hf Hg. apply with_lifecycle_spec. eapply wp_mono; [by apply startLocked_spec|].
  intros [e|] w'; [|done]. intros [[Hb ->]|Hr]; [left|by right]. split; [|done].
  intros (E1 & E2 & E3). rewrite E1, E2, E3 in Hb. by destruct Hb as [?|[?|?]].
Qed.

(** ** Stopping *)

(** C5. Kill revokes trust before it does anything else and releases
    everything: afterwards the manager has no client and no process, is not
    healthy, its rpc epoch has moved on by one (modulo 2^64) with the
    generation unchanged, and its connection is closed.  A nil result means
    that the process has been waited for and the token file is gone.  A closed
    manager refuses and is left as it is. *)
Theorem Kill_contract w :
  Inv cfg w →
  wp (Kill cfg) (λ r w',
    if closed (w_m w) then r = Some (errors_New "manager closed") ∧ w' = w
    else client (w_m w') = None ∧ cmd (w_m w') = None
      ∧ st_Healthy (state (w_m w')) = false ∧ st_PID (state (w_m w')) = 0
      ∧ rpcEpoch (w_m w') = uint64 (rpcEpoch (w_m w) + 1)
      ∧ st_GenerationID (state (w_m w')) = st_GenerationID (state (w_m w))
      ∧ w_conns w' = ∅ ∧ w_running w' ∖ w_lost w' = ∅
      ∧ (r = None → w_lost w' = w_lost w ∧ token_gone cfg w')) w.
Proof.
  intros Hi. apply with_lifecycle_spec. eapply wp_mono; [apply stopCurrent_spec|].
  intros r w'. cbn beta. destruct (closed (w_m w)) eqn:Hc; [done|]. intros Hs.
  destruct (stop_Inv _ _ _ _ _ Hi Hc Hs) as (Hi' & E1 & E2 & _).
  destruct (Inv_no_resources w') as [Hc' Hr']; [done..|].
  destruct (stopped_state false w Hc) as (_ & _ & E3 & E4 & E5 & _ & E7).
  rewrite <- (stopped_m _ _ _ _ _ Hs) in *. split_and!; try done. apply Hs.
Qed.

(** ** Restart *)

(** What Restart leaves of [w]. *)
Definition restarted (w : world) (r : option error) (w' : world) : Prop :=
  match r with
  | Some _ => if closed (w_m w) then w' = w else
      client (w_m w') = None ∧ cmd (w_m w') = None ∧ st_Healthy (state (w_m w')) = false
      ∧ w_conns w' = ∅ ∧ w_running w' ∖ w_lost w' = ∅
  | None => ∃ p c, cmd (w_m w') = Some p ∧ client (w_m w') = Some c
      ∧ proc_id p ∉ w_running w ∧ c ∉ w_conns w
      ∧ st_Healthy (state (w_m w')) = true
      ∧ st_PluginID (state (w_m w')) = PluginID cfg
      ∧ st_GenerationID (state (w_m w')) = next_generation w
      ∧ w_conns w' = {[c]} ∧ w_running w' ∖ w_lost w' ⊆ {[proc_id p]}
  end.

Lemma Restart_spec w : Inv cfg w → wp (Restart cfg) (restarted w) w.
Proof.
  unfold restarted.
  intros Hi. apply with_lifecycle_spec, wp_read_seq. cbn [view view_closed].
  destruct (closed (w_m w)) eqn:Hc; [done|]. mlog.
  eapply wp_seq; [apply stopCurrent_spec|]. rewrite Hc. intros r w1 Hs.
  destruct (stop_Inv _ _ _ _ _ Hi Hc Hs) as (Hi1 & E1 & E2 & _ & E4 & E5).
  destruct (Inv_no_resources w1) as [Hc1 Hr1]; [done..|].
  destruct r as [e|]; [by mlog|].
  eapply wp_seq; [apply startLocked_spec; apply Hi1|]. intros [e|] w2 Hst; cbn beta iota in Hst.
  - mlog. simpl. destruct Hst as [[_ ->]|Hrev]; [done|].
    pose proof (reverted_Inv _ _ _ Hi1 Hrev) as Hi2.
    rewrite (reverted_m _ _ _ Hrev). simpl. rewrite E1, E2. split_and!; try done.
    + by rewrite (reverted_conns _ _ _ Hrev).
    + pose proof (inv_running _ _ Hi2) as Hr2. rewrite (reverted_m _ _ _ Hrev) in Hr2.
      simpl in Hr2. rewrite E1 in Hr2. simpl in Hr2. set_solver.
  - apply wp_read_seq. mlog. destruct Hst as (p & c & token & env & cred & auth & caps & Hd).
    pose proof (done_Inv _ _ _ _ _ _ _ _ _ _ Hi1 Hd) as Hi2.
    destruct Hd as [_ (_ & _ & C1 & C2 & _) _ (Hp & -> & _) Dm _ Dr _ Dc _ _ _].
    simpl. exists p, (w_nextc w1). rewrite Dm. simpl.
    pose proof (stopped_nextp _ _ _ _ _ Hs) as Snp. pose proof (stopped_nextc _ _ _ _ _ Hs) as Snc.
    destruct (inv_fresh _ _ Hi) as [Hf1 Hf2].
    split_and!; try done.
    + rewrite Hp, Snp. intros Hin. specialize (Hf1 _ Hin). lia.
    + rewrite Snc. intros Hin. specialize (Hf2 _ Hin). lia.
    + rewrite C2. unfold next_generation. by rewrite E4.
    + rewrite Dc, Hc1. set_solver.
    + pose proof (inv_running _ _ Hi2) as Hr2. rewrite Dm in Hr2. done.
Qed.

(** C4. Restart is replacement, not resumption.  When it returns nil the
    manager is healthy with a process and a connection that are both new, its
    generation is one more, and the connection and process it had are gone;
    when it returns an error on an open manager, nothing is trusted any more. *)
Theorem Restart_contract w :
  Inv cfg w →
  wp (Restart cfg) (λ r w', match r with
    | Some _ => if closed (w_m w) then w' = w else
        client (w_m w') = None ∧ cmd (w_m w') = None ∧ st_Healthy (state (w_m w')) = false
        ∧ w_conns w' = ∅ ∧ w_running w' ∖ w_lost w' = ∅
    | None => ∃ p c, cmd (w_m w') = Some p ∧ client (w_m w') = Some c
        ∧ proc_id p ∉ w_running w ∧ c ∉ w_conns w
        ∧ st_Healthy (state (w_m w')) = true
        ∧ st_PluginID (state (w_m w')) = PluginID cfg
        ∧ st_GenerationID (state (w_m w')) = next_generation w
        ∧ w_conns w' = {[c]} ∧ w_running w' ∖ w_lost w' ⊆ {[proc_id p]}
    end) w.
Proof. exact (Restart_spec w). Qed.

(** ** Closing *)

(** C6. Close shuts the manager down once and for all: the first call leaves
    it closed and untrusted with no process, connection or token of its own,
    whatever fails on the way; every further call answers the first call's
    error and changes nothing. *)
Theorem Close_contract w :
  Inv cfg w →
  wp (Manager_Close cfg) (λ r w',
    if closeOnce (w_m w) then r = closeErr (w_m w) ∧ w' = w else close_done r w w') w.
Proof. exact (Close_spec w). Qed.

(** C7. A closed manager refuses every operation with "manager closed", and
    nothing changes: no state, no process, no call reaches a plugin. *)
Theorem closed_refuses o w :
  closed (w_m w) = true → o ≠ OpClose → (∀ ticks, o ≠ OpMonitor ticks) →
  wp (op_prog o) (λ r w', r = Some (errors_New "manager closed") ∧ w' = w) w.
Proof.
  intros Hc Hnc Hnm.
  assert (∀ X (args : request X), wp (routed cfg args)
    (λ r w', r = Err (errors_New "manager closed") ∧ w' = w) w) as Hrouted.
  { intros X args. unfold routed. apply wp_read_seq. cbn [view view_closed]. by rewrite Hc. }
  destruct o; cbn [op_prog]; try done.
  - apply with_lifecycle_spec, wp_atomic_seq. unfold start_begin. rewrite Hc. cbn [fst snd].
    by rewrite set_m_eta.
  - apply with_lifecycle_spec. eapply wp_mono; [apply stopCurrent_spec|]. intros r w'. cbn beta.
    by rewrite Hc.
  - apply with_lifecycle_spec, wp_read_seq. cbn [view view_closed]. by rewrite Hc.
  - apply (wp_bind mgr_step). unfold Heartbeat. apply wp_read_seq. cbn [view view_closed].
    by rewrite Hc.
  - eapply wp_seq; [apply Hrouted|]. by intros r w' [-> ->].
  - eapply wp_seq; [apply Hrouted|]. by intros r w' [-> ->].
  - eapply wp_seq; [apply Hrouted|]. by intros r w' [-> ->].
  - by destruct (Hnm ticks).
Qed.

(** ** Talking to the plugin *)

Definition with_healthy (b : bool) (m : Manager) : Manager :=
  {| m with state := {| (state m) with st_Healthy := b |} |}.

(** What a heartbeat leaves. *)
Lemma Heartbeat_spec w :
  wp (Heartbeat cfg) (λ r w',
    match r.2 with
    | None => ∃ c, closed (w_m w) = false ∧ client (w_m w) = Some c
        ∧ w_obs w' = w_obs w ++ [OCall c RHeartbeat r.1 (Done None)]
        ∧ w_m w' = with_healthy (bool_decide (hr_Status r.1 = StatusHealthy)) (w_m w)
    | Some _ => w_m w' = w_m w
        ∨ ∃ c, client (w_m w) = Some c ∧ w_m w' = (detach_client c (w_m w)).2
            ∧ c ∉ w_conns w'
    end) w.
Proof.
  unfold Heartbeat. apply wp_read_seq. cbn [view view_closed view_client].
  destruct (closed (w_m w)) eqn:Hc; [by left|].
  destruct (client (w_m w)) as [c|] eqn:Hcl; [|by left].
  apply (wp_bind mgr_step), call_spec. intros reply res w1. split.
  - intros -> _. apply wp_atomic_seq. unfold heartbeat_commit.
    change (w_m w1) with (w_m w). rewrite Hc, Hcl, bool_decide_eq_true_2, !Z.eqb_refl by done.
    cbn [orb negb fst snd]. apply (wp_bind mgr_step).
    eapply wp_mono; [apply heartbeat_report_spec|]. intros [] w' ->. exists c. split_and!; try done.
    unfold with_healthy. simpl. by rewrite Hc, Hcl.
  - intros e _. split; [mlog; by left|]. intros _. mlog. right. exists c.
    split_and!; [done|done|]. simpl. set_solver.
Qed.

(** C26. A heartbeat of a manager run alone reports what the plugin said and
    only that: on success the reply came from the current client and Healthy
    becomes exactly "the status is healthy"; on an error the state is
    unchanged, or the client has been detached and health withdrawn.  Nothing
    else of the manager's state ever changes. *)
Theorem Heartbeat_contract w :
  wp (Heartbeat cfg) (λ r w',
    match r.2 with
    | None => ∃ c, closed (w_m w) = false ∧ client (w_m w) = Some c
        ∧ w_obs w' = w_obs w ++ [OCall c RHeartbeat r.1 (Done None)]
        ∧ w_m w' = with_healthy (bool_decide (hr_Status r.1 = StatusHealthy)) (w_m w)
    | Some _ => w_m w' = w_m w
        ∨ ∃ c, client (w_m w) = Some c ∧ w_m w' = (detach_client c (w_m w)).2
            ∧ c ∉ w_conns w'
    end) w.
Proof. exact (Heartbeat_spec w). Qed.

(** Echo, Sleep and Crash answer with what the current client replied, or
    with an error.  A nil error means that exactly one call was made, on the
    client that was current, that it succeeded, and that the manager did not
    change; an error leaves it unchanged or with that client detached and its
    connection closed. *)
Theorem routed_contract {X} (args : request X) w :
  wp (routed cfg args) (λ r w', match r with
    | Ok x => ∃ c, closed (w_m w) = false ∧ client (w_m w) = Some c
        ∧ w' = observe (OCall c args x (Done None)) w
    | Err _ => w_m w' = w_m w
        ∨ ∃ c, client (w_m w) = Some c ∧ w_m w' = (detach_client c (w_m w)).2 ∧ c ∉ w_conns w'
    end) w.
Proof.
  unfold routed. apply wp_read_seq. cbn [view view_closed view_client].
  destruct (closed (w_m w)) eqn:Hc; [by left|].
  destruct (client (w_m w)) as [c|] eqn:Hcl; [|by left].
  apply (wp_bind mgr_step), call_spec. intros reply res w1. split.
  - intros -> _. by exists c.
  - intros e _. split; [by left|]. intros _. right. exists c. split_and!; [done|done|].
    simpl. set_solver.
Qed.

(** ** Dialling *)

(** The dial loop always ends by itself: the fuel given to it covers the
    whole dial timeout, whatever it is, because each round sleeps 50ms; running
    out of fuel never happens. *)
Theorem dial_terminates w :
  wp (now ← trigger Now; dial_loop cfg (dial_fuel cfg) (now + DialTimeout cfg))
    (λ r _, r ≠ OutOfFuel) w.
Proof.
  apply wp_trigger_seq. intros now w1 [_ ->]. apply dial_loop_fuel; [|unfold dial_fuel; lia].
  change (w_now (set_now now w)) with now. unfold dial_fuel, Millisecond.
  set (D := DialTimeout cfg). zlia.
Qed.

(** ** Projections *)

(** Metadata that speaks of exactly this plugin and generation. *)
Definition bound (st : State) (md : ProviderBundleMetadata) : Prop :=
  md_PluginID md = st_PluginID st ∧ md_PluginGeneration md = int64 (st_GenerationID st).

#[local] Instance bound_dec st md : Decision (bound st md).
Proof. unfold bound. apply _. Defined.

Definition bound_only (st : State) (o : option ProviderBundleMetadata) : option ProviderBundleMetadata :=
  md ← o; if bool_decide (bound st md) then Some md else None.

(** C27. Declared bundle metadata is projected for one generation only.  The
    manager shows the refresh entry of its current generation when that entry
    names this plugin and generation, else its static metadata when that does,
    else nothing; in particular the admin and core snapshots never carry
    metadata of another plugin or of a stale generation. *)
Theorem metadata_generation_bound st :
  let refreshed := refresh ← cfg_ProviderBundleMetadataRefresh cfg;
                   refresh !! int64 (st_GenerationID st) in
  let shown := match bound_only st refreshed with
               | Some md => Some md
               | None => bound_only st (cfg_ProviderBundleMetadata cfg)
               end in
  generationBoundProviderBundleMetadataLocked cfg st = shown
  ∧ ∀ m, state m = st →
      (∀ d, st_Declared (snapshot cfg m) = Some d → adm_PluginGeneration d = int64 (st_GenerationID st))
      ∧ (∀ d, cst_Declared (core_snapshot cfg m) = Some d →
           core_PluginID d = st_PluginID st ∧ core_PluginGeneration d = int64 (st_GenerationID st)).
Proof.
  assert (∀ md, (bool_decide (md_PluginID md = st_PluginID st)
    && (md_PluginGeneration md =? int64 (st_GenerationID st))) = bool_decide (bound st md)) as Hb.
  { intros md. apply eq_bool_prop_intro. rewrite !Is_true_true, andb_true_iff, Z.eqb_eq,
      !bool_decide_eq_true. done. }
  assert (∀ md, Clone md = md) as Hclone by by intros [].
  simpl. split.
  - unfold generationBoundProviderBundleMetadataLocked, bound_only.
    assert (match cfg_ProviderBundleMetadata cfg with
      | None => None
      | Some md => if negb (bool_decide (bound st md)) then None else Some md
      end = md ← cfg_ProviderBundleMetadata cfg; if bool_decide (bound st md) then Some md else None)
      as Hstatic.
    { destruct (cfg_ProviderBundleMetadata cfg) as [md|]; [simpl|done]. by destruct (bool_decide _). }
    destruct (cfg_ProviderBundleMetadata cfg) as [md0|];
      (destruct (cfg_ProviderBundleMetadataRefresh cfg) as [refresh|]; simpl;
       [destruct (refresh !! int64 (st_GenerationID st)) as [md|]; simpl|]);
      rewrite ?Hclone, ?Hb; try (destruct (bool_decide (bound st md)); [done|]); done.
  - assert (∀ md, generationBoundProviderBundleMetadataLocked cfg st = Some md → bound st md) as Hbound.
    { intros md. unfold generationBoundProviderBundleMetadataLocked.
      destruct (refresh ← _; _) as [md1|] eqn:E.
      - intros [= <-]. destruct (cfg_ProviderBundleMetadataRefresh cfg) as [refresh|]; [|done].
        simpl in E. destruct (refresh !! _) as [md|]; [|done]. simpl in E.
        rewrite Hclone, Hb in E. case_bool_decide; [by simplify_eq|done].
      - destruct (cfg_ProviderBundleMetadata cfg) as [md0|]; [|done].
        rewrite Hclone, Hb. case_bool_decide; simpl; [by intros [= <-]|done]. }
    intros m Em. unfold snapshot, core_snapshot, providerBundleAdminDTOLocked, providerBundleCoreDTOLocked.
    rewrite Em. simpl.
    destruct (generationBoundProviderBundleMetadataLocked cfg st) as [md|]; simpl; [|done].
    destruct (Hbound md eq_refl) as [H1 H2]. split; intros d [= <-]; simpl; auto.
Qed.
End Props.
