(* ===== verification/Lifecycle.v ===== *)
(** * The life of a manager, abstractly

    A supervised plugin is down, up, lost (its connection is given up but the
    process has not been stopped) or shut for good, and has a generation.  Every
    operation of the manager is a transition of this small machine, whatever
    the plugin, the operating system and the clock do; what holds of the
    machine's runs holds of the manager's. *)

From S2P Require Import Prelude Prog GoText GoPath PluginID Auth Runtime Bundle EventLog PluginApi Manager ManagerWorld ManagerFacts ManagerProps.

(** ** The machine *)
Inductive life : Type :=
| Down (g : Z)                     (* no process *)
| Up (g : Z) (healthy : bool)      (* a process and its connection *)
| Lost (g : Z)                     (* a process without a connection *)
| Shut.                            (* closed *)

Definition gen_of (l : life) : Z := match l with Down g | Up g _ | Lost g => g | Shut => 0 end.
Definition next (g : Z) : Z := uint64 (g + 1).
Definition is_down (l : life) : bool := match l with Down _ => true | _ => false end.

(** An operation that asks the plugin something. *)
Definition is_call (o : operation) : bool :=
  match o with OpEcho _ | OpSleep _ | OpCrash _ => true | _ => false end.

(** The ticks of a monitor. *)
Inductive life_ticks : nat → life → life → Prop :=
| ticks_end l : life_ticks 0 l l
| ticks_shut n : life_ticks n Shut Shut
| ticks_well n g h h' l : life_ticks n (Up g h') l → life_ticks (S n) (Up g h) l
| ticks_restarted n l l' : l ≠ Shut → life_ticks n (Up (next (gen_of l)) true) l' → life_ticks (S n) l l'
| ticks_failed n l l' : l ≠ Shut → life_ticks n (Down (gen_of l)) l' → life_ticks (S n) l l'.

(** [life_step o l r l']: the operation [o] may answer [r] in [l], leading to [l']. *)
Inductive life_step : operation → life → option error → life → Prop :=
| life_start g : life_step OpStart (Down g) None (Up (next g) true)
| life_start_failed g e : life_step OpStart (Down g) (Some e) (Down g)
| life_start_busy l e : is_down l = false → life_step OpStart l (Some e) l
| life_kill l r : l ≠ Shut → life_step OpKill l r (Down (gen_of l))
| life_restart l : l ≠ Shut → life_step OpRestart l None (Up (next (gen_of l)) true)
| life_restart_failed l e : l ≠ Shut → life_step OpRestart l (Some e) (Down (gen_of l))
| life_close l r : life_step OpClose l r Shut
| life_heartbeat g h h' : life_step OpHeartbeat (Up g h) None (Up g h')
| life_call o g h : is_call o = true → life_step o (Up g h) None (Up g h)
| life_call_failed o l e : is_call o = true ∨ o = OpHeartbeat → life_step o l (Some e) l
| life_call_lost o g h e : is_call o = true ∨ o = OpHeartbeat → life_step o (Up g h) (Some e) (Lost g)
| life_shut o e : o = OpKill ∨ o = OpRestart → life_step o Shut (Some e) Shut
| life_monitor n l l' : life_ticks n l l' → life_step (OpMonitor n) l None l'.

Inductive life_run : list operation → life → list (option error) → life → Prop :=
| run_nil l : life_run [] l [] l
| run_cons o os l r l1 rs l2 :
    life_step o l r l1 → life_run os l1 rs l2 → life_run (o :: os) l (r :: rs) l2.

(** *** What holds of its runs *)

(** Shut is for ever. *)
Lemma shut_step o l r l' : life_step o l r l' → l = Shut → l' = Shut.
Proof.
  intros Hs. destruct Hs as [| | | | | | | | | | | |n l l' Ht]; try done. intros ->. by inversion Ht.
Qed.

Lemma shut_run os l rs l' : life_run os l rs l' → l = Shut → l' = Shut.
Proof. induction 1 as [|o os l r l1 rs l2 Hs _ IH]; [done|]. intros Hl. by eapply IH, shut_step. Qed.

(** The generations begun: the starts and restarts that returned nil. *)
Definition begins (o : operation) (r : option error) : nat :=
  match o, r with OpStart, None | OpRestart, None => 1 | _, _ => 0 end.
Fixpoint begun_count (os : list operation) (rs : list (option error)) : nat :=
  match os, rs with o :: os, r :: rs => begins o r + begun_count os rs | _, _ => 0 end.

Definition no_monitor (o : operation) : bool := match o with OpMonitor _ => false | _ => true end.

Definition after (g : Z) (n : nat) : Z := uint64 (g + Z.of_nat n).

Lemma after_0 g : 0 <= g < two64 → after g 0 = g.
Proof. intros Hg. unfold after. rewrite Z.add_0_r. by apply uint64_small. Qed.

Lemma after_next g n : after (next g) n = after g (S n).
Proof.
  unfold after, next, uint64. rewrite Zplus_mod_idemp_l. f_equal. lia.
Qed.

Lemma life_step_generation o l r l' :
  no_monitor o = true → 0 <= gen_of l < two64 → life_step o l r l' → l' ≠ Shut →
  gen_of l' = after (gen_of l) (begins o r) ∧ 0 <= gen_of l' < two64.
Proof.
  intros Hm Hg Hs Hl.
  assert (∀ n, 0 <= after (gen_of l) n < two64) as Hr by (intros n; apply uint64_range).
  assert (gen_of l' = after (gen_of l) (begins o r)) as ->; [|by split].
  destruct Hs as [g|g e|l e Hd|l r1 Hn|l Hn|l e Hn|l r1|g h h'|o g h Hc|o l e Hc|o g h e Hc|o e Hc|n l l' Ht];
    cbn [begins gen_of] in *; try done; try (by rewrite after_0).
  - destruct o; try done; by rewrite after_0.
  - destruct Hc as [Hc| ->]; [destruct o; try done|]; by rewrite after_0.
  - destruct Hc as [Hc| ->]; [destruct o; try done|]; by rewrite after_0.
Qed.

(** The generation counts them. *)
Lemma life_run_generation os l rs l' :
  forallb no_monitor os = true → 0 <= gen_of l < two64 → life_run os l rs l' → l' ≠ Shut →
  gen_of l' = after (gen_of l) (begun_count os rs).
Proof.
  intros Hm Hg Hr. revert Hm Hg. induction Hr as [l|o os l r l1 rs l2 Hs Hr IH]; intros Hm Hg Hl.
  - by rewrite after_0.
  - cbn [forallb] in Hm. apply andb_prop in Hm as [Ho Hm].
    assert (l1 ≠ Shut) as Hl1 by (intros E; apply Hl; by eapply shut_run).
    destruct (life_step_generation o l r l1 Ho Hg Hs Hl1) as [E Hg1].
    rewrite (IH Hm Hg1 Hl), E. cbn [begun_count]. unfold after, uint64. rewrite Zplus_mod_idemp_l. f_equal. lia.
Qed.

(** ** The manager as this machine *)

(** What the machine sees of a manager. *)
Definition view_life (m : Manager) : life :=
  if closed m then Shut
  else match cmd m, client m with
       | None, _ => Down (st_GenerationID (state m))
       | Some _, Some _ => Up (st_GenerationID (state m)) (st_Healthy (state m))
       | Some _, None => Lost (st_GenerationID (state m))
       end.

Section Refinement.
Context `{UnicodeTables}.
Variable cfg : Config.
Implicit Types w : world.
Notation wp := (wp mgr_step).

(** Between operations: the invariant, and one notion of being closed. *)
Record at_rest w : Prop := {
  rest_inv : Inv cfg w;
  rest_channel : closedCh (w_m w) = closed (w_m w);
  rest_once : closeOnce (w_m w) = closed (w_m w);
}.

(** A step of the manager from [w] to [w'] is one of the machine. *)
Definition moves (o : operation) w (r : option error) w' : Prop :=
  at_rest w' ∧ life_step o (view_life (w_m w)) r (view_life (w_m w')).

(** The bookkeeping of closing is not touched. *)
Definition same_books (m m' : Manager) : Prop :=
  closed m' = closed m ∧ closedCh m' = closedCh m ∧ closeOnce m' = closeOnce m.

Lemma rest_books w w' : at_rest w → Inv cfg w' → same_books (w_m w) (w_m w') → at_rest w'.
Proof. intros [_ H1 H2] Hi (E1 & E2 & E3). constructor; congruence. Qed.

Lemma view_open w : closed (w_m w) = false → view_life (w_m w) ≠ Shut.
Proof. intros Hc. unfold view_life. rewrite Hc. by destruct (cmd (w_m w)), (client (w_m w)). Qed.

Lemma view_gen w : closed (w_m w) = false → gen_of (view_life (w_m w)) = st_GenerationID (state (w_m w)).
Proof. intros Hc. unfold view_life. rewrite Hc. by destruct (cmd (w_m w)), (client (w_m w)). Qed.

Lemma view_shut w : closed (w_m w) = true → view_life (w_m w) = Shut.
Proof. intros Hc. unfold view_life. by rewrite Hc. Qed.

Lemma view_down w : closed (w_m w) = false → cmd (w_m w) = None → view_life (w_m w) = Down (st_GenerationID (state (w_m w))).
Proof. intros Hc Hp. unfold view_life. by rewrite Hc, Hp. Qed.

(** *** Starting *)
Lemma done_view p c token env cred auth caps w w' :
  start_done cfg p c token env cred auth caps w w' →
  view_life (w_m w') = Up (next_generation w) true ∧ same_books (w_m w) (w_m w').
Proof.
  intros [(Hc & _) (_ & _ & _ & Hg & _) _ _ Hm _ _ _ _ _ _ _]. rewrite Hm. unfold view_life, start_commit. simpl.
  rewrite Hc. split; [by rewrite Hg|done].
Qed.

Lemma reverted_view w w' :
  start_reverted cfg w w' →
  view_life (w_m w') = Down (st_GenerationID (state (w_m w))) ∧ same_books (w_m w) (w_m w').
Proof.
  intros [(Hc & Hp & _) Hm _ _ _ _ _ _ _]. rewrite Hm. unfold view_life. simpl. by rewrite Hc, Hp.
Qed.

(** A start, from any state at rest. *)
Lemma startLocked_life w :
  at_rest w → wp (startLocked cfg) (λ r w', moves OpStart w r w') w.
Proof.
  intros Hw. pose proof (rest_inv _ Hw) as Hi.
  eapply wp_mono; [apply (wp_conj mgr_step); [by apply startLocked_Inv|apply startLocked_spec; apply Hi]|].
  intros [e|] w' [Hi' Hr].
  - destruct Hr as [[Hbusy ->]|Hrev].
    + split; [done|]. destruct (closed (w_m w)) eqn:Hc; [rewrite (view_shut w Hc); by constructor|].
      constructor. unfold view_life. rewrite Hc. destruct (cmd (w_m w)) eqn:Hp; [by destruct (client _)|].
      destruct Hbusy as [?|[?|Hcl]]; [done|done|]. destruct (client (w_m w)) eqn:Ec; [|done].
      destruct (inv_client _ _ Hi) as [p ?]; [by rewrite Ec|congruence].
    + destruct (reverted_view _ _ Hrev) as [E Hb]. split; [by eapply rest_books|]. rewrite E.
      destruct (reverted_idle _ _ _ Hrev) as (Hc & Hp & _). rewrite view_down by done. constructor.
  - destruct Hr as (p & c & token & env & cred & auth & caps & Hd).
    destruct (done_view _ _ _ _ _ _ _ _ _ Hd) as [E Hb]. split; [by eapply rest_books|]. rewrite E.
    destruct (done_idle _ _ _ _ _ _ _ _ _ _ Hd) as (Hc & Hp & _). rewrite view_down by done. constructor.
Qed.

(** *** Stopping *)
Lemma stop_view r w w' :
  at_rest w → closed (w_m w) = false → stop_done cfg false r w w' →
  at_rest w' ∧ view_life (w_m w') = Down (gen_of (view_life (w_m w))).
Proof.
  intros Hw Hc Hs. destruct (stop_Inv cfg _ _ _ _ (rest_inv _ Hw) Hc Hs) as (Hi & E1 & _ & E3 & E4 & _).
  split.
  - eapply rest_books; [exact Hw|exact Hi|]. rewrite (stopped_m _ _ _ _ _ Hs). unfold stopped_manager, stop_begin.
    rewrite Hc. by repeat split.
  - rewrite view_gen, <- E4 by done. by apply view_down.
Qed.

Lemma Kill_life w : at_rest w → wp (Kill cfg) (λ r w', moves OpKill w r w') w.
Proof.
  intros Hw. apply with_lifecycle_spec. eapply wp_mono; [apply stopCurrent_spec|].
  intros r w'. cbn beta. destruct (closed (w_m w)) eqn:Hc.
  - intros [-> ->]. split; [done|]. rewrite view_shut by done. apply life_shut. by left.
  - intros Hs. destruct (stop_view _ _ _ Hw Hc Hs) as [Hw' E]. split; [done|]. rewrite E.
    constructor. by apply view_open.
Qed.

Lemma Restart_life w : at_rest w → wp (Restart cfg) (λ r w', moves OpRestart w r w') w.
Proof.
  intros Hw. apply with_lifecycle_spec, wp_read_seq. cbn [view view_closed].
  destruct (closed (w_m w)) eqn:Hc.
  { split; [done|]. rewrite view_shut by done. apply life_shut. by right. }
  mlog. eapply wp_seq; [apply stopCurrent_spec|]. rewrite Hc. intros r w1 Hs.
  destruct (stop_view _ _ _ Hw Hc Hs) as [Hw1 E1]. pose proof (view_open w Hc) as Ho.
  destruct r as [e|]; [mlog; split; [done|]; rewrite E1; by constructor|].
  eapply wp_seq; [by apply startLocked_life|]. intros r w2 [Hw2 Hst]. rewrite E1 in Hst.
  destruct r as [e|]; [mlog|apply wp_read_seq; mlog]; (split; [done|]).
  - assert (view_life (w_m w2) = Down (gen_of (view_life (w_m w)))) as -> by by inversion Hst. by constructor.
  - assert (view_life (w_m w2) = Up (next (gen_of (view_life (w_m w)))) true) as -> by by inversion Hst.
    by constructor.
Qed.

Lemma Close_life w : at_rest w → wp (Manager_Close cfg) (λ r w', moves OpClose w r w') w.
Proof.
  intros Hw. eapply wp_mono; [apply Close_spec, Hw|]. intros r w'. cbn beta. rewrite (rest_once _ Hw).
  destruct (closed (w_m w)) eqn:Hc.
  - intros [_ ->]. split; [done|]. rewrite view_shut by done. constructor.
  - intros [(C1 & C2 & C3) _ _ _ _ Hi]. split; [constructor; [done|congruence|congruence]|].
    rewrite (view_shut w') by done. constructor.
Qed.

(** *** Asking the plugin *)

(** The state kept, or the client given up. *)
Lemma detached_moves o w c w' e :
  is_call o = true ∨ o = OpHeartbeat → at_rest w → Inv cfg w' → client (w_m w) = Some c →
  w_m w' = (detach_client c (w_m w)).2 → moves o w (Some e) w'.
Proof.
  intros Ho Hw Hi Hcl Hm. unfold detach_client in Hm. rewrite Hcl, bool_decide_eq_true_2 in Hm by done. cbn [snd] in Hm.
  split; [eapply rest_books; [done|done|]; by rewrite Hm|].
  destruct (inv_client _ _ (rest_inv _ Hw)) as [p Hp]; [by rewrite Hcl|].
  unfold view_life at 2. rewrite Hm. simpl. rewrite Hp.
  destruct (closed (w_m w)) eqn:Hc; [by rewrite (inv_closed _ _ (rest_inv _ Hw) Hc) in Hp|].
  unfold view_life. rewrite Hc, Hp, Hcl. by constructor.
Qed.

Lemma kept_moves o w w' e :
  is_call o = true ∨ o = OpHeartbeat → at_rest w → Inv cfg w' → w_m w' = w_m w → moves o w (Some e) w'.
Proof.
  intros Ho Hw Hi Hm. split; [eapply rest_books; [done|done|]; by rewrite Hm|]. rewrite Hm. by constructor.
Qed.

Lemma up_view w c : closed (w_m w) = false → client (w_m w) = Some c → at_rest w →
  view_life (w_m w) = Up (st_GenerationID (state (w_m w))) (st_Healthy (state (w_m w))).
Proof.
  intros Hc Hcl Hw. destruct (inv_client _ _ (rest_inv _ Hw)) as [p Hp]; [by rewrite Hcl|].
  unfold view_life. by rewrite Hc, Hp, Hcl.
Qed.

Lemma Heartbeat_life w : at_rest w → wp (Heartbeat cfg) (λ r w', moves OpHeartbeat w r.2 w') w.
Proof.
  intros Hw. eapply wp_mono; [apply (wp_conj mgr_step); [apply Heartbeat_Inv, Hw|apply Heartbeat_spec]|].
  intros [out [e|]] w' [Hi Hr]; cbn [fst snd] in Hr |- *.
  - destruct Hr as [Hm|(c & Hcl & Hm & _)]; [apply kept_moves; auto|eapply detached_moves; eauto].
  - destruct Hr as (c & Hc & Hcl & _ & Hm). unfold with_healthy in Hm.
    assert (at_rest w') as Hw' by (eapply rest_books; [done|done|]; by rewrite Hm).
    split; [done|]. rewrite (up_view w c), (up_view w' c) by first [done|by rewrite Hm].
    rewrite Hm. simpl. constructor.
Qed.

Lemma routed_life {X} o (args : request X) w :
  is_call o = true → at_rest w → wp (routed cfg args) (λ r w', moves o w (error_of r) w') w.
Proof.
  intros Ho Hw. eapply wp_mono; [apply (wp_conj mgr_step); [apply routed_Inv, Hw|apply routed_contract]|].
  intros [x|e] w' [Hi Hr]; cbn [error_of].
  - destruct Hr as (c & Hc & Hcl & ->). split; [by eapply rest_books|].
    change (w_m (observe ?x w)) with (w_m w). rewrite (up_view w c) by done. by constructor.
  - destruct Hr as [Hm|(c & Hcl & Hm & _)]; [apply kept_moves; auto|eapply detached_moves; eauto].
Qed.

(** *** The monitor *)

(** Before the next tick of a monitor, and after it. *)
Definition ticked w again w' : Prop :=
  at_rest w' ∧
  if again : bool
  then ∀ n l, life_ticks n (view_life (w_m w')) l → life_ticks (S n) (view_life (w_m w)) l
  else view_life (w_m w) = Shut ∧ view_life (w_m w') = Shut.

(** A heartbeat that failed changes neither the generation nor the books. *)
Lemma heartbeat_failed l e l' :
  life_step OpHeartbeat l (Some e) l' → (l' = Shut ↔ l = Shut) ∧ gen_of l' = gen_of l.
Proof. intros Hs. by inversion Hs. Qed.

Lemma heartbeat_passed l l' :
  life_step OpHeartbeat l None l' → ∃ g h h', l = Up g h ∧ l' = Up g h'.
Proof. intros Hs. inversion Hs; subst; [eauto|done]. Qed.

Lemma restart_outcome l r l' :
  life_step OpRestart l r l' → l ≠ Shut →
  l' = match r with None => Up (next (gen_of l)) true | Some _ => Down (gen_of l) end.
Proof.
  intros Hs Hl. inversion Hs as [| | | | | | | |? ? ? Hcall|? ? ? Hcall|? ? ? ? Hcall| |]; subst; try done;
    by destruct Hcall.
Qed.

Lemma monitor_tick_life w : at_rest w → wp (monitor_tick cfg) (ticked w) w.
Proof.
  intros Hw. unfold monitor_tick. eapply wp_seq; [by apply Heartbeat_life|].
  intros [out [e|]] w1 [Hw1 Hs]; cbn [fst snd] in Hs |- *.
  - destruct (heartbeat_failed _ _ _ Hs) as [Hshut Hgen]. apply wp_read_seq. rewrite (rest_channel _ Hw1).
    destruct (closed (w_m w1)) eqn:Hc; [split; [done|]; rewrite <- Hshut, view_shut by done; done|]. mlog.
    pose proof (view_open w1 Hc) as Ho. assert (view_life (w_m w) ≠ Shut) as Ho' by tauto.
    eapply wp_seq; [by apply Restart_life|]. intros r w2 [Hw2 Hr]. apply (wp_bind mgr_step).
    apply (wp_mono _ _ (λ _ w3, w3 = w2)); [by destruct r; [apply wp_log|]|]. intros [] w3 ->.
    split; [done|]. intros n l Hl.
    rewrite (restart_outcome _ _ _ Hr Ho), Hgen in Hl. destruct r; [by apply ticks_failed|by apply ticks_restarted].
  - split; [done|]. intros n l Hl. destruct (heartbeat_passed _ _ Hs) as (g & h & h' & -> & E).
    rewrite E in Hl. by eapply ticks_well.
Qed.

Lemma MonitorLoop_life n w :
  at_rest w → wp (MonitorLoop cfg n) (λ _ w', at_rest w' ∧ life_ticks n (view_life (w_m w)) (view_life (w_m w'))) w.
Proof.
  revert w. induction n as [|n IH]; intros w Hw; [split; [done|constructor]|]. cbn [MonitorLoop].
  eapply wp_seq; [by apply monitor_tick_life|]. intros [|] w1 [Hw1 Ht].
  - eapply wp_mono; [by apply IH|]. intros [] w2 [Hw2 Hl]. split; [done|]. by apply Ht.
  - destruct Ht as [E1 E2]. split; [done|]. rewrite E1, E2. constructor.
Qed.

(** *** Every operation, and any sequence of them *)
Lemma op_life o w : at_rest w → wp (op_prog cfg o) (λ r w', moves o w r w') w.
Proof.
  intros Hw. destruct o; cbn [op_prog].
  - by apply with_lifecycle_spec, startLocked_life.
  - by apply Kill_life.
  - by apply Restart_life.
  - by apply Close_life.
  - eapply wp_seq; [by apply Heartbeat_life|]. done.
  - eapply wp_seq; [by eapply (routed_life (OpEcho message))|]. done.
  - eapply wp_seq; [by eapply (routed_life (OpSleep duration))|]. done.
  - eapply wp_seq; [by eapply (routed_life (OpCrash code))|]. done.
  - eapply wp_seq; [by apply MonitorLoop_life|]. intros [] w1 [Hw1 Ht]. split; [done|]. by constructor.
Qed.

Lemma ops_life os w :
  at_rest w → wp (ops_prog cfg os) (λ rs w', at_rest w' ∧ life_run os (view_life (w_m w)) rs (view_life (w_m w'))) w.
Proof.
  revert w. induction os as [|o os IH]; intros w Hw; [split; [done|constructor]|]. cbn [ops_prog].
  eapply wp_seq; [by apply op_life|]. intros r w1 [Hw1 Hr].
  eapply wp_seq; [by apply IH|]. intros rs w2 [Hw2 Hrs]. split; [done|]. by econstructor.
Qed.

Lemma rest_world0 : at_rest world0.
Proof. constructor; [apply Inv_world0|done|done]. Qed.

(** C3. A manager is its lifecycle machine.  Any sequence of operations on a
    new manager, whatever the plugin, the operating system and the clock
    answer, answers what a run of the abstract machine answers and ends in the
    view of the machine's state: down, up with a health, lost, or shut for
    good.  So the generation of a manager that was not closed is exactly the
    number of starts and restarts that returned nil (as a uint64), a failed one
    counting nothing, when no monitor runs. *)
Theorem lifecycle_refinement os :
  wp (ops_prog cfg os) (λ rs w',
    life_run os (Down 0) rs (view_life (w_m w'))
    ∧ (forallb no_monitor os = true → closed (w_m w') = false →
         st_GenerationID (state (w_m w')) = uint64 (Z.of_nat (begun_count os rs)))) world0.
Proof.
  eapply wp_mono; [apply ops_life, rest_world0|]. intros rs w' [_ Hr]. split; [exact Hr|].
  intros Hm Hc. rewrite <- view_gen by done.
  assert (0 <= gen_of (Down 0) < two64) as H0 by (unfold two64; simpl; lia).
  rewrite (life_run_generation _ _ _ _ Hm H0 Hr (view_open _ Hc)).
  reflexivity.
Qed.
End Refinement.
