(* ===== verification/ManagerDemo.v ===== *)
(** * A manager that runs

    A well-behaved plugin and operating system to run the manager against
    ([demo_run]), and runs of the manager's operations on it; the theorems of
    ManagerProps are applied to these runs. *)

From S2P Require Import Prelude Prog GoText GoPath PluginID Auth Runtime Bundle EventLog PluginApi Manager ManagerWorld ManagerFacts ManagerProps.

#[local] Existing Instance ascii_tables.

Definition demo_cfg : Config :=
  {| RuntimeDir := "/run/rpc/echo"; PluginPath := "/opt/plugins/echo"; PluginID := "echo";
     DialTimeout := 3 * Second; CallTimeout := 2 * Second; HeartbeatEvery := 2 * Second;
     EventLogPath := "/run/rpc/echo/events.jsonl"; cfg_ProviderBundleMetadata := None;
     cfg_ProviderBundleMetadataRefresh := None; DisableProviderBundleAdminPathRedaction := false |}.

(** What the plugin of [generation] answers. *)
Definition demo_reply (generation : Z) {X} (r : request X) : X :=
  match r in request X return X with
  | RAuth _ => mkAuthResponse "echo" "1.0" generation
  | RCapabilities => mkCapabilitiesResponse "echo" "1.0" generation ["echo"]
  | RHeartbeat => mkHeartbeatResponse "echo" "1.0" generation 1 StatusHealthy 0 0 0
  | REcho message => message
  | RSleep _ => tt
  | RCrash _ => tt
  | RShutdown => tt
  end.

Definition demo_sys (w : world) {X} (e : sysE X) : X :=
  match e in sysE X return X with
  | Lstat path => Ok (if String.prefix "/opt/" path then 0x1C0 else Z.lor ModeDir 0x1C0)
  | MkdirAll _ _ => None
  | Chmod _ _ => None
  | Remove _ => None
  | ListenSocket _ => None
  | CloseListener _ => tt
  | ConnType _ => "*net.UnixConn"
  | SyscallConn _ => None
  | RawControl _ => None
  | GetsockoptUcred _ => Ok (mkPeerCred (99 + Z.of_nat (w_nextp w)) 0 0)
  end.

(** Processes get the ids 100, 101, ...; the plugin exits when asked to. *)
Definition demo_run (X : Type) (e : mgrE X) : world → world * X :=
  match e in mgrE X return world → world * X with
  | Atomic f => λ w, let r := f (w_m w) in (set_m r.2 w, r.1)
  | LockLifecycle | UnlockLifecycle | Log _ => λ w, (w, tt)
  | OpenLog _ | CloseLog => λ w, (w, None)
  | Sys e => λ w, let x := demo_sys w e in (sys_step e x w, x)
  | ReadRandom => λ w, (w, Ok "0123456789abcdef0123456789abcdef")
  | WriteFile path _ => λ w, ({| w with w_secrets := {[path]} ∪ w_secrets w |}, None)
  | Getenv _ => λ w, (w, "")
  | StartProcess c => λ w,
      let p := mkProcess (w_nextp w) (100 + Z.of_nat (w_nextp w)) in (spawned p c w, Ok p)
  | Now => λ w, (w, w_now w)
  | SleepFor d => λ w, (set_now (w_now w + d) w, tt)
  | DialUnix _ => λ w, (connected (w_now w) w, Ok (w_nextc w))
  | CallRPC c r => λ w,
      let x := demo_reply (st_GenerationID (state (w_m w))) r in
      (observe (OCall c r x (Done None)) w, (x, Done None))
  | CloseConn c => λ w, (close_conn c w, None)
  | CloseRPC _ => λ w, (w, None)
  | WaitGrace p => λ w, (reap p w, Some None)
  | SignalKill _ => λ w, (w, None)
  | WaitFinal p => λ w, (reap p w, None)
  | KillProcess _ => λ w, (w, None)
  end.

Lemma demo_run_ok X (e : mgrE X) w : mgr_step X e w (demo_run X e w).2 (demo_run X e w).1.
Proof.
  destruct e; simpl; try done; try by auto.
  - split; [lia|]. by destruct w.
  - exists (w_now w + d). split; [lia|done].
Qed.

(** One operation of the demo plugin. *)
Definition demo (o : operation) (w : world) : world * option error :=
  run demo_run (op_prog demo_cfg o) w.
Definition demo_started : world := (demo OpStart world0).1.
Definition demo_closed : world := (demo OpClose demo_started).1.

Lemma demo_wp o w Q : wp mgr_step (op_prog demo_cfg o) Q w → Q (demo o w).2 (demo o w).1.
Proof. apply (wp_run mgr_step demo_run demo_run_ok). Qed.

Lemma demo_Inv o w : Inv demo_cfg w → Inv demo_cfg (demo o w).1.
Proof.
  intros Hi. apply (demo_wp o w (λ _, Inv demo_cfg)). by apply op_Inv.
Qed.

Lemma demo_started_Inv : Inv demo_cfg demo_started.
Proof. apply demo_Inv, Inv_world0. Qed.

(** ** The theorems on these runs *)

Lemma Start_contract_witness :
  (demo OpStart world0).2 = None
  ∧ st_Healthy (state (w_m demo_started)) = true ∧ st_GenerationID (state (w_m demo_started)) = 1
  ∧ ∃ p c token env cred auth caps,
      start_done demo_cfg p c token env cred auth caps world0 demo_started.
Proof.
  split; [vm_compute; reflexivity|]. split; [vm_compute; reflexivity|].
  split; [vm_compute; reflexivity|].
  pose proof (demo_wp OpStart world0 _
    (Start_contract demo_cfg world0 (inv_fresh _ _ (Inv_world0 demo_cfg))
       (inv_generation _ _ (Inv_world0 demo_cfg)))) as Hs.
  assert ((demo OpStart world0).2 = None) as E by (vm_compute; reflexivity).
  rewrite E in Hs. exact Hs.
Defined.

Lemma Kill_contract_witness :
  (demo OpKill demo_started).2 = None
  ∧ w_running (demo OpKill demo_started).1 ∖ w_lost (demo OpKill demo_started).1 = ∅
  ∧ token_gone demo_cfg (demo OpKill demo_started).1.
Proof.
  assert ((demo OpKill demo_started).2 = None) as E by (vm_compute; reflexivity).
  assert (closed (w_m demo_started) = false) as Ec by (vm_compute; reflexivity).
  pose proof (demo_wp OpKill demo_started _
    (Kill_contract demo_cfg demo_started demo_started_Inv)) as Hs.
  rewrite Ec in Hs. destruct Hs as (_ & _ & _ & _ & _ & _ & _ & Hr & Hok).
  split; [exact E|]. split; [exact Hr|]. apply Hok. exact E.
Defined.

Lemma Restart_contract_witness :
  (demo OpRestart demo_started).2 = None
  ∧ ∃ p c, cmd (w_m (demo OpRestart demo_started).1) = Some p
      ∧ client (w_m (demo OpRestart demo_started).1) = Some c
      ∧ proc_id p ∉ w_running demo_started ∧ c ∉ w_conns demo_started.
Proof.
  assert ((demo OpRestart demo_started).2 = None) as E by (vm_compute; reflexivity).
  pose proof (demo_wp OpRestart demo_started _
    (Restart_contract demo_cfg demo_started demo_started_Inv)) as Hs.
  rewrite E in Hs. destruct Hs as (p & c & H1 & H2 & H3 & H4 & _).
  split; [exact E|]. exists p, c. repeat split; assumption.
Defined.

Lemma Close_contract_witness :
  close_done demo_cfg (demo OpClose demo_started).2 demo_started demo_closed
  ∧ (demo OpClose demo_closed).2 = closeErr (w_m demo_closed).
Proof.
  split.
  - pose proof (demo_wp OpClose demo_started _
      (Close_contract demo_cfg demo_started demo_started_Inv)) as Hs.
    assert (closeOnce (w_m demo_started) = false) as E by (vm_compute; reflexivity).
    rewrite E in Hs. exact Hs.
  - pose proof (demo_wp OpClose demo_closed _
      (Close_contract demo_cfg demo_closed (demo_Inv OpClose _ demo_started_Inv))) as Hs.
    assert (closeOnce (w_m demo_closed) = true) as E by (vm_compute; reflexivity).
    rewrite E in Hs. exact (proj1 Hs).
Defined.

Lemma closed_refuses_witness :
  closed (w_m demo_closed) = true
  ∧ (demo OpRestart demo_closed).2 = Some (errors_New "manager closed")
  ∧ (demo OpRestart demo_closed).1 = demo_closed.
Proof.
  assert (closed (w_m demo_closed) = true) as E by (vm_compute; reflexivity).
  split; [exact E|].
  exact (demo_wp OpRestart demo_closed _
    (closed_refuses demo_cfg OpRestart demo_closed E (λ e, match e with end) (λ t e, match e with end))).
Defined.
