(* ===== verification/Fence.v ===== *)
(** * Many goroutines on one manager

    Operations of one manager run concurrently: a pool of programs over one
    world, interleaved call by call, with the lifecycle lock.  The proof is by
    rely and guarantee.  Programs that do not hold the lock only ever change
    the manager by [mono] steps (health, or detaching the client); programs
    that hold it are proved against that interference. *)

From S2P Require Import Prelude Prog GoText GoPath PluginID Auth Runtime Bundle EventLog PluginApi Manager ManagerWorld ManagerFacts ManagerProps.

(** ** What goroutines without the lifecycle lock do to a manager *)

Definition detached (m : Manager) : Manager :=
  {| m with client := None; state := {| (state m) with st_Healthy := false |} |}.

Definition mono (m m' : Manager) : Prop :=
  m' = m ∨ (is_Some (client m) ∧ ((∃ b, m' = with_healthy b m) ∨ m' = detached m)).

#[global] Instance mono_pre : PreOrder mono.
Proof.
  split; [by left|]. intros m1 m2 m3 [-> |[H1 H12]] H23; [done|].
  destruct H23 as [-> |[H2 H23]]; [by right|]. right. split; [done|].
  destruct H12 as [[b ->]| ->]; [|by apply is_Some_None in H2].
  destruct H23 as [[b' ->]| ->]; [left; by exists b'|by right].
Qed.

Lemma mono_detach c m : mono m (detach_client c m).2.
Proof.
  unfold detach_client. case_bool_decide as E; [|by left]. right. split; [by rewrite E|by right].
Qed.

Lemma mono_heartbeat c v b m : mono m (heartbeat_commit c v b m).2.
Proof.
  unfold heartbeat_commit. destruct (_ || _) eqn:E; [by left|]. right.
  apply orb_false_iff in E as [E _]. apply orb_false_iff in E as [E _].
  apply orb_false_iff in E as [_ E]. apply negb_false_iff, bool_decide_eq_true_1 in E.
  split; [by rewrite E|]. left. by exists b.
Qed.

Lemma mono_quiet m m' : mono m m' → client m = None → m' = m.
Proof. intros [?|[H _]] E; [done|]. rewrite E in H. by apply is_Some_None in H. Qed.

Lemma mono_same m m' :
  mono m m' →
  cmd m' = cmd m ∧ rpcEpoch m' = rpcEpoch m ∧ closed m' = closed m
  ∧ st_GenerationID (state m') = st_GenerationID (state m) ∧ st_PID (state m') = st_PID (state m)
  ∧ st_PluginID (state m') = st_PluginID (state m)
  ∧ st_SocketPath (state m') = st_SocketPath (state m)
  ∧ (client m' = client m ∨ client m' = None).
Proof. intros [-> |[_ [[b ->]| ->]]]; simpl; auto 10. Qed.

Lemma mono_once m m' : mono m m' → closeOnce m' = closeOnce m.
Proof. by intros [-> |[_ [[b ->]| ->]]]. Qed.

(** A step of a goroutine that holds the lock: a [mono] step, or one taken
    while the manager has no process, or one that moves the epoch on. *)
Definition mstep (m m' : Manager) : Prop :=
  mono m m'
  ∨ (cmd m = None ∧ rpcEpoch m' = rpcEpoch m)
  ∨ (rpcEpoch m' = uint64 (rpcEpoch m + 1) ∧ (client m' = None ∨ client m' = client m)).

(** At all times: healthy needs a client, a client needs a process. *)
Definition core (m : Manager) : Prop :=
  (st_Healthy (state m) = true → is_Some (client m)) ∧ (is_Some (client m) → is_Some (cmd m)).

Lemma core_idle m : st_Healthy (state m) = false → client m = None → core m.
Proof. intros H1 H2. split; [by rewrite H1|]. rewrite H2. by intros []%is_Some_None. Qed.

(** A client is only replaced by none, and set only where there was none. *)
Lemma mstep_client m m' :
  core m → mstep m m' → client m = None ∨ client m' = None ∨ client m' = client m.
Proof.
  intros [_ Hc] [Hm|[[Hp _]|[_ H]]]; [|left|by right].
  - destruct (mono_same _ _ Hm) as (_ & _ & _ & _ & _ & _ & _ & []); auto.
  - destruct (client m); [|done]. rewrite Hp in Hc. by destruct Hc.
Qed.

Lemma mono_core m m' : mono m m' → core m → core m'.
Proof.
  intros [-> |[Hc [[b ->]| ->]]] [H1 H2]; [done|by split|]. split; simpl; [done|].
  by intros []%is_Some_None.
Qed.

(** ** The lock *)

Inductive lock_op : Type := Acquire | Release | Other.
Definition lock_kind {X} (e : mgrE X) : lock_op :=
  match e with LockLifecycle => Acquire | UnlockLifecycle => Release | _ => Other end.

(** ** The pool *)

Notation thread := (prog mgrE (option error)).

Record pool : Type := mkPool {
  p_world : world;
  p_owner : option nat;            (* the goroutine in the lifecycle lock *)
  p_threads : list thread;
}.

Section Pool.
Context `{UnicodeTables}.
Variable cfg : Config.
Implicit Types w : world.

(** Goroutine [i] makes its next call. *)
Definition thread_step (i : nat) (p : thread) (w : world) (o : option nat)
    (p' : thread) (w' : world) (o' : option nat) : Prop :=
  match p with
  | Ret _ => False
  | Vis e k => ∃ x, mgr_step _ e w x w' ∧ p' = k x ∧
      match lock_kind e with
      | Acquire => o = None ∧ o' = Some i
      | Release => o' = None
      | Other => o' = o
      end
  end.

Inductive pool_step : pool → pool → Prop :=
| pool_spawn w o ts op : pool_step (mkPool w o ts) (mkPool w o (ts ++ [op_prog cfg op]))
| pool_run w o ts i p w' o' p' :
    ts !! i = Some p → thread_step i p w o p' w' o' →
    pool_step (mkPool w o ts) (mkPool w' o' (<[i := p']> ts)).

Definition pool0 : pool := mkPool world0 None [].

(** ** Interference and the invariant of the lock *)

Record interference w w' : Prop := {
  int_m : mono (w_m w) (w_m w');
  int_running : w_running w' = w_running w;
  int_lost : w_lost w' = w_lost w;
  int_nextp : w_nextp w' = w_nextp w;
}.

#[export] Instance interference_pre : PreOrder interference.
Proof.
  split; [by intros w; constructor|]. intros w1 w2 w3 [] []. constructor; [by etrans|congruence..].
Qed.

(** In a closed manager nothing is ever started, and nothing reopens it. *)
Definition sealed w w' : Prop :=
  closed (w_m w) = true →
  closed (w_m w') = true ∧ (cmd (w_m w) = None → cmd (w_m w') = None)
  ∧ st_GenerationID (state (w_m w')) = st_GenerationID (state (w_m w))
  ∧ w_nextp w' = w_nextp w ∧ w_running w' ⊆ w_running w ∧ w_lost w ⊆ w_lost w'.

(** What the goroutine in the lock may do. *)
Definition held_step w w' : Prop := mstep (w_m w) (w_m w') ∧ sealed w w'.

Lemma sealed_open w w' : closed (w_m w) = false → sealed w w'.
Proof. intros Hc. unfold sealed. by rewrite Hc. Qed.

Lemma sealed_processes w w' :
  w_m w' = w_m w → w_nextp w' = w_nextp w → w_running w' ⊆ w_running w → w_lost w ⊆ w_lost w' →
  sealed w w'.
Proof. intros E En Er El Hc. rewrite E, En. done. Qed.

Lemma sealed_trans w1 w2 w3 : sealed w1 w2 → sealed w2 w3 → sealed w1 w3.
Proof.
  intros H1 H2 Hc. destruct (H1 Hc) as (C1 & P1 & G1 & N1 & R1 & L1).
  destruct (H2 C1) as (C2 & P2 & G2 & N2 & R2 & L2).
  split_and!; [done|auto|congruence|congruence|by etrans|by etrans].
Qed.

Lemma sealed_interference w w' : interference w w' → sealed w w'.
Proof.
  intros [Hm Er El En] Hc. destruct (mono_same _ _ Hm) as (-> & _ & -> & -> & _).
  by rewrite En, Er, El.
Qed.

(** Closed, and nothing running but what the operating system would not end;
    it stays so. *)
Definition shut w : Prop :=
  closed (w_m w) = true ∧ cmd (w_m w) = None ∧ w_running w ⊆ w_lost w.
Definition later w w' : Prop := shut w → shut w'.

#[export] Instance later_pre : PreOrder later.
Proof. unfold later. split; [by intros w|intros w1 w2 w3 H1 H2 Hs; auto]. Qed.

Lemma sealed_later w w' : sealed w w' → later w w'.
Proof.
  intros Hs (Hc & Hp & Hr). destruct (Hs Hc) as (C & P & _ & _ & R & L).
  split_and!; [done|by apply P|]. etrans; [exact R|]. by etrans.
Qed.

Lemma interference_later w w' : interference w w' → later w w'.
Proof. intros Hi. by apply sealed_later, sealed_interference. Qed.

Lemma held_interference w w' : interference w w' → held_step w w'.
Proof. intros Hi. split; [left; apply Hi|by apply sealed_interference]. Qed.

Lemma held_processes w w' :
  w_m w' = w_m w → w_nextp w' = w_nextp w → w_running w' ⊆ w_running w → w_lost w ⊆ w_lost w' →
  held_step w w'.
Proof. intros E En Er El. split; [rewrite E; left; by left|by apply sealed_processes]. Qed.

Lemma held_open w w' : closed (w_m w) = false → mstep (w_m w) (w_m w') → held_step w w'.
Proof. intros Hc Hm. split; [done|by apply sealed_open]. Qed.

Lemma held_refl w : held_step w w.
Proof. by apply held_interference. Qed.

(** What holds whenever nobody is inside a lifecycle operation. *)
Record quiescent w : Prop := {
  q_core : core (w_m w);
  q_generation : 0 <= st_GenerationID (state (w_m w)) < two64;
  q_pid : st_PID (state (w_m w)) = from_option Pid 0 (cmd (w_m w));
  q_id : is_Some (cmd (w_m w)) → st_PluginID (state (w_m w)) = PluginID cfg;
  q_closed : closed (w_m w) = true → cmd (w_m w) = None;
  q_once : closeOnce (w_m w) = true → closed (w_m w) = true;
  q_running : w_running w ∖ w_lost w ⊆ id_of (cmd (w_m w));
  q_fresh : ∀ n, n ∈ w_running w → (n < w_nextp w)%nat;
}.

Lemma quiescent_stable w w' : quiescent w → interference w w' → quiescent w'.
Proof.
  intros [] [Hm Er El En]. pose proof (mono_core _ _ Hm) as Hc.
  destruct (mono_same _ _ Hm) as (E1 & _ & E3 & E4 & E5 & E6 & _ & _).
  constructor; rewrite ?(mono_once _ _ Hm), ?E1, ?E3, ?E4, ?E5, ?E6, ?Er, ?El, ?En; auto.
Qed.

(** ** Rely and guarantee

    [rg held p Q w]: from [w], a goroutine running [p], holding the lock if
    [held], keeps to its side whatever the others do to theirs. *)
Fixpoint rg {A} (held : bool) (p : prog mgrE A) (Q : bool → A → world → Prop) (w : world) : Prop :=
  match p with
  | Ret a => Q held a w
  | Vis e k =>
      match lock_kind e with
      | Acquire => held = false ∧ ∀ x w1, later w w1 → quiescent w1 → rg true (k x) Q w1
      | Release => held = true ∧ ∀ x w1, interference w w1 → quiescent w1 ∧ rg false (k x) Q w1
      | Other =>
          if held then ∀ w1 x w2, interference w w1 → core (w_m w1) → mgr_step _ e w1 x w2 →
            held_step w1 w2 ∧ core (w_m w2) ∧ rg true (k x) Q w2
          else ∀ w1 x w2, later w w1 → core (w_m w1) → mgr_step _ e w1 x w2 →
            interference w1 w2 ∧ rg false (k x) Q w2
      end
  end.

Lemma lrg_mono {A} held (p : prog mgrE A) (Q Q' : bool → A → world → Prop) w :
  rg held p Q w → (∀ h a w', Q h a w' → Q' h a w') → rg held p Q' w.
Proof.
  intros Hp HQ. revert held w Hp. induction p as [a|X e k IH]; intros held w Hp; simpl in *; [auto|].
  destruct (lock_kind e).
  - destruct Hp as [? Hp]. split; [done|]. intros x w1 H1 H2. by apply IH, Hp.
  - destruct Hp as [? Hp]. split; [done|]. intros x w1 Hw1. destruct (Hp x w1 Hw1) as [? Hk].
    split; [done|]. by apply IH.
  - destruct held; intros w1 x w2 H1 H2 H3.
    + destruct (Hp w1 x w2 H1 H2 H3) as (? & ? & ?). split_and!; [done..|by apply IH].
    + destruct (Hp w1 x w2 H1 H2 H3) as (? & ?). split; [done|by apply IH].
Qed.

Lemma lrg_bind {A B} held (p : prog mgrE A) (k : A → prog mgrE B) Q w :
  rg held p (λ h a w', rg h (k a) Q w') w → rg held (p ≫= k) Q w.
Proof.
  revert held w. induction p as [a|X e kk IH]; intros held w Hp; simpl in *; [done|].
  destruct (lock_kind e).
  - destruct Hp as [? Hp]. split; [done|]. intros x w1 H1 H2. by apply IH, Hp.
  - destruct Hp as [? Hp]. split; [done|]. intros x w1 Hw1. destruct (Hp x w1 Hw1) as [? Hk].
    split; [done|]. by apply IH.
  - destruct held; intros w1 x w2 H1 H2 H3.
    + destruct (Hp w1 x w2 H1 H2 H3) as (? & ? & ?). split_and!; [done..|by apply IH].
    + destruct (Hp w1 x w2 H1 H2 H3) as (? & ?). split; [done|by apply IH].
Qed.

(** What was proved from [w] holds after interference. *)
Lemma rg_interference {A} (p : prog mgrE A) Q w w' :
  (∀ a w1 w2, interference w1 w2 → Q true a w1 → Q true a w2) →
  interference w w' → rg true p Q w → rg true p Q w'.
Proof.
  intros HQ Hi. destruct p as [a|X e k]; simpl; [by apply HQ|].
  destruct (lock_kind e).
  - by intros [? _].
  - intros [? Hp]. split; [done|]. intros x w1 Hw1. apply Hp. by etrans.
  - intros Hp w1 x w2 Hw1. apply Hp. by etrans.
Qed.

(** Outside the lock only what lasts is known of the world. *)
Lemma rg_later {A} (p : prog mgrE A) Q w w' :
  (∀ a w1 w2, later w1 w2 → Q false a w1 → Q false a w2) → later w w' → rg false p Q w → rg false p Q w'.
Proof.
  intros HQ Hl. destruct p as [a|X e k]; simpl; [by apply HQ|]. destruct (lock_kind e).
  - intros [? Hp]. split; [done|]. intros x w1 Hw1. apply Hp. by etrans.
  - by intros [? _].
  - intros Hp w1 x w2 Hw1. apply Hp. by etrans.
Qed.

(** ** Programs that need no lock

    A [neutral] program only makes calls that interfere. *)
Definition neutral_call {X} (e : mgrE X) : Prop :=
  match e with
  | Atomic f => ∀ m, mono m (f m).2
  | LockLifecycle | UnlockLifecycle | StartProcess _ | WaitGrace _ | SignalKill _ | WaitFinal _ => False
  | _ => True
  end.

Fixpoint neutral {A} (p : prog mgrE A) : Prop :=
  match p with
  | Ret _ => True
  | Vis e k => neutral_call e ∧ ∀ x, neutral (k x)
  end.

Lemma neutral_bind {A B} (p : prog mgrE A) (k : A → prog mgrE B) :
  neutral p → (∀ a, neutral (k a)) → neutral (p ≫= k).
Proof.
  intros Hp Hk. induction p as [a|X e kk IH]; simpl in *; [by apply Hk|].
  destruct Hp as [He Hp]. split; [done|]. intros x. by apply IH.
Qed.

Lemma neutral_step {X} (e : mgrE X) w x w' :
  neutral_call e → mgr_step X e w x w' → interference w w'.
Proof.
  assert (∀ Y (s : sysE Y) y v, interference v (sys_step s y v)) as Hsys.
  { intros Y s y v. destruct s; simpl; try done.
    - unfold removed. destruct y as [e0|]; [destruct (os_IsNotExist e0)|]; by constructor.
    - destruct y; by constructor. }
  destruct e; cbn [neutral_call mgr_step]; try done; intros Hn Hs.
  - destruct Hs as [_ ->]. constructor; [apply Hn|done..].
  - by subst.
  - by subst.
  - by subst.
  - subst w'. apply Hsys.
  - by subst.
  - destruct Hs as [-> |[_ ->]]; by constructor.
  - by subst.
  - destruct Hs as [_ ->]. by constructor.
  - destruct Hs as (t & _ & ->). by constructor.
  - destruct x as [c|e]; [destruct Hs as [_ ->]; by constructor|by subst].
  - subst w'. by constructor.
  - subst w'. by constructor.
  - by subst.
  - by subst.
Qed.

Lemma neutral_kind {X} (e : mgrE X) : neutral_call e → lock_kind e = Other.
Proof. by destruct e. Qed.

Lemma rg_neutral_free {A} (p : prog mgrE A) Q w :
  neutral p → (∀ a w', later w w' → Q false a w') → rg false p Q w.
Proof.
  intros Hn. revert w. induction p as [a|X e k IH]; intros w HQ; simpl in *; [by apply HQ|].
  destruct Hn as [He Hn]. rewrite (neutral_kind e He). intros w1 x w2 Hl _ Hs.
  pose proof (neutral_step _ _ _ _ He Hs) as Hi. split; [done|]. apply IH; [done|].
  intros a w' Hl'. apply HQ. etrans; [exact Hl|]. etrans; [by apply interference_later|done].
Qed.

Lemma rg_neutral_held {A} (p : prog mgrE A) Q w :
  neutral p → (∀ a w', interference w w' → Q true a w') → rg true p Q w.
Proof.
  intros Hn HQ. revert w HQ. induction p as [a|X e k IH]; intros w HQ; simpl in *; [by apply HQ|].
  destruct Hn as [He Hn]. rewrite (neutral_kind e He). intros w1 x w2 Hi Hc Hs.
  pose proof (neutral_step e w1 x w2 He Hs) as Hi2. split_and!.
  - by apply held_interference.
  - eapply mono_core; [apply Hi2|done].
  - apply IH; [done|]. intros a w' Hw'. apply HQ. etrans; [exact Hi|]. by etrans.
Qed.

(** The neutral parts of the manager. *)
Lemma neutral_log e : neutral (logEvent e).
Proof. done. Qed.
Lemma neutral_read {B} (f : Manager → B) : neutral (read f).
Proof. split; [by left|done]. Qed.
Lemma neutral_close c : neutral (client_close c).
Proof. by destruct c. Qed.
Lemma neutral_sys {A} (p : prog sysE A) : neutral (sys p).
Proof. unfold sys. induction p as [a|X e k IH]; simpl; [done|]. split; [done|]. auto. Qed.

Create HintDb neutral.
#[local] Hint Resolve neutral_log neutral_read neutral_close neutral_sys : neutral.

(** [nstep] walks through one call of a neutral program. *)
Ltac nstep :=
  first [ apply neutral_bind; [first [solve [auto with neutral] | done]|intros ?] ].

Lemma neutral_poison c g me r ca : neutral (poisonClient cfg c g me r ca).
Proof.
  destruct c as [c|]; [|done]. unfold poisonClient, Manager_State.
  nstep. apply neutral_bind; [by split; [intros m; apply mono_detach|]|intros _].
  nstep. by nstep.
Qed.
#[local] Hint Resolve neutral_poison : neutral.

Lemma neutral_call_rpc {X} c g ep (args : request X) : neutral (call cfg c g ep args).
Proof.
  unfold call, Manager_State. nstep. nstep. apply neutral_bind; [done|]. intros [reply res].
  destruct res as [[err|]|].
  - destruct (isRPCPoisonError (Some err)); nstep; by nstep.
  - nstep. destruct a1 as [[st g'] ep']. destruct st; by nstep.
  - nstep. by nstep.
Qed.
#[local] Hint Resolve @neutral_call_rpc : neutral.

Lemma neutral_cleanup g : neutral (cleanupRuntimeArtifacts cfg g).
Proof.
  unfold cleanupRuntimeArtifacts, cleanupOwnsRuntimeArtifacts, Manager_State.
  apply neutral_bind; [destruct (g =? 0); [done|]; by nstep|]. intros [|]; [by nstep|].
  unfold remove_artifacts. apply neutral_bind; [by repeat split|]. intros [r f].
  by destruct (Nat.ltb 0 (length f)).
Qed.
#[local] Hint Resolve neutral_cleanup : neutral.

Lemma neutral_heartbeat : neutral (Heartbeat cfg).
Proof.
  unfold Heartbeat. nstep. destruct (view_closed a); [done|]. destruct (view_client a) as [c|]; [|done].
  nstep. destruct a0 as [out [e|]]; [by nstep|].
  apply neutral_bind; [by split; [intros m; apply mono_heartbeat|]|]. intros [was|]; [|done].
  apply neutral_bind; [|done]. unfold heartbeat_report.
  by destruct (bool_decide _); [destruct (negb was)|].
Qed.

Lemma neutral_routed {X} (args : request X) : neutral (routed cfg args).
Proof.
  unfold routed. nstep. destruct (view_closed a); [done|]. destruct (view_client a) as [c|]; [|done].
  by nstep.
Qed.

Lemma neutral_dial g : neutral (dial cfg g).
Proof.
  unfold dial. nstep. apply neutral_bind; [done|]. intros now. apply neutral_bind.
  - generalize (now + DialTimeout cfg). induction (dial_fuel cfg) as [|n IH]; intros dl; [done|].
    cbn [dial_loop]. apply neutral_bind; [done|]. intros t. destruct (t <? dl); [|done].
    apply neutral_bind; [done|]. intros [c|e]; [done|]. apply neutral_bind; [done|]. auto.
  - intros [c| |]; by nstep.
Qed.

Lemma neutral_peercred c pid g : neutral (verifyPeerCred cfg c pid g).
Proof.
  unfold verifyPeerCred. destruct c as [c|]; [|done]. nstep. destruct a as [cred|e]; [|done].
  destruct (negb _); [done|]. by nstep.
Qed.
#[local] Hint Resolve neutral_dial neutral_peercred : neutral.

(** ** Programs inside the lock *)

Lemma rg_call_held {X A} (e : mgrE X) (k : X → prog mgrE A) Q w :
  lock_kind e = Other →
  (∀ w1 x w2, interference w w1 → core (w_m w1) → mgr_step _ e w1 x w2 →
    held_step w1 w2 ∧ core (w_m w2) ∧ rg true (k x) Q w2) →
  rg true (trigger e ≫= k) Q w.
Proof. intros He Hk. simpl. by rewrite He. Qed.

Lemma rg_atomic_held {A B} (f : Manager → B * Manager) (k : B → prog mgrE A) Q w :
  (∀ w1, interference w w1 → core (w_m w1) →
    held_step w1 (set_m (f (w_m w1)).2 w1) ∧ core (f (w_m w1)).2
    ∧ rg true (k (f (w_m w1)).1) Q (set_m (f (w_m w1)).2 w1)) →
  rg true (atomic f ≫= k) Q w.
Proof. intros Hk. apply rg_call_held; [done|]. intros w1 x w2 Hi Hc [-> ->]. by apply Hk. Qed.

Lemma rg_seq_held {A B} (p : prog mgrE A) (k : A → prog mgrE B) Q w :
  neutral p → (∀ a w', interference w w' → rg true (k a) Q w') → rg true (p ≫= k) Q w.
Proof. intros Hn Hk. by apply lrg_bind, rg_neutral_held. Qed.

(** What the rest of a program that ends with a neutral tail needs. *)
Definition done_with {A} (P : world → Prop) (h : bool) (_ : A) w : Prop := h = true ∧ P w.

(** A start in progress in generation [g]; [ps] may still be running. *)
Record launch (g : Z) (ps : gset nat) w : Prop := {
  la_closed : closed (w_m w) = false;
  la_once : closeOnce (w_m w) = false;
  la_cmd : cmd (w_m w) = None;
  la_client : client (w_m w) = None;
  la_healthy : st_Healthy (state (w_m w)) = false;
  la_pid : st_PID (state (w_m w)) = 0;
  la_generation : st_GenerationID (state (w_m w)) = g ∧ 0 <= g < two64;
  la_running : w_running w ∖ w_lost w ⊆ ps;
  la_fresh : ∀ n, n ∈ w_running w → (n < w_nextp w)%nat;
}.

Lemma launch_stable g ps w w' : launch g ps w → interference w w' → launch g ps w'.
Proof.
  intros [] [Hm Er El En]. pose proof (mono_quiet _ _ Hm la_client0) as Em.
  constructor; rewrite ?Em, ?Er, ?El, ?En; done.
Qed.

Lemma launch_core g ps w : launch g ps w → core (w_m w).
Proof. intros []. by apply core_idle. Qed.

Lemma rollback_held g w : launch g ∅ w → rg true (rollbackGeneration cfg g) (done_with quiescent) w.
Proof.
  intros Hl w1 x w2 Hi Hc [-> ->]. destruct (launch_stable _ _ _ w1 Hl Hi).
  destruct la_generation0 as [Eg Hg]. unfold roll_back. rewrite Eg, Z.eqb_refl. cbn [fst snd].
  split; [apply held_open; [done|right; left; by rewrite la_cmd0]|]. split; [by apply core_idle|]. split; [done|].
  constructor; simpl; rewrite ?la_cmd0, ?la_client0; try done.
  - by apply core_idle.
  - apply uint64_range.
  - congruence.
Qed.

Lemma start_aborted_held component g msg err w :
  launch g ∅ w → rg true (start_aborted cfg component g msg err) (done_with quiescent) w.
Proof.
  intros Hl. unfold start_aborted. apply lrg_bind.
  eapply lrg_mono; [by apply rollback_held|]. intros h [] w1 [-> Hq].
  apply rg_seq_held; [done|]. intros [] w2 Hi. split; [done|]. by eapply quiescent_stable.
Qed.

Lemma wait_held {A} p (k : option error → prog mgrE A) g Q w :
  launch g {[proc_id p]} w → (∀ r w', launch g ∅ w' → rg true (k r) Q w') →
  rg true (trigger (WaitFinal p) ≫= k) Q w.
Proof.
  intros Hl Hk. apply rg_call_held; [done|]. intros w1 r w2 Hi Hc ->.
  apply (launch_stable _ _ _ w1) in Hl; [|done].
  assert (launch g ∅ (waited p r w1)) as Hl2.
  { destruct Hl. unfold waited. destruct (real_error r); constructor; simpl; try done; set_solver. }
  assert (w_m (waited p r w1) = w_m w1) as Em by (unfold waited; by destruct (real_error r)).
  rewrite Em. split; [apply held_open; [apply Hl|rewrite Em; left; by left]|]. split; [done|by apply Hk].
Qed.

Lemma cleanupFailedStart_held p c g reason cause w :
  launch g {[proc_id p]} w →
  rg true (cleanupFailedStart cfg p c g reason cause) (done_with quiescent) w.
Proof.
  intros Hl. unfold cleanupFailedStart.
  apply rg_seq_held; [by auto with neutral|]. intros _ w1 H1.
  apply rg_seq_held; [done|]. intros _ w2 H2.
  eapply wait_held; [eapply launch_stable; [eapply launch_stable|]; done|]. intros _ w3 H3.
  apply lrg_bind. eapply lrg_mono; [by apply rollback_held|]. intros h [] w4 [-> Hq].
  apply rg_seq_held; [done|]. intros [] w5 H5.
  apply rg_neutral_held; [by auto with neutral|]. intros [] w6 H6. split; [done|].
  eapply quiescent_stable; [|exact H6]. by eapply quiescent_stable.
Qed.

Lemma start_failed_held p c g component name msg reason err w :
  launch g {[proc_id p]} w →
  rg true (start_failed cfg p c g component name msg reason err) (done_with quiescent) w.
Proof.
  intros Hl. unfold start_failed. apply rg_seq_held; [done|]. intros [] w1 H1.
  apply lrg_bind. eapply lrg_mono; [apply cleanupFailedStart_held; by eapply launch_stable|].
  by intros h [] w2 [-> Hq].
Qed.

Lemma start_loaded_held p c g caps w :
  launch g {[proc_id p]} w →
  rg true (start_loaded cfg p c g caps) (done_with quiescent) w.
Proof.
  intros Hl. unfold start_loaded.
  destruct (decide (cr_PluginID caps = PluginID cfg)) as [E1|E1].
  2:{ rewrite bool_decide_eq_false_2 by done. by apply start_failed_held. }
  rewrite bool_decide_eq_true_2 by done. cbn [negb].
  destruct (Z.eqb_spec (cr_GenerationID caps) g) as [E2|E2]; [|by apply start_failed_held]. cbn [negb].
  destruct (bool_decide _); [by apply start_failed_held|].
  apply rg_atomic_held. intros w1 Hi _. destruct (launch_stable _ _ _ w1 Hl Hi).
  destruct la_generation0 as [_ Hg]. cbn [fst snd].
  split; [apply held_open; [done|right; left; by rewrite la_cmd0]|]. split; [by split|].
  assert (quiescent (set_m (start_commit cfg p c caps (w_m w1)).2 w1)) as Hq.
  { constructor; simpl; try done; [by rewrite E2|by rewrite la_closed0|by rewrite la_once0]. }
  do 2 (apply rg_seq_held; [done|]; intros [] ? ?).
  split; [done|]. eapply quiescent_stable; [|done]. by eapply quiescent_stable.
Qed.

Lemma start_capabilities_held p c g w :
  launch g {[proc_id p]} w → rg true (start_capabilities cfg p c g) (done_with quiescent) w.
Proof.
  intros Hl. unfold start_capabilities. apply rg_seq_held; [done|]. intros [] w1 H1.
  apply rg_seq_held; [by auto with neutral|]. intros [caps [e|]] w2 H2; cbn [fst snd].
  - apply start_failed_held. eapply launch_stable; [|done]. by eapply launch_stable.
  - apply start_loaded_held. eapply launch_stable; [|done]. by eapply launch_stable.
Qed.

Lemma start_authenticate_held p c g token w :
  launch g {[proc_id p]} w → rg true (start_authenticate cfg p c g token) (done_with quiescent) w.
Proof.
  intros Hl. unfold start_authenticate. apply rg_seq_held; [done|]. intros [] w1 H1.
  apply rg_seq_held; [by auto with neutral|]. intros [auth [e|]] w2 H2; cbn [fst snd];
    (assert (launch g {[proc_id p]} w2) as Hl2
       by (eapply launch_stable; [|done]; by eapply launch_stable)); [by apply start_failed_held|].
  destruct (negb _); [by apply start_failed_held|].
  destruct (negb _); [by apply start_failed_held|].
  apply rg_seq_held; [done|]. intros [] w3 H3. apply rg_seq_held; [done|]. intros _ w4 H4.
  apply start_capabilities_held. eapply launch_stable; [|done]. by eapply launch_stable.
Qed.

Lemma start_connect_held p g token w :
  launch g {[proc_id p]} w → rg true (start_connect cfg p g token) (done_with quiescent) w.
Proof.
  intros Hl. unfold start_connect. apply rg_seq_held; [by auto with neutral|]. intros [c|e] w1 H1.
  - apply rg_seq_held; [by auto with neutral|]. intros [e|] w2 H2.
    + apply start_failed_held. eapply launch_stable; [|done]. by eapply launch_stable.
    + apply start_authenticate_held. eapply launch_stable; [|done]. by eapply launch_stable.
  - apply lrg_bind. eapply lrg_mono; [apply cleanupFailedStart_held; by eapply launch_stable|].
    by intros h [] w2 [-> Hq].
Qed.

Lemma start_spawn_held g token w :
  launch g ∅ w → rg true (start_spawn cfg g token) (done_with quiescent) w.
Proof.
  intros Hl. unfold start_spawn. do 2 (apply rg_seq_held; [done|]; intros ? ? ?).
  apply rg_call_held; [done|]. intros w3 [p|e] w4 H3 Hc Hs;
    (assert (launch g ∅ w3) as Hl3
       by (eapply launch_stable; [|exact H3]; eapply launch_stable; [|done]; by eapply launch_stable)).
  - destruct Hs as [Hp ->]. split; [apply held_open; [apply Hl3|left; by left]|]. split; [done|].
    apply start_connect_held. destruct Hl3. constructor; simpl; try done; [rewrite Hp; set_solver|].
    intros n. rewrite elem_of_union, elem_of_singleton. intros [-> |Hn]; [lia|].
    specialize (la_fresh0 n Hn). lia.
  - simpl in Hs. subst w4. split; [apply held_refl|]. split; [done|]. by apply start_aborted_held.
Qed.

Lemma start_generation_held g w :
  launch g ∅ w → rg true (start_generation cfg g) (done_with quiescent) w.
Proof.
  intros Hl. unfold start_generation.
  apply rg_seq_held; [done|]. intros _ w1 H1. apply rg_seq_held; [done|]. intros _ w2 H2.
  apply rg_seq_held; [done|]. intros [] w3 H3. apply rg_seq_held; [done|]. intros r w4 H4.
  assert (launch g ∅ w4) as Hl4.
  { eapply launch_stable; [exact Hl|]. by do 3 (etrans; [eassumption|]). }
  destruct (NewToken r) as [token|e]; [|by apply start_aborted_held].
  apply rg_seq_held; [done|]. intros [e|] w5 H5.
  - apply start_aborted_held. by eapply launch_stable.
  - apply start_spawn_held. by eapply launch_stable.
Qed.

Lemma startLocked_held w : quiescent w → rg true (startLocked cfg) (done_with quiescent) w.
Proof.
  intros Hq. unfold startLocked. apply rg_atomic_held. intros w1 Hi Hc.
  apply (quiescent_stable _ w1) in Hq; [|done]. unfold start_begin.
  destruct (closed (w_m w1)) eqn:Hcl; cbn [fst snd].
  { rewrite set_m_eta. split; [apply held_refl|]. split; [done|]. by split. }
  destruct (cmd (w_m w1)) as [p|] eqn:Hp.
  { rewrite (bool_decide_eq_true_2 (Some p ≠ None)) by done. cbn [orb fst snd].
    rewrite set_m_eta. split; [apply held_refl|]. split; [done|]. by split. }
  destruct (client (w_m w1)) as [c|] eqn:Hcn.
  { destruct Hc as [_ Hc]. rewrite Hcn, Hp in Hc. by destruct Hc as [? ?]. }
  cbn [bool_decide decide orb negb]. simpl.
  split; [apply held_open; [done|right; left; by rewrite Hp]|]. split; [by apply core_idle|].
  set (w2 := set_m _ w1). set (g := uint64 _).
  assert (launch g ∅ w2) as Hl.
  { destruct Hq. constructor; simpl; try done; [|by split; [|apply uint64_range]|].
    - destruct (closeOnce _); [|done]. by rewrite q_once0 in Hcl.
    - by rewrite Hp in q_running0. }
  clearbody w2. by apply start_generation_held.
Qed.

(** *** Stopping *)

(** No client and no process; [ps] may still be running. *)
Record halted (ps : gset nat) w : Prop := {
  ha_cmd : cmd (w_m w) = None;
  ha_client : client (w_m w) = None;
  ha_healthy : st_Healthy (state (w_m w)) = false;
  ha_pid : st_PID (state (w_m w)) = 0;
  ha_generation : 0 <= st_GenerationID (state (w_m w)) < two64;
  ha_once : closeOnce (w_m w) = true → closed (w_m w) = true;
  ha_running : w_running w ∖ w_lost w ⊆ ps;
  ha_fresh : ∀ n, n ∈ w_running w → (n < w_nextp w)%nat;
}.

Lemma halted_stable ps w w' : halted ps w → interference w w' → halted ps w'.
Proof.
  intros [] [Hm Er El En]. pose proof (mono_quiet _ _ Hm ha_client0) as Em.
  constructor; rewrite ?Em, ?Er, ?El, ?En; done.
Qed.

Lemma halted_quiescent w : halted ∅ w → quiescent w.
Proof.
  intros []. constructor; rewrite ?ha_cmd0; try done. by apply core_idle.
Qed.

Lemma quiescent_halted w : quiescent w → cmd (w_m w) = None → halted ∅ w.
Proof.
  intros [[C1 C2]] E. assert (client (w_m w) = None) as Ec.
  { destruct (client (w_m w)); [|done]. rewrite E in C2. by destruct C2 as [? ?]. }
  rewrite E in *. constructor; try done.
  destruct (st_Healthy _); [|done]. rewrite Ec in C1. by destruct C1 as [? ?].
Qed.

(** A step that at most ends processes. *)
Definition stops w w' : Prop :=
  w_m w' = w_m w ∧ w_nextp w' = w_nextp w ∧ w_running w' ⊆ w_running w ∧ w_lost w ⊆ w_lost w'.

(** A step that only moves processes of a halted manager. *)
Lemma halted_move {X A} (e : mgrE X) (k : X → prog mgrE A) ps Q w :
  lock_kind e = Other → halted ps w →
  (∀ w1 x w2, halted ps w1 → mgr_step _ e w1 x w2 →
    stops w1 w2 ∧ rg true (k x) Q w2) →
  rg true (trigger e ≫= k) Q w.
Proof.
  intros He Hh Hk. apply rg_call_held; [done|]. intros w1 x w2 Hi Hc Hs.
  destruct (Hk w1 x w2 (halted_stable _ _ _ Hh Hi) Hs) as [(E & En & Er & El) Hr].
  split; [by apply held_processes|]. rewrite E. by split.
Qed.

Lemma waited_halted p r w :
  halted {[proc_id p]} w → halted ∅ (waited p r w) ∧ stops w (waited p r w).
Proof.
  intros []. unfold waited. destruct (real_error r); (split; [constructor|split_and!]); simpl; try done; set_solver.
Qed.

Lemma stop_tail_held (e : Event) g w :
  halted ∅ w →
  rg true (logEvent e ;; cleanupRuntimeArtifacts cfg g ;; Ret (@None error))
    (done_with (halted ∅)) w.
Proof.
  intros Hh. apply rg_seq_held; [done|]. intros [] w1 H1.
  apply rg_seq_held; [by auto with neutral|]. intros [] w2 H2. split; [done|].
  eapply halted_stable; [|done]. by eapply halted_stable.
Qed.

Lemma stop_process_held i reason p w :
  halted {[proc_id p]} w → rg true (stop_process cfg i reason p) (done_with (halted ∅)) w.
Proof.
  intros Hh. unfold stop_process. eapply halted_move; [done|done|]. clear w Hh.
  intros w1 [r|] w2 Hh Hs; simpl in Hs; subst w2.
  - destruct (waited_halted p r w1 Hh) as [Hh2 Em]. split; [done|].
    destruct (real_error r); [by split|]. by apply stop_tail_held.
  - split; [done|]. eapply halted_move; [done|done|]. clear w1 Hh.
    intros w1 k w2 Hh Hs. simpl in Hs. subst w2. destruct (real_error k) as [e|].
    + split; [split_and!; [done..|simpl; set_solver]|]. split; [done|]. destruct Hh. constructor; simpl; try done. set_solver.
    + split; [done|]. eapply halted_move; [done|done|]. clear w1 Hh.
      intros w1 r w2 Hh Hs. simpl in Hs. subst w2.
      destruct (waited_halted p r w1 Hh) as [Hh2 Em]. split; [done|].
      destruct (real_error r); [by split|]. by apply stop_tail_held.
Qed.

Lemma neutral_shutdown i c : neutral (request_shutdown cfg i c).
Proof.
  unfold request_shutdown. nstep. nstep. apply neutral_bind; [by destruct a0.2|]. intros _. by nstep.
Qed.
#[local] Hint Resolve neutral_shutdown : neutral.

Lemma stopCurrent_held markClosed reason w :
  quiescent w → rg true (stopCurrent cfg markClosed reason)
    (λ h r w', h = true ∧ halted ∅ w') w.
Proof.
  intros Hq. unfold stopCurrent. apply rg_atomic_held. intros w1 Hi Hc.
  apply (quiescent_stable _ w1) in Hq; [|done]. unfold stop_begin.
  destruct (closed (w_m w1)) eqn:Hcl; cbn [fst snd].
  { rewrite set_m_eta. split; [apply held_refl|]. split; [done|]. split; [done|].
    apply quiescent_halted; [done|]. by apply Hq. }
  split; [apply held_open; [done|right; right; split; [done|by left]]|]. split; [by apply core_idle|].
  set (w2 := set_m _ w1). cbn [stop_client stop_cmd].
  assert (halted (id_of (cmd (w_m w1))) w2) as Hh.
  { destruct Hq. constructor; simpl; try done. destruct markClosed; [done|]. by rewrite <- Hcl. }
  clearbody w2.
  apply rg_seq_held; [destruct (client (w_m w1)); by auto with neutral|]. intros [] w3 H3.
  apply rg_seq_held; [destruct (client (w_m w1)); by auto with neutral|]. intros [] w4 H4.
  assert (halted (id_of (cmd (w_m w1))) w4) as Hh4.
  { eapply halted_stable; [|exact H4]. by eapply halted_stable. }
  destruct (cmd (w_m w1)) as [p|]; [by apply stop_process_held|by apply stop_tail_held].
Qed.

(** *** Closing *)

(** A step that only touches the fields of closing; [pre] is what it needs. *)
Lemma halted_book {A B} (pre : Manager → Prop) (f : Manager → B * Manager) (k : B → prog mgrE A) Q w :
  (∀ m m', mono m m' → pre m → pre m') →
  (∀ m, pre m → cmd m = None → mstep m (f m).2) →
  (∀ m, pre m → state (f m).2 = state m ∧ cmd (f m).2 = cmd m ∧ client (f m).2 = client m
     ∧ (closed m = true → closed (f m).2 = true)
     ∧ ((closeOnce m = true → closed m = true) → closeOnce (f m).2 = true → closed (f m).2 = true)) →
  halted ∅ w → pre (w_m w) →
  (∀ b m w', pre m → w_m w' = (f m).2 → halted ∅ w' → rg true (k b) Q w') →
  rg true (atomic f ≫= k) Q w.
Proof.
  intros Hpre Hm Hf Hh Hw Hk. apply rg_atomic_held. intros w1 Hi _.
  assert (pre (w_m w1)) as Hw1 by (eapply Hpre; [apply Hi|done]).
  destruct (halted_stable _ _ _ Hh Hi). destruct (Hf _ Hw1) as (E1 & E2 & E3 & E4 & E5).
  split; [split; [by apply Hm|intros Hc; simpl; rewrite E1, E2; split_and!; auto]|].
  split; [apply core_idle; congruence|]. eapply Hk; [exact Hw1|done|].
  constructor; simpl; rewrite ?E1, ?E2, ?E3; auto.
Qed.

Definition is_closed (m : Manager) : Prop := closed m = true.

Lemma closed_stable m m' : mono m m' → is_closed m → is_closed m'.
Proof. intros (_ & _ & E & _)%mono_same. unfold is_closed. by rewrite E. Qed.

Lemma halted_shut w : halted ∅ w → is_closed (w_m w) → shut w.
Proof. intros [] Hc. unfold shut. split_and!; [done|done|set_solver]. Qed.

(** Closing leaves the manager shut. *)
Lemma close_body_held w :
  quiescent w → rg true (close_body cfg) (done_with (λ w', halted ∅ w' ∧ is_closed (w_m w'))) w.
Proof.
  intros Hq. unfold close_body. apply lrg_bind.
  eapply lrg_mono; [by apply stopCurrent_held|]. intros h r w1 [-> H1]. cbn beta.
  apply (halted_book (λ _, True)); [done|intros m _ E; right; by left|done|done|done|].
  intros _ _ w2 _ _ H2. apply (halted_book (λ _, True)); [done| | |done|done|].
  { intros m _ E. unfold close_finish. destruct (closed m); [right; by left|right; right; split; [done|by right]]. }
  { intros m _. unfold close_finish. destruct (closed m) eqn:E; by split_and!. }
  intros _ m3 w3 _ E3 H3.
  assert (is_closed (w_m w3)) as C3.
  { rewrite E3. unfold close_finish, is_closed. by destruct (closed m3) eqn:E. }
  apply rg_seq_held; [by auto with neutral|]. intros [] w4 I4.
  apply rg_seq_held; [done|]. intros l w5 I5.
  assert (is_closed (w_m w5)) as C5 by (eapply closed_stable; [apply I5|]; eapply closed_stable; [apply I4|done]).
  apply (halted_book is_closed); [apply closed_stable| | | |done|].
  { intros m _ E. right. left. by destruct (bool_decide _). }
  { intros m Hc. by destruct (bool_decide _). }
  { eapply halted_stable; [|exact I5]. by eapply halted_stable. }
  intros _ m6 w6 C E6 H6.
  assert (is_closed (w_m w6)) as C6 by (rewrite E6; by destruct (bool_decide _)).
  apply (halted_book is_closed _ Ret); [apply closed_stable|intros m _ E; right; by left|done|done|done|].
  intros [] m7 w7 C7 E7 H7. split; [done|]. split; [done|]. by rewrite E7.
Qed.

(** ** Whole operations *)

Definition unlocked {A} (h : bool) (_ : A) (_ : world) : Prop := h = false.

Lemma with_lifecycle_post {A} (p : prog mgrE A) (R : world → Prop) w :
  (∀ w1 w2, interference w1 w2 → R w1 → R w2) →
  (∀ w1, quiescent w1 → rg true p (done_with (λ w2, quiescent w2 ∧ R w2)) w1) →
  rg false (with_lifecycle p) (λ h _ w', h = false ∧ R w') w.
Proof.
  intros HR Hp. unfold with_lifecycle. simpl. split; [done|]. intros _ w1 _ Hq.
  change (@prog_bind mgrE ?A ?B ?f ?q) with (@mbind (prog mgrE) _ A B f q).
  apply lrg_bind. eapply lrg_mono; [by apply Hp|]. intros h a w2 [-> [Hq2 Hr2]]. simpl.
  split; [done|]. intros _ w3 Hi. split; [by eapply quiescent_stable|]. split; [done|]. by eapply HR.
Qed.

Lemma with_lifecycle_rg {A} (p : prog mgrE A) w :
  (∀ w1, quiescent w1 → rg true p (done_with quiescent) w1) →
  rg false (with_lifecycle p) unlocked w.
Proof.
  intros Hp. eapply lrg_mono; [apply (with_lifecycle_post p (λ _, True)); [done|]|by intros h a w' []].
  intros w1 Hq. eapply lrg_mono; [by apply Hp|]. by intros h a w2 [-> H2].
Qed.

Lemma Start_rg w : rg false (Start cfg) unlocked w.
Proof. apply with_lifecycle_rg. apply startLocked_held. Qed.

Lemma Kill_rg w : rg false (Kill cfg) unlocked w.
Proof.
  apply with_lifecycle_rg. intros w1 Hq. eapply lrg_mono; [by apply stopCurrent_held|].
  intros h r w2 [-> Hh]. split; [done|]. by apply halted_quiescent.
Qed.

Lemma Restart_rg w : rg false (Restart cfg) unlocked w.
Proof.
  apply with_lifecycle_rg. intros w1 Hq. apply rg_seq_held; [by auto with neutral|]. intros v w2 H2.
  apply (quiescent_stable _ w2) in Hq; [|done].
  destruct (view_closed v); [by split|].
  apply rg_seq_held; [done|]. intros [] w3 H3. apply (quiescent_stable _ w3) in Hq; [|done].
  apply lrg_bind. eapply lrg_mono; [by apply stopCurrent_held|]. intros h r w4 [-> Hh].
  apply halted_quiescent in Hh. destruct r as [e|].
  { apply rg_seq_held; [done|]. intros [] w5 H5. split; [done|]. by eapply quiescent_stable. }
  apply lrg_bind. eapply lrg_mono; [by apply startLocked_held|]. intros h r w5 [-> Hq5].
  destruct r as [e|].
  { apply rg_seq_held; [done|]. intros [] w6 H6. split; [done|]. by eapply quiescent_stable. }
  apply rg_seq_held; [apply neutral_read|]. intros st w6 H6.
  apply rg_seq_held; [done|]. intros [] w7 H7. split; [done|].
  eapply quiescent_stable; [|done]. by eapply quiescent_stable.
Qed.

(** Whoever closes the manager leaves it shut, whatever the others do. *)
Lemma Close_shut w : rg false (Manager_Close cfg) (λ h _ w', h = false ∧ shut w') w.
Proof.
  apply with_lifecycle_post; [intros w1 w2 Hi; by apply interference_later|].
  intros w1 Hq. apply rg_atomic_held. intros w2 H2 Hc. cbn [fst snd]. rewrite set_m_eta.
  apply (quiescent_stable _ w2) in Hq; [|done]. split; [apply held_refl|]. split; [done|]. apply lrg_bind.
  assert (∀ w3, quiescent w3 → shut w3 →
    rg true (read closeErr) (done_with (λ w', quiescent w' ∧ shut w')) w3) as Hlast.
  { intros w3 H3 S3. apply rg_neutral_held; [by auto with neutral|]. intros a w4 H4.
    split; [done|]. split; [by eapply quiescent_stable|]. by apply (interference_later w3). }
  destruct (closeOnce (w_m w2)) eqn:Ho.
  - apply Hlast; [done|]. pose proof (q_once _ Hq Ho) as Hcl. pose proof (q_closed _ Hq Hcl) as Hp.
    pose proof (q_running _ Hq) as Hr. rewrite Hp in Hr. split_and!; [done..|]. simpl in Hr. set_solver.
  - eapply lrg_mono; [by apply close_body_held|]. intros h [] w3 [-> [Hh Hcl]].
    apply Hlast; [by apply halted_quiescent|by apply halted_shut].
Qed.

Lemma Close_rg w : rg false (Manager_Close cfg) unlocked w.
Proof. eapply lrg_mono; [apply Close_shut|by intros h a w' []]. Qed.

Lemma neutral_rg {A} (p : prog mgrE A) w : neutral p → rg false p unlocked w.
Proof. intros Hn. by apply rg_neutral_free. Qed.

Lemma rg_seq_free {A B} (p : prog mgrE A) (k : A → prog mgrE B) w :
  rg false p unlocked w → (∀ a w', rg false (k a) unlocked w') → rg false (p ≫= k) unlocked w.
Proof.
  intros Hp Hk. apply lrg_bind. eapply lrg_mono; [exact Hp|]. intros h a w' ->. apply Hk.
Qed.

Lemma monitor_rg ticks w : rg false (MonitorLoop cfg ticks) unlocked w.
Proof.
  revert w. induction ticks as [|n IH]; intros w; [done|]. cbn [MonitorLoop].
  apply rg_seq_free; [|by intros [|] w'].
  unfold monitor_tick. apply rg_seq_free; [apply neutral_rg, neutral_heartbeat|].
  intros [out [e|]] w1; [|done]. apply rg_seq_free; [apply neutral_rg, neutral_read|].
  intros [|] w2; [done|]. apply rg_seq_free; [by apply neutral_rg|]. intros [] w3.
  apply rg_seq_free; [apply Restart_rg|]. intros r w4.
  apply rg_seq_free; [by apply neutral_rg; destruct r|]. done.
Qed.

Lemma op_rg o w : rg false (op_prog cfg o) unlocked w.
Proof.
  destruct o; cbn [op_prog].
  - apply Start_rg.
  - apply Kill_rg.
  - apply Restart_rg.
  - apply Close_rg.
  - apply rg_seq_free; [apply neutral_rg, neutral_heartbeat|done].
  - apply rg_seq_free; [apply neutral_rg, neutral_routed|done].
  - apply rg_seq_free; [apply neutral_rg, neutral_routed|done].
  - apply rg_seq_free; [apply neutral_rg, neutral_routed|done].
  - apply rg_seq_free; [apply monitor_rg|done].
Qed.

(** ** The pool *)

Lemma lock_step {X} (e : mgrE X) w x w' :
  lock_kind e ≠ Other → mgr_step X e w x w' → w' = w.
Proof. destruct e; try done. Qed.

Record pool_ok (P : pool) : Prop := {
  ok_core : core (w_m (p_world P));
  ok_quiescent : p_owner P = None → quiescent (p_world P);
  ok_owner : ∀ i, p_owner P = Some i → is_Some (p_threads P !! i);
  ok_threads : ∀ i p, p_threads P !! i = Some p →
    rg (bool_decide (p_owner P = Some i)) p unlocked (p_world P);
}.

Lemma unlocked_stable {A} (a : A) w1 w2 :
  interference w1 w2 → @unlocked A true a w1 → @unlocked A true a w2.
Proof. done. Qed.

Lemma unlocked_later {A} (a : A) w1 w2 : later w1 w2 → @unlocked A false a w1 → @unlocked A false a w2.
Proof. done. Qed.

(** A goroutine outside the lock moves; the others keep their contracts. *)
Lemma others_free P w' i :
  pool_ok P → interference (p_world P) w' → ∀ j p, i ≠ j → p_threads P !! j = Some p →
  rg (bool_decide (p_owner P = Some j)) p unlocked w'.
Proof.
  intros [_ _ _ Ht] Hi j p Hne Hj. specialize (Ht j p Hj). destruct (bool_decide _).
  - by eapply rg_interference; [apply unlocked_stable|exact Hi|].
  - eapply rg_later; [apply unlocked_later| |exact Ht]. by apply interference_later.
Qed.

(** The owner moves: nobody else is in the lock. *)
Lemma others_held P w' o' i :
  pool_ok P → later (p_world P) w' → p_owner P = Some i → (o' = Some i ∨ o' = None) →
  ∀ j p, i ≠ j → p_threads P !! j = Some p → rg (bool_decide (o' = Some j)) p unlocked w'.
Proof.
  intros [_ _ _ Ht] Hl Ho Ho' j p Hne Hj. specialize (Ht j p Hj).
  rewrite Ho, bool_decide_eq_false_2 in Ht by congruence.
  rewrite bool_decide_eq_false_2 by (destruct Ho' as [-> | ->]; congruence).
  by eapply rg_later; [apply unlocked_later| |exact Ht].
Qed.

Lemma thread_step_ok P i p w' o' p' :
  pool_ok P → p_threads P !! i = Some p →
  thread_step i p (p_world P) (p_owner P) p' w' o' →
  pool_ok (mkPool w' o' (<[i := p']> (p_threads P)))
  ∧ held_step (p_world P) w'.
Proof.
  intros Hok Hi Hs. pose proof (ok_threads _ Hok i p Hi) as Hp.
  destruct p as [a|X e k]; [done|]. destruct Hs as (x & Hs & -> & Hl). simpl in Hp.
  destruct (lock_kind e) eqn:He.
  - destruct Hl as [Ho ->]. destruct Hp as [_ Hp].
    apply lock_step in Hs as ->; [|by rewrite He].
    split; [|apply held_refl]. pose proof (ok_quiescent _ Hok Ho) as Hq.
    constructor; [apply Hok|done| |].
    { intros j [= <-]. simpl. rewrite list_lookup_insert_eq by (by eapply lookup_lt_Some). done. }
    simpl. intros j p Hj. destruct (decide (i = j)) as [<-|Hne].
    + apply list_lookup_insert_Some in Hj as [(_ & <- & _)|[? _]]; [|done].
      rewrite bool_decide_eq_true_2 by done. by apply Hp.
    + rewrite list_lookup_insert_ne in Hj by done.
      pose proof (others_free P (p_world P) i Hok (reflexivity _) j p Hne Hj) as Hj'.
      rewrite Ho in Hj'. rewrite bool_decide_eq_false_2 by congruence. done.
  - subst o'. destruct Hp as [Hheld Hp]. apply bool_decide_eq_true_1 in Hheld.
    apply lock_step in Hs as ->; [|by rewrite He].
    destruct (Hp x (p_world P) (reflexivity _)) as [Hq Hk].
    split; [|apply held_refl]. constructor; [apply Hok|done|done|]. simpl. intros j p Hj.
    destruct (decide (i = j)) as [<-|Hne].
    + apply list_lookup_insert_Some in Hj as [(_ & <- & _)|[? _]]; [|done].
      by apply Hk.
    + rewrite list_lookup_insert_ne in Hj by done.
      exact (others_held P (p_world P) None i Hok (reflexivity _) Hheld (or_intror eq_refl) j p Hne Hj).
  - subst o'. assert (∀ j, p_owner P = Some j → is_Some (<[i := k x]> (p_threads P) !! j)) as Hown'.
    { intros j Hj. apply lookup_lt_is_Some. rewrite length_insert.
      by apply lookup_lt_is_Some, (ok_owner _ Hok). }
    destruct (bool_decide (p_owner P = Some i)) eqn:Hown.
    + apply bool_decide_eq_true_1 in Hown.
      destruct (Hp (p_world P) x w' (reflexivity _) (ok_core _ Hok) Hs) as (Hm & Hc & Hk).
      split; [|done]. constructor; [done|simpl; congruence|done|]. simpl. intros j p Hj.
      destruct (decide (i = j)) as [<-|Hne].
      * apply list_lookup_insert_Some in Hj as [(_ & <- & _)|[? _]]; [|done].
        rewrite bool_decide_eq_true_2 by done. done.
      * rewrite list_lookup_insert_ne in Hj by done.
        exact (others_held P w' _ i Hok (sealed_later _ _ (proj2 Hm)) Hown (or_introl Hown) j p Hne Hj).
    + apply bool_decide_eq_false_1 in Hown.
      destruct (Hp (p_world P) x w' (reflexivity _) (ok_core _ Hok) Hs) as [Hint Hk].
      split; [|by apply held_interference]. constructor; [by eapply mono_core; [apply Hint|apply Hok]| |done|].
      * simpl. intros Ho. eapply quiescent_stable; [|done]. by apply Hok.
      * simpl. intros j p Hj. destruct (decide (i = j)) as [<-|Hne].
        -- apply list_lookup_insert_Some in Hj as [(_ & <- & _)|[? _]]; [|done].
           rewrite bool_decide_eq_false_2 by done. done.
        -- rewrite list_lookup_insert_ne in Hj by done. by apply (others_free P w' i).
Qed.

Lemma pool_step_ok P P' : pool_ok P → pool_step P P' →
  pool_ok P' ∧ held_step (p_world P) (p_world P').
Proof.
  intros Hok Hs. destruct Hs as [w o ts op|w o ts i p w' o' p' Hi Hs].
  - split; [|apply held_refl]. destruct Hok as [Hc Hq Ho Ht]. constructor; [done|done| |]; simpl in *.
    + intros i Hi. destruct (Ho i Hi) as [p Hp]. rewrite lookup_app_l; [by exists p|].
      by eapply lookup_lt_Some.
    + intros i p Hi. apply lookup_app_Some in Hi as [Hi|[Hlen Hi]]; [by apply Ht|].
      destruct (i - length ts)%nat eqn:E; [|done]. injection Hi as <-.
      rewrite bool_decide_eq_false_2; [apply op_rg|]. intros Hi. destruct (Ho i Hi) as [p Hp].
      apply lookup_lt_Some in Hp. lia.
  - by apply (thread_step_ok (mkPool w o ts) i p).
Qed.

Lemma pool0_ok : pool_ok pool0.
Proof.
  constructor; simpl; try done; [by apply core_idle|]. intros _.
  constructor; simpl; try done; [by apply core_idle|set_solver..].
Qed.

Lemma reachable_ok P : rtc pool_step pool0 P → pool_ok P.
Proof.
  intros Hr. apply (rtc_ind_r (R := pool_step) (λ P, pool_ok P) pool0); [apply pool0_ok| |done].
  intros P1 P2 _ Hs Hok. by destruct (pool_step_ok _ _ Hok Hs).
Qed.

(** ** Theorems *)

(** C14. However many goroutines call the operations of a manager, and however
    their calls interleave with each other and with the plugin's failures: a
    healthy manager always has a client and a client always has a process;
    and whenever no lifecycle operation is under way, the state is consistent
    (pid, plugin id, generation range, nothing running after Close) and at
    most the manager's own process is alive, apart from those the operating
    system refused to wait for or kill. *)
Theorem interleaving_invariant P :
  rtc pool_step pool0 P →
  core (w_m (p_world P)) ∧ (p_owner P = None → quiescent (p_world P)).
Proof. intros Hr. destruct (reachable_ok P Hr). by split. Qed.

Lemma execution_sealed P P' :
  pool_ok P → rtc pool_step P P' → pool_ok P' ∧ sealed (p_world P) (p_world P').
Proof.
  intros Hok Hr. induction Hr as [P|P P1 P2 Hs _ IH]; [split; [done|by apply sealed_interference]|].
  destruct (pool_step_ok _ _ Hok Hs) as [Hok1 [_ H1]]. destruct (IH Hok1) as [Hok2 H2].
  split; [done|by eapply sealed_trans].
Qed.

(** C13. Closing is final, whoever is racing it.  Once a manager has been closed
    and the lifecycle lock is free, no goroutine, be it a monitor that saw a
    heartbeat fail before, an operator's restart waiting for the lock, or a call
    begun later, starts a process or changes the generation again: the manager
    stays closed, without a process and without a client, through every
    intermediate state, and of the processes it ever started none is alive,
    apart from those the operating system refused to wait for or kill. *)
Theorem close_final P P' :
  rtc pool_step pool0 P → p_owner P = None → closed (w_m (p_world P)) = true →
  rtc pool_step P P' →
  let m := w_m (p_world P) in let m' := w_m (p_world P') in
  closed m' = true ∧ cmd m' = None ∧ client m' = None ∧ st_Healthy (state m') = false
  ∧ st_GenerationID (state m') = st_GenerationID (state m)
  ∧ w_nextp (p_world P') = w_nextp (p_world P)
  ∧ w_running (p_world P') ⊆ w_lost (p_world P).
Proof.
  intros H0 Ho Hc Hr m m'. pose proof (reachable_ok P H0) as Hok.
  destruct (ok_quiescent P Hok Ho) as [_ _ _ _ Hcmd _ Hrun _]. specialize (Hcmd Hc).
  destruct (execution_sealed P P' Hok Hr) as [Hok' Hs]. destruct (Hs Hc) as (C & Hp & G & N & R & _).
  specialize (Hp Hcmd). destruct (ok_core P' Hok') as [H1 H2]. fold m' in H1, H2, Hp.
  assert (client m' = None) as Hn.
  { destruct (client m'); [|done]. rewrite Hp in H2. by destruct H2 as [? ?]. }
  assert (st_Healthy (state m') = false) as Hh.
  { destruct (st_Healthy (state m')); [|done]. rewrite Hn in H1. by destruct H1 as [? ?]. }
  rewrite Hcmd in Hrun. simpl in Hrun. split_and!; try done. set_solver.
Qed.

(** Facts along an execution of [n] steps, counting those that moved the epoch. *)
Lemma execution_epoch n P P' :
  pool_ok P → nsteps pool_step n P P' → is_Some (cmd (w_m (p_world P))) →
  0 <= rpcEpoch (w_m (p_world P)) < two64 →
  pool_ok P' ∧ ∃ b, (b <= n)%nat
    ∧ rpcEpoch (w_m (p_world P')) = uint64 (rpcEpoch (w_m (p_world P)) + Z.of_nat b)
    ∧ (b = 0%nat → mono (w_m (p_world P)) (w_m (p_world P'))).
Proof.
  intros Hok Hn Hp He. revert P' Hn. induction n as [|n IH]; intros P' Hn.
  { inversion Hn; subst. split; [done|]. exists 0%nat. split; [lia|]. split; [|done].
    rewrite Z.add_0_r. symmetry. by apply uint64_small. }
  apply nsteps_inv_r in Hn as (P1 & Hn & Hs).
  destruct (IH P1 Hn) as (Hok1 & b & Hb & Eb & Hm).
  destruct (pool_step_ok _ _ Hok1 Hs) as [Hok' [Hstep _]]. split; [done|].
  destruct Hstep as [Hmono|[[Hc Hep]|[Hep _]]].
  - exists b. split; [lia|]. destruct (mono_same _ _ Hmono) as (_ & -> & _).
    split; [done|]. intros Hb0. etrans; [by apply Hm|done].
  - exists b. split; [lia|]. rewrite Hep. split; [done|]. intros Hb0.
    destruct (mono_same _ _ (Hm Hb0)) as (E & _). rewrite Hc in E. rewrite <- E in Hp.
    by apply is_Some_None in Hp.
  - exists (S b). split; [lia|]. split; [|lia]. rewrite Hep, Eb. unfold uint64.
    rewrite Zplus_mod_idemp_l. f_equal. lia.
Qed.

Lemma reachable_epoch P : rtc pool_step pool0 P → 0 <= rpcEpoch (w_m (p_world P)) < two64.
Proof.
  intros Hr.
  apply (rtc_ind_r (R := pool_step) (λ P, 0 <= rpcEpoch (w_m (p_world P)) < two64) pool0); [done| |done].
  intros P1 P2 Hr1 Hs He. destruct (pool_step_ok _ _ (reachable_ok _ Hr1) Hs) as [_ [Hstep _]].
  destruct Hstep as [Hm|[[_ ->]|[-> _]]]; [|done|apply uint64_range].
  by destruct (mono_same _ _ Hm) as (_ & -> & _).
Qed.

(** Equal epochs fence.  Take any two moments of an interleaved execution
    (shorter than 2^64 steps) such that the manager has a process at the first
    and the same epoch at both: between them no goroutine stopped, killed,
    restarted, started or closed the manager. *)
Lemma epoch_same n P P' :
  rtc pool_step pool0 P → nsteps pool_step n P P' → Z.of_nat n < two64 →
  is_Some (cmd (w_m (p_world P))) →
  rpcEpoch (w_m (p_world P')) = rpcEpoch (w_m (p_world P)) →
  let m := w_m (p_world P) in let m' := w_m (p_world P') in
  cmd m' = cmd m ∧ closed m' = closed m
  ∧ st_GenerationID (state m') = st_GenerationID (state m)
  ∧ st_PID (state m') = st_PID (state m) ∧ st_PluginID (state m') = st_PluginID (state m)
  ∧ (client m' = client m ∨ client m' = None).
Proof.
  intros Hr Hn Hlt Hp Heq m m'. pose proof (reachable_epoch P Hr) as He.
  destruct (execution_epoch n P P' (reachable_ok P Hr) Hn Hp He) as (_ & b & Hb & Eb & Hm).
  assert (b = 0)%nat as Hb0.
  { rewrite Heq in Eb. unfold uint64, two64 in *. zlia. }
  destruct (mono_same _ _ (Hm Hb0)) as (E1 & _ & E3 & E4 & E5 & E6 & _ & E8). by split_and!.
Qed.
End Pool.

(** What the reply check lets through.  For a call with a nonzero epoch a
    reply is accepted exactly when the manager is open and still has the same
    client, epoch and generation; for epoch 0, the value a manager starts
    with, the generation is all that is compared, so that a reply can be
    accepted after its client was detached, killed or closed. *)
Theorem stale_reply_spec c g epoch m :
  (epoch ≠ 0 → stale_reply c g epoch m = false ↔
     closed m = false ∧ client m = Some c ∧ rpcEpoch m = epoch ∧ st_GenerationID (state m) = g)
  ∧ (stale_reply c g 0 m = false ↔ st_GenerationID (state m) = g).
Proof.
  unfold stale_reply. split.
  - intros He. rewrite orb_false_iff, negb_false_iff, Z.eqb_eq.
    rewrite (proj2 (Z.eqb_neq epoch 0)) by done. cbn [negb andb].
    rewrite !orb_false_iff, !negb_false_iff, bool_decide_eq_true, Z.eqb_eq. naive_solver.
  - rewrite orb_false_r, negb_false_iff, Z.eqb_eq. split; by intros ->.
Qed.
