(* ===== verification/FenceDemo.v ===== *)
(** * Interleavings that run

    A scheduler for the pool of Fence against the plugin of ManagerDemo, and
    executions on it: a heartbeat overtaken by a restart is rejected, an echo
    overtaken by the first kill is not, and a monitor and a restart that come
    after a close start nothing. *)

From S2P Require Import Prelude Prog GoText GoPath PluginID Auth Runtime Bundle EventLog PluginApi Manager ManagerWorld ManagerFacts ManagerProps ManagerDemo Fence.

#[local] Existing Instance ascii_tables.

(** One call of goroutine [i], when it has one and the lock allows it. *)
Definition sched_step (i : nat) (P : pool) : pool :=
  match p_threads P !! i with
  | Some (Vis e k) =>
      let r := demo_run _ e (p_world P) in
      let go o' := mkPool r.1 o' (<[i := k r.2]> (p_threads P)) in
      match lock_kind e with
      | Acquire => match p_owner P with None => go (Some i) | Some _ => P end
      | Release => go None
      | Other => go (p_owner P)
      end
  | _ => P
  end.

Definition sched (n i : nat) (P : pool) : pool := Nat.iter n (sched_step i) P.
Definition spawn (o : operation) (P : pool) : pool :=
  mkPool (p_world P) (p_owner P) (p_threads P ++ [op_prog demo_cfg o]).

Lemma sched_step_once i P : sched_step i P = P ∨ pool_step demo_cfg P (sched_step i P).
Proof.
  unfold sched_step. destruct (p_threads P !! i) as [[a|X e k]|] eqn:Hi; [by left| |by left].
  assert (∀ o', (match lock_kind e with
      | Acquire => p_owner P = None ∧ o' = Some i
      | Release => o' = None
      | Other => o' = p_owner P
      end) → pool_step demo_cfg P
        (mkPool (demo_run X e (p_world P)).1 o' (<[i := k (demo_run X e (p_world P)).2]> (p_threads P))))
    as Hgo.
  { intros o' Ho'. destruct P as [w o ts]. simpl in *.
    eapply pool_run; [exact Hi|]. exists (demo_run X e w).2. split; [apply demo_run_ok|done]. }
  destruct (lock_kind e); [|by right; apply Hgo..]. destruct (p_owner P) eqn:Ho; [by left|].
  right. by apply Hgo.
Qed.

Lemma sched_step_ok i P : rtc (pool_step demo_cfg) P (sched_step i P).
Proof. destruct (sched_step_once i P) as [->|Hs]; [done|by apply rtc_once]. Qed.

Lemma sched_ok n i P : rtc (pool_step demo_cfg) P (sched n i P).
Proof.
  induction n as [|n IH]; [done|]. simpl. etrans; [exact IH|]. apply sched_step_ok.
Qed.

Lemma spawn_ok o P : rtc (pool_step demo_cfg) P (spawn o P).
Proof. apply rtc_once. destruct P. apply pool_spawn. Qed.

(** What goroutine [i] returned. *)
Definition returned (i : nat) (P : pool) : option (option error) :=
  match p_threads P !! i with Some (Ret r) => Some r | _ => None end.

(** Goroutine 0 starts the plugin, 1 asks [o] of it and has its answer, then 2
    runs [by_] to its end; last, 1 goes on. *)
Definition started : pool := sched 100 0 (spawn OpStart pool0).
Definition asked (o : operation) : pool := sched 4 1 (spawn o started).
Definition overtaken (o by_ : operation) : pool := sched 100 2 (spawn by_ (asked o)).
Definition resumed (o by_ : operation) : pool := sched 20 1 (overtaken o by_).

Lemma overtaken_ok o by_ : rtc (pool_step demo_cfg) pool0 (overtaken o by_).
Proof.
  transitivity (spawn OpStart pool0); [exact (spawn_ok _ _)|].
  transitivity started; [exact (sched_ok _ _ _)|].
  transitivity (spawn o started); [exact (spawn_ok _ _)|].
  transitivity (asked o); [exact (sched_ok _ _ _)|].
  transitivity (spawn by_ (asked o)); [exact (spawn_ok _ _)|]. exact (sched_ok _ _ _).
Qed.

(** A manager's first epoch is not fenced.  In this execution an echo is in
    flight when the manager is killed: the kill returns nil, the client is
    detached, the process is gone; and the echo, which is checked only then,
    still succeeds.  The same echo after a restart, when the epoch is no longer
    zero but the generation too has changed, is rejected. *)
Theorem first_epoch_unfenced :
  let P := overtaken (OpEcho "hello") OpKill in
  let P' := resumed (OpEcho "hello") OpKill in
  rtc (pool_step demo_cfg) pool0 P ∧ rtc (pool_step demo_cfg) P P'
  ∧ returned 2 P = Some None ∧ returned 1 P = None
  ∧ client (w_m (p_world P)) = None ∧ cmd (w_m (p_world P)) = None
  ∧ returned 1 P' = Some None
  ∧ ∃ e, returned 1 (resumed (OpEcho "hello") OpRestart) = Some (Some e).
Proof.
  split; [exact (overtaken_ok _ _)|]. split; [exact (sched_ok 20 1 _)|].
  split; [vm_compute; reflexivity|]. split; [vm_compute; reflexivity|].
  split; [vm_compute; reflexivity|]. split; [vm_compute; reflexivity|].
  split; [vm_compute; reflexivity|]. eexists. vm_compute. reflexivity.
Qed.

(** ** The theorems of Fence on these executions *)

Lemma interleaving_invariant_witness :
  core (w_m (p_world (overtaken OpHeartbeat OpRestart)))
  ∧ quiescent demo_cfg (p_world (overtaken OpHeartbeat OpRestart))
  ∧ st_GenerationID (state (w_m (p_world (overtaken OpHeartbeat OpRestart)))) = 2.
Proof.
  destruct (interleaving_invariant demo_cfg _ (overtaken_ok OpHeartbeat OpRestart)) as [Hc Hq].
  split; [exact Hc|]. split; [apply Hq; vm_compute; reflexivity|vm_compute; reflexivity].
Defined.

(** A monitor has its heartbeat's answer when the manager is closed; then it goes
    on, and a restart is tried. *)
Definition closed_over : pool := overtaken (OpMonitor 1) OpClose.
Definition restart_refused : pool := sched 100 3 (spawn OpRestart (sched 100 1 closed_over)).

Lemma close_final_witness :
  closed (w_m (p_world closed_over)) = true ∧ returned 2 closed_over = Some None
  ∧ returned 1 closed_over = None ∧ returned 1 restart_refused = Some None
  ∧ (∃ e, returned 3 restart_refused = Some (Some e))
  ∧ cmd (w_m (p_world restart_refused)) = None
  ∧ w_nextp (p_world restart_refused) = w_nextp (p_world closed_over)
  ∧ w_running (p_world restart_refused) ⊆ w_lost (p_world closed_over).
Proof.
  assert (closed (w_m (p_world closed_over)) = true) as Hc by (vm_compute; reflexivity).
  assert (rtc (pool_step demo_cfg) closed_over restart_refused) as Hr.
  { transitivity (sched 100 1 closed_over); [exact (sched_ok _ _ _)|].
    transitivity (spawn OpRestart (sched 100 1 closed_over)); [exact (spawn_ok _ _)|]. exact (sched_ok _ _ _). }
  destruct (close_final demo_cfg closed_over restart_refused) as (_ & Hp & _ & _ & _ & Hn & Hs);
    [exact (overtaken_ok _ _)|vm_compute; reflexivity|exact Hc|exact Hr|].
  split; [exact Hc|]. split; [vm_compute; reflexivity|]. split; [vm_compute; reflexivity|].
  split; [vm_compute; reflexivity|]. split; [eexists; vm_compute; reflexivity|].
  split; [exact Hp|]. split; [exact Hn|exact Hs].
Defined.
