(* ===== verification/CallFence.v ===== *)
(** * What a call that succeeds has seen

    A call of a manager looks at the manager, asks the plugin, looks again and
    only then believes the reply; in between, other goroutines do what they
    like.  The moments at which a goroutine looks and asks are recorded along
    the executions of Fence, and what an operation concludes from them is
    proved for every execution in which it returns nil. *)

From S2P Require Import Prelude Prog GoText GoPath PluginID Auth Runtime Bundle EventLog PluginApi Manager ManagerWorld ManagerFacts ManagerProps ManagerDemo Fence FenceDemo.

(** What a goroutine does that others can tell: it looks at the manager in a
    critical section, or asks a client. *)
Inductive glimpse : Type := Looked (m : Manager) | Asked (c : rpcClient).

Definition note {X} (e : mgrE X) (w : world) : option glimpse :=
  match e with Atomic _ => Some (Looked (w_m w)) | CallRPC c _ => Some (Asked c) | _ => None end.
Definition noted (h : list glimpse) (g : option glimpse) : list glimpse :=
  match g with Some g => h ++ [g] | None => h end.

(** [Q] holds of what the goroutine has seen when it returns, whatever it is answered. *)
Fixpoint traced {A} (p : prog mgrE A) (Q : list glimpse → A → Prop) (h : list glimpse) : Prop :=
  match p with
  | Ret a => Q h a
  | Vis e k => ∀ w x w', mgr_step _ e w x w' → traced (k x) Q (noted h (note e w))
  end.

Lemma traced_bind {A B} (p : prog mgrE A) (k : A → prog mgrE B) Q h :
  traced p (λ h' a, traced (k a) Q h') h → traced (p ≫= k) Q h.
Proof.
  revert h. induction p as [a|X e kk IH]; intros h Hp; simpl in *; [done|].
  intros w x w' Hs. by apply IH, (Hp w x w').
Qed.

Lemma traced_mono {A} (p : prog mgrE A) (Q Q' : list glimpse → A → Prop) h :
  traced p Q h → (∀ h' a, Q h' a → Q' h' a) → traced p Q' h.
Proof.
  intros Hp HQ. revert h Hp. induction p as [a|X e kk IH]; intros h Hp; simpl in *; [auto|].
  intros w x w' Hs. by apply IH, (Hp w x w').
Qed.

Lemma traced_any {A} (p : prog mgrE A) (Q : list glimpse → A → Prop) h :
  (∀ h' a, Q h' a) → traced p Q h.
Proof. intros HQ. revert h. induction p as [a|X e k IH]; intros h; simpl; auto. Qed.

Lemma traced_read {A B} (f : Manager → B) (k : B → prog mgrE A) Q h :
  (∀ m, traced (k (f m)) Q (h ++ [Looked m])) → traced (read f ≫= k) Q h.
Proof. intros Hk w x w' [-> _]. apply Hk. Qed.

Lemma traced_log {A} e (k : unit → prog mgrE A) Q h : traced (k tt) Q h → traced (logEvent e ≫= k) Q h.
Proof. intros Hk w [] w' _. exact Hk. Qed.

Section Calls.
Context `{UnicodeTables}.
Variable cfg : Config.

(** *** What the operations conclude *)

Lemma call_traced {X} c g ep (args : request X) h :
  traced (call cfg c g ep args) (λ h' r, r.2 = None →
    ∃ m1 m2, h' = h ++ [Looked m1; Asked c; Looked m2] ∧ stale_reply c g ep m2 = false) h.
Proof.
  unfold call, Manager_State. apply traced_read. intros m1. apply traced_log.
  intros w [reply res] w' _. cbn [note noted]. destruct res as [[err|]|].
  - apply traced_bind, traced_any. by intros h' [].
  - apply traced_read. intros m2. destruct (stale_reply c g ep m2) eqn:Es; apply traced_log; [done|].
    intros _. exists m1, m2. by rewrite <- !app_assoc.
  - apply traced_bind, traced_any. by intros h' [].
Qed.

(** A goroutine looked, asked [c], looked again at [m'], and believes the reply. *)
Definition believed (o : operation) (m m' : Manager) (c : rpcClient) : Prop :=
  closed m = false ∧ client m = Some c ∧ st_GenerationID (state m') = st_GenerationID (state m)
  ∧ (rpcEpoch m ≠ 0 ∨ o = OpHeartbeat →
       closed m' = false ∧ client m' = Some c ∧ rpcEpoch m' = rpcEpoch m).
Definition concluded (o : operation) (h : list glimpse) (r : option error) : Prop :=
  r = None → ∃ c m m1 mid m', h = [Looked m; Looked m1; Asked c] ++ mid ++ [Looked m'] ∧ believed o m m' c.

Lemma accepted_believed o m m' c :
  closed m = false → client m = Some c → o ≠ OpHeartbeat →
  stale_reply c (st_GenerationID (state m)) (rpcEpoch m) m' = false → believed o m m' c.
Proof.
  intros Ho Hc Hn. destruct (stale_reply_spec c (st_GenerationID (state m)) (rpcEpoch m) m') as [H1 H2].
  intros Hs. destruct (decide (rpcEpoch m = 0)) as [E|E].
  - rewrite E in Hs. apply H2 in Hs. split_and!; [done..|]. by intros [?| ->].
  - apply (H1 E) in Hs as (? & ? & ? & ?). split_and!; [done..|]. by intros _.
Qed.

Lemma routed_traced {X} o (args : request X) :
  o ≠ OpHeartbeat → traced (routed cfg args) (λ h r, concluded o h (error_of r)) [].
Proof.
  intros Hn. unfold routed. apply traced_read. intros m. cbn [view view_closed view_client view_generation view_epoch].
  destruct (closed m) eqn:Hcl; [done|]. destruct (client m) as [c|] eqn:Hc; [|done].
  apply traced_bind. eapply traced_mono; [apply call_traced|]. intros h' [reply [e|]]; [done|].
  intros Hr _. destruct (Hr eq_refl) as (m1 & m2 & -> & Hs).
  exists c, m, m1, [], m2. split; [done|]. by apply accepted_believed.
Qed.

Lemma heartbeat_traced : traced (Heartbeat cfg) (λ h r, concluded OpHeartbeat h r.2) [].
Proof.
  unfold Heartbeat. apply traced_read. intros m. cbn [view view_closed view_client view_generation view_epoch].
  destruct (closed m) eqn:Hcl; [done|]. destruct (client m) as [c|] eqn:Hc; [|done].
  apply traced_bind. eapply traced_mono; [apply call_traced|]. intros h' [out [e|]].
  { intros _. apply traced_log. done. }
  intros Hr. destruct (Hr eq_refl) as (m1 & m2 & -> & _).
  intros w x w' [-> _]. unfold heartbeat_commit.
  set (healthy := bool_decide (hr_Status out = StatusHealthy)).
  destruct (closed (w_m w) || negb (bool_decide (client (w_m w) = Some c))
    || negb (rpcEpoch (w_m w) =? rpcEpoch m)
    || negb (st_GenerationID (state (w_m w)) =? st_GenerationID (state m))) eqn:Ed;
    cbn [view view_epoch view_generation fst]; rewrite Ed; [done|]. cbn [fst].
  apply traced_bind. unfold heartbeat_report.
  assert (concluded OpHeartbeat
    (noted ([] ++ [Looked m] ++ [Looked m1; Asked c; Looked m2]) (Some (Looked (w_m w)))) None) as Hdone.
  { intros _. exists c, m, m1, [Looked m2], (w_m w). split; [done|].
    rewrite !orb_false_iff, !negb_false_iff, bool_decide_eq_true, !Z.eqb_eq in Ed.
    destruct Ed as [[[? ?] ?] ?]. by split_and!. }
  destruct healthy; [destruct (negb (st_Healthy (state (w_m w)))); [intros ? ? ? _; exact Hdone|exact Hdone]|intros ? ? ? _; exact Hdone].
Qed.

(** The operations that ask the plugin something. *)
Definition asks (o : operation) : bool :=
  match o with OpEcho _ | OpSleep _ | OpCrash _ | OpHeartbeat => true | _ => false end.

Lemma op_traced o : asks o = true → traced (op_prog cfg o) (concluded o) [].
Proof.
  assert (∀ X (args : request X), o ≠ OpHeartbeat →
    traced (r ← routed cfg args; Ret (error_of r)) (concluded o) []) as Hrouted.
  { intros X args Hn. apply traced_bind. exact (routed_traced o args Hn). }
  destruct o; try done; intros _; try by apply Hrouted.
  apply traced_bind. exact heartbeat_traced.
Qed.

(** *** The moments of an execution *)

Notation step := (pool_step cfg).

(** Goroutine [i] is about to send a request on [c]. *)
Definition asking (i : nat) (c : rpcClient) (P : pool) : Prop :=
  ∃ X (r : request X) k, p_threads P !! i = Some (Vis (CallRPC c r) k).

Definition at_moment (i : nat) (g : glimpse) (P : pool) : Prop :=
  match g with Looked m => w_m (p_world P) = m | Asked c => asking i c P end.

(** An execution of [n] steps that passes through the moments of [h], in order. *)
Fixpoint passes (i n : nat) (P : pool) (h : list glimpse) (P' : pool) : Prop :=
  match h with
  | [] => nsteps step n P P'
  | g :: h => ∃ n1 n2 P1, n = (n1 + n2)%nat ∧ nsteps step n1 P P1 ∧ at_moment i g P1 ∧ passes i n2 P1 h P'
  end.

Lemma passes_step i n P h P' P'' : passes i n P h P' → step P' P'' → passes i (S n) P h P''.
Proof.
  revert n P. induction h as [|g h IH]; intros n P; simpl.
  - intros Hn Hs. eapply nsteps_r; [exact Hn|exact Hs].
  - intros (n1 & n2 & P1 & -> & H1 & Hg & H2) Hs. exists n1, (S n2), P1. split_and!; [lia|done|done|].
    by eapply IH.
Qed.

Lemma passes_noted i n P h P' g :
  passes i n P h P' → from_option (λ g, at_moment i g P') True g → passes i n P (noted h g) P'.
Proof.
  destruct g as [g|]; [|done]. cbn. revert n P. induction h as [|g' h IH]; intros n P; simpl.
  - intros Hn Hg. exists n, 0%nat, P'. split_and!; [lia|done|done|constructor].
  - intros (n1 & n2 & P1 & -> & H1 & Hg' & H2) Hg. exists n1, n2, P1. split_and!; [done..|]. by apply IH.
Qed.

Lemma passes_last i n P mid g P' :
  passes i n P (mid ++ [g]) P' →
  ∃ n1 n2 P1, n = (n1 + n2)%nat ∧ nsteps step n1 P P1 ∧ at_moment i g P1 ∧ nsteps step n2 P1 P'.
Proof.
  revert n P. induction mid as [|g' mid IH]; intros n P; simpl; [done|].
  intros (n1 & n2 & P1 & -> & H1 & _ & H2). destruct (IH _ _ H2) as (n3 & n4 & P2 & -> & H3 & Hg & H4).
  exists (n1 + n3)%nat, n4, P2. split_and!; [lia|by eapply nsteps_trans|done|done].
Qed.

(** A goroutine along an execution. *)
Lemma thread_passes i p Q n P P' :
  p_threads P !! i = Some p → traced p Q [] → nsteps step n P P' →
  ∃ q h, p_threads P' !! i = Some q ∧ traced q Q h ∧ passes i n P h P'.
Proof.
  intros Hp Ht. revert P'. induction n as [|n IH]; intros P' Hn.
  { inversion Hn; subst. exists p, []. split_and!; [done..|constructor]. }
  apply nsteps_inv_r in Hn as (P1 & Hn & Hs). destruct (IH P1 Hn) as (q & h & Hq & Hth & Hpass).
  pose proof Hs as Hs'. destruct Hs as [w o ts op|w o ts j q' w' o' q'' Hj Hst].
  { exists q, h. split_and!; [|done|by eapply passes_step].
    cbn in *. rewrite lookup_app_l; [done|]. by eapply lookup_lt_Some. }
  cbn in Hq. destruct (decide (j = i)) as [->|Hne].
  - rewrite Hq in Hj. injection Hj as <-. destruct q as [a|X e k]; [done|].
    destruct Hst as (x & Hx & -> & _). exists (k x), (noted h (note e w)). split_and!.
    + cbn. rewrite list_lookup_insert_eq; [done|]. by eapply lookup_lt_Some.
    + by apply (Hth w x w').
    + eapply passes_step; [|exact Hs']. apply passes_noted; [done|].
      destruct e; cbn; try done. by exists _, r, k.
  - exists q, h. split_and!; [|done|by eapply passes_step]. cbn. by rewrite list_lookup_insert_ne.
Qed.

(** *** The fence *)

(** The manager still is what it was when the goroutine first looked. *)
Record unchanged (c : rpcClient) (m m' : Manager) : Prop := {
  un_open : closed m' = false;
  un_client : client m' = Some c;
  un_cmd : cmd m' = cmd m;
  un_generation : st_GenerationID (state m') = st_GenerationID (state m);
  un_pid : st_PID (state m') = st_PID (state m);
  un_id : st_PluginID (state m') = st_PluginID (state m);
}.

Lemma mono_unchanged c m m' :
  mono m m' → closed m = false → client m' = Some c → unchanged c m m'.
Proof.
  intros Hm Ho Hc. destruct (mono_same _ _ Hm) as (E1 & _ & E3 & E4 & E5 & E6 & _ & _).
  constructor; congruence.
Qed.

(** An execution counts its epochs. *)
Lemma epochs_passed n P P' :
  pool_ok cfg P → nsteps step n P P' → 0 <= rpcEpoch (w_m (p_world P)) < two64 →
  pool_ok cfg P' ∧ ∃ b, (b <= n)%nat
    ∧ rpcEpoch (w_m (p_world P')) = uint64 (rpcEpoch (w_m (p_world P)) + Z.of_nat b).
Proof.
  intros Hok Hn He. revert P' Hn. induction n as [|n IH]; intros P' Hn.
  { inversion Hn; subst. split; [done|]. exists 0%nat. split; [lia|]. rewrite Z.add_0_r.
    symmetry. by apply uint64_small. }
  apply nsteps_inv_r in Hn as (P1 & Hn & Hs). destruct (IH P1 Hn) as (Hok1 & b & Hb & Eb).
  destruct (pool_step_ok _ _ _ Hok1 Hs) as [Hok' [Hstep _]]. split; [done|].
  assert (rpcEpoch (w_m (p_world P')) = rpcEpoch (w_m (p_world P1))
    ∨ rpcEpoch (w_m (p_world P')) = uint64 (rpcEpoch (w_m (p_world P1)) + 1)) as [E|E].
  { destruct Hstep as [Hm|[[_ E]|[E _]]]; [left|by left|by right]. by destruct (mono_same _ _ Hm) as (_ & -> & _). }
  - exists b. split; [lia|]. by rewrite E.
  - exists (S b). split; [lia|]. rewrite E, Eb. unfold uint64. rewrite Zplus_mod_idemp_l. f_equal. lia.
Qed.

(** No epoch passed between [P1] and [P3], so none did up to [P2]. *)
Lemma fence_between c n1 n2 P1 P2 P3 :
  pool_ok cfg P1 → 0 <= rpcEpoch (w_m (p_world P1)) < two64 →
  nsteps step n1 P1 P2 → nsteps step n2 P2 P3 → Z.of_nat (n1 + n2) < two64 →
  closed (w_m (p_world P1)) = false → client (w_m (p_world P1)) = Some c →
  client (w_m (p_world P3)) = Some c → rpcEpoch (w_m (p_world P3)) = rpcEpoch (w_m (p_world P1)) →
  unchanged c (w_m (p_world P1)) (w_m (p_world P2)) ∧ unchanged c (w_m (p_world P1)) (w_m (p_world P3)).
Proof.
  intros Hok He H12 H23 Hlt Ho Hc Hc3 Ee.
  assert (is_Some (cmd (w_m (p_world P1)))) as Hp by (apply (ok_core _ _ Hok); by rewrite Hc).
  destruct (execution_epoch cfg n1 P1 P2 Hok H12 Hp He) as (Hok2 & b1 & Hb1 & E1 & M1).
  destruct (epochs_passed n2 P2 P3 Hok2 H23) as (_ & b2 & Hb2 & E2); [rewrite E1; apply uint64_range|].
  assert (b1 = 0 ∧ b2 = 0)%nat as [-> ->].
  { rewrite E1, Ee in E2. unfold uint64 in E2. rewrite Zplus_mod_idemp_l in E2. unfold two64 in *. zlia. }
  specialize (M1 eq_refl). destruct (mono_same _ _ M1) as (Ep & _ & _ & _ & _ & _ & _ & Ecl).
  assert (rpcEpoch (w_m (p_world P3)) = rpcEpoch (w_m (p_world P2))) as Ee2.
  { rewrite Ee, E1, Z.add_0_r. symmetry. by apply uint64_small. }
  destruct (execution_epoch cfg n2 P2 P3 Hok2 H23) as (_ & b & Hb & E3 & M2); [by rewrite Ep|rewrite E1; apply uint64_range|].
  assert (b = 0)%nat as ->.
  { rewrite Ee2 in E3. pose proof (uint64_range (rpcEpoch (w_m (p_world P1)) + Z.of_nat 0)) as Hr.
    rewrite <- E1 in Hr. unfold uint64, two64 in *. zlia. }
  specialize (M2 eq_refl). destruct (mono_same _ _ M2) as (_ & _ & _ & _ & _ & _ & _ & Ecl2).
  assert (client (w_m (p_world P2)) = Some c) as Hc2 by (destruct Ecl2; congruence).
  split; apply mono_unchanged; try done. by etrans.
Qed.

End Calls.

(** ** An echo after a restart *)
#[local] Existing Instance ascii_tables.

Definition restarted : pool := sched 100 1 (spawn OpRestart started).
Definition echoed : pool := sched 100 2 (spawn (OpEcho "hello") restarted).

(** A schedule makes at most as many steps as it has turns. *)
Lemma sched_steps k i P : ∃ n, (n <= k)%nat ∧ nsteps (pool_step demo_cfg) n P (sched k i P).
Proof.
  induction k as [|k (n & Hn & Hs)]; [exists 0%nat; split; [lia|constructor]|].
  change (sched (S k) i P) with (sched_step i (sched k i P)).
  destruct (sched_step_once i (sched k i P)) as [->|H1]; [exists n; split; [lia|done]|].
  exists (S n). split; [lia|]. by eapply nsteps_r.
Qed.

Lemma restarted_ok : rtc (pool_step demo_cfg) pool0 restarted.
Proof.
  transitivity (spawn OpStart pool0); [exact (spawn_ok _ _)|].
  transitivity started; [exact (sched_ok _ _ _)|].
  transitivity (spawn OpRestart started); [exact (spawn_ok _ _)|exact (sched_ok _ _ _)].
Qed.

Lemma echoed_steps : ∃ n, Z.of_nat n < two64 ∧
  nsteps (pool_step demo_cfg) n (spawn (OpEcho "hello") restarted) echoed.
Proof.
  destruct (sched_steps 100 2 (spawn (OpEcho "hello") restarted)) as (n & Hn & Hs).
  exists n. split; [unfold two64; lia|exact Hs].
Qed.

Lemma restarted_threads : length (p_threads restarted) = 2%nat.
Proof. vm_compute. reflexivity. Qed.

Lemma echoed_returned : p_threads echoed !! 2%nat = Some (Ret None).
Proof. vm_compute. reflexivity. Qed.

