(* ===== verification/Conns.v ===== *)
(** * Who closes a connection

    A connection to a plugin belongs to its manager, whose client it is, or to
    the goroutine that dialled or detached it and has not closed it yet.  That
    a goroutine closes what it owes is a property of its program, whatever the
    others do: [settles] says that it gets rid of a connection before it
    returns, [tidy] that it settles every connection that becomes its own. *)

From S2P Require Import Prelude Prog GoText GoPath PluginID Auth Runtime Bundle EventLog PluginApi Manager ManagerWorld.

Section Settles.
(** Programs whose calls act on the managers named by [K]. *)
Context {K : Type} `{EqDecision K} {E : Type → Type}.
Variable on : ∀ X, E X → option (K * mgrE X).
(** What else is asked of a call (of [go q()], that [q] is tidy). *)
Variable ok : ∀ X, E X → Prop.

(** The connection [c] is closed, becomes the manager's client, or [rest]. *)
Definition settling (c : nat) {X} (e : mgrE X) : (X → Prop) → Prop :=
  match e in mgrE X return (X → Prop) → Prop with
  | CloseConn c' => λ rest, c' = c ∨ ∀ x, rest x
  | Atomic f => λ rest, ∀ m, client (f m).2 = Some c ∨ rest (f m).1
  | _ => λ rest, ∀ x, rest x
  end.

Fixpoint settles (k : K) (c : nat) {A} (p : prog E A) (S : A → Prop) : Prop :=
  match p with
  | Ret a => S a
  | Vis e f =>
      match on _ e with
      | Some (j, e') =>
          if decide (j = k) then settling c e' (λ x, settles k c (f x) S) else ∀ x, settles k c (f x) S
      | None => ∀ x, settles k c (f x) S
      end
  end.

(** A connection that becomes the goroutine's own is settled. *)
Definition keeping {X} (e : mgrE X) : (nat → X → Prop) → Prop :=
  match e in mgrE X return (nat → X → Prop) → Prop with
  | DialUnix _ => λ rest, ∀ c, rest c (Ok c)
  | Atomic f => λ rest, ∀ m c, client m = Some c → client (f m).2 = None → rest c (f m).1
  | _ => λ _, True
  end.

Fixpoint tidy {A} (p : prog E A) (S : K → nat → A → Prop) : Prop :=
  match p with
  | Ret _ => True
  | Vis e f =>
      match on _ e with
      | Some (j, e') => keeping e' (λ c x, settles j c (f x) (S j c))
      | None => True
      end ∧ ok _ e ∧ ∀ x, tidy (f x) S
  end.

Lemma settling_mono c {X} (e : mgrE X) (R R' : X → Prop) :
  (∀ x, R x → R' x) → settling c e R → settling c e R'.
Proof.
  intros HR. destruct e; cbn; try by auto.
  - intros H m. destruct (H m); auto.
  - intros [?|?]; auto.
Qed.

Lemma settling_any c {X} (e : mgrE X) (R : X → Prop) : (∀ x, R x) → settling c e R.
Proof. intros HR. destruct e; cbn; auto. Qed.

Lemma settles_mono k c {A} (p : prog E A) (S S' : A → Prop) :
  (∀ a, S a → S' a) → settles k c p S → settles k c p S'.
Proof.
  intros HS. induction p as [a|X e f IH]; simpl; [auto|]. destruct (on X e) as [[j e']|]; [|auto].
  destruct (decide (j = k)); [|auto]. by apply settling_mono.
Qed.

Lemma settles_any k c {A} (p : prog E A) (S : A → Prop) : (∀ a, S a) → settles k c p S.
Proof.
  intros HS. induction p as [a|X e f IH]; simpl; [auto|]. destruct (on X e) as [[j e']|]; [|auto].
  destruct (decide (j = k)); [|auto]. by apply settling_any.
Qed.

Lemma settles_bind k c {A B} (p : prog E A) (f : A → prog E B) S :
  settles k c p (λ a, settles k c (f a) S) → settles k c (p ≫= f) S.
Proof.
  induction p as [a|X e g IH]; simpl; [done|].
  assert ((∀ x, settles k c (g x) (λ a, settles k c (f a) S)) → ∀ x, settles k c (prog_bind f (g x)) S) as Hall
    by (intros Hg x; apply IH, Hg).
  destruct (on X e) as [[j e']|]; [|done]. destruct (decide (j = k)); [|done]. apply settling_mono, IH.
Qed.

(** The first part settles it, or the second whatever the first answers. *)
Lemma settles_first k c {A B} (p : prog E A) (f : A → prog E B) S :
  settles k c p (λ _, False) → settles k c (p ≫= f) S.
Proof. intros Hp. apply settles_bind. by eapply settles_mono; [|exact Hp]. Qed.

Lemma settles_then k c {A B} (p : prog E A) (f : A → prog E B) S :
  (∀ a, settles k c (f a) S) → settles k c (p ≫= f) S.
Proof. intros Hf. by apply settles_bind, settles_any. Qed.

Lemma keeping_mono {X} (e : mgrE X) (R R' : nat → X → Prop) :
  (∀ c x, R c x → R' c x) → keeping e R → keeping e R'.
Proof. intros HR. destruct e; cbn; auto. Qed.

Lemma tidy_bind {A B} (p : prog E A) (f : A → prog E B) S :
  tidy p (λ k c a, settles k c (f a) (S k c)) → (∀ a, tidy (f a) S) → tidy (p ≫= f) S.
Proof.
  intros Hp Hf. induction p as [a|X e g IH]; simpl in *; [auto|]. destruct Hp as (Hk & Ho & Hp).
  split; [|split; [done|intros x; apply IH, Hp]]. destruct (on X e) as [[j e']|]; [|done].
  eapply keeping_mono; [|exact Hk]. intros c x. apply settles_bind.
Qed.

Lemma tidy_mono {A} (p : prog E A) (S S' : K → nat → A → Prop) :
  (∀ k c a, S k c a → S' k c a) → tidy p S → tidy p S'.
Proof.
  intros HS. induction p as [a|X e g IH]; simpl; [done|]. intros (Hk & Ho & Hp). split_and!; [|done|auto].
  destruct (on X e) as [[j e']|]; [|done]. eapply keeping_mono; [|exact Hk]. intros c x.
  apply settles_mono. auto.
Qed.

(** Nothing is owed when it returns. *)
Definition square {A} (_ : K) (_ : nat) (_ : A) : Prop := False.

(** Nothing is owed in between. *)
Lemma tidy_seq {A B} (p : prog E A) (f : A → prog E B) S :
  tidy p square → (∀ a, tidy (f a) S) → tidy (p ≫= f) S.
Proof. intros Hp Hf. apply tidy_bind; [|done]. by eapply tidy_mono; [|exact Hp]. Qed.

Lemma tidy_for_range {A} (xs : list A) body : (∀ x, tidy (body x) square) → tidy (for_range xs body) square.
Proof. intros Hb. induction xs as [|x xs IH]; [done|]. by apply tidy_seq. Qed.

Lemma tidy_fold_range {A B} (xs : list A) (acc : B) body :
  (∀ acc x, tidy (body acc x) square) → tidy (fold_range xs acc body) square.
Proof. intros Hb. revert acc. induction xs as [|x xs IH]; intros acc; [done|]. by apply tidy_seq. Qed.
End Settles.

(** ** A step *)

(** A client is not replaced by another. *)
Definition handover (w w' : world) : Prop :=
  client (w_m w) = None ∨ client (w_m w') = None ∨ client (w_m w') = client (w_m w).

Lemma settling_step c {X} (e : mgrE X) (R : X → Prop) w x w' :
  settling c e R → mgr_step X e w x w' → c ∈ w_conns w' → R x ∨ client (w_m w') = Some c.
Proof.
  intros HR Hs Hc. destruct e; cbn in HR, Hs; try (left; exact (HR _)).
  - destruct Hs as [-> ->]. destruct (HR (w_m w)); auto.
  - subst w'. cbn in Hc. left. destruct HR as [-> |HR]; [set_solver|auto].
Qed.

Lemma sys_step_conns {X} (e : sysE X) x w : w_conns (sys_step e x w) = w_conns w.
Proof.
  destruct e; cbn; try done; [|by destruct x]. unfold removed. destruct x as [e|]; [by destruct (os_IsNotExist e)|done].
Qed.

Lemma waited_conns p r w : w_conns (waited p r w) = w_conns w.
Proof. unfold waited. by destruct (real_error r). Qed.

(** A new connection has been dialled. *)
Lemma keeping_new {X} (e : mgrE X) (R : nat → X → Prop) w x w' c :
  keeping e R → mgr_step X e w x w' → c ∈ w_conns w' → c ∉ w_conns w → R c x.
Proof.
  intros HR Hs Hc Hn. destruct e; cbn in HR, Hs.
  all: try (exfalso; apply Hn; by subst w').
  all: try (exfalso; destruct Hs as [_ ->]; by apply Hn).
  - exfalso. apply Hn. subst w'. by rewrite sys_step_conns in Hc.
  - exfalso. destruct Hs as [-> |[_ ->]]; by apply Hn.
  - exfalso. destruct x; [destruct Hs as [_ ->]|subst w']; by apply Hn.
  - exfalso. destruct Hs as (t & _ & ->). by apply Hn.
  - destruct x as [c'|e]; [|by subst w']. destruct Hs as [-> ->]. cbn in Hc.
    apply elem_of_union in Hc as [->%elem_of_singleton|Hc]; [apply HR|done].
  - exfalso. subst w'. cbn in Hc. set_solver.
  - exfalso. apply Hn. subst w'. destruct x as [r|]; [|done]. by rewrite waited_conns in Hc.
  - exfalso. apply Hn. subst w'. by destruct (real_error x).
  - exfalso. apply Hn. subst w'. by rewrite waited_conns in Hc.
Qed.

(** The client stays, or it is the goroutine's to settle. *)
Lemma keeping_client {X} (e : mgrE X) (R : nat → X → Prop) w x w' c :
  keeping e R → mgr_step X e w x w' → handover w w' → client (w_m w) = Some c →
  R c x ∨ client (w_m w') = Some c.
Proof.
  intros HR Hs Hh Hc. destruct Hh as [Hh|[Hh|Hh]]; [congruence| |right; congruence].
  assert (w_m w' = w_m w → R c x ∨ client (w_m w') = Some c) as Hsame by (intros E; right; congruence).
  destruct e; cbn in HR, Hs; try (apply Hsame; by subst w').
  - destruct Hs as [-> ->]. left. by apply HR.
  - apply Hsame. subst w'. destruct e; cbn; try done; [|by destruct x].
    unfold removed. destruct x as [e|]; [by destruct (os_IsNotExist e)|done].
  - apply Hsame. by destruct Hs as [-> |[_ ->]].
  - apply Hsame. destruct x; [by destruct Hs as [_ ->]|by subst w'].
  - apply Hsame. by destruct Hs as [_ ->].
  - apply Hsame. by destruct Hs as (t & _ & ->).
  - apply Hsame. destruct x; [by destruct Hs as [_ ->]|by subst w'].
  - apply Hsame. subst w'. destruct x as [r|]; [|done]. unfold waited. by destruct (real_error r).
  - apply Hsame. subst w'. by destruct (real_error x).
  - apply Hsame. subst w'. unfold waited. by destruct (real_error x).
Qed.

(** Programs of one component in those of another, [g] its manager's name there. *)
Section Translate.
Context {K K' : Type} `{EqDecision K} `{EqDecision K'} {E F : Type → Type}.
Variables (on : ∀ X, E X → option (K * mgrE X)) (ok : ∀ X, E X → Prop).
Variables (on' : ∀ X, F X → option (K' * mgrE X)) (ok' : ∀ X, F X → Prop).
Variables (g : K → K') (t : ∀ X, E X → F X).
Hypothesis g_inj : ∀ j k, g j = g k → j = k.
Hypothesis t_on : ∀ X (e : E X), on' X (t X e) = prod_map g id <$> on X e.
Hypothesis t_ok : ∀ X (e : E X), ok X e → ok' X (t X e).

Lemma settles_translate k c {A} (p : prog E A) S :
  settles on k c p S → settles on' (g k) c (translate t p) S.
Proof.
  induction p as [a|X e f IH]; simpl; [done|]. rewrite t_on. destruct (on X e) as [[j e']|]; simpl; [|auto].
  destruct (decide (j = k)) as [->|Hne]; [|rewrite decide_False by (intros ?; auto); auto].
  rewrite decide_True by done. by apply settling_mono.
Qed.

Lemma tidy_translate {A} (p : prog E A) :
  tidy on ok p square → tidy on' ok' (translate t p) square.
Proof.
  induction p as [a|X e f IH]; simpl; [done|]. intros (Hk & Ho & Hp). split_and!; [|auto|auto].
  rewrite t_on. destruct (on X e) as [[j e']|]; simpl; [|done]. eapply keeping_mono; [|exact Hk].
  intros c x Hs. by apply settles_translate.
Qed.
End Translate.

(** ** The operations of a manager *)

(** The calls of a manager are on itself. *)
Definition itself (X : Type) (e : mgrE X) : option (unit * mgrE X) := Some (tt, e).
Definition no_more (X : Type) (e : mgrE X) : Prop := True.

Notation pays c p S := (settles itself tt c p S).
Notation neat p S := (tidy itself no_more p S).

Section Manager.
Context `{UnicodeTables}.
Variable cfg : Config.

Lemma neat_log {A} e (k : unit → prog mgrE A) S : neat (k tt) S → neat (logEvent e ≫= k) S.
Proof. intros Hk. split; [done|]. split; [done|]. by intros []. Qed.
Lemma neat_read {A B} (f : Manager → B) (k : B → prog mgrE A) S :
  (∀ b, neat (k b) S) → neat (read f ≫= k) S.
Proof. intros Hk. split; [intros m c Hm E; cbn in E; congruence|]. by split. Qed.
(** Any call but dialling and the critical sections. *)
Definition calm {X} (e : mgrE X) : Prop := match e with Atomic _ | DialUnix _ => False | _ => True end.
Lemma neat_calm {A X} (e : mgrE X) (k : X → prog mgrE A) S :
  calm e → (∀ x, neat (k x) S) → neat (trigger e ≫= k) S.
Proof. intros He Hk. split; [by destruct e|]. by split. Qed.
Lemma neat_sys {A} (p : prog sysE A) S : neat (sys p) S.
Proof. unfold sys. induction p as [a|X e k IH]; simpl; [done|]. by split_and!. Qed.
Lemma neat_close c S : neat (client_close c) S.
Proof. by destruct c. Qed.
Lemma pays_close c S : pays c (client_close (Some c)) S.
Proof. by left. Qed.

Lemma neat_poison c g me r ca : neat (poisonClient cfg c g me r ca) square.
Proof.
  destruct c as [c|]; [|done]. apply neat_read. intros st. split; [|split; [done|]].
  - intros m c' Hm Hd. assert (c' = c) as ->.
    { unfold detach_client in Hd. case_bool_decide as E; cbn in Hd; congruence. } apply settles_then. intros u. apply settles_first, pays_close.
  - intros u. apply neat_log. by apply tidy_seq; [apply neat_close|].
Qed.

Lemma neat_call {X} c g ep (args : request X) : neat (call cfg c g ep args) square.
Proof.
  unfold call. apply neat_read. intros st. apply neat_log. split; [done|]. split; [done|].
  intros [reply [[e|]|]].
  - apply tidy_seq; [destruct (isRPCPoisonError _); [apply neat_poison|done]|]. intros u. by apply neat_log.
  - apply neat_read. intros [[[] ?] ?]; by apply neat_log.
  - apply tidy_seq; [apply neat_poison|]. intros u. by apply neat_log.
Qed.

Lemma neat_cleanup g : neat (cleanupRuntimeArtifacts cfg g) square.
Proof.
  unfold cleanupRuntimeArtifacts. apply tidy_seq.
  - destruct (g =? 0); [done|]. by apply neat_read.
  - intros [].
    + by apply neat_read.
    + apply tidy_seq; [by apply tidy_fold_range|]. intros [rm fl]. by destruct (Nat.ltb _ _).
Qed.

(** Dialling: the connection is for the rest to settle. *)
Lemma neat_dial_loop fuel deadline : neat (dial_loop cfg fuel deadline) (λ _ c d, d = Dialed c).
Proof.
  revert deadline. induction fuel as [|fuel IH]; intros deadline; [done|]. simpl. split_and!; [done..|].
  intros now. destruct (now <? deadline); [|done]. simpl. split_and!; [done..|].
  intros [c|e]; [done|]. simpl. by split_and!.
Qed.

Lemma neat_dial g : neat (dial cfg g) (λ _ c d, d = Ok c).
Proof.
  unfold dial. apply neat_log. split; [done|]. split; [done|]. intros now. apply tidy_bind.
  - eapply tidy_mono; [|apply neat_dial_loop]. intros [] c d ->. apply settles_then. by intros [].
  - intros [c| |]; by apply neat_log.
Qed.

Lemma neat_heartbeat : neat (Heartbeat cfg) square.
Proof.
  unfold Heartbeat. apply neat_read. intros v. destruct (view_closed v); [done|].
  destruct (view_client v) as [c|]; [|done]. apply tidy_seq; [apply neat_call|].
  intros [out [e|]]; [by apply neat_log|]. split; [|split; [done|]].
  - intros m c' Hm E. unfold heartbeat_commit in E. destruct (_ || _) in E; cbn in E; congruence.
  - intros [was|]; [|done]. apply tidy_seq; [|done]. unfold heartbeat_report.
    by destruct (bool_decide _); [destruct (negb was)|].
Qed.

Lemma neat_routed {X} (args : request X) : neat (routed cfg args) square.
Proof.
  unfold routed. apply neat_read. intros v. destruct (view_closed v); [done|].
  destruct (view_client v) as [c|]; [|done]. by apply tidy_seq; [apply neat_call|].
Qed.

(** *** Stopping *)

Lemma neat_atomic {A B} (f : Manager → B * Manager) (k : B → prog mgrE A) S :
  (∀ m, client (f m).2 = client m ∨ client (f m).2 ≠ None) → (∀ b, neat (k b) S) → neat (atomic f ≫= k) S.
Proof. intros Hf Hk. split; [|by split]. intros m c Hm E. destruct (Hf m); congruence. Qed.

Lemma neat_shutdown i c : neat (request_shutdown cfg i c) square.
Proof.
  apply neat_log. apply tidy_seq; [apply neat_call|]. intros [x [e|]]; apply neat_log;
    (apply tidy_seq; [apply neat_close|done]).
Qed.

Lemma pays_shutdown i c : pays c (request_shutdown cfg i c) (λ _, False).
Proof.
  apply settles_then. intros u. apply settles_then. intros out. apply settles_then. intros u'.
  apply settles_first, pays_close.
Qed.

Lemma neat_finished i reason : neat (stop_finished cfg i reason) square.
Proof. apply neat_log. by apply tidy_seq; [apply neat_cleanup|]. Qed.

Lemma neat_process i reason p : neat (stop_process cfg i reason p) square.
Proof.
  apply neat_calm; [done|]. intros [r|].
  - destruct (real_error r); [done|apply neat_finished].
  - apply neat_calm; [done|]. intros k. destruct (real_error k); [done|].
    apply neat_calm; [done|]. intros w. destruct (real_error w); [done|].
    apply neat_log. by apply tidy_seq; [apply neat_cleanup|].
Qed.

Lemma neat_stop b reason : neat (stopCurrent cfg b reason) square.
Proof.
  split; [|split; [done|]].
  - intros m c Hm E. unfold stop_begin in *. destruct (closed m); cbn [fst snd] in *; [congruence|].
    apply settles_then. intros u. apply settles_first. cbn [stop_client]. rewrite Hm. apply pays_shutdown.
  - intros [i|e]; [|done]. apply neat_log. apply tidy_seq.
    + destruct (stop_client i); [apply neat_shutdown|done].
    + intros u. destruct (stop_cmd i); [apply neat_process|apply neat_finished].
Qed.

(** *** Starting *)

Lemma neat_rollback {A} g (k : unit → prog mgrE A) S : neat (k tt) S → neat (rollbackGeneration cfg g ≫= k) S.
Proof.
  intros Hk. apply neat_atomic; [|by intros []]. intros m. left. unfold roll_back. by destruct (_ =? _).
Qed.

Lemma neat_failed_start p c g reason e : neat (cleanupFailedStart cfg p c g reason e) square.
Proof.
  apply tidy_seq; [apply neat_close|]. intros u. apply neat_calm; [done|]. intros k. split_and!; [done..|].
  intros w. apply neat_rollback, neat_log, neat_cleanup.
Qed.

Lemma neat_failed p c g co na msg reason e : neat (start_failed cfg p c g co na msg reason e) square.
Proof. apply neat_log. by apply tidy_seq; [apply neat_failed_start|]. Qed.

Lemma pays_failed p c g co na msg reason e : pays c (start_failed cfg p c g co na msg reason e) (λ _, False).
Proof. apply settles_then. intros u. apply settles_first, settles_first, pays_close. Qed.

Lemma neat_aborted co g msg e : neat (start_aborted cfg co g msg e) square.
Proof. by apply neat_rollback, neat_log. Qed.

Lemma neat_loaded p c g caps : neat (start_loaded cfg p c g caps) square.
Proof.
  unfold start_loaded. do 3 (destruct (_ : bool); [apply neat_failed|]).
  apply neat_atomic; [by right|]. intros u. by do 2 apply neat_log.
Qed.

Lemma pays_loaded p c g caps : pays c (start_loaded cfg p c g caps) (λ _, False).
Proof. unfold start_loaded. do 3 (destruct (_ : bool); [apply pays_failed|]). by left. Qed.

Lemma neat_capabilities p c g : neat (start_capabilities cfg p c g) square.
Proof.
  apply neat_log. apply tidy_seq; [apply neat_call|].
  intros [caps [e|]]; [apply neat_failed|apply neat_loaded].
Qed.

Lemma pays_capabilities p c g : pays c (start_capabilities cfg p c g) (λ _, False).
Proof.
  apply settles_then. intros u. apply settles_then. intros [caps [e|]]; [apply pays_failed|apply pays_loaded].
Qed.

Lemma neat_authenticate p c g token : neat (start_authenticate cfg p c g token) square.
Proof.
  apply neat_log. apply tidy_seq; [apply neat_call|]. intros [auth [e|]]; [apply neat_failed|].
  cbn [fst snd]. do 2 (destruct (negb _); [apply neat_failed|]). apply neat_log.
  apply neat_calm; [done|]. intros r. apply neat_capabilities.
Qed.

Lemma pays_authenticate p c g token : pays c (start_authenticate cfg p c g token) (λ _, False).
Proof.
  apply settles_then. intros u. apply settles_then. intros [auth [e|]]; [apply pays_failed|].
  cbn [fst snd]. do 2 (destruct (negb _); [apply pays_failed|]). apply settles_then. intros u'.
  apply settles_then. intros r. apply pays_capabilities.
Qed.

Lemma neat_peercred c pid g : neat (verifyPeerCred cfg c pid g) square.
Proof.
  destruct c as [c|]; [|done]. apply tidy_seq; [apply neat_sys|]. intros [cred|e]; [|done].
  by destruct (negb _).
Qed.

Lemma neat_connect p g token : neat (start_connect cfg p g token) square.
Proof.
  apply tidy_bind.
  - eapply tidy_mono; [|apply neat_dial]. intros [] c d ->. apply settles_then.
    intros [e|]; [apply pays_failed|apply pays_authenticate].
  - intros [c|e]; [|by apply tidy_seq; [apply neat_failed_start|]].
    apply tidy_seq; [apply neat_peercred|]. intros [e|]; [apply neat_failed|apply neat_authenticate].
Qed.

Lemma neat_start : neat (startLocked cfg) square.
Proof.
  apply neat_atomic.
  { intros m. left. unfold start_begin. destruct (closed m); [done|]. destruct (_ || _) eqn:E; [done|].
    apply orb_false_iff in E as [_ E]. apply bool_decide_eq_false_1 in E. cbn. destruct (client m); [by destruct E|done]. }
  intros [g|e]; [|done]. apply neat_calm; [done|]. intros r. apply neat_calm; [done|]. intros r'.
  apply neat_log. apply neat_calm; [done|]. intros rnd. destruct (NewToken rnd) as [token|e]; [|apply neat_aborted].
  apply neat_calm; [done|]. intros [e|]; [apply neat_aborted|].
  do 2 (apply neat_calm; [done|]; intros ?). apply neat_calm; [done|]. intros [p|e]; [apply neat_connect|apply neat_aborted].
Qed.

(** *** Operations *)

Lemma neat_lifecycle {A} (p : prog mgrE A) : neat p square → neat (with_lifecycle p) square.
Proof. intros Hp. apply neat_calm; [done|]. intros u. apply tidy_seq; [done|]. intros a. by split_and!. Qed.

Lemma neat_Start : neat (Start cfg) square.
Proof. apply neat_lifecycle, neat_start. Qed.
Lemma neat_Kill : neat (Kill cfg) square.
Proof. apply neat_lifecycle, neat_stop. Qed.

Lemma neat_Restart : neat (Restart cfg) square.
Proof.
  apply neat_lifecycle, neat_read. intros v. destruct (view_closed v); [done|]. apply neat_log.
  apply tidy_seq; [apply neat_stop|]. intros [e|]; [by apply neat_log|].
  apply tidy_seq; [apply neat_start|]. intros [e|]; [by apply neat_log|].
  apply neat_read. intros st. by apply neat_log.
Qed.

Lemma neat_Close : neat (Manager_Close cfg) square.
Proof.
  apply neat_lifecycle, neat_read. intros ran. apply tidy_seq; [|intros u; split; [intros m c Hm E; cbn in E; congruence|done]].
  destruct ran; [done|]. apply tidy_seq; [apply neat_stop|]. intros e.
  apply neat_atomic; [by left|]. intros u. apply neat_atomic.
  { intros m. left. unfold close_finish. by destruct (negb _). }
  intros u'. apply tidy_seq; [apply neat_cleanup|]. intros u2. apply neat_calm; [done|]. intros l.
  apply neat_atomic; [intros m; left; cbn; by case_bool_decide|]. intros u3.
  split; [intros m c Hm E; cbn in E; congruence|by split_and!].
Qed.

Lemma neat_Monitor ticks : neat (MonitorLoop cfg ticks) square.
Proof.
  induction ticks as [|ticks IH]; [done|]. apply tidy_seq; [|by intros []].
  apply tidy_seq; [apply neat_heartbeat|]. intros [out [e|]]; [|done]. apply neat_read. intros [|]; [done|].
  apply neat_log. apply tidy_seq; [apply neat_Restart|]. intros r. by apply tidy_seq; [destruct r|].
Qed.

Lemma neat_New : neat (Manager_New cfg) square.
Proof.
  unfold Manager_New. destruct (_ || _); [done|]. apply tidy_seq; [apply neat_sys|].
  intros [e|]; [done|]. apply tidy_seq; [apply neat_sys|]. intros [e|]; [done|]. split_and!; [done..|].
  by intros [e|].
Qed.
End Manager.
