(* ===== verification/Host.v ===== *)
(** * The multi-plugin host (src/internal/kernel/host.go)

    A host owns one manager per plugin.  Its programs make the managers' calls,
    each tagged with the plugin whose manager makes it ([At id e]).  The maps
    of a host never change after NewHost, so its read lock is not modelled. *)

From stdpp Require Import functions.
From S2P Require Import Prelude Prog GoText GoPath PluginID Auth Runtime Bundle EventLog PluginApi Manager.

(** ** Data *)

Record PluginConfig : Type := mkPluginConfig {
  pc_PluginID : string;
  pc_PluginPath : string;
  pc_ProviderBundleMetadata : option ProviderBundleMetadata;
  pc_ProviderBundleMetadataRefresh : option ProviderBundleMetadataRefreshConfig;
}.

Record HostConfig : Type := mkHostConfig {
  hc_RuntimeDir : string;
  hc_EventLogPath : string;
  hc_DialTimeout : Z;
  hc_CallTimeout : Z;
  hc_HeartbeatEvery : Z;
  hc_Plugins : list PluginConfig;
  hc_DisableProviderBundleAdminPathRedaction : bool;
}.

(** A manager is known by its configuration; its state is the world of its id. *)
Record Host : Type := mkHost {
  managers : gmap string Config;
  plugins : list string;
}.

Record Route : Type := mkRoute {
  rt_PluginID : string;
  rt_Capabilities : list string;
  rt_Healthy : bool;
  rt_GenerationID : Z;
  rt_Mode : string;
}.

Record HostState : Type := mkHostState {
  hs_Plugins : list State;
  hs_CapabilityMap : gmap string (list string);
  hs_Routes : list Route;
}.

Definition RoutedCall : Type := string.
Definition RoutedCallHeartbeat : RoutedCall := "heartbeat".
Definition RoutedCallEcho : RoutedCall := "echo".
Definition RoutedCallRestart : RoutedCall := "restart".

(** The field Body of a RoutedResponse, of type any. *)
Inductive RoutedBody : Type :=
| BHeartbeat (out : HeartbeatResponse)
| BEcho (Message : string)
| BState (st : State).

Record RoutedResponse : Type := mkRoutedResponse {
  rr_Route : Route; rr_Call : RoutedCall; rr_Body : RoutedBody }.

Record RoutedRequest : Type := mkRoutedRequest {
  rq_PluginID : string; rq_Call : RoutedCall; rq_Arg : Value }.

(** ** Calls *)
Inductive hostE : Type → Type :=
| At {X : Type} (id : string) (e : mgrE X) : hostE X.

Definition at_manager {A} (id : string) (p : prog mgrE A) : prog hostE A :=
  translate (λ X, @At X id) p.

(** ** Paths *)
Definition pluginRuntimeDir (root pluginID : string) : string := PathJoin [root; pluginID].
Definition pluginEventLogPath (root pluginID : string) : string :=
  PathJoin [root; pluginID; "events.jsonl"].

Section Host.
Context `{UnicodeTables}.

(** ** Construction *)

Definition manager_config (cfg : HostConfig) (plugin : PluginConfig) : Config :=
  {| RuntimeDir := pluginRuntimeDir (hc_RuntimeDir cfg) (pc_PluginID plugin);
     PluginPath := pc_PluginPath plugin;
     PluginID := pc_PluginID plugin;
     DialTimeout := hc_DialTimeout cfg;
     CallTimeout := hc_CallTimeout cfg;
     HeartbeatEvery := hc_HeartbeatEvery cfg;
     EventLogPath := pluginEventLogPath (hc_RuntimeDir cfg) (pc_PluginID plugin);
     cfg_ProviderBundleMetadata := pc_ProviderBundleMetadata plugin;
     cfg_ProviderBundleMetadataRefresh :=
       cloneProviderBundleMetadataRefresh (pc_ProviderBundleMetadataRefresh plugin);
     DisableProviderBundleAdminPathRedaction := hc_DisableProviderBundleAdminPathRedaction cfg |}.

(** The checks made on a plugin before its manager is constructed. *)
Definition check_plugin (seen : gset string) (plugin : PluginConfig) : option error :=
  ValidatePluginID (pc_PluginID plugin)
  ?> (fail_if bool_decide (pc_PluginPath plugin = "")
        with_error errors_New "plugin path is required")
  ?> (fail_if bool_decide (pc_PluginID plugin ∈ seen)
        with_error errors_New ("duplicate plugin id: " +:+ pc_PluginID plugin)).

Definition close_existing (ms : gmap string Config) : prog hostE unit :=
  for_range (map_to_list ms) (λ '(id, mcfg), _ ← at_manager id (Manager_Close mcfg); Ret tt).

Fixpoint new_managers (cfg : HostConfig) (ps : list PluginConfig) (seen : gset string) (h : Host)
  : prog hostE (result Host) :=
  match ps with
  | [] => Ret (Ok h)
  | plugin :: rest =>
      let id := pc_PluginID plugin in
      match check_plugin seen plugin with
      | Some e => Ret (Err e)
      | None =>
          m ← at_manager id (Manager_New (manager_config cfg plugin));
          match m with
          | Err e =>
              close_existing (managers h) ;;
              Ret (Err (errors_Wrap ("new manager for " +:+ id) e))
          | Ok mcfg =>
              new_managers cfg rest ({[id]} ∪ seen)
                (mkHost (<[id := mcfg]> (managers h)) (plugins h ++ [id]))
          end
      end
  end.

Definition NewHost (cfg : HostConfig) : prog hostE (result Host) :=
  if bool_decide (hc_RuntimeDir cfg = "") then Ret (Err (errors_New "runtime dir is required"))
  else if bool_decide (hc_Plugins cfg = []) then
    Ret (Err (errors_New "at least one plugin is required"))
  else
    h ← new_managers cfg (hc_Plugins cfg) ∅ (mkHost ∅ []);
    match h with
    | Err e => Ret (Err e)
    | Ok h => Ret (Ok {| h with plugins := sort_Strings (plugins h) |})
    end.

(** ** Operations.  [h.managers[id]] of an id in [h.plugins] is never nil. *)
Section Ops.
Variable h : Host.

Definition unknown_plugin (pluginID : string) : error :=
  errors_New ("unknown plugin id: " +:+ pluginID).

Definition Host_Manager (pluginID : string) : result Config :=
  match managers h !! pluginID with
  | None => Err (unknown_plugin pluginID)
  | Some m => Ok m
  end.

(** A method of [h.managers[id]]. *)
Definition with_manager {A} (id : string) (dflt : A) (f : Config → prog mgrE A) : prog hostE A :=
  match managers h !! id with
  | Some m => at_manager id (f m)
  | None => Ret dflt
  end.

Definition Host_Close : prog hostE (option error) :=
  fold_range (plugins h) None (λ firstErr id,
    e ← with_manager id None Manager_Close;
    Ret (match firstErr with None => e | Some _ => firstErr end)).

(** The loop of StartAll, with the ids already started. *)
Fixpoint start_plugins (ids started : list string) : prog hostE (option error) :=
  match ids with
  | [] => Ret None
  | id :: rest =>
      e ← with_manager id None Start;
      match e with
      | Some e =>
          for_range started (λ startedID, _ ← with_manager startedID None Kill; Ret tt) ;;
          Ret (Some (errors_Wrap ("start plugin " +:+ id) e))
      | None => start_plugins rest (started ++ [id])
      end
  end.

Definition StartAll : prog hostE (option error) := start_plugins (plugins h) [].

Definition Host_Plugin (pluginID : string) : prog hostE (result State) :=
  match Host_Manager pluginID with
  | Err e => Ret (Err e)
  | Ok m => st ← at_manager pluginID (Manager_State m); Ret (Ok st)
  end.

Definition route_of (st : State) : Route :=
  mkRoute (st_PluginID st) (st_Capabilities st) (st_Healthy st) (st_GenerationID st)
    "direct-plugin-id".

(** The capability map: each capability with the ids that list it, as often
    and in the order they do. *)
Definition add_capability (id : string) (m : gmap string (list string)) (cap : string)
  : gmap string (list string) :=
  <[cap := default [] (m !! cap) ++ [id]]> m.

Definition add_plugin_state (out : HostState) (id : string) (st : State) : HostState :=
  mkHostState (hs_Plugins out ++ [st])
    (foldl (add_capability id) (hs_CapabilityMap out) (st_Capabilities st))
    (hs_Routes out ++ [route_of st]).

Definition Host_State : prog hostE HostState :=
  out ← fold_range (plugins h) (mkHostState [] ∅ []) (λ out id,
    st ← with_manager id state0 Manager_State;
    Ret (add_plugin_state out id st));
  Ret {| out with hs_CapabilityMap := sort_Strings <$> hs_CapabilityMap out |}.

Definition CapabilityMap : prog hostE (gmap string (list string)) :=
  out ← Host_State; Ret (hs_CapabilityMap out).
Definition Routes : prog hostE (list Route) := out ← Host_State; Ret (hs_Routes out).
Definition States : prog hostE (list State) := out ← Host_State; Ret (hs_Plugins out).

Definition CoreSnapshot : prog hostE (list CoreState) :=
  fold_range (plugins h) [] (λ out id,
    st ← with_manager id (mkCoreState "" 0 false None) Manager_CoreState;
    Ret (out ++ [st])).

Definition RouteTarget (pluginID : string) : prog hostE (result (Route * Config)) :=
  match Host_Manager pluginID with
  | Err e => Ret (Err e)
  | Ok m => st ← at_manager pluginID (Manager_State m); Ret (Ok (route_of st, m))
  end.

Definition Host_Echo (pluginID message : string) : prog hostE (result string) :=
  t ← RouteTarget pluginID;
  match t with
  | Err e => Ret (Err e)
  | Ok (_, m) => at_manager pluginID (Manager_Echo m message)
  end.

Definition Host_Heartbeat (pluginID : string) : prog hostE (HeartbeatResponse * option error) :=
  t ← RouteTarget pluginID;
  match t with
  | Err e => Ret (heartbeat0, Some e)
  | Ok (_, m) => at_manager pluginID (Heartbeat m)
  end.

(** [message, _ := arg.(string)]. *)
Definition arg_string (v : Value) : string := match v with VString s => s | _ => "" end.

Definition CallRequest (req : RoutedRequest) : prog hostE (result RoutedResponse) :=
  t ← RouteTarget (rq_PluginID req);
  match t with
  | Err e => Ret (Err e)
  | Ok (route, m) =>
      let respond body := Ret (Ok (mkRoutedResponse route (rq_Call req) body)) in
      if decide (rq_Call req = RoutedCallHeartbeat) then
        r ← at_manager (rq_PluginID req) (Heartbeat m);
        match r.2 with Some e => Ret (Err e) | None => respond (BHeartbeat r.1) end
      else if decide (rq_Call req = RoutedCallEcho) then
        r ← at_manager (rq_PluginID req) (Manager_Echo m (arg_string (rq_Arg req)));
        match r with Err e => Ret (Err e) | Ok out => respond (BEcho out) end
      else if decide (rq_Call req = RoutedCallRestart) then
        r ← at_manager (rq_PluginID req) (Restart m);
        match r with
        | Some e => Ret (Err e)
        | None => st ← at_manager (rq_PluginID req) (Manager_State m); respond (BState st)
        end
      else Ret (Err (errors_New ("unsupported routed call: " +:+ rq_Call req)))
  end.

Definition Host_Call (pluginID : string) (c : RoutedCall) (arg : Value)
  : prog hostE (result RoutedResponse) := CallRequest (mkRoutedRequest pluginID c arg).

Definition RestartPlugin (pluginID : string) : prog hostE (result State) :=
  out ← Host_Call pluginID RoutedCallRestart VNil;
  match out with
  | Err e => Ret (Err e)
  | Ok r =>
      match rr_Body r with
      | BState st => Ret (Ok st)
      | _ => Ret (Err (errors_New "restart routed response type mismatch"))
      end
  end.

(** One goroutine per plugin. *)
Definition Host_MonitorLoop (ticks : nat) : list (prog hostE unit) :=
  (λ id, with_manager id tt (λ m, MonitorLoop m ticks)) <$> plugins h.
End Ops.
End Host.
