(* ===== verification/HostFacts.v ===== *)
(** * The host's contract

    The managers of a host run in worlds of their own, one per plugin id; a
    call [At id e] acts on the world of [id] only.  The manager's theorems are
    lifted plugin by plugin. *)

From stdpp Require Import functions.
From S2P Require Import Prelude Prog GoText GoPath PluginID Auth Runtime Bundle EventLog PluginApi Manager ManagerWorld ManagerFacts ManagerProps Host.

Notation hosts_world := (string → world).

Definition host_step (X : Type) (e : hostE X) : hosts_world → X → hosts_world → Prop :=
  match e in hostE X return hosts_world → X → hosts_world → Prop with
  | At id e => λ hw x hw', ∃ w', mgr_step _ e (hw id) x w' ∧ hw' = <[id := w']> hw
  end.

(** Everything but the world of [id] is untouched. *)
Definition only (id : string) (hw hw' : hosts_world) : Prop := ∀ j, j ≠ id → hw' j = hw j.

Section Facts.
Context `{UnicodeTables}.
Implicit Types hw : hosts_world.

Notation wp := (wp host_step).

(** A manager's specification, in the host. *)
Lemma wp_at {A} id (p : prog mgrE A) Q hw :
  Prog.wp mgr_step p Q (hw id) →
  wp (at_manager id p) (λ a hw', Q a (hw' id) ∧ only id hw hw') hw.
Proof.
  intros Hp. apply wp_translate.
  assert (∀ hw0 hw, Prog.wp mgr_step p Q (hw id) → only id hw0 hw →
    Prog.wp (λ X e, host_step X (At id e)) p (λ a hw', Q a (hw' id) ∧ only id hw0 hw') hw) as Hall.
  { clear. intros hw0. induction p as [a|X e k IH]; intros hw; simpl; [done|].
    intros Hp Ho x hw' (w' & Hs & ->). apply IH; [rewrite fn_lookup_insert; by apply Hp|].
    intros j Hj. rewrite fn_lookup_insert_ne by done. by apply Ho. }
  by apply Hall.
Qed.

Lemma wp_at_seq {A B} id (p : prog mgrE A) (k : A → prog hostE B) P Q hw :
  Prog.wp mgr_step p P (hw id) →
  (∀ a hw', P a (hw' id) → only id hw hw' → wp (k a) Q hw') →
  wp (at_manager id p ≫= k) Q hw.
Proof.
  intros Hp Hk. apply wp_bind. eapply wp_mono; [by apply wp_at|]. intros a hw' [? ?]. by apply Hk.
Qed.

Lemma only_refl id hw : only id hw hw.
Proof. done. Qed.

(** ** Runtime isolation *)

Definition artifacts (root id : string) : list string :=
  let dir := pluginRuntimeDir root id in
  [dir; SocketPath dir id; AuthPath dir id; pluginEventLogPath root id].

Lemma events_plain : plain "events.jsonl".
Proof. split; [done|]. by split_and!. Qed.

Lemma id_plain id : valid_id id = true → plain id.
Proof.
  intros Hid. replace id with (id +:+ "") by apply sapp_nil_r. by apply valid_id_plain.
Qed.

(** Every artifact is the runtime directory or one plain name inside it. *)
Lemma artifact_shape root id p :
  valid_id id = true → p ∈ artifacts root id →
  p = join_dir root +:+ id
  ∨ ∃ f, f ∈ [id +:+ ".sock"; id +:+ ".auth"; "events.jsonl"] ∧ p = join_dir root +:+ id +:+ "/" +:+ f.
Proof.
  intros Hid. pose proof (id_plain id Hid) as Hp.
  pose proof (valid_id_plain id ".sock" Hid sock_no_slash) as Hs.
  pose proof (valid_id_plain id ".auth" Hid auth_no_slash) as Ha.
  unfold artifacts, pluginRuntimeDir, pluginEventLogPath, SocketPath, AuthPath.
  rewrite !PathJoin_nested, PathJoin3_plain, PathJoin_plain by (done || apply events_plain).
  rewrite !elem_of_cons, elem_of_nil, !sapp_assoc.
  intros [->|[->|[->|[->|[]]]]]; [by left|right..].
  - exists (id +:+ ".sock"). split; [set_solver|done].
  - exists (id +:+ ".auth"). split; [set_solver|done].
  - exists "events.jsonl". split; [set_solver|done].
Qed.

Lemma plain_slash_inj a b s t :
  plain a → plain b → a +:+ "/" +:+ s = b +:+ "/" +:+ t → a = b.
Proof.
  intros [Ha _] [Hb _] E. apply (f_equal (λ x, Split x slash)) in E.
  change ("/" +:+ s) with (String slash s) in E. change ("/" +:+ t) with (String slash t) in E.
  rewrite !Split_app, (Split_plain a), (Split_plain b) in E by done. by injection E.
Qed.

Lemma plain_not_nested a b t : plain a → a ≠ b +:+ "/" +:+ t.
Proof.
  intros [Ha _] E. rewrite E, !string_forallb_app in Ha. simpl in Ha. by rewrite andb_false_r in Ha.
Qed.

(** C22. Plugins are isolated on disk.  Two different valid plugin ids never
    share a runtime directory, socket, token file or event log, whatever the
    host's root is, and none of one plugin's artifacts is another's directory;
    the four artifacts of one plugin are distinct too. *)
Theorem runtime_isolation root a b :
  valid_id a = true → valid_id b = true →
  NoDup (artifacts root a)
  ∧ (a ≠ b → ∀ p q, p ∈ artifacts root a → q ∈ artifacts root b → p ≠ q).
Proof.
  intros Ha Hb. split.
  - pose proof (id_plain a Ha) as Hp.
    pose proof (valid_id_plain a ".sock" Ha sock_no_slash) as Hs.
    pose proof (valid_id_plain a ".auth" Ha auth_no_slash) as Hau.
    unfold artifacts, pluginRuntimeDir, pluginEventLogPath, SocketPath, AuthPath.
    rewrite !PathJoin_nested, PathJoin3_plain, PathJoin_plain by (done || apply events_plain).
    rewrite !sapp_assoc.
    assert (∀ t, join_dir root +:+ a ≠ join_dir root +:+ a +:+ "/" +:+ t) as Hdir.
    { intros t E. apply (inj (String.append _)) in E. by apply plain_not_nested in E. }
    assert (∀ s t, s ≠ t → join_dir root +:+ a +:+ "/" +:+ s ≠ join_dir root +:+ a +:+ "/" +:+ t)
      as Hname.
    { intros s t Hst E. apply Hst. do 3 apply (inj (String.append _)) in E. done. }
    assert (a +:+ ".sock" ≠ "events.jsonl" ∧ a +:+ ".auth" ≠ "events.jsonl") as [H1 H2].
    { clear. split; intros E; do 13 (destruct a as [|? a]; [discriminate E|];
        simpl in E; injection E as _ E || discriminate E). }
    repeat constructor; rewrite ?elem_of_cons, ?elem_of_nil; intros Hin.
    + destruct Hin as [E|[E|[E|[]]]]; by apply Hdir in E.
    + destruct Hin as [E|[E|[]]]; apply Hname in E; try done.
      by intros E'; apply (inj (String.append a)) in E'.
    + destruct Hin as [E|[]]. by apply Hname in E.
    + by destruct Hin.
  - intros Hne p q Hp Hq ->. pose proof (id_plain a Ha) as Pa. pose proof (id_plain b Hb) as Pb.
    destruct (artifact_shape _ _ _ Ha Hp) as [E1|(f & _ & E1)];
      destruct (artifact_shape _ _ _ Hb Hq) as [E2|(g & _ & E2)];
      rewrite E1 in E2; apply (inj (String.append _)) in E2.
    + done.
    + by apply plain_not_nested in E2.
    + symmetry in E2. by apply plain_not_nested in E2.
    + by apply plain_slash_inj in E2.
Qed.

(** ** The host view *)

(** A host as NewHost builds it: every listed plugin has a manager. *)
Record host_ok (h : Host) : Prop := {
  ho_sorted : StronglySorted String.le (plugins h);
  ho_nodup : NoDup (plugins h);
  ho_managers : ∀ id, id ∈ plugins h ↔ is_Some (managers h !! id);
  ho_ids : ∀ id m, managers h !! id = Some m → PluginID m = id;
}.

Section View.
Variable h : Host.
Hypothesis h_ok : host_ok h.

Definition cfg_of (id : string) : Config := default (mkConfig "" "" id 0 0 0 "" None None false) (managers h !! id).

(** The state the host shows for [id] in [hw]. *)
Definition shown hw (id : string) : State := snapshot (cfg_of id) (w_m (hw id)).

Lemma with_manager_spec {A} id (dflt : A) f Q hw :
  id ∈ plugins h → wp (at_manager id (f (cfg_of id))) Q hw → wp (with_manager h id dflt f) Q hw.
Proof.
  intros Hid. apply h_ok in Hid as [m Hm]. unfold with_manager, cfg_of. by rewrite Hm.
Qed.

Lemma filter_absent (cap : string) (l : list string) : cap ∉ l → filter (.= cap) l = [].
Proof.
  induction l as [|x l IH]; [done|]. rewrite not_elem_of_cons. intros [Hne Hl].
  rewrite filter_cons_False by congruence. by apply IH.
Qed.

Lemma capability_fold id caps m cap :
  foldl (add_capability id) m caps !! cap
  = if decide (cap ∈ caps)
    then Some (default [] (m !! cap) ++ replicate (length (filter (.= cap) caps)) id)
    else m !! cap.
Proof.
  revert m. induction caps as [|c caps IH]; intros m; simpl; [done|].
  rewrite IH. unfold add_capability. destruct (decide (c = cap)) as [->|Hc].
  - rewrite lookup_insert_eq, filter_cons_True by done. simpl.
    rewrite (decide_True (P := cap ∈ cap :: caps)) by (by left). case_decide as Hin.
    + by rewrite <- app_assoc.
    + by rewrite filter_absent.
  - rewrite lookup_insert_ne, filter_cons_False by done.
    destruct (decide (cap ∈ caps)) as [Hin|Hin].
    + rewrite decide_True by (by right). done.
    + rewrite decide_False; [done|]. rewrite elem_of_cons. by intros [->|].
Qed.

(** What the capability map says of [cap] after the plugins [ids]. *)
Definition advertisers hw (cap : string) (ids : list string) : list string :=
  ids ≫= λ id, replicate (length (filter (.= cap) (st_Capabilities (shown hw id)))) id.

Record view_of hw (ids : list string) (out : HostState) : Prop := {
  vo_plugins : hs_Plugins out = shown hw <$> ids;
  vo_routes : hs_Routes out = route_of <$> hs_Plugins out;
  vo_map : ∀ cap, default [] (hs_CapabilityMap out !! cap) = advertisers hw cap ids;
  vo_dom : ∀ cap, is_Some (hs_CapabilityMap out !! cap)
    ↔ ∃ id, id ∈ ids ∧ cap ∈ st_Capabilities (shown hw id);
}.

Lemma view_of_add hw ids out id :
  view_of hw ids out → view_of hw (ids ++ [id]) (add_plugin_state out id (shown hw id)).
Proof.
  intros [Vp Vr Vm Vd]. constructor; simpl.
  - by rewrite Vp, fmap_app.
  - by rewrite Vr, fmap_app.
  - intros cap. rewrite capability_fold. unfold advertisers in *. rewrite bind_app, <- Vm. simpl.
    rewrite app_nil_r. case_decide as Hin; [done|].
    rewrite filter_absent by done. simpl. by rewrite app_nil_r.
  - intros cap. rewrite capability_fold. case_decide as Hin.
    + split; [|done]. intros _. exists id. split; [set_solver|done].
    + rewrite Vd. split; intros (id' & Hid & Hc); exists id'.
      * split; [set_solver|done].
      * apply elem_of_app in Hid as [Hid|Hid%list_elem_of_singleton]; [done|]. by subst.
Qed.

Lemma Manager_State_spec cfg w : Prog.wp mgr_step (Manager_State cfg) (λ st w', st = snapshot cfg (w_m w) ∧ w' = w) w.
Proof. by apply wp_read. Qed.

Lemma Host_State_loop hw :
  wp (fold_range (plugins h) (mkHostState [] ∅ []) (λ out id,
        st ← with_manager h id state0 Manager_State; Ret (add_plugin_state out id st)))
    (λ out hw', view_of hw (plugins h) out ∧ ∀ j, hw' j = hw j) hw.
Proof.
  eapply wp_mono; [apply (wp_fold_range _ (plugins h) _ _ (λ rest out hw',
    ∃ seen, plugins h = seen ++ rest ∧ view_of hw seen out ∧ ∀ j, hw' j = hw j))|].
  - exists []. split; [done|]. split; [|done]. constructor; try done.
    intros cap. simpl. rewrite lookup_empty. split; [by intros []%is_Some_None|].
    by intros (id & []%elem_of_nil & _).
  - intros id rest out hw1 (seen & Hsplit & Hv & Hsame). apply wp_bind, with_manager_spec.
    { rewrite Hsplit. set_solver. }
    eapply wp_mono; [apply wp_at, Manager_State_spec|]. intros st hw2 [[-> Hid] Hrest]. simpl.
    exists (seen ++ [id]). split; [by rewrite Hsplit, <- app_assoc|].
    replace (snapshot (cfg_of id) (w_m (hw1 id))) with (shown hw id) by (unfold shown; by rewrite Hsame).
    split; [by apply view_of_add|]. intros j. destruct (decide (j = id)) as [->|Hne].
    + by rewrite Hid.
    + by rewrite Hrest.
  - intros out hw' (seen & Hs & Hv & Hj). rewrite app_nil_r in Hs. by subst.
Qed.

(** C24. The host view is exact.  State reads every manager once, in plugin-id
    order, and changes none: it lists each plugin's snapshot and the route
    made from it, and the capability map has an entry for exactly the
    capabilities some plugin advertises, holding in sorted order exactly the
    ids of the plugins that advertise it (as often as they list it). *)
Theorem Host_State_exact hw :
  wp (Host_State h) (λ out hw',
    (∀ j, hw' j = hw j)
    ∧ hs_Plugins out = shown hw <$> plugins h
    ∧ hs_Routes out = route_of <$> hs_Plugins out
    ∧ ∀ cap, match hs_CapabilityMap out !! cap with
        | None => ∀ id, id ∈ plugins h → cap ∉ st_Capabilities (shown hw id)
        | Some ids => StronglySorted String.le ids ∧ ids ≡ₚ advertisers hw cap (plugins h)
            ∧ ∀ id, id ∈ ids ↔ id ∈ plugins h ∧ cap ∈ st_Capabilities (shown hw id)
        end) hw.
Proof.
  unfold Host_State. apply wp_bind. eapply wp_mono; [apply Host_State_loop|].
  intros out hw' [[Vp Vr Vm Vd] Hj]. simpl. split_and!; [done..|]. intros cap.
  rewrite lookup_fmap. specialize (Vm cap). specialize (Vd cap).
  destruct (hs_CapabilityMap out !! cap) as [ids|]; simpl in *.
  - split; [apply sort_Strings_sorted|]. rewrite Vm. split; [apply sort_Strings_perm|].
    intros id. rewrite (sort_Strings_perm _). unfold advertisers. rewrite list_elem_of_bind.
    split.
    + intros (id' & Hrep & Hid'). apply elem_of_replicate in Hrep as [-> Hlen]. split; [done|].
      destruct (filter _ _) as [|x l] eqn:E; [done|].
      assert (x ∈ filter (.= cap) (st_Capabilities (shown hw id'))) as Hx by (rewrite E; by left).
      apply list_elem_of_filter in Hx as [-> Hx]. done.
    + intros [Hid Hcap]. exists id. split; [|done]. apply elem_of_replicate. split; [done|].
      assert (cap ∈ filter (.= cap) (st_Capabilities (shown hw id))) as Hx
        by (by apply list_elem_of_filter).
      intros E. apply nil_length_inv in E. rewrite E in Hx. by apply elem_of_nil in Hx.
  - intros id Hid Hcap. destruct (proj2 Vd) as [? ?]; [by exists id|done].
Qed.

(** ** Starting and closing all plugins *)

(** An open manager: Close has not been called. *)
Definition open_manager (w : world) : Prop := closed (w_m w) = false ∧ closeOnce (w_m w) = false.

Definition up hw (id : string) : Prop :=
  Inv (cfg_of id) (hw id) ∧ open_manager (hw id) ∧ st_Healthy (state (w_m (hw id))) = true.
Definition down hw (id : string) : Prop :=
  Inv (cfg_of id) (hw id) ∧ open_manager (hw id) ∧ idle (hw id)
  ∧ st_Healthy (state (w_m (hw id))) = false.

Lemma Start_up_down cfg w :
  Inv cfg w → open_manager w → idle w →
  Prog.wp mgr_step (Start cfg) (λ r w', Inv cfg w' ∧ open_manager w' ∧ match r with
    | None => st_Healthy (state (w_m w')) = true
    | Some _ => idle w' ∧ st_Healthy (state (w_m w')) = false
    end) w.
Proof.
  intros Hi [Hop1 Hop2] Hidle. apply with_lifecycle_spec.
  eapply wp_mono; [by apply startLocked_spec; apply Hi|].
  intros [e|] w'; cbn beta iota.
  - intros [[Hb _]|Hr].
    { destruct Hidle as (E1 & E2 & E3). rewrite E1, E2, E3 in Hb. by destruct Hb as [?|[?|?]]. }
    pose proof (reverted_Inv _ _ _ Hi Hr) as Hi'.
    unfold idle, open_manager in *. rewrite (reverted_m _ _ _ Hr). simpl. tauto.
  - intros (p & c & token & env & cred & auth & caps & Hd).
    pose proof (done_Inv _ _ _ _ _ _ _ _ _ _ Hi Hd) as Hi'.
    unfold open_manager. rewrite (done_m _ _ _ _ _ _ _ _ _ _ Hd). simpl. by split_and!.
Qed.

Lemma Kill_down cfg w :
  Inv cfg w → open_manager w →
  Prog.wp mgr_step (Kill cfg) (λ _ w', Inv cfg w' ∧ open_manager w' ∧ idle w'
    ∧ st_Healthy (state (w_m w')) = false) w.
Proof.
  intros Hi [Hc Ho]. apply with_lifecycle_spec. eapply wp_mono; [apply stopCurrent_spec|].
  intros r w'. cbn beta. rewrite Hc. intros Hs.
  destruct (stop_Inv _ _ _ _ _ Hi Hc Hs) as (? & ? & ? & ? & _ & ?).
  pose proof (stopped_m _ _ _ _ _ Hs) as Sm. unfold open_manager.
  split_and!; try done. rewrite Sm. unfold stopped_manager, stop_begin.
  by destruct (closed (w_m w)).
Qed.

(** The worlds of plugins outside [ids] stay as they are. *)
Definition touches (ids : list string) hw hw' : Prop := ∀ j, j ∉ ids → hw' j = hw j.

Lemma only_touches id ids hw hw' : id ∈ ids → only id hw hw' → touches ids hw hw'.
Proof. intros Hin Ho j Hj. apply Ho. by intros ->. Qed.

Lemma touches_trans ids hw1 hw2 hw3 : touches ids hw1 hw2 → touches ids hw2 hw3 → touches ids hw1 hw3.
Proof. intros H12 H23 j Hj. by rewrite H23, H12. Qed.

Lemma kill_started_spec started hw :
  NoDup started → (∀ id, id ∈ started → id ∈ plugins h ∧ up hw id) →
  wp (for_range started (λ id, _ ← with_manager h id None Kill; Ret tt))
    (λ _ hw', touches started hw hw' ∧ ∀ id, id ∈ started → down hw' id) hw.
Proof.
  intros Hnd Hup. eapply wp_mono; [apply (wp_for_range _ started _ (λ rest hw',
    touches started hw hw' ∧ ∃ killed, started = killed ++ rest
      ∧ (∀ id, id ∈ killed → down hw' id) ∧ (∀ id, id ∈ rest → up hw' id)))|].
  - split; [done|]. exists []. split; [done|]. split; [by intros id ?%elem_of_nil|].
    intros id Hid. by apply Hup.
  - intros id rest hw1 (Ht & killed & Hs & Hk & Hr). apply wp_bind, with_manager_spec.
    { apply Hup. rewrite Hs. set_solver. }
    destruct (Hr id) as (Hi & Hc & _); [by left|].
    eapply wp_mono; [apply wp_at, Kill_down; done|]. intros r hw2 [Hd Ho]. simpl.
    rewrite Hs in Hnd. apply NoDup_app in Hnd as (_ & Hdis & Hnd). apply NoDup_cons in Hnd as [Hnin _].
    split.
    { eapply touches_trans; [exact Ht|]. apply (only_touches id); [rewrite Hs; set_solver|done]. }
    exists (killed ++ [id]). split; [by rewrite Hs, <- app_assoc|]. unfold up, down in *. split.
    + intros j [Hj|Hj%list_elem_of_singleton]%elem_of_app; [|by subst].
      rewrite Ho; [by apply Hk|]. intros ->. apply (Hdis id Hj). by left.
    + intros j Hj. rewrite Ho; [apply Hr; by right|]. by intros ->.
  - intros _ hw' (Ht & killed & Hs & Hk & _). rewrite app_nil_r in Hs. by subst.
Qed.

Lemma start_plugins_spec hw0 ids started hw :
  NoDup (started ++ ids) → plugins h = started ++ ids →
  touches (plugins h) hw0 hw →
  (∀ id, id ∈ started → up hw id) → (∀ id, id ∈ ids → down hw id) →
  wp (start_plugins h ids started) (λ r hw', touches (plugins h) hw0 hw' ∧ match r with
    | None => ∀ id, id ∈ plugins h → up hw' id
    | Some _ => ∀ id, id ∈ plugins h → down hw' id
    end) hw.
Proof.
  revert started hw. induction ids as [|id ids IH]; intros started hw Hnd Hpl Ht Hup Hdown.
  { simpl. split; [done|]. rewrite Hpl, app_nil_r. done. }
  cbn [start_plugins]. apply wp_bind, with_manager_spec; [rewrite Hpl; set_solver|].
  destruct (Hdown id) as (Hi & Hop & Hid & _); [by left|].
  eapply wp_mono; [apply wp_at, Start_up_down; done|]. intros r hw1 [(Hi1 & Hc1 & Hr) Ho].
  pose proof Hnd as Hnd'. apply NoDup_app in Hnd' as (Hnds & Hdis & Hnd'). apply NoDup_cons in Hnd' as [Hnin Hndi].
  assert (touches (plugins h) hw0 hw1) as Ht1.
  { eapply touches_trans; [exact Ht|]. apply (only_touches id); [rewrite Hpl; set_solver|done]. }
  assert (∀ j, j ∈ started → up hw1 j) as Hup1.
  { intros j Hj. unfold up. rewrite Ho; [by apply Hup|]. intros ->. apply (Hdis id Hj). by left. }
  assert (∀ j, j ∈ ids → down hw1 j) as Hdown1.
  { intros j Hj. unfold down. rewrite Ho; [apply Hdown; by right|]. by intros ->. }
  destruct r as [e|].
  - apply wp_bind. eapply wp_mono; [apply kill_started_spec; [done|]|].
    { intros j Hj. split; [rewrite Hpl; set_solver|by apply Hup1]. }
    intros [] hw2 [Ht2 Hd2]. simpl. split.
    { intros j Hj. rewrite Ht2; [by apply Ht1|]. rewrite Hpl in Hj. set_solver. }
    intros j Hj. rewrite Hpl in Hj. apply elem_of_app in Hj as [Hj|Hj]; [by apply Hd2|].
    assert (j ∉ started) as Hns by (intros Hs; by apply (Hdis j Hs)).
    unfold down. rewrite Ht2 by done. apply elem_of_cons in Hj as [->|Hj]; [|by apply Hdown1].
    by split_and!; [..|apply Hr|apply Hr].
  - apply IH; [by rewrite <- app_assoc|by rewrite Hpl, <- app_assoc|done| |done].
    intros j [Hj|Hj%list_elem_of_singleton]%elem_of_app; [by apply Hup1|]. subst. by split_and!.
Qed.

(** C21. Starting the host is all or nothing.  When StartAll returns nil every
    plugin is up and healthy; when it returns an error every plugin is down:
    the one that failed has been undone and those started before it killed. *)
Theorem StartAll_all_or_nothing hw :
  (∀ id, id ∈ plugins h → down hw id) →
  wp (StartAll h) (λ r hw', touches (plugins h) hw hw' ∧ match r with
    | None => ∀ id, id ∈ plugins h → up hw' id
    | Some _ => ∀ id, id ∈ plugins h → down hw' id
    end) hw.
Proof.
  intros Hd. apply start_plugins_spec; [apply h_ok|done|done|by intros id ?%elem_of_nil|done].
Qed.

(** What Close answered for each plugin. *)
Definition close_errors hw (ids : list string) : list (option error) :=
  (λ id, closeErr (w_m (hw id))) <$> ids.

Lemma close_errors_ext hw1 hw2 ids :
  (∀ j, j ∈ ids → hw2 j = hw1 j) → close_errors hw2 ids = close_errors hw1 ids.
Proof.
  intros Hl. apply list_fmap_ext. intros i j Hj. do 2 f_equal. apply Hl.
  by eapply list_elem_of_lookup_2.
Qed.

(** The first error of a list of results. *)
Definition first_failure (es : list (option error)) : option error := foldl first_error None es.

Lemma Close_closed cfg w :
  Inv cfg w → (closeOnce (w_m w) = true → closed (w_m w) = true) →
  Prog.wp mgr_step (Manager_Close cfg) (λ r w', r = closeErr (w_m w') ∧ Inv cfg w'
    ∧ closed (w_m w') = true ∧ client (w_m w') = None ∧ cmd (w_m w') = None) w.
Proof.
  intros Hi Ho. eapply wp_mono; [by apply Close_spec|]. intros r w'. cbn beta.
  destruct (closeOnce (w_m w)).
  - intros [-> ->]. specialize (Ho eq_refl). pose proof (inv_closed _ _ Hi Ho) as Hc.
    split_and!; try done. destruct (client (w_m w)) eqn:E; [|done].
    destruct (inv_client _ _ Hi) as [p Hp]; [by rewrite E|congruence].
  - intros [(E1 & _ & _) E2 (E3 & E4 & _) _ _ Hi']. by split_and!.
Qed.

Lemma Host_Close_spec hw :
  (∀ id, id ∈ plugins h → Inv (cfg_of id) (hw id)
     ∧ (closeOnce (w_m (hw id)) = true → closed (w_m (hw id)) = true)) →
  wp (Host_Close h) (λ r hw',
    r = first_failure (close_errors hw' (plugins h))
    ∧ (∀ id, id ∈ plugins h → closed (w_m (hw' id)) = true
        ∧ client (w_m (hw' id)) = None ∧ cmd (w_m (hw' id)) = None)
    ∧ touches (plugins h) hw hw') hw.
Proof.
  intros Hall. unfold Host_Close.
  eapply wp_mono; [apply (wp_fold_range _ (plugins h) _ _ (λ rest r hw', ∃ seen,
    plugins h = seen ++ rest ∧ r = first_failure (close_errors hw' seen)
    ∧ (∀ id, id ∈ seen → closed (w_m (hw' id)) = true
        ∧ client (w_m (hw' id)) = None ∧ cmd (w_m (hw' id)) = None)
    ∧ (∀ id, id ∈ rest → hw' id = hw id) ∧ touches (plugins h) hw hw'))|].
  - exists []. split; [done|]. split; [done|]. split; [by intros id ?%elem_of_nil|]. by split.
  - intros id rest r hw1 (seen & Hs & Hr & Hseen & Hrest & Ht).
    pose proof (ho_nodup _ h_ok) as Hnd. rewrite Hs in Hnd.
    apply NoDup_app in Hnd as (_ & Hdis & Hnd). apply NoDup_cons in Hnd as [Hnin _].
    apply wp_bind, with_manager_spec; [rewrite Hs; set_solver|].
    destruct (Hall id) as [Hi Ho]; [rewrite Hs; set_solver|].
    rewrite <- (Hrest id) in Hi, Ho by (by left).
    eapply wp_mono; [apply wp_at, Close_closed; done|].
    intros e hw2 [(-> & _ & C1 & C2 & C3) Honly]. simpl.
    assert (∀ j, j ∈ seen → hw2 j = hw1 j) as Hsame.
    { intros j Hj. apply Honly. intros ->. apply (Hdis id Hj). by left. }
    exists (seen ++ [id]). split; [by rewrite Hs, <- app_assoc|]. split_and!.
    + unfold first_failure in *. unfold close_errors at 1. rewrite fmap_app, foldl_app.
      change ((λ id, closeErr (w_m (hw2 id))) <$> seen) with (close_errors hw2 seen).
      rewrite (close_errors_ext hw1), <- Hr by done. by destruct r.
    + intros j [Hj|Hj%list_elem_of_singleton]%elem_of_app; [rewrite Hsame by done; by apply Hseen|].
      by subst.
    + intros j Hj. rewrite Honly; [apply Hrest; by right|]. by intros ->.
    + eapply touches_trans; [exact Ht|]. apply (only_touches id); [rewrite Hs; set_solver|done].
  - intros r hw' (seen & Hs & -> & Hseen & _ & Ht). rewrite app_nil_r in Hs. by subst.
Qed.
(** C25. Closing the host closes every plugin, whatever fails on the way, and
    answers the first error in plugin-id order. *)
Theorem Host_Close_all hw :
  (∀ id, id ∈ plugins h → Inv (cfg_of id) (hw id)
     ∧ (closeOnce (w_m (hw id)) = true → closed (w_m (hw id)) = true)) →
  wp (Host_Close h) (λ r hw',
    r = first_failure (close_errors hw' (plugins h))
    ∧ ∀ id, id ∈ plugins h → closed (w_m (hw' id)) = true
        ∧ client (w_m (hw' id)) = None ∧ cmd (w_m (hw' id)) = None) hw.
Proof.
  intros Hall. eapply wp_mono; [by apply Host_Close_spec|]. by intros r hw' (Hr & Hc & _).
Qed.
End View.
End Facts.
