(* ===== verification/HostProps.v ===== *)
(** * Building a host and routing through it

    NewHost keeps its promises about the managers it makes, and a routed call
    reaches exactly the manager it names.  Continues HostFacts. *)

From stdpp Require Import functions.
From S2P Require Import Prelude Prog GoText GoPath PluginID Auth Runtime Bundle EventLog PluginApi Manager ManagerWorld ManagerFacts ManagerProps Host HostFacts.

Section Facts.
Context `{UnicodeTables}.
Implicit Types hw : hosts_world.

Notation wp := (wp host_step).

(** ** Construction *)

(** Runtime checks that only look at files leave a manager's world alone. *)
Lemma Lstat_same {A} path (k : result Z → prog sysE A) Q w :
  (∀ r, Prog.wp mgr_step (sys (k r)) Q w) → Prog.wp mgr_step (sys (trigger (Lstat path) ≫= k)) Q w.
Proof. intros HQ r w' ->. apply HQ. Qed.

Lemma ValidateExecutable_same path w :
  Prog.wp mgr_step (sys (ValidateExecutable path)) (λ _ w', w' = w) w.
Proof.
  unfold ValidateExecutable. case_decide; [done|]. destruct (negb _); [done|].
  apply Lstat_same. by intros [|].
Qed.

Lemma EnsureDir_same root w : Prog.wp mgr_step (sys (EnsureDir root)) (λ _ w', w' = w) w.
Proof.
  unfold EnsureDir. case_decide; [done|]. apply Lstat_same.
  assert (∀ k, k = trigger (MkdirAll root dirMode) ≫= (λ mk, match mk with
      | Some e => Ret (Some (errors_Wrap "create runtime dir" e))
      | None => trigger (Chmod root dirMode) ≫= (λ ch, match ch with
          | Some e => Ret (Some (errors_Wrap "chmod runtime dir" e)) | None => Ret None end)
      end) → Prog.wp mgr_step (sys k) (λ _ w', w' = w) w) as Hcreate.
  { intros k ->. intros [e|] w1 ->; [done|]. by intros [e|] w2 ->. }
  intros [mode|e]; repeat match goal with |- context [if ?c then _ else _] => destruct c end;
    try done; by apply Hcreate.
Qed.

Lemma Manager_New_spec cfg w :
  Prog.wp mgr_step (Manager_New cfg) (λ r w', w' = w ∧ match r with
    | Ok c => c = fill_config cfg
    | Err _ => True
    end) w.
Proof.
  unfold Manager_New. destruct (_ || _); [done|].
  eapply wp_seq; [apply ValidateExecutable_same|]. intros [e|] w1 ->; [done|].
  eapply wp_seq; [apply EnsureDir_same|]. intros [e|] w2 ->; [done|].
  apply wp_trigger_seq. intros [e|] w3 ->; [done|]. by apply wp_log_seq.
Qed.

Definition ids_of (ps : list PluginConfig) : list string := pc_PluginID <$> ps.

Lemma ids_of_app ps qs : ids_of (ps ++ qs) = ids_of ps ++ ids_of qs.
Proof. apply fmap_app. Qed.

(** What is known of the host under construction after the plugins [ps]. *)
Record built (cfg : HostConfig) (ps : list PluginConfig) (h : Host) : Prop := {
  bu_plugins : plugins h = ids_of ps;
  bu_nodup : NoDup (ids_of ps);
  bu_managers : ∀ id m, managers h !! id = Some m ↔
    ∃ p, p ∈ ps ∧ pc_PluginID p = id ∧ m = fill_config (manager_config cfg p);
  bu_valid : ∀ p, p ∈ ps → valid_id (pc_PluginID p) = true ∧ pc_PluginPath p ≠ "";
}.

Lemma check_plugin_None seen p :
  check_plugin seen p = None ↔
  valid_id (pc_PluginID p) = true ∧ pc_PluginPath p ≠ "" ∧ pc_PluginID p ∉ seen.
Proof.
  unfold check_plugin. rewrite !first_error_None, !fail_if_None, ValidatePluginID_valid,
    !bool_decide_eq_false. done.
Qed.

Lemma built_add cfg ps h p :
  built cfg ps h → check_plugin (list_to_set (ids_of ps)) p = None →
  built cfg (ps ++ [p]) (mkHost (<[pc_PluginID p := fill_config (manager_config cfg p)]> (managers h))
                             (plugins h ++ [pc_PluginID p])).
Proof.
  intros [Bp Bn Bm Bv] (Hv & Hpath & Hnew)%check_plugin_None. rewrite elem_of_list_to_set in Hnew.
  constructor; simpl; rewrite ?ids_of_app; simpl.
  - by rewrite Bp.
  - apply NoDup_app. split; [done|]. split; [|apply NoDup_singleton].
    by intros id Hid ->%list_elem_of_singleton.
  - intros id m. rewrite lookup_insert_Some, Bm. split.
    + intros [[<- <-]|(Hne & q & Hq & Hid & ->)].
      * exists p. split_and!; [set_solver|done..].
      * exists q. split_and!; [set_solver|done..].
    + intros (q & Hq & <- & ->). apply elem_of_app in Hq as [Hq|Hq%list_elem_of_singleton].
      * right. split; [|by exists q]. intros E. apply Hnew. rewrite E. by apply (list_elem_of_fmap_2 pc_PluginID).
      * left. by subst.
  - intros q [Hq|Hq%list_elem_of_singleton]%elem_of_app; [by apply Bv|]. by subst.
Qed.

Lemma new_managers_spec cfg hw0 rest ps seen h hw :
  built cfg ps h → seen = list_to_set (ids_of ps) → (∀ j, hw j = hw0 j) →
  wp (new_managers cfg rest seen h) (λ r hw', match r with
    | Ok h' => built cfg (ps ++ rest) h' ∧ ∀ j, hw' j = hw0 j
    | Err _ => True
    end) hw.
Proof.
  revert ps seen h hw. induction rest as [|p rest IH]; intros ps seen h hw Hb Hseen Hw.
  { simpl. by rewrite app_nil_r. }
  cbn [new_managers]. destruct (check_plugin seen p) as [e|] eqn:Hck; [done|].
  eapply wp_at_seq; [apply Manager_New_spec|]. intros [m|e] hw1 [Hid Hm] Honly.
  - subst m. eapply wp_mono; [apply (IH (ps ++ [p]))|].
    + apply built_add; [done|]. by rewrite <- Hseen.
    + rewrite ids_of_app, list_to_set_app_L, Hseen. simpl. set_solver.
    + intros j. rewrite <- Hw. destruct (decide (j = pc_PluginID p)) as [->|Hne]; [done|].
      by apply Honly.
    + intros [h'|e] hw'; [|done]. by rewrite <- app_assoc.
  - apply wp_bind, wp_complete. done.
Qed.

(** Sorting its plugins makes it the host NewHost answers. *)
Lemma built_host_ok cfg ps h :
  built cfg ps h → host_ok {| h with plugins := sort_Strings (plugins h) |}.
Proof.
  intros [Bp Bn Bm Bv]. constructor; simpl.
  - apply sort_Strings_sorted.
  - by rewrite sort_Strings_perm, Bp.
  - intros id. rewrite sort_Strings_perm, Bp. unfold ids_of. rewrite list_elem_of_fmap. split.
    + intros (p & -> & Hp). eexists. apply Bm. by exists p.
    + intros [m Hm]. apply Bm in Hm as (p & Hp & <- & _). by exists p.
  - intros id m (p & _ & <- & ->)%Bm. unfold fill_config.
    by repeat match goal with |- context [if ?c then _ else _] => destruct c end.
Qed.

(** No process and no connection of its manager's. *)
Definition quiet (w : world) : Prop := client (w_m w) = None ∧ cmd (w_m w) = None.

Lemma close_existing_quiet ms hw :
  (∀ id, hw id = world0) → wp (close_existing ms) (λ _ hw', ∀ id, quiet (hw' id)) hw.
Proof.
  intros Hw. unfold close_existing.
  eapply wp_mono; [apply (wp_for_range _ _ _ (λ rest hw', NoDup rest.*1
    ∧ (∀ id, id ∈ rest.*1 → hw' id = world0) ∧ ∀ id, quiet (hw' id)))|].
  - split; [apply NoDup_fst_map_to_list|]. split; [done|]. intros id. by rewrite Hw.
  - intros [id mcfg] rest hw1 (Hnd & Hrest & Hq). simpl in Hnd. apply NoDup_cons in Hnd as [Hnin Hnd].
    assert (hw1 id = world0) as E by (apply Hrest; by left).
    apply wp_bind. eapply wp_mono; [apply wp_at, Close_closed; rewrite E; [apply Inv_world0|done]|].
    intros r hw2 [(_ & _ & _ & C1 & C2) Ho]. simpl. split; [done|]. split.
    + intros j Hj. rewrite Ho; [apply Hrest; by right|]. by intros ->.
    + intros j. destruct (decide (j = id)) as [->|Hne]; [done|]. rewrite Ho by done. apply Hq.
  - by intros u hw' (_ & _ & Hq).
Qed.

Lemma new_managers_quiet cfg rest seen h hw :
  (∀ id, hw id = world0) →
  wp (new_managers cfg rest seen h) (λ r hw', match r with
    | Ok _ => ∀ id, hw' id = world0
    | Err _ => ∀ id, quiet (hw' id)
    end) hw.
Proof.
  assert (∀ hw', (∀ id, hw' id = world0) → ∀ id, quiet (hw' id)) as Hq by (intros hw' E id; by rewrite E).
  revert seen h hw. induction rest as [|p rest IH]; intros seen h hw Hw; [done|].
  cbn [new_managers]. destruct (check_plugin seen p) as [e|]; [exact (Hq hw Hw)|].
  eapply wp_at_seq; [apply Manager_New_spec|]. intros m hw1 [Hid _] Honly.
  assert (∀ id, hw1 id = world0) as Hw1.
  { intros id. destruct (decide (id = pc_PluginID p)) as [->|Hne]; [by rewrite Hid|].
    by rewrite Honly. }
  destruct m as [m|e]; [by apply IH|].
  apply wp_bind. eapply wp_mono; [by apply close_existing_quiet|]. done.
Qed.

(** NewHost on managers never used: a host in order, or nothing left. *)
Lemma NewHost_quiet cfg hw :
  (∀ id, hw id = world0) →
  wp (NewHost cfg) (λ r hw', match r with
    | Ok h => host_ok h ∧ ∀ id, hw' id = world0
    | Err _ => ∀ id, quiet (hw' id)
    end) hw.
Proof.
  intros Hw. assert (∀ id, quiet (hw id)) as Hq by (intros id; by rewrite Hw).
  unfold NewHost. case_bool_decide; [done|]. case_bool_decide; [done|].
  apply wp_bind. eapply wp_mono; [apply wp_conj; [by apply new_managers_quiet|
    apply (new_managers_spec cfg hw _ []); try done]|].
  { constructor; simpl; [done|constructor| |by intros p ?%elem_of_nil].
    intros id m. rewrite lookup_empty. split; [done|]. by intros (p & ?%elem_of_nil & _). }
  intros [h|e] hw'; [|by intros [? _]]. intros [Hw' [Hb _]]. split; [|done].
  by eapply built_host_ok.
Qed.

(** C23. NewHost builds the host it is configured for, or none.  A host that
    is returned has exactly one manager per configured plugin: the ids are
    valid, pairwise different and listed in sorted order, every manager has
    the host's settings with a runtime directory and event log of its own
    under the host's root, and no manager has been started or otherwise
    touched.  In particular a configuration with an invalid or repeated id, an
    empty plugin path or no plugin is always refused. *)
Theorem NewHost_builds cfg hw :
  wp (NewHost cfg) (λ r hw', match r with
    | Ok h => hc_RuntimeDir cfg ≠ "" ∧ hc_Plugins cfg ≠ []
        ∧ (∀ p, p ∈ hc_Plugins cfg → valid_id (pc_PluginID p) = true ∧ pc_PluginPath p ≠ "")
        ∧ NoDup (ids_of (hc_Plugins cfg))
        ∧ plugins h ≡ₚ ids_of (hc_Plugins cfg) ∧ host_ok h
        ∧ (∀ p, p ∈ hc_Plugins cfg →
             managers h !! pc_PluginID p = Some (fill_config (manager_config cfg p)))
        ∧ ∀ j, hw' j = hw j
    | Err _ => True
    end) hw.
Proof.
  unfold NewHost. case_bool_decide; [done|]. case_bool_decide; [done|].
  apply wp_bind. eapply wp_mono; [apply (new_managers_spec cfg hw _ []); try done|].
  { constructor; simpl; [done|constructor| |by intros p ?%elem_of_nil].
    intros id m. rewrite lookup_empty. split; [done|]. by intros (p & ?%elem_of_nil & _). }
  intros [h|e] hw'; [|done]. intros [Hb Hw]. pose proof (built_host_ok _ _ _ Hb) as Hok.
  destruct Hb as [Bp Bn Bm Bv]. simpl in *. split_and!; try done.
  - by rewrite sort_Strings_perm, Bp.
  - intros p Hp. apply Bm. by exists p.
Qed.

(** ** Routing *)

Section Route.
Variable h : Host.
Hypothesis h_ok : host_ok h.

(** The operation of the target's manager that a routed call stands for. *)
Definition routed_op (req : RoutedRequest) (m : Config) : option (prog mgrE (result RoutedBody)) :=
  if decide (rq_Call req = RoutedCallHeartbeat) then
    Some (r ← Heartbeat m; Ret (match r.2 with Some e => Err e | None => Ok (BHeartbeat r.1) end))
  else if decide (rq_Call req = RoutedCallEcho) then
    Some (r ← Manager_Echo m (arg_string (rq_Arg req)); Ret (match r with Ok s => Ok (BEcho s) | Err e => Err e end))
  else if decide (rq_Call req = RoutedCallRestart) then
    Some (r ← Restart m; match r with
                         | Some e => Ret (Err e)
                         | None => st ← Manager_State m; Ret (Ok (BState st))
                         end)
  else None.

(** The answer to [req], of target state [st], from the target's own answer. *)
Definition routed_answer (req : RoutedRequest) (st : State) (r : result RoutedBody) : result RoutedResponse :=
  match r with
  | Ok body => Ok (mkRoutedResponse (route_of st) (rq_Call req) body)
  | Err e => Err e
  end.

(** A routed call is an operation of one manager.  CallRequest for a known
    plugin id does exactly what the named operation does on that plugin's
    manager alone (any guarantee of it carries over), leaves every other
    plugin's world untouched, and answers its result under the target's route
    as it was before the call; an unknown id or an unsupported call is an
    error and nothing happens. *)
Theorem CallRequest_routes req hw :
  match managers h !! rq_PluginID req with
  | None => wp (CallRequest h req) (λ r hw',
      r = Err (errors_New ("unknown plugin id: " +:+ rq_PluginID req)) ∧ hw' = hw) hw
  | Some m =>
      match routed_op req m with
      | None => wp (CallRequest h req) (λ r hw',
          r = Err (errors_New ("unsupported routed call: " +:+ rq_Call req)) ∧ ∀ j, hw' j = hw j) hw
      | Some p => ∀ Q, Prog.wp mgr_step p Q (hw (rq_PluginID req)) →
          wp (CallRequest h req) (λ r hw', ∃ body,
            r = routed_answer req (snapshot m (w_m (hw (rq_PluginID req)))) body
            ∧ Q body (hw' (rq_PluginID req)) ∧ only (rq_PluginID req) hw hw') hw
      end
  end.
Proof.
  unfold CallRequest, RouteTarget, Host_Manager.
  destruct (managers h !! rq_PluginID req) as [m|] eqn:Hm; [|done].
  set (id := rq_PluginID req) in *. set (hw0 := hw).
  assert (∀ (k : result (Route * Config) → prog hostE (result RoutedResponse)) Q,
    (∀ hw1, hw1 id = hw0 id → only id hw0 hw1 → wp (k (Ok (route_of (snapshot m (w_m (hw0 id))), m))) Q hw1) →
    wp ((st ← at_manager id (Manager_State m); Ret (Ok (route_of st, m))) ≫= k) Q hw0) as Hroute.
  { intros k Q HQ. apply wp_bind. eapply wp_at_seq; [apply Manager_State_spec|].
    intros st hw1 [-> Hid] Honly. by apply HQ. }
  assert (∀ {A} (p : prog mgrE A) (k : A → prog mgrE (result RoutedBody)) k' Q,
    (∀ a (hw1 : hosts_world), only id hw0 hw1 → Prog.wp mgr_step (k a) Q (hw1 id) →
       wp (k' a) (λ r hw', ∃ body, r = routed_answer req (snapshot m (w_m (hw0 id))) body
            ∧ Q body (hw' id) ∧ only id hw0 hw') hw1) →
    ∀ hw1, hw1 id = hw0 id → only id hw0 hw1 → Prog.wp mgr_step (p ≫= k) Q (hw0 id) →
    wp (at_manager id p ≫= k') (λ r hw', ∃ body,
        r = routed_answer req (snapshot m (w_m (hw0 id))) body
        ∧ Q body (hw' id) ∧ only id hw0 hw') hw1) as Hop.
  { intros A p k k' Q Hk hw1 Hid Honly Hp. rewrite <- Hid in Hp.
    eapply wp_at_seq; [by apply wp_bind_inv|]. intros a hw2 Ha Ho2. apply Hk; [|done].
    intros j Hj. by rewrite Ho2, Honly. }
  unfold routed_op. destruct (decide (rq_Call req = RoutedCallHeartbeat)) as [Hc|_].
  { intros Q Hp. apply Hroute. intros hw1 Hid Honly. eapply Hop; [|done..].
    intros [out [e|]] hw2 Ho2 HQ; simpl in *; eexists; split_and!; try done; done. }
  destruct (decide (rq_Call req = RoutedCallEcho)) as [Hc|_].
  { intros Q Hp. apply Hroute. intros hw1 Hid Honly. eapply Hop; [|done..].
    intros [out|e] hw2 Ho2 HQ; simpl in *; eexists; split_and!; try done; done. }
  destruct (decide (rq_Call req = RoutedCallRestart)) as [Hc|_].
  { intros Q Hp. apply Hroute. intros hw1 Hid Honly. eapply Hop; [|done..].
    intros [e|] hw2 Ho2 HQ; [by exists (Err e)|]. apply wp_bind_inv in HQ.
    eapply wp_at_seq; [exact HQ|]. intros st hw3 HQ' Ho3.
    exists (Ok (BState st)); split_and!; [|exact HQ'|intros j Hj; by rewrite Ho3, Ho2].
    done. }
  apply Hroute. intros hw1 Hid Honly. simpl. split; [done|]. intros j.
  destruct (decide (j = id)) as [->|Hne]; [done|by apply Honly].
Qed.
End Route.
End Facts.
