(* ===== verification/HostDemo.v ===== *)
(** * A host that runs

    Two plugins on the demo system of ManagerDemo: "echo", which is well
    behaved, and "pay", which is answered for by the same plugin and therefore
    fails authentication.  The host's theorems are applied to it. *)

From stdpp Require Import functions.
From S2P Require Import Prelude Prog GoText GoPath PluginID Auth Runtime Bundle EventLog PluginApi Manager ManagerWorld ManagerFacts ManagerProps ManagerDemo Host HostFacts HostProps.

#[local] Existing Instance ascii_tables.

Definition echo_plugin : PluginConfig := mkPluginConfig "echo" "/opt/plugins/echo" None None.
Definition pay_plugin : PluginConfig := mkPluginConfig "pay" "/opt/plugins/pay" None None.

Definition host_cfg (ps : list PluginConfig) : HostConfig :=
  mkHostConfig "/run/rpc" "" (3 * Second) (2 * Second) (2 * Second) ps false.

Definition demo_host (ps : list PluginConfig) : Host :=
  mkHost (list_to_map ((λ p, (pc_PluginID p, manager_config (host_cfg ps) p)) <$> ps)) (ids_of ps).

Definition host_run (X : Type) (e : hostE X) : hosts_world → hosts_world * X :=
  match e in hostE X return hosts_world → hosts_world * X with
  | At id e => λ hw, let r := demo_run _ e (hw id) in (<[id := r.1]> hw, r.2)
  end.

Lemma host_run_ok X (e : hostE X) hw : host_step X e hw (host_run X e hw).2 (host_run X e hw).1.
Proof. destruct e as [X id e]. simpl. eexists. split; [apply demo_run_ok|done]. Qed.

Definition hosts0 : hosts_world := λ _, world0.

Definition one : Host := demo_host [echo_plugin].
Definition two : Host := demo_host [echo_plugin; pay_plugin].

Lemma demo_host_ok ps :
  StronglySorted String.le (ids_of ps) → NoDup (ids_of ps) → host_ok (demo_host ps).
Proof.
  intros Hs Hn. set (entry := λ p, (pc_PluginID p, manager_config (host_cfg ps) p)).
  assert ((entry <$> ps).*1 = ids_of ps) as Hfst.
  { unfold ids_of. rewrite <- list_fmap_compose. done. }
  constructor; simpl; fold entry; [done|done| |].
  - intros id. rewrite <- not_eq_None_Some, <- not_elem_of_list_to_map, Hfst.
    split; [auto|]. by destruct (decide (id ∈ ids_of ps)).
  - intros id m Hm. apply elem_of_list_to_map_2, list_elem_of_fmap in Hm as (p & [= -> ->] & _). done.
Qed.

Lemma one_ok : host_ok one.
Proof. apply demo_host_ok; repeat constructor; set_solver. Qed.

Lemma two_ok : host_ok two.
Proof.
  apply demo_host_ok; unfold ids_of; simpl.
  - by repeat constructor.
  - by apply (bool_decide_unpack _).
Qed.

Lemma down0 (h : Host) id : down h hosts0 id.
Proof. split; [apply Inv_world0|done]. Qed.

Definition started (h : Host) : hosts_world * option error := run host_run (StartAll h) hosts0.

Lemma runtime_isolation_witness :
  artifacts "/run/rpc" "echo" =
    ["/run/rpc/echo"; "/run/rpc/echo/echo.sock"; "/run/rpc/echo/echo.auth"; "/run/rpc/echo/events.jsonl"]
  ∧ NoDup (artifacts "/run/rpc" "echo")
  ∧ SocketPath (pluginRuntimeDir "/run/rpc" "echo") "echo"
      ≠ SocketPath (pluginRuntimeDir "/run/rpc" "pay") "pay".
Proof.
  split; [vm_compute; reflexivity|].
  destruct (runtime_isolation "/run/rpc" "echo" "pay") as [H1 H2]; [reflexivity|reflexivity|].
  split; [exact H1|]. apply H2; [discriminate|right; left|right; left].
Defined.

Lemma Host_State_exact_witness :
  let out := run host_run (Host_State one) (started one).1 in
  hs_Plugins out.2 = [shown one (started one).1 "echo"]
  ∧ hs_CapabilityMap out.2 !! "echo" = Some ["echo"].
Proof.
  split; [|vm_compute; reflexivity].
  exact (proj1 (proj2 (wp_run host_step host_run host_run_ok (Host_State one) _ _
    (Host_State_exact one one_ok (started one).1)))).
Defined.

Lemma StartAll_all_or_nothing_witness :
  (started one).2 = None ∧ up one (started one).1 "echo"
  ∧ (started two).2 ≠ None ∧ down two (started two).1 "echo" ∧ down two (started two).1 "pay"
  ∧ st_GenerationID (state (w_m ((started two).1 "echo"))) = 1.
Proof.
  pose proof (wp_run host_step host_run host_run_ok (StartAll one) _ _
    (StartAll_all_or_nothing one one_ok hosts0 (λ id _, down0 one id))) as [_ H1].
  pose proof (wp_run host_step host_run host_run_ok (StartAll two) _ _
    (StartAll_all_or_nothing two two_ok hosts0 (λ id _, down0 two id))) as [_ H2].
  assert ((started one).2 = None) as E1 by (vm_compute; reflexivity).
  assert (bool_decide ((started two).2 = None) = false) as E2 by (vm_compute; reflexivity).
  fold (started one) in H1. fold (started two) in H2. rewrite E1 in H1.
  split; [exact E1|]. split; [apply H1; left|].
  destruct (started two).2; [|discriminate E2]. split; [discriminate|].
  split; [apply H2; left|]. split; [apply H2; right; left|]. vm_compute. reflexivity.
Defined.

Lemma Host_Close_all_witness :
  let out := run host_run (Host_Close two) hosts0 in
  out.2 = None ∧ closed (w_m (out.1 "echo")) = true ∧ closed (w_m (out.1 "pay")) = true.
Proof.
  split; [vm_compute; reflexivity|].
  pose proof (wp_run host_step host_run host_run_ok (Host_Close two) _ _
    (Host_Close_all two two_ok hosts0
       (λ id _, conj (Inv_world0 _) (λ E : false = true, match Bool.diff_false_true E with end)))) as [_ H1].
  split; apply H1; [left|right; left].
Defined.

(** NewHost on the demo system answers the demo host. *)
Example NewHost_runs :
  let r := (run host_run (NewHost (host_cfg [pay_plugin; echo_plugin])) hosts0).2 in
  match r with Ok h => plugins h = ["echo"; "pay"] | Err _ => False end.
Proof. vm_compute. reflexivity. Qed.
