(* ===== verification/HostFence.v ===== *)
(** * Many goroutines on one host

    The managers of a host have a lifecycle lock each.  A goroutine of the host
    acts on several of them in turn: the daemon's own on all, the handlers of
    the admin server on those a request is about.  It is verified on its own
    against what the others may do to the shared managers, each manager's
    contract being that of Fence; the managers that are not shared yet are the
    daemon's alone. *)

From stdpp Require Import functions.
From S2P Require Import Prelude Prog GoText GoPath PluginID Auth Runtime Bundle EventLog PluginApi Manager ManagerWorld ManagerFacts ManagerProps Fence Host HostFacts HostProps.

Section Rules.
Context `{UnicodeTables}.
Implicit Types hw : hosts_world.

(** Between lifecycle operations, the manager of [id]. *)
Definition id_config (id : string) : Config := mkConfig "" "" id 0 0 0 "" None None false.
Definition at_ease (id : string) (w : world) : Prop := quiescent (id_config id) w.

Lemma quiescent_config c c' w : PluginID c = PluginID c' → quiescent c w → quiescent c' w.
Proof. intros E []. constructor; try done. by rewrite <- E. Qed.

Lemma ease_to c id w : PluginID c = id → at_ease id w → quiescent c w.
Proof. intros E. by apply quiescent_config. Qed.
Lemma ease_of c id w : PluginID c = id → quiescent c w → at_ease id w.
Proof. intros E. by apply quiescent_config. Qed.

Lemma rg_config {A} c c' held (p : prog mgrE A) Q w :
  PluginID c = PluginID c' → rg c held p Q w → rg c' held p Q w.
Proof.
  intros E. revert held w. induction p as [a|X e k IH]; intros held w; simpl; [done|].
  destruct (lock_kind e).
  - intros [? Hp]. split; [done|]. intros x w1 Hl Hq. apply IH, Hp; [done|]. by eapply quiescent_config.
  - intros [? Hp]. split; [done|]. intros x w1 Hi. destruct (Hp x w1 Hi) as [Hq Hk].
    split; [by eapply quiescent_config|by apply IH].
  - destruct held; intros Hp w1 x w2 H1 H2 H3.
    + destruct (Hp w1 x w2 H1 H2 H3) as (? & ? & ?). split_and!; [done..|by apply IH].
    + destruct (Hp w1 x w2 H1 H2 H3) as (? & ?). split; [done|by apply IH].
Qed.

(** ** Rely *)

(** The managers goroutines share: none while the daemon is alone. *)
Definition sharing : Type := option (gset string).
Definition shared (pub : sharing) (id : string) : Prop := match pub with Some P => id ∈ P | None => False end.

(** What the others may have done.  The lock a goroutine holds is [held]; the
    managers that are not shared are those of the main goroutine. *)
Definition rely (main : bool) (pub : sharing) (held : option string) hw hw' : Prop :=
  match pub with
  | None => hw' = hw
  | Some P => (main = true → ∀ j, j ∉ P → hw' j = hw j)
      ∧ ∀ j, j ∈ P → later (hw j) (hw' j) ∧ (held = Some j → interference (hw j) (hw' j))
  end.

#[global] Instance rely_pre main pub held : PreOrder (rely main pub held).
Proof.
  destruct pub as [P|]; [|split; [by intros hw|intros hw1 hw2 hw3; simpl; congruence]]. split.
  - intros hw. by split.
  - intros hw1 hw2 hw3 [H1 H2] [H3 H4]. split.
    + intros Hm j Hj. by rewrite H3, H1.
    + intros j Hj. destruct (H2 j Hj), (H4 j Hj). split; [by etrans|]. intros E. etrans; eauto.
Qed.

Lemma rely_any main pub held hw hw' : rely main pub held hw hw' → rely main pub None hw hw'.
Proof. destruct pub as [P|]; [|done]. intros [H1 H2]. split; [done|]. intros j Hj. by destruct (H2 j Hj). Qed.

Lemma rely_later main P held hw hw' id : rely main (Some P) held hw hw' → id ∈ P → later (hw id) (hw' id).
Proof. intros [_ Hr] Hid. by destruct (Hr id Hid). Qed.

(** A step on a shared manager, as others see it. *)
Lemma rely_step main P hw id w : id ∈ P → later (hw id) w → rely main (Some P) None hw (<[id := w]> hw).
Proof.
  intros Hid Hl. split.
  - intros _ j Hj. rewrite fn_lookup_insert_ne; [done|]. by intros ->.
  - intros j Hj. split; [|done]. destruct (decide (j = id)) as [->|Hne].
    + by rewrite fn_lookup_insert.
    + by rewrite fn_lookup_insert_ne.
Qed.

(** ** Guarantee *)

(** What one call of a goroutine has to respect. *)
Definition hcall (main : bool) (pub : sharing) (held : option string) {X} (e : hostE X)
  : (option string → X → hosts_world → Prop) → hosts_world → Prop :=
  match e in hostE X return (option string → X → hosts_world → Prop) → hosts_world → Prop with
  | @At X id e => λ K hw,
      (main = false → shared pub id) ∧
      match lock_kind e with
      | Acquire => held = None ∧ ∀ x hw1, rely main pub held hw hw1 →
          at_ease id (hw1 id) → K (Some id) x (<[id := hw1 id]> hw1)
      | Release => held = Some id ∧ ∀ x hw1, rely main pub held hw hw1 →
          at_ease id (hw1 id) ∧ K None x (<[id := hw1 id]> hw1)
      | Other => ∀ x hw1 w2, rely main pub held hw hw1 →
          core (w_m (hw1 id)) → mgr_step _ e (hw1 id) x w2 →
          (if decide (held = Some id) then held_step (hw1 id) w2 ∧ core (w_m w2)
           else interference (hw1 id) w2)
          ∧ K held x (<[id := w2]> hw1)
      end
  end.

Fixpoint hrg (main : bool) (pub : sharing) (held : option string) {A} (p : prog hostE A)
    (Q : option string → A → hosts_world → Prop) hw : Prop :=
  match p with
  | Ret a => ∀ hw1, rely main pub held hw hw1 → Q held a hw1
  | Vis e k => hcall main pub held e (λ h x hw', hrg main pub h (k x) Q hw') hw
  end.

Lemma hcall_mono main pub held {X} (e : hostE X) (K K' : option string → X → hosts_world → Prop) hw :
  (∀ h x hw', K h x hw' → K' h x hw') → hcall main pub held e K hw → hcall main pub held e K' hw.
Proof.
  intros HK. destruct e as [X id e]. cbn. intros [Hs Hc]. split; [done|]. destruct (lock_kind e).
  - destruct Hc as [? Hc]. split; [done|]. auto.
  - destruct Hc as [? Hc]. split; [done|]. intros x hw1 H1. destruct (Hc x hw1 H1). auto.
  - intros x hw1 w2 H1 H2 H3. destruct (Hc x hw1 w2 H1 H2 H3). auto.
Qed.

Lemma hcall_rely main pub held {X} (e : hostE X) K hw hw' :
  rely main pub held hw hw' → hcall main pub held e K hw → hcall main pub held e K hw'.
Proof.
  intros Hr. destruct e as [X id e]. cbn. intros [Hs Hc]. split; [done|]. destruct (lock_kind e).
  - destruct Hc as [? Hc]. split; [done|]. intros x hw1 H1. apply Hc. by etrans.
  - destruct Hc as [? Hc]. split; [done|]. intros x hw1 H1. apply Hc. by etrans.
  - intros x hw1 w2 H1. apply Hc. by etrans.
Qed.

Lemma hrg_mono main pub held {A} (p : prog hostE A) (Q Q' : option string → A → hosts_world → Prop) hw :
  hrg main pub held p Q hw → (∀ h a hw', Q h a hw' → Q' h a hw') → hrg main pub held p Q' hw.
Proof.
  intros Hp HQ. revert held hw Hp. induction p as [a|X e k IH]; intros held hw Hp; simpl in *; [auto|].
  eapply hcall_mono; [|exact Hp]. intros h x hw'. apply IH.
Qed.

Lemma hrg_rely main pub held {A} (p : prog hostE A) Q hw hw' :
  rely main pub held hw hw' → hrg main pub held p Q hw → hrg main pub held p Q hw'.
Proof.
  intros Hr. destruct p as [a|X e k]; simpl; [intros Hp hw1 H1; apply Hp; by etrans|by apply hcall_rely].
Qed.

Lemma hrg_bind main pub held {A B} (p : prog hostE A) (k : A → prog hostE B) Q hw :
  hrg main pub held p (λ h a hw', hrg main pub h (k a) Q hw') hw → hrg main pub held (p ≫= k) Q hw.
Proof.
  revert held hw. induction p as [a|X e kk IH]; intros held hw Hp; simpl in *; [by apply Hp|].
  eapply hcall_mono; [|exact Hp]. intros h x hw'. apply IH.
Qed.

Lemma hrg_seq main pub held {A B} (p : prog hostE A) (k : A → prog hostE B) P Q hw :
  hrg main pub held p P hw → (∀ h a hw', P h a hw' → hrg main pub h (k a) Q hw') →
  hrg main pub held (p ≫= k) Q hw.
Proof. intros Hp Hk. apply hrg_bind. eapply hrg_mono; [exact Hp|exact Hk]. Qed.

Lemma hrg_for_range main pub {A} (xs : list A) body (I : list A → hosts_world → Prop) hw :
  (∀ rest hw1 hw2, rely main pub None hw1 hw2 → I rest hw1 → I rest hw2) →
  I xs hw →
  (∀ x rest hw1, I (x :: rest) hw1 →
     hrg main pub None (body x) (λ h _ hw2, h = None ∧ I rest hw2) hw1) →
  hrg main pub None (for_range xs body) (λ h _ hw', h = None ∧ I [] hw') hw.
Proof.
  intros HI. revert hw. induction xs as [|x xs IH]; intros hw Hi Hb; cbn [for_range].
  - intros hw1 Hr. split; [done|]. by eapply HI.
  - eapply hrg_seq; [by apply Hb|]. intros h u hw1 [-> H1]. by apply IH.
Qed.

Lemma hrg_fold_range main pub {A B} (xs : list A) (acc : B) body (I : list A → hosts_world → Prop) hw :
  (∀ rest hw1 hw2, rely main pub None hw1 hw2 → I rest hw1 → I rest hw2) →
  I xs hw →
  (∀ x rest acc1 hw1, I (x :: rest) hw1 →
     hrg main pub None (body acc1 x) (λ h _ hw2, h = None ∧ I rest hw2) hw1) →
  hrg main pub None (fold_range xs acc body) (λ h _ hw', h = None ∧ I [] hw') hw.
Proof.
  intros HI. revert acc hw. induction xs as [|x xs IH]; intros acc hw Hi Hb; cbn [fold_range].
  - intros hw1 Hr. split; [done|]. by eapply HI.
  - eapply hrg_seq; [by apply Hb|]. intros h acc1 hw1 [-> H1]. by apply IH.
Qed.

(** ** A manager's program, on the host *)

Definition lock_of (held : bool) (id : string) : option string := if held then Some id else None.

(** On a shared manager: what Fence proves of it.  [S] is what is known of the
    manager after it; the other managers are left alone. *)
Lemma hrg_shared {A} main P c id held (p : prog mgrE A) (S : world → Prop) hw0 hw :
  id ∈ P → PluginID c = id → (∀ w w', later w w' → S w → S w') →
  rely main (Some P) None hw0 hw →
  rg c held p (λ h _ w, h = false ∧ S w) (hw id) →
  hrg main (Some P) (lock_of held id) (at_manager id p)
    (λ h _ hw', h = None ∧ S (hw' id) ∧ rely main (Some P) None hw0 hw') hw.
Proof.
  intros Hid Hc HS. revert held hw. induction p as [a|X e k IH]; intros held hw Hr Hp.
  { simpl in Hp. destruct Hp as [-> Hs]. intros hw1 H1. split; [done|]. split.
    - eapply HS; [|exact Hs]. by eapply rely_later.
    - by etrans. }
  cbn. split; [done|]. simpl in Hp.
  assert (∀ hw1 w, rely main (Some P) (lock_of held id) hw hw1 → later (hw1 id) w →
    rely main (Some P) None hw0 (<[id := w]> hw1)) as Hnext.
  { intros hw1 w H1 Hl. etrans; [exact Hr|]. etrans; [by eapply rely_any|]. by apply rely_step. }
  destruct (lock_kind e).
  - destruct Hp as [-> Hp]. split; [done|]. intros x hw1 H1 Hq.
    apply (IH x true); [by apply Hnext|]. rewrite fn_lookup_insert. apply Hp; [by eapply rely_later|].
    by apply (ease_to c id).
  - destruct Hp as [-> Hp]. split; [done|]. intros x hw1 H1.
    assert (interference (hw id) (hw1 id)) as Hi by (destruct H1 as [_ H1]; by apply H1).
    destruct (Hp x _ Hi) as [Hq Hk]. split; [by apply (ease_of c)|].
    apply (IH x false); [by apply Hnext|]. by rewrite fn_lookup_insert.
  - intros x hw1 w2 H1 Hcore Hs. destruct held.
    + assert (interference (hw id) (hw1 id)) as Hi by (destruct H1 as [_ H1]; by apply H1).
      destruct (Hp _ x _ Hi Hcore Hs) as (Hh & Hc2 & Hk).
      split; [by rewrite decide_True|]. apply (IH x true); [|by rewrite fn_lookup_insert].
      apply Hnext; [done|]. by apply sealed_later, Hh.
    + destruct (Hp _ x _ (rely_later _ _ _ _ _ _ H1 Hid) Hcore Hs) as (Hi & Hk).
      split; [by rewrite decide_False|]. apply (IH x false); [|by rewrite fn_lookup_insert].
      apply Hnext; [done|]. by apply interference_later.
Qed.

(** While the daemon is alone: what it does by itself, the locks free in between. *)
Lemma hrg_alone {A} c id held (p : prog mgrE A) (Q : A → world → Prop) hw0 hw :
  PluginID c = id → core (w_m (hw id)) → (held = false → at_ease id (hw id)) → only id hw0 hw →
  rg c held p (λ h _ _, h = false) (hw id) → Prog.wp mgr_step p Q (hw id) →
  hrg true None (lock_of held id) (at_manager id p)
    (λ h a hw', h = None ∧ Q a (hw' id) ∧ at_ease id (hw' id) ∧ only id hw0 hw') hw.
Proof.
  intros Hc. revert held hw. induction p as [a|X e k IH]; intros held hw Hcore Hq Ho Hp Hw.
  { simpl in Hp, Hw. subst held. intros hw1 ->. split_and!; [done|done|by apply Hq|done]. }
  cbn. split; [done|]. simpl in Hp.
  assert (∀ w, only id hw0 (<[id := w]> hw)) as Ho'.
  { intros w j Hj. rewrite fn_lookup_insert_ne by done. by apply Ho. }
  destruct (lock_kind e) eqn:He.
  - destruct Hp as [-> Hp]. split; [done|]. intros x hw1 -> _. specialize (Hq eq_refl).
    apply (IH x true); rewrite ?fn_lookup_insert; try done.
    + apply Hp; [by intros Hs|]. by apply (ease_to c id).
    + apply Hw. by destruct e.
  - destruct Hp as [-> Hp]. split; [done|]. intros x hw1 ->.
    destruct (Hp x (hw id)) as [Hq' Hk]; [by constructor; [left|..]|]. split; [by apply (ease_of c)|].
    apply (IH x false); rewrite ?fn_lookup_insert; try done.
    + intros _. by apply (ease_of c).
    + apply Hw. by destruct e.
  - intros x hw1 w2 -> _ Hs. destruct held.
    + destruct (Hp (hw id) x w2) as (Hst & Hc2 & Hk); [by constructor; [left|..]|done|done|].
      split; [by rewrite decide_True|].
      apply (IH x true); rewrite ?fn_lookup_insert; try done. by apply Hw.
    + destruct (Hp (hw id) x w2) as (Hi & Hk); [by intros ?|done|done|].
      split; [by rewrite decide_False|].
      apply (IH x false); rewrite ?fn_lookup_insert; try done.
      * eapply mono_core; [apply Hi|done].
      * intros _. eapply quiescent_stable; [by apply Hq|done].
      * by apply Hw.
Qed.

(** While the daemon is alone its own run is all that happens. *)
Lemma hrg_wp {A} held (p : prog hostE A) Q1 (Q2 : A → hosts_world → Prop) hw :
  hrg true None held p Q1 hw → Prog.wp host_step p Q2 hw →
  hrg true None held p (λ h a hw', Q1 h a hw' ∧ Q2 a hw') hw.
Proof.
  revert held hw. induction p as [a|X e k IH]; intros held hw Hp Hw.
  { intros hw1 ->. split; [by apply Hp|done]. }
  destruct e as [X id e]. cbn in *. destruct Hp as [_ Hp]. split; [done|].
  assert (∀ x w', mgr_step _ e (hw id) x w' → Prog.wp host_step (k x) Q2 (<[id := w']> hw)) as Hw'.
  { intros x w' Hs. apply Hw. by exists w'. }
  destruct (lock_kind e) eqn:He.
  - destruct Hp as [? Hp]. split; [done|]. intros x hw1 -> Hq. apply IH; [by apply Hp|]. apply Hw'. by destruct e.
  - destruct Hp as [? Hp]. split; [done|]. intros x hw1 ->. destruct (Hp x hw eq_refl) as [? ?].
    split; [done|]. apply IH; [done|]. apply Hw'. by destruct e.
  - intros x hw1 w2 -> Hc Hs. destruct (Hp x hw w2 eq_refl Hc Hs). split; [done|]. apply IH; [done|]. by apply Hw'.
Qed.
End Rules.

(** ** The operations of a host *)
Section Operations.
Context `{UnicodeTables}.
Implicit Types hw : hosts_world.

Definition eased hw : Prop := ∀ id, at_ease id (hw id).

Lemma eased_only id hw hw' : eased hw → at_ease id (hw' id) → only id hw hw' → eased hw'.
Proof. intros He Hid Ho j. destruct (decide (j = id)) as [->|Hne]; [done|]. rewrite Ho by done. apply He. Qed.

Lemma eased0 : eased (λ _, world0).
Proof. intros id. constructor; simpl; try done; [by apply core_idle|set_solver..]. Qed.

(** *** Alone *)

Lemma alone_op {A} c id (p : prog mgrE A) Q hw :
  PluginID c = id → (∀ w, rg c false p unlocked w) → eased hw → Prog.wp mgr_step p Q (hw id) →
  hrg true None None (at_manager id p) (λ h a hw', h = None ∧ Q a (hw' id) ∧ eased hw') hw.
Proof.
  intros Hc Hp He Hw. eapply hrg_mono.
  - apply (hrg_alone c id false p Q hw hw); [done|apply He|by intros _|done|apply Hp|exact Hw].
  - intros h a hw' (-> & Hq & Ha & Ho). split; [done|]. split; [done|]. by eapply eased_only.
Qed.

Lemma alone_any {A} c id (p : prog mgrE A) hw :
  PluginID c = id → (∀ w, rg c false p unlocked w) → eased hw →
  hrg true None None (at_manager id p) (λ h _ hw', h = None ∧ eased hw') hw.
Proof.
  intros Hc Hp He. eapply hrg_mono; [apply (alone_op c id p (λ _ _, True)); try done; by apply wp_any|].
  by intros h a hw' (? & _ & ?).
Qed.

Lemma neutral_new c : neutral (Manager_New c).
Proof.
  unfold Manager_New. destruct (_ || _); [done|]. apply neutral_bind; [apply neutral_sys|].
  intros [e|]; [done|]. apply neutral_bind; [apply neutral_sys|]. intros [e|]; [done|].
  apply neutral_bind; [done|]. by intros [e|].
Qed.

Lemma fill_config_id c : PluginID (fill_config c) = PluginID c.
Proof. unfold fill_config. by repeat match goal with |- context [if ?c then _ else _] => destruct c end. Qed.

Lemma close_existing_alone ms hw :
  (∀ id m, ms !! id = Some m → PluginID m = id) → eased hw →
  hrg true None None (close_existing ms) (λ h _ hw', h = None ∧ eased hw') hw.
Proof.
  intros Hms He. unfold close_existing.
  assert (∀ id m, (id, m) ∈ map_to_list ms → PluginID m = id) as Hl
    by (intros id m Hin; by apply Hms, elem_of_map_to_list).
  revert hw He Hl. induction (map_to_list ms) as [|[id m] l IH]; intros hw He Hl; cbn [for_range].
  { intros hw1 ->. done. }
  apply hrg_bind. eapply hrg_seq.
  - apply (alone_any m id); [apply Hl; by left|intros w; apply Close_rg|done].
  - intros h r hw1 [-> H1] hw2 ->. apply IH; [done|]. intros id' m' Hin. apply Hl. by right.
Qed.

Lemma new_managers_alone cfg ps seen h hw :
  (∀ id m, managers h !! id = Some m → PluginID m = id) → eased hw →
  hrg true None None (new_managers cfg ps seen h) (λ h' _ hw', h' = None ∧ eased hw') hw.
Proof.
  revert seen h hw. induction ps as [|p ps IH]; intros seen h hw Hms He; cbn [new_managers].
  { intros hw1 ->. done. }
  destruct (check_plugin seen p) as [e|]; [intros hw1 ->; done|].
  eapply hrg_seq.
  - apply (alone_op (manager_config cfg p) (pc_PluginID p)); [done| |done|apply Manager_New_spec].
    intros w. apply neutral_rg, neutral_new.
  - intros h1 r hw1 (-> & [_ Hr] & H1). destruct r as [m|e].
    + subst m. apply IH; [|done]. intros id m. simpl. rewrite lookup_insert_Some.
      intros [[<- <-]|[_ Hm]]; [apply fill_config_id|by apply Hms].
    + apply hrg_bind. eapply hrg_mono; [by apply close_existing_alone|]. intros h2 u hw2 [-> H2] hw3 ->. done.
Qed.

Lemma NewHost_alone cfg hw :
  eased hw → hrg true None None (NewHost cfg) (λ h _ hw', h = None ∧ eased hw') hw.
Proof.
  intros He. unfold NewHost. case_bool_decide; [intros hw1 ->; done|].
  case_bool_decide; [intros hw1 ->; done|]. apply hrg_bind.
  eapply hrg_mono; [by apply new_managers_alone|]. intros h r hw1 [-> Hw1]. by destruct r; intros hw2 ->.
Qed.

Section Host.
Variable h : Host.
Hypothesis h_ok : host_ok h.

Lemma with_manager_hrg {A} main pub held id (dflt : A) f Q hw :
  id ∈ plugins h → hrg main pub held (at_manager id (f (cfg_of h id))) Q hw →
  hrg main pub held (with_manager h id dflt f) Q hw.
Proof.
  intros Hid. apply (ho_managers h h_ok) in Hid as [m Hm]. unfold with_manager, cfg_of. by rewrite Hm.
Qed.

Lemma cfg_of_id id : PluginID (cfg_of h id) = id.
Proof.
  unfold cfg_of. destruct (managers h !! id) as [m|] eqn:Hm; [|done]. by apply (ho_ids h h_ok).
Qed.

Lemma alone_manager {A} id (dflt : A) f hw :
  id ∈ plugins h → (∀ w, rg (cfg_of h id) false (f (cfg_of h id)) unlocked w) → eased hw →
  hrg true None None (with_manager h id dflt f) (λ h _ hw', h = None ∧ eased hw') hw.
Proof.
  intros Hid Hf He. apply with_manager_hrg; [done|].
  by apply (alone_any (cfg_of h id)); [apply cfg_of_id|..].
Qed.

Lemma start_plugins_alone ids started hw :
  ids ⊆ plugins h → started ⊆ plugins h → eased hw →
  hrg true None None (start_plugins h ids started) (λ h _ hw', h = None ∧ eased hw') hw.
Proof.
  revert started hw. induction ids as [|id ids IH]; intros started hw Hi Hs He; cbn [start_plugins].
  { intros hw1 ->. done. }
  eapply hrg_seq.
  - apply alone_manager; [apply Hi; by left|intros w; apply Start_rg|done].
  - intros h1 r hw1 [-> H1]. destruct r as [e|].
    + apply hrg_bind. eapply hrg_mono; [apply (hrg_for_range _ _ started _ (λ rest hw, rest ⊆ plugins h ∧ eased hw))|].
      * intros rest hw2 hw3 ->. done.
      * done.
      * intros x rest hw2 [Hx H2]. apply hrg_bind. eapply hrg_mono.
        -- apply alone_manager; [apply Hx; by left|intros w; apply Kill_rg|done].
        -- intros h2 u hw3 [-> H3] hw4 ->. split; [done|]. split; [|done]. intros y Hy. apply Hx. by right.
      * intros h2 u hw2 [-> [_ H2]] hw3 ->. done.
    + apply IH; [intros x Hx; apply Hi; by right| |done].
      intros x [Hx|Hx]%elem_of_app; [by apply Hs|]. apply list_elem_of_singleton in Hx as ->. apply Hi. by left.
Qed.

Lemma StartAll_alone hw :
  eased hw → hrg true None None (StartAll h) (λ h _ hw', h = None ∧ eased hw') hw.
Proof. intros He. apply start_plugins_alone; [done|by intros x ?%elem_of_nil|done]. Qed.

Lemma Host_Close_alone hw :
  eased hw → hrg true None None (Host_Close h) (λ h _ hw', h = None ∧ eased hw') hw.
Proof.
  intros He. eapply hrg_mono; [apply (hrg_fold_range _ _ (plugins h) _ _ (λ rest hw, rest ⊆ plugins h ∧ eased hw))|].
  - intros rest hw2 hw3 ->. done.
  - done.
  - intros x rest acc hw2 [Hx H2]. apply hrg_bind. eapply hrg_mono.
    + apply alone_manager; [apply Hx; by left|intros w; apply Close_rg|done].
    + intros h2 u hw3 [-> H3] hw4 ->. split; [done|]. split; [|done]. intros y Hy. apply Hx. by right.
  - by intros h2 u hw2 [-> [_ H2]].
Qed.

(** *** Among others *)
Variable P : gset string.
Hypothesis covered : ∀ id, id ∈ plugins h → id ∈ P.

(** An operation on one manager; nothing is known after it but what lasts. *)
Lemma shared_op {A} main id (p : prog mgrE A) hw0 hw :
  id ∈ P → (∀ w, rg (cfg_of h id) false p unlocked w) → rely main (Some P) None hw0 hw →
  hrg main (Some P) None (at_manager id p) (λ h _ hw', h = None ∧ rely main (Some P) None hw0 hw') hw.
Proof.
  intros Hid Hp Hr. eapply hrg_mono.
  - apply (hrg_shared main P (cfg_of h id) id false p (λ _, True) hw0 hw); [done|apply cfg_of_id|done|done|].
    eapply lrg_mono; [apply Hp|]. by intros b a w ->.
  - by intros h' a hw' (-> & _ & ?).
Qed.

Lemma monitor_lawful ticks id hw :
  id ∈ plugins h →
  hrg false (Some P) None (with_manager h id tt (λ m, MonitorLoop m ticks)) (λ h _ _, h = None) hw.
Proof.
  intros Hid. apply with_manager_hrg; [done|]. eapply hrg_mono.
  - apply (shared_op false id _ hw hw); [by apply covered|intros w; apply monitor_rg|done].
  - by intros h' a hw' [-> _].
Qed.

(** Closing the host among others: when it has returned every manager is shut. *)
Lemma Host_Close_shuts hw :
  hrg true (Some P) None (Host_Close h) (λ h' _ hw', h' = None
    ∧ (∀ id, id ∈ plugins h → shut (hw' id)) ∧ rely true (Some P) None hw hw') hw.
Proof.
  eapply hrg_mono; [apply (hrg_fold_range _ _ (plugins h) _ _ (λ rest hw',
    (∃ seen, plugins h = seen ++ rest ∧ ∀ id, id ∈ seen → shut (hw' id)) ∧ rely true (Some P) None hw hw'))|].
  - intros rest hw1 hw2 H12 [(seen & E & Hs) H1]. split; [|by etrans]. exists seen. split; [done|].
    intros id Hid. eapply rely_later; [exact H12| |by apply Hs].
    apply covered. rewrite E. apply elem_of_app. by left.
  - split; [|done]. exists []. split; [done|]. by intros id ?%elem_of_nil.
  - intros id rest acc hw1 [(seen & E & Hs) H1]. apply hrg_bind.
    assert (id ∈ plugins h) as Hid by (rewrite E; apply elem_of_app; right; by left).
    apply with_manager_hrg; [done|]. eapply hrg_mono.
    + apply (hrg_shared true P (cfg_of h id) id false (Manager_Close (cfg_of h id)) shut hw1 hw1);
        [by apply covered|apply cfg_of_id|by intros w w'|done|apply Close_shut].
    + intros h' r hw2 (-> & Hsh & H2) hw3 H3. split; [done|]. split; [|by etrans; [|etrans]].
      exists (seen ++ [id]). split; [by rewrite <- app_assoc|]. intros j Hj.
      eapply rely_later; [exact H3| |].
      * apply covered. rewrite E. apply elem_of_app in Hj as [Hj|Hj]; [set_solver|].
        apply list_elem_of_singleton in Hj as ->. set_solver.
      * apply elem_of_app in Hj as [Hj|Hj]; [|by apply list_elem_of_singleton in Hj as ->].
        eapply rely_later; [exact H2| |by apply Hs]. apply covered. rewrite E. set_solver.
  - intros h' r hw' (-> & (seen & E & Hs) & Hr). split; [done|]. split; [|done].
    intros id Hid. apply Hs. by rewrite E, app_nil_r in Hid.
Qed.
End Host.
End Operations.
