(* ===== verification/GoFlag.v ===== *)
(** * Package flag

    FlagSet.Parse with ContinueOnError: flags with one or two dashes, values
    after an equals sign or in the next argument, boolean flags without one,
    the terminator and the first non-flag argument.  The readers of numbers
    with a base prefix (strconv.ParseUint and ParseInt with base 0) and of
    durations (time.ParseDuration) are a parameter, the class [FlagReaders]. *)

From S2P Require Import Prelude GoText.

Inductive flag_kind : Type := KString | KBool | KUint64 | KInt | KDuration.

Inductive flag_value : Type :=
| FString (s : string)
| FBool (b : bool)
| FUint64 (n : Z)
| FInt (n : Z)
| FDuration (n : Z).

Class FlagReaders := {
  read_uint : string → result Z;
  read_int : string → result Z;
  ParseDuration : string → result Z;
}.

(** flag.ErrHelp, or a failure with its message. *)
Inductive flag_error : Type := ErrHelp | FlagFailed (e : error).

(** strconv.ParseBool *)
Definition ParseBool (s : string) : result bool :=
  if bool_decide (s ∈ ["1"; "t"; "T"; "true"; "TRUE"; "True"]) then Ok true
  else if bool_decide (s ∈ ["0"; "f"; "F"; "false"; "FALSE"; "False"]) then Ok false
  else Err (errors_New "parse error").

(** The name of a flag and the value given after an equals sign. *)
Fixpoint cut_value (s : string) : string * option string :=
  match s with
  | "" => ("", None)
  | String c t =>
      if decide (c = "="%char) then ("", Some t)
      else let '(name, value) := cut_value t in (String c name, value)
  end.

(** What one argument is. *)
Inductive flag_arg : Type :=
| NotFlag
| Terminator
| BadSyntax
| FlagArg (name : string) (value : option string).

Definition dash : ascii := "-".

Definition flag_arg_of (s : string) : flag_arg :=
  match s with
  | String c0 (String c1 rest as name1) =>
      if negb (bool_decide (c0 = dash)) then NotFlag
      else
        let double := bool_decide (c1 = dash) in
        if double && bool_decide (rest = "") then Terminator
        else
          let name := if double then rest else name1 in
          match name with
          | "" => BadSyntax
          | String c _ =>
              if bool_decide (c = dash) || bool_decide (c = "="%char) then BadSyntax
              else let '(name, value) := cut_value name in FlagArg name value
          end
  | _ => NotFlag
  end.

Section Parse.
Context `{UnicodeTables} `{FlagReaders}.

Definition set_flag (kind : flag_kind) (value : string) : result flag_value :=
  match kind with
  | KString => Ok (FString value)
  | KBool => b ← ParseBool value; Ok (FBool b)
  | KUint64 => n ← read_uint value; Ok (FUint64 n)
  | KInt => n ← read_int value; Ok (FInt n)
  | KDuration => n ← ParseDuration value; Ok (FDuration n)
  end.

(** The flags the caller declared, and those found so far. *)
Variable formal : gmap string flag_kind.

(** Parse: the flags set and the remaining arguments. *)
Fixpoint parse_flags (args : list string) (actual : gmap string flag_value)
  : flag_error + gmap string flag_value * list string :=
  match args with
  | [] => inr (actual, [])
  | s :: rest =>
      match flag_arg_of s with
      | NotFlag => inr (actual, args)
      | Terminator => inr (actual, rest)
      | BadSyntax => inl (FlagFailed (errors_New ("bad flag syntax: " +:+ s)))
      | FlagArg name value =>
          match formal !! name with
          | None =>
              if bool_decide (name = "help") || bool_decide (name = "h") then inl ErrHelp
              else inl (FlagFailed (errors_New ("flag provided but not defined: -" +:+ name)))
          | Some KBool =>
              match set_flag KBool (default "true" value) with
              | Ok v => parse_flags rest (<[name := v]> actual)
              | Err e => inl (FlagFailed (errors_New ("invalid boolean value "
                           +:+ Quote (default "true" value) +:+ " for -" +:+ name +:+ ": " +:+ err_msg e)))
              end
          | Some kind =>
              let set value k :=
                match set_flag kind value with
                | Ok v => k (<[name := v]> actual)
                | Err e => inl (FlagFailed (errors_New ("invalid value " +:+ Quote value
                             +:+ " for flag -" +:+ name +:+ ": " +:+ err_msg e)))
                end in
              match value, rest with
              | Some value, _ => set value (parse_flags rest)
              | None, value :: rest => set value (parse_flags rest)
              | None, [] => inl (FlagFailed (errors_New ("flag needs an argument: -" +:+ name)))
              end
          end
      end
  end.

Definition Parse (args : list string) : flag_error + gmap string flag_value * list string :=
  parse_flags args ∅.
End Parse.

(** The value of a flag with its default. *)
Definition get_string (actual : gmap string flag_value) (name dflt : string) : string :=
  match actual !! name with Some (FString s) => s | _ => dflt end.
Definition get_bool (actual : gmap string flag_value) (name : string) (dflt : bool) : bool :=
  match actual !! name with Some (FBool b) => b | _ => dflt end.
Definition get_number (actual : gmap string flag_value) (name : string) (dflt : Z) : Z :=
  match actual !! name with
  | Some (FUint64 n) | Some (FInt n) | Some (FDuration n) => n
  | _ => dflt
  end.
