(* ===== verification/Admin.v ===== *)
(** * The admin RPC surface (src/internal/adminrpc/adminrpc.go)

    The handlers of the admin service, each a program over the host's calls,
    and the socket server around them.  The argument and reply types of
    net/rpc are one inductive each, a constructor per method. *)

From S2P Require Import Prelude Prog GoText PluginID Runtime PluginApi Manager Host.

(** ** Methods *)

Definition ServiceName : string := "Admin".
Definition MethodStatus : string := ServiceName +:+ ".Status".
Definition MethodRestart : string := ServiceName +:+ ".Restart".
Definition MethodPlugins : string := ServiceName +:+ ".Plugins".
Definition MethodPlugin : string := ServiceName +:+ ".Plugin".
Definition MethodCapabilities : string := ServiceName +:+ ".Capabilities".
Definition MethodRoutes : string := ServiceName +:+ ".Routes".
Definition MethodEcho : string := ServiceName +:+ ".Echo".
Definition MethodHeartbeat : string := ServiceName +:+ ".Heartbeat".

Record PluginRequest : Type := mkPluginRequest { pr_PluginID : string }.
Definition RestartRequest : Type := PluginRequest.
Definition HeartbeatRequest : Type := PluginRequest.
Record EchoRequest : Type := mkEchoRequest { eq_PluginID : string; eq_Message : string }.

(** A method with its argument. *)
Inductive admin_request : Type :=
| AStatus
| APlugins
| APlugin (in_ : PluginRequest)
| ACapabilities
| ARoutes
| AEcho (in_ : EchoRequest)
| AHeartbeat (in_ : HeartbeatRequest)
| ARestart (in_ : RestartRequest).

Inductive admin_reply : Type :=
| RHostState (out : HostState)
| RState (out : State)
| RCapabilities (out : gmap string (list string))
| RRoutes (out : list Route)
| REcho (Message : string)
| RHeartbeat (out : HeartbeatResponse).

Definition admin_method (r : admin_request) : string :=
  match r with
  | AStatus => MethodStatus
  | APlugins => MethodPlugins
  | APlugin _ => MethodPlugin
  | ACapabilities => MethodCapabilities
  | ARoutes => MethodRoutes
  | AEcho _ => MethodEcho
  | AHeartbeat _ => MethodHeartbeat
  | ARestart _ => MethodRestart
  end.

(** ** Handlers

    A handler answers its reply, or the error that leaves the reply unset.
    [None] is a nil [Service.Host]. *)
Section Service.
Context `{UnicodeTables}.

Definition with_host {A} (host : option Host) (f : Host → prog hostE (result A))
  : prog hostE (result A) :=
  match host with
  | None => Ret (Err (errors_New "host is required"))
  | Some h => f h
  end.

Definition Service_Status (host : option Host) : prog hostE (result HostState) :=
  with_host host (λ h, out ← Host_State h; Ret (Ok out)).

Definition Service_Plugins (host : option Host) : prog hostE (result HostState) :=
  with_host host (λ h, out ← Host_State h; Ret (Ok out)).

Definition Service_Plugin (host : option Host) (in_ : PluginRequest) : prog hostE (result State) :=
  with_host host (λ h,
    match ValidatePluginID (pr_PluginID in_) with
    | Some e => Ret (Err e)
    | None => Host_Plugin h (pr_PluginID in_)
    end).

Definition Service_Capabilities (host : option Host)
  : prog hostE (result (gmap string (list string))) :=
  with_host host (λ h, caps ← CapabilityMap h; Ret (Ok caps)).

Definition Service_Routes (host : option Host) : prog hostE (result (list Route)) :=
  with_host host (λ h, routes ← Routes h; Ret (Ok routes)).

Definition Service_Echo (host : option Host) (in_ : EchoRequest) : prog hostE (result string) :=
  with_host host (λ h,
    match ValidatePluginID (eq_PluginID in_) with
    | Some e => Ret (Err e)
    | None => Host_Echo h (eq_PluginID in_) (eq_Message in_)
    end).

Definition Service_Heartbeat (host : option Host) (in_ : HeartbeatRequest)
  : prog hostE (result HeartbeatResponse) :=
  with_host host (λ h,
    match ValidatePluginID (pr_PluginID in_) with
    | Some e => Ret (Err e)
    | None =>
        r ← Host_Heartbeat h (pr_PluginID in_);
        match r.2 with Some e => Ret (Err e) | None => Ret (Ok r.1) end
    end).

Definition Service_Restart (host : option Host) (in_ : RestartRequest)
  : prog hostE (result State) :=
  with_host host (λ h,
    match ValidatePluginID (pr_PluginID in_) with
    | Some e => Ret (Err e)
    | None => RestartPlugin h (pr_PluginID in_)
    end).

Definition reply_with {A} (f : A → admin_reply) (p : prog hostE (result A))
  : prog hostE (result admin_reply) :=
  r ← p; Ret (a ← r; Ok (f a)).

(** The methods net/rpc finds on the registered [Service]. *)
Definition handle (host : option Host) (r : admin_request) : prog hostE (result admin_reply) :=
  match r with
  | AStatus => reply_with RHostState (Service_Status host)
  | APlugins => reply_with RHostState (Service_Plugins host)
  | APlugin in_ => reply_with RState (Service_Plugin host in_)
  | ACapabilities => reply_with RCapabilities (Service_Capabilities host)
  | ARoutes => reply_with RRoutes (Service_Routes host)
  | AEcho in_ => reply_with REcho (Service_Echo host in_)
  | AHeartbeat in_ => reply_with RHeartbeat (Service_Heartbeat host in_)
  | ARestart in_ => reply_with RState (Service_Restart host in_)
  end.
End Service.

(** ** The socket server *)

Inductive adminE : Type → Type :=
| VSys {X : Type} (e : sysE X) : adminE X
| VRegisterName : adminE (option error)            (* rpc.Server.RegisterName *)
| VGoCloseOnDone (path : string) : adminE unit     (* the goroutine that closes the listener *)
| VAccept (path : string) : adminE (result conn)
| VDone : adminE bool                              (* whether ctx is done *)
| VServeConn (c : conn) : adminE unit              (* go server.ServeConn(conn) *)
| VDial (path : string) (timeout : Z) : adminE (result conn).

Definition admin_sys {A} (p : prog sysE A) : prog adminE A := translate (λ X, @VSys X) p.

Definition registerAdminService : prog adminE (option error) :=
  e ← trigger VRegisterName;
  match e with
  | Some e => Ret (Some (errors_Wrap "register admin rpc" e))
  | None => Ret None
  end.

(** The accept loop, for [n] connections: [None] when it is still running. *)
Fixpoint accept_admin (n : nat) (socketPath : string) : prog adminE (option (option error)) :=
  match n with
  | O => Ret None
  | S n' =>
      c ← trigger (VAccept socketPath);
      match c with
      | Err e =>
          done ← trigger VDone;
          if done : bool then Ret (Some None)
          else Ret (Some (Some (errors_Wrap "accept admin socket" e)))
      | Ok c => trigger (VServeConn c) ;; accept_admin n' socketPath
      end
  end.

Definition serve (n : nat) (socketPath : string)
    (listenUnix : string → prog adminE (option error))
    (registerService : prog adminE (option error)) : prog adminE (option (option error)) :=
  listener ← listenUnix socketPath;
  match listener with
  | Some e => Ret (Some (Some (errors_Wrap "listen admin socket" e)))
  | None =>
      let deferred :=
        trigger (VSys (CloseListener socketPath)) ;;
        _ ← trigger (VSys (Remove socketPath)); Ret tt in
      reg ← registerService;
      match reg with
      | Some e => deferred ;; Ret (Some (Some e))
      | None =>
          trigger (VGoCloseOnDone socketPath) ;;
          out ← accept_admin n socketPath;
          match out with
          | None => Ret None
          | Some out => deferred ;; Ret (Some out)
          end
      end
  end.

Definition Serve (n : nat) (socketPath : string) : prog adminE (option (option error)) :=
  serve n socketPath (λ p, admin_sys (ListenUnix p)) registerAdminService.

Definition Dial (socketPath : string) (timeout : Z) : prog adminE (result conn) :=
  c ← trigger (VDial socketPath timeout);
  match c with
  | Err e => Ret (Err (errors_Wrap "dial admin socket" e))
  | Ok c => Ret (Ok c)
  end.
