(* ===== verification/AdminFacts.v ===== *)
(** * What the admin surface guarantees

    The handlers act on the plugin they name and on nothing else; the server
    leaves no listener and no socket behind. *)

From stdpp Require Import functions.
From S2P Require Import Prelude Prog GoText GoPath PluginID Runtime PluginApi Manager ManagerWorld ManagerFacts ManagerProps ManagerDemo Host HostFacts HostDemo Admin.

(** The plugin a request names, and the plugin it may change. *)
Definition target (r : admin_request) : option string :=
  match r with
  | APlugin in_ | AHeartbeat in_ | ARestart in_ => Some (pr_PluginID in_)
  | AEcho in_ => Some (eq_PluginID in_)
  | _ => None
  end.

Definition acts_on (r : admin_request) : option string :=
  match r with APlugin _ => None | _ => target r end.

Section Handlers.
Context `{UnicodeTables}.
Implicit Types hw : hosts_world.
Variable h : Host.
Hypothesis h_ok : host_ok h.

Notation wp := (wp host_step).

(** Nothing changed anywhere. *)
Definition same hw hw' : Prop := ∀ j, hw' j = hw j.

Lemma wp_reply {A} f (p : prog hostE (result A)) Q hw :
  wp p (λ r hw', Q (match r with Ok a => Ok (f a) | Err e => Err e end) hw') hw →
  wp (reply_with f p) Q hw.
Proof. intros Hp. apply wp_bind. eapply wp_mono; [exact Hp|]. by intros [a|e]. Qed.

Lemma Host_State_shown hw :
  wp (Host_State h)
    (λ out hw', hs_Plugins out = shown h hw <$> plugins h
       ∧ hs_Routes out = route_of <$> hs_Plugins out ∧ same hw hw') hw.
Proof.
  unfold Host_State. apply wp_bind. eapply wp_mono; [by apply Host_State_loop|].
  intros out hw' [[Vp Vr _ _] Hj]. done.
Qed.

Lemma managers_shown id m hw : managers h !! id = Some m → snapshot m (w_m (hw id)) = shown h hw id.
Proof. intros Hm. unfold shown, cfg_of. by rewrite Hm. Qed.

Lemma Host_Plugin_spec id hw :
  wp (Host_Plugin h id) (λ r hw', same hw hw' ∧
    r = match managers h !! id with Some _ => Ok (shown h hw id) | None => Err (unknown_plugin id) end) hw.
Proof.
  unfold Host_Plugin, Host_Manager. destruct (managers h !! id) as [m|] eqn:Hm; [|done].
  eapply wp_at_seq; [apply Manager_State_spec|]. intros st hw' [-> Hid] Ho. simpl.
  rewrite (managers_shown id m) by done. split; [|done].
  intros j. destruct (decide (j = id)) as [->|Hne]; [done|by apply Ho].
Qed.

(** The routed operations: an unknown plugin is an error without effect, a
    known one runs the operation on its own manager. *)
Lemma RouteTarget_seq {B} id (k : result (Route * Config) → prog hostE B) Q hw :
  (managers h !! id = None → wp (k (Err (unknown_plugin id))) Q hw) →
  (∀ m hw1, managers h !! id = Some m → same hw hw1 →
    wp (k (Ok (route_of (shown h hw id), m))) Q hw1) →
  wp (RouteTarget h id ≫= k) Q hw.
Proof.
  intros Hn Hs. unfold RouteTarget, Host_Manager.
  destruct (managers h !! id) as [m|] eqn:Hm; [|by apply Hn].
  apply wp_bind. eapply wp_at_seq; [apply Manager_State_spec|]. intros st hw' [-> Hid] Ho. simpl.
  rewrite (managers_shown id m) by done. apply Hs; [done|].
  intros j. destruct (decide (j = id)) as [->|Hne]; [done|by apply Ho].
Qed.

Lemma Host_Echo_spec id message hw :
  wp (Host_Echo h id message) (λ r hw', only id hw hw'
    ∧ (managers h !! id = None → r = Err (unknown_plugin id) ∧ same hw hw')) hw.
Proof.
  apply RouteTarget_seq; [done|]. intros m hw1 Hm Hs.
  eapply wp_mono; [by apply wp_at, (wp_any _ _ (λ _ _, True))|]. intros r hw2 [_ Ho]. split; [|by rewrite Hm].
  intros j Hj. by rewrite Ho.
Qed.

Lemma Host_Heartbeat_spec id hw :
  wp (Host_Heartbeat h id) (λ r hw', only id hw hw'
    ∧ (managers h !! id = None → r.2 = Some (unknown_plugin id) ∧ same hw hw')) hw.
Proof.
  apply RouteTarget_seq; [done|]. intros m hw1 Hm Hs.
  eapply wp_mono; [by apply wp_at, (wp_any _ _ (λ _ _, True))|]. intros r hw2 [_ Ho]. split; [|by rewrite Hm].
  intros j Hj. by rewrite Ho.
Qed.

(** A restart from [hw] to [hw'] that succeeds: [st] is what the host now shows
    of the plugin, a healthy new generation. *)
Definition replaced hw hw' id (st : State) : Prop :=
  st = shown h hw' id ∧ st_Healthy st = true ∧ st_PluginID st = id
  ∧ st_GenerationID st = next_generation (hw id).

Lemma RestartPlugin_spec id hw :
  wp (RestartPlugin h id) (λ r hw', only id hw hw'
    ∧ (managers h !! id = None → r = Err (unknown_plugin id) ∧ same hw hw')
    ∧ (Inv (cfg_of h id) (hw id) → ∀ st, r = Ok st → replaced hw hw' id st)) hw.
Proof.
  unfold RestartPlugin, Host_Call, CallRequest. apply wp_bind. cbn [rq_PluginID].
  apply RouteTarget_seq.
  { intros Hm. simpl. by split_and!. }
  intros m hw1 Hm Hs. cbn [rq_Call].
  destruct (decide (RoutedCallRestart = RoutedCallHeartbeat)) as [E|_]; [by vm_compute in E|].
  destruct (decide (RoutedCallRestart = RoutedCallEcho)) as [E|_]; [by vm_compute in E|].
  destruct (decide (RoutedCallRestart = RoutedCallRestart)) as [_|E]; [|done].
  assert (cfg_of h id = m) as Hcfg by (unfold cfg_of; by rewrite Hm).
  eapply (wp_at_seq _ _ _ (λ r w', Inv m (hw id) → restarted m (hw id) r w')).
  { rewrite <- Hs. apply wp_complete. intros r w' He Hi.
    exact (wp_sound _ _ _ _ _ _ (Restart_spec m (hw1 id) Hi) He). }
  intros [e|] hw2 Hr Ho2.
  { simpl. split_and!; [intros j Hj; by rewrite Ho2|by rewrite Hm|done]. }
  eapply wp_at_seq; [apply Manager_State_spec|]. intros st hw3 [-> Hid] Ho3. simpl.
  split_and!; [intros j Hj; by rewrite Ho3, Ho2|by rewrite Hm|].
  rewrite Hcfg. intros Hi st [= <-]. destruct (Hr Hi) as (p & c & _ & _ & _ & _ & Hh & Hpid & Hg & _).
  pose proof (ho_ids h h_ok id m Hm) as Hmid. unfold replaced. split.
  - unfold shown. by rewrite Hcfg, Hid.
  - unfold snapshot. simpl. by rewrite Hh, Hpid, Hg.
Qed.

(** A handler that first checks the plugin id. *)
Lemma checked_spec {A} id (p : prog hostE (result A)) Q hw :
  (∀ e, valid_id id = false → Q (Err e) hw) → (valid_id id = true → wp p Q hw) →
  wp (match ValidatePluginID id with Some e => Ret (Err e) | None => p end) Q hw.
Proof.
  intros He Hp. destruct (ValidatePluginID id) as [e|] eqn:Hv.
  - apply He. destruct (valid_id id) eqn:Hid; [|done].
    by rewrite (proj2 (ValidatePluginID_valid id) Hid) in Hv.
  - by apply Hp, ValidatePluginID_valid.
Qed.

(** C11. The admin service acts on the plugin a request names and on nothing
    else.  Every request leaves all other plugins' worlds as they are, and
    Status, Plugins, Plugin, Capabilities and Routes leave all of them; a
    request for an invalid or unknown id is an error without any effect;
    Status, Plugins, Plugin and Routes answer what the host shows; a
    successful Restart of a plugin in order answers the state the host then
    shows of it, a healthy new generation.  Without a host every request is an error. *)
Theorem Admin_serves r hw :
  wp (handle None r) (λ reply hw', reply = Err (errors_New "host is required") ∧ hw' = hw) hw
  ∧ wp (handle (Some h) r) (λ reply hw',
      (∀ j, acts_on r ≠ Some j → hw' j = hw j)
      ∧ (∀ id, target r = Some id → valid_id id = false ∨ managers h !! id = None →
           (∃ e, reply = Err e) ∧ same hw hw')
      ∧ match r with
        | AStatus | APlugins => ∃ out, reply = Ok (RHostState out)
            ∧ hs_Plugins out = shown h hw <$> plugins h
            ∧ hs_Routes out = route_of <$> hs_Plugins out
        | ARoutes => reply = Ok (RRoutes (route_of <$> (shown h hw <$> plugins h)))
        | APlugin in_ => ∀ a, reply = Ok a → a = RState (shown h hw (pr_PluginID in_))
        | ARestart in_ => Inv (cfg_of h (pr_PluginID in_)) (hw (pr_PluginID in_)) →
            ∀ a, reply = Ok a → ∃ st, a = RState st ∧ replaced hw hw' (pr_PluginID in_) st
        | _ => True
        end) hw.
Proof.
  split; [by destruct r|].
  destruct r as [| |[id]| | |[id message]|[id]|[id]]; cbn [handle target acts_on pr_PluginID eq_PluginID];
    apply wp_reply; cbn [Service_Status Service_Plugins Service_Plugin Service_Capabilities
      Service_Routes Service_Echo Service_Heartbeat Service_Restart with_host pr_PluginID eq_PluginID eq_Message].
  - apply wp_bind. eapply wp_mono; [apply Host_State_shown|].
    intros out hw' (? & ? & Hs). cbn beta iota. split_and!; [by intros j _|done|by exists out].
  - apply wp_bind. eapply wp_mono; [apply Host_State_shown|].
    intros out hw' (? & ? & Hs). cbn beta iota. split_and!; [by intros j _|done|by exists out].
  - apply checked_spec; [by intros e He; cbn beta iota; split_and!; [done|intros id' _ _; split; [by exists e|done]|]|]. intros Hv. eapply wp_mono; [apply Host_Plugin_spec|].
    intros r hw' [Hs ->]. cbn beta iota. split_and!; [by intros j _| |].
    + intros id' [= <-] [|Hm]; [congruence|]. rewrite Hm. by eauto.
    + intros a. destruct (managers h !! id); [by intros [= <-]|done].
  - apply wp_bind, wp_bind. eapply wp_mono; [apply Host_State_shown|].
    intros out hw' (? & ? & Hs). cbn beta iota. by split_and!.
  - apply wp_bind, wp_bind. eapply wp_mono; [apply Host_State_shown|].
    intros out hw' (Hp & Hr & Hs). cbn beta iota. split_and!; [by intros j _|done|]. by rewrite Hr, Hp.
  - apply checked_spec; [by intros e He; cbn beta iota; split_and!; [done|intros id' _ _; split; [by exists e|done]|]|]. intros Hv. eapply wp_mono; [apply Host_Echo_spec|].
    intros r hw' [Ho Hn]. cbn beta iota. split_and!; [intros j Hj; apply Ho; congruence| |done].
    intros id' [= <-] [|Hm]; [congruence|]. destruct (Hn Hm) as [-> Hs]. by eauto.
  - apply checked_spec; [by intros e He; cbn beta iota; split_and!; [done|intros id' _ _; split; [by exists e|done]|]|]. intros Hv. apply wp_bind.
    eapply wp_mono; [apply Host_Heartbeat_spec|]. intros [out e] hw' [Ho Hn]. simpl in *.
    assert (∀ j, Some id ≠ Some j → hw' j = hw j) as Ho' by (intros j Hj; apply Ho; congruence).
    destruct e as [e|]; simpl; split_and!; try done; intros id' [= <-] [|Hm]; try congruence;
      destruct (Hn Hm) as [[=] Hs]; by eauto.
  - apply checked_spec; [by intros e He; cbn beta iota; split_and!; [done|intros id' _ _; split; [by exists e|done]|]|]. intros Hv. eapply wp_mono; [apply RestartPlugin_spec|].
    intros r hw' (Ho & Hn & Hr). cbn beta iota. split_and!; [intros j Hj; apply Ho; congruence| |].
    + intros id' [= <-] [|Hm]; [congruence|]. destruct (Hn Hm) as [-> Hs]. by eauto.
    + intros Hi a Ha. destruct r as [st|e]; [|done]. injection Ha as <-. eauto.
Qed.
End Handlers.

(** ** The socket server *)

(** What the server holds, what its context and its clients did. *)
Record serve_world : Type := mkServeWorld {
  sv_listening : bool;
  sv_socket : bool;          (* the socket file is there *)
  sv_refused : bool;         (* the operating system refused to remove it *)
  sv_registered : bool;
  sv_done : bool;            (* the context has ended *)
  sv_served : list conn;
}.

(** Every answer is possible, except that an ended context stays so. *)
Definition serve_step (X : Type) (e : adminE X) : serve_world → X → serve_world → Prop :=
  match e with
  | VSys e => match e with
      | ListenSocket _ => λ w x w', w' = match x with
          | None => {| ({| w with sv_listening := true |}) with sv_socket := true |}
          | Some _ => w
          end
      | CloseListener _ => λ w _ w', w' = {| w with sv_listening := false |}
      | Remove _ => λ w x w', w' = match x with
          | None => {| w with sv_socket := false |}
          | Some _ => {| w with sv_refused := true |}
          end
      | _ => λ w _ w', w' = w
      end
  | VRegisterName => λ w x w', w' = {| w with sv_registered := bool_decide (x = None) |}
  | VGoCloseOnDone _ => λ w _ w', w' = w
  | VAccept _ => λ w _ w', w' = w
  | VDone => λ w x w', (sv_done w = true → x = true) ∧ w' = {| w with sv_done := x |}
  | VServeConn c => λ w _ w', w' = {| w with sv_served := sv_served w ++ [c] |}
  | VDial _ _ => λ w _ w', w' = w
  end.

Notation serves p Q w := (wp serve_step p Q w).

Definition serve0 : serve_world := mkServeWorld false false false false false [].

(** Nothing of the server is left. *)
Definition cleaned (w : serve_world) : Prop :=
  sv_listening w = false ∧ (sv_socket w = false ∨ sv_refused w = true).

Lemma accept_admin_spec n path w :
  sv_registered w = true → sv_listening w = true →
  serves (accept_admin n path) (λ r w', sv_registered w' = true ∧ sv_listening w' = true
    ∧ match r with
      | None => length (sv_served w') = (length (sv_served w) + n)%nat
      | Some out => sv_done w' = bool_decide (out = None)
      end) w.
Proof.
  revert w. induction n as [|n IH]; intros w Hr Hl; [simpl; split_and!; [done..|lia]|].
  intros c w1 ->. destruct c as [c|e].
  - intros u w2 ->. eapply wp_mono; [by apply IH|]. intros [out|] w3 (? & ? & Hout); [done|].
    split_and!; [done..|]. rewrite Hout. simpl. rewrite length_app. simpl. lia.
  - intros done w2 [_ ->]. by destruct done.
Qed.

Lemma ListenUnix_serves path w :
  cleaned w → sv_registered w = false → sv_served w = [] →
  serves (admin_sys (ListenUnix path)) (λ r w', sv_registered w' = false ∧ sv_served w' = []
    ∧ match r with
      | Some _ => cleaned w'
      | None => sv_listening w' = true
      end) w.
Proof.
  intros [Hl Hs] Hr Hv. unfold ListenUnix, admin_sys. simpl. intros rm w1 ->.
  intros l w2 ->. destruct l as [e|]; simpl.
  { destruct rm; repeat split; simpl; auto. }
  intros ch w3 ->. destruct ch as [e|]; simpl; [|by destruct rm].
  intros u w4 -> rm2 w5 ->. destruct rm, rm2; repeat split; simpl; auto.
Qed.

(** What [Serve] leaves after at most [n] connections.  When it returns, its
    listener is closed and its socket file removed (unless the operating
    system refused to remove it); it returns nil only after its context
    ended, and no connection is served before the service is registered;
    while it has not returned it is listening, registered, and has served one
    connection per round. *)
Definition served (n : nat) (r : option (option error)) (w' : serve_world) : Prop :=
  match r with
  | Some out => cleaned w' ∧ (out = None → sv_done w' = true)
  | None => sv_listening w' = true ∧ sv_registered w' = true ∧ length (sv_served w') = n
  end
  ∧ (sv_served w' ≠ [] → sv_registered w' = true).

Lemma Serve_spec n path : serves (Serve n path) (served n) serve0.
Proof.
  unfold served.
  unfold Serve, serve. apply wp_bind.
  eapply wp_mono; [apply ListenUnix_serves; [by split; [|left]|done..]|].
  intros [e|] w (Hr & Hv & Hc); [by split|].
  apply wp_bind. intros reg w1 ->. destruct reg as [e|].
  { intros u w2 -> rm w3 ->. destruct rm; repeat split; simpl; auto; by rewrite ?Hv. }
  intros u w2 ->. apply wp_bind.
  eapply wp_mono; [by apply accept_admin_spec|]. intros [out|] w3 (Hr3 & Hl3 & Hout).
  - intros u3 w4 -> rm w5 ->. destruct rm; simpl; rewrite Hout; split_and!; try done;
      try (split; auto); by intros ->.
  - simpl in *. by rewrite Hout, Hv.
Qed.

(** ** A request that runs *)

Lemma Admin_serves_witness :
  let out := run host_run
    (handle (H := ascii_tables) (Some one) (ARestart (mkPluginRequest "echo"))) hosts0 in
  (∃ st, out.2 = Ok (RState st) ∧ st_Healthy st = true ∧ st_PluginID st = "echo"
     ∧ st_GenerationID st = 1)
  ∧ out.1 "pay" = hosts0 "pay".
Proof.
  intros out.
  destruct (Admin_serves (H := ascii_tables) one one_ok (ARestart (mkPluginRequest "echo")) hosts0)
    as [_ Hs].
  apply (wp_run _ _ host_run_ok) in Hs as (Ho & _ & Hr). fold out in Ho, Hr.
  split; [|apply Ho; simpl; congruence].
  assert (result_is_ok out.2 = true) as Hok by (vm_compute; reflexivity).
  destruct out.2 as [a|e]; [|discriminate Hok].
  destruct (Hr (Inv_world0 _) a eq_refl) as (st & -> & _ & H1 & H2 & H3).
  exists st. split; [reflexivity|]. split; [exact H1|]. split; [exact H2|]. rewrite H3. reflexivity.
Defined.
