(* ===== verification/Daemon.v ===== *)
(** * The daemon (src/cmd/rpcplugind/main.go)

    The settings of the daemon, from flags, a TOML file and defaults, and its
    run from the command line to its exit code.  The TOML decoder (a
    third-party package) and the temporary directory (os.TempDir) are
    parameters. *)

From S2P Require Import Prelude Prog GoText GoPath GoFlag PluginID PluginApi Manager Host Admin.

(** ** Settings *)

Record daemonOptions : Type := mkDaemonOptions {
  do_ConfigPath : string;
  do_RuntimeDir : string;
  do_PluginsArg : string;
  do_PluginID : string;
  do_PluginPath : string;
  do_DialTimeout : Z;
  do_CallTimeout : Z;
  do_HeartbeatEvery : Z;
  do_ExplicitFlags : gset string;
}.

Record resolvedDaemonConfig : Type := mkResolved {
  rc_Host : HostConfig;
  rc_AdminSocket : string;
}.

Record tomlDaemonSection : Type := mkTomlDaemon {
  td_RuntimeDir : string;
  td_DialTimeout : string;
  td_CallTimeout : string;
  td_HeartbeatEvery : string;
}.

Record tomlPluginSection : Type := mkTomlPlugin { tp_ID : string; tp_Path : string }.

Record tomlDaemonConfig : Type := mkToml {
  tc_Daemon : tomlDaemonSection;
  tc_Plugins : list tomlPluginSection;
}.

Definition toml0 : tomlDaemonConfig := mkToml (mkTomlDaemon "" "" "" "") [].

(** ** Calls *)

Inductive daemonE : Type → Type :=
| DReadFile (path : string) : daemonE (result string)
| DFlagOutput (name : string) (e : flag_error) : daemonE unit  (* what the FlagSet prints *)
| DLog (e : error) : daemonE unit                              (* logger.Print *)
| DNotifySignal : daemonE unit                                 (* signal.NotifyContext *)
| DCancel : daemonE unit
| DHost {X : Type} (e : hostE X) : daemonE X
| DGo (p : prog hostE unit) : daemonE unit                     (* go p() *)
| DAdmin {X : Type} (host : Host) (e : adminE X) : daemonE X.  (* of the server of [host] *)

Definition daemon_host {A} (p : prog hostE A) : prog daemonE A := translate (λ X, @DHost X) p.
Definition daemon_admin {A} (host : Host) (p : prog adminE A) : prog daemonE A :=
  translate (λ X, @DAdmin X host) p.

Section Config.
Context `{UnicodeTables} `{FlagReaders}.
Variable temp_dir : string.
Variable toml_decode : string → result tomlDaemonConfig.

Definition defaultRuntimeDir (value : string) : string :=
  if negb (bool_decide (value = "")) then value else PathJoin [temp_dir; "rpc_plugin_system"].

Definition defaultDuration (value fallback : Z) : Z :=
  if negb (value =? 0) then value else fallback.

Definition chooseString (explicit : gset string) (flagName flagValue fileValue fallback : string)
  : string :=
  if bool_decide (flagName ∈ explicit) then flagValue
  else if negb (bool_decide (fileValue = "")) then fileValue
  else fallback.

Definition chooseDuration (explicit : gset string) (flagName : string) (flagValue : Z)
    (fileValue : string) (fallback : Z) : result Z :=
  if bool_decide (flagName ∈ explicit) then Ok flagValue
  else if negb (bool_decide (fileValue = "")) then ParseDuration fileValue
  else Ok fallback.

Definition plugin_config (id path : string) : PluginConfig := mkPluginConfig id path None None.

(** The loop over the comma-separated specs. *)
Fixpoint parse_specs (parts : list string) (plugins : list PluginConfig)
  : result (list PluginConfig) :=
  match parts with
  | [] => Ok plugins
  | part :: rest =>
      let part := TrimSpace part in
      match SplitN2 part "="%char with
      | [id; path] =>
          if bool_decide (id = "") || bool_decide (path = "") then
            Err (errors_New ("invalid plugin spec " +:+ Quote part +:+ ", want id=path"))
          else
            match ValidatePluginID id with
            | Some e => Err e
            | None => parse_specs rest (plugins ++ [plugin_config id path])
            end
      | _ => Err (errors_New ("invalid plugin spec " +:+ Quote part +:+ ", want id=path"))
      end
  end.

Definition parsePlugins (pluginsArg pluginID pluginPath : string) : result (list PluginConfig) :=
  if negb (bool_decide (pluginsArg = "")) then parse_specs (Split pluginsArg ","%char) []
  else if bool_decide (pluginPath = "") then
    Err (errors_New "-plugin is required when -plugins is not set")
  else
    match ValidatePluginID pluginID with
    | Some e => Err e
    | None => Ok [plugin_config pluginID pluginPath]
    end.

(** The loop over the [[plugins]] sections of the file. *)
Fixpoint parse_sections (sections : list tomlPluginSection) (plugins : list PluginConfig)
  : result (list PluginConfig) :=
  match sections with
  | [] => Ok plugins
  | plugin :: rest =>
      if bool_decide (tp_ID plugin = "") || bool_decide (tp_Path plugin = "") then
        Err (errors_New "invalid config plugin, id and path are required")
      else
        match ValidatePluginID (tp_ID plugin) with
        | Some e => Err e
        | None => parse_sections rest (plugins ++ [plugin_config (tp_ID plugin) (tp_Path plugin)])
        end
  end.

Definition resolvePlugins (opts : daemonOptions) (filePlugins : list tomlPluginSection)
  : result (list PluginConfig) :=
  let explicit name := bool_decide (name ∈ do_ExplicitFlags opts) in
  if explicit "plugins" then
    parsePlugins (do_PluginsArg opts) (do_PluginID opts) (do_PluginPath opts)
  else if explicit "plugin" || explicit "plugin-id" then
    parsePlugins "" (do_PluginID opts) (do_PluginPath opts)
  else
    match filePlugins with
    | [] => parsePlugins (do_PluginsArg opts) (do_PluginID opts) (do_PluginPath opts)
    | _ => parse_sections filePlugins []
    end.

Definition loadTOMLConfig (path : string) : prog daemonE (result tomlDaemonConfig) :=
  if bool_decide (path = "") then Ret (Ok toml0)
  else
    data ← trigger (DReadFile path);
    match data with
    | Err e => Ret (Err (errors_Wrap ("read config " +:+ path) e))
    | Ok data =>
        match toml_decode data with
        | Err e => Ret (Err (errors_Wrap ("parse config " +:+ path) e))
        | Ok cfg => Ret (Ok cfg)
        end
    end.

(** [fmt.Errorf("<setting>: %w", err)] *)
Definition wrap_result {A} (setting : string) (r : result A) : result A :=
  match r with Err e => Err (errors_Wrap setting e) | Ok a => Ok a end.

(** From the decoded file on. *)
Definition resolve_config (opts : daemonOptions) (fileCfg : tomlDaemonConfig)
  : result resolvedDaemonConfig :=
  let explicit := do_ExplicitFlags opts in
  let file := tc_Daemon fileCfg in
  let runtimeDir := chooseString explicit "runtime-dir" (do_RuntimeDir opts) (td_RuntimeDir file)
    (defaultRuntimeDir (do_RuntimeDir opts)) in
  dialTimeout ← wrap_result "dial_timeout" (chooseDuration explicit "dial-timeout"
    (do_DialTimeout opts) (td_DialTimeout file) (defaultDuration (do_DialTimeout opts) (3 * Second)));
  callTimeout ← wrap_result "call_timeout" (chooseDuration explicit "call-timeout"
    (do_CallTimeout opts) (td_CallTimeout file)
    (defaultDuration (do_CallTimeout opts) (500 * Millisecond)));
  heartbeatEvery ← wrap_result "heartbeat_every" (chooseDuration explicit "heartbeat-every"
    (do_HeartbeatEvery opts) (td_HeartbeatEvery file)
    (defaultDuration (do_HeartbeatEvery opts) (2 * Second)));
  plugins ← resolvePlugins opts (tc_Plugins fileCfg);
  Ok (mkResolved
        (mkHostConfig runtimeDir "" dialTimeout callTimeout heartbeatEvery plugins false)
        (PathJoin [runtimeDir; "admin.sock"])).

Definition parseDaemonConfig (opts : daemonOptions) : prog daemonE (result resolvedDaemonConfig) :=
  fileCfg ← loadTOMLConfig (do_ConfigPath opts);
  match fileCfg with
  | Err e => Ret (Err e)
  | Ok fileCfg => Ret (resolve_config opts fileCfg)
  end.

(** ** The run *)

(** The flags [run] declares. *)
Definition daemon_flags : gmap string flag_kind :=
  list_to_map [("config", KString); ("runtime-dir", KString); ("plugins", KString);
    ("plugin", KString); ("plugin-id", KString); ("dial-timeout", KDuration);
    ("call-timeout", KDuration); ("heartbeat-every", KDuration)].

Definition explicitFlags (actual : gmap string flag_value) : gset string := dom actual.

Definition daemon_options (actual : gmap string flag_value) : daemonOptions :=
  {| do_ConfigPath := get_string actual "config" "";
     do_RuntimeDir := get_string actual "runtime-dir" (PathJoin [temp_dir; "rpc_plugin_system"]);
     do_PluginsArg := get_string actual "plugins" "";
     do_PluginID := get_string actual "plugin-id" "echo";
     do_PluginPath := get_string actual "plugin" "";
     do_DialTimeout := get_number actual "dial-timeout" (3 * Second);
     do_CallTimeout := get_number actual "call-timeout" (500 * Millisecond);
     do_HeartbeatEvery := get_number actual "heartbeat-every" (2 * Second);
     do_ExplicitFlags := explicitFlags actual |}.

(** The dependencies of [run], with the methods of its host type. *)
Record daemonDeps (H : Type) : Type := mkDeps {
  newHost : HostConfig → prog daemonE (result H);
  deps_serve : string → H → prog daemonE (option (option error));
  deps_StartAll : H → prog daemonE (option error);
  deps_MonitorLoop : H → prog daemonE unit;
  deps_Close : H → prog daemonE (option error);
}.
#[global] Arguments newHost {H}.
#[global] Arguments deps_serve {H}.
#[global] Arguments deps_StartAll {H}.
#[global] Arguments deps_MonitorLoop {H}.
#[global] Arguments deps_Close {H}.

(** [n] connections are accepted, every monitor sees [ticks] ticks. *)
Definition productionDaemonDeps (n ticks : nat) : daemonDeps Host :=
  {| newHost cfg := daemon_host (NewHost cfg);
     deps_serve socketPath h := daemon_admin h (Serve n socketPath);
     deps_StartAll h := daemon_host (StartAll h);
     deps_MonitorLoop h := for_range (Host_MonitorLoop h ticks) (λ p, trigger (DGo p));
     deps_Close h := daemon_host (Host_Close h) |}.

(** The exit code, or [None] while the daemon is serving. *)
Definition run_daemon {H} (name : string) (args : list string) (deps : daemonDeps H)
  : prog daemonE (option Z) :=
  match Parse daemon_flags args with
  | inl e =>
      trigger (DFlagOutput name e) ;;
      Ret (Some (match e with ErrHelp => 0 | FlagFailed _ => 2 end))
  | inr (actual, _) =>
      cfg ← parseDaemonConfig (daemon_options actual);
      match cfg with
      | Err e => trigger (DLog e) ;; Ret (Some 1)
      | Ok cfg =>
          host ← newHost deps (rc_Host cfg);
          match host with
          | Err e => trigger (DLog e) ;; Ret (Some 1)
          | Ok host =>
              e ← deps_StartAll deps host;
              match e with
              | Some e => trigger (DLog e) ;; _ ← deps_Close deps host; Ret (Some 1)
              | None =>
                  trigger DNotifySignal ;;
                  deps_MonitorLoop deps host ;;
                  out ← deps_serve deps (rc_AdminSocket cfg) host;
                  match out with
                  | None => Ret None
                  | Some (Some e) =>
                      trigger (DLog e) ;;
                      trigger DCancel ;; _ ← deps_Close deps host; Ret (Some 1)
                  | Some None => trigger DCancel ;; _ ← deps_Close deps host; Ret (Some 0)
                  end
              end
          end
      end
  end.
End Config.
