(* ===== verification/DaemonFacts.v ===== *)
(** * What the daemon guarantees

    The configurations it accepts.  What it does with them is in DaemonPool. *)

From stdpp Require Import functions.
From S2P Require Import Prelude Prog GoText GoPath GoFlag PluginID Runtime PluginApi Manager ManagerWorld ManagerFacts ManagerProps Host HostFacts HostProps Admin AdminFacts Daemon.

Section Config_facts.
Context `{UnicodeTables} `{FlagReaders}.
Variable temp_dir : string.

(** A plugin as the command line or the file may give it. *)
Definition plugin_ok (p : PluginConfig) : Prop :=
  valid_id (pc_PluginID p) = true ∧ pc_PluginPath p ≠ "".

Lemma valid_nonempty id : valid_id id = true → id ≠ "".
Proof. by intros Hid ->. Qed.

Lemma plugin_config_ok id path :
  plugin_ok (plugin_config id path) ↔ ValidatePluginID id = None ∧ path ≠ "".
Proof. unfold plugin_ok. by rewrite <- ValidatePluginID_valid. Qed.

(** *** The plugins *)

(** A part "id=path" of the -plugins list, spaces around it apart. *)
Definition spec_names (part : string) (p : PluginConfig) : Prop :=
  ∃ id path, p = plugin_config id path ∧ TrimSpace part = id +:+ "=" +:+ path.

Lemma SplitN2_two s a b :
  SplitN2 s "="%char = [a; b]
  ↔ s = a +:+ "=" +:+ b ∧ string_forallb (λ c, bool_decide (c ≠ "="%char)) a = true.
Proof.
  revert a. induction s as [|c s IH]; intros a; cbn [SplitN2]; [by destruct a; split; intros; destruct_and?|].
  case_decide as Hc.
  - subst c. split; [by intros [= <- <-]|]. intros [E Ha]. destruct a as [|c a]; cbn in E; [by injection E as ->|].
    injection E as <- _. simpl in Ha. done.
  - destruct (SplitN2 s "="%char) as [|f fs] eqn:Es.
    { split; [done|]. intros [E Ha]. destruct a as [|c' a]; cbn in E; [by injection E as ->|].
      injection E as <- E. simpl in Ha. apply andb_prop in Ha as [_ Ha].
      assert ([] = [a; b]) by (by apply IH). done. }
    split.
    + intros [= <- ->]. destruct (proj1 (IH f) eq_refl) as [-> Hf]. split; [done|].
      simpl. rewrite Hf. by rewrite bool_decide_eq_true_2.
    + intros [E Ha]. destruct a as [|c' a]; cbn in E; [by injection E as ->|]. injection E as <- E.
      simpl in Ha. apply andb_prop in Ha as [_ Ha].
      assert (f :: fs = [a; b]) as [= -> ->] by (by apply IH). done.
Qed.

Lemma valid_id_no_equals id :
  valid_id id = true → string_forallb (λ c, bool_decide (c ≠ "="%char)) id = true.
Proof.
  intros Hid%valid_id_forallb. eapply string_forallb_impl; [|exact Hid].
  intros c Hc. apply bool_decide_eq_true_2. by intros ->.
Qed.

Lemma parse_specs_spec parts acc ps :
  parse_specs parts acc = Ok ps
  ↔ ∃ new, ps = acc ++ new ∧ Forall2 spec_names parts new ∧ Forall plugin_ok new.
Proof.
  revert acc. induction parts as [|part parts IH]; intros acc; cbn [parse_specs].
  { split; [intros [= <-]; exists []; by rewrite app_nil_r|].
    intros (new & -> & ->%Forall2_nil_inv_l & _). by rewrite app_nil_r. }
  split.
  - destruct (SplitN2 _ _) as [|id [|path [|]]] eqn:Es; try done. apply SplitN2_two in Es as [Es _].
    case_bool_decide as Hid; [done|]. case_bool_decide as Hpath; [done|]. cbn [orb].
    destruct (ValidatePluginID id) eqn:Hv; [done|]. rewrite IH. intros (new & -> & H1 & H2).
    exists (plugin_config id path :: new). rewrite <- app_assoc. split; [done|]. split.
    + constructor; [by exists id, path|done].
    + constructor; [by apply plugin_config_ok|done].
  - intros (new & -> & Hn & Ho). apply Forall2_cons_inv_l in Hn as (p & new' & (id & path & -> & E) & Hn & ->).
    apply Forall_cons in Ho as [[Hid Hp] Ho]. cbn in Hid, Hp.
    assert (SplitN2 (TrimSpace part) "="%char = [id; path]) as ->
      by (apply SplitN2_two; split; [done|by apply valid_id_no_equals]).
    rewrite (bool_decide_eq_false_2 (id = "")) by by apply valid_nonempty.
    rewrite (bool_decide_eq_false_2 (path = "")) by done. cbn [orb].
    rewrite (proj2 (ValidatePluginID_valid id) Hid). apply IH. exists new'. by rewrite <- app_assoc.
Qed.

Lemma parse_sections_spec sections acc ps :
  parse_sections sections acc = Ok ps
  ↔ ps = acc ++ ((λ s, plugin_config (tp_ID s) (tp_Path s)) <$> sections)
    ∧ Forall plugin_ok ((λ s, plugin_config (tp_ID s) (tp_Path s)) <$> sections).
Proof.
  revert acc. induction sections as [|s sections IH]; intros acc; cbn [parse_sections fmap list_fmap].
  { rewrite app_nil_r. split; [by intros [= <-]|by intros [-> _]]. }
  rewrite Forall_cons, plugin_config_ok.
  case_bool_decide as Hid.
  { split; [done|]. intros (_ & [Hv _] & _). apply ValidatePluginID_valid in Hv. by apply valid_nonempty in Hv. }
  case_bool_decide as Hpath; [by split; [|intros (_ & [_ ?] & _)]|]. cbn [orb].
  destruct (ValidatePluginID (tp_ID s)) eqn:Hv; [by split; [|intros (_ & [? _] & _)]|].
  rewrite IH, <- app_assoc. tauto.
Qed.

(** Where the list of plugins is taken from: -plugins when it is given, the one
    plugin of -plugin-id and -plugin when one of these is, the sections of the
    file when it has any, and the flags' defaults otherwise. *)
Inductive plugin_source : Type := FromSpecs | FromFlag | FromFile.
Definition source_of (opts : daemonOptions) (sections : list tomlPluginSection) : plugin_source :=
  let flags := if decide (do_PluginsArg opts = "") then FromFlag else FromSpecs in
  if decide ("plugins" ∈ do_ExplicitFlags opts) then flags
  else if decide ("plugin" ∈ do_ExplicitFlags opts ∨ "plugin-id" ∈ do_ExplicitFlags opts) then FromFlag
  else if decide (sections = []) then flags else FromFile.

Definition listed (opts : daemonOptions) (sections : list tomlPluginSection) (ps : list PluginConfig) : Prop :=
  match source_of opts sections with
  | FromSpecs => Forall2 spec_names (Split (do_PluginsArg opts) ","%char) ps
  | FromFlag => ps = [plugin_config (do_PluginID opts) (do_PluginPath opts)]
  | FromFile => ps = (λ s, plugin_config (tp_ID s) (tp_Path s)) <$> sections
  end.

Lemma parsePlugins_spec arg id path ps :
  parsePlugins arg id path = Ok ps
  ↔ (if decide (arg = "") then ps = [plugin_config id path]
     else Forall2 spec_names (Split arg ","%char) ps) ∧ Forall plugin_ok ps.
Proof.
  unfold parsePlugins. case_decide as Harg.
  - rewrite bool_decide_eq_true_2 by done. cbn [negb].
    case_bool_decide as Hpath.
    { split; [done|]. intros [-> Ho]. apply Forall_singleton, plugin_config_ok in Ho. by destruct Ho. }
    destruct (ValidatePluginID id) eqn:Hv.
    { split; [done|]. intros [-> Ho]. apply Forall_singleton, plugin_config_ok in Ho. destruct Ho. congruence. }
    split; [|by intros [-> _]]. intros [= <-]. split; [done|]. by apply Forall_singleton, plugin_config_ok.
  - rewrite bool_decide_eq_false_2 by done. cbn [negb]. rewrite parse_specs_spec.
    split; [by intros (new & -> & ?)|]. intros [? ?]. by exists ps.
Qed.

Lemma resolvePlugins_spec opts sections ps :
  resolvePlugins opts sections = Ok ps ↔ listed opts sections ps ∧ Forall plugin_ok ps.
Proof.
  unfold resolvePlugins, listed, source_of.
  destruct (decide ("plugins" ∈ do_ExplicitFlags opts)) as [H1|H1];
    [rewrite bool_decide_eq_true_2 by done|rewrite bool_decide_eq_false_2 by done].
  { rewrite parsePlugins_spec. by repeat case_decide. }
  rewrite <- bool_decide_or.
  destruct (decide ("plugin" ∈ do_ExplicitFlags opts ∨ "plugin-id" ∈ do_ExplicitFlags opts)) as [H2|H2];
    [rewrite bool_decide_eq_true_2 by done|rewrite bool_decide_eq_false_2 by done].
  { rewrite parsePlugins_spec. by rewrite decide_True. }
  destruct sections as [|s sections].
  - rewrite (decide_True (P := [] = [])), parsePlugins_spec by done. by repeat case_decide.
  - rewrite (decide_False (P := s :: sections = [])) by done.
    rewrite parse_sections_spec, app_nil_l. by split; intros [-> ?].
Qed.

Lemma listed_nonempty opts sections ps : listed opts sections ps → ps ≠ [].
Proof.
  unfold listed. destruct (source_of opts sections) eqn:Es; [|by intros ->|].
  - intros Hl ->. apply Forall2_nil_inv_r in Hl. by apply Split_nonempty in Hl.
  - intros -> E%fmap_nil_inv. subst. unfold source_of in Es. rewrite (decide_True (P := [] = [])) in Es by done.
    by repeat case_decide.
Qed.

(** *** The settings *)

(** The flag when it is given, else the file's value, else the flag's default,
    and for that the built-in one when it is empty. *)
Definition dir_of (opts : daemonOptions) (text : string) : string :=
  if decide ("runtime-dir" ∈ do_ExplicitFlags opts) then do_RuntimeDir opts
  else if decide (text = "") then
    if decide (do_RuntimeDir opts = "") then PathJoin [temp_dir; "rpc_plugin_system"] else do_RuntimeDir opts
  else text.

Definition duration_of (opts : daemonOptions) (name : string) (option : Z) (text : string)
    (builtin value : Z) : Prop :=
  if decide (name ∈ do_ExplicitFlags opts) then value = option
  else if decide (text = "") then value = if decide (option = 0) then builtin else option
  else ParseDuration text = Ok value.

Lemma dir_of_spec opts text :
  chooseString (do_ExplicitFlags opts) "runtime-dir" (do_RuntimeDir opts) text
    (defaultRuntimeDir temp_dir (do_RuntimeDir opts)) = dir_of opts text.
Proof.
  unfold chooseString, defaultRuntimeDir, dir_of.
  repeat (case_decide || case_bool_decide); by simplify_eq/=.
Qed.

Lemma duration_of_spec opts name option text builtin value :
  chooseDuration (do_ExplicitFlags opts) name option text (defaultDuration option builtin) = Ok value
  ↔ duration_of opts name option text builtin value.
Proof.
  unfold chooseDuration, defaultDuration, duration_of.
  repeat (case_decide || case_bool_decide); simplify_eq/=; try (split; congruence).
  destruct (Z.eqb_spec option 0); simplify_eq/=; split; congruence.
Qed.

(** The configuration the settings say. *)
Definition resolves (opts : daemonOptions) (file : tomlDaemonConfig) (cfg : resolvedDaemonConfig) : Prop :=
  let section := tc_Daemon file in
  ∃ dial callt beat plugins,
    duration_of opts "dial-timeout" (do_DialTimeout opts) (td_DialTimeout section) (3 * Second) dial
    ∧ duration_of opts "call-timeout" (do_CallTimeout opts) (td_CallTimeout section) (500 * Millisecond) callt
    ∧ duration_of opts "heartbeat-every" (do_HeartbeatEvery opts) (td_HeartbeatEvery section) (2 * Second) beat
    ∧ (listed opts (tc_Plugins file) plugins ∧ Forall plugin_ok plugins)
    ∧ cfg = mkResolved (mkHostConfig (dir_of opts (td_RuntimeDir section)) "" dial callt beat plugins false)
              (PathJoin [dir_of opts (td_RuntimeDir section); "admin.sock"]).

Lemma resolve_config_spec opts file cfg :
  resolve_config temp_dir opts file = Ok cfg ↔ resolves opts file cfg.
Proof.
  unfold resolves. setoid_rewrite <- duration_of_spec. setoid_rewrite <- resolvePlugins_spec.
  rewrite <- dir_of_spec. unfold resolve_config, mbind, result_bind, wrap_result. split.
  - destruct (chooseDuration _ "dial-timeout" _ _ _) as [dial|]; [|done].
    destruct (chooseDuration _ "call-timeout" _ _ _) as [callt|]; [|done].
    destruct (chooseDuration _ "heartbeat-every" _ _ _) as [beat|]; [|done].
    destruct (resolvePlugins _ _) as [plugins|]; [|done]. intros [= <-].
    by exists dial, callt, beat, plugins.
  - by intros (dial & callt & beat & plugins & -> & -> & -> & -> & ->).
Qed.

Lemma admin_sock_plain : plain "admin.sock".
Proof. split; [done|]. by split_and!. Qed.

(** The admin socket and the files of a plugin. *)
Lemma admin_socket_artifact root id :
  valid_id id = true → PathJoin [root; "admin.sock"] ∈ artifacts root id → id = "admin.sock".
Proof.
  intros Hid Hin. pose proof (id_plain id Hid) as Hp.
  apply artifact_shape in Hin as [E|(f & Hf & E)]; [| |done];
    rewrite PathJoin_plain in E by apply admin_sock_plain.
  - by apply (inj (String.append (join_dir root))) in E.
  - apply (inj (String.append (join_dir root))) in E.
    by destruct (plain_not_nested _ _ _ admin_sock_plain E).
Qed.

(** C29. What the daemon runs with.  From whatever command line, file and
    defaults, the daemon resolves exactly the configuration of the documented
    precedence, and refuses when there is none: a flag that is given wins, then
    the file, then the flag's default; the plugins are those of -plugins, else
    the one of -plugin and -plugin-id, else the sections of the file, and all of
    them have a valid id and a path.  There is at least one plugin, and the
    admin socket is a file of the runtime directory that is no file of any
    listed plugin but one called "admin.sock". *)
Theorem config_sound opts file cfg :
  (resolve_config temp_dir opts file = Ok cfg ↔ resolves opts file cfg)
  ∧ (resolve_config temp_dir opts file = Ok cfg →
     hc_Plugins (rc_Host cfg) ≠ []
     ∧ Forall (λ p, pc_PluginID p ≠ "admin.sock" →
          rc_AdminSocket cfg ∉ artifacts (hc_RuntimeDir (rc_Host cfg)) (pc_PluginID p))
         (hc_Plugins (rc_Host cfg))).
Proof.
  split; [apply resolve_config_spec|].
  intros (dial & callt & beat & plugins & _ & _ & _ & [Hl Hok] & ->)%resolve_config_spec. cbn -[artifacts].
  split; [by eapply listed_nonempty|]. eapply Forall_impl; [exact Hok|]. intros p [Hid _] Hne' Hin. apply Hne'.
  by eapply admin_socket_artifact.
Qed.

(** A plugin called "admin.sock" is accepted, and its runtime directory is the
    admin socket. *)
Lemma admin_socket_collision dir path :
  valid_id "admin.sock" = true
  ∧ pluginRuntimeDir dir (pc_PluginID (plugin_config "admin.sock" path)) = PathJoin [dir; "admin.sock"].
Proof. done. Qed.
End Config_facts.

(** ** A configuration that is accepted *)

Definition demo_readers : FlagReaders := {|
  read_uint _ := Err (errors_New "not a number");
  read_int _ := Err (errors_New "not a number");
  ParseDuration s := if decide (s = "1s") then Ok Second else Err (errors_New "time: invalid duration");
|}.

(** Runtime directory from the file, dial timeout from the command line. *)
Definition demo_options : daemonOptions :=
  mkDaemonOptions "/etc/rpc.toml" "/tmp/rpc_plugin_system" " echo=/opt/echo , pay=/opt/pay" "echo" ""
    (5 * Second) (500 * Millisecond) (2 * Second) {["config"; "plugins"; "dial-timeout"]}.
Definition demo_file : tomlDaemonConfig :=
  mkToml (mkTomlDaemon "/run/rpc" "1s" "1s" "") [mkTomlPlugin "other" "/opt/other"].
Definition demo_resolved : resolvedDaemonConfig :=
  mkResolved (mkHostConfig "/run/rpc" "" (5 * Second) Second (2 * Second)
    [plugin_config "echo" "/opt/echo"; plugin_config "pay" "/opt/pay"] false) "/run/rpc/admin.sock".

Lemma config_sound_witness :
  resolve_config (H := ascii_tables) (H0 := demo_readers) "/tmp" demo_options demo_file = Ok demo_resolved
  ∧ listed demo_options (tc_Plugins demo_file) (hc_Plugins (rc_Host demo_resolved))
  ∧ rc_AdminSocket demo_resolved ∉ artifacts (hc_RuntimeDir (rc_Host demo_resolved)) "pay".
Proof.
  assert (resolve_config (H := ascii_tables) (H0 := demo_readers) "/tmp" demo_options demo_file
    = Ok demo_resolved) as E by (vm_compute; reflexivity).
  destruct (config_sound (H := ascii_tables) (H0 := demo_readers) "/tmp" demo_options demo_file demo_resolved)
    as [Hr Hs].
  split; [exact E|]. split.
  - destruct (proj1 Hr E) as (dial & callt & beat & ps & _ & _ & _ & [Hl _] & Ecfg).
    injection Ecfg as _ _ _ Eps. cbn. rewrite Eps. exact Hl.
  - destruct (Hs E) as [_ Ho].
    exact (proj1 (Forall_forall _ _) Ho (plugin_config "pay" "/opt/pay") ltac:(right; left) ltac:(discriminate)).
Defined.
