(* ===== verification/DaemonPool.v ===== *)
(** * The daemon and its goroutines

    The whole process: the goroutine of [run], the monitors it starts, and a
    goroutine for every request that a client of the admin socket makes, all
    interleaved call by call over the managers of the host, whose lifecycle
    locks they take.  The plugins, the operating system, the clock and the
    clients do as they like. *)

From stdpp Require Import functions.
From S2P Require Import Prelude Prog GoText GoPath GoFlag PluginID Auth Runtime Bundle EventLog PluginApi Manager ManagerWorld ManagerFacts ManagerProps Fence Conns Host HostFacts HostProps HostFence Admin AdminFacts Daemon DaemonFacts.

#[local] Arguments rely : simpl never.

(** ** The system *)

Record daemon : Type := mkDaemon {
  d_hosts : hosts_world;               (* the managers, by plugin id *)
  d_owner : string → option nat;       (* the goroutine in each lifecycle lock *)
  d_admin : serve_world;               (* the admin server *)
  d_conns : list Host;                 (* the connections it serves, by the host served *)
  d_main : prog daemonE (option Z);    (* goroutine 0: run *)
  d_threads : list (prog hostE unit);  (* goroutines 1, 2, ... *)
}.

(** Goroutine [i] makes a call on a manager, as its lock allows. *)
Definition call_step (i : nat) {X} (e : hostE X) (hw : hosts_world) (own : string → option nat)
  : X → hosts_world → (string → option nat) → Prop :=
  match e in hostE X return X → hosts_world → (string → option nat) → Prop with
  | At id e => λ x hw' own', ∃ w', mgr_step _ e (hw id) x w' ∧ hw' = <[id := w']> hw
      ∧ match lock_kind e with
        | Acquire => own id = None ∧ own' = <[id := Some i]> own
        | Release => own' = <[id := None]> own
        | Other => own' = own
        end
  end.

(** An accepted connection is served. *)
Definition accepted (h : Host) {X} (e : adminE X) (conns : list Host) : list Host :=
  match e with VServeConn _ => conns ++ [h] | _ => conns end.

Section System.
Context `{UnicodeTables} `{FlagReaders}.

(** [run] makes a call, and goes on as [p]. *)
Definition main_call {X} (e : daemonE X) (p : prog daemonE (option Z)) (d : daemon) : X → daemon → Prop :=
  match e in daemonE X return X → daemon → Prop with
  | DHost e => λ x d', ∃ hw' own', call_step 0 e (d_hosts d) (d_owner d) x hw' own'
      ∧ d' = mkDaemon hw' own' (d_admin d) (d_conns d) p (d_threads d)
  | DGo q => λ _ d', d' = mkDaemon (d_hosts d) (d_owner d) (d_admin d) (d_conns d) p (d_threads d ++ [q])
  | DAdmin h e => λ x d', ∃ adm', serve_step _ e (d_admin d) x adm'
      ∧ d' = mkDaemon (d_hosts d) (d_owner d) adm' (accepted h e (d_conns d)) p (d_threads d)
  | _ => λ _ d', d' = mkDaemon (d_hosts d) (d_owner d) (d_admin d) (d_conns d) p (d_threads d)
  end.

Definition request (h : Host) (r : admin_request) : prog hostE unit := _ ← handle (Some h) r; Ret tt.

Inductive daemon_step : daemon → daemon → Prop :=
| step_main d X (e : daemonE X) k x d' :
    d_main d = Vis e k → main_call e (k x) d x d' → daemon_step d d'
| step_request hw own adm conns p ts h r :
    h ∈ conns →
    daemon_step (mkDaemon hw own adm conns p ts) (mkDaemon hw own adm conns p (ts ++ [request h r]))
| step_thread hw own adm conns p ts i X (e : hostE X) k x hw' own' :
    ts !! i = Some (Vis e k) → call_step (S i) e hw own x hw' own' →
    daemon_step (mkDaemon hw own adm conns p ts) (mkDaemon hw' own' adm conns p (<[i := k x]> ts)).

Definition daemon0 (p : prog daemonE (option Z)) : daemon :=
  mkDaemon (λ _, world0) (λ _, None) serve0 [] p [].

(** ** What each goroutine keeps to *)

(** The handlers of the admin server act on managers of its host. *)
Definition serves (P : gset string) (h : Host) : Prop := host_ok h ∧ ∀ id, id ∈ plugins h → id ∈ P.

Definition lawful (P : gset string) (q : prog hostE unit) : Prop :=
  ∀ hw, hrg false (Some P) None q (λ h _ _, h = None) hw.

(** What a call of [run] has to respect.  It starts goroutines only once it has
    shared the managers, which it does when all of them are at ease. *)
Definition dcall (pub : sharing) (held : option string) {X} (e : daemonE X)
  : (sharing → option string → X → hosts_world → serve_world → Prop) → hosts_world → serve_world → Prop :=
  match e in daemonE X
    return (sharing → option string → X → hosts_world → serve_world → Prop) → hosts_world → serve_world → Prop with
  | DHost e => λ K hw adm, hcall true pub held e (λ h x hw', K pub h x hw' adm) hw
  | DGo q => λ K hw adm, (∃ P, pub = Some P ∧ lawful P q)
      ∧ ∀ x hw', rely true pub held hw hw' → K pub held x hw' adm
  | DAdmin h e => λ K hw adm, (∃ P, pub = Some P ∧ serves P h)
      ∧ ∀ x hw' adm', rely true pub held hw hw' → serve_step _ e adm x adm' → K pub held x hw' adm'
  | DNotifySignal => λ K hw adm, pub = None ∧ held = None
      ∧ ∃ P, ∀ x, K (Some P) None x hw adm
  | _ => λ K hw adm, ∀ x hw', rely true pub held hw hw' → K pub held x hw' adm
  end.

Fixpoint mrg (pub : sharing) (held : option string) {A} (p : prog daemonE A)
    (Q : sharing → option string → A → hosts_world → serve_world → Prop) hw adm : Prop :=
  match p with
  | Ret a => ∀ hw', rely true pub held hw hw' → Q pub held a hw' adm
  | Vis e k => dcall pub held e (λ pub' h x hw' adm', mrg pub' h (k x) Q hw' adm') hw adm
  end.

Lemma dcall_mono pub held {X} (e : daemonE X)
    (K K' : sharing → option string → X → hosts_world → serve_world → Prop) hw adm :
  (∀ pub h x hw' adm', K pub h x hw' adm' → K' pub h x hw' adm') →
  dcall pub held e K hw adm → dcall pub held e K' hw adm.
Proof.
  intros HK. destruct e; cbn; try (intros Hc x hw' Hr; by apply HK, Hc).
  - intros (? & ? & P & Hc). split_and!; [done..|]. exists P. intros x. by apply HK.
  - apply hcall_mono. intros h x hw'. apply HK.
  - intros [? Hc]. split; [done|]. intros x hw' Hr. by apply HK, Hc.
  - intros [? Hc]. split; [done|]. intros x hw' adm' Hr Hs. by eapply HK, Hc.
Qed.

Lemma mrg_mono pub held {A} (p : prog daemonE A)
    (Q Q' : sharing → option string → A → hosts_world → serve_world → Prop) hw adm :
  mrg pub held p Q hw adm → (∀ pub h a hw' adm', Q pub h a hw' adm' → Q' pub h a hw' adm') →
  mrg pub held p Q' hw adm.
Proof.
  intros Hp HQ. revert pub held hw adm Hp. induction p as [a|X e k IH]; intros pub held hw adm Hp; simpl in *; [auto|].
  eapply dcall_mono; [|exact Hp]. intros pub' h x hw' adm'. apply IH.
Qed.

Lemma mrg_bind pub held {A B} (p : prog daemonE A) (k : A → prog daemonE B) Q hw adm :
  mrg pub held p (λ pub' h a hw' adm', mrg pub' h (k a) Q hw' adm') hw adm →
  mrg pub held (p ≫= k) Q hw adm.
Proof.
  revert pub held hw adm. induction p as [a|X e kk IH]; intros pub held hw adm Hp; simpl in *; [by apply Hp|].
  eapply dcall_mono; [|exact Hp]. intros pub' h x hw' adm'. apply IH.
Qed.

Lemma mrg_seq pub held {A B} (p : prog daemonE A) (k : A → prog daemonE B) P Q hw adm :
  mrg pub held p P hw adm →
  (∀ pub' h a hw' adm', P pub' h a hw' adm' → mrg pub' h (k a) Q hw' adm') →
  mrg pub held (p ≫= k) Q hw adm.
Proof. intros Hp Hk. apply mrg_bind. eapply mrg_mono; [exact Hp|exact Hk]. Qed.

(** What the main goroutine does to the host. *)
Lemma mrg_host pub held {A} (p : prog hostE A) Q hw adm :
  hrg true pub held p Q hw →
  mrg pub held (daemon_host p) (λ pub' h a hw' adm', pub' = pub ∧ adm' = adm ∧ Q h a hw') hw adm.
Proof.
  revert held hw. induction p as [a|X e k IH]; intros held hw Hp; cbn.
  - intros hw' Hr. split_and!; [done..|]. by apply Hp.
  - eapply hcall_mono; [|exact Hp]. intros h x hw'. apply IH.
Qed.

(** The admin server of a host whose managers are shared. *)
Lemma mrg_admin P h {A} (p : prog adminE A) Q hw0 hw adm :
  serves P h → rely true (Some P) None hw0 hw → wp serve_step p Q adm →
  mrg (Some P) None (daemon_admin h p)
    (λ pub' h' a hw' adm', pub' = Some P ∧ h' = None ∧ Q a adm' ∧ rely true (Some P) None hw0 hw') hw adm.
Proof.
  intros Hh. revert hw adm. induction p as [a|X e k IH]; intros hw adm Hr Hp; cbn.
  - intros hw' H1. split; [done|]. split; [done|]. split; [done|]. by etrans.
  - split; [by exists P|]. intros x hw' adm' H1 Hs. apply IH; [by etrans|]. by apply Hp.
Qed.

(** *** The goroutines it starts *)

Definition free (P : gset string) {A} (p : prog hostE A) : Prop :=
  ∀ hw, hrg false (Some P) None p (λ h _ _, h = None) hw.

Lemma free_ret P {A} (a : A) : free P (Ret a).
Proof. by intros hw hw1 _. Qed.

Lemma free_bind P {A B} (p : prog hostE A) (k : A → prog hostE B) :
  free P p → (∀ a, free P (k a)) → free P (p ≫= k).
Proof. intros Hp Hk hw. eapply hrg_seq; [apply Hp|]. intros h a hw' ->. apply Hk. Qed.

Lemma free_fold P {A B} (xs : list A) (acc : B) body :
  (∀ acc x, free P (body acc x)) → free P (fold_range xs acc body).
Proof.
  intros Hb. revert acc. induction xs as [|x xs IH]; intros acc; [apply free_ret|].
  apply free_bind; [apply Hb|apply IH].
Qed.

Section Handlers.
Variables (P : gset string) (h : Host).
Hypothesis h_served : serves P h.

Lemma free_at id m {A} (p : prog mgrE A) :
  managers h !! id = Some m → (∀ w, rg m false p unlocked w) → free P (at_manager id p).
Proof.
  intros Hm Hp hw. destruct h_served as [Hok HP]. eapply hrg_mono.
  - apply (shared_op h Hok P false id p hw hw); [apply HP, (ho_managers h Hok); by rewrite Hm| |done].
    unfold cfg_of. by rewrite Hm.
  - by intros h' a hw' [-> _].
Qed.

Lemma free_neutral id m {A} (p : prog mgrE A) :
  managers h !! id = Some m → neutral p → free P (at_manager id p).
Proof. intros Hm Hp. apply (free_at id m); [done|]. intros w. by apply neutral_rg. Qed.

Lemma free_with id {A} (dflt : A) f :
  (∀ m, neutral (f m)) → free P (with_manager h id dflt f).
Proof.
  intros Hf. unfold with_manager. destruct (managers h !! id) as [m|] eqn:Hm; [|apply free_ret].
  by apply (free_neutral id m).
Qed.

Lemma free_state : free P (Host_State h).
Proof.
  apply free_bind; [|intros out; apply free_ret]. apply free_fold. intros out id.
  apply free_bind; [apply free_with; intros m; apply neutral_read|]. intros st. apply free_ret.
Qed.

(** A request for a plugin goes to its manager. *)
Lemma free_route id {A} (k : result (Route * Config) → prog hostE A) :
  (∀ e, free P (k (Err e))) →
  (∀ route m, managers h !! id = Some m → free P (k (Ok (route, m)))) →
  free P (RouteTarget h id ≫= k).
Proof.
  intros He Hk hw. apply hrg_bind. unfold RouteTarget, Host_Manager.
  destruct (managers h !! id) as [m|] eqn:Hm; [|intros hw1 _; apply He].
  eapply hrg_seq; [by apply (free_neutral id m), neutral_read|].
  intros h' st hw1 -> hw2 _. by apply Hk.
Qed.

Lemma free_echo id msg : free P (Host_Echo h id msg).
Proof.
  apply free_route; [intros e; apply free_ret|]. intros route m Hm.
  apply (free_neutral id m); [done|apply neutral_routed].
Qed.

Lemma free_heartbeat id : free P (Host_Heartbeat h id).
Proof.
  apply free_route; [intros e; apply free_ret|]. intros route m Hm.
  apply (free_neutral id m); [done|apply neutral_heartbeat].
Qed.

Lemma free_restart id : free P (RestartPlugin h id).
Proof.
  unfold RestartPlugin, Host_Call. apply free_bind; [|by intros [[? ? []]|]; apply free_ret].
  unfold CallRequest. apply free_route; [intros e; apply free_ret|]. intros route m Hm.
  cbn [rq_Call rq_PluginID]. rewrite decide_False, decide_False, decide_True by done.
  apply free_bind; [apply (free_at id m); [done|apply Restart_rg]|]. intros [e|]; [apply free_ret|].
  apply free_bind; [by apply (free_neutral id m), neutral_read|]. intros st. apply free_ret.
Qed.

Lemma free_reply {A} (f : A → admin_reply) p : free P p → free P (reply_with f p).
Proof. intros Hp. apply free_bind; [done|]. intros r. apply free_ret. Qed.

Lemma handler_lawful r : lawful P (request h r).
Proof.
  apply free_bind; [|intros x; apply free_ret]. destruct r as [| |i| | |i|i|i]; apply free_reply; cbn.
  - apply free_bind; [apply free_state|intros x; apply free_ret].
  - apply free_bind; [apply free_state|intros x; apply free_ret].
  - unfold Service_Plugin, with_host. destruct (ValidatePluginID _); [apply free_ret|].
    unfold Host_Plugin, Host_Manager. destruct (managers h !! _) as [m|] eqn:Hm; [|apply free_ret].
    apply free_bind; [by apply (free_neutral _ m), neutral_read|intros x; apply free_ret].
  - apply free_bind; [|intros x; apply free_ret].
    apply free_bind; [apply free_state|intros x; apply free_ret].
  - apply free_bind; [|intros x; apply free_ret].
    apply free_bind; [apply free_state|intros x; apply free_ret].
  - unfold Service_Echo, with_host. destruct (ValidatePluginID _); [apply free_ret|apply free_echo].
  - unfold Service_Heartbeat, with_host. destruct (ValidatePluginID _); [apply free_ret|].
    apply free_bind; [apply free_heartbeat|]. intros [out [e|]]; apply free_ret.
  - unfold Service_Restart, with_host. destruct (ValidatePluginID _); [apply free_ret|apply free_restart].
Qed.
End Handlers.

(** ** The contracts hold of the system *)

Lemma dcall_rely pub held {X} (e : daemonE X) K hw hw' adm :
  rely true pub held hw hw' → dcall pub held e K hw adm → dcall pub held e K hw' adm.
Proof.
  intros Hr. destruct e; cbn; try (intros Hc x hw1 Hr1; apply Hc; by etrans).
  - intros (-> & -> & Hc). unfold rely in Hr. by subst.
  - by apply hcall_rely.
  - intros [? Hc]. split; [done|]. intros x hw1 Hr1. apply Hc. by etrans.
  - intros [? Hc]. split; [done|]. intros x hw1 adm1 Hr1. apply Hc. by etrans.
Qed.

Lemma mrg_rely pub held {A} (p : prog daemonE A) Q hw hw' adm :
  rely true pub held hw hw' → mrg pub held p Q hw adm → mrg pub held p Q hw' adm.
Proof.
  intros Hr. destruct p as [a|X e k]; simpl; [|by apply dcall_rely].
  intros Hp hw1 Hr1. apply Hp. by etrans.
Qed.

(** Every manager, between the calls of its goroutines. *)
Definition in_order (hw : hosts_world) (own : string → option nat) : Prop :=
  ∀ id, core (w_m (hw id)) ∧ (own id = None → at_ease id (hw id)).

(** Goroutine [i] is in the lifecycle lock [held], and in no other. *)
Definition holds (own : string → option nat) (i : nat) (held : option string) : Prop :=
  ∀ id, own id = Some i ↔ held = Some id.

Lemma holds_apart own i j hi hj id : i ≠ j → holds own i hi → holds own j hj → hi = Some id → hj ≠ Some id.
Proof. intros Hne Hi Hj E1 E2. apply Hi in E1. apply Hj in E2. congruence. Qed.

(** What a call of a goroutine is to the others. *)
Definition tolerated (main : bool) (pub : sharing) (held : option string) (hw hw' : hosts_world) : Prop :=
  ∀ main' held', is_Some pub → (main' = true → main = false) →
    (∀ id, held' = Some id → held ≠ Some id) → rely main' pub held' hw hw'.

Lemma tolerated_same main pub held hw id : tolerated main pub held hw (<[id := hw id]> hw).
Proof.
  intros main' held' [P ->] _ _. split; [|intros j _; split].
  - intros _ j _. destruct (decide (j = id)) as [->|?]; by rewrite ?fn_lookup_insert, ?fn_lookup_insert_ne.
  - destruct (decide (j = id)) as [->|?]; by rewrite ?fn_lookup_insert, ?fn_lookup_insert_ne.
  - intros _. destruct (decide (j = id)) as [->|?]; by rewrite ?fn_lookup_insert, ?fn_lookup_insert_ne.
Qed.

Lemma tolerated_step main pub held hw id w :
  (main = false → shared pub id) →
  (shared pub id → later (hw id) w ∧ (held ≠ Some id → interference (hw id) w)) →
  tolerated main pub held hw (<[id := w]> hw).
Proof.
  intros Hs Hw main' held' [P ->] Hm Hh. split.
  - intros E j Hj. rewrite fn_lookup_insert_ne; [done|]. intros ->. by apply Hj, Hs, Hm.
  - intros j Hj. destruct (decide (j = id)) as [->|Hne].
    + rewrite fn_lookup_insert. destruct (Hw Hj) as [? Hi]. split; [done|]. intros E. by apply Hi, Hh.
    + by rewrite fn_lookup_insert_ne.
Qed.

Lemma in_order_insert hw own id w own' :
  in_order hw own → (∀ j, j ≠ id → own' j = own j) →
  core (w_m w) → (own' id = None → at_ease id w) → in_order (<[id := w]> hw) own'.
Proof.
  intros Ho Hown Hc Ha j. destruct (decide (j = id)) as [->|Hne]; [by rewrite fn_lookup_insert|].
  rewrite fn_lookup_insert_ne, Hown by done. apply Ho.
Qed.

(** A lock changes hands. *)
Lemma holds_insert own i j id h held :
  j ≠ i → (∀ k, own id = Some k → k = i) → h ≠ Some j → holds own j held → holds (<[id := h]> own) j held.
Proof.
  intros Hne Hown Hh Hj k. destruct (decide (k = id)) as [->|Hk]; [|by rewrite fn_lookup_insert_ne].
  rewrite fn_lookup_insert. split; [done|]. intros E%Hj. by apply Hown in E.
Qed.

(** A goroutine that keeps to its contract makes a call. *)
Record called (main : bool) (pub : sharing) (i : nat) (held held' : option string)
    (hw hw' : hosts_world) (own own' : string → option nat) : Prop := {
  ca_order : in_order hw' own';
  ca_holds : holds own' i held';
  ca_others : ∀ j hj, j ≠ i → holds own j hj → holds own' j hj;
  ca_owners : ∀ id j, own' id = Some j → j = i ∨ own id = Some j;
  ca_tolerated : tolerated main pub held hw hw';
  ca_handover : ∀ id, handover (hw id) (hw' id);
}.

Lemma handover_insert (hw : hosts_world) id w : handover (hw id) w → ∀ j, handover (hw j) (<[id := w]> hw j).
Proof.
  intros Hw j. destruct (decide (j = id)) as [->|Hne]; [by rewrite fn_lookup_insert|].
  rewrite fn_lookup_insert_ne by done. by right; right.
Qed.

Lemma acquired main pub i hw own id :
  in_order hw own → holds own i None → own id = None →
  called main pub i None (Some id) hw (<[id := hw id]> hw) own (<[id := Some i]> own).
Proof.
  intros Ho Hh Hn. constructor.
  - apply (in_order_insert hw own); [done| |by destruct (Ho id)|by rewrite fn_lookup_insert].
    intros j Hj. by rewrite fn_lookup_insert_ne.
  - intros j. destruct (decide (j = id)) as [->|Hne]; [by rewrite fn_lookup_insert|].
    rewrite fn_lookup_insert_ne by done. split; [by intros ?%Hh|congruence].
  - intros j hj Hne. apply (holds_insert own i); [done|congruence|congruence].
  - intros k j. destruct (decide (k = id)) as [->|Hk]; [rewrite fn_lookup_insert; left; congruence|].
    rewrite fn_lookup_insert_ne by done. by right.
  - by apply tolerated_same.
  - apply handover_insert. by right; right.
Qed.

Lemma released main pub i hw own id :
  in_order hw own → holds own i (Some id) → at_ease id (hw id) →
  called main pub i (Some id) None hw (<[id := hw id]> hw) own (<[id := None]> own).
Proof.
  intros Ho Hh Ha. pose proof (proj2 (Hh id) eq_refl) as Hown. constructor.
  - apply (in_order_insert hw own); [done| |by destruct (Ho id)|done].
    intros j Hj. by rewrite fn_lookup_insert_ne.
  - intros j. destruct (decide (j = id)) as [->|Hne]; [by rewrite fn_lookup_insert|].
    rewrite fn_lookup_insert_ne by done. split; [|done]. intros E%Hh. congruence.
  - intros j hj Hne. apply (holds_insert own i); [done|congruence|done].
  - intros k j. destruct (decide (k = id)) as [->|Hk]; [by rewrite fn_lookup_insert|].
    rewrite fn_lookup_insert_ne by done. by right.
  - by apply tolerated_same.
  - apply handover_insert. by right; right.
Qed.

Lemma stepped main pub i held hw own id w :
  (main = false → shared pub id) → in_order hw own → holds own i held →
  (if decide (held = Some id) then held_step (hw id) w ∧ core (w_m w) else interference (hw id) w) →
  called main pub i held held hw (<[id := w]> hw) own own.
Proof.
  intros Hmain Ho Hh Hw. destruct (Ho id) as [Hcore Hease].
  assert (later (hw id) w ∧ (held ≠ Some id → interference (hw id) w) ∧ core (w_m w)
    ∧ (own id = None → at_ease id w) ∧ mstep (w_m (hw id)) (w_m w)) as (Hl & Hi & Hc & Ha & Hm).
  { case_decide as E.
    - destruct Hw as [[Hm Hs] Hc]. split_and!; [by apply sealed_later|done|done| |done].
      intros Hn. apply Hh in E. congruence.
    - split_and!; [by apply interference_later|done|by eapply mono_core; [apply Hw|]| |left; apply Hw].
      intros Hn. eapply quiescent_stable; [by apply Hease|done]. }
  constructor; [by apply (in_order_insert hw own)|done|done|by right| |].
  - apply tolerated_step; [done|]. by intros _.
  - apply handover_insert. by apply mstep_client.
Qed.

Lemma call_ok main pub held i {X} (e : hostE X) K hw own x hw' own' :
  hcall main pub held e K hw → in_order hw own → holds own i held →
  call_step i e hw own x hw' own' →
  ∃ held', K held' x hw' ∧ called main pub i held held' hw hw' own own'.
Proof.
  intros Hc Ho Hh. destruct e as [X id e]. cbn in *. destruct Hc as [Hmain Hc].
  intros (w & Hs & -> & Hl). destruct (lock_kind e) eqn:He.
  - destruct Hl as [Hnone ->]. destruct Hc as [-> Hc]. apply lock_step in Hs as ->; [|by rewrite He].
    exists (Some id). split; [apply Hc; [done|]; by apply Ho|by apply acquired].
  - subst own'. destruct Hc as [-> Hc]. apply lock_step in Hs as ->; [|by rewrite He].
    destruct (Hc x hw) as [He' Hk]; [done|]. exists None. split; [done|]. by apply released.
  - subst own'. destruct (Hc x hw w) as [Hw Hk]; [done|by destruct (Ho id)|done|].
    exists held. split; [done|]. by apply stepped.
Qed.

Definition idle_after (h : option string) (_ : unit) (_ : hosts_world) : Prop := h = None.

Record good (Q : sharing → option string → option Z → hosts_world → serve_world → Prop)
    (pub : sharing) (held : option string) (d : daemon) : Prop := {
  g_main : mrg pub held (d_main d) Q (d_hosts d) (d_admin d);
  g_holds : holds (d_owner d) 0 held;
  g_order : in_order (d_hosts d) (d_owner d);
  g_threads : ∀ i q, d_threads d !! i = Some q →
    ∃ hi, holds (d_owner d) (S i) hi ∧ hrg false pub hi q idle_after (d_hosts d);
  g_exists : ∀ id i, d_owner d id = Some (S i) → is_Some (d_threads d !! i);
  g_conns : ∀ h, h ∈ d_conns d → ∃ P, pub = Some P ∧ serves P h;
  g_alone : pub = None → d_threads d = [];
}.

(** A goroutine is started. *)
Lemma good_go Q pub held hw own adm conns p q ts P :
  good Q pub held (mkDaemon hw own adm conns p ts) → pub = Some P → lawful P q →
  good Q pub held (mkDaemon hw own adm conns p (ts ++ [q])).
Proof.
  intros [] -> Hq. constructor; try done; simpl in *.
  - intros i q' [Hi|[Hlen Hi]]%lookup_app_Some; [by apply g_threads0|].
    destruct (i - length ts)%nat eqn:E; [|done]. injection Hi as <-. exists None. split; [|apply Hq].
    intros id. split; [|done]. intros [x Hx%lookup_lt_Some]%g_exists0. lia.
  - intros id i [x Hx]%g_exists0. exists x. by apply lookup_app_l_Some.
Qed.

(** A call by goroutine [S i]. *)
Lemma good_thread Q pub held hw own adm conns p ts i X (e : hostE X) k x hw' own' :
  good Q pub held (mkDaemon hw own adm conns p ts) →
  ts !! i = Some (Vis e k) → call_step (S i) e hw own x hw' own' →
  good Q pub held (mkDaemon hw' own' adm conns p (<[i := k x]> ts)) ∧ ∀ id, handover (hw id) (hw' id).
Proof.
  intros Hg Hi Hs. pose proof (g_alone _ _ _ _ Hg) as Ha. destruct Hg as [Hm Hh Ho Ht He Hc _]. simpl in *.
  assert (is_Some pub) as Hpub by (destruct pub; [done|by rewrite Ha in Hi]).
  destruct (Ht i _ Hi) as (hi & Hhi & Hp). simpl in Hp.
  destruct (call_ok _ _ _ _ _ _ _ _ _ _ _ Hp Ho Hhi Hs) as (hi' & Hk & [Ho' Hhi' Hoth Hnew Htol Hov]).
  split; [|done]. constructor; simpl; [|by apply Hoth|done| | |done|].
  - eapply mrg_rely; [apply Htol; [done..|]|done]. intros id E. by apply (holds_apart own 0 (S i) held hi id).
  - intros j q Hj. destruct (decide (i = j)) as [<-|Hne].
    + apply list_lookup_insert_Some in Hj as [(_ & <- & _)|[? _]]; [|done]. by exists hi'.
    + rewrite list_lookup_insert_ne in Hj by done. destruct (Ht j q Hj) as (hj & Hhj & Hq).
      exists hj. split; [apply Hoth; [congruence|done]|]. eapply hrg_rely; [apply Htol; [done..|]|done].
      intros id E. apply (holds_apart own (S j) (S i) hj hi id); [congruence|done..].
  - intros id j Hj. apply lookup_lt_is_Some. rewrite length_insert. apply lookup_lt_is_Some.
    destruct (Hnew id (S j) Hj) as [[= ->]|?]; [by rewrite Hi|by eapply He].
  - intros ->. by apply is_Some_None in Hpub.
Qed.

(** A call of [run] on a manager. *)
Lemma good_host Q pub held d X (e : hostE X) k x hw' own' :
  good Q pub held d → d_main d = Vis (DHost e) k → call_step 0 e (d_hosts d) (d_owner d) x hw' own' →
  ∃ held', good Q pub held' (mkDaemon hw' own' (d_admin d) (d_conns d) (k x) (d_threads d))
    ∧ ∀ id, handover (d_hosts d id) (hw' id).
Proof.
  intros [Hm Hh Ho Ht He Hc Ha] E Hs. rewrite E in Hm. cbn in Hm.
  destruct (call_ok _ _ _ _ _ _ _ _ _ _ _ Hm Ho Hh Hs) as (held' & Hk & [Ho' Hh' Hoth Hnew Htol Hov]).
  exists held'. split; [|done]. constructor; simpl; try done.
  - intros j q Hj. destruct (Ht j q Hj) as (hj & Hhj & Hq). exists hj. split; [by apply Hoth|].
    assert (is_Some pub) as Hpub by (destruct pub; [done|by rewrite Ha in Hj]).
    eapply hrg_rely; [apply Htol; [done..|]|done]. intros id E'.
    by apply (holds_apart (d_owner d) (S j) 0 hj held id).
  - intros id j Hj. destruct (Hnew id (S j) Hj) as [?|?]; [done|by eapply He].
Qed.

Definition handed_over (d d' : daemon) : Prop := ∀ id, handover (d_hosts d id) (d_hosts d' id).

Lemma handed_same d d' : d_hosts d' = d_hosts d → handed_over d d'.
Proof. intros E id. rewrite E. by right; right. Qed.

Lemma good_main Q pub held d X (e : daemonE X) k x d' :
  good Q pub held d → d_main d = Vis e k → main_call e (k x) d x d' →
  ∃ pub' held', good Q pub' held' d' ∧ handed_over d d'.
Proof.
  intros Hg E Hs. pose proof (g_main _ _ _ _ Hg) as Hm. rewrite E in Hm.
  assert (∀ p, mrg pub held p Q (d_hosts d) (d_admin d) →
    good Q pub held (mkDaemon (d_hosts d) (d_owner d) (d_admin d) (d_conns d) p (d_threads d))) as Hsame
    by (intros p Hp; destruct Hg; by constructor).
  destruct e; cbn in Hm, Hs; try (subst d'; exists pub, held; split; [by apply Hsame, Hm|by apply handed_same]).
  - destruct Hm as (-> & -> & P & Hm). subst d'. exists (Some P), None. split; [|by apply handed_same].
    pose proof (g_alone _ _ _ _ Hg eq_refl) as Hts. destruct Hg as [_ Hh Ho _ He Hc _].
    constructor; simpl; try done; [by rewrite Hts|].
    intros h Hin. by destruct (Hc h Hin) as (? & ? & _).
  - destruct Hs as (hw' & own' & Hs & ->). destruct (good_host _ _ _ _ _ _ _ _ _ _ Hg E Hs) as (held' & Hg' & ?).
    by exists pub, held'.
  - destruct Hm as [(P & -> & Hq) Hm]. subst d'. exists (Some P), held. split; [|by apply handed_same].
    eapply good_go; [by apply Hsame, Hm|done..].
  - destruct Hm as [(P & -> & Hsv) Hm]. destruct Hs as (adm' & Hs & ->). exists (Some P), held.
    split; [|by apply handed_same]. destruct Hg. constructor; simpl; try done; [by apply Hm|].
    intros h' Hin. assert (h' ∈ d_conns d ∨ h' = host) as [Hd| ->].
    { destruct e; cbn in Hin; try by left. apply elem_of_app in Hin as [?|?%list_elem_of_singleton]; auto. }
    + by apply g_conns0.
    + by exists P.
Qed.

Lemma daemon_step_good Q pub held d d' :
  good Q pub held d → daemon_step d d' → ∃ pub' held', good Q pub' held' d' ∧ handed_over d d'.
Proof.
  intros Hg Hs. destruct Hs as [d X e k x d' E Hs|hw own adm conns p ts h r Hin|hw own adm conns p ts i X e k x hw' own' Hi Hs].
  - by eapply good_main.
  - destruct (g_conns _ _ _ _ Hg h Hin) as (P & E & Hsv). exists pub, held. split; [|by apply handed_same].
    eapply good_go; [done..|by apply handler_lawful].
  - exists pub, held. by eapply good_thread.
Qed.

(** *** Connections

    Every open connection is its manager's client or a goroutine's to close. *)
Definition host_on (X : Type) (e : hostE X) : option (string * mgrE X) :=
  match e in hostE X return option (string * mgrE X) with At id e => Some (id, e) end.
Definition daemon_on (X : Type) (e : daemonE X) : option (string * mgrE X) :=
  match e in daemonE X return option (string * mgrE X) with DHost e => host_on _ e | _ => None end.

Definition host_ok_call (X : Type) (e : hostE X) : Prop := True.
Definition tidy_goroutine (q : prog hostE unit) : Prop := tidy host_on host_ok_call q square.
Definition daemon_ok_call (X : Type) (e : daemonE X) : Prop :=
  match e with DGo q => tidy_goroutine q | _ => True end.

(** The goroutine [q] has the connection [c] to the plugin [id] to close: on
    every path it closes it, or makes it the manager's client, before it returns. *)
Definition will_close (id : string) (c : nat) (q : prog hostE unit) : Prop := settles host_on id c q (λ _, False).

Record tended (d : daemon) : Prop := {
  te_main : tidy daemon_on daemon_ok_call (d_main d) square;
  te_threads : ∀ i q, d_threads d !! i = Some q → tidy_goroutine q;
  te_conns : ∀ id c, c ∈ w_conns (d_hosts d id) →
    client (w_m (d_hosts d id)) = Some c ∨ settles daemon_on id c (d_main d) (λ _, False)
    ∨ ∃ i q, d_threads d !! i = Some q ∧ will_close id c q;
}.

(** What a call on a manager does to its connections, seen by its goroutine. *)
Lemma owed_step {X} id (e : mgrE X) (P : string → nat → X → Prop) (O : string → nat → Prop) hw x w :
  keeping e (P id) → (∀ c, O id c → settling c e (P id c)) → (∀ j c x, O j c → j ≠ id → P j c x) →
  mgr_step X e (hw id) x w → handover (hw id) w →
  ∀ (B : string → nat → Prop),
  (∀ j c, c ∈ w_conns (hw j) → client (w_m (hw j)) = Some c ∨ O j c ∨ B j c) →
  ∀ j c, c ∈ w_conns (<[id := w]> hw j) →
    client (w_m (<[id := w]> hw j)) = Some c ∨ P j c x ∨ B j c.
Proof.
  intros Hk Ho Hne Hs Hh B Hall j c. destruct (decide (j = id)) as [->|Hj].
  2:{ rewrite fn_lookup_insert_ne by done. intros Hc. destruct (Hall j c Hc) as [?|[?|?]]; auto. }
  rewrite fn_lookup_insert. intros Hc. destruct (decide (c ∈ w_conns (hw id))) as [Hin|Hin].
  - destruct (Hall id c Hin) as [Hcl|[HO|HB]]; [| |by auto].
    + destruct (keeping_client e (P id) (hw id) x w c Hk Hs Hh Hcl); auto.
    + destruct (settling_step c e (P id c) (hw id) x w (Ho c HO) Hs Hc); auto.
  - right. left. by eapply keeping_new.
Qed.

Lemma handed_insert (hw : hosts_world) id w : (∀ j, handover (hw j) (<[id := w]> hw j)) → handover (hw id) w.
Proof. intros Hh. specialize (Hh id). by rewrite fn_lookup_insert in Hh. Qed.

Lemma tended_main d X (e : daemonE X) k x d' :
  d_main d = Vis e k → main_call e (k x) d x d' → handed_over d d' → tended d → tended d'.
Proof.
  intros E Hs Hh [Hm Ht Hc]. rewrite E in Hm, Hc. cbn in Hm. destruct Hm as (Hk & Hok & Hm).
  destruct e; cbn in Hs, Hk, Hok, Hc; try (subst d'; constructor; simpl; [done|done|];
    intros id c [?|[?|?]]%Hc; auto).
  - destruct Hs as (hw' & own' & Hs & ->). destruct e as [X id e]. cbn in *. destruct Hs as (w & Hs & -> & _).
    constructor; simpl; [done|done|].
    apply (owed_step id e (λ j c x, settles daemon_on j c (k x) (λ _, False))
      (λ j c, if decide (id = j) then settling c e (λ x, settles daemon_on j c (k x) (λ _, False))
              else ∀ x, settles daemon_on j c (k x) (λ _, False))); [done| | |done| |done].
    + intros c. by rewrite decide_True.
    + intros j c y HO Hj. rewrite decide_False in HO by congruence. apply HO.
    + by apply handed_insert.
  - subst d'. constructor; simpl; [done| |].
    + intros i q [Hi|[_ Hi]]%lookup_app_Some; [by eapply Ht|].
      destruct (i - length (d_threads d))%nat; [|done]. by injection Hi as <-.
    + intros id c [?|[?|(i & q & Hi & Hq)]]%Hc; [by left|by right; left|].
      right. right. exists i, q. split; [by apply lookup_app_l_Some|done].
  - destruct Hs as (adm' & _ & ->). constructor; simpl; [done|done|]. intros id c [?|[?|?]]%Hc; auto.
Qed.

Lemma tended_thread hw own adm conns p ts i X (e : hostE X) k x hw' own' :
  ts !! i = Some (Vis e k) → call_step (S i) e hw own x hw' own' → (∀ id, handover (hw id) (hw' id)) →
  tended (mkDaemon hw own adm conns p ts) → tended (mkDaemon hw' own' adm conns p (<[i := k x]> ts)).
Proof.
  intros Hi Hs Hh [Hm Ht Hc]. simpl in *. pose proof (Ht i _ Hi) as (Hk & _ & Hq).
  destruct e as [X id e]. cbn in Hs, Hk. destruct Hs as (w & Hs & -> & _).
  assert (<[i := k x]> ts !! i = Some (k x)) as Hi' by (apply list_lookup_insert_eq; by eapply lookup_lt_Some).
  constructor; simpl; [done| |].
  - intros j q Hj. destruct (decide (i = j)) as [<-|Hne].
    + rewrite Hi' in Hj. injection Hj as <-. apply Hq.
    + rewrite list_lookup_insert_ne in Hj by done. by eapply Ht.
  - intros j c Hin.
    destruct (owed_step id e (λ j c x, will_close j c (k x)) (λ j c, will_close j c (Vis (At id e) k)) hw x w)
      with (B := λ j c, settles daemon_on j c p (λ _, False)
        ∨ ∃ i' q, i' ≠ i ∧ ts !! i' = Some q ∧ will_close j c q) (j := j) (c := c)
      as [Hcl|[Hw|[Hmain|(i' & q & Hne & Hi2 & Hw)]]]; try done.
    + intros c'. unfold will_close. cbn. by rewrite decide_True.
    + intros j' c' y. unfold will_close at 1. cbn. intros HO Hj. rewrite decide_False in HO by congruence. apply HO.
    + by apply handed_insert.
    + intros j' c' [?|[?|(i' & q & Hi2 & Hw)]]%Hc; [by left|by right; right; left|].
      destruct (decide (i' = i)) as [->|Hne].
      * right. left. rewrite Hi in Hi2. by injection Hi2 as <-.
      * right. right. right. by exists i', q.
    + by left.
    + right. right. by exists i, (k x).
    + by right; left.
    + right. right. exists i', q. split; [by rewrite list_lookup_insert_ne|done].
Qed.

(** *** The goroutines are tidy *)

Lemma tidy_at id {A} (p : prog mgrE A) :
  tidy itself no_more p square → tidy host_on host_ok_call (at_manager id p) square.
Proof. intros Hp. by apply (tidy_translate itself no_more _ _ (λ _, id)); [intros [] []|..]. Qed.

Lemma tidy_with h id {A} (dflt : A) f :
  (∀ m, tidy itself no_more (f m) square) → tidy host_on host_ok_call (with_manager h id dflt f) square.
Proof. intros Hf. unfold with_manager. destruct (managers h !! id); [by apply tidy_at|done]. Qed.

Lemma tidy_read {B} (f : Manager → B) : tidy itself no_more (read f) square.
Proof. split; [intros m c Hm E; cbn in E; congruence|done]. Qed.

Notation tidy_host p := (tidy host_on host_ok_call p square).

Lemma tidy_state h : tidy_host (Host_State h).
Proof.
  apply tidy_seq; [|done]. apply tidy_fold_range. intros out id.
  by apply tidy_seq; [apply tidy_with; intros m; apply tidy_read|].
Qed.

Lemma tidy_route h id {A} (k : result (Route * Config) → prog hostE A) :
  (∀ t, tidy_host (k t)) → tidy_host (RouteTarget h id ≫= k).
Proof.
  intros Hk. apply tidy_seq; [|done]. unfold RouteTarget. destruct (Host_Manager h id); [|done].
  by apply tidy_seq; [apply tidy_at, tidy_read|].
Qed.

Lemma tidy_reply {A} (f : A → admin_reply) p : tidy_host p → tidy_host (reply_with f p).
Proof. intros Hp. by apply tidy_seq. Qed.

Lemma tidy_echo h id msg : tidy_host (Host_Echo h id msg).
Proof. apply tidy_route. intros [[route m]|e]; [apply tidy_at, neat_routed|done]. Qed.

Lemma tidy_heartbeat h id : tidy_host (Host_Heartbeat h id).
Proof. apply tidy_route. intros [[route m]|e]; [apply tidy_at, neat_heartbeat|done]. Qed.

Lemma tidy_restart h id : tidy_host (RestartPlugin h id).
Proof.
  unfold RestartPlugin, Host_Call. apply tidy_seq; [|by intros [[? ? []]|]].
  unfold CallRequest. apply tidy_route. intros [[route m]|e]; [|done].
  cbn [rq_Call rq_PluginID]. rewrite decide_False, decide_False, decide_True by done.
  apply tidy_seq; [apply tidy_at, neat_Restart|]. intros [e|]; [done|].
  by apply tidy_seq; [apply tidy_at, tidy_read|].
Qed.

Lemma tidy_request h r : tidy_goroutine (request h r).
Proof.
  apply tidy_seq; [|done]. destruct r as [| |i| | |i|i|i]; apply tidy_reply; cbn.
  - by apply tidy_seq; [apply tidy_state|].
  - by apply tidy_seq; [apply tidy_state|].
  - unfold Service_Plugin, with_host. destruct (ValidatePluginID _); [done|].
    unfold Host_Plugin. destruct (Host_Manager h _); [|done]. by apply tidy_seq; [apply tidy_at, tidy_read|].
  - apply tidy_seq; [|done]. by apply tidy_seq; [apply tidy_state|].
  - apply tidy_seq; [|done]. by apply tidy_seq; [apply tidy_state|].
  - unfold Service_Echo, with_host. destruct (ValidatePluginID _); [done|apply tidy_echo].
  - unfold Service_Heartbeat, with_host. destruct (ValidatePluginID _); [done|].
    apply tidy_seq; [apply tidy_heartbeat|]. by intros [out [e|]].
  - unfold Service_Restart, with_host. destruct (ValidatePluginID _); [done|apply tidy_restart].
Qed.

Lemma tended_step d d' : daemon_step d d' → handed_over d d' → tended d → tended d'.
Proof.
  intros Hs Hh Ht. destruct Hs as [d X e k x d' E Hs|hw own adm conns p ts h r Hin|hw own adm conns p ts i X e k x hw' own' Hi Hs].
  - by eapply tended_main.
  - destruct Ht as [Hm Ht Hc]. constructor; simpl in *; [done| |].
    + intros i q [Hi|[_ Hi]]%lookup_app_Some; [by eapply Ht|].
      destruct (i - length ts)%nat; [|done]. injection Hi as <-. apply tidy_request.
    + intros id c [?|[?|(i & q & Hi & Hq)]]%Hc; [by left|by right; left|].
      right. right. exists i, q. split; [by apply lookup_app_l_Some|done].
  - by eapply tended_thread.
Qed.

(** If [run] keeps to its contract, so does the whole daemon at all times. *)
Lemma daemon_sound p Q d :
  mrg None None p Q (λ _, world0) serve0 → tidy daemon_on daemon_ok_call p square →
  rtc daemon_step (daemon0 p) d → (∃ pub held, good Q pub held d) ∧ tended d.
Proof.
  intros Hp Hq Hr. apply (rtc_ind_r (R := daemon_step)
    (λ d, (∃ pub held, good Q pub held d) ∧ tended d) (daemon0 p)); [| |done].
  - split; [|by constructor]. exists None, None. constructor; simpl; try done; [|by intros h ?%elem_of_nil].
    intros id. pose proof (eased0 id). split; [by apply q_core with (id_config id)|done].
  - intros d1 d2 _ Hs [(pub & held & Hg) Ht].
    destruct (daemon_step_good _ _ _ _ _ Hg Hs) as (pub' & held' & Hg' & Hh).
    split; [by exists pub', held'|by eapply tended_step].
Qed.

(** ** The run *)
Section Run.
Variable temp_dir : string.
Variable toml_decode : string → result tomlDaemonConfig.

(** What Close asks of the manager of a plugin. *)
Definition well (cfg : Config) (w : world) : Prop :=
  Inv cfg w ∧ (closeOnce (w_m w) = true → closed (w_m w) = true).

(** The managers of a host that may be closed: [h]'s are in order, no other was used. *)
Definition closable (h : Host) (hw : hosts_world) : Prop :=
  host_ok h ∧ (∀ id, id ∈ plugins h → well (cfg_of h id) (hw id))
  ∧ ∀ id, id ∉ plugins h → hw id = world0.

Lemma Close_quiet h hw :
  closable h hw → wp host_step (Host_Close h) (λ _ hw', ∀ id, quiet (hw' id)) hw.
Proof.
  intros (Hok & Hw & Hz). eapply wp_mono; [apply Host_Close_spec; [done|]; exact Hw|].
  intros r hw' (_ & Hc & Ht) id. destruct (decide (id ∈ plugins h)) as [Hid|Hid].
  - by destruct (Hc id Hid) as (_ & ? & ?).
  - rewrite Ht, Hz by done. done.
Qed.

Lemma StartAll_closable h hw :
  host_ok h → (∀ id, hw id = world0) →
  wp host_step (StartAll h) (λ _ hw', closable h hw') hw.
Proof.
  intros Hok Hz. eapply wp_mono; [apply (start_plugins_spec h Hok hw _ []); try done|].
  - apply Hok.
  - by intros id ?%elem_of_nil.
  - intros id _. unfold down. rewrite Hz. split_and!; try done. apply Inv_world0.
  - intros r hw' [Ht Hr]. split; [done|]. split; [|intros id Hid; by rewrite Ht].
    intros id Hid. unfold well. destruct r as [e|].
    + destruct (Hr id Hid) as (Hi & [_ Ho] & _). split; [done|]. by rewrite Ho.
    + destruct (Hr id Hid) as (Hi & [_ Ho] & _). split; [done|]. by rewrite Ho.
Qed.

(** Nothing is left: the manager has no connection and no process, is not
    healthy, and no process it started runs, but those the operating system
    did not end. *)
Definition at_rest (w : world) : Prop :=
  cmd (w_m w) = None ∧ client (w_m w) = None ∧ st_Healthy (state (w_m w)) = false
  ∧ w_running w ⊆ w_lost w.

Lemma idle_at_rest w : core (w_m w) → cmd (w_m w) = None → w_running w ⊆ w_lost w → at_rest w.
Proof.
  intros [Hh Hc] E Hr. rewrite E in Hc.
  assert (client (w_m w) = None) as Ec by (destruct (client _); [by destruct Hc as [? ?]|done]).
  split_and!; [done|done| |done]. rewrite Ec in Hh. destruct (st_Healthy _); [by destruct Hh|done].
Qed.

Lemma eased_at_rest hw : eased hw → (∀ id, quiet (hw id)) → ∀ id, at_rest (hw id).
Proof.
  intros He Hq id. destruct (Hq id) as [_ E]. destruct (He id) as [Hcore _ _ _ _ _ Hr _].
  apply idle_at_rest; [done|done|]. rewrite E in Hr. simpl in Hr. set_solver.
Qed.

(** *** The rules for [run] *)

Lemma mrg_host_seq pub held {A B} (p : prog hostE A) (k : A → prog daemonE B) Q1 Q hw adm :
  hrg true pub held p Q1 hw → (∀ h a hw', Q1 h a hw' → mrg pub h (k a) Q hw' adm) →
  mrg pub held (daemon_host p ≫= k) Q hw adm.
Proof. intros Hp Hk. eapply mrg_seq; [by apply mrg_host|]. intros pub' h a hw' adm' (-> & -> & ?). auto. Qed.

(** While the daemon is alone, [hrg_wp] joins what a program keeps to and what it does. *)
Lemma mrg_alone_seq {A B} (p : prog hostE A) (k : A → prog daemonE B) Q2 Q hw adm :
  hrg true None None p (λ h _ hw', h = None ∧ eased hw') hw → wp host_step p Q2 hw →
  (∀ a hw', eased hw' → Q2 a hw' → mrg None None (k a) Q hw' adm) →
  mrg None None (daemon_host p ≫= k) Q hw adm.
Proof.
  intros Hp Hw Hk. eapply mrg_host_seq; [by eapply hrg_wp|]. intros h a hw' [[-> He] H2]. by apply Hk.
Qed.

(** Calls that change nothing, while the daemon is alone. *)
Lemma loadTOML_alone path (Q : sharing → option string → result tomlDaemonConfig → hosts_world → serve_world → Prop) hw adm :
  (∀ a, Q None None a hw adm) → mrg None None (loadTOMLConfig toml_decode path) Q hw adm.
Proof.
  intros HQ. unfold loadTOMLConfig. case_bool_decide; [by intros hw' ->|]. intros data hw1 ->.
  destruct data as [d|e]; [|by intros hw' ->]. simpl. by destruct (toml_decode d); intros hw' ->.
Qed.

Lemma parse_alone opts (Q : sharing → option string → result resolvedDaemonConfig → hosts_world → serve_world → Prop) hw adm :
  (∀ a, Q None None a hw adm) → mrg None None (parseDaemonConfig temp_dir toml_decode opts) Q hw adm.
Proof.
  intros HQ. unfold parseDaemonConfig. apply mrg_bind, loadTOML_alone. by intros [f|e] hw' ->.
Qed.

(** The monitors are started. *)
Lemma monitors_go P h ticks hw adm :
  serves P h →
  mrg (Some P) None (for_range (Host_MonitorLoop h ticks) (λ p, trigger (DGo p)))
    (λ pub held _ hw' adm', pub = Some P ∧ held = None ∧ adm' = adm ∧ rely true (Some P) None hw hw') hw adm.
Proof.
  intros [Hok HP]. unfold Host_MonitorLoop.
  assert (∀ ids hw1, ids ⊆ plugins h → rely true (Some P) None hw hw1 →
    mrg (Some P) None (for_range ((λ id, with_manager h id tt (λ m, MonitorLoop m ticks)) <$> ids) (λ p, trigger (DGo p)))
      (λ pub held _ hw' adm', pub = Some P ∧ held = None ∧ adm' = adm ∧ rely true (Some P) None hw hw') hw1 adm)
    as Hall; [|by apply Hall].
  induction ids as [|id ids IH]; intros hw1 Hids Hr; [intros hw2 H2; split_and!; [done..|by etrans]|].
  cbn [fmap list_fmap for_range]. split.
  - exists P. split; [done|]. intros hw2. apply (monitor_lawful h Hok P HP). apply Hids. by left.
  - intros x hw2 Hr2. apply IH; [|by etrans]. intros y Hy. apply Hids. by right.
Qed.

(** *** The contract of [run] *)
Variable args : list string.

Definition coded (code : Z) (adm : serve_world) : Prop :=
  code ∈ [0; 1; 2]
  ∧ (code = 2 ↔ ∃ e, Parse daemon_flags args = inl (FlagFailed e))
  ∧ (code = 0 → Parse daemon_flags args = inl ErrHelp ∨ sv_done adm = true).

Definition ended (pub : sharing) (_ : option string) (r : option Z) (hw : hosts_world) (adm : serve_world) : Prop :=
  match r with
  | Some code => (∀ id, (shared pub id → shut (hw id)) ∧ (¬ shared pub id → at_rest (hw id)))
      ∧ cleaned adm ∧ coded code adm
  | None => sv_listening adm = true
  end.

Lemma coded_parsed actual rest code adm :
  Parse daemon_flags args = inr (actual, rest) → code = 1 ∨ code = 0 ∧ sv_done adm = true → coded code adm.
Proof.
  intros E Hc. unfold coded. rewrite E. split_and!.
  - destruct Hc as [->|[-> _]]; set_solver.
  - split; [by destruct Hc as [->|[-> _]]|by intros (e & [=])].
  - destruct Hc as [->|[_ Hd]]; [done|by right].
Qed.

Lemma ended_alone code hw adm :
  (∀ id, at_rest (hw id)) → cleaned adm → coded code adm → ∀ h, mrg None h (Ret (Some code)) ended hw adm.
Proof. intros Hr Ha Hc h hw' ->. split; [|done]. intros id. split; [done|by intros _]. Qed.

(** Close, while the daemon serves. *)
Lemma close_shared h code hw adm :
  host_ok h → (∀ id, id ∉ plugins h → at_rest (hw id)) → cleaned adm → coded code adm →
  mrg (Some (list_to_set (plugins h))) None (_ ← daemon_host (Host_Close h); Ret (Some code)) ended hw adm.
Proof.
  intros Hok Hz Ha Hc. eapply mrg_host_seq.
  - apply (Host_Close_shuts h Hok (list_to_set (plugins h))). intros id. by rewrite elem_of_list_to_set.
  - intros h' a hw' (-> & Hs & Hr) hw2 H2. split; [|done]. intros id. simpl. rewrite elem_of_list_to_set. split.
    + intros Hid. eapply rely_later; [exact H2|by rewrite elem_of_list_to_set|]. by apply Hs.
    + intros Hid. destruct Hr as [Hr _], H2 as [H2 _].
      rewrite H2, Hr by (rewrite ?elem_of_list_to_set; done). by apply Hz.
Qed.

(** From the shared managers on: the monitors, the admin server, Close. *)
Lemma serving_ends h n ticks path actual rest hw :
  Parse daemon_flags args = inr (actual, rest) → host_ok h → (∀ id, id ∉ plugins h → at_rest (hw id)) →
  mrg (Some (list_to_set (plugins h))) None
    (deps_MonitorLoop (productionDaemonDeps n ticks) h ;;
     out ← deps_serve (productionDaemonDeps n ticks) path h;
     match out with
     | None => Ret None
     | Some (Some e) =>
         trigger (DLog e) ;;
         trigger DCancel ;; _ ← deps_Close (productionDaemonDeps n ticks) h; Ret (Some 1)
     | Some None => trigger DCancel ;; _ ← deps_Close (productionDaemonDeps n ticks) h; Ret (Some 0)
     end) ended hw serve0.
Proof.
  intros E Hok Hz. set (P := list_to_set (plugins h)).
  assert (serves P h) as Hs by (split; [done|]; intros id; unfold P; by rewrite elem_of_list_to_set).
  assert (∀ hw', rely true (Some P) None hw hw' → ∀ id, id ∉ plugins h → at_rest (hw' id)) as Hz'.
  { intros hw' [Hr _] id Hid. rewrite Hr by (unfold P; rewrite ?elem_of_list_to_set; done). by apply Hz. }
  eapply mrg_seq; [by apply monitors_go|]. intros pub held u hw1 adm (-> & -> & -> & Hr1). clear u.
  eapply mrg_seq; [apply (mrg_admin P h _ (served n) hw); [done..|apply Serve_spec]|].
  intros pub held out hw2 adm (-> & -> & Hsv & Hr2). destruct out as [[e|]|].
  - destruct Hsv as [[Hcl _] _]. intros u hw3 H3 u' hw4 H4. apply close_shared; [done| |done|].
    + apply Hz'. etrans; [exact Hr2|]. by etrans.
    + eapply coded_parsed; [done|by left].
  - destruct Hsv as [[Hcl Hd] _]. intros u hw3 H3. apply close_shared; [done| |done|].
    + apply Hz'. by etrans.
    + eapply coded_parsed; [done|]. right. auto.
  - destruct Hsv as [[Hl _] _]. by intros hw3 H3.
Qed.

Lemma cleaned0 : cleaned serve0.
Proof. split; [done|by left]. Qed.

Lemma run_lawful name n ticks :
  mrg None None (run_daemon temp_dir toml_decode name args (productionDaemonDeps n ticks))
    ended (λ _, world0) serve0.
Proof.
  unfold run_daemon. destruct (Parse daemon_flags args) as [e|[actual rest]] eqn:E.
  { intros u hw ->. apply ended_alone; [done|apply cleaned0|]. unfold coded. rewrite E. destruct e as [|e].
    - split_and!; [set_solver|split; [done|by intros (e & [=])]|by left].
    - split_and!; [set_solver|split; [by exists e|done]|done]. }
  pose proof cleaned0. assert (coded 1 serve0) as Hone by (eapply coded_parsed; [done|by left]).
  apply mrg_bind, parse_alone. intros cfg. destruct cfg as [cfg|e]; [|by intros u hw ->; apply ended_alone].
  eapply mrg_alone_seq; [apply NewHost_alone, eased0|by apply NewHost_quiet|]. intros [h|e] hw He Hh.
  2:{ intros u hw1 ->. apply ended_alone; [by apply eased_at_rest|done..]. }
  destruct Hh as [Hok Hz]. eapply mrg_alone_seq; [by apply StartAll_alone|by apply StartAll_closable|].
  intros [e|] hw1 He1 Hc1.
  - intros u hw2 ->. eapply mrg_alone_seq; [by apply Host_Close_alone|by apply Close_quiet|].
    intros r hw3 He3 Hq3. by apply ended_alone; [apply eased_at_rest|..].
  - split; [done|]. split; [done|]. exists (list_to_set (plugins h)).
    intros u. eapply serving_ends; [done..|]. intros id Hid. destruct Hc1 as (_ & _ & Hz1). by rewrite Hz1.
Qed.

(** *** [run] closes its connections *)
Notation tidy_main p := (tidy daemon_on daemon_ok_call p square).

Lemma tidy_daemon_host {A} (p : prog hostE A) : tidy_host p → tidy_main (daemon_host p).
Proof.
  intros Hp. apply (tidy_translate host_on host_ok_call _ _ (λ id, id)); [done| |done|done].
  intros X e. cbn. by destruct (host_on X e) as [[]|].
Qed.

Lemma tidy_daemon_admin h {A} (p : prog adminE A) : tidy_main (daemon_admin h p).
Proof. induction p as [a|X e k IH]; [done|]. by split_and!. Qed.

Lemma tidy_call {X A} (e : daemonE X) (k : X → prog daemonE A) :
  daemon_on X e = None → daemon_ok_call X e → (∀ x, tidy_main (k x)) → tidy_main (trigger e ≫= k).
Proof. intros E Ho Hk. cbn. by rewrite E. Qed.

Lemma tidy_NewHost cfg : tidy_host (NewHost cfg).
Proof.
  unfold NewHost. case_bool_decide; [done|]. destruct (bool_decide _); [done|]. apply tidy_seq; [|by intros []].
  generalize (∅ : gset string), (mkHost ∅ []). induction (hc_Plugins cfg) as [|p ps IH]; intros seen h; [done|].
  cbn [new_managers]. destruct (check_plugin seen p); [done|]. apply tidy_seq; [apply tidy_at, neat_New|].
  intros [m|e]; [apply IH|]. apply tidy_seq; [|done]. apply tidy_for_range. intros [id m].
  by apply tidy_seq; [apply tidy_at, neat_Close|].
Qed.

Lemma tidy_StartAll h : tidy_host (StartAll h).
Proof.
  unfold StartAll. generalize ([] : list string). induction (plugins h) as [|id ids IH]; intros started; [done|].
  cbn [start_plugins]. apply tidy_seq; [apply tidy_with; intros m; apply neat_Start|]. intros [e|]; [|apply IH].
  apply tidy_seq; [|done]. apply tidy_for_range. intros x.
  by apply tidy_seq; [apply tidy_with; intros m; apply neat_Kill|].
Qed.

Lemma tidy_Close h : tidy_host (Host_Close h).
Proof.
  apply tidy_fold_range. intros acc id. by apply tidy_seq; [apply tidy_with; intros m; apply neat_Close|].
Qed.

Lemma tidy_monitors h ticks : tidy_main (for_range (Host_MonitorLoop h ticks) (λ p, trigger (DGo p))).
Proof.
  unfold Host_MonitorLoop. induction (plugins h) as [|id ids IH]; [done|]. cbn [fmap list_fmap for_range].
  apply tidy_call; [done| |done]. apply tidy_with. intros m. apply neat_Monitor.
Qed.

Lemma tidy_parse opts : tidy_main (parseDaemonConfig temp_dir toml_decode opts).
Proof.
  unfold parseDaemonConfig. apply tidy_seq; [|by intros []]. unfold loadTOMLConfig. case_bool_decide; [done|].
  apply tidy_call; [done..|]. intros [d|e]; [|done]. by destruct (toml_decode d).
Qed.

Lemma tidy_run name n ticks :
  tidy_main (run_daemon temp_dir toml_decode name args (productionDaemonDeps n ticks)).
Proof.
  assert (∀ h (code : Z), tidy (A := option Z) daemon_on daemon_ok_call
    (_ ← daemon_host (Host_Close h); Ret (Some code)) square) as Hclose.
  { intros h code. by apply tidy_seq; [apply tidy_daemon_host, tidy_Close|]. }
  unfold run_daemon. destruct (Parse daemon_flags args) as [e|[actual rest]]; [by apply tidy_call|].
  apply tidy_seq; [apply tidy_parse|]. intros [cfg|e]; [|by apply tidy_call].
  apply tidy_seq; [apply tidy_daemon_host, tidy_NewHost|]. intros [h|e]; [|by apply tidy_call].
  apply tidy_seq; [apply tidy_daemon_host, tidy_StartAll|]. intros [e|].
  - apply tidy_call; [done..|]. intros u. apply Hclose.
  - apply tidy_call; [done..|]. intros u. apply tidy_seq; [apply tidy_monitors|]. intros u'.
    apply tidy_seq; [apply tidy_daemon_admin|]. intros [[e|]|]; [| |done].
    + apply tidy_call; [done..|]. intros u2. apply tidy_call; [done..|]. intros u3. apply Hclose.
    + apply tidy_call; [done..|]. intros u2. apply Hclose.
Qed.
End Run.

(** C10. The daemon leaves nothing behind.  Take any execution of the whole
    daemon: run, from the command line on, the monitors it starts, and a
    goroutine for every request made on a connection its admin server accepted,
    interleaved call by call, the managers shared, whatever the plugins, the
    operating system, the files and the clients do.  Whenever run has returned
    an exit code, and for ever after, no manager has a process or a client or
    is reported healthy; of the processes the managers started none runs, apart
    from those the operating system refused to wait for or kill; a connection
    to a plugin that is still open is one that an unfinished monitor or request
    detached from its manager and closes before it returns; the admin listener
    is closed and its socket file gone (unless the operating system refused to
    remove it); the code is 2 exactly for a malformed command line, 0 only for
    a request for help or after the context ended, else 1.  If run does not
    return its admin server is listening. *)
Theorem run_exits temp_dir toml_decode name args n ticks d :
  rtc daemon_step (daemon0 (run_daemon temp_dir toml_decode name args (productionDaemonDeps n ticks))) d →
  match d_main d with
  | Ret (Some code) =>
      (∀ id, let w := d_hosts d id in
         cmd (w_m w) = None ∧ client (w_m w) = None ∧ st_Healthy (state (w_m w)) = false
         ∧ w_running w ⊆ w_lost w
         ∧ ∀ c, c ∈ w_conns w → ∃ i q, d_threads d !! i = Some q ∧ will_close id c q)
      ∧ sv_listening (d_admin d) = false
      ∧ (sv_socket (d_admin d) = false ∨ sv_refused (d_admin d) = true)
      ∧ code ∈ [0; 1; 2]
      ∧ (code = 2 ↔ ∃ e, Parse daemon_flags args = inl (FlagFailed e))
      ∧ (code = 0 → Parse daemon_flags args = inl ErrHelp ∨ sv_done (d_admin d) = true)
  | Ret None => sv_listening (d_admin d) = true
  | Vis _ _ => True
  end.
Proof.
  intros Hr. destruct (daemon_sound _ _ _ (run_lawful temp_dir toml_decode args name n ticks)
    (tidy_run _ _ _ _ _ _) Hr) as [(pub & held & Hg) [_ _ Hconns]].
  destruct (d_main d) as [r|X e k] eqn:E; [|done]. pose proof (g_main _ _ _ _ Hg) as Hm. rewrite E in Hm.
  specialize (Hm (d_hosts d) (reflexivity _)). destruct r as [code|]; [|exact Hm].
  destruct Hm as (Hrest & [Hl Hs] & Hcode). split; [|by split_and!; apply Hcode || done].
  intros id. destruct (Hrest id) as [Hin Hout].
  assert (at_rest (d_hosts d id)) as (E1 & E2 & E3 & E4).
  { destruct pub as [P|]; cbn in *; [|apply Hout; by intros []]. destruct (decide (id ∈ P)); [|by apply Hout].
    destruct Hin as (_ & ? & ?); [done|]. apply idle_at_rest; [|done..]. by destruct (g_order _ _ _ _ Hg id). }
  split_and!; try done. intros c Hc. destruct (Hconns id c Hc) as [Hcl|[Hf|Hq]]; [congruence|done|done].
Qed.
End System.
