(* ===== verification/DaemonDemo.v ===== *)
(** * A daemon that runs

    A scheduler for the goroutines of DaemonPool against the plugin of
    ManagerDemo, and a run on it: the daemon starts the plugin, a client asks
    it to restart the plugin, and the context ends in the middle of it.  Last,
    that the daemon can always go on until run returns. *)

From stdpp Require Import functions.
From S2P Require Import Prelude Prog GoText GoPath GoFlag PluginID Auth Runtime Bundle EventLog PluginApi Manager ManagerWorld ManagerFacts ManagerProps ManagerDemo Fence Host HostFacts HostProps HostDemo HostFence Admin AdminFacts Daemon DaemonFacts DaemonPool.

#[local] Existing Instance ascii_tables.
#[local] Existing Instance demo_readers.

(** One connection comes in; then the context ends and the listener is closed. *)
Definition admin_answer {X} (e : adminE X) (w : serve_world) : X :=
  match e in adminE X return X with
  | VSys e => demo_sys world0 e
  | VRegisterName => None
  | VGoCloseOnDone _ => tt
  | VAccept _ => match sv_served w with [] => Ok 7%nat | _ => Err (errors_New "use of closed network connection") end
  | VDone => true
  | VServeConn _ => tt
  | VDial _ _ => Ok 7%nat
  end.

Definition admin_run {X} (e : adminE X) (w : serve_world) : serve_world :=
  match e with
  | VSys (ListenSocket _) => {| ({| w with sv_listening := true |}) with sv_socket := true |}
  | VSys (CloseListener _) => {| w with sv_listening := false |}
  | VSys (Remove _) => {| w with sv_socket := false |}
  | VRegisterName => {| w with sv_registered := true |}
  | VDone => {| w with sv_done := true |}
  | VServeConn c => {| w with sv_served := sv_served w ++ [c] |}
  | _ => w
  end.

Lemma admin_run_ok X (e : adminE X) w : serve_step X e w (admin_answer e w) (admin_run e w).
Proof. destruct e as [X e| | | | | |]; try done. by destruct e. Qed.

(** Goroutine [i] makes a call on a manager, when the lock allows it. *)
Definition try_call (i : nat) {X} (e : hostE X) (hw : hosts_world) (own : string → option nat)
  : option (X * hosts_world * (string → option nat)) :=
  match e in hostE X return option (X * hosts_world * (string → option nat)) with
  | At id e =>
      let r := demo_run _ e (hw id) in
      match lock_kind e with
      | Acquire => match own id with
          | None => Some (r.2, <[id := r.1]> hw, <[id := Some i]> own)
          | Some _ => None
          end
      | Release => Some (r.2, <[id := r.1]> hw, <[id := None]> own)
      | Other => Some (r.2, <[id := r.1]> hw, own)
      end
  end.

Lemma try_call_ok i X (e : hostE X) hw own x hw' own' :
  try_call i e hw own = Some (x, hw', own') → call_step i e hw own x hw' own'.
Proof.
  destruct e as [X id e]. cbn. intros E. exists (demo_run X e (hw id)).1.
  assert (x = (demo_run X e (hw id)).2 ∧ hw' = <[id := (demo_run X e (hw id)).1]> hw) as [-> ->].
  { destruct (lock_kind e); [destruct (own id)|..]; by simplify_eq. }
  split; [apply demo_run_ok|]. split; [done|]. destruct (lock_kind e); [destruct (own id) eqn:Ho|..]; by simplify_eq.
Qed.

Inductive turn : Type :=
| Main                       (* a call of run *)
| Thread (i : nat)           (* a call of the goroutine started [i]-th *)
| Client (r : admin_request). (* a request on the first connection *)

Definition main_turn {X} (e : daemonE X) (k : X → prog daemonE (option Z)) (d : daemon) : daemon :=
  match e in daemonE X return (X → prog daemonE (option Z)) → daemon with
  | DReadFile _ => λ k, mkDaemon (d_hosts d) (d_owner d) (d_admin d) (d_conns d) (k (Ok "")) (d_threads d)
  | DHost e => λ k,
      match try_call 0 e (d_hosts d) (d_owner d) with
      | Some (x, hw, own) => mkDaemon hw own (d_admin d) (d_conns d) (k x) (d_threads d)
      | None => d
      end
  | DGo q => λ k, mkDaemon (d_hosts d) (d_owner d) (d_admin d) (d_conns d) (k tt) (d_threads d ++ [q])
  | DAdmin h e => λ k, mkDaemon (d_hosts d) (d_owner d) (admin_run e (d_admin d)) (accepted h e (d_conns d))
      (k (admin_answer e (d_admin d))) (d_threads d)
  | DFlagOutput _ _ | DLog _ | DNotifySignal | DCancel =>
      λ k, mkDaemon (d_hosts d) (d_owner d) (d_admin d) (d_conns d) (k tt) (d_threads d)
  end k.

Definition take (t : turn) (d : daemon) : daemon :=
  match t with
  | Main => match d_main d with Ret _ => d | Vis e k => main_turn e k d end
  | Thread i =>
      match d_threads d !! i with
      | Some (Vis e k) =>
          match try_call (S i) e (d_hosts d) (d_owner d) with
          | Some (x, hw, own) =>
              mkDaemon hw own (d_admin d) (d_conns d) (d_main d) (<[i := k x]> (d_threads d))
          | None => d
          end
      | _ => d
      end
  | Client r =>
      match d_conns d with
      | h :: _ => mkDaemon (d_hosts d) (d_owner d) (d_admin d) (d_conns d) (d_main d)
          (d_threads d ++ [request h r])
      | [] => d
      end
  end.

Lemma take_ok t d : rtc daemon_step d (take t d).
Proof.
  destruct t as [|i|r]; cbn.
  - destruct (d_main d) as [r|X e k] eqn:E; [done|].
    assert (∀ x d', main_call e (k x) d x d' → rtc daemon_step d d') as Hstep
      by (intros x d' Hs; eapply rtc_once, step_main; [exact E|exact Hs]).
    destruct e; cbn; try by (eapply Hstep; cbn).
    + destruct (try_call 0 e _ _) as [[[x hw] own]|] eqn:Et; [|done].
      apply (Hstep x). exists hw, own. split; [by apply try_call_ok|done].
    + eapply Hstep. exists (admin_run e (d_admin d)). split; [apply admin_run_ok|done].
  - destruct (d_threads d !! i) as [[a|X e k]|] eqn:E; [done| |done].
    destruct (try_call _ e _ _) as [[[x hw] own]|] eqn:Et; [|done].
    destruct d. eapply rtc_once, step_thread; [exact E|by apply try_call_ok].
  - destruct d as [hw own adm [|h conns] p ts]; [done|]. apply rtc_once, step_request. by left.
Qed.

Definition turns (ts : list turn) (d : daemon) : daemon := foldl (λ d t, take t d) d ts.

Lemma turns_ok ts d : rtc daemon_step d (turns ts d).
Proof. revert d. induction ts as [|t ts IH]; intros d; [done|]. etrans; [apply take_ok|apply IH]. Qed.

(** ** The run *)
Definition demo_args : list string := ["-plugin"; "/opt/plugins/echo"].
Definition demo_daemon : daemon :=
  daemon0 (run_daemon "/run" (λ _, Ok toml0) "rpcplugind" demo_args (productionDaemonDeps 2 3)).
Definition exit_code (d : daemon) : option (option Z) := match d_main d with Ret c => Some c | _ => None end.

(** The daemon starts the plugin and accepts a connection; the monitor makes
    its first calls; the client asks for a restart, which has stopped the plugin
    and holds its lifecycle lock when the context ends; run leaves the accept
    loop and waits for the lock in Close. *)
Definition demo_overlap : daemon :=
  turns (replicate 53 Main ++ replicate 5 (Thread 0)
    ++ [Client (ARestart (mkPluginRequest "echo"))] ++ replicate 9 (Thread 1) ++ replicate 60 Main) demo_daemon.

(** The restart brings the plugin up again, in generation 2; then Close has the
    lock and run returns; last, the monitor finds its manager closed. *)
Definition demo_exited : daemon :=
  turns (replicate 200 (Thread 1) ++ replicate 100 Main ++ replicate 100 (Thread 0)) demo_overlap.

Lemma demo_overlap_ok : rtc daemon_step demo_daemon demo_overlap.
Proof. apply turns_ok. Qed.
Lemma demo_exited_ok : rtc daemon_step demo_daemon demo_exited.
Proof. etrans; [apply demo_overlap_ok|apply turns_ok]. Qed.

Lemma demo_overlap_waits :
  exit_code demo_overlap = None ∧ d_owner demo_overlap "echo" = Some 2%nat
  ∧ sv_done (d_admin demo_overlap) = true ∧ sv_listening (d_admin demo_overlap) = false.
Proof. vm_compute. split_and!; reflexivity. Qed.

Lemma demo_exited_code :
  exit_code demo_exited = Some (Some 0)
  ∧ st_GenerationID (state (w_m (d_hosts demo_exited "echo"))) = 2
  ∧ w_nextp (d_hosts demo_exited "echo") = 2%nat ∧ w_nextc (d_hosts demo_exited "echo") = 2%nat.
Proof. vm_compute. split_and!; reflexivity. Qed.

Lemma run_exits_witness :
  ∃ d, rtc daemon_step demo_daemon d ∧ d_main d = Ret (Some 0)
    ∧ st_GenerationID (state (w_m (d_hosts d "echo"))) = 2
    ∧ cmd (w_m (d_hosts d "echo")) = None ∧ w_running (d_hosts d "echo") ⊆ w_lost (d_hosts d "echo")
    ∧ sv_listening (d_admin d) = false.
Proof.
  pose proof demo_exited_ok as Hr. pose proof demo_exited_code as Hc. revert Hr Hc. generalize demo_exited.
  intros d Hr (Hc & Hg & _). exists d. split; [exact Hr|].
  pose proof (run_exits "/run" (λ _, Ok toml0) "rpcplugind" demo_args 2 3 d Hr) as He.
  unfold exit_code in Hc. destruct (d_main d) as [r|X e k]; [|discriminate Hc].
  injection Hc as ->. destruct He as (Hall & Hl & _). destruct (Hall "echo") as (E1 & _ & _ & E4 & _).
  split; [reflexivity|]. split; [exact Hg|]. split; [exact E1|]. split; [exact E4|exact Hl].
Defined.

(** ** No deadlock *)
Section Live.
Context `{UnicodeTables} `{FlagReaders}.

Definition lock_after (i : nat) (k : lock_op) (id : string) (own : string → option nat) : string → option nat :=
  match k with Acquire => <[id := Some i]> own | Release => <[id := None]> own | Other => own end.

Lemma call_enabled i id {X} (e : mgrE X) hw own :
  (lock_kind e = Acquire → own id = None) →
  call_step i (At id e) hw own (demo_run X e (hw id)).2 (<[id := (demo_run X e (hw id)).1]> hw)
    (lock_after i (lock_kind e) id own).
Proof.
  intros Ho. exists (demo_run X e (hw id)).1. split; [apply demo_run_ok|]. split; [done|].
  destruct (lock_kind e); [|done..]. split; [by apply Ho|done].
Qed.

(** The goroutine in a lifecycle lock can go on until it leaves it. *)
Lemma lock_released Q pub held d i q id :
  good Q pub held d → d_threads d !! i = Some q → d_owner d id = Some (S i) →
  ∃ d', rtc daemon_step d d' ∧ d_main d' = d_main d ∧ d_owner d' id = None.
Proof.
  revert pub held d. induction q as [a|X e k IH]; intros pub held d Hg Hi Ho;
    destruct (g_threads _ _ _ _ Hg i _ Hi) as (hi & Hh & Hq); pose proof (proj1 (Hh id) Ho) as Ehi.
  { specialize (Hq (d_hosts d) (reflexivity _)). unfold idle_after in Hq. congruence. }
  destruct e as [X j e]. cbn in Hq. destruct Hq as [_ Hq].
  destruct d as [hw own adm conns p ts]. simpl in *.
  assert (lock_kind e ≠ Acquire) as Hna by (intros He; rewrite He in Hq; destruct Hq as [Hq _]; congruence).
  pose proof (step_thread hw own adm conns p ts i X (At j e) k _ _ _ Hi
    (call_enabled (S i) j e hw own (λ He, False_ind _ (Hna He)))) as Hs.
  destruct (lock_kind e) eqn:He; [done| |].
  - destruct Hq as [Hq _]. assert (j = id) as -> by congruence. eexists. split; [by apply rtc_once|].
    split; [done|]. simpl. by rewrite fn_lookup_insert.
  - destruct (daemon_step_good _ _ _ _ _ Hg Hs) as (pub' & held' & Hg' & _).
    destruct (IH (demo_run X e (hw j)).2 pub' held' _ Hg') as (d' & Hr & Em & En); simpl; [|done|].
    { apply list_lookup_insert_eq. by eapply lookup_lt_Some. }
    exists d'. split; [by eapply rtc_l|done].
Qed.

Lemma rtc_good Q pub held d d' : good Q pub held d → rtc daemon_step d d' → ∃ pub' held', good Q pub' held' d'.
Proof.
  intros Hg Hr. revert pub held Hg. induction Hr as [d|d1 d2 d3 Hs _ IH]; intros pub held Hg; [by eauto|].
  destruct (daemon_step_good _ _ _ _ _ Hg Hs) as (pub' & held' & Hg' & _). by eapply IH.
Qed.

(** [run] can go on, the lock it waits for being released first. *)
Lemma main_enabled Q pub held d X (e : daemonE X) k :
  good Q pub held d → d_main d = Vis e k →
  ∃ d' x, rtc daemon_step d d' ∧ d_main d' = k x.
Proof.
  intros Hg E.
  assert (∀ x d', main_call e (k x) d x d' → d_main d' = k x →
    ∃ d' x, rtc daemon_step d d' ∧ d_main d' = k x) as Hstep.
  { intros x d' Hs Em. exists d', x. split; [|done]. by eapply rtc_once, step_main. }
  destruct e as [path|name e|e| | |X e|q|X h e].
  - by apply (Hstep (Ok "") _ eq_refl).
  - by apply (Hstep tt _ eq_refl).
  - by apply (Hstep tt _ eq_refl).
  - by apply (Hstep tt _ eq_refl).
  - by apply (Hstep tt _ eq_refl).
  - destruct e as [X id e].
    assert (∃ d1, rtc daemon_step d d1 ∧ d_main d1 = d_main d
      ∧ (lock_kind e = Acquire → d_owner d1 id = None)) as (d1 & Hr & Em & Hfree).
    { destruct (lock_kind e) eqn:He; [|by exists d..].
      pose proof (g_main _ _ _ _ Hg) as Hm. rewrite E in Hm. cbn in Hm. rewrite He in Hm.
      destruct Hm as (_ & -> & _). destruct (d_owner d id) as [[|i]|] eqn:Ho; [| |by exists d].
      - by apply (g_holds _ _ _ _ Hg) in Ho.
      - destruct (g_exists _ _ _ _ Hg id i Ho) as [q Hq].
        destruct (lock_released _ _ _ _ _ _ _ Hg Hq Ho) as (d1 & ? & ? & ?). by exists d1. }
    pose proof (call_enabled 0 id e (d_hosts d1) (d_owner d1) Hfree) as Hc.
    eexists _, (demo_run X e (d_hosts d1 id)).2. split; [eapply rtc_r; [exact Hr|]|].
    + eapply step_main; [exact (eq_trans Em E)|]. eexists _, _. split; [exact Hc|reflexivity].
    + done.
  - by apply (Hstep tt _ eq_refl).
  - eapply (Hstep (admin_answer e (d_admin d))); [|shelve].
    eexists. split; [apply admin_run_ok|reflexivity]. Unshelve. reflexivity.
Qed.

Lemma run_goes_on Q p pub held d :
  good Q pub held d → d_main d = p → ∃ d' r, rtc daemon_step d d' ∧ d_main d' = Ret r.
Proof.
  revert pub held d. induction p as [r|X e k IH]; intros pub held d Hg E; [by exists d, r|].
  destruct (main_enabled _ _ _ _ _ _ _ Hg E) as (d1 & x & Hr & Em).
  destruct (rtc_good _ _ _ _ _ Hg Hr) as (pub' & held' & Hg').
  destruct (IH x pub' held' d1 Hg' Em) as (d2 & r & Hr2 & Em2). exists d2, r. split; [by etrans|done].
Qed.


End Live.

