(* ===== verification/Ctl.v ===== *)
(** * The control command (src/cmd/rpcpluginctl, src/internal/cli)

    The command line of rpcpluginctl, its requests to the admin socket, its
    reading of logs and what it writes.  The indented encoding of a value
    (encoding/json) and the rendering of a time are parameters. *)

From S2P Require Import Prelude Prog GoText GoPath GoFlag PluginID Runtime Bundle EventLog LogRead PluginApi Manager Host Admin.

(** ** The command among the arguments (args.go) *)

Definition flagsWithValues : gset string :=
  list_to_set ["-runtime-dir"; "-plugin-id"; "-message"; "-level"; "-component"; "-event";
    "-method"; "-generation"; "-capability"; "-operation"; "-correlation"; "-limit"; "-format";
    "-since"].

Definition boolFlags : gset string := list_to_set ["-reverse"; "-summary"].

(** The search for [flagName=] prefixes changes nothing: it answers false. *)
Definition takesValue (arg : string) : bool := bool_decide (arg ∈ flagsWithValues).

Definition isBoolFlag (arg : string) : bool :=
  bool_decide (arg ∈ boolFlags)
  || existsb (λ flagName, bool_decide (arg = flagName +:+ "=true")
                          || bool_decide (arg = flagName +:+ "=false")) (elements boolFlags).

(** The loop, [pre] being [args[:i]]. *)
Fixpoint split_args (pre args : list string) : string * list string :=
  match args with
  | [] => ("", pre)
  | arg :: rest =>
      if decide (arg = "--") then
        match rest with
        | [] => ("", pre)
        | command :: rest => (command, pre ++ rest)
        end
      else if takesValue arg then
        match rest with
        | [] => ("", pre ++ [arg])
        | value :: rest => split_args (pre ++ [arg; value]) rest
        end
      else if isBoolFlag arg then split_args (pre ++ [arg]) rest
      else if HasPrefix arg "-" then split_args (pre ++ [arg]) rest
      else (arg, pre ++ rest)
  end.

Definition splitCommandArgs (args : list string) : string * list string := split_args [] args.

(** ** Calls *)

Inductive ctlE : Type → Type :=
| CFlagOutput (e : flag_error) : ctlE unit             (* what the FlagSet prints *)
| CLog (message : string) : ctlE unit                  (* logger.Print *)
| CAdmin {X : Type} (e : adminE X) : ctlE X
| CCall (c : conn) (r : admin_request) : ctlE (result admin_reply)  (* client.Call *)
| CCloseClient (c : conn) : ctlE unit
| CStat (path : string) : ctlE (option error)
| CReadDir (path : string) : ctlE (result (list (string * bool)))   (* names, IsDir *)
| CRead {X : Type} (e : readE X) : ctlE X
| CWrite (text : string) : ctlE (option error).        (* one write to stdout *)

(** ** Writing results (internal/cli) *)

(** What the encoder is given. *)
Inductive printable : Type :=
| PState (st : State)
| PHostState (st : HostState)
| PCapabilities (caps : gmap string (list string))
| PRoutes (routes : list Route)
| PHeartbeat (out : HeartbeatResponse)
| PEcho (Message : string)
| PEvents (events : list Event)
| PSummary (s : Summary).

Section Cli.
Context `{UnicodeTables}.
(** enc.Encode of an encoder with SetIndent: the text, or why there is none. *)
Variable encode : printable → result string.
Variable format_time : time → string.

Definition encode_to (what : string) (v : printable) : prog ctlE (option error) :=
  match encode v with
  | Err e => Ret (Some (errors_Wrap what e))
  | Ok text =>
      e ← trigger (CWrite text);
      match e with Some e => Ret (Some (errors_Wrap what e)) | None => Ret None end
  end.

Definition WriteAny (v : printable) : prog ctlE (option error) := encode_to "encode response" v.
Definition WriteState (st : State) : prog ctlE (option error) := encode_to "encode state" (PState st).
Definition WriteHostState (st : HostState) : prog ctlE (option error) :=
  encode_to "encode host state" (PHostState st).
Definition WriteCapabilities (caps : gmap string (list string)) : prog ctlE (option error) :=
  encode_to "encode capability map" (PCapabilities caps).

(** One write per text; the first error ends the loop. *)
Fixpoint write_all (what : string) (texts : list string) : prog ctlE (option error) :=
  match texts with
  | [] => Ret None
  | text :: rest =>
      e ← trigger (CWrite text);
      match e with
      | Some e => Ret (Some (errors_Wrap what e))
      | None => write_all what rest
      end
  end.

Definition WriteEventsText (events : list Event) : prog ctlE (option error) :=
  write_all "write text event" ((λ event, FormatText format_time event +:+ newline) <$> events).

Definition redactEventsForDisplay (events : list Event) : list Event :=
  if bool_decide (events = []) then events else RedactForDisplay <$> events.

Definition WriteEventsJSON (events : list Event) : prog ctlE (option error) :=
  encode_to "encode events" (PEvents (redactEventsForDisplay events)).

Definition count_lines (counts : gmap string Z) : list string :=
  (λ key, "  " +:+ key +:+ ": " +:+ Itoa (default 0 (counts !! key)) +:+ newline)
    <$> sort_Strings ((map_to_list counts).*1).

Fixpoint write_sections (sections : list (string * gmap string Z)) : prog ctlE (option error) :=
  match sections with
  | [] => Ret None
  | (name, counts) :: rest =>
      e ← trigger (CWrite (name +:+ ":" +:+ newline));
      match e with
      | Some e => Ret (Some (errors_Wrap "write summary section" e))
      | None =>
          e ← write_all "write summary count" (count_lines counts);
          match e with
          | Some e => Ret (Some e)
          | None => write_sections rest
          end
      end
  end.

Definition WriteSummaryText (s : Summary) : prog ctlE (option error) :=
  e ← trigger (CWrite ("total: " +:+ Itoa (Total s) +:+ newline));
  match e with
  | Some e => Ret (Some (errors_Wrap "write summary total" e))
  | None =>
      write_sections [("levels", ByLevel s); ("components", ByComponent s); ("events", ByEvent s)]
  end.

Definition WriteSummaryJSON (s : Summary) : prog ctlE (option error) :=
  encode_to "encode summary" (PSummary s).
End Cli.

(** ** The run (main.go) *)

Record runEnv : Type := mkRunEnv {
  env_Prog : string;
  env_TempDir : option string;   (* nil, or what the function answers *)
  env_Now : option time;
}.

Section Run.
Context `{UnicodeTables} `{FlagReaders}.
Variable encode : printable → result string.
Variable format_time : time → string.
Variable jsonUnmarshal : string → result Event.
(** os.TempDir() and time.Now(). *)
Variable os_TempDir : string.
Variable time_Now : time.

Definition normalize (e : runEnv) : runEnv :=
  mkRunEnv (if bool_decide (env_Prog e = "") then "rpcpluginctl" else env_Prog e)
    (Some (default os_TempDir (env_TempDir e))) (Some (default time_Now (env_Now e))).

Definition usage (prog_name : string) : string :=
  "usage: " +:+ prog_name +:+ " [-runtime-dir DIR] [-plugin-id ID] [-message TEXT] [-level LEVEL] [-component COMPONENT] [-event EVENT] [-method METHOD] [-generation N] [-capability ID] [-operation ID] [-correlation ID] [-limit N] [-format text|json] [-since DURATION] [-reverse] [-summary] <status|plugins|plugin|capabilities|routes|heartbeat|echo|restart|logs>".

Definition fatal (message : string) : prog ctlE Z := trigger (CLog message) ;; Ret 1.

(** [if err := ...; err != nil { return fatal(err) }; return 0] *)
Definition report (p : prog ctlE (option error)) : prog ctlE Z :=
  e ← p;
  match e with Some e => fatal (err_msg e) | None => Ret 0 end.

Definition validateOptions (command pluginID : string) (limit : Z) (format : string)
  : option error :=
  (fail_if bool_decide (command ∈ ["plugin"; "heartbeat"; "echo"; "restart"])
           && bool_decide (pluginID = "")
     with_error errors_New ("-plugin-id is required for " +:+ command))
  ?> (if negb (bool_decide (pluginID = "")) then ValidatePluginID pluginID else None)
  ?> (if bool_decide (command = "logs") then
        (fail_if limit <? 0 with_error errors_New "-limit must be non-negative")
        ?> (fail_if negb (bool_decide (format ∈ ["text"; "json"]))
              with_error errors_New ("unknown log format " +:+ Quote format +:+ ", want text or json"))
      else None).

(** The loop over the directory entries. *)
Fixpoint plugin_logs (runtimeDir : string) (entries : list (string * bool)) (logs : list string)
  : prog ctlE (list string) :=
  match entries with
  | [] => Ret logs
  | (name, is_dir) :: rest =>
      if negb is_dir then plugin_logs runtimeDir rest logs
      else
        let candidate := PathJoin [runtimeDir; name; "events.jsonl"] in
        st ← trigger (CStat candidate);
        match st with
        | None => plugin_logs runtimeDir rest (logs ++ [candidate])
        | Some _ => plugin_logs runtimeDir rest logs
        end
  end.

Definition resolveLogPath (runtimeDir pluginID : string) : prog ctlE (result string) :=
  if negb (bool_decide (pluginID = "")) then
    Ret (Ok (PathJoin [runtimeDir; pluginID; "events.jsonl"]))
  else
    let rootLog := PathJoin [runtimeDir; "events.jsonl"] in
    st ← trigger (CStat rootLog);
    match st with
    | None => Ret (Ok rootLog)
    | Some _ =>
        entries ← trigger (CReadDir runtimeDir);
        match entries with
        | Err e => Ret (Err e)
        | Ok entries =>
            logs ← plugin_logs runtimeDir entries [];
            match logs with
            | [] => Ret (Ok rootLog)
            | [log] => Ret (Ok log)
            | _ => Ret (Err (errors_New ("multiple plugin logs found under " +:+ runtimeDir
                              +:+ ", use -plugin-id")))
            end
        end
    end.

(** The request a command makes, and what is written of its reply. *)
Definition command_request (command pluginID message : string) : option admin_request :=
  if bool_decide (command ∈ ["status"; "plugins"]) then Some APlugins
  else if bool_decide (command = "plugin") then Some (APlugin (mkPluginRequest pluginID))
  else if bool_decide (command = "capabilities") then Some ACapabilities
  else if bool_decide (command = "routes") then Some ARoutes
  else if bool_decide (command = "heartbeat") then Some (AHeartbeat (mkPluginRequest pluginID))
  else if bool_decide (command = "echo") then Some (AEcho (mkEchoRequest pluginID message))
  else if bool_decide (command = "restart") then Some (ARestart (mkPluginRequest pluginID))
  else None.

Definition write_reply (reply : admin_reply) : prog ctlE (option error) :=
  match reply with
  | RHostState st => WriteHostState encode st
  | RState st => WriteState encode st
  | RCapabilities caps => WriteCapabilities encode caps
  | RRoutes routes => WriteAny encode (PRoutes routes)
  | RHeartbeat out => WriteAny encode (PHeartbeat out)
  | REcho message => WriteAny encode (PEcho message)
  end.

Definition ctl_admin {A} (p : prog adminE A) : prog ctlE A := translate (λ X, @CAdmin X) p.
Definition ctl_read {A} (p : prog readE A) : prog ctlE A := translate (λ X, @CRead X) p.

Definition run_request (runtimeDir : string) (r : admin_request) : prog ctlE Z :=
  client ← ctl_admin (Dial (PathJoin [runtimeDir; "admin.sock"]) (2 * Second));
  match client with
  | Err e => fatal (err_msg e)
  | Ok client =>
      reply ← trigger (CCall client r);
      code ← match reply with
             | Err e => fatal (err_msg e)
             | Ok reply => report (write_reply reply)
             end;
      trigger (CCloseClient client) ;;
      Ret code
  end.

Definition log_filters (actual : gmap string flag_value) (now : time) : Filters :=
  let since := get_number actual "since" 0 in
  {| fl_Level := get_string actual "level" "";
     fl_Component := get_string actual "component" "";
     fl_Event := get_string actual "event" "";
     fl_PluginID := get_string actual "plugin-id" "";
     fl_GenerationID := get_number actual "generation" 0;
     fl_Method := get_string actual "method" "";
     fl_CapabilityID := get_string actual "capability" "";
     fl_OperationID := get_string actual "operation" "";
     fl_CorrelationID := get_string actual "correlation" "";
     fl_Limit := get_number actual "limit" 200;
     fl_Since := if 0 <? since then now - since else 0;
     fl_Reverse := get_bool actual "reverse" true |}.

Definition run_logs (actual : gmap string flag_value) (runtimeDir : string) (now : time)
  : prog ctlE Z :=
  let format := get_string actual "format" "text" in
  logPath ← resolveLogPath runtimeDir (get_string actual "plugin-id" "");
  match logPath with
  | Err e => fatal (err_msg e)
  | Ok logPath =>
      events ← ctl_read (ReadAll jsonUnmarshal logPath (log_filters actual now));
      match events with
      | Err e => fatal (err_msg e)
      | Ok events =>
          if get_bool actual "summary" false then
            let s := Summarize events in
            if bool_decide (format = "text") then report (WriteSummaryText s)
            else report (WriteSummaryJSON encode s)
          else if bool_decide (format = "text") then report (WriteEventsText format_time events)
          else report (WriteEventsJSON encode events)
      end
  end.

Definition ctl_flags : gmap string flag_kind :=
  list_to_map [("runtime-dir", KString); ("plugin-id", KString); ("message", KString);
    ("level", KString); ("component", KString); ("event", KString); ("method", KString);
    ("generation", KUint64); ("capability", KString); ("operation", KString);
    ("correlation", KString); ("limit", KInt); ("format", KString); ("since", KDuration);
    ("reverse", KBool); ("summary", KBool)].

(** [fmt.Fprintf(stdout, "%s\n", usage())], whose error is ignored. *)
Definition run_command (env : runEnv) (command : string) (actual : gmap string flag_value)
  : prog ctlE Z :=
  let runtimeDir := get_string actual "runtime-dir"
    (PathJoin [default "" (env_TempDir env); "rpc_plugin_system"]) in
  let pluginID := get_string actual "plugin-id" "" in
  match command_request command pluginID (get_string actual "message" "ping") with
  | Some r => run_request runtimeDir r
  | None =>
      if bool_decide (command = "logs") then run_logs actual runtimeDir (default 0 (env_Now env))
      else if bool_decide (command ∈ ["help"; "-h"; "--help"]) then
        _ ← trigger (CWrite (usage (env_Prog env) +:+ newline));
        Ret 0
      else
        fatal ("unknown command " +:+ Quote command
          +:+ ", want status, plugins, plugin, capabilities, routes, heartbeat, echo, restart, or logs")
  end.

Definition run_ctl (args : list string) (env : runEnv) : prog ctlE Z :=
  let env := normalize env in
  if bool_decide (args = []) then fatal (usage (env_Prog env))
  else
    let '(command, flagArgs) := splitCommandArgs args in
    if bool_decide (command = "") then fatal (usage (env_Prog env))
    else
      match Parse ctl_flags flagArgs with
      | inl e => trigger (CFlagOutput e) ;; Ret 2
      | inr (actual, []) =>
          match validateOptions command (get_string actual "plugin-id" "")
                  (get_number actual "limit" 200) (get_string actual "format" "text") with
          | Some e => fatal (err_msg e)
          | None => run_command env command actual
          end
      | inr (_, extra) => fatal ("unexpected extra args: " +:+ show_strings extra)
      end.
End Run.
