(* ===== verification/CtlFacts.v ===== *)
(** * What the control command guarantees

    Which argument is the command, and what an exit code means. *)

From S2P Require Import Prelude Prog GoText GoPath GoFlag PluginID Runtime Bundle EventLog LogRead PluginApi Manager Host Admin Ctl.

(** ** The command among the arguments *)

(** Arguments that are read as flags: a flag of [flagsWithValues] with the
    argument after it, whatever that is, or any other argument with a dash. *)
Inductive flag_words : list string → Prop :=
| fw_nil : flag_words []
| fw_valued f v l : takesValue f = true → flag_words l → flag_words (f :: v :: l)
| fw_dashed f l :
    f ≠ "--" → takesValue f = false → HasPrefix f "-" = true → flag_words l → flag_words (f :: l).

(** What the splitting of [args] into a command and flag arguments should be. *)
Inductive split_of (args : list string) : string → list string → Prop :=
| split_word pre cmd post :
    flag_words pre → HasPrefix cmd "-" = false → args = pre ++ cmd :: post →
    split_of args cmd (pre ++ post)
| split_forced pre cmd post :
    flag_words pre → args = pre ++ "--" :: cmd :: post → split_of args cmd (pre ++ post)
| split_none pre :
    flag_words pre → args = pre → split_of args "" pre
| split_open_flag pre f :
    flag_words pre → takesValue f = true → args = pre ++ [f] → split_of args "" (pre ++ [f])
| split_open_end pre :
    flag_words pre → args = pre ++ ["--"] → split_of args "" pre.

Lemma takesValue_dash f : takesValue f = true → HasPrefix f "-" = true ∧ f ≠ "--".
Proof.
  unfold takesValue. rewrite bool_decide_eq_true. unfold flagsWithValues.
  rewrite elem_of_list_to_set. intros Hf.
  assert (Forall (λ f, HasPrefix f "-" = true ∧ f ≠ "--") ["-runtime-dir"; "-plugin-id"; "-message";
    "-level"; "-component"; "-event"; "-method"; "-generation"; "-capability"; "-operation";
    "-correlation"; "-limit"; "-format"; "-since"]) as Hall by (repeat constructor; discriminate).
  rewrite Forall_forall in Hall. by apply Hall.
Qed.

Lemma isBoolFlag_dash f : isBoolFlag f = true → HasPrefix f "-" = true ∧ f ≠ "--".
Proof.
  assert (∀ g, g ∈ boolFlags → g ∈ ["-reverse"; "-summary"]) as Hb.
  { intros g. unfold boolFlags. by rewrite elem_of_list_to_set. }
  assert (∀ g s, g ∈ boolFlags → HasPrefix (g +:+ s) "-" = true ∧ g +:+ s ≠ "--") as Hg.
  { intros g s Hin. apply Hb in Hin. rewrite !elem_of_cons, elem_of_nil in Hin.
    destruct Hin as [->|[->|[]]]; (split; [by destruct s|discriminate]). }
  unfold isBoolFlag. rewrite orb_true_iff, bool_decide_eq_true. intros [Hin|Hex].
  - rewrite <- (sapp_nil_r f). by apply Hg.
  - apply existsb_exists in Hex as (g & Hin & Hf).
    apply list_elem_of_In, elem_of_elements in Hin.
    rewrite orb_true_iff, !bool_decide_eq_true in Hf.
    destruct Hf as [-> | ->]; by apply Hg.
Qed.

Lemma flag_words_app a b : flag_words a → flag_words b → flag_words (a ++ b).
Proof. induction 1; simpl; [done|..]; intros; by constructor; auto. Qed.

Lemma HasPrefix_dash2 : HasPrefix "--" "-" = true.
Proof. done. Qed.

Lemma split_args_sound args pre :
  flag_words pre →
  split_of (pre ++ args) (split_args pre args).1 (split_args pre args).2.
Proof.
  remember (length args) as n eqn:Hn. revert args Hn pre.
  induction (lt_wf n) as [n _ IH]. intros args -> pre Hpre.
  destruct args as [|arg rest]; simpl; [by eapply split_none; [|by rewrite app_nil_r]|].
  assert (∀ f, f ≠ "--" → takesValue f = false → HasPrefix f "-" = true →
    split_of (pre ++ f :: rest) (split_args (pre ++ [f]) rest).1 (split_args (pre ++ [f]) rest).2)
    as Hdash.
  { intros f H1 H2 H3. change (f :: rest) with ([f] ++ rest). rewrite (app_assoc pre).
    eapply IH; [|done|apply flag_words_app; [done|by repeat constructor]]. simpl. lia. }
  case_decide as H1.
  { subst. destruct rest as [|cmd rest]; simpl; [by eapply split_open_end|by eapply split_forced]. }
  destruct (takesValue arg) eqn:H2.
  { destruct rest as [|v rest]; simpl; [by eapply split_open_flag|].
    change (arg :: v :: rest) with ([arg; v] ++ rest). rewrite (app_assoc pre).
    eapply IH; [|done|apply flag_words_app; [done|by repeat constructor]]. simpl. lia. }
  destruct (isBoolFlag arg) eqn:H3; [by apply Hdash; [..|apply isBoolFlag_dash]|].
  destruct (HasPrefix arg "-") eqn:H4; [by apply Hdash|]. simpl. by eapply split_word.
Qed.

(** The loop passes over flag words. *)
Lemma split_args_skip pre words args :
  flag_words words → split_args pre (words ++ args) = split_args (pre ++ words) args.
Proof.
  intros Hw. revert pre. induction Hw as [|f v l Hf Hw IH|f l H1 H2 H3 Hw IH]; intros pre; simpl.
  - by rewrite app_nil_r.
  - destruct (takesValue_dash f Hf) as [_ Hne]. rewrite decide_False, Hf, IH by done.
    by rewrite <- app_assoc.
  - rewrite decide_False, H2, H3, IH by done. rewrite <- app_assoc. by destruct (isBoolFlag f).
Qed.

(** C32. Which argument is the command.  splitCommandArgs answers exactly what
    the grammar says: the first argument that is neither a flag nor the value
    of a flag with a value, or the one after "--", taken out of the arguments,
    whose order is kept; and no command if there is none. *)
Theorem splitCommandArgs_spec args cmd rest :
  splitCommandArgs args = (cmd, rest) ↔ split_of args cmd rest.
Proof.
  unfold splitCommandArgs. split.
  - intros E. pose proof (split_args_sound args [] fw_nil) as Hs. by rewrite E in Hs.
  - intros Hs. destruct Hs as [pre cmd post Hw Hc ->|pre cmd post Hw ->|pre Hw ->|pre f Hw Hf ->|pre Hw ->].
    + rewrite split_args_skip by done. simpl.
      assert (cmd ≠ "--") as Hne by (intros ->; discriminate Hc).
      rewrite decide_False by done.
      destruct (takesValue cmd) eqn:E1; [apply takesValue_dash in E1 as [E1 _]; congruence|].
      destruct (isBoolFlag cmd) eqn:E2; [apply isBoolFlag_dash in E2 as [E2 _]; congruence|].
      by rewrite Hc.
    + rewrite split_args_skip by done. simpl. done.
    + rewrite <- (app_nil_r pre) at 1. rewrite split_args_skip by done. done.
    + rewrite split_args_skip by done. simpl. destruct (takesValue_dash f Hf) as [_ Hne].
      by rewrite decide_False, Hf.
    + rewrite split_args_skip by done. done.
Qed.

(** Flags with two dashes are not known to the splitting: the value of one is
    taken for the command, although Parse would read it. *)
Lemma split_double_dash :
  splitCommandArgs ["--limit"; "5"; "logs"] = ("5", ["--limit"; "logs"]).
Proof. vm_compute. reflexivity. Qed.

(** ** Exit codes *)

(** The open connections, the number of reports on stderr, and whether a call
    the command needs has failed. *)
Record ctl_world : Type := mkCtlWorld {
  ct_open : gset conn;
  ct_reports : nat;
  ct_failed : bool;
}.

Definition note_failure (failed : bool) (w : ctl_world) : ctl_world :=
  {| w with ct_failed := ct_failed w || failed |}.
Definition note_report (w : ctl_world) : ctl_world :=
  {| w with ct_reports := S (ct_reports w) |}.

(** Probing for a file that is not there is no failure. *)
Definition ctl_step (X : Type) (e : ctlE X) : ctl_world → X → ctl_world → Prop :=
  match e with
  | CFlagOutput _ => λ w _ w', w' = note_report w
  | CLog _ => λ w _ w', w' = note_report w
  | CAdmin e => match e with
      | VDial _ _ => λ w x w', w' = match x with
          | Ok c => {| w with ct_open := {[c]} ∪ ct_open w |}
          | Err _ => note_failure true w
          end
      | _ => λ w _ w', w' = w
      end
  | CCall _ _ => λ w x w', w' = note_failure (negb (result_is_ok x)) w
  | CCloseClient c => λ w _ w', w' = {| w with ct_open := ct_open w ∖ {[c]} |}
  | CStat _ => λ w _ w', w' = w
  | CReadDir _ => λ w x w', w' = note_failure (negb (result_is_ok x)) w
  | CRead e => match e with
      | RStat _ => λ w _ w', w' = w
      | ROpen _ => λ w x w', w' = note_failure (negb (result_is_ok x)) w
      end
  | CWrite _ => λ w x w', w' = note_failure (bool_decide (x ≠ None)) w
  end.

Notation does p Q w := (wp ctl_step p Q w).

(** Only failures are noted, and none if the answer is good. *)
Definition failing (good : bool) (w w' : ctl_world) : Prop :=
  ct_open w' = ct_open w ∧ ct_reports w' = ct_reports w
  ∧ (good = true → ct_failed w' = ct_failed w).

Lemma failing_refl b w : failing b w w.
Proof. done. Qed.

Lemma failing_trans b w1 w2 w3 : failing true w1 w2 → failing b w2 w3 → failing b w1 w3.
Proof. intros (E1 & E2 & E3) (F1 & F2 & F3). split_and!; [congruence..|]. intros Hb. rewrite F3; auto. Qed.

Lemma note_failing b w : failing (negb b) w (note_failure b w).
Proof. split_and!; [done..|]. destruct b; [done|]. intros _. simpl. apply orb_false_r. Qed.

Section Exit.
Context `{UnicodeTables} `{FlagReaders}.
Variable encode : printable → result string.
Variable format_time : time → string.
Variable jsonUnmarshal : string → result Event.

Lemma write_failing what text w :
  does (e ← trigger (CWrite text);
        match e with Some e => Ret (Some (errors_Wrap what e)) | None => Ret None end)
    (λ r w', failing (bool_decide (r = None)) w w') w.
Proof.
  intros e w1 ->. destruct e; [exact (note_failing true w)|exact (note_failing false w)].
Qed.

Lemma encode_to_failing what v w :
  does (encode_to encode what v) (λ r w', failing (bool_decide (r = None)) w w') w.
Proof. unfold encode_to. destruct (encode v); [apply write_failing|done]. Qed.

Lemma write_all_failing what texts w :
  does (write_all what texts) (λ r w', failing (bool_decide (r = None)) w w') w.
Proof.
  revert w. induction texts as [|text texts IH]; intros w; [done|].
  cbn [write_all]. intros e w1 ->. destruct e as [e|]; [exact (note_failing true w)|].
  eapply wp_mono; [apply IH|]. intros r w2. exact (failing_trans _ _ _ _ (note_failing false w)).
Qed.

Lemma write_sections_failing sections w :
  does (write_sections sections) (λ r w', failing (bool_decide (r = None)) w w') w.
Proof.
  revert w. induction sections as [|[name counts] rest IH]; intros w; [done|].
  cbn [write_sections]. intros e w1 ->. destruct e as [e|]; [exact (note_failing true w)|].
  apply wp_bind. eapply wp_mono; [apply write_all_failing|]. intros r w2 Hr.
  pose proof (failing_trans _ _ _ _ (note_failing false w) Hr) as Hr'.
  destruct r as [e|]; [done|]. eapply wp_mono; [apply IH|]. intros r w3. by apply failing_trans.
Qed.

Lemma WriteSummaryText_failing s w :
  does (WriteSummaryText s) (λ r w', failing (bool_decide (r = None)) w w') w.
Proof.
  unfold WriteSummaryText. intros e w1 ->. destruct e as [e|]; [exact (note_failing true w)|].
  eapply wp_mono; [apply write_sections_failing|]. intros r w2.
  exact (failing_trans _ _ _ _ (note_failing false w)).
Qed.

(** A command that ends: code 0 without a report and without a failure, or
    code 1 with exactly one report. *)
Definition exits (w : ctl_world) (code : Z) (w' : ctl_world) : Prop :=
  ct_open w' = ct_open w
  ∧ (code = 0 ∧ ct_reports w' = ct_reports w ∧ ct_failed w' = ct_failed w
     ∨ code = 1 ∧ ct_reports w' = S (ct_reports w)).

Lemma fatal_exits message b w w1 : failing b w w1 → does (fatal message) (λ r w', exits w r w') w1.
Proof. intros (E1 & E2 & _) [] w2 ->. split; [done|]. right. simpl. by rewrite E2. Qed.

Lemma report_exits p w w1 :
  failing true w w1 → does p (λ r w', failing (bool_decide (r = None)) w1 w') w1 →
  does (report p) (λ r w', exits w r w') w1.
Proof.
  intros Hw Hp. apply wp_bind. eapply wp_mono; [exact Hp|]. intros r w2 Hr.
  pose proof (failing_trans _ _ _ _ Hw Hr) as Hr2.
  destruct r as [e|]; [by eapply fatal_exits|]. destruct Hr2 as (E1 & E2 & E3).
  split; [done|]. left. split_and!; auto.
Qed.

(** *** Requests *)

Lemma write_reply_failing reply w :
  does (write_reply encode reply) (λ r w', failing (bool_decide (r = None)) w w') w.
Proof. destruct reply; apply encode_to_failing. Qed.

Lemma run_request_exits dir r w :
  ct_open w = ∅ → does (run_request encode dir r) (λ code w', exits w code w') w.
Proof.
  intros Hopen. unfold run_request. apply wp_bind. intros client w1 ->. simpl.
  destruct client as [c|e]; simpl.
  2:{ eapply (fatal_exits ""). exact (note_failing true w). }
  set (w1 := {| w with ct_open := {[c]} ∪ ct_open w |}). intros reply w2 ->.
  apply wp_bind. eapply (wp_mono _ _ (λ code w', exits w1 code w')).
  - destruct reply as [reply|e]; simpl.
    + eapply report_exits; [exact (note_failing false w1)|apply write_reply_failing].
    + eapply (fatal_exits ""). exact (note_failing true w1).
  - intros code w3 [E1 E2] [] w4 ->. split; [|exact E2]. simpl. rewrite E1. simpl. set_solver.
Qed.

(** *** Logs *)

Notation reads_log p Q w := (wp (λ X e, ctl_step X (CRead e)) p Q w).

Lemma existing_backups_same path i w :
  reads_log (existing_backups path i) (λ _ w', w' = w) w.
Proof.
  revert w. induction i as [|i IH]; intros w; [done|]. cbn [existing_backups].
  intros st w1 ->. apply wp_bind. eapply wp_mono; [apply IH|]. by intros rest w2 ->.
Qed.

Lemma existingLogPaths_same path w :
  reads_log (existingLogPaths path) (λ _ w', w' = w) w.
Proof.
  unfold existingLogPaths. apply wp_bind. eapply wp_mono; [apply existing_backups_same|].
  intros backups w1 -> st w2 ->. by destruct backups, st.
Qed.

Lemma readOne_failing path filters w :
  reads_log (readOne jsonUnmarshal path filters) (λ r w', failing (result_is_ok r) w w') w.
Proof.
  unfold readOne. intros file w1 ->. destruct file as [r|e]; [|exact (note_failing true w)].
  pose proof (note_failing false w) as (E1 & E2 & E3).
  split_and!; [done..|]. intros _. by apply E3.
Qed.

Lemma read_paths_failing paths filters events w :
  reads_log (read_paths jsonUnmarshal paths filters events)
    (λ r w', failing (result_is_ok r) w w') w.
Proof.
  revert events w. induction paths as [|p paths IH]; intros events w; [done|].
  cbn [read_paths]. apply wp_bind. eapply wp_mono; [apply readOne_failing|].
  intros [batch|e] w1 Hw1; [|done]. eapply wp_mono; [apply IH|]. intros r w2. by apply failing_trans.
Qed.

Lemma ReadAll_failing path filters w :
  does (ctl_read (ReadAll jsonUnmarshal path filters)) (λ r w', failing (result_is_ok r) w w') w.
Proof.
  apply wp_translate. unfold ReadAll. apply wp_bind. eapply wp_mono; [apply existingLogPaths_same|].
  intros [paths|e] w1 ->; [|done]. apply wp_bind. eapply wp_mono; [apply read_paths_failing|].
  by intros [events|e] w2 Hw2.
Qed.

Lemma plugin_logs_same dir entries logs w :
  does (plugin_logs dir entries logs) (λ _ w', w' = w) w.
Proof.
  revert logs. induction entries as [|[name is_dir] entries IH]; intros logs; [done|].
  cbn [plugin_logs]. destruct is_dir; simpl; [|apply IH]. intros st w1 ->. destruct st; apply IH.
Qed.

Lemma resolveLogPath_failing dir id w :
  does (resolveLogPath dir id) (λ r w', failing (result_is_ok r) w w') w.
Proof.
  unfold resolveLogPath. destruct (negb _); [done|]. intros st w1 ->. destruct st as [e0|]; [|done].
  intros entries w1 ->. destruct entries as [entries|e]; [|exact (note_failing true w)].
  pose proof (note_failing false w) as Hn.
  apply wp_bind. eapply wp_mono; [apply plugin_logs_same|].
  intros logs w2 ->. destruct logs as [|log [|]]; [exact Hn|exact Hn|].
  destruct Hn as (E1 & E2 & _). by split_and!.
Qed.

Lemma run_logs_exits actual dir now w :
  does (run_logs encode format_time jsonUnmarshal actual dir now) (λ code w', exits w code w') w.
Proof.
  unfold run_logs. apply wp_bind. eapply wp_mono; [apply resolveLogPath_failing|].
  intros [path|e] w1 Hw1; [|by eapply fatal_exits].
  apply wp_bind. eapply wp_mono; [apply ReadAll_failing|].
  intros [events|e] w2 Hw2; [|by eapply fatal_exits, (failing_trans _ _ _ _ Hw1)].
  pose proof (failing_trans _ _ _ _ Hw1 Hw2) as Hw.
  destruct (get_bool _ _ _), (bool_decide _); (eapply report_exits; [exact Hw|]).
  - apply WriteSummaryText_failing.
  - apply encode_to_failing.
  - apply write_all_failing.
  - apply encode_to_failing.
Qed.

(** *** The whole run *)

Variable os_TempDir : string.
Variable time_Now : time.

Definition ctl0 : ctl_world := mkCtlWorld ∅ 0 false.

Notation run args env :=
  (run_ctl encode format_time jsonUnmarshal os_TempDir time_Now args env).

(** C31. What an exit code of rpcpluginctl means.  Whatever the arguments, the
    daemon, the log files and the terminal do, the command ends with code 0, 1
    or 2 and every connection it opened is closed.  Code 0 means that nothing
    was reported and, unless the command is help, no call, read or write it
    needed failed; any other code comes with exactly one report, and code 2
    exactly with a malformed flag. *)
Theorem run_ctl_exits args env :
  does (run args env) (λ code w',
    ct_open w' = ∅
    ∧ (code = 0 ∧ ct_reports w' = 0%nat
         ∧ (ct_failed w' = false ∨ (splitCommandArgs args).1 ∈ ["help"; "-h"; "--help"])
       ∨ (code = 1 ∨ code = 2) ∧ ct_reports w' = 1%nat)
    ∧ (code = 2 → ∃ e, Parse ctl_flags (splitCommandArgs args).2 = inl e)) ctl0.
Proof.
  unfold run_ctl. set (env' := normalize os_TempDir time_Now env). clearbody env'.
  set (Q := λ code w', _).
  assert (∀ code w', exits ctl0 code w' → Q code w') as Hexits.
  { intros code w' (E & [(-> & E1 & E2)|(-> & E1)]); split_and!; try done.
    - left. split_and!; auto.
    - right. auto. }
  assert (∀ message, does (fatal message) Q ctl0) as Hfatal.
  { intros message. eapply wp_mono; [eapply (fatal_exits _ true), failing_refl|]. done. }
  case_bool_decide; [apply Hfatal|].
  destruct (splitCommandArgs args) as [command flagArgs] eqn:Hsplit.
  case_bool_decide; [apply Hfatal|].
  destruct (Parse ctl_flags flagArgs) as [e|[actual extra]] eqn:Hparse.
  { intros [] w ->. subst Q. cbn beta. split_and!; [done|right; auto|]. intros _. by exists e. }
  destruct extra as [|x extra]; [|apply Hfatal].
  destruct (validateOptions _ _ _ _); [apply Hfatal|].
  unfold run_command. destruct (command_request _ _ _) as [r|].
  { eapply wp_mono; [by apply run_request_exits|]. done. }
  case_bool_decide; [eapply wp_mono; [apply run_logs_exits|]; done|].
  case_bool_decide as Hhelp; [|apply Hfatal].
  intros x w ->. subst Q. cbn beta. split_and!; [done| |done]. left. split_and!; auto.
Qed.
End Exit.
