(* ===== verification/EndToEnd.v ===== *)
(** * From the command line to the plugin

    rpcpluginctl, the admin surface, the host and the manager composed: what
    the exit code of a restart command says about the plugin. *)

From stdpp Require Import functions.
From S2P Require Import Prelude Prog GoText GoPath GoFlag PluginID Runtime Bundle EventLog LogRead PluginApi Manager ManagerWorld ManagerFacts ManagerProps ManagerDemo Host HostFacts HostDemo Admin AdminFacts Ctl DaemonFacts.

Section EndToEnd.
Context `{UnicodeTables} `{FlagReaders}.
Variable h : Host.
Hypothesis h_ok : host_ok h.
Variable encode : printable → result string.
Variable format_time : time → string.
Variable jsonUnmarshal : string → result Event.
Variable os_TempDir : string.
Variable time_Now : time.

Notation run args env :=
  (run_ctl encode format_time jsonUnmarshal os_TempDir time_Now args env).

(** An error of the remote method arrives as its text. *)
Definition remote (reply : result admin_reply) : result admin_reply :=
  match reply with Ok a => Ok a | Err e => Err (errors_New (err_msg e)) end.

(** A call over the admin socket: the handler runs and its reply arrives, or
    the connection fails before or after the handler ran. *)
Definition e2e_step (X : Type) (e : ctlE X) : hosts_world → X → hosts_world → Prop :=
  match e in ctlE X return hosts_world → X → hosts_world → Prop with
  | CCall _ r => λ hw x hw',
      (∃ reply, exec host_step (handle (Some h) r) hw reply hw' ∧ (x = remote reply ∨ ∃ e, x = Err e))
      ∨ hw' = hw ∧ ∃ e, x = Err e
  | _ => λ hw _ hw', hw' = hw
  end.

Notation serves p Q hw := (wp e2e_step p Q hw).

(** The arguments of a restart are parsed into its request. *)
Lemma restart_request dir id env :
  ValidatePluginID id = None → id ≠ "" →
  run ["-runtime-dir"; dir; "-plugin-id"; id; "restart"] env
  = run_request encode dir (ARestart (mkPluginRequest id)).
Proof.
  intros Hv Hid. unfold run_ctl.
  change (splitCommandArgs ["-runtime-dir"; dir; "-plugin-id"; id; "restart"])
    with ("restart", ["-runtime-dir"; dir; "-plugin-id"; id]).
  cbn beta iota zeta.
  change (Parse ctl_flags ["-runtime-dir"; dir; "-plugin-id"; id])
    with (@inr flag_error (gmap string flag_value * list string)
            (<["plugin-id" := FString id]> (<["runtime-dir" := FString dir]> ∅), [])).
  set (actual := <["plugin-id" := FString id]> _ : gmap string flag_value).
  assert (get_string actual "plugin-id" "" = id) as E1 by done.
  assert (∀ d, get_string actual "runtime-dir" d = dir) as E2 by done.
  assert (get_number actual "limit" 200 = 200) as E3 by done.
  assert (get_string actual "format" "text" = "text") as E4 by done.
  assert (validateOptions "restart" id 200 "text" = None) as E5.
  { unfold validateOptions. rewrite (bool_decide_eq_false_2 (id = "")) by done. cbn.
    by rewrite Hv. }
  cbn beta iota. rewrite E1, E3, E4, E5. unfold run_command. by rewrite E1, E2.
Qed.

(** Writing a reply touches no plugin. *)
Lemma report_same reply hw :
  serves (report (write_reply encode reply)) (λ _ hw', hw' = hw) hw.
Proof.
  assert (∀ what v, serves (encode_to encode what v) (λ _ hw', hw' = hw) hw) as Henc.
  { intros what v. unfold encode_to. destruct (encode v); [|done].
    intros e hw' ->. by destruct e. }
  apply wp_bind. apply (wp_mono _ _ (λ _ hw', hw' = hw)); [destruct reply; apply Henc|].
  intros [e|] hw' ->; [|done]. by intros [] hw' ->.
Qed.

(** C19. What a restart from the command line means.  For a valid plugin id,
    "rpcpluginctl -runtime-dir D -plugin-id P restart" touches no plugin but
    P, however the connection, the plugin and the terminal behave; and if it
    exits with code 0 then P is a plugin of the host and, its manager being in
    order before, what the host then shows of it is a healthy generation, one
    after the one it had. *)
Theorem restart_command dir id env hw :
  valid_id id = true →
  serves (run ["-runtime-dir"; dir; "-plugin-id"; id; "restart"] env)
    (λ code hw', only id hw hw'
       ∧ (code = 0 → is_Some (managers h !! id)
            ∧ (Inv (cfg_of h id) (hw id) →
                 st_Healthy (shown h hw' id) = true
                 ∧ st_GenerationID (shown h hw' id) = next_generation (hw id)))) hw.
Proof.
  intros Hid. rewrite restart_request; [|by apply ValidatePluginID_valid|by intros ->].
  unfold run_request. apply wp_bind. intros client hw0 ->.
  destruct client as [c|e]; [|by intros [] hw0 ->].
  intros reply hw1 Hcall.
  assert (only id hw hw1 ∧ ∀ a, reply = Ok a → is_Some (managers h !! id)
    ∧ (Inv (cfg_of h id) (hw id) → ∃ st, replaced h hw hw1 id st)) as [Honly Hreply].
  { destruct Hcall as [(rep & He & Hrep)|[-> [e ->]]]; [|by split].
    apply (wp_sound _ _ (λ rep hw', only id hw hw'
      ∧ (managers h !! id = None → ∃ e, rep = Err e)
      ∧ (Inv (cfg_of h id) (hw id) → ∀ a, rep = Ok a → ∃ st, replaced h hw hw' id st))) in He.
    - destruct He as (Ho & Hn & Hr). split; [done|]. intros a ->.
      destruct Hrep as [Hrep|[e Hrep]]; [|done]. destruct rep as [a'|e]; [|done].
      split; [|intros Hi; by eapply Hr]. destruct (managers h !! id); [by eexists|].
      by destruct (Hn eq_refl).
    - cbn [handle]. apply wp_reply. cbn [Service_Restart with_host pr_PluginID].
      apply checked_spec; [by intros e ?; congruence|]. intros _.
      eapply wp_mono; [by apply RestartPlugin_spec|]. intros r hw' (Ho & Hn & Hr).
      split; [done|]. split.
      + intros Hm. destruct (Hn Hm) as [-> _]. by eexists.
      + intros Hi a Ha. destruct r as [st|e]; [|done]. exists st. by apply Hr. }
  apply wp_bind. apply (wp_mono _ _ (λ code hw', hw' = hw1 ∧ (code = 0 → ∃ a, reply = Ok a))).
  - destruct reply as [a|e]; [|by intros [] hw' ->].
    eapply wp_mono; [apply report_same|]. intros code hw' ->. split; [done|]. by exists a.
  - intros code hw' [-> Hcode] [] hw2 ->. split; [done|]. intros Hz.
    destruct (Hcode Hz) as [a Ha]. destruct (Hreply a Ha) as [Hm Hr]. split; [done|].
    intros Hi. destruct (Hr Hi) as (st & -> & H1 & H2 & H3). done.
Qed.
End EndToEnd.

(** ** A restart of the demo plugin, from the command line *)

Definition served : prog hostE (result admin_reply) :=
  handle (H := ascii_tables) (Some one) (ARestart (mkPluginRequest "echo")).

Definition restarted_hosts : hosts_world := (run host_run served hosts0).1.

Definition demo_env : runEnv := mkRunEnv "" (Some "/tmp") (Some 0).

Definition demo_restart : prog ctlE Z :=
  run_ctl (H := ascii_tables) (H0 := demo_readers) (λ _, Ok "{}") (λ _, "")
    (λ _, Err (errors_New "no event")) "/tmp" 0
    ["-runtime-dir"; "/run/rpc"; "-plugin-id"; "echo"; "restart"] demo_env.

Lemma demo_restart_exits :
  exec (e2e_step (H := ascii_tables) one) demo_restart hosts0 0 restarted_hosts.
Proof.
  pose proof (run_exec host_step host_run host_run_ok served hosts0) as He.
  fold restarted_hosts in He.
  assert (result_is_ok (run host_run served hosts0).2 = true) as Hok by (vm_compute; reflexivity).
  destruct (run host_run served hosts0).2 as [a|e]; [|discriminate Hok].
  unfold demo_restart. rewrite restart_request by done. unfold run_request.
  exists (Ok 7%nat), hosts0. split; [done|].
  exists (remote (Ok a)), restarted_hosts. split; [left; exists (Ok a); split; [exact He|by left]|].
  generalize restarted_hosts. intros hw.
  destruct a; (exists None, hw; split; [done|]; exists tt, hw; by repeat split).
Qed.

Lemma restart_command_witness :
  only "echo" hosts0 restarted_hosts
  ∧ st_Healthy (shown one restarted_hosts "echo") = true
  ∧ st_GenerationID (shown one restarted_hosts "echo") = 1.
Proof.
  destruct (wp_sound _ _ _ _ _ _
    (restart_command (H := ascii_tables) (H0 := demo_readers) one one_ok (λ _, Ok "{}") (λ _, "")
       (λ _, Err (errors_New "no event")) "/tmp" 0 "/run/rpc" "echo" demo_env hosts0 eq_refl)
    demo_restart_exits) as [Ho Hr].
  destruct (Hr eq_refl) as [_ Hs]. destruct (Hs (Inv_world0 _)) as [H1 H2].
  split; [exact Ho|]. split; [exact H1|]. rewrite H2. vm_compute. reflexivity.
Defined.
