(* ===== verification/LogsCommand.v ===== *)
(** * What the operator is shown of a log

    rpcpluginctl logs, from its arguments to the lines on the terminal: the
    flags, the path of the plugin's log, the reading of the log with its
    backups, and the rendering; and the way of an event from the logger of a
    plugin's manager to that terminal. *)

From S2P Require Import Prelude Prog GoText GoPath GoFlag PluginID Runtime Bundle EventLog EventLogFacts Provider LogRead LogReadFacts PluginApi Manager Host HostFacts HostDemo Admin Ctl DaemonFacts.

(** The files of the machine, what was written to the terminal, and whether a
    write to it has failed. *)
Record terminal : Type := mkTerminal {
  t_fs : logfs;
  t_out : list string;
  t_failed : bool;
}.

Definition put (texts : list string) (s : terminal) : terminal :=
  mkTerminal (t_fs s) (t_out s ++ texts) (t_failed s).

(** Files are read as they are; a write appears, or fails after any part. *)
Definition terminal_step (X : Type) (e : ctlE X) : terminal → X → terminal → Prop :=
  match e in ctlE X return terminal → X → terminal → Prop with
  | CRead e => λ s x s', ∃ fs', read_step _ e (t_fs s) x fs' ∧ s' = mkTerminal fs' (t_out s) (t_failed s)
  | CWrite text => λ s x s', match x with
      | None => s' = put [text] s
      | Some _ => ∃ part, s' = mkTerminal (t_fs s) (t_out s ++ part) true
      end
  | _ => λ s _ s', s' = s
  end.

Section Logs.
Context `{UnicodeTables} `{FlagReaders}.
Variable encode : printable → result string.
Variable format_time : time → string.
Variable jsonUnmarshal : string → result Event.
Variable os_TempDir : string.
Variable time_Now : time.

Notation wp := (wp terminal_step).

(** ** Writing *)

(** What a writer does that should write [texts]. *)
Definition prints (texts : result (list string)) (s : terminal) (r : option error) (s' : terminal) : Prop :=
  t_fs s' = t_fs s ∧
  match texts, r with
  | Ok texts, None => s' = put texts s
  | Ok _, Some _ => t_failed s' = true
  | Err _, _ => is_Some r ∧ s' = s
  end.

Lemma put_put a b s : put b (put a s) = put (a ++ b) s.
Proof. unfold put. simpl. by rewrite app_assoc. Qed.

Lemma put_nil s : put [] s = s.
Proof. unfold put. rewrite app_nil_r. by destruct s. Qed.

(** A write, and what follows it. *)
Lemma wp_write text what (k : prog ctlE (option error)) more s :
  (∀ s', s' = put [text] s → wp k (prints (Ok more) s') s') →
  wp (e ← trigger (CWrite text); match e with Some e => Ret (Some (errors_Wrap what e)) | None => k end)
    (prints (Ok (text :: more)) s) s.
Proof.
  intros Hk. apply wp_trigger_seq. intros [e|] s' Hs.
  - destruct Hs as [part ->]. by split.
  - eapply wp_mono; [by apply Hk|]. simpl in Hs. subst s'. intros r s' [Hfs Hr]. split; [done|].
    destruct r; [done|]. by rewrite put_put in Hr.
Qed.

Lemma write_all_prints what texts s : wp (write_all what texts) (prints (Ok texts) s) s.
Proof.
  revert s. induction texts as [|text texts IH]; intros s; [split; [done|by rewrite put_nil]|].
  apply wp_write. intros s' _. apply IH.
Qed.

Lemma encode_to_prints what v s :
  wp (encode_to encode what v) (prints (text ← encode v; Ok [text]) s) s.
Proof.
  unfold encode_to. destruct (encode v) as [text|e]; [|by split; [|split; [eexists|]]].
  apply wp_write. intros s' _. split; [done|by rewrite put_nil].
Qed.

(** The counts as they are listed. *)
Definition section_texts (section : string * gmap string Z) : list string :=
  (section.1 +:+ ":" +:+ newline) :: count_lines section.2.
Definition summary_texts (s : Summary) : list string :=
  ("total: " +:+ Itoa (Total s) +:+ newline)
    :: ([("levels", ByLevel s); ("components", ByComponent s); ("events", ByEvent s)] ≫= section_texts).

(** One writer after another. *)
Lemma prints_seq (p k : prog ctlE (option error)) a b s :
  wp p (prints (Ok a) s) s → (∀ s', wp k (prints (Ok b) s') s') →
  wp (e ← p; match e with Some e => Ret (Some e) | None => k end) (prints (Ok (a ++ b)) s) s.
Proof.
  intros Hp Hk. apply wp_bind. eapply wp_mono; [exact Hp|]. intros [e|] s1 [Hfs Hr]; [by split|].
  eapply wp_mono; [apply Hk|]. intros r s2 [Hfs2 Hr2]. split; [by rewrite Hfs2|]. subst s1.
  destruct r; [done|]. by rewrite put_put in Hr2.
Qed.

Lemma write_sections_prints sections s :
  wp (write_sections sections) (prints (Ok (sections ≫= section_texts)) s) s.
Proof.
  revert s. induction sections as [|[name counts] rest IH]; intros s; [split; [done|by rewrite put_nil]|].
  cbn [write_sections mbind list_bind]. apply wp_write. intros s' _.
  apply prints_seq; [apply write_all_prints|apply IH].
Qed.

Lemma WriteSummaryText_prints sum s : wp (WriteSummaryText sum) (prints (Ok (summary_texts sum)) s) s.
Proof. unfold WriteSummaryText, summary_texts. apply wp_write. intros s' _. apply write_sections_prints. Qed.

(** *** The exit code of a report *)
Definition reported (texts : result (list string)) (s : terminal) (code : Z) (s' : terminal) : Prop :=
  t_fs s' = t_fs s ∧
  ((code = 0 ∧ ∃ ts, texts = Ok ts ∧ s' = put ts s)
   ∨ (code = 1 ∧ ((∃ e, texts = Err e) ∨ t_failed s' = true))).

Lemma report_prints p texts s : wp p (prints texts s) s → wp (report p) (reported texts s) s.
Proof.
  intros Hp. apply wp_bind. eapply wp_mono; [exact Hp|]. intros [e|] s1 [Hfs Hr].
  - intros [] s2 ->. split; [done|]. right. split; [done|]. destruct texts as [ts|e']; [by right|].
    left. by exists e'.
  - split; [done|]. left. split; [done|]. destruct texts as [ts|e']; [by exists ts|].
    by destruct Hr as [[? [=]] _].
Qed.

(** ** Reading *)
Lemma ctl_read_spec {A} (p : prog readE A) Q s :
  Prog.wp read_step p Q (t_fs s) →
  wp (ctl_read p) (λ a s', Q a (t_fs s') ∧ t_out s' = t_out s ∧ t_failed s' = t_failed s) s.
Proof.
  intros Hp. apply wp_translate. revert s Hp. induction p as [a|X e k IH]; intros s; simpl; [done|].
  intros Hp x s' (fs' & He & ->).
  exact (IH x (mkTerminal fs' (t_out s) (t_failed s)) (Hp _ _ He)).
Qed.

(** What is to be written of the events found. *)
Definition log_texts (actual : gmap string flag_value) (events : list Event) : result (list string) :=
  let text := bool_decide (get_string actual "format" "text" = "text") in
  if get_bool actual "summary" false then
    if text then Ok (summary_texts (Summarize events))
    else (text ← encode (PSummary (Summarize events)); Ok [text])
  else if text then Ok ((λ event, FormatText format_time event +:+ newline) <$> events)
  else (text ← encode (PEvents (redactEventsForDisplay events)); Ok [text]).

Section Plugin.
Variable l : Logger.
Notation has_log fs := (∃ i, (i <= 5)%nat ∧ content fs (slot l i) ≠ None).

(** The outcome of reading the log of [l] with the flags [actual]. *)
Definition shows (actual : gmap string flag_value) (now : time) (events : list Event)
    (s : terminal) (code : Z) (s' : terminal) : Prop :=
  let texts := log_texts actual (select (log_filters actual now) events) in
  t_fs s' = t_fs s
  ∧ (code = 0 ∧ has_log (t_fs s) ∧ (∃ ts, texts = Ok ts ∧ s' = put ts s)
     ∨ code = 1 ∧ (¬ has_log (t_fs s) ∨ (∃ e, texts = Err e) ∨ t_failed s' = true)).

Lemma run_logs_shows actual dir now evs s :
  let id := get_string actual "plugin-id" "" in
  id ≠ "" → lg_path l = pluginEventLogPath dir id →
  log_ok jsonUnmarshal l (t_fs s) 5 evs →
  wp (run_logs encode format_time jsonUnmarshal actual dir now)
    (shows actual now (events_from evs 5) s) s.
Proof.
  intros id Hid Hpath Hok. unfold run_logs, resolveLogPath. fold id.
  rewrite (bool_decide_eq_false_2 (id = "")) by done. cbn [negb].
  change (PathJoin [dir; id; "events.jsonl"]) with (pluginEventLogPath dir id). rewrite <- Hpath.
  cbn [mbind prog_mbind prog_bind]. apply wp_bind. eapply wp_mono; [apply ctl_read_spec, (ReadAll_spec jsonUnmarshal l (log_filters actual now) _ evs Hok)|].
  intros r s1 ([Hfs Hr] & Hout & Hfailed).
  assert (s1 = s) as -> by (destruct s, s1; simpl in *; by subst).
  destruct Hr as [[Hsome ->]|[Hnone (e & -> & _)]].
  2:{ intros [] s2 ->. split; [done|]. right. split; [done|]. left. intros (i & Hi & Hc). by apply Hc, Hnone. }
  cbv zeta. apply (wp_mono _ _ (reported (log_texts actual (select (log_filters actual now) (events_from evs 5))) s)).
  - unfold log_texts. destruct (get_bool actual "summary" false), (bool_decide (get_string actual "format" "text" = "text"));
      apply report_prints; [apply WriteSummaryText_prints|apply encode_to_prints|apply write_all_prints|apply encode_to_prints].
  - intros code s' [Hfs' [[-> Hts]|[-> Hbad]]]; (split; [done|]); [left|right]; auto.
Qed.

(** *** From the arguments *)

(** The environment's directory for temporary files, and its clock. *)
Definition default_dir (env : runEnv) : string :=
  PathJoin [default os_TempDir (env_TempDir env); "rpc_plugin_system"].
Definition clock (env : runEnv) : time := default time_Now (env_Now env).

Lemma run_ctl_logs args flagArgs actual env :
  splitCommandArgs args = ("logs", flagArgs) → Parse ctl_flags flagArgs = inr (actual, []) →
  valid_id (get_string actual "plugin-id" "") = true → 0 <= get_number actual "limit" 200 →
  get_string actual "format" "text" ∈ ["text"; "json"] →
  run_ctl encode format_time jsonUnmarshal os_TempDir time_Now args env
  = run_logs encode format_time jsonUnmarshal actual
      (get_string actual "runtime-dir" (default_dir env)) (clock env).
Proof.
  intros Hsplit Hparse Hid Hlimit Hformat. unfold run_ctl.
  rewrite bool_decide_eq_false_2 by (by intros ->). rewrite Hsplit, (bool_decide_eq_false_2 ("logs" = "")) by done.
  rewrite Hparse. unfold validateOptions.
  rewrite (bool_decide_eq_false_2 ("logs" ∈ _)) by (by apply (bool_decide_unpack _)).
  rewrite (bool_decide_eq_true_2 ("logs" = "logs")), (bool_decide_eq_true_2 _ Hformat) by done.
  rewrite (proj2 (Z.ltb_ge _ _) Hlimit). apply ValidatePluginID_valid in Hid as E. rewrite E.
  cbn [andb first_error negb]. by destruct (negb _).
Qed.

(** C33. What "rpcpluginctl logs" shows.  With any flags that parse and name a
    plugin P, on a log of P whose files hold complete, decodable lines, the
    command changes no file and exits with 0 or 1.  It exits with 0 exactly if
    P has a log or a backup of one, what is to be shown can be encoded and no
    write to the terminal fails; and then the terminal shows exactly the events
    of the backups and the log, oldest first, that pass the filters, reversed
    unless asked otherwise and cut to the limit: as one line each, as JSON, or
    as their counts, as the flags say. *)
Theorem logs_exact args flagArgs actual env fs evs :
  splitCommandArgs args = ("logs", flagArgs) → Parse ctl_flags flagArgs = inr (actual, []) →
  let id := get_string actual "plugin-id" "" in
  let texts := log_texts actual (select (log_filters actual (clock env)) (events_from evs 5)) in
  valid_id id = true → 0 <= get_number actual "limit" 200 →
  get_string actual "format" "text" ∈ ["text"; "json"] →
  lg_path l = pluginEventLogPath (get_string actual "runtime-dir" (default_dir env)) id →
  log_ok jsonUnmarshal l fs 5 evs →
  wp (run_ctl encode format_time jsonUnmarshal os_TempDir time_Now args env)
    (λ code s', t_fs s' = fs ∧ (code = 0 ∨ code = 1)
       ∧ (code = 0 ↔ (∃ i, (i <= 5)%nat ∧ content fs (slot l i) ≠ None)
                     ∧ (∃ ts, texts = Ok ts) ∧ t_failed s' = false)
       ∧ (code = 0 → texts = Ok (t_out s'))) (mkTerminal fs [] false).
Proof.
  intros Hsplit Hparse id texts Hid Hlimit Hformat Hpath Hok.
  rewrite (run_ctl_logs _ _ _ _ Hsplit Hparse Hid Hlimit Hformat).
  eapply wp_mono; [apply (run_logs_shows actual _ (clock env) evs); [by intros E; unfold id in Hid; rewrite E in Hid|done|exact Hok]|].
  intros code s' [Hfs [(-> & Hlog & ts & Hts & ->)|(-> & Hbad)]]; (split; [exact Hfs|]).
  - split; [by left|]. split; [|intros _; exact Hts]. split; [|done]. intros _. split; [exact Hlog|].
    split; [by exists ts|done].
  - split; [by right|]. split; [|done]. split; [done|]. intros (Hlog & [ts Hts] & Hf).
    destruct Hbad as [Hno|[[e He]|Hf']]; [by destruct (Hno Hlog)| |congruence].
    fold texts in He. congruence.
Qed.

(** ** From the logger of a manager *)

(** The events of a plugin are what its log is filtered for by default. *)
Definition default_filters (id : string) : Filters :=
  {| filters0 with fl_PluginID := id; fl_Limit := 200; fl_Reverse := true |}.

Lemma match_default id ev :
  id ≠ "" → match_event ev (default_filters id) = bool_decide (ev_PluginID ev = id).
Proof.
  intros Hid. unfold match_event, differs. cbn [default_filters fl_Level fl_Component fl_Event fl_PluginID
    fl_GenerationID fl_Method fl_CapabilityID fl_OperationID fl_CorrelationID fl_Since filters0].
  rewrite !(bool_decide_eq_true_2 ("" = "")), (bool_decide_eq_false_2 (id = "")) by done. cbn [negb andb].
  by destruct (bool_decide (ev_PluginID ev = id)).
Qed.

Lemma select_default id events :
  id ≠ "" → select (default_filters id) events = take 200 (reverse (filter (λ ev, ev_PluginID ev = id) events)).
Proof.
  intros Hid. unfold select. cbn [default_filters fl_Reverse fl_Limit]. f_equal. f_equal.
  apply list_filter_iff. intros ev. by rewrite match_default, bool_decide_eq_true.
Qed.

(** The flags of a plain call. *)
Definition plain_flags (dir id : string) : gmap string flag_value :=
  <["plugin-id" := FString id]> (<["runtime-dir" := FString dir]> ∅).

Lemma run_ctl_plain dir id env :
  valid_id id = true →
  run_ctl encode format_time jsonUnmarshal os_TempDir time_Now ["-runtime-dir"; dir; "-plugin-id"; id; "logs"] env
  = run_logs encode format_time jsonUnmarshal (plain_flags dir id) dir (clock env).
Proof.
  intros Hid. apply (run_ctl_logs _ ["-runtime-dir"; dir; "-plugin-id"; id] (plain_flags dir id) env).
  - reflexivity.
  - reflexivity.
  - exact Hid.
  - change (get_number (plain_flags dir id) "limit" 200) with 200. lia.
  - change (get_string (plain_flags dir id) "format" "text") with "text". by left.
Qed.

Lemma log_path_nonempty dir id : valid_id id = true → pluginEventLogPath dir id ≠ "".
Proof.
  intros Hid. unfold pluginEventLogPath. rewrite PathJoin3_plain by (by apply id_plain || apply events_plain).
  intros E. apply (f_equal String.length) in E. rewrite !slength_app in E. simpl in E. lia.
Qed.

Section Written.
(** The codec writes one line for each event that is written, which reads back
    as what it stores; of these events, whose plugin ids are valid or empty, it
    stores the plugin as it is.  Nothing is asked of it for other events. *)
Variables (jsonMarshal : Event → result string) (stored : Event → Event) (event : Event).
Hypothesis codec : ∀ ev p, written l event ev → jsonMarshal ev = Ok p →
  one_line p = true ∧ jsonUnmarshal p = Ok (stored ev).
Hypothesis stored_id : ∀ ev, written l event ev → ev_PluginID (stored ev) = ev_PluginID ev.

Lemma fill_defaults_id ev now : ev_PluginID (fill_defaults ev now) = ev_PluginID ev.
Proof. unfold fill_defaults. by destruct (time_IsZero _); repeat case_decide. Qed.

(** C20. What a manager logs about its plugin is what the operator is shown.
    On the log of a plugin of the host, with the default five backups and
    complete lines, a Write of an event of that plugin that returns nil makes
    that event the first line of "rpcpluginctl -runtime-dir D -plugin-id P
    logs", D being the host's directory: the command exits with 0 unless the
    terminal fails, and then shows, newest first and at most two hundred, the
    new event and the plugin's older ones, of which none is lost but, when the
    log was full, those of the oldest backup.  Of the JSON codec it is only asked
    that the events this Write writes, the event and those of a rotation, are
    read back from their lines as events of the same plugin. *)
Theorem logs_show_writes hcfg plugin env fs evs :
  let id := pc_PluginID plugin in
  valid_id id = true → lg_path l = EventLogPath (manager_config hcfg plugin) →
  lg_maxBackups l = 5 → 0 < lg_maxBytes l →
  fs_handle fs = Some (lg_path l) → content fs (slot l 0) ≠ None → log_ok jsonUnmarshal l fs 5 evs →
  ev_PluginID event = id →
  Prog.wp log_step (Write jsonMarshal l event) (λ r fs', r = None →
    ∃ dropped kept now, events_from evs 5 = dropped ++ kept ∧ (dropped = [] ∨ dropped = evs 5%nat)
      ∧ wp (run_ctl encode format_time jsonUnmarshal os_TempDir time_Now
              ["-runtime-dir"; hc_RuntimeDir hcfg; "-plugin-id"; id; "logs"] env)
          (λ code s', t_fs s' = fs' ∧ (code = 0 ↔ t_failed s' = false)
             ∧ (code = 0 → t_out s' = (λ ev, FormatText format_time ev +:+ newline) <$>
                  take 200 (stored (fill_defaults event now)
                              :: reverse (filter (λ ev, ev_PluginID ev = id) kept))))
          (mkTerminal fs' [] false)) fs.
Proof.
  intros id Hid Hpath Hfive Hmax Hh Hne Hok Hev.
  assert (id ≠ "") as Hne' by (intros E; by rewrite E in Hid).
  eapply wp_mono; [eapply (Write_keeps jsonUnmarshal l jsonMarshal stored event codec Hfive); try done|].
  { rewrite Hpath. by apply log_path_nonempty. }
  intros r fs' Hr Hnone. destruct (Hr Hnone) as (evs' & dropped & kept & rotation & now & Hok' & Hc & E & Hrot & E').
  exists dropped, kept, now. split; [exact E|]. split; [tauto|].
  rewrite run_ctl_plain by done.
  set (actual := plain_flags (hc_RuntimeDir hcfg) id).
  eapply wp_mono; [exact (run_logs_shows actual _ (clock env) evs' (mkTerminal fs' [] false) Hne' Hpath Hok')|].
  assert (log_filters actual (clock env) = default_filters id) as Hfilters by reflexivity.
  assert (filter (λ ev, ev_PluginID ev = id) rotation = []) as Hrotation.
  { destruct Hrot as [[_ ->]|[_ [t ->]]]; [done|]. rewrite filter_cons_False; [done|].
    rewrite stored_id by (right; by exists t). by apply not_eq_sym. }
  assert (select (log_filters actual (clock env)) (events_from evs' 5)
    = take 200 (stored (fill_defaults event now) :: reverse (filter (λ ev, ev_PluginID ev = id) kept))) as Hselect.
  { rewrite Hfilters, select_default by done. f_equal. rewrite E', !filter_app, Hrotation, filter_cons_True
      by (rewrite stored_id by (left; by exists now); by rewrite fill_defaults_id). by rewrite filter_nil, app_nil_l, reverse_snoc. }
  intros code s' [Hfs Hshow]. unfold shows in Hshow. rewrite Hselect in Hshow.
  split; [exact Hfs|].
  destruct Hshow as [(-> & _ & ts & [= <-] & ->)|(-> & [Hno|[[e He]|Hf]])]; [done|..].
  - destruct Hno. exists 0%nat. split; [lia|exact Hc].
  - discriminate He.
  - rewrite Hf. done.
Qed.
End Written.
End Plugin.
End Logs.

(** ** A log of the plugin "echo" *)
#[local] Existing Instance ascii_tables.
#[local] Existing Instance demo_readers.

(** Lines that hold the name of the event, and the plugin if it is "echo"; any
    other plugin id is lost, as encoding/json loses bytes that are no text. *)
Definition tag_marshal (ev : Event) : result string :=
  if negb (one_line (ev_Event ev)) then Err (errors_New "not one line")
  else if bool_decide (ev_PluginID ev = "echo") then Ok ("+" +:+ ev_Event ev)
  else Ok ("-" +:+ ev_Event ev).
Definition tag_stored (ev : Event) : Event :=
  {| event0 with ev_PluginID := if bool_decide (ev_PluginID ev = "echo") then "echo" else "";
     ev_Event := ev_Event ev |}.
Definition tag_unmarshal (s : string) : result Event :=
  match s with
  | "" => Err (errors_New "empty line")
  | String c name =>
      Ok {| event0 with ev_PluginID := if decide (c = "+"%char) then "echo" else ""; ev_Event := name |}
  end.

Lemma tag_codec ev p : tag_marshal ev = Ok p → one_line p = true ∧ tag_unmarshal p = Ok (tag_stored ev).
Proof.
  unfold tag_marshal, tag_stored. destruct (one_line (ev_Event ev)) eqn:E; cbn [negb]; [|done].
  case_bool_decide; intros [= <-]; by split.
Qed.

Definition echo_event (name : string) : Event := {| event0 with ev_PluginID := "echo"; ev_Event := name |}.

(** A foreign id is not stored, the ids that are written are. *)
Lemma tag_stored_id name ev :
  written (mkLogger "/run/rpc/echo/events.jsonl" 12 5) (echo_event name) ev →
  ev_PluginID (tag_stored ev) = ev_PluginID ev.
Proof. intros [[now ->]|[t ->]]; [|done]. unfold tag_stored. cbn. by rewrite fill_defaults_id. Qed.

Definition echo_log : Logger := mkLogger "/run/rpc/echo/events.jsonl" 12 5.
Definition echo_files : logfs :=
  mkFs {[ "/run/rpc/echo/events.jsonl" := "+current12" +:+ newline;
          "/run/rpc/echo/events.2.jsonl" := "+older" +:+ newline ]} (Some "/run/rpc/echo/events.jsonl").
Definition echo_events (i : nat) : list Event :=
  match i with O => [echo_event "current12"] | 2%nat => [echo_event "older"] | _ => [] end.

Lemma echo_files_ok : log_ok tag_unmarshal echo_log echo_files 5 echo_events.
Proof.
  assert (∀ s s' evs, s = s' → decodes tag_unmarshal s' evs → decodes tag_unmarshal s evs) as Heq
    by (by intros s s' evs ->).
  intros i Hi. do 6 (destruct i as [|i]; [first
    [ eapply Heq; [|constructor]; vm_compute; reflexivity
    | eapply Heq; [|eapply (decodes_single _ "+current12")]; vm_compute; reflexivity
    | eapply Heq; [|eapply (decodes_single _ "+older")]; vm_compute; reflexivity ]|]). lia.
Qed.

Definition demo_logs (args : list string) : prog ctlE Z :=
  run_ctl (λ _, Ok "{}") (λ _, "T") tag_unmarshal "/tmp" 0 args (mkRunEnv "" (Some "/tmp") (Some 0)).
Definition echo_line (name : string) : string :=
  FormatText (λ _, "T") (echo_event name) +:+ newline.

(** The flags in another order, and the events oldest first. *)
Lemma logs_exact_witness :
  wp terminal_step (demo_logs ["-reverse=false"; "logs"; "-plugin-id"; "echo"; "-runtime-dir=/run/rpc"])
    (λ code s', t_fs s' = echo_files ∧ (code = 0 ↔ t_failed s' = false)
       ∧ (code = 0 → t_out s' = [echo_line "older"; echo_line "current12"])) (mkTerminal echo_files [] false).
Proof.
  set (flagArgs := ["-reverse=false"; "-plugin-id"; "echo"; "-runtime-dir=/run/rpc"]).
  set (actual := match Parse ctl_flags flagArgs with inr (actual, _) => actual | inl _ => ∅ end).
  assert (0 <= get_number actual "limit" 200) as Hlimit by (apply Z.leb_le; vm_compute; reflexivity).
  assert (get_string actual "format" "text" ∈ ["text"; "json"]) as Hformat.
  { assert (get_string actual "format" "text" = "text") as -> by (vm_compute; reflexivity). by left. }
  assert (lg_path echo_log = pluginEventLogPath (get_string actual "runtime-dir"
    (default_dir "/tmp" (mkRunEnv "" (Some "/tmp") (Some 0)))) (get_string actual "plugin-id" "")) as Hpath
    by (vm_compute; reflexivity).
  assert (Parse ctl_flags flagArgs = inr (actual, [])) as Hparse by (vm_compute; reflexivity).
  assert (valid_id (get_string actual "plugin-id" "") = true) as Hid by (vm_compute; reflexivity).
  eapply wp_mono; [exact (logs_exact (λ _, Ok "{}") (λ _, "T") tag_unmarshal "/tmp" 0 echo_log
    ["-reverse=false"; "logs"; "-plugin-id"; "echo"; "-runtime-dir=/run/rpc"] flagArgs actual
    (mkRunEnv "" (Some "/tmp") (Some 0)) echo_files echo_events eq_refl Hparse Hid Hlimit Hformat Hpath echo_files_ok)|].
  intros code s' (Hfs & _ & Hiff & Hout). split; [exact Hfs|]. split.
  - rewrite Hiff. split; [by intros (_ & _ & H)|]. intros H. split; [|split; [|exact H]].
    + exists 0%nat. split; [lia|]. vm_compute. discriminate.
    + eexists. vm_compute. reflexivity.
  - intros Hz. specialize (Hout Hz). vm_compute in Hout |- *. by injection Hout as <-.
Defined.

(** A write that rotates the log, and the command after it. *)
Lemma logs_show_writes_witness :
  let r := run (log_run 7) (Write tag_marshal echo_log (echo_event "plugin_started")) echo_files in
  r.2 = None
  ∧ wp terminal_step (demo_logs ["-runtime-dir"; "/run/rpc"; "-plugin-id"; "echo"; "logs"])
      (λ code s', (code = 0 ↔ t_failed s' = false)
         ∧ (code = 0 → hd "" (t_out s') = echo_line "plugin_started")) (mkTerminal r.1 [] false).
Proof.
  assert (lg_path echo_log = EventLogPath (manager_config (host_cfg [echo_plugin]) echo_plugin)) as Epath
    by (vm_compute; reflexivity).
  pose proof (logs_show_writes (λ _, Ok "{}") (λ _, "T") tag_unmarshal "/tmp" 0 echo_log tag_marshal tag_stored
    (echo_event "plugin_started") (λ ev p _, tag_codec ev p) (tag_stored_id "plugin_started")
    (host_cfg [echo_plugin]) echo_plugin
    (mkRunEnv "" (Some "/tmp") (Some 0)) echo_files echo_events eq_refl Epath eq_refl eq_refl eq_refl
    ltac:(vm_compute; discriminate) echo_files_ok eq_refl) as Hw. cbv zeta in Hw.
  assert ((run (log_run 7) (Write tag_marshal echo_log (echo_event "plugin_started")) echo_files).2 = None) as E
    by (vm_compute; reflexivity).
  split; [exact E|].
  destruct (wp_run log_step (log_run 7) (log_run_ok 7) _ _ _ Hw E) as (dropped & kept & now & _ & _ & Hr).
  eapply wp_mono; [exact Hr|]. intros code s' (_ & Hiff & Hout). split; [exact Hiff|].
  intros Hz. rewrite (Hout Hz). reflexivity.
Defined.
