(* ===== verification/Sdk.v ===== *)
(** * The plugin SDK (src/pkg/plugin: plugin.go, logging.go, template.go)

    The plugin side of the protocol: configuration from the environment, the
    RPC server that lets nothing through before a single-use authentication,
    and the plugin's own event log.  The author's plugin (the interface Core
    and its optional extensions) and the process it runs in are calls
    ([sdkE]).  net/rpc runs every request in a goroutine of its own. *)

From S2P Require Import Prelude Prog GoText GoNum GoPath PluginID Auth Runtime EventLog Provider PluginApi.

(** ** Data *)

Record Config : Type := mkConfig {
  sc_SocketPath : string;
  sc_PluginID : string;
  sc_GenerationID : Z;
  sc_AuthToken : string;
}.

(** Which of the optional interfaces the plugin implements. *)
Record Core : Type := mkCore {
  is_capabilityProvider : bool;
  is_authHook : bool;
  is_acceptHook : bool;
  is_identityHook : bool;
  is_Echo : bool;
  is_Sleep : bool;
  is_Crash : bool;
}.

Record server : Type := mkServer {
  srv_core : Core;
  srv_cfg : Config;
  srv_capabilities : list string;
  srv_logger : bool;               (* the logger is not nil *)
}.

(** ** Calls *)
Inductive sdkE : Type → Type :=
(* the mutex and the field authUsed *)
| SLock : sdkE unit
| SUnlock : sdkE unit
| GetAuthUsed : sdkE bool
| SetAuthUsed : sdkE unit
(* the plugin *)
| OnAuthAttempt (token : string) : sdkE (option error)
| OnServeListener : sdkE unit
| CoreCapabilities : sdkE (list string)
| CoreIdentity : sdkE (string * Z)
| CoreVersion : sdkE string
| CoreHeartbeat : sdkE (HeartbeatResponse * option error)
| CoreShutdown : sdkE (option error)
| CoreEcho (Message : string) : sdkE (string * option error)
| CoreSleep (Duration : Z) : sdkE (option error)
| CoreCrash (Code : Z) : sdkE (option error)
(* the process *)
| SGetenv (name : string) : sdkE string
| SReadFile (path : string) : sdkE (result string)
| SOpenLog (path : string) : sdkE (option error)         (* eventlog.New *)
| SLog (event : Event) : sdkE (option error)             (* logger.Event *)
| SCloseLog : sdkE (option error)
| SSys {X} (e : sysE X) : sdkE X
| SRegister (name : string) (s : server) : sdkE (option error)
| SAccept : sdkE (result conn)
| SServeConn (c : conn) : sdkE unit                      (* go serveRPCConn *)
| SCloseListener : sdkE unit.

(** ** Vocabulary of the plugin log *)
Definition DefaultLogFileName : string := "events.jsonl".
Definition DefaultPluginLogFileName : string := "plugin-events.jsonl".
Definition LogComponentPlugin : string := "plugin".
Definition EventPluginBootStarted : string := "plugin_boot_started".
Definition EventPluginBootFailed : string := "plugin_boot_failed".
Definition EventPluginConfigLoaded : string := "plugin_config_loaded".
Definition EventPluginListenerStarted : string := "plugin_listener_started".
Definition EventPluginServeStopped : string := "plugin_serve_stopped".
Definition EventPluginAuthAttempt : string := "plugin_auth_attempt".
Definition EventPluginAuthAccepted : string := "plugin_auth_accepted".
Definition EventPluginAuthRejected : string := "plugin_auth_rejected".
Definition EventPluginCapabilitiesRead : string := "plugin_capabilities_reported".
Definition EventPluginShutdownCalled : string := "plugin_shutdown_called".
Definition EventPluginRequestHandled : string := "plugin_request_handled".
Definition EventPluginRequestFailed : string := "plugin_request_failed".

(** ** The plugin's logger *)

Record SdkLogger : Type := mkSdkLogger {
  sl_pluginID : string;
  sl_generationID : Z;
  sl_pid : Z;
  sl_path : string;
  sl_logger : option Logger;
}.

Definition plugin_log_path (cfg : Config) : string :=
  PathJoin [Dir (sc_SocketPath cfg); DefaultPluginLogFileName].

Definition NewLogger (cfg : Config) (pid : Z) : prog logE (result SdkLogger) :=
  let path := plugin_log_path cfg in
  base ← EventLog.New path;
  match base with
  | Err e => Ret (Err (errors_Wrap "open plugin event log" e))
  | Ok base => Ret (Ok (mkSdkLogger (sc_PluginID cfg) (sc_GenerationID cfg) pid path (Some base)))
  end.

Definition Logger_Path (l : option SdkLogger) : string :=
  match l with None => "" | Some l => sl_path l end.

Definition Logger_Close (l : option SdkLogger) : prog logE (option error) :=
  match l with
  | Some {| sl_logger := Some base |} => EventLog.Close base
  | _ => Ret None
  end.

(** What Event fills in before writing. *)
Definition stamp_event (l : SdkLogger) (event : Event) : Event :=
  let event := if decide (ev_Component event = "")
               then {| event with ev_Component := LogComponentPlugin |} else event in
  let event := if decide (ev_PluginID event = "")
               then {| event with ev_PluginID := sl_pluginID l |} else event in
  let event := if ev_GenerationID event =? 0
               then {| event with ev_GenerationID := sl_generationID l |} else event in
  let event := if ev_PID event =? 0 then {| event with ev_PID := sl_pid l |} else event in
  if decide (ev_Level event = "") then {| event with ev_Level := LevelInfo |} else event.

Definition Logger_Event (jsonMarshal : Event → result string) (l : option SdkLogger) (event : Event)
  : prog logE (option error) :=
  match l with
  | Some l =>
      match sl_logger l with
      | Some base => Write jsonMarshal base (stamp_event l event)
      | None => Ret None
      end
  | None => Ret None
  end.

(** The public input for provider-owned diagnostics. *)
Record ProviderDiagnostic : Type := mkProviderDiagnostic {
  pd_CapabilityID : string;
  pd_OperationID : string;
  pd_CorrelationID : string;
  pd_Status : string;
  pd_DurationMS : Z;
  pd_ErrorClass : string;
  pd_DegradedReason : string;
  pd_Message : string;
  pd_Details : list (string * Value);
}.

Definition diagnostic_observation (l : SdkLogger) (d : ProviderDiagnostic) : ProviderObservation :=
  mkObservation LevelInfo ComponentProviderDiagnostic EventProviderDiagnosticReported
    (sl_pluginID l) (sl_generationID l) (pd_CapabilityID d) (pd_OperationID d) (pd_CorrelationID d)
    (pd_Status d) (pd_DurationMS d) (pd_ErrorClass d) (pd_DegradedReason d) (pd_Message d) (pd_Details d).

Definition Logger_ProviderDiagnostic `{UnicodeTables} (jsonMarshal : Event → result string)
    (l : option SdkLogger) (d : ProviderDiagnostic) : prog logE (option error) :=
  match l with
  | Some l =>
      match sl_logger l with
      | Some base =>
          match ProviderEvent (diagnostic_observation l d) with
          | Err e => Ret (Some (errors_Wrap "provider diagnostic" e))
          | Ok event =>
              Write jsonMarshal base
                (if ev_PID event =? 0 then {| event with ev_PID := sl_pid l |} else event)
          end
      | None => Ret None
      end
  | None => Ret None
  end.

(** ** Configuration *)

Definition ErrMissingEnv (name : string) : error :=
  errors_New (name +:+ " is required for plugin startup").

Section Sdk.
Context `{UnicodeTables}.

Definition LoadConfigFromEnv : prog sdkE (result Config) :=
  sock ← trigger (SGetenv SocketEnv);
  if decide (sock = "") then Ret (Err (ErrMissingEnv SocketEnv)) else
  pluginID ← trigger (SGetenv PluginIDEnv);
  if decide (pluginID = "") then Ret (Err (ErrMissingEnv PluginIDEnv)) else
  genStr ← trigger (SGetenv GenerationEnv);
  if decide (genStr = "") then Ret (Err (ErrMissingEnv GenerationEnv)) else
  match ParseUint genStr with
  | Err e => Ret (Err (errors_Wrap ("parse " +:+ GenerationEnv +:+ " " +:+ Quote genStr) e))
  | Ok generationID =>
      authFile ← trigger (SGetenv TokenFileEnv);
      if decide (authFile = "") then Ret (Err (ErrMissingEnv TokenFileEnv)) else
      raw ← trigger (SReadFile authFile);
      match raw with
      | Err e => Ret (Err (errors_Wrap ("read " +:+ TokenFileEnv +:+ " " +:+ Quote authFile) e))
      | Ok authTokenRaw => Ret (Ok (mkConfig sock pluginID generationID authTokenRaw))
      end
  end.

(** ** The RPC server *)

Section Server.
Variable s : server.

Definition plugin_event (kind method message : string) : Event :=
  {| event0 with ev_Event := kind; ev_Method := method; ev_Message := message |}.

(** [if s.logger != nil { _ = s.logger.Event(event) }] *)
Definition log_event (event : Event) : prog sdkE unit :=
  if srv_logger s then _ ← trigger (SLog event); Ret tt else Ret tt.

Definition os_ErrPermission : error := mkError "permission denied" [ErrPermission].
Definition rpc_ErrShutdown : error := mkError "connection is shut down" [ErrShutdown].

Definition logRPC (method : string) (err : option error) : prog sdkE unit :=
  match err with
  | Some e => log_event {| (plugin_event EventPluginRequestFailed method "plugin rpc handler failed") with
                           ev_Level := LevelWarn; ev_Error := err_msg e |}
  | None => log_event (plugin_event EventPluginRequestHandled method "plugin rpc handler completed")
  end.

Definition requireAuth (method : string) : prog sdkE (option error) :=
  trigger SLock ;;
  used ← trigger GetAuthUsed;
  if (used : bool) then trigger SUnlock ;; Ret None
  else
    log_event {| (plugin_event EventPluginAuthRejected method "plugin rpc rejected before auth") with
                 ev_Level := LevelWarn; ev_Reason := "auth required";
                 ev_Error := err_msg os_ErrPermission |} ;;
    logRPC method (Some os_ErrPermission) ;;
    trigger SUnlock ;;
    Ret (Some os_ErrPermission).

(** The plugin id and generation reported to the kernel. *)
Definition identity : prog sdkE (string * Z) :=
  if is_identityHook (srv_core s) then trigger CoreIdentity
  else Ret (sc_PluginID (srv_cfg s), sc_GenerationID (srv_cfg s)).

Definition auth_response0 : AuthResponse := mkAuthResponse "" "" 0.

(** The critical section of Auth. *)
Definition auth_locked (token : string) : prog sdkE (AuthResponse * option error) :=
  used ← trigger GetAuthUsed;
  if (used : bool) || negb (EqualToken token (sc_AuthToken (srv_cfg s))) then
    log_event {| (plugin_event EventPluginAuthRejected MethodAuth "plugin auth token rejected") with
                 ev_Level := LevelWarn; ev_Reason := "used or mismatched token" |} ;;
    Ret (auth_response0, Some os_ErrPermission)
  else
    trigger SetAuthUsed ;;
    id ← identity;
    version ← trigger CoreVersion;
    (if srv_logger s then
       v ← trigger CoreVersion;
       log_event {| (plugin_event EventPluginAuthAccepted MethodAuth "plugin auth accepted") with
                    ev_Details := [("version", VString v)] |}
     else Ret tt) ;;
    Ret (mkAuthResponse id.1 version id.2, None).

Definition Auth (token : string) : prog sdkE (AuthResponse * option error) :=
  log_event (plugin_event EventPluginAuthAttempt MethodAuth "plugin auth attempt received") ;;
  hook ← (if is_authHook (srv_core s) then trigger (OnAuthAttempt token) else Ret None);
  match hook with
  | Some err =>
      log_event {| (plugin_event EventPluginAuthRejected MethodAuth "plugin auth hook rejected request") with
                   ev_Level := LevelWarn; ev_Error := err_msg err |} ;;
      Ret (auth_response0, Some err)
  | None =>
      trigger SLock ;;
      r ← auth_locked token;
      trigger SUnlock ;;
      Ret r
  end.

(** A handler that starts with [requireAuth]; [zero] is the reply as allocated. *)
Definition guarded {X} (method : string) (zero : X) (body : prog sdkE (X * option error))
  : prog sdkE (X * option error) :=
  denied ← requireAuth method;
  match denied with
  | Some err => Ret (zero, Some err)
  | None => body
  end.

Definition Capabilities : prog sdkE (CapabilitiesResponse * option error) :=
  guarded MethodCapabilities (mkCapabilitiesResponse "" "" 0 [])
    (id ← identity;
     version ← trigger CoreVersion;
     log_event {| (plugin_event EventPluginCapabilitiesRead MethodCapabilities "plugin capabilities reported") with
                  ev_Details := [("capabilities", VStrings (srv_capabilities s))] |} ;;
     Ret (mkCapabilitiesResponse id.1 version id.2 (srv_capabilities s), None)).

(** [err := handler(in, out); s.logRPC(method, err); return err] *)
Definition logged {X} (method : string) (handler : prog sdkE (X * option error))
  : prog sdkE (X * option error) :=
  r ← handler;
  logRPC method r.2 ;;
  Ret r.

(** A method of an interface the plugin may not implement. *)
Definition optional {X} (implemented : bool) (zero : X) (handler : prog sdkE (X * option error))
  : prog sdkE (X * option error) :=
  if implemented then handler else Ret (zero, Some rpc_ErrShutdown).

Definition no_reply (p : prog sdkE (option error)) : prog sdkE (unit * option error) :=
  err ← p; Ret (tt, err).

Definition Heartbeat : prog sdkE (HeartbeatResponse * option error) :=
  guarded MethodHeartbeat heartbeat0 (logged MethodHeartbeat (trigger CoreHeartbeat)).

Definition Shutdown : prog sdkE (unit * option error) :=
  guarded MethodShutdown tt
    (log_event (plugin_event EventPluginShutdownCalled MethodShutdown "plugin shutdown requested") ;;
     logged MethodShutdown (no_reply (trigger CoreShutdown))).

Definition Echo (message : string) : prog sdkE (string * option error) :=
  guarded MethodEcho ""
    (logged MethodEcho (optional (is_Echo (srv_core s)) "" (trigger (CoreEcho message)))).

Definition Sleep (duration : Z) : prog sdkE (unit * option error) :=
  guarded MethodSleep tt
    (logged MethodSleep (optional (is_Sleep (srv_core s)) tt (no_reply (trigger (CoreSleep duration))))).

Definition Crash (code : Z) : prog sdkE (unit * option error) :=
  guarded MethodCrash tt
    (logged MethodCrash (optional (is_Crash (srv_core s)) tt (no_reply (trigger (CoreCrash code))))).

(** The handler net/rpc runs for a request. *)
Definition serve_request {X} (r : request X) : prog sdkE (X * option error) :=
  match r in request X return prog sdkE (X * option error) with
  | RAuth token => Auth token
  | RCapabilities => Capabilities
  | RHeartbeat => Heartbeat
  | REcho message => Echo message
  | RSleep duration => Sleep duration
  | RCrash code => Crash code
  | RShutdown => Shutdown
  end.
End Server.

(** ** Serving *)

Definition detectCapabilities (core : Core) : prog sdkE (list string) :=
  if is_capabilityProvider core then trigger CoreCapabilities
  else Ret (["heartbeat"; "shutdown"]
            ++ (if is_Echo core then ["echo"] else [])
            ++ (if is_Sleep core then ["sleep"] else [])
            ++ (if is_Crash core then ["crash"] else [])).

Definition sdk_sys {A} (p : prog sysE A) : prog sdkE A := translate (λ X, @SSys X) p.

Definition sdk_log (event : Event) : prog sdkE unit := _ ← trigger (SLog event); Ret tt.

(** The accept loop, for [n] connections: [None] when it is still running. *)
Fixpoint accept_loop (n : nat) : prog sdkE (option unit) :=
  match n with
  | O => Ret None
  | S n' =>
      conn ← trigger SAccept;
      match conn with
      | Err e =>
          sdk_log {| (plugin_event EventPluginServeStopped "" "plugin listener stopped") with
                     ev_Reason := "listener closed"; ev_Error := err_msg e |} ;;
          Ret (Some tt)
      | Ok c => trigger (SServeConn c) ;; accept_loop n'
      end
  end.

(** ServeWithConfig, for [n] connections: [None] when it is still serving. *)
Definition ServeWithConfig (n : nat) (cfg : Config) (core : option Core)
  : prog sdkE (option (option error)) :=
  match core with
  | None => Ret (Some (Some (errors_New "plugin core is required")))
  | Some core =>
      l ← trigger (SOpenLog (plugin_log_path cfg));
      match l with
      | Some e =>
          Ret (Some (Some (errors_Wrap "create plugin logger" (errors_Wrap "open plugin event log" e))))
      | None =>
          sdk_log (plugin_event EventPluginBootStarted "" "plugin boot starting") ;;
          sdk_log {| (plugin_event EventPluginConfigLoaded "" "plugin config loaded") with
                     ev_Details := [("socket_path", VString (sc_SocketPath cfg))] |} ;;
          listener ← sdk_sys (ListenUnix (sc_SocketPath cfg));
          match listener with
          | Some e =>
              sdk_log {| (plugin_event EventPluginBootFailed "" "plugin listener startup failed") with
                         ev_Level := LevelError; ev_Error := err_msg e |} ;;
              _ ← trigger SCloseLog;
              Ret (Some (Some (errors_Wrap "listen unix socket" e)))
          | None =>
              (if is_acceptHook core then trigger OnServeListener else Ret tt) ;;
              sdk_log {| (plugin_event EventPluginListenerStarted "" "plugin listener ready") with
                         ev_SocketPath := sc_SocketPath cfg |} ;;
              caps ← detectCapabilities core;
              registered ← trigger (SRegister ServiceName (mkServer core cfg caps true));
              match registered with
              | Some e =>
                  sdk_log {| (plugin_event EventPluginBootFailed "" "rpc service registration failed") with
                             ev_Level := LevelError; ev_Error := err_msg e |} ;;
                  trigger SCloseListener ;; _ ← trigger SCloseLog;
                  Ret (Some (Some (errors_Wrap "register rpc service" e)))
              | None =>
                  stopped ← accept_loop n;
                  match stopped with
                  | None => Ret None
                  | Some _ =>
                      trigger SCloseListener ;; _ ← trigger SCloseLog;
                      Ret (Some None)
                  end
              end
          end
      end
  end.

Definition Serve (n : nat) (core : option Core) : prog sdkE (option (option error)) :=
  cfg ← LoadConfigFromEnv;
  match cfg with
  | Err e => Ret (Some (Some (errors_Wrap "load plugin config from env" e)))
  | Ok cfg => ServeWithConfig n cfg core
  end.
End Sdk.

(** ** The template plugin *)

Record TemplatePlugin : Type := mkTemplatePlugin {
  tp_PluginID : string;
  tp_GenerationID : Z;
  tp_VersionName : string;
  tp_StartedAt : Z;
}.

Definition NewTemplate (cfg : Config) (version : string) (now : Z) : TemplatePlugin :=
  mkTemplatePlugin (sc_PluginID cfg) (sc_GenerationID cfg)
    (if decide (version = "") then "0.1.0" else version) now.

Definition Template_Version (p : TemplatePlugin) : string := tp_VersionName p.

(** Times are nanoseconds; the uptime is in whole seconds, rounded to zero. *)
Definition Template_Heartbeat (p : TemplatePlugin) (now : Z) : HeartbeatResponse :=
  mkHeartbeatResponse (tp_PluginID p) (Template_Version p) (tp_GenerationID p)
    (Z.quot (now - tp_StartedAt p) 1000000000) StatusHealthy 0 0 0.
