(* ===== verification/SdkFacts.v ===== *)
(** * The plugin server's authentication gate

    Every request runs in a goroutine of its own ([serve_any]); the goroutines
    share the server's mutex and its flag.  The gate is proved for every
    interleaving with the method of file Rely. *)

From stdpp Require Import relations.
From S2P Require Import Prelude Prog Rely GoText GoNum GoPath PluginID Auth Runtime EventLog PluginApi Sdk.

Inductive any_request : Type :=
| Any {X : Type} (r : request X).

(** What was done: the flag was set, or one of the plugin's methods ran. *)
Inductive act : Type := ASet | AWork.

Record sdk_state : Type := mkSdkState {
  mutex : option nat;
  authUsed : bool;
  hist : list (nat * act);
}.

Definition did (i : nat) (a : act) (s : sdk_state) : sdk_state :=
  {| s with hist := hist s ++ [(i, a)] |}.

(** Goroutine [i] makes a call.  The plugin answers anything. *)
Definition sdk_step (i : nat) (X : Type) (e : sdkE X) : sdk_state → X → sdk_state → Prop :=
  match e in sdkE X return sdk_state → X → sdk_state → Prop with
  | SLock => λ s _ s', mutex s = None ∧ s' = {| s with mutex := Some i |}
  | SUnlock => λ s _ s', s' = {| s with mutex := None |}
  | GetAuthUsed => λ s x s', x = authUsed s ∧ s' = s
  | SetAuthUsed => λ s _ s', s' = {| (did i ASet s) with authUsed := true |}
  | CoreHeartbeat => λ s _ s', s' = did i AWork s
  | CoreShutdown => λ s _ s', s' = did i AWork s
  | CoreEcho _ => λ s _ s', s' = did i AWork s
  | CoreSleep _ => λ s _ s', s' = did i AWork s
  | CoreCrash _ => λ s _ s', s' = did i AWork s
  | _ => λ s _ s', s' = s
  end.

(** What [i] did, in order. *)
Definition own (i : nat) (h : list (nat * act)) : list act :=
  (filter (λ p, p.1 = i) h).*2.

Lemma own_app i h1 h2 : own i (h1 ++ h2) = own i h1 ++ own i h2.
Proof. unfold own. by rewrite filter_app, fmap_app. Qed.

Lemma own_other i j a : j ≠ i → own j [(i, a)] = [].
Proof. intros Hne. unfold own. by rewrite filter_cons_False by (simpl; congruence). Qed.

Lemma own_self i a : own i [(i, a)] = [a].
Proof. unfold own. by rewrite filter_cons_True by done. Qed.

Lemma elem_of_own i a h : (i, a) ∈ h ↔ a ∈ own i h.
Proof.
  unfold own. rewrite list_elem_of_fmap. split.
  - intros Hin. exists (i, a). split; [done|]. by apply list_elem_of_filter.
  - intros ([j b] & -> & [Hj Hin]%list_elem_of_filter). simpl in *. by subst.
Qed.

(** A history the gate allows: the flag is set at most once and the plugin
    only works once it is; answers the flag at the end. *)
Fixpoint gate (used : bool) (h : list (nat * act)) : option bool :=
  match h with
  | [] => Some used
  | (_, ASet) :: rest => if used then None else gate true rest
  | (_, AWork) :: rest => if used then gate used rest else None
  end.

Lemma gate_snoc used h b i a :
  gate used h = Some b →
  gate used (h ++ [(i, a)]) = match a, b with
                              | ASet, false => Some true
                              | AWork, true => Some true
                              | _, _ => None
                              end.
Proof.
  revert used. induction h as [|[j c] h IH]; intros used; simpl.
  - intros [= ->]. by destruct a, b.
  - destruct c, used; try done; apply IH.
Qed.

Lemma gate_true_no_set h b j : gate true h = Some b → (j, ASet) ∉ h.
Proof.
  induction h as [|[k c] h IH]; simpl; [by intros _ ?%elem_of_nil|].
  destruct c; [done|]. intros Hg [[=]|Hin]%elem_of_cons. by apply IH.
Qed.

Lemma gate_set_unique h b i j :
  gate false h = Some b → (i, ASet) ∈ h → (j, ASet) ∈ h → i = j.
Proof.
  destruct h as [|[k c] h]; simpl; [by intros _ ?%elem_of_nil|]. destruct c; [|done].
  intros Hg Hi Hj. pose proof (λ k, gate_true_no_set h b k Hg) as Hn.
  apply elem_of_cons in Hi as [[= ->]|Hi]; [|by apply Hn in Hi].
  by apply elem_of_cons in Hj as [[= ->]|Hj]; [|apply Hn in Hj].
Qed.

Lemma gate_true_set h : gate false h = Some true → ∃ j, (j, ASet) ∈ h.
Proof.
  destruct h as [|[k c] h]; simpl; [done|]. destruct c; [|done]. intros _. exists k. by left.
Qed.

Lemma gate_work_after h b pre i post :
  gate false h = Some b → h = pre ++ (i, AWork) :: post → ∃ j, (j, ASet) ∈ pre.
Proof.
  intros Hg ->. destruct pre as [|[k c] pre]; [done|]. simpl in Hg. destruct c; [|done].
  exists k. by left.
Qed.

Section Gate.
Context `{UnicodeTables}.
Variable s0 : server.
Variable reqs : list any_request.

(** The reply itself is not looked at here, only whether it is an error. *)
Definition serve_any (q : any_request) : prog sdkE (option error) :=
  match q with Any r => a ← serve_request s0 r; Ret a.2 end.

(** Goroutine [i] carries an Auth request with the configured token. *)
Definition right_auth (i : nat) : Prop :=
  reqs !! i = Some (Any (RAuth (sc_AuthToken (srv_cfg s0)))).

Record others (i : nat) (s s' : sdk_state) : Prop := {
  ot_held : mutex s = Some i → mutex s' = Some i ∧ authUsed s' = authUsed s;
  ot_free : mutex s ≠ Some i → mutex s' ≠ Some i;
  ot_used : authUsed s = true → authUsed s' = true;
  ot_own : own i (hist s') = own i (hist s);
}.

#[local] Instance others_pre i : PreOrder (others i).
Proof.
  split; [by constructor|]. intros s1 s2 s3 [H1 F1 U1 O1] [H2 F2 U2 O2]. constructor; auto.
  - intros Hm. destruct (H1 Hm) as [Hm2 ->%symmetry]. by apply H2.
  - congruence.
Qed.

Record sdk_inv (s : sdk_state) : Prop := {
  in_gate : gate false (hist s) = Some (authUsed s);
  in_right : ∀ i, (i, ASet) ∈ hist s → right_auth i;
}.

Notation rg := (rg sdk_step others sdk_inv).

Lemma stable {A} i (p : prog sdkE A) Q s s1 : others i s s1 → rg i p Q s → rg i p Q s1.
Proof. apply rg_stable. apply _. Qed.

Lemma seq {A B} i (p : prog sdkE A) (k : A → prog sdkE B) Q s :
  rg i p (λ a s', rg i (k a) Q s') s → rg i (p ≫= k) Q s.
Proof. apply rg_seq. apply _. Qed.

Lemma quiet_seq {X B} i (e : sdkE X) (k : X → prog sdkE B) Q s :
  (∀ s1 x s2, sdk_step i X e s1 x s2 → s2 = s1) →
  (∀ x, rg i (k x) Q s) → rg i (trigger e ≫= k) Q s.
Proof.
  intros Hq Hk. apply rg_trigger_seq. intros s1 H1 H2 x s2 Hs. apply Hq in Hs as ->.
  split; [done|]. split; [intros j _; reflexivity|].
  eapply stable; [exact H1|apply Hk].
Qed.

Lemma log_seq {B} i ev (k : unit → prog sdkE B) Q s :
  rg i (k tt) Q s → rg i (log_event s0 ev ≫= k) Q s.
Proof.
  intros Hk. unfold log_event. destruct (srv_logger s0); [|done].
  apply (quiet_seq i (SLog ev) (λ _, k tt)); [by intros ??? ->|done].
Qed.

Lemma logRPC_seq {B} i method err (k : unit → prog sdkE B) Q s :
  rg i (k tt) Q s → rg i (logRPC s0 method err ≫= k) Q s.
Proof. unfold logRPC. destruct err; apply log_seq. Qed.

Lemma identity_seq {B} i (k : string * Z → prog sdkE B) Q s :
  (∀ x, rg i (k x) Q s) → rg i (identity s0 ≫= k) Q s.
Proof.
  intros Hk. unfold identity. destruct (is_identityHook _); [|by apply Hk].
  by apply quiet_seq; [intros ??? ->|].
Qed.

Lemma lock_seq {B} i (k : unit → prog sdkE B) Q s :
  mutex s ≠ Some i →
  (∀ s1, own i (hist s1) = own i (hist s) → mutex s1 = Some i → rg i (k tt) Q s1) →
  rg i (trigger SLock ≫= k) Q s.
Proof.
  intros Hm Hk. apply rg_trigger_seq. intros s1 [_ _ _ O1] [G1 G2] [] s2 [Hn ->]. split_and!.
  - by constructor.
  - intros j Hj. constructor; simpl; try done; rewrite Hn; [done|]. intros _ [=]. by subst.
  - by apply Hk.
Qed.

Lemma unlock_seq {B} i (k : unit → prog sdkE B) Q s :
  mutex s = Some i →
  (∀ s1, own i (hist s1) = own i (hist s) → authUsed s1 = authUsed s →
     mutex s1 ≠ Some i → rg i (k tt) Q s1) →
  rg i (trigger SUnlock ≫= k) Q s.
Proof.
  intros Hm Hk. apply rg_trigger_seq. intros s1 [H1 _ _ O1] [G1 G2] [] s2 Hs. simpl in Hs. subst s2.
  destruct (H1 Hm) as [Hm1 U1]. split_and!.
  - by constructor.
  - intros j Hj. constructor; simpl; try done. rewrite Hm1. intros [=]. by subst.
  - apply Hk; simpl; done.
Qed.

Lemma get_seq {B} i (k : bool → prog sdkE B) Q s :
  mutex s = Some i → rg i (k (authUsed s)) Q s → rg i (trigger GetAuthUsed ≫= k) Q s.
Proof.
  intros Hm Hk. apply rg_trigger_seq. intros s1 H1 H2 x s2 [-> ->].
  destruct (ot_held _ _ _ H1 Hm) as [_ ->]. split; [done|]. split; [intros j _; reflexivity|].
  eapply stable; [exact H1|apply Hk].
Qed.

(** The flag is set, by an Auth with the configured token. *)
Lemma set_seq {B} i (k : unit → prog sdkE B) Q s :
  mutex s = Some i → authUsed s = false → right_auth i →
  (∀ s1, mutex s1 = Some i → authUsed s1 = true → own i (hist s1) = own i (hist s) ++ [ASet] →
     rg i (k tt) Q s1) →
  rg i (trigger SetAuthUsed ≫= k) Q s.
Proof.
  intros Hm Hu Hr Hk. apply rg_trigger_seq. intros s1 [H1 _ _ O1] [G1 G2] [] s2 Hs. simpl in Hs. subst s2.
  destruct (H1 Hm) as [Hm1 U1]. rewrite Hu in U1. rewrite U1 in G1. split_and!.
  - constructor; simpl; [by rewrite (gate_snoc _ _ _ _ _ G1)|].
    intros j [Hj|Hj%list_elem_of_singleton]%elem_of_app; [by apply G2|]. by simplify_eq.
  - intros j Hj. constructor; simpl; rewrite ?Hm1, ?own_app, ?own_other, ?app_nil_r by done; try done.
    intros [=]. by subst.
  - apply Hk; simpl; rewrite ?own_app, ?own_self, ?O1; done.
Qed.

(** One of the plugin's methods, once the flag is known to be set. *)
Lemma work_seq {X B} i (e : sdkE X) (k : X → prog sdkE B) Q s :
  (∀ s1 x s2, sdk_step i X e s1 x s2 → s2 = did i AWork s1) →
  authUsed s = true → mutex s ≠ Some i →
  (∀ x s1, authUsed s1 = true → mutex s1 ≠ Some i → rg i (k x) Q s1) →
  rg i (trigger e ≫= k) Q s.
Proof.
  intros Hw Hu Hm Hk. apply rg_trigger_seq. intros s1 [_ F1 U1 _] [G1 G2] x s2 Hs.
  apply Hw in Hs as ->. specialize (U1 Hu). specialize (F1 Hm). split_and!.
  - rewrite U1 in G1. constructor; simpl; [by rewrite (gate_snoc _ _ _ _ _ G1), U1|].
    intros j [Hj|Hj%list_elem_of_singleton]%elem_of_app; [by apply G2|]. by simplify_eq.
  - intros j Hj. constructor; simpl; rewrite ?own_app, ?own_other, ?app_nil_r by done; done.
  - by apply Hk.
Qed.

(** ** The handlers *)

Lemma logRPC_spec i method err Q s :
  (∀ s', others i s s' → Q tt s') → rg i (logRPC s0 method err) Q s.
Proof.
  intros HQ. unfold logRPC, log_event.
  destruct err, (srv_logger s0); try (intros s' Hs' _; by apply HQ);
    (apply quiet_seq; [by intros ??? ->|intros x s' Hs' _; by apply HQ]).
Qed.

Lemma requireAuth_spec i method Q s :
  mutex s ≠ Some i →
  (∀ s1, mutex s1 ≠ Some i → authUsed s1 = true → own i (hist s1) = own i (hist s) → Q None s1) →
  (∀ e s1, own i (hist s1) = own i (hist s) → Q (Some e) s1) →
  rg i (requireAuth s0 method) Q s.
Proof.
  intros Hm Hok Herr. unfold requireAuth. apply lock_seq; [done|]. intros s1 E1 M1.
  apply get_seq; [done|]. destruct (authUsed s1) eqn:U1.
  - apply unlock_seq; [done|]. intros s2 E2 U2 M2. intros s3 [_ F3 U3 O3] _. apply Hok; auto.
    + apply U3. congruence.
    + congruence.
  - apply log_seq, logRPC_seq, unlock_seq; [done|]. intros s2 E2 U2 M2 s3 [_ _ _ O3] _.
    apply Herr. congruence.
Qed.

(** What an answer without an error means. *)
Definition answer_ok (i : nat) {X} (r : request X) (e : option error) (s : sdk_state) : Prop :=
  match r with
  | RAuth token => e = None → token = sc_AuthToken (srv_cfg s0) ∧ ASet ∈ own i (hist s)
  | _ => e = None → authUsed s = true
  end.

Lemma Auth_spec i token s :
  reqs !! i = Some (Any (RAuth token)) → mutex s ≠ Some i →
  rg i (Auth s0 token) (λ a, answer_ok i (RAuth token) a.2) s.
Proof.
  intros Hreq Hm. unfold Auth. apply log_seq, seq.
  apply (rg_mono sdk_step others sdk_inv _ _ (λ _ s1, mutex s1 ≠ Some i)).
  { destruct (is_authHook _); [apply quiet_seq; [by intros ??? ->|intros x]|];
      intros s1 [_ F1 _ _] _; auto. }
  intros [err|] s1 M1; [by apply log_seq|]. apply lock_seq; [done|]. intros s2 _ M2.
  apply seq. unfold auth_locked. apply get_seq; [done|].
  destruct (authUsed s2 || _) eqn:Hd.
  { apply log_seq. intros s3 [H3 _ _ _] _. destruct (H3 M2) as [M3 _].
    apply unlock_seq; [done|]. done. }
  apply orb_false_iff in Hd as [U2 Ht]. apply negb_false_iff in Ht.
  rewrite EqualToken_eq, bool_decide_eq_true in Ht. subst token.
  apply set_seq; [done|done|done|]. intros s3 M3 _ O3. apply identity_seq. intros id.
  apply quiet_seq; [by intros ??? ->|]. intros version. apply seq.
  apply (rg_mono sdk_step others sdk_inv _ _ (λ _ s4, mutex s4 = Some i ∧ ASet ∈ own i (hist s4))).
  { assert (∀ s4, others i s3 s4 → mutex s4 = Some i ∧ ASet ∈ own i (hist s4)) as Hst.
    { intros s4 [H4 _ _ O4]. split; [by apply H4|]. rewrite O4, O3. set_solver. }
    destruct (srv_logger s0) eqn:Hl; [|intros s4 H4 _; by apply Hst].
    apply quiet_seq; [by intros ??? ->|]. intros v. unfold log_event. rewrite Hl.
    apply quiet_seq; [by intros ??? ->|]. intros _ s4 H4 _. by apply Hst. }
  intros [] s4 [M4 A4] s5 [H5 _ _ O5] _. destruct (H5 M4) as [M5 _].
  apply unlock_seq; [done|]. intros s6 O6 _ _ s7 [_ _ _ O7] _ _. split; [done|].
  by rewrite O7, O6, O5.
Qed.

(** Every other handler asks [requireAuth] first. *)
Lemma guarded_spec {X} i method zero (body : prog sdkE (X * option error)) s :
  mutex s ≠ Some i →
  (∀ s1, mutex s1 ≠ Some i → authUsed s1 = true →
     rg i body (λ a s', a.2 = None → authUsed s' = true) s1) →
  rg i (guarded s0 method zero body) (λ a s', a.2 = None → authUsed s' = true) s.
Proof.
  intros Hm Hb. apply seq, requireAuth_spec; [done| |done].
  intros s1 M1 U1 _. by apply Hb.
Qed.

Lemma logged_spec {X} i method (handler : prog sdkE (X * option error)) s :
  rg i handler (λ _ s', authUsed s' = true) s →
  rg i (logged s0 method handler) (λ a s', a.2 = None → authUsed s' = true) s.
Proof.
  intros Hh. apply seq. eapply rg_mono; [exact Hh|]. intros r s1 U1. apply logRPC_seq.
  intros s2 [_ _ U2 _] _ _. by apply U2.
Qed.

Lemma worked_spec {X} i (e : sdkE X) s :
  (∀ s1 x s2, sdk_step i X e s1 x s2 → s2 = did i AWork s1) →
  mutex s ≠ Some i → authUsed s = true →
  rg i (trigger e) (λ _ s', authUsed s' = true) s.
Proof.
  intros Hw Hm Hu. apply work_seq; [done..|]. intros x s1 U1 _ s2 [_ _ U2 _] _. by apply U2.
Qed.

Lemma optional_spec {X} i b zero (handler : prog sdkE (X * option error)) s :
  authUsed s = true → rg i handler (λ _ s', authUsed s' = true) s →
  rg i (optional b zero handler) (λ _ s', authUsed s' = true) s.
Proof. intros Hu Hh. destruct b; [done|]. intros s1 [_ _ U1 _] _. by apply U1. Qed.

Lemma no_reply_spec i (p : prog sdkE (option error)) s :
  rg i p (λ _ s', authUsed s' = true) s → rg i (no_reply p) (λ _ s', authUsed s' = true) s.
Proof.
  intros Hp. apply seq. eapply rg_mono; [exact Hp|]. intros e s1 U1 s2 [_ _ U2 _] _. by apply U2.
Qed.

#[local] Hint Resolve logged_spec optional_spec no_reply_spec worked_spec : core.

Lemma serve_request_spec {X} (r : request X) i s :
  reqs !! i = Some (Any r) → mutex s ≠ Some i →
  rg i (serve_request s0 r) (λ a, answer_ok i r a.2) s.
Proof.
  intros Hreq Hm. destruct r; cbn [serve_request answer_ok]; [by apply Auth_spec|..];
    apply guarded_spec; try done; intros s1 M1 U1.
  - apply identity_seq. intros id. apply quiet_seq; [by intros ??? ->|]. intros v.
    apply log_seq. intros s2 [_ _ U2 _] _ _. by apply U2.
  - apply logged_spec, worked_spec; [by intros ??? ->|done..].
  - apply logged_spec, optional_spec, worked_spec; [done|by intros ??? ->|done..].
  - apply logged_spec, optional_spec, no_reply_spec, worked_spec; [done|by intros ??? ->|done..].
  - apply logged_spec, optional_spec, no_reply_spec, worked_spec; [done|by intros ??? ->|done..].
  - apply log_seq, logged_spec, no_reply_spec, worked_spec; [by intros ??? ->|done..].
Qed.

Definition answer_any (i : nat) (q : any_request) (e : option error) (s : sdk_state) : Prop :=
  match q with Any r => answer_ok i r e s end.

Lemma serve_any_spec i q s :
  reqs !! i = Some q → mutex s ≠ Some i → rg i (serve_any q) (answer_any i q) s.
Proof.
  intros Hq Hm. destruct q as [X r]. apply seq.
  eapply rg_mono; [by apply serve_request_spec|]. intros a s1 Ha s2 [_ _ U2 O2] _.
  destruct r; simpl in *; rewrite ?O2; auto.
Qed.

Definition sdk_state0 : sdk_state := mkSdkState None false [].

(** Goroutine [i] has answered its request without an error. *)
Definition answered (ts : list (prog sdkE (option error))) (i : nat) {X} (r : request X) : Prop :=
  reqs !! i = Some (Any r) ∧ ts !! i = Some (Ret None).

(** C8. The authentication gate of a plugin.  However the goroutines of any
    set of requests interleave, and whatever the plugin answers: an Auth that
    succeeds carried the configured token; at most one Auth ever succeeds, so
    the token cannot be replayed; and no other request succeeds, and no method
    of the plugin runs, before that Auth. *)
Theorem auth_gate ts s :
  rtc (par sdk_step) (serve_any <$> reqs, sdk_state0) (ts, s) →
  (∀ i token, answered ts i (RAuth token) → token = sc_AuthToken (srv_cfg s0))
  ∧ (∀ i j token token', answered ts i (RAuth token) → answered ts j (RAuth token') → i = j)
  ∧ (∀ i X (r : request X), answered ts i r → ∃ j, (j, ASet) ∈ hist s ∧ right_auth j)
  ∧ (∀ pre i post, hist s = pre ++ (i, AWork) :: post → ∃ j, (j, ASet) ∈ pre ∧ right_auth j).
Proof.
  intros Hr.
  set (Q := λ i e s, ∀ q, reqs !! i = Some q → answer_any i q e s).
  destruct (par_sound sdk_step others sdk_inv Q (serve_any <$> reqs) sdk_state0 ts s) as [Hi Hall].
  { split; [done|]. by intros i ?%elem_of_nil. }
  { intros i p. rewrite list_lookup_fmap. destruct (reqs !! i) as [q|] eqn:Hq; [|done].
    intros [= <-]. eapply rg_mono; [by apply serve_any_spec|].
    intros e s1 He q' Hq'. cbn beta in He. congruence. }
  { done. }
  assert (∀ i X (r : request X), answered ts i r → answer_ok i r None s) as Hans.
  { intros i X r [Hq Ht]. apply (Hall i _ Ht s) with (q := Any r); [reflexivity|done|done]. }
  destruct Hi as [G1 G2].
  split_and!.
  - intros i token Ha. by apply (Hans _ _ _ Ha).
  - intros i j token token' Hi Hj. apply (gate_set_unique _ _ i j G1); apply elem_of_own.
    + by apply (Hans _ _ _ Hi).
    + by apply (Hans _ _ _ Hj).
  - intros i X r Ha. pose proof (Hans _ _ _ Ha) as Hok.
    assert (authUsed s = true ∨ ∃ j, (j, ASet) ∈ hist s) as [U|[j Hj]].
    { destruct r; simpl in Hok; [right; exists i; apply elem_of_own; by apply Hok|left; by apply Hok..]. }
    + rewrite U in G1. destruct (gate_true_set _ G1) as [j Hj]. exists j. by auto.
    + exists j. by auto.
  - intros pre i post Hh. destruct (gate_work_after _ _ _ _ _ G1 Hh) as [j Hj]. exists j.
    split; [done|]. apply G2. rewrite Hh. set_solver.
Qed.
End Gate.
