(* ===== verification/Handshake.v ===== *)
(** * The kernel and the SDK agree

    What the manager puts in a plugin's environment and token file is read
    back by the SDK as the same configuration, and a plugin server so
    configured answers the manager's startup calls with what the manager
    checks for. *)

From S2P Require Import Prelude Prog GoText GoNum GoPath PluginID Auth Runtime Bundle EventLog PluginApi Manager.
From S2P Require Rely Sdk SdkFacts.

(** os.Getenv in a process started with [env], whose entries are key=value. *)
Fixpoint strip_prefix (p s : string) : option string :=
  match p, s with
  | "", _ => Some s
  | String a p', String b s' => if Ascii.eqb a b then strip_prefix p' s' else None
  | _, "" => None
  end.

Definition env_get (env : list string) (name : string) : string :=
  default "" (head (omap (strip_prefix (name +:+ "=")) env)).

Lemma strip_prefix_app p v : strip_prefix p (p +:+ v) = Some v.
Proof. induction p as [|a p IH]; [done|]. rewrite sapp_cons. simpl. by rewrite Ascii.eqb_refl. Qed.

(** A plugin process alone: its environment, its files, and the flag of its
    server.  The plugin's own code answers anything. *)
Definition proc_step (env : list string) (files : string → result string) (X : Type) (e : Sdk.sdkE X)
  : bool → X → bool → Prop :=
  match e in Sdk.sdkE X return bool → X → bool → Prop with
  | Sdk.SGetenv name => λ s x s', x = env_get env name ∧ s' = s
  | Sdk.SReadFile path => λ s x s', x = files path ∧ s' = s
  | Sdk.GetAuthUsed => λ s x s', x = s ∧ s' = s
  | Sdk.SetAuthUsed => λ s _ s', s' = true
  | _ => λ s _ s', s' = s
  end.

Section Handshake.
Context `{UnicodeTables}.
Variable cfg : Config.
Variables (generation : Z) (token behaviorPath marker : string) (files : string → result string).

Hypothesis id_ok : valid_id (PluginID cfg) = true.
Hypothesis generation_ok : 0 <= generation < two64.

(** The environment [start_spawn] starts the plugin with. *)
Definition spawn_env : list string :=
  append_env ShutdownMarkerEnv marker
    (append_env BehaviorConfigEnv behaviorPath (plugin_env cfg generation)).

(** The token file holds what the manager wrote. *)
Hypothesis token_file : files (authPath cfg) = Ok token.

Notation wp := (wp (proc_step spawn_env files)).

Lemma env_cons e env name :
  env_get (e :: env) name
  = match strip_prefix (name +:+ "=") e with Some v => v | None => env_get env name end.
Proof. unfold env_get. simpl. by destruct (strip_prefix _ e). Qed.

Lemma env_append_env name value key env :
  env_get env key ≠ "" ∨ strip_prefix (key +:+ "=") (name +:+ "=" +:+ value) = None →
  env_get (append_env name value env) key = env_get env key.
Proof.
  intros Hk. unfold append_env. case_bool_decide; [done|].
  induction env as [|e env IH].
  - simpl in *. rewrite env_cons. destruct Hk as [Hk|Hk]; [done|by rewrite Hk].
  - simpl. rewrite !env_cons in *. destruct (strip_prefix _ e); [done|]. by apply IH.
Qed.

Definition sdk_config : Sdk.Config := Sdk.mkConfig (socketPath cfg) (PluginID cfg) generation token.

Lemma paths_nonempty : socketPath cfg ≠ "" ∧ authPath cfg ≠ "" ∧ PluginID cfg ≠ "".
Proof.
  unfold socketPath, authPath. rewrite SocketPath_valid, AuthPath_valid by done.
  pose proof (valid_id_not_dot (PluginID cfg) "" id_ok) as (_ & _ & Hne). rewrite sapp_nil_r in Hne.
  split_and!; [..|done]; by destruct (join_dir (RuntimeDir cfg)), (PluginID cfg).
Qed.

Lemma Itoa_nonempty : Itoa generation ≠ "".
Proof. intros E. pose proof (parse_uint_Itoa generation generation_ok) as Hp. by rewrite E in Hp. Qed.

Lemma spawn_env_get :
  env_get spawn_env SocketEnv = socketPath cfg
  ∧ env_get spawn_env PluginIDEnv = PluginID cfg
  ∧ env_get spawn_env GenerationEnv = Itoa generation
  ∧ env_get spawn_env TokenFileEnv = authPath cfg.
Proof.
  unfold spawn_env. split_and!;
    (rewrite !env_append_env by (right; reflexivity); unfold plugin_env;
     rewrite !env_cons, <- !sapp_assoc, !strip_prefix_app; reflexivity).
Qed.

(** Wherever the environment and the files are these, the configuration is read. *)
Lemma LoadConfigFromEnv_reads {S} (H1 : ∀ X, Sdk.sdkE X → S → X → S → Prop) s :
  (∀ name x s', H1 _ (Sdk.SGetenv name) s x s' → x = env_get spawn_env name ∧ s' = s) →
  (∀ path x s', H1 _ (Sdk.SReadFile path) s x s' → x = files path ∧ s' = s) →
  Prog.wp H1 Sdk.LoadConfigFromEnv (λ r s', r = Ok sdk_config ∧ s' = s) s.
Proof.
  intros Henv Hfile. destruct spawn_env_get as (E1 & E2 & E3 & E4).
  destruct paths_nonempty as (N1 & N2 & N3). unfold Sdk.LoadConfigFromEnv.
  apply wp_trigger_seq. intros x b1 [-> ->]%Henv. rewrite E1, decide_False by done.
  apply wp_trigger_seq. intros x b1 [-> ->]%Henv. rewrite E2, decide_False by done.
  apply wp_trigger_seq. intros x b1 [-> ->]%Henv. rewrite E3, decide_False by apply Itoa_nonempty.
  rewrite ParseUint_Itoa by done.
  apply wp_trigger_seq. intros x b1 [-> ->]%Henv. rewrite E4, decide_False by done.
  apply wp_trigger_seq. intros x b1 [-> ->]%Hfile. by rewrite token_file.
Qed.

Lemma LoadConfigFromEnv_spec b :
  wp Sdk.LoadConfigFromEnv (λ r b', r = Ok sdk_config ∧ b' = b) b.
Proof. by apply LoadConfigFromEnv_reads. Qed.

(** ** The startup calls *)

(** Calls whose reply and effect do not matter here. *)
Lemma skip_seq {X B} (e : Sdk.sdkE X) (k : X → prog Sdk.sdkE B) Q b :
  (∀ b1 x b2, proc_step spawn_env files X e b1 x b2 → b2 = b1) →
  (∀ x, wp (k x) Q b) → wp (trigger e ≫= k) Q b.
Proof. intros He Hk. apply wp_trigger_seq. intros x b1 Hs. apply He in Hs as ->. apply Hk. Qed.

Lemma log_skip {B} srv ev (k : unit → prog Sdk.sdkE B) Q b :
  wp (k tt) Q b → wp (Sdk.log_event srv ev ≫= k) Q b.
Proof.
  intros Hk. unfold Sdk.log_event. destruct (Sdk.srv_logger srv); [|done].
  by apply (skip_seq (Sdk.SLog ev) (λ _, k tt)); [intros ??? ->|].
Qed.

Section Server.
Variable srv : Sdk.server.
Hypothesis srv_config : Sdk.srv_cfg srv = sdk_config.
Hypothesis no_hooks : Sdk.is_authHook (Sdk.srv_core srv) = false
  ∧ Sdk.is_identityHook (Sdk.srv_core srv) = false.

Lemma Auth_accepts :
  wp (Sdk.Auth srv token) (λ a b, (∃ v, a = (mkAuthResponse (PluginID cfg) v generation, None)) ∧ b = true)
    false.
Proof.
  unfold Sdk.Auth. rewrite (proj1 no_hooks). apply log_skip. cbn [mbind prog_mbind prog_bind].
  apply wp_trigger_seq. intros [] b ->. apply wp_bind. unfold Sdk.auth_locked.
  apply wp_trigger_seq. intros u b [-> ->].
  rewrite srv_config, EqualToken_eq, bool_decide_eq_true_2 by done. cbn [orb negb].
  apply wp_trigger_seq. intros [] b ->. unfold Sdk.identity. rewrite (proj2 no_hooks), srv_config.
  cbn [mbind prog_mbind prog_bind]. apply wp_trigger_seq. intros v b ->. apply wp_bind.
  assert (∀ Q, Q tt true → wp (if Sdk.srv_logger srv then v0 ← trigger Sdk.CoreVersion;
    Sdk.log_event srv {| (Sdk.plugin_event Sdk.EventPluginAuthAccepted MethodAuth "plugin auth accepted") with
      ev_Details := [("version", VString v0)] |} else Ret tt) Q true) as Hlog.
  { intros Q HQ. destruct (Sdk.srv_logger srv) eqn:E; [|done]. intros v0 b ->.
    unfold Sdk.log_event. rewrite E. by intros x b ->. }
  apply Hlog. intros [] b ->. split; [by exists v|done].
Qed.

Lemma Auth_refuses token' used :
  used = true ∨ token' ≠ token →
  wp (Sdk.Auth srv token') (λ a b, a = (Sdk.auth_response0, Some Sdk.os_ErrPermission) ∧ b = used) used.
Proof.
  intros Hr. unfold Sdk.Auth. rewrite (proj1 no_hooks). apply log_skip. cbn [mbind prog_mbind prog_bind].
  apply wp_trigger_seq. intros [] b ->. apply wp_bind. unfold Sdk.auth_locked.
  apply wp_trigger_seq. intros u b [-> ->]. rewrite srv_config, EqualToken_eq. cbn [Sdk.sc_AuthToken sdk_config].
  replace (used || negb (bool_decide (token' = token))) with true.
  { apply log_skip. by intros [] b ->. }
  destruct Hr as [->|Hne]; [done|]. rewrite bool_decide_eq_false_2 by done. by destruct used.
Qed.

Lemma Capabilities_answers :
  wp (Sdk.Capabilities srv) (λ a b,
    (∃ v, a = (mkCapabilitiesResponse (PluginID cfg) v generation (Sdk.srv_capabilities srv), None)) ∧ b = true)
    true.
Proof.
  unfold Sdk.Capabilities, Sdk.guarded, Sdk.requireAuth. apply wp_bind.
  apply wp_trigger_seq. intros [] b ->. apply wp_trigger_seq. intros u b [-> ->]. intros [] b ->.
  unfold Sdk.identity. rewrite (proj2 no_hooks), srv_config.
  cbn [mbind prog_mbind prog_bind]. apply wp_trigger_seq. intros v b ->. apply log_skip.
  split; [by exists v|done].
Qed.
End Server.

(** A plugin from its environment to the two calls of a start. *)
Definition plugin_startup (core : Sdk.Core)
  : prog Sdk.sdkE (option (AuthResponse * option error * (CapabilitiesResponse * option error))) :=
  c ← Sdk.LoadConfigFromEnv;
  match c with
  | Err _ => Ret None
  | Ok c =>
      caps ← Sdk.detectCapabilities core;
      let srv := Sdk.mkServer core c caps true in
      a ← Sdk.Auth srv token;
      k ← Sdk.Capabilities srv;
      Ret (Some (a, k))
  end.

(** C9. Kernel and SDK agree on the startup protocol.  A plugin built on the
    SDK and started with the manager's environment and token file reads back
    exactly the manager's socket path, plugin id, generation and token; its
    server then accepts the manager's Auth and Capabilities calls with the id
    and generation the manager checks for; and it refuses that token a second
    time, and any other token at any time. *)
Theorem handshake core :
  Sdk.is_authHook core = false → Sdk.is_identityHook core = false →
  wp Sdk.LoadConfigFromEnv (λ r _, r = Ok sdk_config) false
  ∧ wp (plugin_startup core) (λ r b, b = true ∧ ∃ v v' caps,
      r = Some (mkAuthResponse (PluginID cfg) v generation, None,
               (mkCapabilitiesResponse (PluginID cfg) v' generation caps, None))) false
  ∧ ∀ caps logger used token', used = true ∨ token' ≠ token →
      wp (Sdk.Auth (Sdk.mkServer core sdk_config caps logger) token')
        (λ a b, a.2 = Some Sdk.os_ErrPermission ∧ b = used) used.
Proof.
  intros Ha Hi. split; [|split].
  - eapply wp_mono; [apply LoadConfigFromEnv_spec|]. by intros r b [-> _].
  - unfold plugin_startup. apply wp_bind. eapply wp_mono; [apply LoadConfigFromEnv_spec|].
    intros r b [-> ->]. apply wp_bind.
    apply (wp_mono _ _ (λ _ b, b = false)).
    { unfold Sdk.detectCapabilities. destruct (Sdk.is_capabilityProvider core); [|done].
      by intros x b ->. }
    intros caps b ->. apply wp_bind. eapply wp_mono; [by apply Auth_accepts|].
    intros a b [[v ->] ->]. apply wp_bind. eapply wp_mono; [by apply Capabilities_answers|].
    intros k b [[v' ->] ->]. split; [done|]. by exists v, v', caps.
  - intros caps logger used token' Hr. eapply wp_mono; [by apply Auth_refuses|]. by intros a b [-> ->].
Qed.
End Handshake.
