(* ===== verification/SdkDemo.v ===== *)
(** * A plugin server that runs

    Two clients authenticate and a third asks for an echo, interleaved: the
    theorems of SdkFacts and Handshake at concrete inputs. *)

From stdpp Require Import relations.
From S2P Require Import Prelude Prog Rely GoText GoNum GoPath PluginID Auth Runtime EventLog PluginApi Sdk SdkFacts.
From S2P Require Manager ManagerDemo Handshake.

#[local] Existing Instance ascii_tables.

Definition demo_server : server :=
  mkServer (mkCore false false false false true false false)
    (mkConfig "/run/rpc/echo/echo.sock" "echo" 7 "secret") ["heartbeat"; "shutdown"; "echo"] true.

Definition sdk_run (i : nat) (X : Type) (e : sdkE X) : sdk_state → option (sdk_state * X) :=
  match e in sdkE X return sdk_state → option (sdk_state * X) with
  | SLock => λ s, match mutex s with
      | None => Some ({| s with mutex := Some i |}, tt)
      | Some _ => None
      end
  | SUnlock => λ s, Some ({| s with mutex := None |}, tt)
  | GetAuthUsed => λ s, Some (s, authUsed s)
  | SetAuthUsed => λ s, Some ({| (did i ASet s) with authUsed := true |}, tt)
  | CoreVersion => λ s, Some (s, "1.0")
  | CoreEcho message => λ s, Some (did i AWork s, (message, None))
  | SLog _ => λ s, Some (s, None)
  | _ => λ s, None
  end.

Lemma sdk_run_ok i X (e : sdkE X) s s' x : sdk_run i X e s = Some (s', x) → sdk_step i X e s x s'.
Proof. destruct e; simpl; try done; [destruct (mutex s) eqn:E; [done|]|..]; by intros [= <- <-]. Qed.

Definition demo_requests : list any_request :=
  [Any (REcho "hello"); Any (RAuth "secret"); Any (RAuth "secret"); Any (REcho "world")].

Definition demo_pool : list (prog sdkE (option error)) * sdk_state :=
  schedule sdk_run
    ([0; 1; 0; 0; 1; 0; 0; 0; 2] ++ replicate 12 1 ++ replicate 12 2 ++ replicate 12 3 ++ replicate 12 0)%nat
    (serve_any demo_server <$> demo_requests, sdk_state0).

(** The echo before authentication fails, the first Auth succeeds, the second
    is refused, the echo after it succeeds. *)
Lemma auth_gate_witness :
  demo_pool.1 = [Ret (Some os_ErrPermission); Ret None; Ret (Some os_ErrPermission); Ret None]
  ∧ hist demo_pool.2 = [(1%nat, ASet); (3%nat, AWork)]
  ∧ right_auth demo_server demo_requests 1.
Proof.
  assert (demo_pool.1 = [Ret (Some os_ErrPermission); Ret None; Ret (Some os_ErrPermission); Ret None])
    as E1 by (vm_compute; reflexivity).
  assert (hist demo_pool.2 = [(1%nat, ASet); (3%nat, AWork)]) as E2 by (vm_compute; reflexivity).
  assert (rtc (par sdk_step) (serve_any demo_server <$> demo_requests, sdk_state0)
            (demo_pool.1, demo_pool.2)) as Hr.
  { rewrite <- surjective_pairing. exact (schedule_par sdk_step sdk_run sdk_run_ok _ _). }
  destruct (auth_gate demo_server demo_requests _ _ Hr) as (_ & _ & _ & Hw).
  split; [exact E1|]. split; [exact E2|].
  destruct (Hw [(1%nat, ASet)] 3%nat [] E2) as (j & Hj & Hright).
  apply list_elem_of_singleton in Hj. injection Hj as ->. exact Hright.
Defined.

Lemma handshake_witness :
  Handshake.sdk_config ManagerDemo.demo_cfg 7 "secret" = srv_cfg demo_server
  ∧ wp (Handshake.proc_step (Handshake.spawn_env ManagerDemo.demo_cfg 7 "" "") (λ _, Ok "secret"))
      LoadConfigFromEnv (λ r _, r = Ok (Handshake.sdk_config ManagerDemo.demo_cfg 7 "secret")) false.
Proof.
  split; [vm_compute; reflexivity|].
  assert (valid_id (Manager.PluginID ManagerDemo.demo_cfg) = true) as H1 by (vm_compute; reflexivity).
  assert (0 <= 7 < two64) as H2 by (split; [discriminate|reflexivity]).
  exact (proj1 (Handshake.handshake ManagerDemo.demo_cfg 7 "secret" "" "" (λ _, Ok "secret")
    H1 H2 eq_refl (srv_core demo_server) eq_refl eq_refl)).
Defined.
