(* ===== verification/SdkEnv.v ===== *)
(** * The plugin's configuration from its environment

    Which environments LoadConfigFromEnv (src/pkg/plugin/plugin.go) accepts. *)

From S2P Require Import Prelude Prog GoText GoNum PluginApi Sdk.

Section Env.
Context `{UnicodeTables}.
(** The environment variables, and the files by path. *)
Variable env : string → string.
Variable read_file : string → result string.

Definition env_step (X : Type) (e : sdkE X) : unit → X → unit → Prop :=
  match e in sdkE X return unit → X → unit → Prop with
  | SGetenv name => λ _ x _, x = env name
  | SReadFile path => λ _ x _, x = read_file path
  | _ => λ _ _ _, True
  end.

(** An environment a manager's start may have made. *)
Definition env_ok (token : string) : Prop :=
  env SocketEnv ≠ "" ∧ env PluginIDEnv ≠ "" ∧ env TokenFileEnv ≠ ""
  ∧ env GenerationEnv ≠ "" ∧ string_forallb digit (env GenerationEnv) = true
  ∧ decimal (env GenerationEnv) < two64
  ∧ read_file (env TokenFileEnv) = Ok token.

(** C30. LoadConfigFromEnv accepts exactly the complete environments: socket,
    plugin id, generation and token file are set, the generation is a decimal
    number below 2^64, and the token file can be read; the configuration is
    then these values, the generation being the number written, never wrapped
    or cut.  In any other environment it is an error. *)
Theorem LoadConfigFromEnv_exact :
  wp env_step LoadConfigFromEnv (λ r _,
    match r with
    | Ok cfg => env_ok (sc_AuthToken cfg)
        ∧ cfg = mkConfig (env SocketEnv) (env PluginIDEnv) (decimal (env GenerationEnv)) (sc_AuthToken cfg)
    | Err _ => ∀ token, ¬ env_ok token
    end) tt.
Proof.
  unfold LoadConfigFromEnv.
  apply wp_trigger_seq. intros sock [] ->. case_decide as E1; [intros token (? & _); congruence|].
  apply wp_trigger_seq. intros id [] ->. case_decide as E2; [intros token (? & ? & _); congruence|].
  apply wp_trigger_seq. intros gen [] ->. case_decide as E3; [intros token (? & ? & ? & ? & _); congruence|].
  destruct (ParseUint (env GenerationEnv)) as [n|e] eqn:Hp.
  - apply ParseUint_spec in Hp as (_ & Hd & Hn & Hb).
    apply wp_trigger_seq. intros file [] ->. case_decide as E4; [intros token (? & ? & ? & _); congruence|].
    apply wp_trigger_seq. intros raw [] ->. destruct (read_file (env TokenFileEnv)) as [token|e] eqn:Hr.
    + split; [|by rewrite Hn]. unfold env_ok. rewrite Hn. by split_and!.
    + intros token (_ & _ & _ & _ & _ & _ & Hr'). congruence.
  - intros token (_ & _ & _ & H1 & H2 & H3 & _).
    by rewrite (proj2 (ParseUint_spec (env GenerationEnv) (decimal (env GenerationEnv)))) in Hp.
Qed.
End Env.
