(* ===== verification/Examples.v ===== *)
(** * The example plugins (src/examples, src/test/testpluginapi/config.go)

    Two plugins built on the SDK: one that works, and one whose failures are
    configured.  A method of a plugin is a program over [pluginE]: its object
    on the heap, the process it runs in, and the calls of the SDK.  A plugin
    answers the SDK's calls to its core ([handler]), so that [interp] turns the
    programs of file Sdk into those of the whole plugin process. *)

From Stdlib Require Import SpecFloat.
From S2P Require Import Prelude Prog GoText GoNum GoPath GoFlag PluginID Auth Runtime EventLog PluginApi Sdk.

(** ** The process of a plugin whose object has type [D] *)
Inductive pluginE (D : Type) : Type → Type :=
| PSdk {X : Type} (e : sdkE X) : pluginE D X
| PNew (d : D) : pluginE D unit                  (* &D{...} *)
| PLoad : pluginE D D
| PStore (f : D → D) : pluginE D unit            (* an assignment to a field *)
| PNow : pluginE D Z
| PSleep (d : Z) : pluginE D unit                (* time.Sleep *)
| PExit (code : Z) : pluginE D unit              (* os.Exit *)
| PWriteFile (path data : string) : pluginE D (option error)   (* mode 0600 *)
| PCloseListener : pluginE D (option error)
| PGo (p : prog (pluginE D) unit) : pluginE D unit.
Arguments PSdk {D X} e.
Arguments PNew {D} d.
Arguments PLoad {D}.
Arguments PStore {D} f.
Arguments PNow {D}.
Arguments PSleep {D} d.
Arguments PExit {D} code.
Arguments PWriteFile {D} path data.
Arguments PCloseListener {D}.
Arguments PGo {D} p.

(** The methods of a plugin: what it does when the SDK calls its core. *)
Definition handler (D : Type) : Type := ∀ X, sdkE X → prog (pluginE D) X.

Definition sdk {D A} (p : prog sdkE A) : prog (pluginE D) A := translate (λ X, @PSdk D X) p.

Definition ms : Z := 1000000.

(** [if cond { p }] *)
Definition when {E} (cond : bool) (p : prog E unit) : prog E unit := if cond then p else Ret tt.

(** The goroutine a shutdown request starts. *)
Definition shutdown_goroutine {D} (delay : prog (pluginE D) Z) : prog (pluginE D) unit :=
  marker ← trigger (PSdk (SGetenv ShutdownMarkerEnv));
  when (negb (bool_decide (marker = "")))
    (_ ← trigger (PWriteFile marker ("shutdown" +:+ newline)); Ret tt) ;;
  d ← delay;
  trigger (PSleep d) ;;
  trigger (PExit 0).

(** The frame of both [run] functions: the configuration, the logger of the
    process, the event of its start, and the server over the object that
    [build] allocates. *)
Definition run_frame {D} `{UnicodeTables} (n : nat) (core : Core) (h : handler D) (failed : string)
    (build : Config → prog (pluginE D) unit) : prog (pluginE D) (option (option error)) :=
  cfg ← sdk LoadConfigFromEnv;
  match cfg with
  | Err e => Ret (Some (Some e))
  | Ok cfg =>
      l ← trigger (PSdk (SOpenLog (plugin_log_path cfg)));
      match l with
      | Some e => Ret (Some (Some (errors_Wrap "open plugin event log" e)))
      | None =>
          build cfg ;;
          r ← interp h (ServeWithConfig n cfg (Some core));
          match r with
          | None => Ret None
          | Some err =>
              match err with
              | Some e =>
                  _ ← trigger (PSdk (SLog {| (plugin_event EventPluginBootFailed "" failed) with
                                             ev_Level := LevelError; ev_Error := err_msg e |}));
                  Ret tt
              | None => Ret tt
              end ;;
              _ ← trigger (PSdk SCloseLog);
              Ret (Some err)
          end
      end
  end.

(** ** The minimal plugin (pkg/plugin/example_minimal.go): the template itself *)

Definition template_core : Core := mkCore false false false false false false false.

Definition template_methods : handler TemplatePlugin := λ X e,
  match e in sdkE X return prog (pluginE TemplatePlugin) X with
  | CoreVersion => p ← trigger PLoad; Ret (Template_Version p)
  | CoreHeartbeat =>
      p ← trigger PLoad;
      now ← trigger PNow;
      Ret (Template_Heartbeat p now, None)
  | CoreShutdown => Ret None
  | e => trigger (PSdk e)
  end.

(** An error of either call is a panic with that error. *)
Definition Example_minimal `{UnicodeTables} (n : nat)
  : prog (pluginE TemplatePlugin) (option (option error)) :=
  cfg ← sdk LoadConfigFromEnv;
  match cfg with
  | Err e => Ret (Some (Some e))
  | Ok cfg =>
      now ← trigger PNow;
      trigger (PNew (NewTemplate cfg "0.1.0" now)) ;;
      interp template_methods (ServeWithConfig n cfg (Some template_core))
  end.

(** ** rpcplugin-echo *)
Record echoPlugin : Type := mkEchoPlugin { ep_Template : TemplatePlugin }.

Definition echo_core : Core := mkCore false false false false true true true.

Definition echo_Echo (message : string) : prog (pluginE echoPlugin) (string * option error) :=
  Ret (message, None).
Definition echo_Sleep (duration : Z) : prog (pluginE echoPlugin) (option error) :=
  trigger (PSleep duration) ;; Ret None.
Definition echo_Crash (code : Z) : prog (pluginE echoPlugin) (option error) :=
  trigger (PExit code) ;; Ret None.
Definition echo_Shutdown : prog (pluginE echoPlugin) (option error) :=
  trigger (PGo (shutdown_goroutine (Ret (50 * ms)))) ;; Ret None.

(** The methods, and those of the embedded template. *)
Definition echo_methods : handler echoPlugin := λ X e,
  match e in sdkE X return prog (pluginE echoPlugin) X with
  | CoreVersion => p ← trigger PLoad; Ret (Template_Version (ep_Template p))
  | CoreHeartbeat =>
      p ← trigger PLoad;
      now ← trigger PNow;
      Ret (Template_Heartbeat (ep_Template p) now, None)
  | CoreShutdown => echo_Shutdown
  | CoreEcho message => echo_Echo message
  | CoreSleep duration => echo_Sleep duration
  | CoreCrash code => echo_Crash code
  | e => trigger (PSdk e)
  end.

Definition echo_build (cfg : Config) : prog (pluginE echoPlugin) unit :=
  _ ← trigger (PSdk (SLog (plugin_event EventPluginBootStarted "" "echo plugin process booting")));
  now ← trigger PNow;
  trigger (PNew (mkEchoPlugin (NewTemplate cfg "0.1.0" now))).

Definition echo_run `{UnicodeTables} (n : nat) : prog (pluginE echoPlugin) (option (option error)) :=
  run_frame n echo_core echo_methods "echo plugin serve failed" echo_build.

(** ** The behaviour of the failing plugin (test/testpluginapi/config.go) *)

Record Env : Type := mkEnv {
  be_PluginID : string;
  be_Version : string;
  be_GenerationOffset : Z;
  be_CapabilitiesMode : string;
  be_HeartbeatStatus : Status;
  be_HeartbeatErrors : Z;
  be_HeartbeatDelayMS : Z;
  be_SleepScale : spec_float;
  be_CrashOnEcho : bool;
  be_ShutdownDelayMS : Z;
  be_FailAuth : bool;
  be_CloseOnAccept : bool;
  be_CloseOnEcho : bool;
}.

(** [time.Duration(ms) * time.Millisecond] *)
Definition duration_ms (n : Z) : Z := int64 (n * ms).
Definition HeartbeatDelay (e : Env) : Z :=
  if be_HeartbeatDelayMS e <=? 0 then 0 else duration_ms (be_HeartbeatDelayMS e).
Definition ShutdownDelay (e : Env) : Z :=
  if be_ShutdownDelayMS e <=? 0 then 50 * ms else duration_ms (be_ShutdownDelayMS e).

(** binary64 *)
Definition float64 (n : Z) : spec_float := binary_normalize 53 1024 n 0 false.
Definition float_mul (x y : spec_float) : spec_float := SFmul 53 1024 x y.

(** The integer a finite number is truncated to. *)
Definition float_trunc (x : spec_float) : option Z :=
  match x with
  | S754_zero _ => Some 0
  | S754_finite s m e =>
      let n := if 0 <=? e then Z.pos m * 2 ^ e else Z.pos m / 2 ^ (- e) in
      Some (if s then - n else n)
  | _ => None
  end.

Section Behavior.
Context {D : Type} `{UnicodeTables}.
(** json.Unmarshal into an Env, and strconv.ParseFloat. *)
Variable json_behavior : string → option Env.
Variable ParseFloat : string → option spec_float.

Definition getenv (key : string) : prog (pluginE D) string := trigger (PSdk (SGetenv key)).

Definition getenvDefault (key fallback : string) : prog (pluginE D) string :=
  value ← getenv key; Ret (if bool_decide (value = "") then fallback else value).

(** The readers that fall back on an empty or malformed value. *)
Definition getenv_parsed {A} (parse : string → option A) (key : string) (fallback : A)
  : prog (pluginE D) A :=
  value ← getenv key;
  Ret (if bool_decide (value = "") then fallback else default fallback (parse value)).

Definition to_option {A} (r : result A) : option A := match r with Ok a => Some a | Err _ => None end.

Definition getenvInt64 : string → Z → prog (pluginE D) Z := getenv_parsed (λ s, to_option (ParseInt s)).
Definition getenvFloat64 : string → spec_float → prog (pluginE D) spec_float := getenv_parsed ParseFloat.
Definition getenvBool : string → bool → prog (pluginE D) bool :=
  getenv_parsed (λ s, to_option (ParseBool s)).

Definition behavior_key (name : string) : string := "RPC_PLUGIN_SYSTEM_PLUGIN_BEHAVIOR_" +:+ name.

Definition LoadEnv : prog (pluginE D) Env :=
  pluginID ← getenvDefault (behavior_key "ID") "";
  version ← getenvDefault (behavior_key "VERSION") "0.1.0";
  offset ← getenvInt64 (behavior_key "GENERATION_OFFSET") 0;
  mode ← getenvDefault (behavior_key "CAPABILITIES_MODE") "normal";
  status ← getenvDefault (behavior_key "HEARTBEAT_STATUS") StatusHealthy;
  errors ← getenvInt64 (behavior_key "HEARTBEAT_ERRORS") 0;
  delay ← getenvInt64 (behavior_key "HEARTBEAT_DELAY_MS") 0;
  scale ← getenvFloat64 (behavior_key "SLEEP_SCALE") (float64 1);
  crash ← getenvBool (behavior_key "CRASH_ON_ECHO") false;
  shutdown ← getenvInt64 (behavior_key "SHUTDOWN_DELAY_MS") 50;
  fail_auth ← getenvBool (behavior_key "FAIL_AUTH") false;
  on_accept ← getenvBool (behavior_key "CLOSE_ON_ACCEPT") false;
  on_echo ← getenvBool (behavior_key "CLOSE_ON_ECHO") false;
  Ret (mkEnv pluginID version offset mode status errors delay scale crash shutdown
         fail_auth on_accept on_echo).

(** What LoadConfig fills in. *)
Definition behavior_defaults (b : Env) : Env :=
  let b := if bool_decide (be_Version b = "") then {| b with be_Version := "0.1.0" |} else b in
  let b := if bool_decide (be_HeartbeatStatus b = "")
           then {| b with be_HeartbeatStatus := StatusHealthy |} else b in
  if SFeqb (be_SleepScale b) (S754_zero false) then {| b with be_SleepScale := float64 1 |} else b.

Definition LoadConfig : prog (pluginE D) Env :=
  path ← getenv BehaviorConfigEnv;
  if bool_decide (path = "") then LoadEnv
  else
    data ← trigger (PSdk (SReadFile path));
    match to_option data ≫= json_behavior with
    | Some b => Ret (behavior_defaults b)
    | None => LoadEnv
    end.

(** json.Marshal of an Env. *)
Variable json_marshal : Env → result string.

Definition WriteConfig (path : string) (cfg : Env) : prog (pluginE D) (option error) :=
  match json_marshal cfg with
  | Err e => Ret (Some (errors_Wrap "marshal behavior config" e))
  | Ok data =>
      w ← trigger (E := pluginE D) (PWriteFile path data);
      Ret match w with Some e => Some (errors_Wrap "write behavior config" e) | None => None end
  end.
End Behavior.

(** ** rpcplugin-failure *)
Record failurePlugin : Type := mkFailurePlugin {
  fp_pluginID : string;
  fp_version : string;
  fp_generationID : Z;
  fp_startedAt : Z;
  fp_behavior : Env;
  fp_listener : bool;              (* the listener is not nil *)
}.

Definition failure_core : Core := mkCore true true true true true true true.

Definition reported_id (p : failurePlugin) : string :=
  if bool_decide (be_PluginID (fp_behavior p) = "") then fp_pluginID p
  else be_PluginID (fp_behavior p).
(** [uint64(int64(p.generationID) + p.behavior.GenerationOffset)] *)
Definition reported_generation (p : failurePlugin) : Z :=
  uint64 (int64 (int64 (fp_generationID p) + be_GenerationOffset (fp_behavior p))).

Definition failure_Identity : prog (pluginE failurePlugin) (string * Z) :=
  p ← trigger PLoad; Ret (reported_id p, reported_generation p).

Definition failure_OnAuthAttempt : prog (pluginE failurePlugin) (option error) :=
  p ← trigger PLoad;
  Ret (fail_if be_FailAuth (fp_behavior p) with_error errors_New "auth failure requested").

Definition failure_OnServeListener : prog (pluginE failurePlugin) unit :=
  trigger (PStore (λ p, {| p with fp_listener := true |})) ;;
  p ← trigger PLoad;
  when (be_CloseOnAccept (fp_behavior p)) (_ ← trigger PCloseListener; Ret tt).

Definition drop_heartbeat_error (p : failurePlugin) : failurePlugin :=
  {| p with fp_behavior := {| (fp_behavior p) with
       be_HeartbeatErrors := be_HeartbeatErrors (fp_behavior p) - 1 |} |}.

Definition failure_Heartbeat : prog (pluginE failurePlugin) (HeartbeatResponse * option error) :=
  p ← trigger PLoad;
  let delay := HeartbeatDelay (fp_behavior p) in
  when (0 <? delay) (trigger (PSleep delay)) ;;
  p ← trigger PLoad;
  if 0 <? be_HeartbeatErrors (fp_behavior p) then
    trigger (PStore drop_heartbeat_error) ;;
    Ret (heartbeat0, Some (errors_New "heartbeat failure requested"))
  else
    now ← trigger PNow;
    Ret (mkHeartbeatResponse (reported_id p) (fp_version p) (reported_generation p)
           (Z.quot (now - fp_startedAt p) 1000000000) (be_HeartbeatStatus (fp_behavior p)) 0 0 0, None).

Definition failure_Echo (message : string) : prog (pluginE failurePlugin) (string * option error) :=
  p ← trigger PLoad;
  when (be_CrashOnEcho (fp_behavior p)) (trigger (PExit 9)) ;;
  when (be_CloseOnEcho (fp_behavior p) && fp_listener p) (_ ← trigger PCloseListener; Ret tt) ;;
  Ret (message, None).

(** The conversion to an integer of a number out of range depends on the
    implementation: [out_of_range]. *)
Definition scaled (out_of_range : spec_float → Z) (scale : spec_float) (duration : Z) : Z :=
  let scale := if SFleb scale (S754_zero false) then float64 1 else scale in
  let x := float_mul (float64 duration) scale in
  match float_trunc x with
  | Some n => if (- 2 ^ 63 <=? n) && (n <? 2 ^ 63) then n else out_of_range x
  | None => out_of_range x
  end.

Definition failure_Crash (code : Z) : prog (pluginE failurePlugin) (option error) :=
  trigger (PExit code) ;; Ret None.

Definition failure_Shutdown : prog (pluginE failurePlugin) (option error) :=
  trigger (PGo (shutdown_goroutine
    (p ← trigger PLoad; Ret (ShutdownDelay (fp_behavior p))))) ;; Ret None.

Definition failure_Capabilities : prog (pluginE failurePlugin) (list string) :=
  p ← trigger PLoad;
  let mode := be_CapabilitiesMode (fp_behavior p) in
  Ret (if bool_decide (mode = "error") then ["__capabilities_error__"]
       else if bool_decide (mode = "empty") then []
       else ["heartbeat"; "shutdown"; "echo"; "sleep"; "crash"]).

Section Methods.
Context `{UnicodeTables}.
Variable out_of_range : spec_float → Z.
Variable json_behavior : string → option Env.
Variable ParseFloat : string → option spec_float.

Definition failure_Sleep (duration : Z) : prog (pluginE failurePlugin) (option error) :=
  p ← trigger PLoad;
  trigger (PSleep (scaled out_of_range (be_SleepScale (fp_behavior p)) duration)) ;; Ret None.

Definition failure_methods : handler failurePlugin := λ X e,
  match e in sdkE X return prog (pluginE failurePlugin) X with
  | CoreVersion => p ← trigger PLoad; Ret (fp_version p)
  | CoreIdentity => failure_Identity
  | OnAuthAttempt _ => failure_OnAuthAttempt
  | OnServeListener => failure_OnServeListener
  | CoreCapabilities => failure_Capabilities
  | CoreHeartbeat => failure_Heartbeat
  | CoreShutdown => failure_Shutdown
  | CoreEcho message => failure_Echo message
  | CoreSleep duration => failure_Sleep duration
  | CoreCrash code => failure_Crash code
  | e => trigger (PSdk e)
  end.

Definition failure_build (cfg : Config) : prog (pluginE failurePlugin) unit :=
  behavior ← LoadConfig json_behavior ParseFloat;
  _ ← trigger (PSdk (SLog {| (plugin_event EventPluginBootStarted "" "failure plugin process booting") with
                             ev_Details := [("behavior_version", VString (be_Version behavior))] |}));
  now ← trigger PNow;
  trigger (PNew (mkFailurePlugin (sc_PluginID cfg) (be_Version behavior) (sc_GenerationID cfg) now
                   behavior false)).

Definition failure_run (n : nat) : prog (pluginE failurePlugin) (option (option error)) :=
  run_frame n failure_core failure_methods "failure plugin serve failed" failure_build.
End Methods.
