(* ===== verification/TestRoot.v ===== *)
(** * The source root of the tests (src/test/testroot/root.go)

    The search upwards from the working directory for the directory that holds
    go.mod.  The loop gets fuel; for the absolute, cleaned paths that
    os.Getwd answers it always ends, and finds the nearest such directory. *)

From S2P Require Import Prelude Prog GoText GoPath Runtime.

Inductive rootE : Type → Type :=
| RootGetwd : rootE (result string)
| RootStat (path : string) : rootE (option error)
| RootFatalf (message : string) : rootE unit.     (* ends the test *)

(** The loop of sourceRoot; [None] when the fuel runs out. *)
Fixpoint source_loop (fuel : nat) (dir : string) : prog rootE (option (result string)) :=
  match fuel with
  | O => Ret None
  | S fuel' =>
      st ← trigger (RootStat (PathJoin [dir; "go.mod"]));
      match st with
      | None => Ret (Some (Ok dir))
      | Some err =>
          if negb (os_IsNotExist err) then
            Ret (Some (Err (errors_Wrap ("stat go.mod in " +:+ dir) err)))
          else
            let next := Dir dir in
            if decide (next = dir) then
              Ret (Some (Err (errors_New ("could not find source root containing go.mod from " +:+ dir))))
            else source_loop fuel' next
      end
  end.

(** A path has fewer directories than bytes, and the root. *)
Definition root_fuel (dir : string) : nat := S (String.length dir).

Definition sourceRoot : prog rootE (option (result string)) :=
  dir ← trigger RootGetwd;
  match dir with
  | Err e => Ret (Some (Err (errors_Wrap "get working directory" e)))
  | Ok dir => source_loop (root_fuel dir) dir
  end.

Definition SourceRoot : prog rootE (option string) :=
  r ← sourceRoot;
  match r with
  | None => Ret None
  | Some (Err e) => trigger (RootFatalf (err_msg e)) ;; Ret (Some "")
  | Some (Ok dir) => Ret (Some dir)
  end.

(** ** Absolute, cleaned paths *)
Definition abs_path (es : list string) : string := "/" +:+ Join es "/".

Lemma IsAbs_slash t : IsAbs ("/" +:+ t) = true.
Proof. simpl. by rewrite IsAbs_cons. Qed.

Lemma foldl_plain rooted kept es :
  Forall plain es → foldl (clean_step rooted) kept es = reverse es ++ kept.
Proof.
  intros Hes. revert kept. induction Hes as [|e es He _ IH]; intros kept; [done|]. simpl.
  by rewrite clean_step_plain, IH, reverse_cons, <- app_assoc.
Qed.

Lemma plain_elem_ok e : plain e → elem_ok e.
Proof. intros (H1 & H2 & H3 & _). done. Qed.

Lemma path_elems_abs es : Forall plain es → path_elems (abs_path es) = es.
Proof.
  intros Hes. unfold path_elems, abs_path. rewrite IsAbs_slash.
  change ("/" +:+ Join es "/") with ("" +:+ String slash (Join es "/")). rewrite Split_app.
  cbn [Split app foldl].
  change (clean_step true [] "") with (@nil string). destruct es as [|e es]; [done|].
  rewrite Split_Join_elems; [|done|by eapply Forall_impl, plain_elem_ok].
  rewrite foldl_plain by done. by rewrite app_nil_r, reverse_involutive.
Qed.

Lemma join_dir_abs es : Forall plain es → join_dir (abs_path es) = "/" +:+ string_concat ((λ e, e +:+ "/") <$> es).
Proof.
  intros Hes. unfold join_dir. rewrite decide_False by done. rewrite path_elems_abs by done.
  unfold abs_path. by rewrite IsAbs_slash.
Qed.

Lemma PathJoin_abs_path es f : Forall plain es → plain f → PathJoin [abs_path es; f] = abs_path (es ++ [f]).
Proof.
  intros Hes Hf. rewrite PathJoin_plain, join_dir_abs by done. unfold abs_path.
  by rewrite Join_snoc, sapp_assoc.
Qed.

Lemma substring_app a b : String.substring 0 (String.length a) (a +:+ b) = a.
Proof. induction a as [|c a IH]; [by destruct b|]. simpl. by rewrite IH. Qed.

Lemma Split_dirs es :
  Forall plain es → Split (string_concat ((λ e, e +:+ "/") <$> es)) slash = es ++ [""].
Proof.
  induction 1 as [|e es He _ IH]; [done|]. cbn [fmap list_fmap string_concat].
  rewrite sapp_assoc. change ("/" +:+ ?t) with (String slash t).
  by rewrite Split_app, IH, Split_plain by apply He.
Qed.

(** The parent of a path. *)
Lemma Dir_abs es e : Forall plain es → plain e → Dir (abs_path (es ++ [e])) = abs_path es.
Proof.
  intros Hes He. set (dirs := string_concat ((λ e, e +:+ "/") <$> es)).
  assert (abs_path (es ++ [e]) = ("/" +:+ dirs) +:+ e) as E.
  { unfold abs_path. by rewrite Join_snoc, <- sapp_assoc. }
  assert (before_last (abs_path (es ++ [e])) = "/" +:+ dirs) as Eb.
  { unfold before_last.
    assert (last_field (Split (abs_path (es ++ [e])) slash) = e) as ->.
    { change (abs_path (es ++ [e])) with ("" +:+ String slash (Join (es ++ [e]) "/")). rewrite Split_app.
      rewrite Split_Join_elems; [|by destruct es|].
      - cbn [Split app]. unfold last_field. by rewrite app_comm_cons, last_snoc.
      - apply Forall_app. split; [by eapply Forall_impl, plain_elem_ok|].
        constructor; [by apply plain_elem_ok|constructor]. }
    rewrite E, slength_app, Nat.add_sub. apply substring_app. }
  unfold Dir. rewrite Eb. unfold Clean. rewrite decide_False by done.
  rewrite IsAbs_slash. unfold abs_path. do 2 f_equal. unfold path_elems. rewrite IsAbs_slash.
  change ("/" +:+ dirs) with ("" +:+ String slash dirs). rewrite Split_app. unfold dirs. rewrite Split_dirs by done.
  cbn [Split app foldl]. change (clean_step true [] "") with (@nil string).
  rewrite foldl_app, (foldl_plain _ [] es) by done. cbn [foldl]. rewrite app_nil_r.
  change (clean_step true (reverse es) "") with (reverse es). apply reverse_involutive.
Qed.

Lemma abs_path_inj es fs : Forall plain es → Forall plain fs → abs_path es = abs_path fs → es = fs.
Proof. intros He Hf E. apply (f_equal path_elems) in E. by rewrite !path_elems_abs in E. Qed.

Lemma abs_path_length es : Forall plain es → (length es <= String.length (abs_path es))%nat.
Proof.
  intros Hes. unfold abs_path. rewrite slength_app. unfold Join.
  enough (length es <= String.length (String.concat "/" es))%nat by (simpl; lia).
  induction Hes as [|e es (_ & He & _) _ IH]; [done|]. cbn [length String.concat].
  assert (1 <= String.length e)%nat by (destruct e; [done|simpl; lia]).
  destruct es as [|f es]; [simpl; lia|]. rewrite !slength_app. simpl in *. lia.
Qed.

(** ** The search *)
Section Search.
(** What os.Stat answers: nothing for a file that exists. *)
Variable stat : string → option error.

Definition root_step (es : list string) (X : Type) (e : rootE X) : unit → X → unit → Prop :=
  match e in rootE X return unit → X → unit → Prop with
  | RootGetwd => λ _ x _, x = Ok (abs_path es)
  | RootStat path => λ _ x _, x = stat path
  | RootFatalf _ => λ _ _ _, True
  end.

Lemma mod_plain : plain "go.mod".
Proof. by apply (bool_decide_unpack _). Qed.

(** go.mod in the directory [es], and whether there is none. *)
Definition go_mod (es : list string) : string := abs_path (es ++ ["go.mod"]).
Definition no_mod (es : list string) : Prop := ∃ e, stat (go_mod es) = Some e ∧ os_IsNotExist e = true.

(** The directory [found] is reached from [es] over directories without go.mod. *)
Definition reached (es found : list string) : Prop :=
  ∃ rest, es = found ++ rest ∧ ∀ mid, mid `prefix_of` rest → mid ≠ [] → no_mod (found ++ mid).

(** What the search answers from [es]. *)
Definition search_result (es : list string) (r : result string) : Prop :=
  ∃ found, reached es found ∧
    match r with
    | Ok dir => dir = abs_path found ∧ stat (go_mod found) = None
    | Err err =>
        (∃ e, stat (go_mod found) = Some e ∧ os_IsNotExist e = false
              ∧ err = errors_Wrap ("stat go.mod in " +:+ abs_path found) e)
        ∨ found = [] ∧ no_mod []
    end.

Lemma reached_refl es : reached es es.
Proof.
  exists []. split; [by rewrite app_nil_r|]. intros mid Hm Hne. by apply prefix_nil_inv in Hm.
Qed.

Lemma reached_up es e found : no_mod (es ++ [e]) → reached es found → reached (es ++ [e]) found.
Proof.
  intros Hno (rest & -> & Hmid). exists (rest ++ [e]). split; [by rewrite app_assoc|].
  intros mid [more Hm] Hne. destruct more as [|x more _] using rev_ind.
  - rewrite app_nil_r in Hm. subst mid. by rewrite app_assoc.
  - rewrite app_assoc in Hm. apply app_inj_tail in Hm as [Hm _]. apply Hmid; [|done]. by exists more.
Qed.

Lemma source_loop_spec wd fuel es :
  Forall plain es → (length es < fuel)%nat →
  wp (root_step wd) (source_loop fuel (abs_path es)) (λ r _, ∃ x, r = Some x ∧ search_result es x) tt.
Proof.
  revert fuel. induction es as [|e es IH] using rev_ind; intros fuel Hes Hf.
  all: destruct fuel as [|fuel]; [lia|]; cbn [source_loop]; apply wp_trigger_seq; intros st [] ->.
  all: rewrite PathJoin_abs_path by (done || apply mod_plain).
  - fold (go_mod []). destruct (stat (go_mod [])) as [err|] eqn:Est.
    + destruct (os_IsNotExist err) eqn:En; cbn [negb].
      * rewrite decide_True by (vm_compute; reflexivity). eexists. split; [done|]. exists [].
        split; [apply reached_refl|]. right. split; [done|]. by exists err.
      * eexists. split; [done|]. exists []. split; [apply reached_refl|]. left. by exists err.
    + eexists. split; [done|]. exists []. by split; [apply reached_refl|].
  - fold (go_mod (es ++ [e])). destruct (stat (go_mod (es ++ [e]))) as [err|] eqn:Est.
    + destruct (os_IsNotExist err) eqn:En; cbn [negb].
      * apply Forall_app in Hes as [Hes He]. apply Forall_cons_1 in He as [He _].
        rewrite (Dir_abs es e Hes He). rewrite decide_False.
        2:{ intros E. apply abs_path_inj in E; [|done|by apply Forall_app; split; [|apply Forall_singleton]].
            apply (f_equal length) in E. rewrite length_app in E. simpl in E. lia. }
        eapply wp_mono; [apply IH; [done|]|]; [rewrite length_app in Hf; simpl in Hf; lia|].
        intros r u (x & -> & found & Hr & Hx). exists x. split; [done|]. exists found. split; [|done].
        apply reached_up; [|done]. by exists err.
      * eexists. split; [done|]. exists (es ++ [e]). split; [apply reached_refl|]. left. by exists err.
    + eexists. split; [done|]. exists (es ++ [e]). by split; [apply reached_refl|].
Qed.

(** The source root is the nearest directory with go.mod.  From a working
    directory that is an absolute, cleaned path the search always ends.  It
    answers the directory itself or the nearest one above that holds go.mod;
    it fails if a stat fails otherwise than for a missing file, with that error
    and nothing of interest below; and else only if no directory up to the root
    has one. *)
Theorem source_root_nearest es :
  Forall plain es →
  wp (root_step es) sourceRoot (λ r _, ∃ x, r = Some x ∧ search_result es x) tt.
Proof.
  intros Hes. unfold sourceRoot. apply wp_trigger_seq. intros dir [] ->.
  apply source_loop_spec; [done|]. unfold root_fuel. pose proof (abs_path_length es Hes). lia.
Qed.
End Search.

(** A test in /src/app/kernel, the module being /src. *)
Definition demo_stat (path : string) : option error :=
  if decide (path = "/src/go.mod") then None
  else Some (mkError ("stat " +:+ path +:+ ": no such file or directory") [ErrNotExist]).

Lemma source_root_nearest_witness :
  wp (root_step demo_stat ["src"; "app"; "kernel"]) sourceRoot (λ r _, r = Some (Ok "/src")) tt
  ∧ ∃ rest, ["src"; "app"; "kernel"] = ["src"] ++ rest.
Proof.
  split; [|by exists ["app"; "kernel"]].
  eapply wp_mono; [apply (source_root_nearest demo_stat ["src"; "app"; "kernel"]);
    by apply (bool_decide_unpack _)|].
  intros r u (x & -> & found & (rest & E & Hmid) & Hx).
  assert (found = [] ∨ found = ["src"] ∨ found = ["src"; "app"] ∨ found = ["src"; "app"; "kernel"]) as Hf.
  { destruct found as [|a [|b [|c [|d found]]]]; simplify_eq/=; auto. }
  destruct x as [dir|err].
  - destruct Hx as [-> Hs]. destruct Hf as [-> |[-> |[-> | ->]]]; try (vm_compute in Hs; discriminate Hs). reflexivity.
  - destruct Hx as [(e & Hs & Hn & _)|[-> (e & Hs & _)]].
    + destruct Hf as [-> |[-> |[-> | ->]]]; vm_compute in Hs; try discriminate Hs; injection Hs as <-; discriminate Hn.
    + simpl in E. subst rest. destruct (Hmid ["src"]) as (e' & Hs' & _); [by exists ["app"; "kernel"]|done|].
      vm_compute in Hs'. discriminate Hs'.
Defined.
