(* ===== verification/PluginProc.v ===== *)
(** * A plugin process

    A plugin built on the SDK as the kernel sees it: the process is started,
    reads its environment, listens, and answers requests one after the other.
    What a start depends on is the plugin's [Profile]; the class [PluginLaws]
    states that a plugin's methods answer as its profile says, and the server
    is verified against that interface. *)

From S2P Require Import Prelude Prog GoText GoPath PluginID Auth Runtime EventLog PluginApi Sdk Examples.
From S2P Require Handshake.

(** The plugin's object, the server it registered, whether that server has
    authenticated its caller, and whether its listener is open. *)
Record proc (D : Type) : Type := mkProc {
  pr_object : option D;
  pr_server : option server;
  pr_used : bool;
  pr_listening : bool;
}.
Arguments mkProc {D} _ _ _ _.
Arguments pr_object {D} _.
Arguments pr_server {D} _.
Arguments pr_used {D} _.
Arguments pr_listening {D} _.

Definition proc0 {D} : proc D := mkProc None None false false.

(** ** What its calls do

    The operating system serves the process, which has its files and its
    environment; log lines go somewhere; goroutines it starts run on their
    own.  [None] is the process after its exit, when nothing has an effect. *)
Section Process.
Context {D : Type}.
Variable env : list string.
Variable files : string → result string.

Definition sys_answer {X} (e : sysE X) : proc D → X → proc D → Prop :=
  match e in sysE X return proc D → X → proc D → Prop with
  | ListenSocket _ => λ s x s', x = None ∧ s' = mkProc (pr_object s) (pr_server s) (pr_used s) true
  | CloseListener _ => λ s _ s', s' = mkProc (pr_object s) (pr_server s) (pr_used s) false
  | Chmod _ _ => λ s x s', x = None ∧ s' = s
  | _ => λ s _ s', s' = s
  end.

Definition sdk_answer {X} (e : sdkE X) : proc D → X → proc D → Prop :=
  match e in sdkE X return proc D → X → proc D → Prop with
  | GetAuthUsed => λ s x s', x = pr_used s ∧ s' = s
  | SetAuthUsed => λ s _ s', s' = mkProc (pr_object s) (pr_server s) true (pr_listening s)
  | SGetenv name => λ s x s', x = Handshake.env_get env name ∧ s' = s
  | SReadFile path => λ s x s', x = files path ∧ s' = s
  | SOpenLog _ => λ s x s', x = None ∧ s' = s
  | SSys e => sys_answer e
  | SRegister _ srv => λ s x s',
      x = None ∧ s' = mkProc (pr_object s) (Some srv) (pr_used s) (pr_listening s)
  | SCloseListener => λ s _ s', s' = mkProc (pr_object s) (pr_server s) (pr_used s) false
  | _ => λ s _ s', s' = s
  end.

Definition plugin_answer {X} (e : pluginE D X) : proc D → X → option (proc D) → Prop :=
  match e in pluginE _ X return proc D → X → option (proc D) → Prop with
  | PSdk e => λ s x s', ∃ s1, sdk_answer e s x s1 ∧ s' = Some s1
  | PNew d => λ s _ s', s' = Some (mkProc (Some d) (pr_server s) (pr_used s) (pr_listening s))
  | PLoad => λ s x s', from_option (λ d, x = d) True (pr_object s) ∧ s' = Some s
  | PStore f => λ s _ s', s' = Some (mkProc (f <$> pr_object s) (pr_server s) (pr_used s) (pr_listening s))
  | PCloseListener => λ s _ s', s' = Some (mkProc (pr_object s) (pr_server s) (pr_used s) false)
  | PExit _ => λ _ _ s', s' = None
  | _ => λ s _ s', s' = Some s
  end.

Definition plugin_step (X : Type) (e : pluginE D X) (s : option (proc D)) (x : X)
    (s' : option (proc D)) : Prop :=
  match s with Some s => plugin_answer e s x s' | None => s' = None end.

(** The SDK's calls, answered by a plugin's methods. *)
Definition method_step (h : handler D) (X : Type) (e : sdkE X) (s : option (proc D)) (x : X)
    (s' : option (proc D)) : Prop := exec plugin_step (h X e) s x s'.

#[export] Instance result_inhabited A : Inhabited (result A) := populate (Err (errors_New "")).
#[local] Instance heartbeat_inhabited : Inhabited HeartbeatResponse := populate heartbeat0.

(** Every call is answered. *)
Lemma sys_answer_total X (e : sysE X) s : ∃ x s', sys_answer e s x s'.
Proof. destruct e; simpl; first [by eexists inhabitant, _|by eexists None, _]. Qed.

Lemma sdk_answer_total X (e : sdkE X) s : ∃ x s', sdk_answer e s x s'.
Proof.
  destruct e; simpl; first [apply sys_answer_total|by eexists inhabitant, _|by eexists _, _].
Qed.

Lemma plugin_step_total `{!Inhabited D} X (e : pluginE D X) s : ∃ x s', plugin_step X e s x s'.
Proof.
  destruct s as [s|], e as [X e| | | | | | | | |]; simpl; lazymatch goal with
    | e : sdkE X |- _ => idtac | _ => try (by eexists inhabitant, _) end.
  - destruct (sdk_answer_total _ e s) as (x & s' & Hs). eauto.
  - destruct (pr_object s) as [d|]; [by exists d, (Some s)|by exists inhabitant, (Some s)].
  - destruct (sdk_answer_total _ e proc0) as [x _]. by exists x, None.
Qed.

Lemma plugin_exec {A} `{!Inhabited D} (p : prog (pluginE D) A) s :
  ∃ a s', exec plugin_step p s a s'.
Proof.
  destruct (exec_total plugin_step (λ _, True)) with (p := p) (s := s) as (a & s' & He & _); [|done|eauto].
  intros X e s1 _. destruct (plugin_step_total X e s1) as (x & s' & Hs). eauto.
Qed.
End Process.

(** ** The interface of a plugin *)

(** What a start of the plugin depends on. *)
Record Profile : Type := mkProfile {
  pf_auth : option error;              (* the answer of its authentication hook *)
  pf_id : string;                      (* the identity it reports *)
  pf_generation : Z;
  pf_capabilities : list string;
  pf_listening : bool;                 (* it keeps its listener open *)
}.

(** The calls that a plugin's methods answer; the others are the SDK's own. *)
Definition is_core_call {X} (e : sdkE X) : bool :=
  match e with
  | OnAuthAttempt _ | OnServeListener | CoreCapabilities | CoreIdentity | CoreVersion
  | CoreHeartbeat | CoreShutdown | CoreEcho _ | CoreSleep _ | CoreCrash _ => true
  | _ => false
  end.

(** A process with its object in order. *)
Definition alive {D} (I : D → Prop) (srv : option server) (used listening : bool)
    (s : option (proc D)) : Prop :=
  ∃ d, I d ∧ s = Some (mkProc (Some d) srv used listening).

Class PluginLaws {D : Type} (core : Core) (h : handler D) (build : Config → prog (pluginE D) unit)
    (env : list string) (files : string → result string) (cfg : Config) (pf : Profile)
    (I : D → Prop) : Prop := {
  law_own X (e : sdkE X) : is_core_call e = false → h X e = trigger (PSdk e);
  law_build : wp (plugin_step env files) (build cfg) (λ _, alive I None false false) (Some proc0);
  law_version now_files srv used listening s : alive I srv used listening s →
    wp (method_step env now_files h) (trigger CoreVersion) (λ _, alive I srv used listening) s;
  law_auth now_files token srv used listening s : alive I srv used listening s →
    wp (method_step env now_files h) (if is_authHook core then trigger (OnAuthAttempt token) else Ret None)
      (λ x s', x = pf_auth pf ∧ alive I srv used listening s') s;
  law_identity now_files caps logger srv used listening s : alive I srv used listening s →
    wp (method_step env now_files h) (identity (mkServer core cfg caps logger))
      (λ x s', x = (pf_id pf, pf_generation pf) ∧ alive I srv used listening s') s;
  law_capabilities now_files srv used listening s : alive I srv used listening s →
    wp (method_step env now_files h) (detectCapabilities core)
      (λ x s', x = pf_capabilities pf ∧ alive I srv used listening s') s;
  law_accept now_files srv used s : alive I srv used true s →
    wp (method_step env now_files h) (if is_acceptHook core then trigger OnServeListener else Ret tt)
      (λ _, alive I srv used (pf_listening pf)) s;
}.

(** ** The server over a plugin that keeps the laws *)
Section Served.
Context `{UnicodeTables} {D : Type}.
Variable (core : Core) (h : handler D) (build : Config → prog (pluginE D) unit).
Variable (env : list string) (files : string → result string) (cfg : Config) (pf : Profile).
Variable I : D → Prop.
Context `{!PluginLaws core h build env files cfg pf I}.

Section Methods.
(** The files may have changed since the process was started. *)
Variable now_files : string → result string.
Notation step := (method_step env now_files h).
Notation server_of caps logger := (mkServer core cfg caps logger).

(** The SDK's own calls go to the process. *)
Lemma own_call X (e : sdkE X) s x s' :
  is_core_call e = false → step X e s x s' → plugin_step env now_files X (PSdk e) s x s'.
Proof. unfold method_step. intros He. rewrite (law_own X e He). by intros (x' & s1 & Hs & -> & ->). Qed.

Lemma own_seq {X A} (e : sdkE X) (k : X → prog sdkE A) Q s :
  is_core_call e = false →
  (∀ x s', plugin_step env now_files X (PSdk e) s x s' → wp step (k x) Q s') →
  wp step (trigger e ≫= k) Q s.
Proof.
  intros He Hk. apply wp_trigger_seq. intros x s' Hs. by apply Hk, own_call.
Qed.

(** A method of the plugin, specified by a law. *)
Lemma law_seq {X A} (p : prog sdkE X) (k : X → prog sdkE A) (P : X → option (proc D) → Prop) Q s :
  wp step p P s → (∀ x s', P x s' → wp step (k x) Q s') → wp step (p ≫= k) Q s.
Proof. intros Hp Hk. apply wp_bind. by eapply wp_mono. Qed.

Section Alive.
Variables (srv : option server) (used listening : bool).
Notation live := (alive I srv used listening).

(** A call of the SDK that leaves the process as it is. *)
Lemma quiet_spec {X} (e : sdkE X) s :
  is_core_call e = false → (∀ (p : proc D) x s', sdk_answer env now_files e p x s' → s' = p) →
  live s → wp step (trigger e) (λ _, live) s.
Proof.
  intros He Hq (d & Hd & ->) x s' (s1 & Ha & ->)%own_call; [|done]. apply Hq in Ha as ->. by exists d.
Qed.

Lemma sdk_log_spec ev s : live s → wp step (sdk_log ev) (λ _, live) s.
Proof.
  intros Hs. unfold sdk_log. apply wp_bind. by apply quiet_spec; [|intros ??? ->|].
Qed.

Lemma log_event_spec s0 ev s : live s → wp step (log_event s0 ev) (λ _, live) s.
Proof. intros Hs. unfold log_event. destruct (srv_logger s0); [by apply sdk_log_spec|done]. Qed.

Lemma lock_spec s : live s → wp step (trigger SLock) (λ _, live) s.
Proof. intros Hs. by apply quiet_spec; [|intros ??? ->|]. Qed.

Lemma unlock_spec s : live s → wp step (trigger SUnlock) (λ _, live) s.
Proof. intros Hs. by apply quiet_spec; [|intros ??? ->|]. Qed.

(** Reading the flag. *)
Lemma flag_spec s : live s → wp step (trigger GetAuthUsed) (λ x s', x = used ∧ live s') s.
Proof.
  intros (d & Hd & ->) x s' (s1 & [-> ->] & ->)%own_call; [|done]. split; [done|]. by exists d.
Qed.
End Alive.

(** *** Authentication *)

Lemma Auth_profile caps logger srv listening token s :
  alive I srv false listening s →
  wp step (Auth (server_of caps logger) token) (λ a s', match pf_auth pf with
    | Some e => a.2 = Some e
    | None =>
        if bool_decide (token = sc_AuthToken cfg)
        then (∃ v, a = (mkAuthResponse (pf_id pf) v (pf_generation pf), None))
             ∧ alive I srv true listening s'
        else a.2 = Some os_ErrPermission
    end) s.
Proof.
  intros Hs. unfold Auth. eapply law_seq; [by apply log_event_spec|]. intros [] s1 Hs1.
  eapply law_seq; [by apply law_auth|]. intros hook s2 [-> Hs2].
  destruct (pf_auth pf) as [e|].
  { eapply law_seq; [by apply log_event_spec|]. by intros [] s3 Hs3. }
  eapply law_seq; [by apply lock_spec|]. intros [] s3 Hs3. apply wp_bind. unfold auth_locked.
  eapply law_seq; [by apply flag_spec|]. intros used s4 [-> Hs4].
  rewrite EqualToken_eq. cbn [orb srv_cfg].
  case_bool_decide as Ht; cbn [negb].
  2:{ eapply law_seq; [by apply log_event_spec|]. intros [] s5 Hs5. apply wp_bind.
      by eapply wp_mono; [by apply unlock_spec|]. }
  destruct Hs4 as (d & Hd & ->). apply own_seq; [done|]. intros x s5 (s6 & -> & ->).
  eapply law_seq; [eapply law_identity; by exists d|]. intros id s7 [-> Hs7].
  eapply law_seq; [by apply law_version|]. intros v s8 Hs8. cbn beta in Hs8. apply wp_bind.
  apply (wp_mono _ _ (λ _ s', alive I srv true listening s')).
  { destruct (srv_logger _); [|done].
    eapply law_seq; [by apply law_version|]. intros v' s9 Hs9. by apply log_event_spec. }
  intros [] s9 Hs9. apply wp_bind. eapply wp_mono; [by apply unlock_spec|].
  intros [] s10 Hs10. split; [by exists v|done].
Qed.

(** What follows a successful authentication. *)
Lemma guarded_profile {X} method (zero : X) body srv listening s0 Q s :
  alive I srv true listening s → (∀ s', alive I srv true listening s' → wp step body Q s') →
  wp step (guarded s0 method zero body) Q s.
Proof.
  intros Hs Hbody. unfold guarded, requireAuth. apply wp_bind.
  eapply law_seq; [by apply lock_spec|]. intros [] s1 Hs1.
  eapply law_seq; [by apply flag_spec|]. intros used s2 [-> Hs2]. apply wp_bind.
  eapply wp_mono; [by apply unlock_spec|]. intros [] s3 Hs3. by apply Hbody.
Qed.

Lemma Capabilities_profile caps logger srv listening s :
  alive I srv true listening s →
  wp step (Capabilities (server_of caps logger)) (λ a s',
    (∃ v, a = (mkCapabilitiesResponse (pf_id pf) v (pf_generation pf) caps, None))
    ∧ alive I srv true listening s') s.
Proof.
  intros Hs. unfold Capabilities. eapply guarded_profile; [done|]. intros s1 Hs1.
  eapply law_seq; [by apply law_identity|]. intros id s2 [-> Hs2].
  eapply law_seq; [by apply law_version|]. intros v s3 Hs3. cbn beta in Hs3.
  eapply law_seq; [by apply log_event_spec|]. intros [] s4 Hs4. split; [by exists v|done].
Qed.

(** A handler of the plugin behind the gate. *)
Lemma logged_profile {X} method (zero : X) p s0 P srv listening s :
  alive I srv true listening s →
  (∀ s', alive I srv true listening s' →
     wp step p (λ a s', P a ∧ alive I srv true listening s') s') →
  wp step (guarded s0 method zero (logged s0 method p))
    (λ a s', P a ∧ alive I srv true listening s') s.
Proof.
  intros Hs Hp. eapply guarded_profile; [done|]. intros s1 Hs1. unfold logged.
  eapply law_seq; [by apply Hp|]. intros a s2 [Ha Hs2]. apply wp_bind.
  apply (wp_mono _ _ (λ _, alive I srv true listening)); [|by intros [] s3 Hs3].
  unfold logRPC. destruct a.2; by apply log_event_spec.
Qed.

(** *** Serving *)

(** The server of the process, once it waits for its first connection. *)
Definition served (s : option (proc D)) : Prop :=
  alive I (Some (server_of (pf_capabilities pf) true)) false (pf_listening pf) s.

Lemma ListenUnix_profile path s :
  alive I None false false s →
  wp step (sdk_sys (ListenUnix path)) (λ r s', r = None ∧ alive I None false true s') s.
Proof.
  intros (d & Hd & ->). unfold ListenUnix, sdk_sys. cbn [translate mbind prog_mbind prog_bind trigger].
  intros r1 s1 (u1 & -> & ->)%own_call; [|done].
  intros r2 s2 (u2 & [-> ->] & ->)%own_call; [|done]. cbn [translate prog_bind].
  intros r3 s3 (u3 & [-> ->] & ->)%own_call; [|done]. split; [done|]. by exists d.
Qed.

Lemma ServeWithConfig_profile s :
  alive I None false false s →
  wp step (ServeWithConfig 0 cfg (Some core)) (λ r s', r = None ∧ served s') s.
Proof.
  intros Hs. unfold ServeWithConfig.
  destruct Hs as (d & Hd & ->). apply own_seq; [done|]. intros l s1 (s2 & [-> ->] & ->).
  eapply law_seq; [apply sdk_log_spec; by exists d|]. clear d Hd. intros [] s1 Hs1.
  eapply law_seq; [by apply sdk_log_spec|]. intros [] s2 Hs2.
  eapply law_seq; [by apply ListenUnix_profile|]. intros listener s3 [-> Hs3].
  eapply law_seq; [by apply law_accept|]. intros [] s4 Hs4.
  eapply law_seq; [by apply sdk_log_spec|]. intros [] s5 Hs5.
  eapply law_seq; [by apply law_capabilities|]. intros caps s6 [-> (d & Hd & ->)].
  apply own_seq; [done|]. intros r s7 (s8 & [-> ->] & ->). split; [done|]. by exists d.
Qed.

End Methods.

(** The process of a plugin, from its start to its first connection. *)
Lemma run_frame_profile failed :
  wp (λ X e, plugin_step env files X (PSdk e)) LoadConfigFromEnv
    (λ r s', r = Ok cfg ∧ s' = Some (@proc0 D)) (Some proc0) →
  wp (plugin_step env files) (run_frame 0 core h failed build)
    (λ out s', out = None ∧ served s') (Some proc0).
Proof.
  intros Hload. unfold run_frame, sdk. apply wp_bind, wp_translate.
  eapply wp_mono; [exact Hload|]. intros r s [-> ->].
  apply wp_trigger_seq. intros l s1 (s2 & [-> ->] & ->).
  apply wp_bind. eapply wp_mono; [apply law_build|]. intros [] s3 Hs3.
  apply wp_bind, wp_interp. eapply wp_mono; [by apply ServeWithConfig_profile|].
  by intros out s4 [-> Hs4].
Qed.
End Served.
