(* ===== verification/Supervised.v ===== *)
(** * A manager and its plugin together

    The manager of file Manager runs against a plugin process of file
    PluginProc on a machine where nothing fails by itself: files are written
    and read, processes start, calls are answered in time, and sleeping is all
    that takes time.  On this machine the outcome of a start is decided by the
    plugin's profile alone. *)

From S2P Require Import Prelude Prog GoText GoPath PluginID Auth Runtime Bundle EventLog PluginApi Manager ManagerWorld ManagerFacts ManagerProps.
From S2P Require Sdk Handshake.
From S2P Require Import Examples PluginProc.

(** The files, the running plugin with its environment, the time from which it
    answers its socket, and its process id. *)
Record outside (D : Type) : Type := mkOutside {
  fs : gmap string string;
  plug : option (list string * proc D);
  ready : Z;
  pid : Z;
}.
Arguments mkOutside {D} _ _ _ _.
Arguments fs {D} _.
Arguments plug {D} _.
Arguments ready {D} _.
Arguments pid {D} _.

Section System.
Context `{UnicodeTables} {D : Type}.
Variable h : handler D.
(** The plugin's program up to its first connection. *)
Variable boot : prog (pluginE D) (option (option error)).
(** The environment of the kernel, and how long a plugin takes to listen. *)
Variable kernel_env : string → string.
Variable boot_time : Z.

Implicit Type o : outside D.

Definition file_read (files : gmap string string) (path : string) : result string :=
  match files !! path with
  | Some data => Ok data
  | None => Err (mkError ("open " +:+ path +:+ ": no such file or directory") [ErrNotExist])
  end.

Definition with_plug o (p : option (list string * proc D)) : outside D :=
  mkOutside (fs o) p (ready o) (pid o).

Definition sys_fair {X} (e : sysE X) : outside D → X → outside D → Prop :=
  match e in sysE X return outside D → X → outside D → Prop with
  | Remove path => λ o x o',
      x = None ∧ o' = mkOutside (delete path (fs o)) (plug o) (ready o) (pid o)
      ∨ fs o !! path = None ∧ is_Some x ∧ o' = o
  | ConnType _ => λ o x o', x = "*net.UnixConn" ∧ o' = o
  | SyscallConn _ => λ o x o', x = None ∧ o' = o
  | RawControl _ => λ o x o', x = None ∧ o' = o
  | GetsockoptUcred _ => λ o x o', (∃ cred, x = Ok cred ∧ cred_PID cred = pid o) ∧ o' = o
  | _ => λ o _ o', o' = o
  end.

(** A new process, from its start to its first connection. *)
Definition started (c : Command) (now : Z) o (p : Process) o' : Prop :=
  ∃ out s, exec (plugin_step (cmd_Env c) (file_read (fs o))) boot (Some proc0) out s
    ∧ o' = mkOutside (fs o) (match out with None => (cmd_Env c,.) <$> s | Some _ => None end)
             (now + boot_time) (Pid p).

(** A socket that is dialled before the plugin listens, or after it stopped. *)
Definition answers (now : Z) o : bool :=
  match plug o with Some (_, p) => pr_listening p && (ready o <=? now) | None => false end.

(** The plugin's error as net/rpc returns it: its text. *)
Definition server_error (e : option error) : option error := (λ e, errors_New (err_msg e)) <$> e.

(** A request is served to its end; a process that exits answers nothing more. *)
Definition replied {X} (r : request X) o (reply : X) (res : call_result) o' : Prop :=
  match plug o with
  | Some (env, p) =>
      match pr_server p with
      | Some srv => ∃ a s,
          exec (plugin_step env (file_read (fs o))) (interp h (Sdk.serve_request srv r)) (Some p) a s
          ∧ o' = with_plug o ((env,.) <$> s)
          ∧ match s with
            | Some _ => res = Done (server_error a.2) ∧ (a.2 = None → reply = a.1)
            | None => ∃ e, res = Done (Some e)
            end
      | None => (∃ e, res = Done (Some e)) ∧ o' = o
      end
  | None => (∃ e, res = Done (Some e)) ∧ o' = o
  end.

Definition fair {X} (e : mgrE X) (w w' : world) : outside D → X → outside D → Prop :=
  match e in mgrE X return outside D → X → outside D → Prop with
  | Sys e => sys_fair e
  | ReadRandom => λ o x o', (∃ token, x = Ok token) ∧ o' = o
  | WriteFile path data => λ o x o',
      x = None ∧ o' = mkOutside (<[path := data]> (fs o)) (plug o) (ready o) (pid o)
  | Getenv name => λ o x o', x = kernel_env name ∧ o' = o
  | StartProcess c => λ o x o', ∃ p, x = Ok p ∧ started c (w_now w) o p o'
  | Now => λ o x o', x = w_now w ∧ o' = o
  | SleepFor d => λ o _ o', w_now w' = w_now w + d ∧ o' = o
  | DialUnix _ => λ o x o', (if answers (w_now w) o then ∃ c, x = Ok c else ∃ e, x = Err e) ∧ o' = o
  | CallRPC _ r => λ o x o', replied r o x.1 x.2 o'
  | WaitGrace _ => λ o x o', match x with
      | Some r => real_error r = None ∧ o' = with_plug o None
      | None => o' = o
      end
  | WaitFinal _ => λ o x o', real_error x = None ∧ o' = with_plug o None
  | SignalKill _ => λ o x o', real_error x = None ∧ o' = with_plug o None
  | KillProcess _ => λ o _ o', o' = with_plug o None
  | _ => λ o _ o', o' = o
  end.

Definition system_step (X : Type) (e : mgrE X) (s : world * outside D) (x : X)
    (s' : world * outside D) : Prop :=
  mgr_step X e s.1 x s'.1 ∧ fair e s.1 s'.1 s.2 x s'.2.

Notation wp := (wp system_step).

(** What holds of a manager alone holds here. *)
Lemma system_manager {A} (p : prog mgrE A) Q s :
  Prog.wp mgr_step p Q s.1 → wp p (λ a s', Q a s'.1) s.
Proof. apply wp_refine. by intros X e s1 x s' [Hm _]. Qed.

(** *** Every call is answered *)
#[local] Instance request_inhabited X (r : request X) : Inhabited X.
Proof.
  destruct r; apply populate;
    solve [exact inhabitant|exact heartbeat0|exact (mkAuthResponse "" "" 0)
          |exact (mkCapabilitiesResponse "" "" 0 [])].
Qed.

Lemma replied_total `{!Inhabited D} {X} (r : request X) o : ∃ reply res o', replied r o reply res o'.
Proof.
  pose proof (request_inhabited X r). unfold replied.
  destruct (plug o) as [[env p]|]; [|by eexists inhabitant, (Done (Some (errors_New ""))), o; eauto].
  destruct (pr_server p) as [srv|]; [|by eexists inhabitant, (Done (Some (errors_New ""))), o; eauto].
  destruct (plugin_exec env (file_read (fs o)) (interp h (Sdk.serve_request srv r)) (Some p)) as (a & s & He).
  destruct s as [s|].
  - eexists a.1, (Done (server_error a.2)), _, a, (Some s). eauto.
  - eexists inhabitant, (Done (Some (errors_New ""))), _, a, None. eauto.
Qed.

Lemma sys_fair_total X (e : sysE X) o : ∃ x o', sys_fair e o x o'.
Proof.
  destruct e; simpl; first [by eexists inhabitant, _|by eexists None, _; left|by eexists _, _|idtac].
  exists (Ok (mkPeerCred (pid o) 0 0)), o. split; [|done]. by eexists.
Qed.

Lemma system_total `{!Inhabited D} X (e : mgrE X) s : ∃ x s', system_step X e s x s'.
Proof.
  destruct s as [w o]. unfold system_step. destruct e; simpl.
  all: try by (eexists inhabitant, (_, _); cbn; eauto).
  - by eexists _, (_, _); cbn; eauto.
  - destruct (sys_fair_total _ e o) as (x & o' & Hs). by eexists x, (_, o').
  - exists (Ok ""), (w, o). cbn. eauto.
  - by eexists _, (w, o).
  - set (p := mkProcess (w_nextp w) 1).
    destruct (plugin_exec (cmd_Env c) (file_read (fs o)) boot (Some proc0)) as (out & s & He).
    eexists (Ok p), (_, _). cbn. split; [done|]. exists p. split; [done|]. by exists out, s.
  - exists (w_now w), (set_now (w_now w) w, o). by cbn.
  - exists tt, (set_now (w_now w + d) w, o). cbn. split; [|done]. by exists (w_now w + d).
  - destruct (answers (w_now w) o).
    + eexists (Ok (w_nextc w)), (_, o). cbn. split; [done|]. by split; [eexists|].
    + exists (Err (errors_New "")), (w, o). cbn. split; [done|]. by split; [eexists|].
  - destruct (replied_total r o) as (reply & res & o' & Hr). by eexists (reply, res), (_, o').
Qed.

(** Every program runs to its end. *)
Lemma system_runs `{!Inhabited D} {A} (p : prog mgrE A) s : ∃ a s', exec system_step p s a s'.
Proof.
  destruct (exec_total system_step (λ _, True)) with (p := p) (s := s) as (a & s' & He & _); [|done|eauto].
  intros X e s1 _. destruct (system_total X e s1) as (x & s' & Hs). eauto.
Qed.

(** *** Single calls *)

Lemma set_now_same w : set_now (w_now w) w = w.
Proof. by destruct w. Qed.

Lemma system_seq {X A} (e : mgrE X) (k : X → prog mgrE A) Q w o :
  (∀ x w' o', mgr_step X e w x w' → fair e w w' o x o' → wp (k x) Q (w', o')) →
  wp (trigger e ≫= k) Q (w, o).
Proof. intros Hk. apply wp_trigger_seq. intros x [w' o'] [Hm Hf]. by apply Hk. Qed.

Lemma system_log_seq {A} ev (k : unit → prog mgrE A) Q s :
  wp (k tt) Q s → wp (logEvent ev ≫= k) Q s.
Proof. intros Hk. destruct s as [w o]. apply system_seq. intros [] w' o' -> ->. done. Qed.

Lemma system_atomic_seq {A B} (f : Manager → A * Manager) (k : A → prog mgrE B) Q w o :
  wp (k (f (w_m w)).1) Q (set_m (f (w_m w)).2 w, o) → wp (atomic f ≫= k) Q (w, o).
Proof. intros Hk. apply system_seq. intros x w' o' [-> ->] ->. done. Qed.

Lemma system_read_seq {A B} (f : Manager → A) (k : A → prog mgrE B) Q s :
  wp (k (f (w_m s.1))) Q s → wp (read f ≫= k) Q s.
Proof. destruct s as [w o]. intros Hk. apply system_atomic_seq. simpl. by rewrite set_m_eta. Qed.

Lemma system_lifecycle {A} (p : prog mgrE A) Q s : wp p Q s → wp (with_lifecycle p) Q s.
Proof.
  destruct s as [w o]. intros Hp. unfold with_lifecycle. apply system_seq. intros [] w1 o1 -> ->.
  apply wp_bind. eapply wp_mono; [exact Hp|].
  intros r [w2 o2] Hr [] [w3 o3] [Hw3 Ho3]. simpl in Hw3, Ho3. subst w3 o3. exact Hr.
Qed.

Lemma removed_file path o x o' :
  sys_fair (Remove path) o x o' → o' = mkOutside (delete path (fs o)) (plug o) (ready o) (pid o).
Proof.
  intros [[_ ->]|(Hn & _ & ->)]; [done|]. rewrite delete_id by done. by destruct o.
Qed.

Section Cfg.
Variable cfg : Config.

(** A call that is not stale: what it answers is what the plugin replied. *)
Lemma system_call {X} c g epoch (args : request X) Q w o :
  stale_reply c g epoch (w_m w) = false →
  (∀ reply res o', replied args o reply res o' → match res with
     | Done None => Q (reply, None) (observe (OCall c args reply res) w, o')
     | _ => ∀ e s', Q (reply, Some e) s'
     end) →
  wp (call cfg c g epoch args) Q (w, o).
Proof.
  intros Hfresh HQ. unfold call. apply system_read_seq, system_log_seq, system_seq.
  intros [reply res] w' o' -> Hr. specialize (HQ reply res o' Hr). destruct res as [[err|]|].
  - apply wp_bind, wp_any. intros [] s'. apply system_log_seq. apply HQ.
  - apply system_read_seq. cbn [fst]. change (w_m (observe ?x ?y)) with (w_m y). rewrite Hfresh.
    by apply system_log_seq.
  - apply wp_bind, wp_any. intros [] s'. apply system_log_seq. apply HQ.
Qed.

(** A start that is given up answers an error. *)
Lemma given_up_spec p c g component name msg reason err s :
  wp (start_failed cfg p c g component name msg reason err) (λ r _, r = Some err) s.
Proof. unfold start_failed. apply system_log_seq. by apply wp_bind, wp_any. Qed.

(** *** Dialling: the loop ends with the connection if the plugin listens *)

Definition listens o : bool := match plug o with Some (_, p) => pr_listening p | None => false end.

Lemma answers_listens now o : answers now o = listens o && (ready o <=? now).
Proof. unfold answers, listens. by destruct (plug o) as [[env p]|]. Qed.

Definition dial_result (d : dialed) o : Prop :=
  match d with
  | Dialed _ => listens o = true
  | DeadlinePassed => listens o = false
  | OutOfFuel => True
  end.

Lemma dial_loop_listens fuel deadline w o :
  ready o + 50 * Millisecond <= deadline → (listens o = true → w_now w < deadline) →
  wp (dial_loop cfg fuel deadline)
    (λ d s', (w_m s'.1 = w_m w ∧ s'.2 = o) ∧ dial_result d o) (w, o).
Proof.
  intros Hready. revert w. induction fuel as [|fuel IH]; intros w Hnow; cbn [dial_loop]; [done|].
  apply system_seq. intros now w1 o1 [_ ->] [-> ->].
  destruct (Z.ltb_spec (w_now w) deadline) as [Hlt|Hge].
  2:{ split; [done|]. simpl. destruct (listens o); [|done]. specialize (Hnow eq_refl). lia. }
  apply system_seq. intros r w2 o2 Hd [Ha ->]. rewrite answers_listens in Ha.
  change (w_now (set_now (w_now w) w)) with (w_now w) in Ha.
  destruct (listens o && (ready o <=? w_now w)) eqn:El.
  - destruct Ha as [c ->]. destruct Hd as [-> ->]. apply andb_prop in El as [El _]. done.
  - destruct Ha as [e ->]. simpl in Hd. subst w2.
    apply system_seq. intros [] w3 o3 (t & _ & ->) [Ht ->].
    change (w_now (set_now t ?x)) with t in Ht. subst t.
    eapply wp_mono; [apply IH|]; [|by intros d s' [[Hm ->] Hr]].
    change (w_now (set_now ?x ?y)) with x. intros Hl. rewrite Hl in El. simpl in El.
    apply Z.leb_gt in El. change (w_now (set_now ?x ?y)) with x. lia.
Qed.

Lemma dial_listens g w o :
  0 < DialTimeout cfg → w_now w <= ready o →
  ready o + 50 * Millisecond <= w_now w + DialTimeout cfg →
  wp (dial cfg g) (λ r s', (w_m s'.1 = w_m w ∧ s'.2 = o)
    ∧ match r with Ok _ => listens o = true | Err _ => listens o = false end) (w, o).
Proof.
  intros Htimeout Hboot Hready. unfold dial. apply system_log_seq, system_seq.
  intros now w1 o1 [_ ->] [-> ->]. rewrite set_now_same.
  apply wp_bind.
  eapply wp_mono; [apply (wp_conj system_step)|].
  - apply dial_loop_listens; [done|]. intros _. lia.
  - apply (system_manager _ (λ d _, d ≠ OutOfFuel)).
    apply dial_loop_fuel; [|unfold dial_fuel; lia]. simpl. unfold dial_fuel.
    pose proof (Z.div_mod (DialTimeout cfg) (50 * Millisecond) ltac:(done)).
    pose proof (Z.mod_pos_bound (DialTimeout cfg) (50 * Millisecond) ltac:(done)).
    assert (0 <= DialTimeout cfg / (50 * Millisecond)) by (apply Z.div_pos; [lia|done]).
    rewrite Nat2Z.inj_add, Z2Nat.id by done. lia.
  - intros d [w2 o2] [[[Hm Ho] Hr] Hfuel]. cbn in Hm, Ho. subst o2.
    destruct d; [..|done]; by apply system_log_seq.
Qed.
End Cfg.
End System.

(** ** A start is decided by the plugin's profile *)
Section Start.
Context `{UnicodeTables} {D : Type}.
Variables (core : Sdk.Core) (h : handler D) (build : Sdk.Config → prog (pluginE D) unit).
Variables (failed : string) (kernel_env : string → string) (boot_time : Z).
Variables (cfg : Config) (pf : Profile) (I : D → Prop) (w0 : world) (o0 : outside D).

Notation g := (next_generation w0).
Notation step := (system_step h (run_frame 0 core h failed build) kernel_env boot_time).
Notation wp := (wp step).

(** The environment and the files the plugin is started with. *)
Definition plugin_environment : list string :=
  Handshake.spawn_env cfg g (kernel_env BehaviorConfigEnv) (kernel_env ShutdownMarkerEnv).
Definition boot_files (token : string) : gmap string string :=
  <[authPath cfg := token]> (delete (socketPath cfg) (fs o0)).

Context (laws : ∀ token, PluginLaws core h build plugin_environment (file_read (boot_files token))
                  (Handshake.sdk_config cfg g token) pf I).
Hypothesis id_ok : valid_id (PluginID cfg) = true.
Hypothesis generation_ok : 0 <= st_GenerationID (state (w_m w0)) < two64.
Hypothesis boot_in_time : 0 <= boot_time ∧ boot_time + 50 * Millisecond <= DialTimeout cfg.

(** What the kernel requires of a plugin. *)
Definition acceptable : Prop :=
  pf_listening pf = true ∧ pf_auth pf = None ∧ pf_id pf = PluginID cfg ∧ pf_generation pf = g
  ∧ "__capabilities_error__" ∉ pf_capabilities pf.

(** The plugin of this start, with its token. *)
Definition in_place (token : string) (used : bool) (o : outside D) : Prop :=
  ∃ p, plug o = Some (plugin_environment, p)
    ∧ alive I (Some (Sdk.mkServer core (Handshake.sdk_config cfg g token) (pf_capabilities pf) true))
        used (pf_listening pf) (Some p).

Definition decided (r : option error) (s : world * outside D) : Prop :=
  (r = None ↔ acceptable)
  ∧ (r = None → st_Capabilities (state (w_m s.1)) = pf_capabilities pf
       ∧ ∃ token, in_place token true s.2).

Lemma refused p c component name msg reason err s :
  ¬ acceptable → wp (start_failed cfg p c g component name msg reason err) decided s.
Proof. intros Hn. eapply wp_mono; [apply given_up_spec|]. by intros r s' ->. Qed.

Lemma start_loaded_decided p c token caps w o :
  pf_listening pf = true → pf_auth pf = None → cr_PluginID caps = pf_id pf →
  cr_GenerationID caps = pf_generation pf → cr_Capabilities caps = pf_capabilities pf →
  in_place token true o →
  wp (start_loaded cfg p c g caps) decided (w, o).
Proof.
  intros Hl Ha Hid Hg Hcaps Ho. unfold start_loaded. rewrite Hid, Hg, Hcaps.
  case_bool_decide as E1; cbn [negb]; [|apply refused; unfold acceptable; tauto].
  destruct (Z.eqb_spec (pf_generation pf) g) as [E2|E2]; cbn [negb];
    [|apply refused; unfold acceptable; tauto].
  case_bool_decide as E3; [apply refused; unfold acceptable; tauto|].
  apply system_atomic_seq. do 2 apply system_log_seq. split; [|split; [done|by exists token]].
  split; [|done]. by intros _.
Qed.

(** A request to the plugin in place, specified at the server. *)
Lemma replied_served {X} token used (r : request X) P o reply res o' :
  in_place token used o →
  (∀ p, plug o = Some (plugin_environment, p) →
     alive I (Some (Sdk.mkServer core (Handshake.sdk_config cfg g token) (pf_capabilities pf) true))
       used (pf_listening pf) (Some p) →
     Prog.wp (method_step plugin_environment (file_read (fs o)) h)
       (Sdk.serve_request (Sdk.mkServer core (Handshake.sdk_config cfg g token) (pf_capabilities pf) true) r)
       P (Some p)) →
  replied h r o reply res o' →
  ∃ a s, P a s ∧ o' = with_plug o ((plugin_environment,.) <$> s)
    ∧ match s with
      | Some _ => res = Done (server_error a.2) ∧ (a.2 = None → reply = a.1)
      | None => ∃ e, res = Done (Some e)
      end.
Proof.
  intros (p & Hp & Ha) HP. unfold replied. rewrite Hp.
  pose proof Ha as (d & Hd & [= ->]). cbn [pr_server]. intros (a & s & He & Ho & Hr).
  exists a, s. split; [|done]. eapply (wp_sound _ _ _ _ _ _ (wp_interp _ _ _ _ _ (HP _ Hp Ha))), He.
Qed.

Lemma start_capabilities_decided p c token w o :
  starting g w → pf_listening pf = true → pf_auth pf = None → in_place token true o →
  wp (start_capabilities cfg p c g) decided (w, o).
Proof.
  intros Hw Hl Ha Ho. unfold start_capabilities. apply system_log_seq, wp_bind.
  eapply system_call; [by apply (starting_fresh _ g)|]. intros reply res o' Hr.
  eapply (replied_served token true RCapabilities) in Hr as (a & s & HP & -> & Hres); [|done|].
  2:{ intros p' _ Hp'. by eapply Capabilities_profile. }
  destruct HP as [[v ->] Hs]. pose proof Hs as (d & Hd & ->). cbn in Hres. destruct Hres as [-> Hreply].
  rewrite (Hreply eq_refl). cbn [server_error]. apply (start_loaded_decided p c token); try done.
  by eexists.
Qed.

Lemma start_authenticate_decided p c token w o :
  starting g w → pf_listening pf = true → in_place token false o →
  wp (start_authenticate cfg p c g token) decided (w, o).
Proof.
  intros Hw Hl Ho. unfold start_authenticate. apply system_log_seq, wp_bind.
  eapply system_call; [by apply (starting_fresh _ g)|]. intros reply res o' Hr.
  eapply (replied_served token false (RAuth token)) in Hr as (a & s & HP & -> & Hres); [|done|].
  2:{ intros p' _ Hp'. by eapply Auth_profile. }
  rewrite bool_decide_eq_true_2 in HP by done.
  destruct (pf_auth pf) as [e|] eqn:Ea.
  { assert (¬ acceptable) as Hn by (intros (_ & Hn & _); congruence).
    destruct s as [s|]; [destruct Hres as [-> _]; rewrite HP|destruct Hres as [e' ->]];
      intros e1 s'; by apply refused. }
  destruct HP as [[v ->] Hs]. pose proof Hs as (d & Hd & ->). cbn in Hres. destruct Hres as [-> Hreply].
  rewrite (Hreply eq_refl). cbn [server_error fst snd fmap option_fmap option_map ar_PluginID ar_GenerationID].
  case_bool_decide as E1; cbn [negb]; [|apply refused; unfold acceptable; tauto].
  destruct (Z.eqb_spec (pf_generation pf) g) as [E2|E2]; cbn [negb];
    [|apply refused; unfold acceptable; tauto].
  apply system_log_seq, system_seq. intros rm w2 o2 Hm Hrm. apply removed_file in Hrm as ->.
  simpl in Hm. apply (start_capabilities_decided p c token); try done; [|by eexists].
  unfold starting in *. subst w2. by rewrite (same_m _ _ (removed_same _ _ _)).
Qed.

Lemma verifyPeerCred_passes c g1 w o :
  wp (verifyPeerCred cfg (Some c) (pid o) g1)
    (λ r s', r = None ∧ w_m s'.1 = w_m w ∧ s'.2 = o) (w, o).
Proof.
  unfold verifyPeerCred. apply wp_bind.
  apply (wp_mono _ _ (λ (r : result PeerCred) s',
    (∃ cred, r = Ok cred ∧ cred_PID cred = pid o) ∧ w_m s'.1 = w_m w ∧ s'.2 = o)).
  - unfold sys, ReadPeerCred. cbn [translate mbind prog_mbind prog_bind trigger].
    intros ty [w1 o1] [Hw1 [-> Ho1]]. rewrite bool_decide_eq_true_2 by done. cbn [negb translate].
    intros raw [w2 o2] [Hw2 [-> Ho2]]. intros ctl [w3 o3] [Hw3 [-> Ho3]].
    intros cred [w4 o4] [Hw4 [(cr & -> & Hpid) Ho4]].
    simpl in *. subst. cbn. split; [by exists cr|done].
  - intros r [w1 o1] ((cred & -> & Hpid) & Hm & Ho). rewrite (proj2 (Z.eqb_eq _ _) Hpid). cbn [negb].
    by apply system_log_seq.
Qed.

Lemma start_connect_decided p token w o :
  starting g w → in_place token false o → pid o = Pid p → ready o = w_now w + boot_time →
  wp (start_connect cfg p g token) decided (w, o).
Proof.
  intros Hw Ho Hpid Hready. unfold start_connect. apply wp_bind.
  eapply wp_mono; [apply dial_listens; unfold Millisecond in *; lia|]. intros d [w1 o1] [[Hm Ho1] Hd]. simpl in Hm, Ho1. subst o1.
  pose proof Ho as (pr & Hplug & dt & Hdt & [= ->]). unfold listens in Hd. rewrite Hplug in Hd. simpl in Hd.
  destruct d as [c|e].
  - apply wp_bind. rewrite <- Hpid. eapply wp_mono; [apply verifyPeerCred_passes|].
    intros r [w2 o2] (-> & Hm2 & Ho2). simpl in Hm2, Ho2. subst o2.
    apply (start_authenticate_decided p c token); try done. unfold starting in *. congruence.
  - apply wp_bind, wp_any. intros [] s'. split; [|done]. split; [done|]. intros (Hl & _). congruence.
Qed.

Lemma started_in_place token env now o p o' :
  cmd_Env env = plugin_environment → fs o = boot_files token →
  started (run_frame 0 core h failed build) boot_time env now o p o' →
  in_place token false o' ∧ pid o' = Pid p ∧ ready o' = now + boot_time.
Proof.
  intros Henv Hfs (out & s & He & ->). rewrite Henv, Hfs in He. split; [|done].
  eapply wp_sound in He; [|apply (run_frame_profile core h build _ _ (Handshake.sdk_config cfg g token) pf I)].
  - destruct He as [-> (d & Hd & ->)]. rewrite Henv. eexists. split; [done|]. by eexists.
  - eapply wp_mono; [apply (Handshake.LoadConfigFromEnv_reads cfg g token
      (kernel_env BehaviorConfigEnv) (kernel_env ShutdownMarkerEnv) (file_read (boot_files token)));
      [done|apply uint64_range| | |]|].
    + unfold file_read, boot_files. by rewrite lookup_insert_eq.
    + by intros name x s' (s1 & [-> ->] & ->).
    + by intros path x s' (s1 & [-> ->] & ->).
    + done.
Qed.

Lemma start_generation_decided w o :
  starting g w → fs o = fs o0 →
  wp (start_generation cfg g) decided (w, o).
Proof.
  intros Hw Hfs. unfold start_generation.
  apply system_seq. intros r1 w1 o1 Hw1 Ho1. apply removed_file in Ho1 as ->.
  apply system_seq. intros r2 w2 o2 Hw2 Ho2. apply removed_file in Ho2 as ->. cbn [fs plug ready pid].
  assert (starting g w2) as Hs2.
  { simpl in Hw1, Hw2. unfold starting in *. subst.
    by rewrite (same_m _ _ (removed_same _ _ _)), (same_m _ _ (removed_same _ _ _)). }
  apply system_log_seq, system_seq. intros rnd w3 o3 -> [[token ->] ->].
  apply system_seq. intros wr w4 o4 Hw4 [-> ->]. cbn [fs plug ready pid].
  assert (starting g w4) as Hs4 by (destruct Hw4 as [-> |[? _]]; done). clear Hw4.
  unfold start_spawn. apply system_seq. intros b w5 o5 -> [-> ->].
  apply system_seq. intros m w6 o6 -> [-> ->].
  apply system_seq. intros p w7 o7 Hw7 (p' & -> & Hst). simpl in Hw7. destruct Hw7 as [_ ->].
  eapply started_in_place in Hst as (Hin & Hpid & Hready); [|done|].
  - by apply start_connect_decided.
  - cbn [fs]. unfold boot_files. rewrite Hfs. by rewrite insert_delete_eq.
Qed.

Lemma startLocked_decided : idle w0 → wp (startLocked cfg) decided (w0, o0).
Proof.
  intros (Hc & Hp & Hcl). unfold startLocked. apply system_atomic_seq.
  destruct (begun_state cfg w0 Hc Hp Hcl) as [E Hst]. rewrite E. cbn [fst snd].
  apply start_generation_decided; [by apply Hst|done].
Qed.

(** The outcome, and what the start left. *)
Definition outcome (r : option error) (s : world * outside D) : Prop :=
  decided r s ∧ match r with
  | Some _ => start_reverted cfg w0 s.1
  | None => ∃ p c token env cred auth caps, start_done cfg p c token env cred auth caps w0 s.1
  end.

Lemma startLocked_outcome : idle w0 → fresh w0 → wp (startLocked cfg) outcome (w0, o0).
Proof.
  intros Hi Hf. apply (wp_conj step); [by apply startLocked_decided|].
  apply (system_manager _ _ _ _ (startLocked cfg) (λ r w, match r with
    | Some _ => start_reverted cfg w0 w
    | None => ∃ p c token env cred auth caps, start_done cfg p c token env cred auth caps w0 w end)).
  eapply wp_mono; [by apply startLocked_spec|].
  intros [e|] w'; [|done]. intros [[Hb ->]|Hr]; [|done]. destruct Hi as (E1 & E2 & E3).
  cbn [fst] in Hb. rewrite E1, E2, E3 in Hb. by destruct Hb as [?|[?|?]].
Qed.

Lemma Start_outcome : idle w0 → fresh w0 → wp (Start cfg) outcome (w0, o0).
Proof. intros Hi Hf. by apply system_lifecycle, startLocked_outcome. Qed.

(** *** The plugin in use *)

Lemma current_fresh c w :
  client (w_m w) = Some c → closed (w_m w) = false →
  stale_reply c (st_GenerationID (state (w_m w))) (rpcEpoch (w_m w)) (w_m w) = false.
Proof.
  intros Hc Ho. unfold stale_reply. rewrite Hc, Ho, !Z.eqb_refl, bool_decide_eq_true_2 by done.
  by rewrite andb_false_r.
Qed.

(** A request whose handler does not fail, to the plugin in place. *)
Lemma call_served {X} (r : request X) (P : X → Prop) c token w o :
  client (w_m w) = Some c → closed (w_m w) = false → in_place token true o →
  (∀ srv s, alive I srv true (pf_listening pf) s →
     Prog.wp (method_step plugin_environment (file_read (fs o)) h)
       (Sdk.serve_request (Sdk.mkServer core (Handshake.sdk_config cfg g token) (pf_capabilities pf) true) r)
       (λ a s', (P a.1 ∧ a.2 = None) ∧ alive I srv true (pf_listening pf) s') s) →
  wp (call cfg c (st_GenerationID (state (w_m w))) (rpcEpoch (w_m w)) r)
    (λ out s', (P out.1 ∧ out.2 = None) ∧ w_m s'.1 = w_m w ∧ in_place token true s'.2) (w, o).
Proof.
  intros Hc Hopen Ho HP. apply system_call; [by apply current_fresh|]. intros reply res o' Hr.
  eapply (replied_served token true r) in Hr as (a & s & Ha & -> & Hres); [|done|].
  2:{ intros p' _ Hp'. by apply HP. }
  destruct Ha as [[Ha Hok] (d & Hd & ->)]. rewrite Hok in Hres. destruct Hres as [-> Hreply].
  rewrite (Hreply eq_refl). split; [done|]. split; [done|]. eexists. split; [done|]. by eexists.
Qed.

Section Current.
Variables (c : rpcClient) (token : string) (w : world) (o : outside D).
Hypothesis client_c : client (w_m w) = Some c.
Hypothesis open : closed (w_m w) = false.
Hypothesis plugin_there : in_place token true o.

(** The plugin answers [r] without an error, as [P] says. *)
Definition serves {X} (r : request X) (P : X → Prop) : Prop :=
  ∀ srv s, alive I srv true (pf_listening pf) s →
    Prog.wp (method_step plugin_environment (file_read (fs o)) h)
      (Sdk.serve_request (Sdk.mkServer core (Handshake.sdk_config cfg g token) (pf_capabilities pf) true) r)
      (λ a s', (P a.1 ∧ a.2 = None) ∧ alive I srv true (pf_listening pf) s') s.

Lemma routed_served {X} (r : request X) P :
  serves r P →
  wp (routed cfg r) (λ x s', (∃ a, x = Ok a ∧ P a) ∧ w_m s'.1 = w_m w ∧ in_place token true s'.2) (w, o).
Proof.
  intros HP. unfold routed. apply system_read_seq. cbn [fst view view_closed view_client].
  rewrite open, client_c. apply wp_bind. eapply wp_mono; [by apply call_served|].
  intros [a e] [w1 o1] [[Ha He] [Hm Ho]]. simpl in He. subst e. split; [by exists a|done].
Qed.

Lemma Heartbeat_served P :
  serves RHeartbeat (λ a, P a ∧ hr_Status a = StatusHealthy) →
  wp (Heartbeat cfg) (λ x s', ((P x.1 ∧ hr_Status x.1 = StatusHealthy) ∧ x.2 = None)
    ∧ w_m s'.1 = {| (w_m w) with state := {| (state (w_m w)) with st_Healthy := true |} |}
    ∧ in_place token true s'.2) (w, o).
Proof.
  intros HP. unfold Heartbeat. apply system_read_seq. cbn [fst view view_closed view_client].
  rewrite open, client_c. apply wp_bind. eapply wp_mono; [by apply call_served|].
  intros [a e] [w1 o1] [[[Ha Hs] He] [Hm Ho]]. simpl in Hs, He, Hm, Ho. subst e. cbn beta iota.
  rewrite bool_decide_eq_true_2 by done. apply system_atomic_seq. unfold heartbeat_commit. rewrite Hm.
  cbn [view view_epoch view_generation]. rewrite client_c, open, !Z.eqb_refl, bool_decide_eq_true_2 by done.
  cbn [orb negb fst snd]. apply wp_bind.
  unfold heartbeat_report. cbn [negb]. destruct (st_Healthy _); cbn [negb].
  - split; [by split|]. split; [reflexivity|exact Ho].
  - intros [] [w2 o2] [Hw2 Ho2]. simpl in Hw2, Ho2. subst w2 o2.
    split; [by split|]. split; [reflexivity|exact Ho].
Qed.
End Current.
End Start.
