(* ===== verification/ExamplesFacts.v ===== *)
(** * The example plugins under supervision

    The echo plugin always starts and answers; the failing plugin starts if
    and only if its configured behaviour has no startup fault.  Both keep the
    laws of PluginProc, so the theorems of Supervised apply. *)

From Stdlib Require Import SpecFloat.
From S2P Require Import Prelude Prog GoText GoPath PluginID Auth Runtime Bundle EventLog PluginApi Manager ManagerWorld ManagerFacts ManagerProps ManagerDemo.
From S2P Require Sdk Handshake.
From S2P Require Import Examples PluginProc Supervised.

Section Methods.
Context {D : Type}.
Variables (env : list string) (files : string → result string) (h : handler D).

(** A single call of the SDK, by the program of the method. *)
Lemma method_spec {X} (e : Sdk.sdkE X) Q s :
  wp (plugin_step env files) (h X e) Q s → wp (method_step env files h) (trigger e) Q s.
Proof. intros Hp x s' He. exact (wp_sound _ _ _ _ _ _ Hp He). Qed.

(** Reading the object. *)
Lemma load_seq {A} (k : D → prog (pluginE D) A) Q p d :
  pr_object p = Some d → wp (plugin_step env files) (k d) Q (Some p) →
  wp (plugin_step env files) (trigger PLoad ≫= k) Q (Some p).
Proof. intros Hd Hk. apply wp_trigger_seq. intros x s' [Hx ->]. rewrite Hd in Hx. simpl in Hx. by subst. Qed.
End Methods.

(** ** The environment of a plugin *)
Section Environment.
Context `{UnicodeTables}.
Variables (cfg : Config) (g : Z) (behaviorPath marker : string).
Notation env := (Handshake.spawn_env cfg g behaviorPath marker).

Lemma env_behavior : Handshake.env_get env BehaviorConfigEnv = behaviorPath.
Proof.
  unfold Handshake.spawn_env. rewrite Handshake.env_append_env by (right; reflexivity).
  unfold append_env. case_bool_decide as Hb; [by rewrite Hb|].
  unfold Handshake.env_get. rewrite omap_app.
  change (omap (Handshake.strip_prefix (BehaviorConfigEnv +:+ "=")) (plugin_env cfg g)) with (@nil string).
  cbn [app omap list_omap head]. by rewrite <- sapp_assoc, Handshake.strip_prefix_app.
Qed.

(** Nothing is inherited: the legacy controls are unset. *)
Lemma env_legacy name : Handshake.env_get env (behavior_key name) = "".
Proof.
  unfold Handshake.spawn_env, behavior_key.
  rewrite !Handshake.env_append_env by (right; reflexivity). reflexivity.
Qed.
End Environment.

(** ** The echo plugin *)
Section EchoPlugin.
Context `{UnicodeTables}.
Variables (id : string) (g : Z).

(** The object belongs to the plugin and generation it was started for. *)
Definition echo_object (d : echoPlugin) : Prop :=
  Sdk.tp_PluginID (ep_Template d) = id ∧ Sdk.tp_GenerationID (ep_Template d) = g.

Definition echo_profile : Profile :=
  mkProfile None id g ["heartbeat"; "shutdown"; "echo"; "sleep"; "crash"] true.

Lemma echo_laws env files cfg :
  Sdk.sc_PluginID cfg = id → Sdk.sc_GenerationID cfg = g →
  PluginLaws echo_core echo_methods echo_build env files cfg echo_profile echo_object.
Proof.
  intros Hid Hg. constructor.
  - by intros X [].
  - unfold echo_build. apply wp_trigger_seq. intros r s (s1 & -> & ->).
    apply wp_trigger_seq. intros now s ->. intros [] s ->.
    eexists. split; [|done]. by split.
  - intros now_files srv used listening s (d & Hd & ->). apply method_spec. simpl.
    intros x s [_ ->]. by exists d.
  - by intros now_files token srv used listening s Hs.
  - intros now_files caps logger srv used listening s Hs. simpl. by rewrite Hid, Hg.
  - by intros now_files srv used listening s Hs.
  - by intros now_files srv used s Hs.
Qed.
End EchoPlugin.

(** *** The whole of it *)
Section EchoServes.
Context `{UnicodeTables}.
Variables (kernel_env : string → string) (boot_time : Z) (cfg : Config) (w : world) (o : outside echoPlugin).
Hypothesis id_ok : valid_id (PluginID cfg) = true.
Hypothesis boot_in_time : 0 <= boot_time ∧ boot_time + 50 * Millisecond <= DialTimeout cfg.

Notation g := (next_generation w).
Notation wp := (wp (system_step echo_methods (echo_run 0) kernel_env boot_time)).
Notation there := (in_place echo_core kernel_env cfg (echo_profile (PluginID cfg) g)
                     (echo_object (PluginID cfg) g) w).

#[local] Instance laws token : PluginLaws echo_core echo_methods echo_build
  (plugin_environment kernel_env cfg w) (file_read (boot_files cfg o token))
  (Handshake.sdk_config cfg g token) (echo_profile (PluginID cfg) g) (echo_object (PluginID cfg) g).
Proof. by apply echo_laws. Qed.

Lemma echo_acceptable : acceptable cfg (echo_profile (PluginID cfg) g) w.
Proof. unfold acceptable. split_and!; [done..|]. by apply (bool_decide_unpack _). Qed.

(** The state of a plugin that serves. *)
Definition up_and_healthy (m : Manager) : Prop :=
  is_Some (client m) ∧ closed m = false ∧ st_Healthy (state m) = true ∧ st_PluginID (state m) = PluginID cfg
  ∧ st_GenerationID (state m) = g
  ∧ st_Capabilities (state m) = ["heartbeat"; "shutdown"; "echo"; "sleep"; "crash"].

Lemma echo_starts :
  idle w → fresh w → 0 <= st_GenerationID (state (w_m w)) < two64 →
  wp (Start cfg) (λ r s, r = None ∧ up_and_healthy (w_m s.1) ∧ ∃ token, there token true s.2) (w, o).
Proof.
  intros Hi Hf Hg.
  eapply wp_mono; [eapply (Start_outcome echo_core echo_methods echo_build); eauto using laws|].
  intros r [w1 o1] [[Hiff Hin] Hr].
  assert (r = None) as -> by apply Hiff, echo_acceptable.
  destruct (Hin eq_refl) as [Hcaps Hthere]. split; [done|]. split; [|done].
  destruct Hr as (p & c & token & env & cred & auth & caps & [_ (_ & _ & Hid & Hgen & _) _ _ Hm _ _ _ _ _ _ _]).
  cbn [fst] in *. rewrite Hm in *. destruct Hi as (Hc & _). by repeat split.
Qed.

(** What its methods answer, behind the server. *)
Lemma echo_serves_echo token message o1 :
  serves echo_core echo_methods kernel_env cfg (echo_profile (PluginID cfg) g)
    (echo_object (PluginID cfg) g) w token o1 (REcho message) (λ m, m = message).
Proof.
  intros srv s Hs. unfold Sdk.serve_request, Sdk.Echo.
  eapply logged_profile; [apply (laws token)|exact Hs|]. intros s1 Hs1. by eapply (method_spec _ _ _ (Sdk.CoreEcho message)).
Qed.

Lemma echo_serves_heartbeat token o1 :
  serves echo_core echo_methods kernel_env cfg (echo_profile (PluginID cfg) g)
    (echo_object (PluginID cfg) g) w token o1 RHeartbeat
    (λ a, (hr_PluginID a = PluginID cfg ∧ hr_GenerationID a = g) ∧ hr_Status a = StatusHealthy).
Proof.
  intros srv s Hs. unfold Sdk.serve_request, Sdk.Heartbeat.
  eapply (wp_mono _ _ (λ a s', (((hr_PluginID a.1 = PluginID cfg ∧ hr_GenerationID a.1 = g)
    ∧ hr_Status a.1 = StatusHealthy) ∧ a.2 = None) ∧ _ s')); [|done].
  eapply logged_profile; [apply (laws token)|exact Hs|]. intros s1 (d & (Hid & Hg) & ->).
  apply (method_spec _ _ _ Sdk.CoreHeartbeat). simpl. intros d' s2 [-> ->] now s3 ->.
  split; [done|]. by exists d.
Qed.

(** C16. The whole path works.  On a machine where nothing fails, a manager that
    starts the echo plugin gets it authenticated and healthy, with the plugin
    id, the new generation and the five capabilities it has; an echo then
    answers the message, and a heartbeat reports that plugin and generation as
    healthy.  The manager, the SDK and the plugin are all the code's. *)
Theorem echo_serves message :
  idle w → fresh w → 0 <= st_GenerationID (state (w_m w)) < two64 →
  wp (r ← Start cfg; e ← Manager_Echo cfg message; hb ← Heartbeat cfg; Ret (r, e, hb))
    (λ out s, let '(r, e, hb) := out in
       r = None ∧ e = Ok message ∧ hb.2 = None
       ∧ hr_PluginID hb.1 = PluginID cfg ∧ hr_GenerationID hb.1 = g ∧ hr_Status hb.1 = StatusHealthy
       ∧ up_and_healthy (w_m s.1)) (w, o).
Proof.
  intros Hi Hf Hg. apply wp_bind. eapply wp_mono; [by apply echo_starts|].
  intros r [w1 o1] (-> & Hup & token & Hthere). pose proof Hup as ([c Hc] & Hopen & _).
  apply wp_bind. unfold Manager_Echo.
  eapply wp_mono; [eapply (routed_served echo_core echo_methods echo_build);
    eauto using laws, echo_serves_echo|].
  intros e [w2 o2] ((m & -> & ->) & Hm & Ho). cbn [fst snd] in Hm, Ho, Hup, Hc, Hopen.
  rewrite <- Hm in Hup, Hc, Hopen. apply wp_bind.
  eapply wp_mono; [eapply (Heartbeat_served echo_core echo_methods echo_build);
    [eauto using laws..|apply echo_serves_heartbeat]|].
  intros hb [w3 o3] ((((Hid & Hgen) & Hst) & Hhb) & Hm3 & _). cbn [fst snd] in Hm3.
  do 6 (split; [done|]). cbn [fst snd]. rewrite Hm3.
  destruct Hup as (_ & _ & _ & H1 & H2 & H3). by repeat split.
Qed.
End EchoServes.

(** ** The failing plugin *)

(** What LoadEnv reads in the environment the kernel gives a plugin. *)
Definition behavior0 : Env :=
  mkEnv "" "0.1.0" 0 "normal" StatusHealthy 0 0 (float64 1) false 50 false false false.

(** The behaviour found at [path]. *)
Definition behavior_at (json_behavior : string → option Env) (files : string → result string)
    (path : string) : Env :=
  if bool_decide (path = "") then behavior0
  else match to_option (files path) ≫= json_behavior with
       | Some b => behavior_defaults b
       | None => behavior0
       end.

Section Behavior.
Context `{UnicodeTables} {D : Type}.
Variables (json_behavior : string → option Env) (ParseFloat : string → option spec_float).
Variables (cfg : Config) (g : Z) (behaviorPath marker : string) (files : string → result string).
Notation env := (Handshake.spawn_env cfg g behaviorPath marker).
Notation wp := (wp (plugin_step (D := D) env files)).

Lemma getenv_seq {A} key (k : string → prog (pluginE D) A) Q p :
  wp (k (Handshake.env_get env key)) Q (Some p) → wp (getenv key ≫= k) Q (Some p).
Proof. intros Hk. apply wp_trigger_seq. intros x s' (s1 & [-> ->] & ->). done. Qed.

Lemma legacy_default {A} name fallback (k : string → prog (pluginE D) A) Q p :
  wp (k fallback) Q (Some p) → wp (getenvDefault (behavior_key name) fallback ≫= k) Q (Some p).
Proof.
  intros Hk. apply wp_bind. unfold getenvDefault. apply getenv_seq. by rewrite env_legacy.
Qed.

Lemma legacy_parsed {A B} (parse : string → option B) name fallback (k : B → prog (pluginE D) A) Q p :
  wp (k fallback) Q (Some p) → wp (getenv_parsed parse (behavior_key name) fallback ≫= k) Q (Some p).
Proof.
  intros Hk. apply wp_bind. unfold getenv_parsed. apply getenv_seq. by rewrite env_legacy.
Qed.

(** The legacy controls never reach a plugin. *)
Lemma LoadEnv_legacy p :
  wp (LoadEnv ParseFloat) (λ b s, b = behavior0 ∧ s = Some p) (Some p).
Proof.
  unfold LoadEnv, getenvInt64, getenvFloat64, getenvBool.
  repeat first [apply legacy_default|apply legacy_parsed]. done.
Qed.

Lemma LoadConfig_reads p :
  wp (LoadConfig json_behavior ParseFloat)
    (λ b s, b = behavior_at json_behavior files behaviorPath ∧ s = Some p) (Some p).
Proof.
  unfold LoadConfig, behavior_at. apply getenv_seq. rewrite env_behavior.
  case_bool_decide; [apply LoadEnv_legacy|].
  apply wp_trigger_seq. intros x s' (s1 & [-> ->] & ->).
  destruct (to_option (files behaviorPath) ≫= json_behavior); [done|apply LoadEnv_legacy].
Qed.
End Behavior.

(** ** A behaviour that is written is the one the plugin reads *)
Section Written.
Context {D : Type} `{UnicodeTables}.
Variables (json_behavior : string → option Env) (json_marshal : Env → result string).

(** The disk of the process that writes: a write that fails leaves anything at
    its path. *)
Definition disk_step (X : Type) (e : pluginE D X) : gmap string string → X → gmap string string → Prop :=
  match e in pluginE _ X return gmap string string → X → gmap string string → Prop with
  | PWriteFile path data => λ fs x fs',
      if x is None then fs' = <[path := data]> fs else delete path fs' = delete path fs
  | _ => λ fs _ fs', fs' = fs
  end.

(** The decoder inverts the encoder, for the values that have a JSON form. *)
Hypothesis json_round : ∀ b data, json_marshal b = Ok data → json_behavior data = Some b.

Lemma WriteConfig_spec path b fs :
  path ≠ "" →
  Prog.wp disk_step (WriteConfig (D := D) json_marshal path b) (λ r fs', delete path fs' = delete path fs ∧
    match r with
    | None => behavior_at json_behavior (file_read fs') path = behavior_defaults b
    | Some e => ∃ e0, e = errors_Wrap "marshal behavior config" e0 ∧ json_marshal b = Err e0 ∧ fs' = fs
                      ∨ e = errors_Wrap "write behavior config" e0
    end) fs.
Proof.
  intros Hpath. unfold WriteConfig. destruct (json_marshal b) as [data|e0] eqn:Eb.
  2:{ split; [done|]. exists e0. by left. }
  apply wp_trigger_seq. intros [e0|] fs' Hw; cbn in Hw |- *; [split; [done|]; exists e0; by right|]. subst fs'.
  split; [by rewrite delete_insert_eq|].
  unfold behavior_at, file_read. rewrite bool_decide_eq_false_2, lookup_insert by done.
  rewrite decide_True by done. cbn. by rewrite (json_round _ _ Eb).
Qed.
End Written.

(** What is filled in changes no startup fault. *)
Lemma behavior_defaults_faults b :
  let b' := behavior_defaults b in
  be_FailAuth b' = be_FailAuth b ∧ be_CloseOnAccept b' = be_CloseOnAccept b
  ∧ be_PluginID b' = be_PluginID b ∧ be_GenerationOffset b' = be_GenerationOffset b
  ∧ be_CapabilitiesMode b' = be_CapabilitiesMode b.
Proof.
  unfold behavior_defaults. repeat (case_bool_decide || destruct (SFeqb _ _)); done.
Qed.

Section FailurePlugin.
Context `{UnicodeTables}.
Variables (out_of_range : spec_float → Z) (json_behavior : string → option Env).
Variable ParseFloat : string → option spec_float.
Variables (id : string) (g : Z) (b : Env).

Definition failure_object (d : failurePlugin) : Prop :=
  fp_pluginID d = id ∧ fp_generationID d = g ∧ fp_behavior d = b.

(** An object as it is allocated. *)
Definition failure_sample : failurePlugin := mkFailurePlugin id (be_Version b) g 0 b false.

Definition failure_profile : Profile :=
  mkProfile (fail_if be_FailAuth b with_error errors_New "auth failure requested")
    (reported_id failure_sample) (reported_generation failure_sample)
    (if bool_decide (be_CapabilitiesMode b = "error") then ["__capabilities_error__"]
     else if bool_decide (be_CapabilitiesMode b = "empty") then []
     else ["heartbeat"; "shutdown"; "echo"; "sleep"; "crash"])
    (negb (be_CloseOnAccept b)).

Lemma reported_object d :
  failure_object d → reported_id d = pf_id failure_profile
  ∧ reported_generation d = pf_generation failure_profile.
Proof.
  intros (E1 & E2 & E3). simpl. unfold reported_id, reported_generation.
  by rewrite E1, E2, E3.
Qed.

Lemma failure_laws scfg mcfg behaviorPath marker files :
  Sdk.sc_PluginID scfg = id → Sdk.sc_GenerationID scfg = g →
  behavior_at json_behavior files behaviorPath = b →
  PluginLaws failure_core (failure_methods out_of_range) (failure_build json_behavior ParseFloat)
    (Handshake.spawn_env mcfg g behaviorPath marker) files scfg failure_profile failure_object.
Proof.
  intros Hid Hg Hb. constructor.
  - by intros X [].
  - unfold failure_build. apply wp_bind. eapply wp_mono; [apply LoadConfig_reads|].
    intros b' s [-> ->]. rewrite Hb. apply wp_trigger_seq. intros r s (s1 & -> & ->).
    apply wp_trigger_seq. intros now s ->. intros [] s ->. eexists. split; [|done]. done.
  - intros now_files srv used listening s (d & Hd & ->). apply method_spec. simpl.
    intros x s [_ ->]. by exists d.
  - intros now_files token srv used listening s (d & Hd & ->).
    apply (method_spec _ _ _ (Sdk.OnAuthAttempt token)). simpl. intros x s [-> ->].
    pose proof Hd as (_ & _ & Hbd). rewrite Hbd. split; [done|]. by exists d.
  - intros now_files caps logger srv used listening s (d & Hd & ->).
    apply (method_spec _ _ _ Sdk.CoreIdentity). simpl. intros x s [-> ->].
    destruct (reported_object d Hd) as [-> ->]. split; [done|]. by exists d.
  - intros now_files srv used listening s (d & Hd & ->).
    apply (method_spec _ _ _ Sdk.CoreCapabilities). simpl. intros x s [-> ->].
    pose proof Hd as (_ & _ & Hbd). rewrite Hbd. split; [done|]. by exists d.
  - intros now_files srv used s (d & Hd & ->).
    apply (method_spec _ _ _ Sdk.OnServeListener). simpl. intros [] s1 -> x s2 [-> ->].
    pose proof Hd as (_ & _ & Hbd). cbn. rewrite Hbd. destruct (be_CloseOnAccept b); simpl.
    + intros _ s3 ->. eexists. split; [|reflexivity]. by destruct Hd as (? & ? & _).
    + eexists. split; [|reflexivity]. by destruct Hd as (? & ? & _).
Qed.
End FailurePlugin.

(** A behaviour without a startup fault, for the plugin [id]. *)
Definition startable (id : string) (b : Env) : Prop :=
  be_FailAuth b = false ∧ be_CloseOnAccept b = false
  ∧ (be_PluginID b = "" ∨ be_PluginID b = id)
  ∧ be_GenerationOffset b mod two64 = 0
  ∧ be_CapabilitiesMode b ≠ "error".

Lemma uint64_int64 z : uint64 (int64 z) = uint64 z.
Proof.
  unfold uint64, int64. pose proof (Z.mod_pos_bound z two64 eq_refl).
  destruct (_ <? _).
  - by apply Z.mod_mod.
  - replace (z mod two64 - two64) with (z mod two64 + (-1) * two64) by lia.
    rewrite Z.mod_add by done. by apply Z.mod_mod.
Qed.

(** The reported generation is the right one when the offset is none. *)
Lemma reported_generation_offset g off :
  0 <= g < two64 → uint64 (int64 (int64 g + off)) = g ↔ off mod two64 = 0.
Proof.
  intros Hg. rewrite uint64_int64.
  assert (uint64 (int64 g + off) = uint64 (g + off)) as ->.
  { unfold uint64. rewrite Z.add_mod, (Z.add_mod g off) by done. f_equal. f_equal.
    change (uint64 (int64 g) = uint64 g). apply uint64_int64. }
  unfold uint64. pose proof (Z.div_mod (g + off) two64 ltac:(done)).
  pose proof (Z.div_mod off two64 ltac:(done)). pose proof (Z.mod_pos_bound off two64 eq_refl).
  pose proof (Z.mod_pos_bound (g + off) two64 eq_refl). unfold two64 in *. split; intros E.
  - rewrite E in *. nia.
  - rewrite E in *. nia.
Qed.

Lemma startable_acceptable cfg w b :
  acceptable cfg (failure_profile (PluginID cfg) (next_generation w) b) w ↔ startable (PluginID cfg) b.
Proof.
  unfold acceptable, startable. cbn [failure_profile pf_listening pf_auth pf_id pf_generation pf_capabilities].
  unfold reported_generation, reported_id. cbn [failure_sample fp_behavior
    fp_generationID fp_pluginID].
  rewrite (reported_generation_offset (next_generation w)) by apply uint64_range.
  assert (negb (be_CloseOnAccept b) = true ↔ be_CloseOnAccept b = false) as -> by by destruct (be_CloseOnAccept b).
  assert ((fail_if be_FailAuth b with_error errors_New "auth failure requested") = None ↔ be_FailAuth b = false)
    as -> by by destruct (be_FailAuth b).
  assert ((if bool_decide (be_PluginID b = "") then PluginID cfg else be_PluginID b) = PluginID cfg
    ↔ be_PluginID b = "" ∨ be_PluginID b = PluginID cfg) as -> by (case_bool_decide; naive_solver).
  assert ("__capabilities_error__" ∉ (if bool_decide (be_CapabilitiesMode b = "error") then ["__capabilities_error__"]
     else if bool_decide (be_CapabilitiesMode b = "empty") then []
     else ["heartbeat"; "shutdown"; "echo"; "sleep"; "crash"]) ↔ be_CapabilitiesMode b ≠ "error") as ->; [|tauto].
  case_bool_decide as E1; [set_solver|]. split; [done|]. intros _.
  case_bool_decide; by apply (bool_decide_unpack _).
Qed.

Lemma startable_defaults id b : startable id (behavior_defaults b) ↔ startable id b.
Proof. unfold startable. by destruct (behavior_defaults_faults b) as (-> & -> & -> & -> & ->). Qed.

Section FailureDetected.
Context `{UnicodeTables}.
Variables (out_of_range : spec_float → Z) (json_behavior : string → option Env).
Variable ParseFloat : string → option spec_float.
Variables (kernel_env : string → string) (boot_time : Z) (cfg : Config) (w : world).
Variable o : outside failurePlugin.

(** C18. The kernel detects exactly the startup faults.  A start of the failing
    plugin succeeds if and only if its configured behaviour, read by the plugin
    from the file the kernel names, rejects no authentication, keeps the
    listener open, reports the plugin's own id and generation and does not ask
    for a capabilities failure; and a start that fails is undone. *)
Theorem startup_faults_detected :
  valid_id (PluginID cfg) = true →
  0 <= boot_time ∧ boot_time + 50 * Millisecond <= DialTimeout cfg →
  kernel_env BehaviorConfigEnv ∉ [authPath cfg; socketPath cfg] →
  idle w → fresh w → 0 <= st_GenerationID (state (w_m w)) < two64 →
  wp (system_step (failure_methods out_of_range) (failure_run out_of_range json_behavior ParseFloat 0)
        kernel_env boot_time) (Start cfg)
    (λ r s, (r = None ↔ startable (PluginID cfg)
                          (behavior_at json_behavior (file_read (fs o)) (kernel_env BehaviorConfigEnv)))
       ∧ match r with
         | Some _ => start_reverted cfg w s.1
         | None => st_Healthy (state (w_m s.1)) = true
         end) (w, o).
Proof.
  intros Hid Hboot Hpath Hi Hf Hg. set (b := behavior_at _ _ _).
  assert (∀ token, PluginLaws failure_core (failure_methods out_of_range)
    (failure_build json_behavior ParseFloat) (plugin_environment kernel_env cfg w)
    (file_read (boot_files cfg o token)) (Handshake.sdk_config cfg (next_generation w) token)
    (failure_profile (PluginID cfg) (next_generation w) b)
    (failure_object (PluginID cfg) (next_generation w) b)) as Hlaws.
  { intros token. apply failure_laws; [reflexivity..|]. subst b. unfold behavior_at, file_read, boot_files.
    by rewrite lookup_insert_ne, lookup_delete_ne by set_solver. }
  eapply wp_mono; [exact (Start_outcome _ _ _ "failure plugin serve failed" kernel_env boot_time cfg _ _ w o
    Hlaws Hid Hg Hboot Hi Hf)|].
  intros r [w1 o1] [[Hiff _] Hr]. rewrite startable_acceptable in Hiff. split; [exact Hiff|].
  destruct r; [exact Hr|]. destruct Hr as (p & c & token & env & cred & auth & caps & []).
  by rewrite done_m.
Qed.
End FailureDetected.

(** ** Runs *)
#[local] Existing Instance ascii_tables.
#[local] Instance echo_inhabited : Inhabited echoPlugin :=
  populate (mkEchoPlugin (Sdk.mkTemplatePlugin "" 0 "" 0)).
#[local] Instance failure_inhabited : Inhabited failurePlugin :=
  populate (mkFailurePlugin "" "" 0 0 behavior0 false).

Definition outside0 {D} (files : gmap string string) : outside D := mkOutside files None 0 0.

Lemma demo_in_time :
  0 <= 100 * Millisecond ∧ 100 * Millisecond + 50 * Millisecond <= DialTimeout demo_cfg.
Proof. split; by apply Z.leb_le. Qed.

(** A run exists, and every run ends well. *)
Lemma echo_serves_witness :
  ∃ r e hb s,
    exec (system_step echo_methods (echo_run 0) (λ _, "") (100 * Millisecond))
      (r ← Start demo_cfg; e ← Manager_Echo demo_cfg "hello"; hb ← Heartbeat demo_cfg; Ret (r, e, hb))
      (world0, outside0 ∅) (r, e, hb) s
    ∧ r = None ∧ e = Ok "hello" ∧ hr_GenerationID hb.1 = 1 ∧ st_Healthy (state (w_m s.1)) = true.
Proof.
  destruct (system_runs echo_methods (echo_run 0) (λ _, "") (100 * Millisecond)
    (r ← Start demo_cfg; e ← Manager_Echo demo_cfg "hello"; hb ← Heartbeat demo_cfg; Ret (r, e, hb))
    (world0, outside0 ∅)) as ([[r e] hb] & s & He).
  exists r, e, hb, s. split; [exact He|].
  destruct (wp_sound _ _ _ _ _ _ (echo_serves (λ _, "") (100 * Millisecond) demo_cfg world0 (outside0 ∅)
    eq_refl demo_in_time "hello"
    (conj eq_refl (conj eq_refl eq_refl)) (inv_fresh _ _ (Inv_world0 demo_cfg))
    (inv_generation _ _ (Inv_world0 demo_cfg))) He) as (H1 & H2 & _ & _ & H3 & _ & (_ & _ & H4 & _)).
  split; [exact H1|]. split; [exact H2|]. split; [rewrite H3; reflexivity|exact H4].
Defined.

(** A behaviour file that asks for an authentication failure. *)
Definition demo_json (data : string) : option Env :=
  if bool_decide (data = "fail_auth") then Some {| behavior0 with be_FailAuth := true |} else None.
Definition demo_env (name : string) : string :=
  if bool_decide (name = BehaviorConfigEnv) then "/tmp/behavior.json" else "".
Definition demo_files : gmap string string := {["/tmp/behavior.json" := "fail_auth"]}.

Definition demo_failure_step (env : string → string) :=
  system_step (failure_methods (λ _, 0)) (failure_run (λ _, 0) demo_json (λ _, None) 0) env (100 * Millisecond).

(** It is detected in every run; without the file the same plugin starts. *)
Lemma startup_faults_detected_witness :
  (∃ r s, exec (demo_failure_step demo_env) (Start demo_cfg) (world0, outside0 demo_files) r s
     ∧ r ≠ None ∧ start_reverted demo_cfg world0 s.1)
  ∧ ∃ r s, exec (demo_failure_step (λ _, "")) (Start demo_cfg) (world0, outside0 demo_files) r s ∧ r = None.
Proof.
  assert (∀ env, env BehaviorConfigEnv ∉ [authPath demo_cfg; socketPath demo_cfg] →
    ∃ r s, exec (demo_failure_step env) (Start demo_cfg) (world0, outside0 demo_files) r s
    ∧ (r = None ↔ startable "echo" (behavior_at demo_json (file_read demo_files) (env BehaviorConfigEnv)))
    ∧ match r with
      | Some _ => start_reverted demo_cfg world0 s.1
      | None => st_Healthy (state (w_m s.1)) = true
      end) as Hall.
  { intros env Hpath. unfold demo_failure_step.
    destruct (system_runs (failure_methods (λ _, 0)) (failure_run (λ _, 0) demo_json (λ _, None) 0) env
      (100 * Millisecond) (Start demo_cfg) (world0, outside0 demo_files)) as (r & s & He).
    exists r, s. split; [exact He|].
    exact (wp_sound _ _ _ _ _ _ (startup_faults_detected (λ _, 0) demo_json (λ _, None) env
      (100 * Millisecond) demo_cfg world0 (outside0 demo_files) eq_refl demo_in_time Hpath
      (conj eq_refl (conj eq_refl eq_refl)) (inv_fresh _ _ (Inv_world0 demo_cfg))
      (inv_generation _ _ (Inv_world0 demo_cfg))) He). }
  split.
  - destruct (Hall demo_env) as (r & s & He & Hiff & Hr); [by apply (bool_decide_unpack _)|].
    exists r, s. split; [exact He|].
    assert (r ≠ None) as Hn by (intros E; apply Hiff in E as [E _]; vm_compute in E; discriminate E).
    split; [exact Hn|]. destruct r; [exact Hr|by destruct Hn].
  - destruct (Hall (λ _, "")) as (r & s & He & Hiff & _); [by apply (bool_decide_unpack _)|].
    exists r, s. split; [exact He|]. apply Hiff. unfold startable. repeat split; try reflexivity; [by left|done].
Defined.
