(* ===== verification/Recovery.v ===== *)
(** * Recovery of a plugin that died

    On the machine of file Supervised a stop always succeeds, so that a restart
    is decided by the plugin's profile as a start is, and the monitor brings a
    plugin that died, or whose connection was given up, back at its next tick;
    a plugin that is well it leaves alone. *)

From S2P Require Import Prelude Prog GoText GoPath PluginID Auth Runtime Bundle EventLog PluginApi Manager ManagerWorld ManagerFacts ManagerProps.
From S2P Require Sdk Handshake.
From S2P Require Import Examples PluginProc Supervised ExamplesFacts ManagerDemo.

(** ** One manager alone: what a call and a heartbeat leave of it *)
Section Alone.
Context `{UnicodeTables}.
Variable cfg : Config.

(** The manager of [w'] is that of [w], or [w]'s with its client detached. *)
Definition maybe_detached (w w' : world) : Prop :=
  w_m w' = w_m w ∨ ∃ c, w_m w' = (detach_client c (w_m w)).2.

Lemma detached_kept w w' :
  maybe_detached w w' →
  closed (w_m w') = closed (w_m w) ∧ closedCh (w_m w') = closedCh (w_m w)
  ∧ st_GenerationID (state (w_m w')) = st_GenerationID (state (w_m w)).
Proof. intros [-> |[c ->]]; [done|]. unfold detach_client. simpl. by case_bool_decide. Qed.

Lemma call_detached {X} c g epoch (args : request X) w :
  wp mgr_step (call cfg c g epoch args) (λ _, maybe_detached w) w.
Proof.
  apply call_spec. intros reply res w1. split; [intros; by left|]. intros e _. split; [by left|].
  intros _. right. by exists c.
Qed.
End Alone.

Section System.
Context `{UnicodeTables} {D : Type}.
Variable h : handler D.
Variable boot : prog (pluginE D) (option (option error)).
Variable kernel_env : string → string.
Variable boot_time : Z.
Variable cfg : Config.

Implicit Type o : outside D.
Notation wp := (wp (system_step h boot kernel_env boot_time)).

(** ** A stop succeeds *)

Lemma stop_process_returns i reason p s : wp (stop_process cfg i reason p) (λ r _, r = None) s.
Proof.
  destruct s as [w o]. unfold stop_process. apply system_seq. intros [r|] w1 o1 _ Hr; simpl in Hr.
  - destruct Hr as [-> _]. unfold stop_finished. apply system_log_seq. by apply wp_bind, wp_any.
  - apply system_seq. intros k w2 o2 _ [-> _]. apply system_seq. intros r w3 o3 _ [-> _].
    apply system_log_seq. by apply wp_bind, wp_any.
Qed.

Lemma stopCurrent_returns markClosed reason w o :
  closed (w_m w) = false → wp (stopCurrent cfg markClosed reason) (λ r _, r = None) (w, o).
Proof.
  intros Hc. unfold stopCurrent. apply system_atomic_seq. unfold stop_begin. rewrite Hc. cbn [fst snd].
  apply system_log_seq, wp_bind, wp_any. intros [] s.
  cbn [stop_cmd]. destruct (cmd (w_m w)) as [p|]; [by apply stop_process_returns|].
  unfold stop_finished. apply system_log_seq. by apply wp_bind, wp_any.
Qed.

Lemma stopCurrent_stops markClosed reason w o :
  closed (w_m w) = false →
  wp (stopCurrent cfg markClosed reason) (λ r s, r = None ∧ stop_done cfg markClosed None w s.1) (w, o).
Proof.
  intros Hc. eapply wp_mono; [apply (wp_conj (system_step h boot kernel_env boot_time))|].
  - by apply stopCurrent_returns.
  - apply (system_manager _ _ _ _ (stopCurrent cfg markClosed reason) (λ r w', if closed (w_m w)
      then r = Some (errors_New "manager closed") ∧ w' = w else stop_done cfg markClosed r w w')).
    apply stopCurrent_spec.
  - cbn beta. rewrite Hc. by intros r s [-> Hs].
Qed.

(** ** A heartbeat to a plugin that is gone *)

(** The plugin's process has ended, or the manager has given up on it. *)
Definition gone (w : world) (o : outside D) : Prop := plug o = None ∨ client (w_m w) = None.

Lemma call_gone {X} c g epoch (args : request X) w o :
  plug o = None → wp (call cfg c g epoch args) (λ out _, is_Some out.2) (w, o).
Proof.
  intros Ho. unfold call. apply system_read_seq, system_log_seq, system_seq.
  intros [reply res] w1 o1 _ Hr. unfold fair, replied in Hr. rewrite Ho in Hr.
  cbn [fst snd] in Hr. destruct Hr as [[e ->] ->].
  apply wp_bind, wp_any. intros [] s. apply system_log_seq. by exists e.
Qed.

Lemma Heartbeat_gone w o :
  gone w o → closed (w_m w) = false →
  wp (Heartbeat cfg) (λ out s, is_Some out.2 ∧ maybe_detached w s.1) (w, o).
Proof.
  intros Hgone Hc. unfold Heartbeat. apply system_read_seq. cbn [fst view view_closed view_client]. rewrite Hc.
  destruct (client (w_m w)) as [c|] eqn:Hcl; [|by split; [|left]].
  destruct Hgone as [Ho|Hn]; [|congruence]. apply wp_bind.
  eapply wp_mono; [apply (wp_conj (system_step h boot kernel_env boot_time)); [by apply call_gone|]|].
  - apply (system_manager _ _ _ _ _ (λ _, maybe_detached w)), call_detached.
  - intros [out e] [w1 o1] [[e' He] Hd]. simpl in He, Hd. subst e.
    apply system_log_seq. split; [by exists e'|done].
Qed.
End System.

(** ** A restart is decided by the plugin's profile *)
Section Restarted.
Context `{UnicodeTables} {D : Type}.
Variables (core : Sdk.Core) (h : handler D) (build : Sdk.Config → prog (pluginE D) unit).
Variables (failed : string) (kernel_env : string → string) (boot_time : Z).
Variables (cfg : Config) (pf : Profile) (I : D → Prop) (w : world).

Notation step := (system_step h (run_frame 0 core h failed build) kernel_env boot_time).
Notation wp := (wp step).
Notation decided_at w := (decided core kernel_env cfg pf I w).

Context (laws : ∀ (o : outside D) token, PluginLaws core h build (plugin_environment kernel_env cfg w)
                  (file_read (boot_files cfg o token))
                  (Handshake.sdk_config cfg (next_generation w) token) pf I).
Hypothesis id_ok : valid_id (PluginID cfg) = true.
Hypothesis boot_in_time : 0 <= boot_time ∧ boot_time + 50 * Millisecond <= DialTimeout cfg.

(** A start is decided by the generation it begins. *)
Lemma decided_generation w1 r s :
  next_generation w1 = next_generation w → decided_at w1 r s → decided_at w r s.
Proof.
  intros E. unfold decided, acceptable, in_place, plugin_environment. by rewrite E.
Qed.

Lemma startLocked_again w1 o1 :
  next_generation w1 = next_generation w → 0 <= st_GenerationID (state (w_m w1)) < two64 →
  idle w1 → fresh w1 →
  wp (startLocked cfg) (λ r s, decided_at w r s
    ∧ (r = None → ∃ p c caps, w_m s.1 = (start_commit cfg p c caps (w_m w1)).2)) (w1, o1).
Proof.
  intros E Hg Hi Hf. eapply wp_mono; [apply (startLocked_outcome core h build failed kernel_env boot_time
    cfg pf I w1 o1)|]; try done.
  - intros token. unfold plugin_environment. rewrite E. apply laws.
  - intros r [w2 o2] [Hd Hr]. split; [by eapply decided_generation|]. intros ->.
    destruct Hr as (p & c & token & env & cred & auth & caps & Hr). exists p, c, caps. apply Hr.
Qed.

(** The manager is open, for its monitor too. *)
Definition open (m : Manager) : Prop := closed m = false ∧ closedCh m = false.

Lemma Restart_decided o :
  Inv cfg w → open (w_m w) →
  wp (Restart cfg) (λ r s, decided_at w r s ∧ (r = None → open (w_m s.1))) (w, o).
Proof.
  intros Hi [Hc Hch]. unfold Restart. apply system_lifecycle, system_read_seq.
  cbn [fst view view_closed]. rewrite Hc. cbv zeta. apply system_log_seq, wp_bind.
  eapply wp_mono; [by apply stopCurrent_stops|].
  intros r [w1 o1] [-> Hs]. cbn [fst] in Hs. cbn beta iota.
  destruct (stop_Inv _ _ _ _ _ Hi Hc Hs) as (Hi1 & E1 & E2 & E3 & E4 & _).
  assert (closedCh (w_m w1) = false) as Hch1.
  { rewrite (stopped_m _ _ _ _ _ Hs). unfold stopped_manager, stop_begin. by rewrite Hc. }
  apply wp_bind. eapply wp_mono; [apply startLocked_again|].
  - unfold next_generation. by rewrite E4.
  - apply Hi1.
  - by split_and!.
  - apply Hi1.
  - intros [e|] [w2 o2] [Hd Hm].
    + apply system_log_seq. split; [exact Hd|done].
    + apply system_read_seq, system_log_seq. split; [exact Hd|]. intros _.
      destruct (Hm eq_refl) as (p & c & caps & E). cbn [fst] in E |- *. by rewrite E.
Qed.

(** What the restart left, when the plugin is acceptable. *)
Lemma Restart_restores o :
  Inv cfg w → open (w_m w) → acceptable cfg pf w →
  wp (Restart cfg) (λ r s, r = None ∧ restarted cfg w None s.1 ∧ open (w_m s.1)
    ∧ st_Capabilities (state (w_m s.1)) = pf_capabilities pf
    ∧ ∃ token, in_place core kernel_env cfg pf I w token true s.2) (w, o).
Proof.
  intros Hi Hopen Hok. eapply wp_mono; [apply (wp_conj step); [by apply Restart_decided|]|].
  - apply (system_manager _ _ _ _ (Restart cfg) (restarted cfg w)). by apply Restart_spec.
  - intros r s [[[Hiff Hin] Ho] Hr]. assert (r = None) as -> by by apply Hiff.
    destruct (Hin eq_refl) as [Hcaps Hthere]. split_and!; auto.
Qed.
End Restarted.

(** ** The monitor *)
Section Monitored.
Context `{UnicodeTables} {D : Type}.
Variables (core : Sdk.Core) (h : handler D) (build : Sdk.Config → prog (pluginE D) unit).
Variables (failed : string) (kernel_env : string → string) (boot_time : Z).
Variables (cfg : Config) (pf : Profile) (I : D → Prop) (w : world).

Notation step := (system_step h (run_frame 0 core h failed build) kernel_env boot_time).
Notation wp := (wp step).
Notation there := (in_place core kernel_env cfg pf I w).

Context (laws : ∀ (o : outside D) token, PluginLaws core h build (plugin_environment kernel_env cfg w)
                  (file_read (boot_files cfg o token))
                  (Handshake.sdk_config cfg (next_generation w) token) pf I).
Hypothesis id_ok : valid_id (PluginID cfg) = true.
Hypothesis boot_in_time : 0 <= boot_time ∧ boot_time + 50 * Millisecond <= DialTimeout cfg.
(** The plugin passes the kernel's checks and reports itself healthy. *)
Hypothesis plugin_ok : acceptable cfg pf w.
Hypothesis plugin_healthy : ∀ token o,
  serves core h kernel_env cfg pf I w token o RHeartbeat (λ a, True ∧ hr_Status a = StatusHealthy).

(** The plugin of the generation after [w] is up. *)
Record well (s : world * outside D) : Prop := {
  well_inv : Inv cfg s.1;
  well_open : open (w_m s.1);
  well_client : is_Some (client (w_m s.1));
  well_healthy : st_Healthy (state (w_m s.1)) = true;
  well_generation : st_GenerationID (state (w_m s.1)) = next_generation w;
  well_there : ∃ token, there token true s.2;
}.

(** A tick finds it well, and changes nothing of the manager. *)
Lemma tick_well s :
  well s → wp (monitor_tick cfg) (λ again s', again = true ∧ w_m s'.1 = w_m s.1 ∧ well s') s.
Proof.
  destruct s as [w1 o1]. intros [Hi Hopen [c Hc] Hh Hg [token Ho]]. cbn [fst snd] in *.
  unfold monitor_tick. apply wp_bind.
  eapply wp_mono; [apply (wp_conj step); [|apply (system_manager _ _ _ _ _ (λ _, Inv cfg)), Heartbeat_Inv, Hi]|].
  - eapply (Heartbeat_served core h build failed kernel_env boot_time cfg pf I w c token w1 o1 Hc (proj1 Hopen) Ho).
    apply plugin_healthy.
  - intros [out e] [w2 o2] [([_ He] & Hm & Ho2) Hi2]. cbn [fst snd] in *. subst e.
    assert (w_m w2 = w_m w1) as E.
    { rewrite Hm. clear -Hh. destruct (w_m w1) as [[] ? ? ? ? ? ? ?]. cbn in *. by subst. }
    split; [done|]. split; [exact E|].
    constructor; cbn [fst snd]; rewrite ?E; try done. by exists token.
Qed.

(** A tick finds it gone, and brings it up. *)
Lemma tick_heals o :
  Inv cfg w → open (w_m w) → gone w o →
  wp (monitor_tick cfg) (λ again s', again = true ∧ well s') (w, o).
Proof.
  intros Hi [Hc Hch] Hgone. unfold monitor_tick. apply wp_bind.
  eapply wp_mono; [apply (wp_conj step); [by apply Heartbeat_gone|
    apply (system_manager _ _ _ _ _ (λ _, Inv cfg)), Heartbeat_Inv, Hi]|].
  intros [out e] [w1 o1] [[[e' He] Hd] Hi1]. cbn [fst snd] in *. subst e.
  destruct (detached_kept _ _ Hd) as (Ec & Ech & Eg). rewrite Hc in Ec. rewrite Hch in Ech.
  assert (next_generation w1 = next_generation w) as E by (unfold next_generation; by rewrite Eg).
  apply system_read_seq. cbn [fst]. rewrite Ech. apply system_log_seq, wp_bind.
  eapply wp_mono; [apply (wp_conj step); [apply (Restart_restores core h build failed kernel_env boot_time cfg pf I w1)|
    apply (system_manager _ _ _ _ _ (λ _, Inv cfg)), Restart_Inv, Hi1]|]; try done.
  - intros o2 token. unfold plugin_environment. rewrite E. apply laws.
  - unfold acceptable. rewrite E. exact plugin_ok.
  - intros r [w2 o2] [(-> & (p & c & _ & Hcl & _ & _ & Hh & _ & Hg & _) & Hopen & _ & token & Ho) Hi2].
    cbn [fst snd] in *. split; [done|]. constructor; cbn [fst snd]; try done; [congruence|].
    exists token. revert Ho. unfold in_place, plugin_environment. by rewrite E.
Qed.

Lemma loop_well n s :
  well s → wp (MonitorLoop cfg n) (λ _ s', w_m s'.1 = w_m s.1 ∧ well s') s.
Proof.
  revert s. induction n as [|n IH]; intros s Hs; [done|]. cbn [MonitorLoop]. apply wp_bind.
  eapply wp_mono; [by apply tick_well|]. intros again s1 (-> & E & Hs1). rewrite <- E. by apply IH.
Qed.

Lemma loop_heals n o :
  Inv cfg w → open (w_m w) → gone w o →
  wp (MonitorLoop cfg (S n)) (λ _ s', well s') (w, o).
Proof.
  intros Hi Hopen Hgone. cbn [MonitorLoop]. apply wp_bind.
  eapply wp_mono; [by apply tick_heals|]. intros again s1 (-> & Hs1).
  eapply wp_mono; [by apply loop_well|]. by intros [] s2 [_ Hs2].
Qed.
End Monitored.

(** ** The echo plugin, monitored *)
Section EchoMonitored.
Context `{UnicodeTables}.
Variables (kernel_env : string → string) (boot_time : Z) (cfg : Config) (w : world).

Notation g := (next_generation w).
Notation wp := (wp (system_step echo_methods (echo_run 0) kernel_env boot_time)).
(** The echo plugin of the generation after [w] is healthy and in place. *)
Definition echo_well : world * outside echoPlugin → Prop :=
  well echo_core kernel_env cfg (echo_profile (PluginID cfg) g) (echo_object (PluginID cfg) g) w.

(** C17. The monitor keeps a plugin up.  On a machine where nothing fails by
    itself but the plugin: whatever consistent state an open manager is in, if
    its plugin's process has died or the connection to it was given up, the
    first tick of the monitor restarts it, and from then on the plugin of the
    next generation is authenticated, healthy and in place; and a plugin that is
    in place and healthy is never restarted, any number of ticks leaving the
    manager exactly as it was. *)
Theorem monitor_heals n :
  valid_id (PluginID cfg) = true →
  0 <= boot_time ∧ boot_time + 50 * Millisecond <= DialTimeout cfg →
  Inv cfg w → open (w_m w) →
  (∀ o, plug o = None ∨ client (w_m w) = None →
     wp (MonitorLoop cfg (S n)) (λ _ s', echo_well s') (w, o))
  ∧ ∀ s, echo_well s → wp (MonitorLoop cfg n) (λ _ s', w_m s'.1 = w_m s.1 ∧ echo_well s') s.
Proof.
  intros Hid Hboot Hi Hopen.
  assert (∀ (o : outside echoPlugin) token, PluginLaws echo_core echo_methods echo_build
    (plugin_environment kernel_env cfg w) (file_read (boot_files cfg o token))
    (Handshake.sdk_config cfg g token) (echo_profile (PluginID cfg) g) (echo_object (PluginID cfg) g)) as Hlaws
    by (intros o token; by apply echo_laws).
  assert (∀ token o, serves echo_core echo_methods kernel_env cfg (echo_profile (PluginID cfg) g)
    (echo_object (PluginID cfg) g) w token o RHeartbeat (λ a, True ∧ hr_Status a = StatusHealthy)) as Hserves.
  { intros token o srv s Hs. eapply wp_mono; [by apply echo_serves_heartbeat|].
    intros a s' [[[_ Ha] He] Hs']. done. }
  split.
  - intros o Hgone. eapply (loop_heals echo_core echo_methods echo_build); try done. apply echo_acceptable.
  - intros s Hs. eapply (loop_well echo_core echo_methods echo_build); try done.
Qed.
End EchoMonitored.

#[local] Existing Instance ascii_tables.
#[local] Instance echo_inhabited : Inhabited echoPlugin :=
  populate (mkEchoPlugin (Sdk.mkTemplatePlugin "" 0 "" 0)).

(** A monitor brings a plugin up, the plugin dies, and the monitor brings up
    the next one. *)
Lemma monitor_heals_witness :
  ∃ s s', exec (system_step echo_methods (echo_run 0) (λ _, "") (100 * Millisecond))
      (MonitorLoop demo_cfg 1) (world0, outside0 ∅) tt s
    ∧ st_GenerationID (state (w_m s.1)) = 1
    ∧ exec (system_step echo_methods (echo_run 0) (λ _, "") (100 * Millisecond))
        (MonitorLoop demo_cfg 3) (s.1, with_plug s.2 None) tt s'
    ∧ st_GenerationID (state (w_m s'.1)) = 2 ∧ st_Healthy (state (w_m s'.1)) = true.
Proof.
  destruct (system_runs echo_methods (echo_run 0) (λ _, "") (100 * Millisecond)
    (MonitorLoop demo_cfg 1) (world0, outside0 ∅)) as ([] & s & He).
  pose proof (wp_sound _ _ _ _ _ _ (proj1 (monitor_heals (λ _, "") (100 * Millisecond) demo_cfg world0 0
    eq_refl demo_in_time (Inv_world0 demo_cfg) (conj eq_refl eq_refl)) _ (or_intror eq_refl)) He)
    as [Hi Hopen _ _ Hg _].
  destruct (system_runs echo_methods (echo_run 0) (λ _, "") (100 * Millisecond)
    (MonitorLoop demo_cfg 3) (s.1, with_plug s.2 None)) as ([] & s' & He').
  pose proof (wp_sound _ _ _ _ _ _ (proj1 (monitor_heals (λ _, "") (100 * Millisecond) demo_cfg s.1 2
    eq_refl demo_in_time Hi Hopen) (with_plug s.2 None) (or_introl eq_refl)) He') as [_ _ _ Hh' Hg' _].
  exists s, s'. split; [exact He|]. split; [rewrite Hg; reflexivity|]. split; [exact He'|].
  split; [|exact Hh']. rewrite Hg'. unfold next_generation. rewrite Hg. reflexivity.
Defined.
